(* ===== verification/_CoqProject ===== *)
-Q . S2P
Prelude.v
Floats.v
Core.v
RateLimit.v
Backpressure.v
Cancel.v
Allocator.v
Parser.v
Sse.v
Http1.v
Frame.v
FileWal.v
WalLive.v
Scheduler.v
Server.v
Weighted.v
KvAware.v
Circuit.v
Hedged.v
Timers.v
TimerSpec.v
Capability.v
Text.v
WalLog.v
Filter.v
Obs.v
Sinks.v
TokenLevel.v
Mcp.v
Gpu.v
Nvml.v
Signals.v
Config.v
McpSetup.v
Process.v
Operator.v
Controller.v
Replay.v
AuditTrail.v
AuditRace.v
Io.v
Proxy.v
Gateway.v
