(* ===== verification/Prelude.v ===== *)
(** * Riftgate: a verification library for the gateway's core

    Riftgate is an LLM gateway in Rust.  A request enters the handler
    ([riftgate/src/proxy.rs]), passes the MCP capability broker where it is an MCP call
    ([riftgate-mcp]), is routed to a backend ([riftgate-router], behind a circuit
    breaker), is forwarded, and its reply is streamed back; around it stand admission
    (rate limiter, backpressure, the sharded scheduler), the stream parsers, stream
    cancellation, timers, and a write-ahead log that audits decisions; an observability bus
    and GPU and token metrics watch it, configuration and a Kubernetes operator set it up.
    This library
    translates these parts into executable definitions and proves what makes each of them
    correct; where the code does not do what its documentation says, a theorem shows the
    run in which it does not.

    ** Files, in dependency order, and the sources they model

    - [Prelude]: machine integers with their wrap-around, little-endian bytes, results,
      runs of action lists, the tactics and list lemmas the components share.
    - [Floats]: binary32 and binary64 as specification floats, with Rust's casts.
    - [Core]: identifiers, requests, headers, status codes, the backend pool, signals and
      decisions of [riftgate-core] ([types.rs], [request.rs], [router.rs]); the [Router]
      trait as a class, and [AvoidsOpen], what the circuit breaker expects of the router
      it wraps.
    - [RateLimit] ([rate_limit.rs]): the packed token bucket.  One caller ([check]) and
      interleaved threads ([thread_step]).
    - [Backpressure] ([backpressure.rs]): the high-water policy and its abstract
      specification on histories of queue depths.
    - [Cancel] ([cancel.rs]): the first-cause-wins slot and the token, under every
      interleaving of trips; the token of [tokio_util] is the class [Token].
    - [Allocator] ([allocator.rs]): the trait with its contract, the system allocator and the
      bump arena over a memory of bytes; the process heap and [bumpalo] are the classes
      [GlobalAlloc] and [Bump].
    - [Parser] ([parser.rs]): events, errors, the [StreamParser] trait and [feeds], a
      stream in chunks.  [Sse] ([riftgate-parser/src/sse.rs]) and [Http1]
      ([riftgate-parser/src/http1.rs]) are its two instances; [httparse] is a parameter
      with the contract [Incremental].
    - [Frame] ([riftgate-replay/src/frame.rs]) and [FileWal] ([file_wal.rs]): the log's
      format, and one shard of the log as a machine of critical sections over a model of
      the page cache (what the kernel holds, what is on disk), with the condition variable its
      callers wait on, its notifications and spurious wakeups.  [WalLive]: the waits of that
      machine end.
    - [Scheduler] ([riftgate/src/scheduler.rs], [queue.rs]): the sharded queue call by
      call, and submitters, workers and shutdown as a machine; [crossbeam]'s channel is
      the class [Channel].
    - [Server] ([riftgate/src/server.rs], [shutdown.rs]): the accept loop, its connection
      tasks and the drain as a machine, in both builds.
    - [Weighted] ([weighted.rs], [round_robin.rs], [constant.rs]): Vose's alias table,
      the generator and the three simple routers.
    - [KvAware] ([kv_aware.rs]): the prefix trie over any router, refining a finite map.
    - [Circuit] ([circuit.rs]): the breaker over any router, a [route] in its two critical
      halves, and its two mutexes.
    - [Hedged] ([hedged.rs], the router stack of [riftgate/src/main.rs]): the P-square
      quantile estimator, the hedging router over any router that sends only
      ([NeverHedges]), and the production stack breaker, hedge, trie, weights.
    - [Timers] ([timers.rs]): the binary heap as the array it is, lazy cancellation and
      compaction.  [TimerSpec]: the [TimerSubsystem] trait, its two implementations and the
      map they refine.
    - [Capability] ([capability.rs], [tenant.rs], [wal.rs]): MCP requests and decisions,
      the [CapabilityBroker], [WAL] and [TenantResolver] traits, the tenant name hash.
    - [Text]: the string operations of the standard library that the parsers use: trimming,
      splitting, integer and float parsing, lossy UTF-8.
    - [WalLog] ([file_wal.rs]): the whole log over its shards behind the [WAL] trait: segment
      names, open, append, flush, shutdown, each append a run of the machine of [FileWal].
    - [Filter] ([filter.rs], [chain.rs], [wasm.rs]): filters, the chain, and the WASM host
      over a parameter for the engine.
    - [Obs] ([obs.rs], [bus.rs], [multi_sink.rs], [bpf.rs], the JSON and OTel sinks): events
      and the bounded bus with its worker as a machine.  [Sinks]: the sinks of the gateway
      down to what they write, and the slots of [riftgate-obs-bpf].
    - [TokenLevel] ([token_level/]): the reservoir sampler and the capped aggregator.
    - [Mcp] ([riftgate-mcp]): the compiled allowlist, the broker with its attestations and
      audit, dry run, request parser.
    - [Gpu] ([gpu.rs], [gpu/dcgm.rs]): the pressure value and the scrape of an exporter;
      [Nvml] ([gpu/nvml.rs]): the in-process source over the answers of the library;
      [Signals] ([riftgate/src/signals.rs]): the snapshot the routers read.
    - [Config] ([riftgate-config], [build_tenant_resolver] of [main.rs]): schema, overrides,
      validation, loading, API keys.
    - [McpSetup] ([riftgate/src/mcp.rs]): the broker built at startup, with its key and log.
    - [Process] ([main.rs], [bootstrap.rs], [error.rs], [shutdown.rs]): the binary from its
      command line to its exit code, as effects in order.
    - [Operator] ([riftgate-operator]): specs, rendering, key collection, reconciliation;
      [Controller]: the turns of the control loop over the cluster, and the binary.
    - [Replay] ([riftgate-replay/src/bin/riftgate-replay.rs]): the replay command.
    - [AuditTrail]: the broker over the file log, crashed and read back by [Replay];
      [AuditRace]: calls of the broker in parallel over the machine of [FileWal].
    - [Io] ([io.rs], [mio_io.rs], [uring.rs]): the I/O backends over classes for [mio] and
      the ring.
    - [Proxy] ([proxy.rs], [health.rs], [spans.rs]): the handler, composed of the
      components above through their classes.  [Gateway]: requests one after the other
      through the handler with the production broker, log and router stack.

    ** How code becomes definitions

    State is passed explicitly; a struct is a record, an enum an inductive type, a trait
    a class.  A Rust integer is a [Z], and each operation that wraps, saturates or
    truncates says so ([wrapping_add], [wrap], ...).  An [Instant] or [SystemTime] is a
    number of nanoseconds (milliseconds where the code keeps milliseconds) and every
    reading of a clock an argument.  Concurrent code is a deterministic [exec] on atomic
    actions, and a theorem about every interleaving quantifies over action lists or over
    the reflexive transitive closure of the steps.  A panic or a loop that would never
    end is [None].  The handler, which threads state and early returns through many
    calls, uses a small monad of its own.

    ** What the theorems show

    - Admission: a bucket never grants more than burst plus refill in a window, its
      retry hint suffices, its word stays well formed under races; the policy sheds
      exactly when the history of depths says so.
    - Streams: both parsers give the same result however the bytes are cut into reads;
      the SSE framer inverts the encoder and is silent after its end.
    - Cancellation: in every interleaving one cause wins and everybody sees that cause.
    - Log: reading a log cut at any byte gives exactly the frames before the cut; an
      append acknowledged by the group commit survives a crash, within one segment and
      with ids in lock order, and two theorems show the loss outside of it; appends made one
      after the other are durable in every segment layout, and are runs of that machine; a
      waiting append is acknowledged, or notified so that its next step acknowledges it,
      after five steps of the flusher, in lock order, and not otherwise
      ([overtaken_append_starves]).
    - Memory: over the laws of the process heap and of [bumpalo], the pointers of either
      allocator are aligned, not null and apart, and an arena reads back what was written.
    - Scheduling: an item is pushed, popped and stolen by the stated discipline; each
      shard executes what it accepted in order, and what it accepted before shutdown is
      executed when its worker exits; after the flag is set every interleaving ends, with
      all workers gone.
    - Routing: the alias table has exactly the configured mass, the weighted router never
      sends to an open backend and to a hot one only when all are hot, round robin is
      fair, the trie router implements its map; a closed breaker trips exactly on a
      run of documented failures, stays shut for the reset timeout, then is probed and closes
      on a success; complete calls one after the other send at most [half_open_max] probes
      before a response, overlapping ones more ([concurrent_routes_overprobe]); hedges stay within
      their budget and neither half of one goes to a shut backend; the estimator's outer
      markers are the extremes observed.
    - Signals: an exporter's text yields a pressure between 0 and 1, the snapshot carries the
      last report of each backend, and the weighted router goes around a hot one.
    - Timers: no sequence of calls tells the heap with its lazy cancellation from a map in
      which a tick fires exactly the due timers, in order.
    - Capabilities: each decision means what the tenant's configuration says and is
      audited once; the handler forwards an MCP call only on an [Allow]; end to end, the
      replay command run on a crashed gateway's directory prints one record per MCP request,
      with the decision that ruled its answer; under any interleaving of calls the record of
      each answered one survives the crash, with its own correlation id.
    - Handler: a request that is routed publishes its spans in the documented order, except
      where the upstream fails ([unfinished_spans]), exactly one request is sent when
      dispatched, and the router hears of replies only.
    - Filters: requests run the chain in order and responses in reverse, up to the first that
      terminates; a loaded WASM filter shows the guest the whole message and fails closed.
    - Observability: the bus never blocks, loses nothing it accepted, counts what it dropped
      and, left to run, drains into every sink, one line of output per event when the writes
      go through; the reservoir samples uniformly; dimensions are bounded.
    - Shutdown: after the signal at most one connection is accepted, the loop ends by the
      deadline, and a complete drain of the tokio build served every connection that did not
      panic.
    - Configuration: every violation is reported, a loaded configuration is valid, has the value
      of every variable present and the file's elsewhere, whatever the order of the environment, and the credential reaches no
      error; the operator's keys resolve to the tenant of their last line, its document is
      deterministic and has no duplicate table when the route names stay distinct.
    - Process and operator: exit codes, the order of the effects of a run, what [--check]
      leaves alone, which settings have no effect; over any turns and API failures each
      gateway keeps the configuration and the Deployment of its own last successful writes.
    - Replay: the command decodes exactly the segments made of whole frames, however short
      its reads are.
    - I/O: the table of [MioIO] is what the poller watches; every descriptor of [UringIO]
      keeps a poll in the ring through calls and completions without errors.

    The theorems whose names end in what goes wrong ([.._lost], [.._unsynced],
    [.._stranded], [.._deadlock], [.._denied], [.._not_earliest], [.._lock_out],
    [.._never_trip], [.._overprobe], [.._counts_body], [.._not_counted], [.._ignored], [.._misses_queued],
    [.._grows], [.._fails], [.._unarmed], [.._doubles], [.._at_cap], [.._trusts_header],
    [.._repeats_ids], [.._starves], [.._undefined], [.._shutdown_waits], [.._drops_audit], [.._no_rollout], [inert_settings], [stale_clock_refills_bucket],
    [parabolic_leaves_the_line]) are closed runs or
    general statements of behaviour the documentation excludes.

    ** Bounds and fuel

    Loops that are not structural run on fuel, and each is shown to have enough: the
    frame reader one unit per frame and the length of the data ([parse_loop_sound]), the
    heap's sifts the array's length, [tick] one more than the heap's size
    ([tick_loop_spec] has no partial case), the HTTP loop three iterations
    ([http1_loop_fuel]), the replay decoder one more than the length of the segment
    ([decode_loop_exact]), its header reader one more than the header's length
    ([short_reads_agree]), the UTF-8 decoder the length of the bytes ([lossy_fuel]), the
    alias construction the number of backends.  The generator's
    loop is [None] on a zero state, which no seed produces.

    ** Not modelled

    The TLS client of [upstream.rs], one call of a builder.  Of tracing and OpenTelemetry the set-up is an
    effect or an answer of [Process]; the log lines are left out.  The WASM engine and its
    bindings, the answers of NVML and the scheduling of the operator's turns by kube-runtime
    are parameters.  The eBPF programs of the repository are their entry points, which
    return 0 ([Sinks]); it has no loader for them.

    Some effects are taken coarsely.  A task of the scheduler runs to its end in one step: it
    neither panics, which would end its worker, nor hangs.  A patch that the API server
    answers with an error has changed nothing.  The replay command sees a segment as a whole,
    or fails to open it; an error in the middle of a read is not told apart.  The reservoir
    takes its draw as an argument, and the range [0..n] of the generator is on the side of
    the statement ([outcomes]).  A guest call of the WASM engine returns.
    Third-party code that the models call ([httparse], [serde_json], HMAC and SHA-256, the
    channel, the token, the upstream client, wasmtime, the histogram, TOML, base64, NVML, the
    file system and the Kubernetes API server) is a parameter or a class. *)

From Stdlib Require Export ZArith Lia List Permutation Sorted.
From stdpp Require Export base tactics numbers list strings gmap sets relations sorting.

#[global] Open Scope Z_scope.

(** ** Notations and results *)

Declare Scope rift_scope.
Delimit Scope rift_scope with rift.

(** [Result<T, E>]: the error paths of the source are values of this type. *)
Inductive result (T E : Type) : Type :=
| Ok (v : T)
| Err (e : E).
Arguments Ok {T E} v.
Arguments Err {T E} e.

#[global] Instance result_eq_dec {T E : Type} `{EqDecision T, EqDecision E} :
  EqDecision (result T E).
Proof. solve_decision. Defined.

Definition result_bind {T U E : Type} (f : T -> result U E) (m : result T E) : result U E :=
  match m with Ok v => f v | Err e => Err e end.

(** The [?] operator of Rust. *)
Notation "x <-? m ; k" := (result_bind (fun x => k) m)
  (at level 100, m at next level, right associativity) : rift_scope.

(** ** Machine integers

    An unsigned integer of width [w] is a [Z] in [[0, 2^w)]; the operations that
    wrap, saturate or truncate in the source are written with these functions. *)

Definition in_uint (w z : Z) : Prop := 0 <= z < 2 ^ w.
Abbreviation in_u8 := (in_uint 8).
Abbreviation in_u16 := (in_uint 16).
Abbreviation in_u32 := (in_uint 32).
Abbreviation in_u64 := (in_uint 64).

(** Truncating cast ([as u32]), and the [wrapping_*] operations. *)
Definition wrap (w z : Z) : Z := z mod 2 ^ w.
Definition wrapping_add (w a b : Z) : Z := wrap w (a + b).
Definition wrapping_sub (w a b : Z) : Z := wrap w (a - b).
Definition wrapping_mul (w a b : Z) : Z := wrap w (a * b).

(** [saturating_add] and [div_ceil] of the unsigned types. *)
Definition saturating_add (w a b : Z) : Z := Z.min (a + b) (2 ^ w - 1).
Definition div_ceil (a b : Z) : Z :=
  if a mod b =? 0 then a / b else a / b + 1.

Definition U32_MAX : Z := 2 ^ 32 - 1.
Definition U64_MAX : Z := 2 ^ 64 - 1.

(** [usize] is 64 bits wide on the supported targets. *)
Abbreviation in_usize := (in_uint 64).

(** ** Automation *)

Create HintDb rift.

(** [zcases]: turn a boolean comparison of the code into the order it decides. *)
Ltac zcases :=
  repeat match goal with
  | |- context [Z.eqb ?a ?b] => destruct (Z.eqb_spec a b)
  | |- context [Z.leb ?a ?b] => destruct (Z.leb_spec a b)
  | |- context [Z.ltb ?a ?b] => destruct (Z.ltb_spec a b)
  | H : context [Z.eqb ?a ?b] |- _ => destruct (Z.eqb_spec a b)
  | H : context [Z.leb ?a ?b] |- _ => destruct (Z.leb_spec a b)
  | H : context [Z.ltb ?a ?b] |- _ => destruct (Z.ltb_spec a b)
  end.

(** Split every conjunction and existential of the context. *)
Ltac break :=
  repeat match goal with
  | H : _ /\ _ |- _ => destruct H
  | H : exists _, _ |- _ => destruct H
  end.

(** Case on the innermost [match] of the goal or of a hypothesis, keep its equation. *)
Ltac cases :=
  match goal with
  | |- context [match ?x with _ => _ end] =>
      lazymatch x with context [match _ with _ => _ end] => fail | _ => destruct x eqn:? end
  | H : context [match ?x with _ => _ end] |- _ =>
      lazymatch x with context [match _ with _ => _ end] => fail | _ => destruct x eqn:? end
  end.

(** Split a [Forall] over a concrete list into its members. *)
Ltac forall_members := repeat first [apply Forall_nil_2 | apply Forall_cons_2].

(** ** Integers: the lemmas the components share *)

Lemma wrap_range w z : 0 <= w -> in_uint w (wrap w z).
Proof. intros Hw. unfold in_uint, wrap. apply Z.mod_pos_bound. apply Z.pow_pos_nonneg; lia. Qed.

Lemma wrap_small w z : in_uint w z -> wrap w z = z.
Proof. apply Z.mod_small. Qed.

Lemma wrapping_sub_le w a b :
  in_uint w a -> in_uint w b -> b <= a -> wrapping_sub w a b = a - b.
Proof. unfold in_uint, wrapping_sub, wrap; intros. apply Z.mod_small; lia. Qed.

Lemma wrapping_sub_gt w a b :
  in_uint w a -> in_uint w b -> a < b -> wrapping_sub w a b = a - b + 2 ^ w.
Proof.
  unfold in_uint, wrapping_sub, wrap; intros.
  replace (a - b) with (a - b + 2 ^ w + (-1) * 2 ^ w) by lia.
  rewrite Z.mod_add by lia. rewrite Z.mod_small; lia.
Qed.

Lemma div_ceil_spec a b : 0 <= a -> 0 < b -> a <= div_ceil a b * b < a + b.
Proof.
  intros Ha Hb. unfold div_ceil.
  pose proof (Z.div_mod a b ltac:(lia)). pose proof (Z.mod_pos_bound a b Hb).
  zcases; nia.
Qed.

Lemma div_ceil_nonneg a b : 0 <= a -> 0 < b -> 0 <= div_ceil a b.
Proof. intros Ha Hb. pose proof (div_ceil_spec a b Ha Hb). nia. Qed.

Lemma uint_bits_above w z n : in_uint w z -> w <= n -> Z.testbit z n = false.
Proof.
  unfold in_uint; intros Hz Hn. destruct (Z.ltb_spec w 0).
  - rewrite Z.pow_neg_r in Hz by lia. lia.
  - rewrite <- (Z.mod_small z (2 ^ w)) by done. apply Z.mod_pow2_bits_high. lia.
Qed.

(** A field below bit [w] and one shifted above it do not overlap. *)
Lemma land_shift_disjoint w hi lo : 0 <= w -> in_uint w lo -> Z.land (hi * 2 ^ w) lo = 0.
Proof.
  intros Hw Hlo. apply Z.bits_inj'; intros n Hn.
  rewrite Z.land_spec, Z.bits_0. destruct (Z.ltb_spec n w).
  - by rewrite Z.mul_pow2_bits_low.
  - by rewrite (uint_bits_above w lo), andb_false_r.
Qed.

(** Two halves packed in one word, as every packed atomic of the source does. *)
Lemma hi_lo_add w hi lo :
  0 <= w -> in_uint w lo -> Z.lor (Z.shiftl hi w) lo = hi * 2 ^ w + lo.
Proof.
  intros Hw Hlo. rewrite Z.shiftl_mul_pow2 by done.
  rewrite Z.add_nocarry_lxor, Z.lxor_lor by by apply land_shift_disjoint. done.
Qed.

Lemma hi_of_packed w hi lo : 0 <= w -> in_uint w lo -> Z.shiftr (hi * 2 ^ w + lo) w = hi.
Proof.
  intros Hw Hlo. rewrite Z.shiftr_div_pow2, Z.div_add_l by lia.
  rewrite Z.div_small by exact Hlo. lia.
Qed.

Lemma lo_of_packed w hi lo :
  0 <= w -> in_uint w lo -> Z.land (hi * 2 ^ w + lo) (Z.ones w) = lo.
Proof.
  intros Hw Hlo. rewrite Z.land_ones, Z.add_comm, Z.mod_add by lia.
  by apply Z.mod_small.
Qed.

(** ** Lists *)

Lemma elem_of_list_insert {A} (x y : A) (l : list A) (i : nat) : x ∈ <[i := y]> l -> x = y \/ x ∈ l.
Proof.
  intros (j & Hj)%list_elem_of_lookup. apply list_lookup_insert_Some in Hj as [(? & ? & ?)|[? Hj]].
  - by left.
  - right. by eapply list_elem_of_lookup_2.
Qed.

Lemma filter_all {A} (P : A -> Prop) `{!forall x, Decision (P x)} (l : list A) :
  Forall P l -> filter P l = l.
Proof. induction 1 as [|x l Hx Hl IH]; [done|]. by rewrite filter_cons_True, IH. Qed.

Lemma filter_none {A} (P : A -> Prop) `{!forall x, Decision (P x)} (l : list A) :
  Forall (fun x => ~ P x) l -> filter P l = [].
Proof. induction 1 as [|x l Hx Hl IH]; [done|]. by rewrite filter_cons_False. Qed.

(** Replacing one element changes a sum by that element's share. *)
Lemma sum_insert {A} (f : A -> nat) (l : list A) i x y :
  l !! i = Some x -> (list_sum (f <$> <[i := y]> l) + f x = list_sum (f <$> l) + f y)%nat.
Proof.
  revert i. induction l as [|z l IH]; intros [|i] Hi; [done..| |]; cbn in Hi |- *.
  - injection Hi as ->. unfold list_sum. lia.
  - pose proof (eq_trans (f_equal (fun n => f z + n)%nat (IH i Hi)) (Nat.add_assoc _ _ _)) as E.
    rewrite Nat.add_assoc in E. exact E.
Qed.

(** Starting anywhere, a cyclic walk of [n] steps visits each of [n] positions once. *)
Lemma cyclic_cover n start t : (t < n)%nat -> t ∈ (fun off => (start + off) mod n)%nat <$> seq 0 n.
Proof.
  intros Ht. apply list_elem_of_fmap. exists ((t + (n - start mod n)) mod n)%nat. split.
  - rewrite <- (Nat.Div0.add_mod_idemp_l start), Nat.Div0.add_mod_idemp_r.
    pose proof (Nat.mod_upper_bound start n ltac:(lia)).
    replace (start mod n + (t + (n - start mod n)))%nat with (t + 1 * n)%nat by lia.
    rewrite Nat.Div0.mod_add. by rewrite Nat.mod_small.
  - apply elem_of_seq. split; [lia|]. apply Nat.mod_upper_bound. lia.
Qed.

Lemma cyclic_seq n start :
  (0 < n)%nat -> (fun off => (start + off) mod n)%nat <$> seq 0 n ≡ₚ seq 0 n.
Proof.
  intros Hn. symmetry. apply submseteq_length_Permutation.
  - apply NoDup_submseteq; [apply NoDup_seq|]. intros t Ht%elem_of_seq. apply cyclic_cover. lia.
  - by rewrite length_fmap.
Qed.

(** ** Reachability *)

(** An invariant of the steps holds in every reachable state. *)
Lemma rtc_invariant {S} (R : relation S) (P : S -> Prop) s s' :
  (forall a b, R a b -> P a -> P b) -> rtc R s s' -> P s -> P s'.
Proof. intros Hstep. induction 1; eauto. Qed.

(** A deterministic machine driven by a schedule of actions, and its step relation. *)
Section schedule.
Context {A S : Type} (exec : A -> S -> option S).

Definition exec_step (s s' : S) : Prop := exists a, exec a s = Some s'.

Fixpoint exec_run (acts : list A) (s : S) : option S :=
  match acts with
  | [] => Some s
  | a :: acts => exec a s ≫= exec_run acts
  end.

Lemma exec_run_app acts acts' s : exec_run (acts ++ acts') s = exec_run acts s ≫= exec_run acts'.
Proof.
  revert s. induction acts as [|a acts IH]; intros s; cbn; [done|]. destruct (exec a s); cbn; [apply IH|done].
Qed.

Lemma exec_run_rtc acts s s' : exec_run acts s = Some s' -> rtc exec_step s s'.
Proof.
  revert s; induction acts as [|a acts IH]; intros s Hrun; cbn in Hrun; [by injection Hrun as <-|].
  destruct (exec a s) as [s1|] eqn:E; [|done]. eapply rtc_l; [by exists a|by apply IH].
Qed.
End schedule.

(** ** Bytes: the bytes of the wire and of the log, and little-endian integers *)

Abbreviation byte := Byte.byte.

#[global] Instance byte_eq_decision : EqDecision byte := Byte.byte_eq_dec.

Definition byte_to_Z (b : byte) : Z := Z.of_N (Byte.to_N b).
Definition byte_of_Z (z : Z) : byte := default Byte.x00 (Byte.of_N (Z.to_N (wrap 8 z))).

(** A byte string literal ([b"..."]). *)
Definition bstr (s : string) : list byte := String.list_byte_of_string s.

Lemma byte_to_Z_range b : in_u8 (byte_to_Z b).
Proof. unfold in_uint, byte_to_Z. pose proof (Byte.to_N_bounded b). lia. Qed.

Lemma byte_to_of_Z z : byte_to_Z (byte_of_Z z) = wrap 8 z.
Proof.
  unfold byte_to_Z, byte_of_Z. pose proof (wrap_range 8 z ltac:(lia)) as Hr.
  unfold in_uint in Hr. destruct (Byte.of_N (Z.to_N (wrap 8 z))) as [b|] eqn:E; simpl.
  - apply Byte.to_of_N in E. rewrite E. lia.
  - apply Byte.of_N_None_iff in E. lia.
Qed.

Lemma byte_of_to_Z b : byte_of_Z (byte_to_Z b) = b.
Proof.
  unfold byte_of_Z. rewrite wrap_small by apply byte_to_Z_range.
  unfold byte_to_Z. rewrite N2Z.id, Byte.of_to_N. done.
Qed.

(** [to_le_bytes] of an integer of [n] bytes, and [from_le_bytes]. *)
Fixpoint to_le_bytes (n : nat) (z : Z) : list byte :=
  match n with
  | O => []
  | S n => byte_of_Z z :: to_le_bytes n (z / 256)
  end.

Fixpoint from_le_bytes (bs : list byte) : Z :=
  match bs with
  | [] => 0
  | b :: bs => byte_to_Z b + 256 * from_le_bytes bs
  end.

Lemma length_to_le_bytes n z : length (to_le_bytes n z) = n.
Proof. revert z; induction n; simpl; auto. Qed.

Lemma from_to_le_bytes n z :
  in_uint (8 * Z.of_nat n) z -> from_le_bytes (to_le_bytes n z) = z.
Proof.
  unfold in_uint. revert z; induction n as [|n IH]; intros z Hz; simpl.
  - change (8 * Z.of_nat 0) with 0 in Hz. lia.
  - replace (8 * Z.of_nat (S n)) with (8 * Z.of_nat n + 8) in Hz by lia.
    rewrite Z.pow_add_r in Hz by lia. change (2 ^ 8) with 256 in Hz.
    rewrite IH, byte_to_of_Z by (split; [apply Z.div_pos|apply Z.div_lt_upper_bound]; lia).
    unfold wrap. change (2 ^ 8) with 256. pose proof (Z.div_mod z 256). lia.
Qed.

Lemma from_le_bytes_range bs : in_uint (8 * Z.of_nat (length bs)) (from_le_bytes bs).
Proof.
  unfold in_uint. induction bs as [|b bs IH]; cbn [from_le_bytes length]; [done|].
  replace (8 * Z.of_nat (S (length bs))) with (8 * Z.of_nat (length bs) + 8) by lia.
  rewrite Z.pow_add_r by lia. change (2 ^ 8) with 256.
  pose proof (byte_to_Z_range b) as Hb. unfold in_uint in Hb. lia.
Qed.

Lemma to_from_le_bytes bs : to_le_bytes (length bs) (from_le_bytes bs) = bs.
Proof.
  induction bs as [|b bs IH]; cbn [from_le_bytes length to_le_bytes]; [done|].
  pose proof (byte_to_Z_range b) as Hb. unfold in_uint in Hb. change (2 ^ 8) with 256 in Hb.
  f_equal.
  - rewrite <- (byte_of_to_Z b) at 2. unfold byte_of_Z, wrap. change (2 ^ 8) with 256.
    do 3 f_equal. rewrite (Z.mul_comm 256), Z.mod_add by lia. done.
  - rewrite (Z.mul_comm 256), Z.div_add, Z.div_small, Z.add_0_l by lia. exact IH.
Qed.

Create Rewrite HintDb rift_rw.
#[export] Hint Rewrite length_to_le_bytes : rift_rw.
#[export] Hint Resolve wrap_range byte_to_Z_range : rift.
