(* ===== verification/Floats.v ===== *)
(** * Floats: the [f32] and [f64] arithmetic the source uses

    IEEE-754 binary32 and binary64 as the specification floats of the Standard Library
    ([spec_float], round to nearest even), with Rust's casts, [clamp] and [signum].
    Everything is executable, so a witness can run code that computes with floats. *)

From Stdlib Require Import ZArith SpecFloat.
From S2P Require Import Prelude.

(** [z as f32] and [z as f64], for an integer [z]. *)
Definition f32_of_Z (z : Z) : spec_float := binary_normalize 24 128 z 0 false.
Definition f64_of_Z (z : Z) : spec_float := binary_normalize 53 1024 z 0 false.

(** A literal: the nearest float to [n / d]. *)
Definition f32_lit (n d : Z) : spec_float := SFdiv 24 128 (f32_of_Z n) (f32_of_Z d).
Definition f64_lit (n d : Z) : spec_float := SFdiv 53 1024 (f64_of_Z n) (f64_of_Z d).

Definition f32_mul : spec_float -> spec_float -> spec_float := SFmul 24 128.
Definition f32_div : spec_float -> spec_float -> spec_float := SFdiv 24 128.
Definition f64_add : spec_float -> spec_float -> spec_float := SFadd 53 1024.
Definition f64_sub : spec_float -> spec_float -> spec_float := SFsub 53 1024.
Definition f64_mul : spec_float -> spec_float -> spec_float := SFmul 53 1024.
Definition f64_div : spec_float -> spec_float -> spec_float := SFdiv 53 1024.

(** [x as f32] for an [f64]: round the value again. *)
Definition f64_as_f32 (x : spec_float) : spec_float :=
  match x with
  | S754_finite s m e => binary_round 24 128 s m e
  | _ => x
  end.

(** Comparisons, false on NaN as in Rust. *)
Abbreviation flt := SFltb.
Abbreviation fle := SFleb.

(** [clamp(lo, hi)]: NaN stays NaN. *)
Definition fclamp (lo hi x : spec_float) : spec_float :=
  if flt x lo then lo else if flt hi x then hi else x.

(** [max]: the other operand when one is NaN. *)
Definition fmax (a b : spec_float) : spec_float :=
  match a, b with
  | S754_nan, _ => b
  | _, S754_nan => a
  | _, _ => if flt a b then b else a
  end.

(** [signum] of an [f64]: +-1 with the sign of the operand, NaN on NaN. *)
Definition f64_signum (x : spec_float) : spec_float :=
  match x with
  | S754_nan => S754_nan
  | S754_zero s | S754_infinity s | S754_finite s _ _ =>
      if s then SFopp (f64_of_Z 1) else f64_of_Z 1
  end.

(** The integer part of a finite positive float, and the saturating cast [as u64]. *)
Definition fmag (m : positive) (e : Z) : Z :=
  if 0 <=? e then Z.pos m * 2 ^ e else Z.pos m / 2 ^ (- e).

Definition f_as_uint (w : Z) (x : spec_float) : Z :=
  match x with
  | S754_nan | S754_zero _ => 0
  | S754_infinity s => if s then 0 else 2 ^ w - 1
  | S754_finite true _ _ => 0
  | S754_finite false m e => Z.min (fmag m e) (2 ^ w - 1)
  end.

Lemma f_as_uint_range w x : 0 <= w -> in_uint w (f_as_uint w x).
Proof.
  intros Hw. assert (0 < 2 ^ w) by (apply Z.pow_pos_nonneg; lia).
  unfold in_uint, f_as_uint. destruct x as [|[]| |[] m e]; try lia.
  assert (0 <= fmag m e); [|lia]. unfold fmag. zcases.
  - apply Z.mul_nonneg_nonneg; [lia|apply Z.pow_nonneg; lia].
  - apply Z.div_pos; [lia|apply Z.pow_pos_nonneg; lia].
Qed.

#[export] Hint Resolve f_as_uint_range : rift.

(** ** The order of the floats that are not NaN

    The comparison is the lexicographic order of three integers, so that [lia] decides it. *)
Definition is_nan (x : spec_float) : bool := match x with S754_nan => true | _ => false end.

Definition fkey (x : spec_float) : Z * Z * Z :=
  match x with
  | S754_nan | S754_zero _ => (0, 0, 0)
  | S754_infinity s => if s then (-2, 0, 0) else (2, 0, 0)
  | S754_finite s m e => if s then (-1, - e, - Z.pos m) else (1, e, Z.pos m)
  end.

Definition key_lt (a b : Z * Z * Z) : Prop :=
  let '(a1, a2, a3) := a in let '(b1, b2, b3) := b in
  a1 < b1 \/ a1 = b1 /\ (a2 < b2 \/ a2 = b2 /\ a3 < b3).

Lemma fcompare_key x y :
  is_nan x = false -> is_nan y = false ->
  match SFcompare x y with
  | Some Lt => key_lt (fkey x) (fkey y)
  | Some Eq => fkey x = fkey y
  | Some Gt => key_lt (fkey y) (fkey x)
  | None => False
  end.
Proof.
  intros Hx Hy.
  destruct x as [[]|[]| |[] m1 e1]; destruct y as [[]|[]| |[] m2 e2]; try done; cbn; try lia;
    destruct (Z.compare_spec e1 e2); cbn; try lia; change (Pos.compare_cont Eq m1 m2) with (Pos.compare m1 m2);
    destruct (Pos.compare_spec m1 m2); cbn; subst; try done; lia.
Qed.

Lemma flt_key x y :
  is_nan x = false -> is_nan y = false -> flt x y = true <-> key_lt (fkey x) (fkey y).
Proof.
  intros Hx Hy. pose proof (fcompare_key x y Hx Hy) as Hc. unfold SFltb, key_lt in *.
  destruct (fkey x) as [[a1 a2] a3], (fkey y) as [[b1 b2] b3], (SFcompare x y) as [[]|];
    try done; simplify_eq; split; intros; try done; lia.
Qed.

Lemma fle_key x y :
  is_nan x = false -> is_nan y = false -> fle x y = true <-> ~ key_lt (fkey y) (fkey x).
Proof.
  intros Hx Hy. pose proof (fcompare_key x y Hx Hy) as Hc. unfold SFleb, key_lt in *.
  destruct (fkey x) as [[a1 a2] a3], (fkey y) as [[b1 b2] b3], (SFcompare x y) as [[]|];
    try done; simplify_eq; split; intros; try done; lia.
Qed.

Lemma flt_nan x y : flt x y = true -> is_nan x = false /\ is_nan y = false.
Proof. unfold SFltb. destruct x as [| | |[]], y as [| | |[]]; cbn; try done; by destruct s. Qed.

Lemma flt_or_fle x y : is_nan x = false -> is_nan y = false -> flt x y = false -> fle y x = true.
Proof. intros Hx Hy Hlt. apply fle_key; try done. rewrite <- flt_key; try done. by rewrite Hlt. Qed.

Lemma flt_fle x y : flt x y = true -> fle x y = true.
Proof. unfold SFltb, SFleb. by destruct (SFcompare x y) as [[]|]. Qed.

Lemma fle_refl x : is_nan x = false -> fle x x = true.
Proof. intros Hx. apply fle_key; try done. unfold key_lt. destruct (fkey x) as [[] ]. lia. Qed.

Lemma fle_nan x y : fle x y = true -> is_nan x = false /\ is_nan y = false.
Proof. unfold SFleb. destruct x as [| | |[]], y as [| | |[]]; cbn; try done; by destruct s. Qed.

Lemma fle_trans x y z : fle x y = true -> fle y z = true -> fle x z = true.
Proof.
  intros Hxy Hyz. destruct (fle_nan _ _ Hxy) as [Hx Hy], (fle_nan _ _ Hyz) as [_ Hz].
  apply fle_key in Hxy, Hyz; try done. apply fle_key; try done. unfold key_lt in *.
  destruct (fkey x) as [[] ], (fkey y) as [[] ], (fkey z) as [[] ]. lia.
Qed.

(** A clamped number that is not NaN lies between the bounds. *)
Lemma fclamp_bounds lo hi x :
  is_nan x = false -> fle lo hi = true -> fle lo (fclamp lo hi x) = true /\ fle (fclamp lo hi x) hi = true.
Proof.
  intros Hx Hb. destruct (fle_nan _ _ Hb) as [Hl Hh]. unfold fclamp.
  destruct (flt x lo) eqn:E1; [split; [by apply fle_refl|done]|].
  destruct (flt hi x) eqn:E2; [split; [done|by apply fle_refl]|].
  split; by apply flt_or_fle.
Qed.

(** ** Signs *)

(** NaN, or a float without the sign bit; the arithmetic keeps it. *)
Definition unsigned (x : spec_float) : Prop :=
  match x with
  | S754_nan => True
  | S754_zero s | S754_infinity s | S754_finite s _ _ => s = false
  end.

Lemma unsigned_round_aux prec emax m e l : unsigned (binary_round_aux prec emax false m e l).
Proof. unfold binary_round_aux. repeat cases; done. Qed.

Lemma unsigned_of_Z z : 0 <= z -> unsigned (f64_of_Z z).
Proof.
  intros Hz. unfold f64_of_Z, binary_normalize, binary_round. destruct z; [done| |lia].
  destruct (shl_align _ _ _). apply unsigned_round_aux.
Qed.

Lemma unsigned_div x y : unsigned x -> unsigned y -> unsigned (f64_div x y).
Proof.
  intros Hx Hy. destruct x as [[]|[]| |[]], y as [[]|[]| |[]]; try done; cbn [f64_div SFdiv].
  destruct (SFdiv_core_binary _ _ _ _ _ _) as [[]]. apply unsigned_round_aux.
Qed.

Lemma unsigned_not_neg x y : unsigned x -> fle y (S754_zero false) = true -> flt x y = false.
Proof.
  unfold SFleb, SFltb. destruct x as [[]|[]| |[]], y as [[]|[]| |[]]; cbn; done.
Qed.

(** ** Rounding never makes a NaN *)

Lemma shr_nonneg mrs e k : 0 <= shr_m mrs -> 0 <= shr_m (fst (shr mrs e k)).
Proof.
  assert (H1 : forall r, 0 <= shr_m r -> 0 <= shr_m (shr_1 r)) by (intros [[|[]|[]] ? ?]; cbn; lia).
  assert (Hi : forall p r, 0 <= shr_m r -> 0 <= shr_m (SpecFloat.iter_pos shr_1 p r)).
  { induction p as [p IH|p IH|]; intros r Hr; cbn; auto. }
  intros Hm. destruct k; cbn; auto.
Qed.

Lemma round_aux_not_nan prec emax s m e l : 0 <= m -> is_nan (binary_round_aux prec emax s m e l) = false.
Proof.
  intros Hm. unfold binary_round_aux, shr_fexp.
  destruct (shr (shr_record_of_loc m l) e _) as [r1 e1] eqn:E1.
  assert (H1 : 0 <= shr_m r1).
  { change r1 with (fst (r1, e1)). rewrite <- E1. apply shr_nonneg. by destruct l as [|[]]. }
  set (m2 := round_nearest_even (shr_m r1) (loc_of_shr_record r1)).
  assert (H2 : 0 <= m2).
  { unfold m2, round_nearest_even. destruct r1 as [m1 [] []]; cbn in *; try case_match; lia. }
  destruct (shr (shr_record_of_loc m2 loc_Exact) e1 _) as [r3 e3] eqn:E3.
  assert (H3 : 0 <= shr_m r3).
  { change r3 with (fst (r3, e3)). rewrite <- E3. by apply shr_nonneg. }
  destruct (shr_m r3); [done| |lia]. by destruct (_ <=? _).
Qed.

Lemma round_not_nan prec emax s m e : is_nan (binary_round prec emax s m e) = false.
Proof. unfold binary_round. destruct (shl_align _ _ _). by apply round_aux_not_nan. Qed.

Lemma as_f32_not_nan x : is_nan x = false -> is_nan (f64_as_f32 x) = false.
Proof. destruct x; try done. intros _. apply round_not_nan. Qed.

Lemma div_core_nonneg prec emax m1 e1 m2 e2 :
  0 <= m1 -> 0 < m2 -> 0 <= fst (fst (SFdiv_core_binary prec emax m1 e1 m2 e2)).
Proof.
  intros H1 H2. unfold SFdiv_core_binary.
  set (m' := match _ with Z0 => m1 | Z.pos _ => _ | Z.neg _ => 0 end).
  assert (0 <= m') by (unfold m'; case_match; [done|by apply Z.shiftl_nonneg|done]).
  pose proof (Z.div_pos m' m2 ltac:(done) ltac:(done)) as Hq. unfold Z.div in Hq.
  by destruct (Z.div_eucl m' m2).
Qed.

(** Dividing by a finite number other than zero keeps a number. *)
Lemma div_not_nan prec emax x s m e : is_nan x = false -> is_nan (SFdiv prec emax x (S754_finite s m e)) = false.
Proof.
  destruct x as [| | |sx mx ex]; try done. intros _. cbn [SFdiv].
  pose proof (div_core_nonneg prec emax (Z.pos mx) ex (Z.pos m) e ltac:(done) ltac:(done)) as Hd.
  destruct (SFdiv_core_binary _ _ _ _ _ _) as [[q e'] l]. by apply round_aux_not_nan.
Qed.

Lemma fmax_not_nan a b : is_nan a = false -> is_nan (fmax a b) = false.
Proof. intros Ha. unfold fmax. destruct a, b; try done; by destruct (flt _ _). Qed.
