(* ===== verification/Core.v ===== *)
(** * Core: the shared data model of [riftgate-core]

    Identifiers ([types.rs]), requests, headers and status codes ([request.rs]), the
    backend pool, the signals and the routing decisions ([router.rs]), and the [Router]
    trait as a type class.  A router is modelled by explicit state passing: [route]
    returns the decision with the router's next state. *)

From Stdlib Require Import SpecFloat.
From S2P Require Import Prelude Floats.

(** ** Identifiers: the newtypes of [types.rs] and [router.rs] over unsigned integers *)

Abbreviation RequestId := Z (only parsing).
Abbreviation TenantId := Z (only parsing).
Abbreviation RouteId := Z (only parsing).
Abbreviation BackendId := Z (only parsing).
Abbreviation StatusCode := Z (only parsing).

(** [RequestId::next]: a process-local [AtomicU64] starting at 1, [fetch_add] wraps. *)
Definition RequestId_next (counter : Z) : RequestId * Z :=
  (counter, wrapping_add 64 counter 1).

(** ** HTTP types *)

Inductive Method :=
| Get | Post | Put | Delete | Options | Head
| Other (raw : string).

Definition OK : StatusCode := 200.
Definition BAD_REQUEST : StatusCode := 400.
Definition UNAUTHORIZED : StatusCode := 401.
Definition FORBIDDEN : StatusCode := 403.
Definition NOT_FOUND : StatusCode := 404.
Definition TOO_MANY_REQUESTS : StatusCode := 429.
Definition INTERNAL_SERVER_ERROR : StatusCode := 500.
Definition BAD_GATEWAY : StatusCode := 502.
Definition SERVICE_UNAVAILABLE : StatusCode := 503.
Definition GATEWAY_TIMEOUT : StatusCode := 504.

Definition is_success (s : StatusCode) : bool := (200 <=? s) && (s <? 300).
Definition is_client_error (s : StatusCode) : bool := (400 <=? s) && (s <? 500).
Definition is_server_error (s : StatusCode) : bool := (500 <=? s) && (s <? 600).

(** ASCII case folding of one byte, and [eq_ignore_ascii_case] on byte slices. *)
Definition to_ascii_lowercase (b : byte) : byte :=
  let z := byte_to_Z b in
  if (65 <=? z) && (z <=? 90) then byte_of_Z (z + 32) else b.

Definition eq_ignore_ascii_case (a b : list byte) : bool :=
  bool_decide (map to_ascii_lowercase a = map to_ascii_lowercase b).

(** [Headers]: an ordered list of (name, value) pairs; duplicates are kept. *)
Record Headers := mkHeaders { entries : list (list byte * list byte) }.

Definition Headers_new : Headers := mkHeaders [].

Definition Headers_insert (h : Headers) (name value : list byte) : Headers :=
  mkHeaders (entries h ++ [(name, value)]).

Definition Headers_get (h : Headers) (name : list byte) : option (list byte) :=
  snd <$> List.find (fun kv => eq_ignore_ascii_case (fst kv) name) (entries h).

Inductive Body :=
| Empty
| Bytes (v : list byte).

Definition Body_len (b : Body) : nat :=
  match b with Empty => 0%nat | Bytes v => length v end.

Record Request := mkRequest {
  req_id : RequestId;
  req_method : Method;
  req_path : string;
  req_headers : Headers;
  req_body : Body;
}.

Record Response := mkResponse {
  resp_id : RequestId;
  resp_status : StatusCode;
  resp_headers : Headers;
  resp_body : Body;
}.

(** ** Backends *)

Inductive CircuitState := Closed | Open | HalfOpen.

#[global] Instance CircuitState_eq_dec : EqDecision CircuitState.
Proof. solve_decision. Defined.

(** The health signals of one backend; pressures and latencies are [f32]. *)
Record BackendSignal := mkSignal {
  circuit_state : CircuitState;
  gpu_pressure : option spec_float;
  recent_p99_ms : spec_float;
}.

Definition BackendSignal_default : BackendSignal :=
  mkSignal Closed None (S754_zero false).

Record BackendSignals := mkSignals { signals : list BackendSignal }.

(** [get]: the signal at the index, the default out of range. *)
Definition signals_get (s : BackendSignals) (id : BackendId) : BackendSignal :=
  default BackendSignal_default (signals s !! Z.to_nat id).

Record BackendPool := mkPool { backends : list BackendId }.

(** [get_modulo]: the indexing panics on no input, since [index % len < len]. *)
Definition get_modulo (p : BackendPool) (index : Z) : option BackendId :=
  match backends p with
  | [] => None
  | bs => bs !! Z.to_nat (index mod Z.of_nat (length bs))
  end.

Inductive RoutingDecision :=
| Send (b : BackendId)
| Hedge (bs : list BackendId)
| Reject (s : StatusCode).

#[global] Instance RoutingDecision_eq_dec : EqDecision RoutingDecision.
Proof. solve_decision. Defined.

(** What the caller reports back; the duration is in nanoseconds. *)
Record Outcome := mkOutcome {
  out_backend : BackendId;
  out_status : option StatusCode;
  out_duration : Z;
  out_ok : bool;
}.

(** ** The [Router] trait

    [clock] gives the successive readings of [Instant::now()] during one call. *)
Abbreviation Clock := (nat -> Z).

Class Router (R : Type) := {
  route : Clock -> Request -> BackendPool -> BackendSignals -> R -> RoutingDecision * R;
  on_response : Clock -> RoutingDecision -> Outcome -> R -> R;
}.

(** The promise a router makes to the circuit breaker that wraps it: under the
    router's own invariant, it never sends to a backend presented as [Open], and every
    call keeps the invariant. *)
Class AvoidsOpen (R : Type) `{Router R} := {
  router_inv : R -> Prop;
  route_inv : forall clk req pool sigs r,
    router_inv r -> router_inv (snd (route clk req pool sigs r));
  on_response_inv : forall clk d o r, router_inv r -> router_inv (on_response clk d o r);
  route_avoids_open : forall clk req pool sigs r b,
    router_inv r -> fst (route clk req pool sigs r) = Send b ->
    circuit_state (signals_get sigs b) <> Open;
}.

(** ** Lemmas the routers share *)

Lemma get_modulo_some p i : backends p <> [] -> exists b, get_modulo p i = Some b /\ b ∈ backends p.
Proof.
  intros Hne. unfold get_modulo. destruct (backends p) as [|b0 bs] eqn:E; [done|].
  assert (is_Some ((b0 :: bs) !! Z.to_nat (i mod Z.of_nat (length (b0 :: bs))))) as [b Hb].
  { apply lookup_lt_is_Some. pose proof (Z.mod_pos_bound i (Z.of_nat (length (b0 :: bs)))).
    simpl length in *. lia. }
  exists b. split; [done|]. by eapply list_elem_of_lookup_2.
Qed.
