(* ===== verification/RateLimit.v ===== *)
(** * RateLimit: [TokenBucketLimiter] of [riftgate-core/src/rate_limit.rs]

    One packed word per subject, [tokens_scaled] in the high half and the millisecond of
    the last refill in the low half.  [attempt] is one iteration of the CAS loop of
    [check]; [check] runs it with no other thread in between, and [step] interleaves the
    loads and the compare-exchanges of any number of threads on one subject's word.
    Products of [u64] are written with their wrap-around (release build). *)

From S2P Require Import Prelude Core.

(** ** Data *)

Record SubjectKey := mkSubject {
  tenant : TenantId;
  sk_route : RouteId;
  backend : option BackendId;
}.

#[global] Instance SubjectKey_eq_dec : EqDecision SubjectKey.
Proof. solve_decision. Defined.

#[global] Instance SubjectKey_countable : Countable SubjectKey.
Proof.
  apply (inj_countable' (fun k => (tenant k, sk_route k, backend k))
           (fun '(t, r, b) => mkSubject t r b)). by intros [].
Defined.

Definition per_tenant (t : TenantId) : SubjectKey := mkSubject t 0 None.
Definition per_route (t : TenantId) (r : RouteId) : SubjectKey := mkSubject t r None.

(** [retry_after] is a [Duration], in nanoseconds. *)
Inductive LimitDecision :=
| Allow
| Deny (retry_after : Z).

Inductive CostDimension := PerRequest | PromptTokens.

Record TokenBucketConfig := mkConfig {
  rate_per_sec : Z;
  burst : Z;
  cost : CostDimension;
  retry_after_floor : Z;
}.

Definition TokenBucketConfig_default : TokenBucketConfig :=
  mkConfig 100 100 PerRequest 50000000.

Definition TOKEN_BUCKET_SCALE : Z := Z.shiftl 1 16.

Record TokenBucketLimiter := mkLimiter {
  cfg : TokenBucketConfig;
  state : gmap SubjectKey Z;
}.

(** [new] panics ([None]) on a zero rate or a zero burst. *)
Definition new (c : TokenBucketConfig) : option TokenBucketLimiter :=
  if rate_per_sec c =? 0 then None
  else if burst c =? 0 then None
  else Some (mkLimiter c ∅).

(** ** Operations *)

(** [now_ms]: the milliseconds since the start, truncated to [u32]. *)
Definition now_ms (elapsed : Z) : Z := wrap 32 (wrap 64 elapsed).

Definition pack (tokens_scaled last_refill_ms : Z) : Z :=
  let tokens_u32 := wrap 32 (Z.min tokens_scaled U32_MAX) in
  Z.lor (Z.shiftl tokens_u32 32) last_refill_ms.

Definition unpack (st : Z) : Z * Z :=
  (wrap 32 (Z.shiftr st 32), wrap 32 (Z.land st (Z.ones 32))).

Definition saturating_scaled_burst (b : Z) : Z :=
  Z.min (wrapping_mul 64 b TOKEN_BUCKET_SCALE) U32_MAX.

Definition full_state (c : TokenBucketConfig) (now : Z) : Z :=
  pack (saturating_scaled_burst (burst c)) now.

Definition cost_units (c : TokenBucketConfig) (requested : Z) : Z :=
  match cost c with
  | PerRequest => 1
  | PromptTokens => Z.max requested 1
  end.

Definition retry_after_for (c : TokenBucketConfig) (deficit_scaled : Z) : Z :=
  let scaled_per_ms := Z.max (wrapping_mul 64 (rate_per_sec c) TOKEN_BUCKET_SCALE / 1000) 1 in
  let retry := div_ceil deficit_scaled scaled_per_ms * 1000000 in
  if retry <? retry_after_floor c then retry_after_floor c else retry.

Definition cost_scaled (c : TokenBucketConfig) (requested : Z) : Z :=
  wrapping_mul 64 (cost_units c requested) TOKEN_BUCKET_SCALE.

Definition refill_scaled (c : TokenBucketConfig) (elapsed_ms : Z) : Z :=
  wrapping_mul 64 (wrapping_mul 64 elapsed_ms (rate_per_sec c)) TOKEN_BUCKET_SCALE / 1000.

Definition after_refill (c : TokenBucketConfig) (now observed : Z) : Z :=
  let '(tokens_scaled, last_refill_ms) := unpack observed in
  let elapsed_ms := wrapping_sub 32 now last_refill_ms in
  Z.min (tokens_scaled + refill_scaled c elapsed_ms) (saturating_scaled_burst (burst c)).

(** One iteration of the loop: the decision and the word the thread tries to install. *)
Definition attempt (c : TokenBucketConfig) (now requested observed : Z) : LimitDecision * Z :=
  let refilled := after_refill c now observed in
  let cs := cost_scaled c requested in
  if refilled <? cs
  then (Deny (retry_after_for c (cs - refilled)), pack refilled now)
  else (Allow, pack (refilled - cs) now).

(** [check] with no concurrent writer: the first compare-exchange succeeds. *)
Definition check (elapsed : Z) (subject : SubjectKey) (requested : Z)
    (l : TokenBucketLimiter) : LimitDecision * TokenBucketLimiter :=
  let now := now_ms elapsed in
  let observed := default (full_state (cfg l) now) (state l !! subject) in
  let '(d, w) := attempt (cfg l) now requested observed in
  (d, mkLimiter (cfg l) (<[subject := w]> (state l))).

Definition NoopLimiter_check (_ : SubjectKey) (_ : Z) : LimitDecision := Allow.

(** A sequence of calls [(elapsed, subject, cost)], with the decisions. *)
Fixpoint checks (calls : list (Z * SubjectKey * Z)) (l : TokenBucketLimiter)
    : list LimitDecision * TokenBucketLimiter :=
  match calls with
  | [] => ([], l)
  | (t, k, q) :: calls =>
      let '(d, l) := check t k q l in
      let '(ds, l) := checks calls l in
      (d :: ds, l)
  end.

(** The scaled cost that [subject]'s allowed calls consumed. *)
Fixpoint admitted (c : TokenBucketConfig) (subject : SubjectKey)
    (calls : list (Z * SubjectKey * Z)) (ds : list LimitDecision) : Z :=
  match calls, ds with
  | (_, k, q) :: calls, d :: ds =>
      (if decide (k = subject) then match d with Allow => cost_scaled c q | Deny _ => 0 end else 0)
      + admitted c subject calls ds
  | _, _ => 0
  end.

(** ** The packed word *)

(** The configuration [new] accepts: [u32] fields, none zero. *)
Definition cfg_ok (c : TokenBucketConfig) : Prop :=
  in_u32 (rate_per_sec c) /\ in_u32 (burst c) /\ 0 < rate_per_sec c /\ 0 < burst c /\
  0 <= retry_after_floor c.

(** The well-formed words of a subject: never more tokens than the burst. *)
Definition word_ok (c : TokenBucketConfig) (w : Z) : Prop :=
  in_u64 w /\ 0 <= fst (unpack w) <= saturating_scaled_burst (burst c).

Definition limiter_ok (l : TokenBucketLimiter) : Prop :=
  cfg_ok (cfg l) /\ map_Forall (fun _ w => word_ok (cfg l) w) (state l).

(** Unsigned products that fit are the exact products; none is ever more than exact. *)
Lemma wrapping_mul_le w a b : 0 <= a * b -> 0 <= w -> 0 <= wrapping_mul w a b <= a * b.
Proof.
  intros H Hw. assert (0 < 2 ^ w) by (apply Z.pow_pos_nonneg; lia).
  unfold wrapping_mul, wrap. split; [apply Z.mod_pos_bound; lia|by apply Z.mod_le].
Qed.

Lemma pack_add tok ts :
  0 <= tok <= U32_MAX -> in_u32 ts -> pack tok ts = tok * 2 ^ 32 + ts.
Proof.
  unfold U32_MAX; intros Htok Hts. unfold pack, U32_MAX.
  rewrite Z.min_l, wrap_small by (unfold in_uint; lia).
  apply hi_lo_add; [lia|done].
Qed.

Lemma unpack_pack_eq tok ts :
  0 <= tok <= U32_MAX -> in_u32 ts -> unpack (pack tok ts) = (tok, ts).
Proof.
  intros Htok Hts. rewrite pack_add by done. unfold unpack.
  rewrite hi_of_packed, lo_of_packed by (done || lia).
  unfold U32_MAX in *. f_equal; apply wrap_small; unfold in_uint in *; lia.
Qed.

Lemma pack_u64 tok ts : 0 <= tok <= U32_MAX -> in_u32 ts -> in_u64 (pack tok ts).
Proof. intros. rewrite pack_add by done. unfold U32_MAX, in_uint in *. lia. Qed.

Lemma scaled_burst_range b : 0 <= saturating_scaled_burst b <= U32_MAX.
Proof.
  unfold saturating_scaled_burst, U32_MAX.
  pose proof (wrap_range 64 (b * TOKEN_BUCKET_SCALE) ltac:(lia)).
  unfold in_uint, wrapping_mul in *. lia.
Qed.

Lemma now_ms_range e : in_u32 (now_ms e).
Proof. by apply wrap_range. Qed.

Lemma now_ms_mod e : now_ms e = e mod 2 ^ 32.
Proof.
  unfold now_ms, wrap. change (2 ^ 64) with (2 ^ 32 * 2 ^ 32).
  rewrite Z.rem_mul_r by lia. rewrite Z.mul_comm, Z.mod_add by lia. by rewrite Z.mod_mod by lia.
Qed.

#[export] Hint Resolve now_ms_range scaled_burst_range pack_u64 : rift.

(** Elapsed time is measured modulo [2^32] ms, so it is never over-estimated. *)
Lemma elapsed_le T t : T <= t -> 0 <= wrapping_sub 32 (now_ms t) (now_ms T) <= t - T.
Proof.
  intros. unfold wrapping_sub, wrap. rewrite !now_ms_mod, <- Zminus_mod.
  split; [apply Z.mod_pos_bound; lia|apply Z.mod_le; lia].
Qed.

Lemma elapsed_exact T t :
  T <= t -> t - T < 2 ^ 32 -> wrapping_sub 32 (now_ms t) (now_ms T) = t - T.
Proof.
  intros. unfold wrapping_sub, wrap. rewrite !now_ms_mod, <- Zminus_mod.
  apply Z.mod_small; lia.
Qed.

Lemma refill_le c e :
  cfg_ok c -> 0 <= e -> 0 <= refill_scaled c e /\ 1000 * refill_scaled c e <= e * rate_per_sec c * TOKEN_BUCKET_SCALE.
Proof.
  intros (Hr & _ & Hr0 & _) He. unfold refill_scaled. change TOKEN_BUCKET_SCALE with 65536.
  pose proof (wrapping_mul_le 64 e (rate_per_sec c) ltac:(nia) ltac:(lia)) as H1.
  pose proof (wrapping_mul_le 64 (wrapping_mul 64 e (rate_per_sec c)) 65536 ltac:(nia) ltac:(lia)) as H2.
  split; [apply Z.div_pos; lia|].
  pose proof (Z.mul_div_le (wrapping_mul 64 (wrapping_mul 64 e (rate_per_sec c)) 65536) 1000). lia.
Qed.

Lemma refill_exact c e :
  cfg_ok c -> 0 <= e -> e * rate_per_sec c < 2 ^ 48 ->
  refill_scaled c e = e * rate_per_sec c * TOKEN_BUCKET_SCALE / 1000.
Proof.
  intros (Hr & _ & Hr0 & _) He Hlt. unfold refill_scaled, wrapping_mul.
  change TOKEN_BUCKET_SCALE with 65536.
  rewrite (wrap_small 64 (e * _)) by (unfold in_uint; nia).
  by rewrite wrap_small by (unfold in_uint; nia).
Qed.

Lemma cost_scaled_pos c q : in_u32 q -> 65536 <= cost_scaled c q < 2 ^ 48.
Proof.
  intros Hq. unfold cost_scaled, wrapping_mul. change TOKEN_BUCKET_SCALE with 65536.
  assert (1 <= cost_units c q < 2 ^ 32) by (unfold cost_units, in_uint in *; destruct (cost c); lia).
  rewrite wrap_small by (unfold in_uint; lia). lia.
Qed.

Lemma after_refill_range c now w :
  cfg_ok c -> word_ok c w -> in_u32 now ->
  0 <= after_refill c now w <= saturating_scaled_burst (burst c).
Proof.
  intros Hc [_ Hw] Hn. unfold after_refill. destruct (unpack w) as [tok ts]; simpl in Hw.
  pose proof (wrap_range 32 (now - ts) ltac:(lia)) as He.
  pose proof (refill_le c (wrapping_sub 32 now ts) Hc) as Hr.
  pose proof (scaled_burst_range (burst c)). unfold in_uint, wrapping_sub in *. lia.
Qed.

(** What a decision takes from the bucket. *)
Definition consumed (c : TokenBucketConfig) (q : Z) (d : LimitDecision) : Z :=
  match d with Allow => cost_scaled c q | Deny _ => 0 end.

(** One iteration, on a well-formed word: the new word holds the refilled tokens less
    what was consumed, and the clock of the call. *)
Lemma attempt_spec c now q w d w' :
  cfg_ok c -> word_ok c w -> in_u32 now -> in_u32 q -> attempt c now q w = (d, w') ->
  word_ok c w' /\ unpack w' = (after_refill c now w - consumed c q d, now).
Proof.
  intros Hc Hw Hn Hq Ha. pose proof (after_refill_range c now w Hc Hw Hn) as Hr.
  pose proof (scaled_burst_range (burst c)). pose proof (cost_scaled_pos c q Hq).
  unfold attempt in Ha. destruct (Z.ltb_spec (after_refill c now w) (cost_scaled c q));
    simplify_eq; unfold word_ok, consumed; rewrite unpack_pack_eq by (done || lia);
    cbn [fst]; (split; [split; [apply pack_u64; (done || lia)|lia]|f_equal; lia]).
Qed.

Lemma full_state_ok c now : cfg_ok c -> in_u32 now -> word_ok c (full_state c now).
Proof.
  intros Hc Hn. unfold full_state. pose proof (scaled_burst_range (burst c)).
  split; [by apply pack_u64|]. rewrite unpack_pack_eq by done. simpl; lia.
Qed.

Lemma observed_ok l k now :
  limiter_ok l -> in_u32 now -> word_ok (cfg l) (default (full_state (cfg l) now) (state l !! k)).
Proof.
  intros [Hc Hs] Hn. destruct (state l !! k) as [w|] eqn:E; simpl.
  - by eapply Hs.
  - by apply full_state_ok.
Qed.

(** ** [check], one caller at a time *)

Lemma check_spec t k q l d l' :
  limiter_ok l -> in_u32 q -> check t k q l = (d, l') ->
  let w := default (full_state (cfg l) (now_ms t)) (state l !! k) in
  limiter_ok l' /\ cfg l' = cfg l /\
  (forall k', k' <> k -> state l' !! k' = state l !! k') /\
  exists w', state l' !! k = Some w' /\
    unpack w' = (after_refill (cfg l) (now_ms t) w - consumed (cfg l) q d, now_ms t).
Proof.
  intros Hl Hq Hck w. pose proof (observed_ok l k (now_ms t) Hl (now_ms_range t)) as Hw.
  unfold check in Hck. fold w in Hck, Hw.
  destruct (attempt (cfg l) (now_ms t) q w) as [d0 w'] eqn:E. simplify_eq; simpl.
  apply attempt_spec in E as [Hw' Hu]; [|by apply Hl|done|apply now_ms_range|done].
  destruct Hl as [Hc Hs]. split_and!; [split; [done|]|done| |].
  - by apply map_Forall_insert_2.
  - intros k' Hk'. by rewrite lookup_insert_ne.
  - exists w'. by rewrite lookup_insert_eq.
Qed.

(** Refilling a word stamped [T] at a later time [t] adds at most the exact refill. *)
Lemma after_refill_le c T t w :
  cfg_ok c -> snd (unpack w) = now_ms T -> T <= t ->
  1000 * after_refill c (now_ms t) w
    <= 1000 * fst (unpack w) + (t - T) * rate_per_sec c * TOKEN_BUCKET_SCALE.
Proof.
  intros Hc HT Ht. unfold after_refill. destruct (unpack w) as [tok ts]; simpl in *; subst ts.
  pose proof (elapsed_le T t Ht) as He.
  pose proof (refill_le c _ Hc (proj1 He)) as [_ Hr].
  destruct Hc as (_ & _ & Hr0 & _). change TOKEN_BUCKET_SCALE with 65536 in *. nia.
Qed.

Definition time_of (call : Z * SubjectKey * Z) : Z := fst (fst call).
Definition costs_ok (calls : list (Z * SubjectKey * Z)) : Prop :=
  Forall (fun call => in_u32 (snd call)) calls.

(** From a word stamped [T], the calls up to [t1] are served from its tokens and the
    refill since [T]. *)
Lemma admitted_from k T t1 calls l w :
  limiter_ok l -> costs_ok calls -> state l !! k = Some w -> snd (unpack w) = now_ms T ->
  StronglySorted Z.le (T :: map time_of calls) ->
  Forall (fun call => time_of call <= t1) calls -> T <= t1 ->
  1000 * admitted (cfg l) k calls (fst (checks calls l))
    <= 1000 * fst (unpack w) + (t1 - T) * rate_per_sec (cfg l) * TOKEN_BUCKET_SCALE.
Proof.
  revert T l w. induction calls as [|[[t k0] q] calls IH]; intros T l w Hl Hq Hw HT Hs Ht1 HTt.
  { pose proof (proj2 Hl k w Hw) as [_ [Htok _]].
    assert (0 <= (t1 - T) * rate_per_sec (cfg l)) by (destruct Hl as [(_ & _ & Hr & _) _]; nia).
    simpl admitted. change TOKEN_BUCKET_SCALE with 65536. lia. }
  apply Forall_cons in Hq as [Hq Hqs]; simpl in Hq. apply Forall_cons in Ht1 as [Ht Ht1].
  apply StronglySorted_inv in Hs as [Hs HTle]. apply Forall_cons in HTle as [HTt' HTle].
  change (time_of (t, k0, q)) with t in *. cbn [checks admitted].
  destruct (check t k0 q l) as [d l1] eqn:Eck.
  destruct (checks calls l1) as [ds l2] eqn:Ecs. cbn [fst].
  replace ds with (fst (checks calls l1)) by by rewrite Ecs.
  apply check_spec in Eck as (Hl1 & Hcfg & Hoth & w' & Hw' & Hu); [|done..].
  case_decide as Hk.
  - subst k0. rewrite Hw in Hu; cbn [default from_option id] in Hu.
    pose proof (after_refill_le (cfg l) T t w (proj1 Hl) HT HTt').
    specialize (IH t l1 w' Hl1 Hqs Hw'). rewrite Hu, Hcfg in IH; cbn [fst snd] in IH.
    specialize (IH eq_refl Hs Ht1 Ht). fold (consumed (cfg l) q d).
    change TOKEN_BUCKET_SCALE with 65536 in *. nia.
  - rewrite <- Hcfg. apply IH; try done; [by rewrite Hoth|].
    apply StronglySorted_inv in Hs as [Hs _]. by constructor.
Qed.

Lemma admitted_window k t0 t1 calls l :
  limiter_ok l -> costs_ok calls -> StronglySorted Z.le (t0 :: map time_of calls) ->
  Forall (fun call => time_of call <= t1) calls -> t0 <= t1 ->
  1000 * admitted (cfg l) k calls (fst (checks calls l))
    <= 1000 * saturating_scaled_burst (burst (cfg l))
       + (t1 - t0) * rate_per_sec (cfg l) * TOKEN_BUCKET_SCALE.
Proof.
  revert t0 l. induction calls as [|[[t k0] q] calls IH]; intros t0 l Hl Hq Hs Ht1 Ht01.
  { pose proof (scaled_burst_range (burst (cfg l))).
    assert (0 <= (t1 - t0) * rate_per_sec (cfg l)) by (destruct Hl as [(_ & _ & Hr & _) _]; nia).
    simpl admitted. change TOKEN_BUCKET_SCALE with 65536. lia. }
  apply Forall_cons in Hq as [Hq Hqs]; simpl in Hq. apply Forall_cons in Ht1 as [Ht Ht1].
  apply StronglySorted_inv in Hs as [Hs Hle]. apply Forall_cons in Hle as [Ht0 Hle].
  change (time_of (t, k0, q)) with t in *. cbn [checks admitted].
  destruct (check t k0 q l) as [d l1] eqn:Eck.
  destruct (checks calls l1) as [ds l2] eqn:Ecs. cbn [fst].
  replace ds with (fst (checks calls l1)) by by rewrite Ecs.
  apply check_spec in Eck as (Hl1 & Hcfg & Hoth & w' & Hw' & Hu); [|done..].
  case_decide as Hk.
  - subst k0. fold (consumed (cfg l) q d).
    pose proof (after_refill_range (cfg l) (now_ms t) _ (proj1 Hl)
      (observed_ok l k (now_ms t) Hl (now_ms_range t)) (now_ms_range t)) as Hr.
    pose proof (admitted_from k t t1 calls l1 w' Hl1 Hqs Hw') as Hfrom.
    rewrite Hu, Hcfg in Hfrom; cbn [fst snd] in Hfrom. specialize (Hfrom eq_refl Hs Ht1 Ht).
    destruct Hl as [(_ & _ & Hrate & _) _]. change TOKEN_BUCKET_SCALE with 65536 in *. nia.
  - rewrite <- Hcfg. apply IH; try done.
    apply StronglySorted_inv in Hs as [Hs _]. by constructor.
Qed.

(** [C9] The token-bucket promise, for calls made one after the other on a clock that does not
    go back: whatever the order of subjects, the cost admitted for one subject in a window
    [[t0, t1]] (milliseconds) is at most the burst plus the refill of the window.
    It holds across the 49-day wrap of the millisecond clock and the wrap of the [u64]
    products, which only ever under-estimate the refill.  Calls that overlap are not covered:
    [stale_clock_refills_bucket]. *)
Theorem token_bucket_bound k t0 t1 calls l :
  limiter_ok l -> costs_ok calls -> StronglySorted Z.le (t0 :: map time_of calls) ->
  Forall (fun call => time_of call <= t1) calls -> t0 <= t1 ->
  1000 * admitted (cfg l) k calls (fst (checks calls l))
    <= 1000 * saturating_scaled_burst (burst (cfg l))
       + (t1 - t0) * rate_per_sec (cfg l) * TOKEN_BUCKET_SCALE.
Proof. apply admitted_window. Qed.

(** A concrete limiter for the witnesses: one request per second, burst two. *)
Definition demo_cfg : TokenBucketConfig := mkConfig 1 2 PerRequest 50000000.

Lemma demo_limiter_ok : limiter_ok (mkLimiter demo_cfg ∅).
Proof. split; [by repeat split|apply map_Forall_empty]. Qed.

Lemma token_bucket_bound_witness :
  let k := per_tenant 7 in
  let calls := [(5, k, 1); (6, k, 1); (6, per_tenant 8, 1); (7, k, 1)] in
  1000 * admitted demo_cfg k calls (fst (checks calls (mkLimiter demo_cfg ∅)))
    <= 1000 * saturating_scaled_burst 2 + (7 - 5) * 1 * TOKEN_BUCKET_SCALE.
Proof.
  apply (token_bucket_bound (per_tenant 7) 5 7 _ (mkLimiter demo_cfg ∅)).
  - exact demo_limiter_ok.
  - repeat constructor; cbn; lia.
  - repeat constructor; cbn; lia.
  - repeat constructor; cbn; lia.
  - lia.
Defined.

(** Well-formedness: every call keeps every stored word a [u64] whose token half is
    at most the configured burst, whatever the clock, the subject and the cost. *)
Theorem check_keeps_limiter_ok t k q l :
  limiter_ok l -> in_u32 q -> limiter_ok (snd (check t k q l)).
Proof.
  intros Hl Hq. destruct (check t k q l) as [d l'] eqn:E. by apply check_spec in E as [? _].
Qed.

Lemma check_keeps_limiter_ok_witness :
  limiter_ok (snd (check 4294967301 (per_tenant 7) 1 (mkLimiter demo_cfg ∅))).
Proof. apply check_keeps_limiter_ok; [exact demo_limiter_ok|done]. Defined.

(** The rounding of [retry_after_for] is upwards: the exact refill of the advised
    milliseconds covers the deficit. *)
Lemma retry_after_covers c deficit ms :
  cfg_ok c -> 0 <= deficit -> retry_after_for c deficit <= ms * 1000000 ->
  deficit <= ms * rate_per_sec c * TOKEN_BUCKET_SCALE / 1000.
Proof.
  intros (Hrate & _ & Hr0 & _) Hd Hra. unfold retry_after_for in Hra.
  change TOKEN_BUCKET_SCALE with 65536 in *.
  unfold wrapping_mul in Hra. rewrite wrap_small in Hra by (unfold in_uint in *; lia).
  set (spm := Z.max (rate_per_sec c * 65536 / 1000) 1) in *.
  assert (Hspm : 1000 * spm <= rate_per_sec c * 65536).
  { unfold spm. pose proof (Z.mul_div_le (rate_per_sec c * 65536) 1000). lia. }
  pose proof (div_ceil_spec deficit spm Hd ltac:(lia)) as Hdc.
  assert (Hms : div_ceil deficit spm <= ms) by (zcases; lia).
  pose proof (div_ceil_nonneg deficit spm Hd ltac:(lia)).
  assert (div_ceil deficit spm * spm <= ms * spm) by (apply Z.mul_le_mono_nonneg_r; lia).
  assert (ms * (1000 * spm) <= ms * (rate_per_sec c * 65536))
    by (apply Z.mul_le_mono_nonneg_l; lia).
  apply Z.div_le_lower_bound; lia.
Qed.

(** What a denial says of the bucket. *)
Lemma check_deny t k q l ra :
  fst (check t k q l) = Deny ra ->
  let r := after_refill (cfg l) (now_ms t) (default (full_state (cfg l) (now_ms t)) (state l !! k)) in
  r < cost_scaled (cfg l) q /\ ra = retry_after_for (cfg l) (cost_scaled (cfg l) q - r).
Proof. intros Hd r. unfold check, attempt in Hd. fold r in Hd. zcases; naive_solver. Qed.

(** [C32] [Retry-After] is good advice: a caller who was denied a cost of at most the burst,
    waits for at least the advised duration and retries it, with nobody else drawing on its
    bucket in between, is allowed; the wait is shorter than the wrap of the clock and the
    refill product fits a [u64].  A cost above the burst gets a [Retry-After] too, and is
    never admitted. *)
Theorem retry_after_suffices t t' k q l ra :
  limiter_ok l -> in_u32 q ->
  fst (check t k q l) = Deny ra ->
  t <= t' -> ra <= (t' - t) * 1000000 ->
  t' - t < 2 ^ 32 -> (t' - t) * rate_per_sec (cfg l) < 2 ^ 48 ->
  cost_scaled (cfg l) q <= saturating_scaled_burst (burst (cfg l)) ->
  fst (check t' k q (snd (check t k q l))) = Allow.
Proof.
  intros Hl Hq Hd Ht Hra Hwrap Hov Hcs. pose proof (check_deny _ _ _ _ _ Hd) as [Hlt Hret].
  pose proof (observed_ok l k (now_ms t) Hl (now_ms_range t)) as Hw.
  pose proof (after_refill_range (cfg l) (now_ms t) _ (proj1 Hl) Hw (now_ms_range t)) as Hr1.
  destruct (check t k q l) as [d l1] eqn:E1; cbn [fst snd] in *; subst d ra.
  apply check_spec in E1 as (Hl1 & Hcfg & _ & w' & Hw' & Hu); [|done..].
  set (r := after_refill _ _ _) in *. cbn [consumed] in Hu.
  apply retry_after_covers in Hra; [|apply Hl|lia].
  unfold check, attempt. rewrite Hcfg, Hw'. cbn [default from_option id].
  assert (Hafter : cost_scaled (cfg l) q <= after_refill (cfg l) (now_ms t') w').
  { unfold after_refill. rewrite Hu. rewrite elapsed_exact by lia.
    rewrite refill_exact by (apply Hl || lia). lia. }
  destruct (Z.ltb_spec (after_refill (cfg l) (now_ms t') w') (cost_scaled (cfg l) q)); [lia|done].
Qed.

Lemma checks_keep_ok calls l : limiter_ok l -> costs_ok calls -> limiter_ok (snd (checks calls l)).
Proof.
  revert l; induction calls as [|[[t k] q] calls IH]; intros l Hl Hq; [done|].
  apply Forall_cons in Hq as [Hq Hqs]. cbn [checks].
  destruct (check t k q l) as [d l1] eqn:E. apply check_spec in E as [Hl1 _]; [|done..].
  specialize (IH l1 Hl1 Hqs). by destruct (checks calls l1).
Qed.

Lemma retry_after_suffices_witness :
  let k := per_tenant 7 in
  let l := snd (checks [(5, k, 1); (5, k, 1)] (mkLimiter demo_cfg ∅)) in
  fst (check 1014 k 1 (snd (check 5 k 1 l))) = Allow.
Proof.
  apply (retry_after_suffices 5 1014 (per_tenant 7) 1 _ 1009000000);
    [|done|vm_compute; reflexivity|lia|lia|lia|vm_compute; reflexivity|vm_compute; discriminate].
  apply checks_keep_ok; [exact demo_limiter_ok|repeat constructor; cbn; lia].
Defined.

(** ** [check] as concurrent threads on one subject's word

    A call first reads the clock, then repeats load and compare-exchange.  A scheduler
    picks which thread moves, or lets time pass. *)

Inductive thread :=
| Ready (q : Z)
| Clocked (now q : Z)
| Loaded (now q observed : Z)
| Finished (d : LimitDecision).

Record shared := mkShared { clock : Z; word : Z; threads : list thread }.

(** The next atomic action of a thread: its next state and the word it leaves. *)
Definition thread_step (c : TokenBucketConfig) (clk w : Z) (t : thread) : option (thread * Z) :=
  match t with
  | Ready q => Some (Clocked (now_ms clk) q, w)
  | Clocked now q => Some (Loaded now q w, w)
  | Loaded now q observed =>
      let '(d, w') := attempt c now q observed in
      let won := w =? observed in
      match d with
      | Deny ra => Some (Finished (Deny ra), if won then w' else w)
      | Allow => if won then Some (Finished Allow, w') else Some (Clocked now q, w)
      end
  | Finished _ => None
  end.

(** [None] lets a millisecond pass, [Some i] runs thread [i]. *)
Definition sched (c : TokenBucketConfig) (pick : option nat) (s : shared) : option shared :=
  match pick with
  | None => Some (mkShared (clock s + 1) (word s) (threads s))
  | Some i =>
      t ← threads s !! i;
      '(t', w') ← thread_step c (clock s) (word s) t;
      Some (mkShared (clock s) w' (<[i := t']> (threads s)))
  end.

Definition step (c : TokenBucketConfig) : shared -> shared -> Prop := exec_step (sched c).

(** The threads' local copies are well-formed words too, so that whatever a
    compare-exchange installs is well-formed. *)
Definition thread_ok (c : TokenBucketConfig) (t : thread) : Prop :=
  match t with
  | Ready q => in_u32 q
  | Clocked now q => in_u32 now /\ in_u32 q
  | Loaded now q observed => in_u32 now /\ in_u32 q /\ word_ok c observed
  | Finished _ => True
  end.

Definition shared_ok (c : TokenBucketConfig) (s : shared) : Prop :=
  word_ok c (word s) /\ Forall (thread_ok c) (threads s).

Lemma thread_step_ok c clk w t t' w' :
  cfg_ok c -> word_ok c w -> thread_ok c t -> thread_step c clk w t = Some (t', w') ->
  thread_ok c t' /\ word_ok c w'.
Proof.
  intros Hc Hw Ht Hs. destruct t as [q|now q|now q obs|d]; cbn in Ht, Hs; [..|done].
  - injection Hs as <- <-. cbn. auto with rift.
  - injection Hs as <- <-. destruct Ht. by split_and!.
  - destruct Ht as (Hn & Hq & Ho), (attempt c now q obs) as [d w1] eqn:E.
    apply attempt_spec in E as [Hw1 _]; [|done..].
    destruct d, (w =? obs); injection Hs as <- <-; by split_and!.
Qed.

Lemma step_ok c s s' : cfg_ok c -> step c s s' -> shared_ok c s -> shared_ok c s'.
Proof.
  intros Hc [[i|] Hs] [Hw Ht]; simpl in Hs; [|by simplify_eq].
  destruct (threads s !! i) as [t|] eqn:Ei; simpl in Hs; [|done].
  destruct (thread_step c (clock s) (word s) t) as [[t' w']|] eqn:E; simpl in Hs; simplify_eq.
  apply thread_step_ok in E as [Ht' Hw']; [|done..|by eapply Forall_lookup_1].
  split; simpl; [done|by apply Forall_insert].
Qed.

(** Under every interleaving of every number of callers, the shared word stays
    well-formed: no schedule leaves more than the burst in the bucket or corrupts the
    packed halves. *)
Theorem concurrent_word_ok c s s' :
  cfg_ok c -> shared_ok c s -> rtc (step c) s s' -> word_ok c (word s').
Proof.
  intros Hc Hs Hr. assert (shared_ok c s') as [Hw _]; [|done].
  eapply (rtc_invariant (step c)); [|done..]. eauto using step_ok.
Qed.

(** One request per second, burst one: the second request of a second is over the limit. *)
Definition tight_cfg : TokenBucketConfig := mkConfig 1 1 PerRequest 0.

Definition two_callers : shared :=
  mkShared 100 (full_state tight_cfg 100) [Ready 1; Ready 1].

(** Thread 0 reads the clock; a millisecond later thread 1 does, and runs to its end;
    then thread 0 goes on with its older clock. *)
Definition stale_schedule : list (option nat) :=
  [Some 0%nat; None; Some 1%nat; Some 1%nat; Some 1%nat; Some 0%nat; Some 0%nat].

Lemma concurrent_word_ok_witness :
  word_ok tight_cfg (word (default two_callers (exec_run (sched tight_cfg) stale_schedule two_callers))).
Proof.
  apply (concurrent_word_ok tight_cfg two_callers).
  - by repeat split.
  - split; [apply full_state_ok; by repeat split|by repeat apply Forall_cons_2; try apply Forall_nil_2].
  - apply (exec_run_rtc _ stale_schedule). vm_compute. reflexivity.
Defined.

(** The clock is read before the word is: a caller that goes on after another one
    read a later clock computes [now - last] below zero, which wraps to almost [2^32] ms
    and refills the bucket.  So two calls within 1 ms are both allowed although the
    bucket holds one token and refills one per second: [token_bucket_bound] does not
    extend to interleaved callers. *)
Theorem stale_clock_refills_bucket :
  exists s, rtc (step tight_cfg) two_callers s /\
    threads s = [Finished Allow; Finished Allow] /\ clock s - clock two_callers = 1 /\
    1000 * (2 * cost_scaled tight_cfg 1)
      > 1000 * saturating_scaled_burst (burst tight_cfg)
        + (clock s - clock two_callers) * rate_per_sec tight_cfg * TOKEN_BUCKET_SCALE.
Proof.
  eexists. split; [apply (exec_run_rtc _ stale_schedule); vm_compute; reflexivity|].
  by repeat split.
Qed.
