(* ===== verification/Backpressure.v ===== *)
(** * Backpressure: [HighWaterPolicy] of [riftgate-core/src/backpressure.rs]

    The [AtomicBool] is the only state; [on_enqueue] returns the decision and the policy's
    next state.  The abstract specification, [shed_spec], speaks of the history of queue
    depths alone, without a flag. *)

From S2P Require Import Prelude.

Inductive DenialReason := RateLimit | QueueFull | CircuitOpen.

Definition as_str (r : DenialReason) : string :=
  match r with
  | RateLimit => "rate_limit"
  | QueueFull => "queue_full"
  | CircuitOpen => "circuit_open"
  end.

Inductive AdmissionDecision :=
| Admit
| RejectNewest (reason : DenialReason) (retry_after : Z).

Record HighWaterPolicy := mkPolicy {
  high_water : Z;
  low_water : Z;
  retry_after : Z;
  shedding : bool;
}.

(** [new]: the three assertions, [None] where one of them panics. *)
Definition new (high low retry : Z) : option HighWaterPolicy :=
  if high <=? 0 then None
  else if low <=? 0 then None
  else if high <=? low then None
  else Some (mkPolicy high low retry false).

Definition on_enqueue (depth : Z) (p : HighWaterPolicy) : AdmissionDecision * HighWaterPolicy :=
  let new_shedding :=
    if shedding p then low_water p <? depth else high_water p <=? depth in
  let p' := mkPolicy (high_water p) (low_water p) (retry_after p) new_shedding in
  (if new_shedding then RejectNewest QueueFull (retry_after p) else Admit, p').

(** The policy after a history of calls, oldest first. *)
Fixpoint after (depths : list Z) (p : HighWaterPolicy) : HighWaterPolicy :=
  match depths with
  | [] => p
  | d :: depths => after depths (snd (on_enqueue d p))
  end.

(** ** The abstract specification

    A history (latest depth first) sheds when some past depth reached the high-water
    mark and no depth since then came down to the low-water mark. *)
Definition shed_spec (high low : Z) (recent : list Z) : Prop :=
  exists since d past, recent = since ++ d :: past /\ high <= d /\ Forall (fun x => low < x) since.

Lemma new_some high low retry p :
  new high low retry = Some p -> 0 < low < high /\ p = mkPolicy high low retry false.
Proof. unfold new. zcases; intros; simplify_eq; auto with lia. Qed.

Lemma after_snoc ds d p : after (ds ++ [d]) p = snd (on_enqueue d (after ds p)).
Proof. revert p; induction ds as [|d0 ds IH]; intros p; [done|]. apply IH. Qed.

Lemma after_fixed ds p :
  high_water (after ds p) = high_water p /\ low_water (after ds p) = low_water p /\
  retry_after (after ds p) = retry_after p.
Proof.
  revert p; induction ds as [|d ds IH]; intros p; [done|].
  by destruct (IH (snd (on_enqueue d p))) as (? & ? & ?).
Qed.

Lemma shed_spec_cons high low d recent :
  low < high ->
  shed_spec high low (d :: recent) <-> high <= d \/ (low < d /\ shed_spec high low recent).
Proof.
  intros Hlh. split.
  - intros (since & x & past & Heq & Hx & Hs). destruct since as [|y since]; simplify_list_eq.
    + by left.
    + apply Forall_cons in Hs as [Hy Hs]. right. split; [done|]. by exists since, x, past.
  - intros [Hd|[Hd (since & x & past & -> & Hx & Hs)]].
    + by exists [], d, recent.
    + exists (d :: since), x, past. split_and!; [done..|by constructor].
Qed.

Lemma shedding_spec high low retry p ds :
  new high low retry = Some p -> (shedding (after ds p) = true <-> shed_spec high low (rev ds)).
Proof.
  intros [Hlh ->]%new_some.
  induction ds as [|d ds IH] using rev_ind.
  { split; [done|]. intros (since & x & past & Heq & _). by destruct since. }
  rewrite after_snoc, rev_app_distr. cbn [rev app].
  rewrite shed_spec_cons by lia. rewrite <- IH.
  set (p0 := mkPolicy high low retry false) in *. destruct (after_fixed ds p0) as (Hh & Hl & _).
  unfold on_enqueue; cbn [snd shedding]. rewrite Hh, Hl. cbn [p0 high_water low_water].
  destruct (shedding (after ds p0)); zcases; intuition (lia || congruence).
Qed.

(** [C22] Refinement of the documented hysteresis: for every history of queue depths, the
    next request is rejected exactly when some depth (this one included) reached the
    high-water mark and none since then came down to the low-water mark; the rejection
    always carries [QueueFull] and the configured [Retry-After]. *)
Theorem hysteresis_refines_spec high low retry p ds d :
  new high low retry = Some p ->
  (shed_spec high low (d :: rev ds) ->
     fst (on_enqueue d (after ds p)) = RejectNewest QueueFull retry) /\
  (~ shed_spec high low (d :: rev ds) -> fst (on_enqueue d (after ds p)) = Admit).
Proof.
  intros Hnew. pose proof (shedding_spec high low retry p (ds ++ [d]) Hnew) as Hs.
  rewrite after_snoc, rev_app_distr in Hs. cbn [rev app] in Hs.
  assert (Hr : retry_after (after ds p) = retry).
  { destruct (after_fixed ds p) as (_ & _ & ->). by apply new_some in Hnew as [_ ->]. }
  unfold on_enqueue in *; cbn [snd shedding fst] in *. rewrite Hr.
  split; intros Hsp; destruct (if shedding _ then _ else _); intuition congruence.
Qed.

Lemma hysteresis_refines_spec_witness :
  fst (on_enqueue 3 (after [1; 5; 4; 2; 3] (mkPolicy 5 2 100 false))) = Admit /\
  fst (on_enqueue 3 (after [1; 5; 4] (mkPolicy 5 2 100 false))) = RejectNewest QueueFull 100.
Proof.
  split.
  - apply (hysteresis_refines_spec 5 2 100 (mkPolicy 5 2 100 false) [1; 5; 4; 2; 3] 3 eq_refl).
    rewrite <- (shedding_spec 5 2 100 (mkPolicy 5 2 100 false) [1; 5; 4; 2; 3; 3]) by done.
    vm_compute. discriminate.
  - apply (hysteresis_refines_spec 5 2 100 (mkPolicy 5 2 100 false) [1; 5; 4] 3 eq_refl).
    exists [3; 4], 5, [1]. repeat split; repeat constructor; lia.
Defined.

(** The band between the marks separates the two transitions: between an admitted
    call and a rejected one, or back, the queue depth moved by at least
    [high_water - low_water] from one side of the band to the other. *)
Theorem no_thrash high low retry p ds d1 d2 :
  new high low retry = Some p ->
  let q := after ds p in let q1 := snd (on_enqueue d1 q) in let q2 := snd (on_enqueue d2 q1) in
  shedding q <> shedding q1 -> shedding q1 <> shedding q2 -> high - low <= Z.abs (d2 - d1).
Proof.
  intros [Hlh ->]%new_some q q1 q2. destruct (after_fixed ds (mkPolicy high low retry false)) as (Hh & Hl & _). fold q in Hh, Hl.
  unfold q2, q1, on_enqueue. cbn [snd shedding high_water low_water]. rewrite Hh, Hl.
  cbn [high_water low_water].
  destruct (shedding q); zcases; intros; try done; lia.
Qed.

Lemma no_thrash_witness : 5 - 2 <= Z.abs (1 - 6).
Proof.
  apply (no_thrash 5 2 100 (mkPolicy 5 2 100 false) [1] 6 1 eq_refl); vm_compute; discriminate.
Defined.
