(* ===== verification/Cancel.v ===== *)
(** * Cancel: [CancelState], [Cancellation] and [CancellationDriver] of
    [riftgate-core/src/cancel.rs]

    [tokio_util]'s [CancellationToken] is an interface, [Token].  A [trip] is two atomic
    actions, the compare-exchange of the cause and the cancel of the token; [race_step] is
    any interleaving of any number of trips. *)

From S2P Require Import Prelude.

Inductive CancelCause :=
| NotCancelled | DroppedByClient | DeadlineExceeded | UpstreamFailed
| HedgeLost | FilterTerminated | Draining | OtherCause.

#[global] Instance CancelCause_eq_dec : EqDecision CancelCause.
Proof. solve_decision. Defined.

(** [#[repr(u8)]]: [cause as u8]. *)
Definition as_u8 (c : CancelCause) : Z :=
  match c with
  | NotCancelled => 0 | DroppedByClient => 1 | DeadlineExceeded => 2 | UpstreamFailed => 3
  | HedgeLost => 4 | FilterTerminated => 5 | Draining => 6 | OtherCause => 7
  end.

Definition from_u8 (b : Z) : CancelCause :=
  match b with
  | 1 => DroppedByClient
  | 2 => DeadlineExceeded
  | 3 => UpstreamFailed
  | 4 => HedgeLost
  | 5 => FilterTerminated
  | 6 => Draining
  | 7 => OtherCause
  | _ => NotCancelled
  end.

Definition cause_as_str (c : CancelCause) : string :=
  match c with
  | NotCancelled => "not_cancelled" | DroppedByClient => "dropped_by_client"
  | DeadlineExceeded => "deadline_exceeded" | UpstreamFailed => "upstream_failed"
  | HedgeLost => "hedge_lost" | FilterTerminated => "filter_terminated"
  | Draining => "draining" | OtherCause => "other"
  end.

(** What [tokio_util::sync::CancellationToken] promises. *)
Class Token (T : Type) := {
  token_new : T;
  token_cancel : T -> T;
  token_is_cancelled : T -> bool;
  token_new_live : token_is_cancelled token_new = false;
  token_cancel_sets : forall t, token_is_cancelled (token_cancel t) = true;
}.

#[global] Instance bool_token : Token bool := {
  token_new := false; token_cancel := fun _ => true; token_is_cancelled := id;
  token_new_live := eq_refl; token_cancel_sets := fun _ => eq_refl }.

Section cancel.
Context {T : Type} `{Token T}.

Record CancelState := mkState { token : T; cause : Z }.

Definition CancelState_new : CancelState := mkState token_new (as_u8 NotCancelled).

(** The two atomic actions of [trip]. *)
Definition trip_cause (c : CancelCause) (s : CancelState) : CancelState :=
  mkState (token s) (if cause s =? as_u8 NotCancelled then as_u8 c else cause s).
Definition trip_token (s : CancelState) : CancelState :=
  mkState (token_cancel (token s)) (cause s).

Definition trip (c : CancelCause) (s : CancelState) : CancelState :=
  trip_token (trip_cause c s).

Definition observed_cause (s : CancelState) : CancelCause := from_u8 (cause s).

Definition is_cancelled (s : CancelState) : bool := token_is_cancelled (token s).

(** The cancel-side handle: [strong] is the count of the [Arc]. *)
Record Cancellation := mkCancellation {
  cancel_state : CancelState; drop_cause : CancelCause; strong : nat }.

Definition Cancellation_new : Cancellation := mkCancellation CancelState_new DroppedByClient 1.

Definition with_drop_cause (c : CancelCause) (h : Cancellation) : Cancellation :=
  mkCancellation (cancel_state h) c (strong h).

Definition cancel (c : CancelCause) (h : Cancellation) : Cancellation :=
  mkCancellation (trip c (cancel_state h)) (drop_cause h) (strong h).

(** [driver]: the driver shares the state, so it is one more strong reference to it. *)
Definition driver (h : Cancellation) : Cancellation :=
  mkCancellation (cancel_state h) (drop_cause h) (S (strong h)).

(** [Drop]: what the remaining drivers see afterwards. *)
Definition Cancellation_drop (h : Cancellation) : CancelState :=
  if (1 <? Z.of_nat (strong h)) && negb (is_cancelled (cancel_state h))
  then trip (drop_cause h) (cancel_state h) else cancel_state h.

(** [wait_with_deadline]: [tripped_in_time] says whether the token tripped before the
    deadline; [st] is the state when the wait ends. *)
Definition wait_with_deadline (tripped_in_time : bool) (st : CancelState) : option CancelCause :=
  if tripped_in_time then Some (observed_cause st) else None.

(** ** Interleavings *)

Inductive tripper :=
| Tripping (c : CancelCause)
| Signalling
| TripDone.

Inductive race_step : CancelState * list tripper -> CancelState * list tripper -> Prop :=
| step_cause s ts i c : ts !! i = Some (Tripping c) ->
    race_step (s, ts) (trip_cause c s, <[i := Signalling]> ts)
| step_token s ts i : ts !! i = Some Signalling ->
    race_step (s, ts) (trip_token s, <[i := TripDone]> ts).

(** A recorded cause is a real one, and no token is tripped before a cause is recorded. *)
Definition race_inv (st : CancelState * list tripper) : Prop :=
  let '(s, ts) := st in
  (forall c, Tripping c ∈ ts -> c <> NotCancelled) /\
  (is_cancelled s = true -> cause s <> as_u8 NotCancelled) /\
  (Signalling ∈ ts -> cause s <> as_u8 NotCancelled) /\
  (TripDone ∈ ts -> is_cancelled s = true) /\
  (exists c, cause s = as_u8 c).

Lemma as_u8_inj c c' : as_u8 c = as_u8 c' -> c = c'.
Proof. by destruct c, c'. Qed.

Lemma from_as_u8 c : from_u8 (as_u8 c) = c.
Proof. by destruct c. Qed.

Lemma trip_cause_recorded c s : c <> NotCancelled -> cause (trip_cause c s) <> as_u8 NotCancelled.
Proof.
  intros Hc. unfold trip_cause; cbn [cause]. zcases; [|done]. intros He. by apply as_u8_inj in He.
Qed.

Lemma trip_cause_recorded_keeps c s :
  cause s <> as_u8 NotCancelled -> cause (trip_cause c s) = cause s.
Proof. intros Hc. unfold trip_cause; cbn [cause]. by zcases. Qed.

Lemma race_step_inv st st' : race_step st st' -> race_inv st -> race_inv st'.
Proof.
  intros [s ts i c Hi|s ts i Hi] (Hc & Ht & Hsig & Hdone & Hex); unfold race_inv.
  - assert (Hc0 : c <> NotCancelled) by (apply Hc; by eapply list_elem_of_lookup_2).
    pose proof (trip_cause_recorded c s Hc0). split_and!; [|done|done| |].
    + intros c' [?|?]%elem_of_list_insert; [done|by apply Hc].
    + intros [?|?]%elem_of_list_insert; [done|by apply Hdone].
    + unfold trip_cause; cbn [cause]. zcases; [by exists c|done].
  - assert (cause s <> as_u8 NotCancelled) by (apply Hsig; by eapply list_elem_of_lookup_2).
    split_and!; [|done|done| |done].
    + intros c' [?|?]%elem_of_list_insert; [done|by apply Hc].
    + intros _. apply token_cancel_sets.
Qed.

Definition race_start (cs : list CancelCause) : CancelState * list tripper :=
  (CancelState_new, Tripping <$> cs).

Lemma race_start_inv cs : Forall (.≠ NotCancelled) cs -> race_inv (race_start cs).
Proof.
  intros Hcs. unfold race_inv, race_start, is_cancelled; cbn. rewrite token_new_live.
  split_and!; [|done| | |by exists NotCancelled].
  - intros c (c' & [= ->] & Hc)%list_elem_of_fmap. by eapply (proj1 (Forall_forall _ _) Hcs).
  - by intros (c' & ? & _)%list_elem_of_fmap.
  - by intros (c' & ? & _)%list_elem_of_fmap.
Qed.

(** The recorded cause is one of the racing causes. *)
Definition cause_among (cs : list CancelCause) (st : CancelState * list tripper) : Prop :=
  (forall c, Tripping c ∈ snd st -> c ∈ cs) /\
  (cause (fst st) = as_u8 NotCancelled \/ exists c, c ∈ cs /\ cause (fst st) = as_u8 c).

Lemma step_cause_among cs st st' : race_step st st' -> cause_among cs st -> cause_among cs st'.
Proof.
  intros [s ts i c Hi|s ts i Hi] [Hts Hc]; (split; [|]); cbn [fst snd] in *.
  - intros c' [?|?]%elem_of_list_insert; [done|by apply Hts].
  - unfold trip_cause; cbn [cause]. zcases; [|done].
    right. exists c. split; [|done]. apply Hts. by eapply list_elem_of_lookup_2.
  - intros c' [?|?]%elem_of_list_insert; [done|by apply Hts].
  - done.
Qed.

(** [C17] The race of any number of cancellers, under every interleaving: once one of them
    returned from [trip], every driver sees the token cancelled with a real cause, one of
    the racing causes; the token is never seen cancelled before a cause is recorded. *)
Theorem cancel_race cs st :
  Forall (.≠ NotCancelled) cs -> rtc race_step (race_start cs) st ->
  (TripDone ∈ snd st -> is_cancelled (fst st) = true) /\
  (is_cancelled (fst st) = true ->
     observed_cause (fst st) ∈ cs /\ observed_cause (fst st) <> NotCancelled).
Proof.
  intros Hcs Hr.
  assert (Hi : race_inv st) by (eapply (rtc_invariant race_step); eauto using race_step_inv, race_start_inv).
  assert (cause_among cs st) as [_ Ha].
  { eapply (rtc_invariant race_step); [apply step_cause_among|done|].
    split; [|by left]. by intros c (? & [= ->] & ?)%list_elem_of_fmap. }
  destruct st as [s ts], Hi as (_ & Ht & _ & Hd & _). cbn [fst snd] in *. split; [done|].
  intros Hcan. specialize (Ht Hcan). destruct Ha as [?|(c & Hc & He)]; [done|].
  unfold observed_cause. rewrite He, from_as_u8. split; [done|]. by rewrite Forall_forall in Hcs; apply Hcs.
Qed.

(** The first cause is final: once the cause slot is written, no later race_step of any
    schedule changes the cause the drivers observe. *)
Theorem first_cause_wins st st' :
  rtc race_step st st' -> cause (fst st) <> as_u8 NotCancelled ->
  observed_cause (fst st') = observed_cause (fst st).
Proof.
  intros Hr Hc. unfold observed_cause.
  assert (cause (fst st') = cause (fst st)) as ->; [|done].
  apply (rtc_invariant race_step (fun x => cause (fst x) = cause (fst st)) st); [|done..].
  intros a b [s ts i c Hi|s ts i Hi] Heq; cbn [fst snd] in *; [|done].
  rewrite trip_cause_recorded_keeps; congruence.
Qed.

(** The drop path: a handle dropped while a driver is alive leaves the state
    cancelled with a real cause, its drop cause unless an explicit [cancel] came first;
    with no driver alive it leaves the state as it is. *)
Theorem drop_cancels h :
  drop_cause h <> NotCancelled -> race_inv (cancel_state h, []) ->
  ((1 < strong h)%nat ->
     is_cancelled (Cancellation_drop h) = true /\ observed_cause (Cancellation_drop h) <> NotCancelled /\
     (is_cancelled (cancel_state h) = false -> cause (cancel_state h) = as_u8 NotCancelled ->
        observed_cause (Cancellation_drop h) = drop_cause h) /\
     (is_cancelled (cancel_state h) = true -> Cancellation_drop h = cancel_state h)) /\
  ((strong h <= 1)%nat -> Cancellation_drop h = cancel_state h).
Proof.
  intros Hd (_ & Hc & _ & _ & (c0 & Hc0)). unfold Cancellation_drop. split; intros Hs;
    destruct (Z.ltb_spec 1 (Z.of_nat (strong h))); try lia; [|done]. cbn [andb].
  destruct (is_cancelled (cancel_state h)) eqn:E; cbn [negb].
  - split_and!; try done. unfold observed_cause. rewrite Hc0, from_as_u8.
    intros ->. by apply Hc.
  - split_and!; [apply token_cancel_sets| | |done].
    + unfold observed_cause, trip, trip_token, trip_cause; cbn [cause]. rewrite Hc0.
      zcases; [by rewrite from_as_u8|]. rewrite from_as_u8. by intros ->.
    + intros _ Hz. unfold observed_cause, trip, trip_token, trip_cause; cbn [cause].
      rewrite Hz. cbn. by rewrite from_as_u8.
Qed.

End cancel.

Lemma cancel_race_witness :
  exists st : CancelState * list tripper,
    rtc race_step (race_start [HedgeLost; DeadlineExceeded]) st /\
    snd st = [Signalling; TripDone] /\
    ((TripDone ∈ snd st -> is_cancelled (fst st) = true) /\
     (is_cancelled (fst st) = true ->
        observed_cause (fst st) ∈ [HedgeLost; DeadlineExceeded] /\
        observed_cause (fst st) <> NotCancelled)).
Proof.
  assert (Hr : rtc (race_step (T := bool)) (race_start [HedgeLost; DeadlineExceeded])
    (trip_token (trip_cause DeadlineExceeded (trip_cause HedgeLost CancelState_new)),
      [Signalling; TripDone])).
  { eapply rtc_l; [by apply (step_cause _ _ 0)|].
    eapply rtc_l; [by apply (step_cause _ _ 1)|].
    eapply rtc_l; [by apply (step_token _ _ 1)|]. apply rtc_refl. }
  eexists. split; [exact Hr|]. split; [done|].
  apply (cancel_race (T := bool)); [by repeat constructor|exact Hr].
Defined.

Lemma first_cause_wins_witness :
  let s : CancelState := mkState true 4 in
  observed_cause (trip_cause Draining s) = HedgeLost.
Proof.
  apply (first_cause_wins (T := bool) (mkState true 4, [Tripping Draining])
    (trip_cause Draining (mkState true 4), [Signalling])); [|done].
  apply rtc_once. by apply (step_cause (mkState true 4) [Tripping Draining] 0).
Defined.

Lemma drop_cancels_witness :
  observed_cause (Cancellation_drop (driver (with_drop_cause Draining (Cancellation_new (T := bool)))))
    = Draining.
Proof.
  apply (drop_cancels (driver (with_drop_cause Draining (Cancellation_new (T := bool)))));
    [done| |cbn; lia|done|done].
  split_and!; [by intros ? ?%not_elem_of_nil|done|by intros ?%not_elem_of_nil..|by exists NotCancelled].
Defined.
