(* ===== verification/Allocator.v ===== *)
(** * Allocator: the [Allocator] trait, [SystemAllocator] and [BumpArena] of
    [riftgate-core/src/allocator.rs]

    Memory is a function from addresses to bytes, a pointer its address, null is 0.  The
    global allocator of the process and [bumpalo::Bump] are the classes [GlobalAlloc] and
    [Bump], with what their documentation promises.  [AllocatorContract] is the promise of
    the trait's own documentation; both implementations discharge it.  A call of the code
    returns, panics, or, where an [unsafe] precondition is not met, is undefined. *)

From S2P Require Import Prelude.

(** ** Memory and layouts *)

Definition mem := Z -> byte.

Fixpoint mem_read (m : mem) (p : Z) (n : nat) : list byte :=
  match n with O => [] | S n => m p :: mem_read m (p + 1) n end.

Fixpoint mem_write (m : mem) (p : Z) (bs : list byte) : mem :=
  match bs with
  | [] => m
  | b :: bs => fun a => if a =? p then b else mem_write m (p + 1) bs a
  end.

(** [std::alloc::Layout]. *)
Record Layout := mkLayout { layout_size : Z; layout_align : Z }.

Definition is_power_of_two (z : Z) : bool := (0 <? z) && (Z.land z (z - 1) =? 0).

(** [Layout::from_size_align]: a power of two, and a size that rounded up to it does not
    exceed [isize::MAX]. *)
Definition from_size_align (size align : Z) : option Layout :=
  if is_power_of_two align && (0 <=? size) && (size <=? 2 ^ 63 - align)
  then Some (mkLayout size align) else None.

Definition layout_ok (l : Layout) : Prop :=
  from_size_align (layout_size l) (layout_align l) = Some l.

(** A block of memory: its address and its size. *)
Abbreviation block := (Z * Z)%type.

Definition within (a : Z) (b : block) : Prop := b.1 <= a < b.1 + b.2.
Definition apart (b c : block) : Prop := forall a, within a b -> within a c -> False.

(** What the trait promises of the block handed out for [l] while [live] are lent. *)
Definition fresh_block (l : Layout) (p : Z) (live : list block) : Prop :=
  0 < p /\ (layout_align l | p) /\ Forall (apart (p, layout_size l)) live.

(** The outcome of a call. *)
Inductive outcome (A : Type) := Done (v : A) | Panics | Undefined.
Arguments Done {A} v.
Arguments Panics {A}.
Arguments Undefined {A}.

Definition outcome_bind {A B : Type} (f : A -> outcome B) (m : outcome A) : outcome B :=
  match m with Done v => f v | Panics => Panics | Undefined => Undefined end.

(** A call of a library that panics where it cannot answer. *)
Definition or_panic {A : Type} (o : option A) : outcome A :=
  match o with Some v => Done v | None => Panics end.

(** ** The trait *)

Class Allocator (S : Type) := {
  alloc : Layout -> S -> outcome (Z * S);
  reset : S -> S;
}.

(** What its documentation promises; [lent] are the blocks handed out and not yet freed. *)
Class AllocatorContract (S : Type) `{Allocator S} := {
  lent : S -> list block;
  alloc_block : forall l s p s', layout_ok l -> alloc l s = Done (p, s') ->
    fresh_block l p (lent s) /\ lent s' = (p, layout_size l) :: lent s;
  alloc_defined : forall l s, layout_ok l -> 0 < layout_size l -> alloc l s <> Undefined;
  reset_frees : forall s, lent (reset s) = [] \/ reset s = s;
}.

(** ** [SystemAllocator] *)

(** The global allocator of the process: [std::alloc::alloc] on a size that is not zero. *)
Class GlobalAlloc (G : Type) := {
  ga_alloc : Layout -> G -> Z * G;
  ga_live : G -> list block;
  ga_block : forall l g, layout_ok l -> 0 < layout_size l -> (ga_alloc l g).1 <> 0 ->
    fresh_block l (ga_alloc l g).1 (ga_live g) /\
    ga_live (ga_alloc l g).2 = ((ga_alloc l g).1, layout_size l) :: ga_live g;
}.

(** [unsafe { alloc(layout) }]: "this function is unsafe because undefined behavior can
    result if the caller does not ensure that layout has non-zero size". *)
Definition std_alloc {G} `{GlobalAlloc G} (l : Layout) (g : G) : outcome (Z * G) :=
  if layout_size l =? 0 then Undefined else Done (ga_alloc l g).

(** The unit struct, with the heap of the process it hands out from. *)
Record SystemAllocator (G : Type) := mkSystem { process_heap : G }.
Arguments mkSystem {G} _.
Arguments process_heap {G} _.

Definition SystemAllocator_new {G} (heap : G) : SystemAllocator G := mkSystem heap.

Section system.
Context {G : Type} `{GlobalAlloc G}.

Definition system_alloc (l : Layout) (s : SystemAllocator G) : outcome (Z * SystemAllocator G) :=
  outcome_bind (fun r =>
    if r.1 =? 0 then Panics else Done (r.1, mkSystem r.2)) (std_alloc l (process_heap s)).

Definition system_reset (s : SystemAllocator G) : SystemAllocator G := s.

#[global] Instance system_allocator : Allocator (SystemAllocator G) := {
  alloc := system_alloc; reset := system_reset }.
End system.

(** ** [BumpArena] *)

(** The effect of one allocation on the memory: what was lent is left as it was. *)
Definition keeps (live : list block) (m m' : mem) : Prop :=
  forall b a, b ∈ live -> within a b -> m' a = m a.

(** What [bumpalo::Bump] promises.  [None] is the panic of an allocation that fails.
    [bump_alloc] takes the layout and the bytes of the value. *)
Class Bump (B : Type) := {
  bump_new : B;
  bump_with_capacity : Z -> mem -> option (B * mem);
  bump_alloc_layout : Layout -> B -> mem -> option (Z * B * mem);
  bump_alloc : Layout -> list byte -> B -> mem -> option (Z * B * mem);
  bump_alloc_slice_copy : list byte -> B -> mem -> option (Z * B * mem);
  bump_reset : B -> mem -> B * mem;
  bump_allocated_bytes : B -> Z;
  bump_live : B -> list block;
  bump_new_empty : bump_live bump_new = [];
  bump_with_capacity_empty : forall n m b m', bump_with_capacity n m = Some (b, m') -> bump_live b = [];
  bump_alloc_layout_block : forall l b m p b' m', layout_ok l ->
    bump_alloc_layout l b m = Some (p, b', m') ->
    fresh_block l p (bump_live b) /\ bump_live b' = (p, layout_size l) :: bump_live b /\
    keeps (bump_live b) m m';
  bump_alloc_block : forall l bs b m p b' m', layout_ok l -> layout_size l = Z.of_nat (length bs) ->
    bump_alloc l bs b m = Some (p, b', m') ->
    fresh_block l p (bump_live b) /\ bump_live b' = (p, layout_size l) :: bump_live b /\
    keeps (bump_live b) m m' /\ mem_read m' p (length bs) = bs;
  bump_alloc_slice_copy_block : forall bs b m p b' m',
    bump_alloc_slice_copy bs b m = Some (p, b', m') ->
    fresh_block (mkLayout (Z.of_nat (length bs)) 1) p (bump_live b) /\
    bump_live b' = (p, Z.of_nat (length bs)) :: bump_live b /\
    keeps (bump_live b) m m' /\ mem_read m' p (length bs) = bs;
  bump_reset_empty : forall b m, bump_live (bump_reset b m).1 = [];
}.

(** The arena, and the memory it and its users write. *)
Record BumpArena (B : Type) := mkArena { inner : B; memory : mem }.
Arguments mkArena {B} _ _.
Arguments inner {B} _.
Arguments memory {B} _.

Section arena.
Context {B : Type} `{Bump B}.

Definition arena_of (r : Z * B * mem) : Z * BumpArena B := (r.1.1, mkArena r.1.2 r.2).

Definition BumpArena_new (m : mem) : BumpArena B := mkArena bump_new m.
Definition BumpArena_default (m : mem) : BumpArena B := BumpArena_new m.

Definition BumpArena_with_capacity (capacity : Z) (m : mem) : outcome (BumpArena B) :=
  or_panic ((fun r => mkArena r.1 r.2) <$> bump_with_capacity capacity m).

Definition allocated_bytes (s : BumpArena B) : Z := bump_allocated_bytes (inner s).

Definition alloc_value (l : Layout) (value : list byte) (s : BumpArena B) : outcome (Z * BumpArena B) :=
  or_panic (arena_of <$> bump_alloc l value (inner s) (memory s)).

Definition alloc_slice_copy (src : list byte) (s : BumpArena B) : outcome (Z * BumpArena B) :=
  or_panic (arena_of <$> bump_alloc_slice_copy src (inner s) (memory s)).

Definition arena_alloc (l : Layout) (s : BumpArena B) : outcome (Z * BumpArena B) :=
  or_panic (arena_of <$> bump_alloc_layout l (inner s) (memory s)).

Definition arena_reset (s : BumpArena B) : BumpArena B :=
  let r := bump_reset (inner s) (memory s) in mkArena r.1 r.2.

#[global] Instance arena_allocator : Allocator (BumpArena B) := {
  alloc := arena_alloc; reset := arena_reset }.
End arena.

(** ** A client of the trait

    Allocations and resets in any order.  A [reset] needs [&mut self], so the client has
    dropped every pointer by then. *)

Inductive alloc_op := OpAlloc (l : Layout) | OpReset.

Definition op_layout_ok (op : alloc_op) : Prop :=
  match op with OpAlloc l => layout_ok l /\ 0 < layout_size l | OpReset => True end.

Section client.
Context {S : Type} `{Allocator S}.

Fixpoint client_run (ops : list alloc_op) (s : S) (held : list (Layout * Z)) :
  outcome (S * list (Layout * Z)) :=
  match ops with
  | [] => Done (s, held)
  | OpAlloc l :: ops =>
      outcome_bind (fun r => client_run ops r.2 ((l, r.1) :: held)) (alloc l s)
  | OpReset :: ops => client_run ops (reset s) []
  end.
End client.

Definition held_block (h : Layout * Z) : block := (h.2, layout_size h.1).

(** The pointers a client holds: not null, aligned, and no two of them overlap. *)
Definition held_ok (held : list (Layout * Z)) : Prop :=
  Forall (fun h => 0 < h.2 /\ (layout_align h.1 | h.2)) held /\
  ForallOrdPairs (fun h k => apart (held_block h) (held_block k)) held.

Section client_laws.
Context {S : Type} `{AllocatorContract S}.

Definition holds (s : S) (held : list (Layout * Z)) : Prop :=
  held_ok held /\ (forall h, h ∈ held -> held_block h ∈ lent s).

Lemma holds_alloc l s p s' held :
  layout_ok l -> alloc l s = Done (p, s') -> holds s held -> holds s' ((l, p) :: held).
Proof.
  intros Hl Ha [[Hf Hp] Hin]. destruct (alloc_block l s p s' Hl Ha) as [(Hpos & Hal & Hfr) Hl'].
  rewrite Forall_forall in Hfr. split; [split|rewrite Hl'].
  - by constructor.
  - constructor; [|done]. apply List.Forall_forall. intros h Hh. apply Hfr, Hin. by apply list_elem_of_In.
  - intros h [->|Hh]%elem_of_cons; [by left|]. right. by apply Hin.
Qed.

Lemma holds_reset s held : holds s held -> holds (reset s) [].
Proof. intros _. repeat split; [constructor..|]. by intros h ?%elem_of_nil. Qed.

Lemma client_run_holds ops s held :
  Forall op_layout_ok ops -> holds s held ->
  match client_run ops s held with
  | Done (s', held') => holds s' held'
  | Panics => True
  | Undefined => False
  end.
Proof.
  intros Hops. revert s held. induction Hops as [|[l|] ops Hop Hops IH]; intros s held Hh; cbn.
  - done.
  - destruct Hop as [Hl Hs]. destruct (alloc l s) as [[p s']| |] eqn:E; cbn; [|done|by apply alloc_defined in E].
    apply IH. by eapply holds_alloc.
  - apply IH. by eapply holds_reset.
Qed.
End client_laws.

(** The two implementations keep the trait's promise. *)

#[global] Instance system_contract {G} `{GlobalAlloc G} : AllocatorContract (SystemAllocator G).
Proof.
  refine {| lent s := ga_live (process_heap s) |}.
  - intros l s p s' Hl. cbn. unfold system_alloc, std_alloc. destruct (Z.eqb_spec (layout_size l) 0) as [|Hs]; [done|].
    cbn. destruct (Z.eqb_spec (ga_alloc l (process_heap s)).1 0) as [|Hp]; [done|]. intros [= <- <-].
    apply ga_block; [done| |done]. unfold layout_ok, from_size_align in Hl. repeat cases; try done.
    destruct l; cbn in *. lia.
  - intros l s _ Hs. cbn. unfold system_alloc, std_alloc. destruct (Z.eqb_spec (layout_size l) 0); [lia|].
    cbn. by destruct (_ =? 0).
  - by right.
Defined.

#[global] Instance arena_contract {B} `{Bump B} : AllocatorContract (BumpArena B).
Proof.
  refine {| lent s := bump_live (inner s) |}.
  - intros l s p s' Hl. cbn. unfold arena_alloc.
    destruct (bump_alloc_layout l (inner s) (memory s)) as [[[p0 b] m]|] eqn:E; [|done].
    intros [= <- <-]. by destruct (bump_alloc_layout_block _ _ _ _ _ _ Hl E) as (? & ? & ?).
  - intros l s _ _. cbn. unfold arena_alloc. by destruct (bump_alloc_layout l (inner s) (memory s)).
  - left. apply bump_reset_empty.
Defined.

(** ** Requests on an arena

    The buffers of a request: references handed out by the arena, in order, each written
    through as a [&mut] slice is ([refs[i].copy_from_slice(bs)]). *)

Inductive arena_op :=
| ALayout (l : Layout) | AValue (l : Layout) (value : list byte) | ASlice (src : list byte)
| AStore (i : nat) (bs : list byte) | AReset.

Definition arena_op_ok (op : arena_op) : Prop :=
  match op with
  | ALayout l => layout_ok l
  | AValue l value => layout_ok l /\ layout_size l = Z.of_nat (length value)
  | _ => True
  end.

(** The specification: buffers that nobody shares.  [None] is memory not yet written. *)
Abbreviation buffers := (list (Layout * option (list byte))).

Definition slice_layout (src : list byte) : Layout := mkLayout (Z.of_nat (length src)) 1.

Definition spec_exec (op : arena_op) (a : buffers) : outcome buffers :=
  match op with
  | ALayout l => Done (a ++ [(l, None)])
  | AValue l value => Done (a ++ [(l, Some value)])
  | ASlice src => Done (a ++ [(slice_layout src, Some src)])
  | AStore i bs =>
      match a !! i with
      | Some (l, _) => if layout_size l =? Z.of_nat (length bs)
                       then Done (<[i := (l, Some bs)]> a) else Panics
      | None => Panics
      end
  | AReset => Done []
  end.

Fixpoint spec_run (ops : list arena_op) (a : buffers) : outcome buffers :=
  match ops with
  | [] => Done a
  | op :: ops => outcome_bind (spec_run ops) (spec_exec op a)
  end.

Section requests.
Context {B : Type} `{Bump B}.

Record request_arena := mkRequest { arena : BumpArena B; refs : list (Layout * Z) }.

Definition hand_out (l : Layout) (refs : list (Layout * Z)) (o : outcome (Z * BumpArena B)) : outcome request_arena :=
  outcome_bind (fun r => Done (mkRequest r.2 (refs ++ [(l, r.1)]))) o.

Definition arena_exec (op : arena_op) (c : request_arena) : outcome request_arena :=
  match op with
  | ALayout l => hand_out l (refs c) (alloc l (arena c))
  | AValue l value => hand_out l (refs c) (alloc_value l value (arena c))
  | ASlice src => hand_out (slice_layout src) (refs c) (alloc_slice_copy src (arena c))
  | AStore i bs =>
      match refs c !! i with
      | Some (l, p) =>
          if layout_size l =? Z.of_nat (length bs)
          then Done (mkRequest (mkArena (inner (arena c)) (mem_write (memory (arena c)) p bs)) (refs c))
          else Panics
      | None => Panics
      end
  | AReset => Done (mkRequest (reset (arena c)) [])
  end.

Fixpoint arena_run (ops : list arena_op) (c : request_arena) : outcome request_arena :=
  match ops with
  | [] => Done c
  | op :: ops => outcome_bind (arena_run ops) (arena_exec op c)
  end.

(** An arena whose allocations succeed. *)
Definition ample : Prop :=
  forall (b : B) m, (forall l, is_Some (bump_alloc_layout l b m)) /\
    (forall l bs, is_Some (bump_alloc l bs b m)) /\ (forall bs, is_Some (bump_alloc_slice_copy bs b m)).

(** A reference and the buffer it stands for. *)
Definition ref_reads (m : mem) (h : Layout * Z) (b : Layout * option (list byte)) : Prop :=
  h.1 = b.1 /\ 0 < h.2 /\ (layout_align h.1 | h.2) /\
  forall bs, b.2 = Some bs -> layout_size h.1 = Z.of_nat (length bs) /\ mem_read m h.2 (length bs) = bs.

(** The arena holds the buffers [a]: every reference reads its own, and no two overlap. *)
Definition represents (c : request_arena) (a : buffers) : Prop :=
  Forall2 (ref_reads (memory (arena c))) (refs c) a /\
  (forall i j h k, refs c !! i = Some h -> refs c !! j = Some k -> i <> j ->
     apart (held_block h) (held_block k)) /\
  bump_live (inner (arena c)) = reverse (held_block <$> refs c).
End requests.
Arguments request_arena : clear implicits.

(** ** Reading and writing memory *)

Lemma mem_read_ext m m' p n :
  (forall a, p <= a < p + Z.of_nat n -> m' a = m a) -> mem_read m' p n = mem_read m p n.
Proof.
  revert p. induction n as [|n IH]; intros p Hext; cbn; [done|]. f_equal; [apply Hext; lia|].
  apply IH. intros a Ha. apply Hext. lia.
Qed.

Lemma mem_write_outside m p bs a : ~ within a (p, Z.of_nat (length bs)) -> mem_write m p bs a = m a.
Proof.
  unfold within. revert p. induction bs as [|b bs IH]; cbn; intros p Ha; [done|].
  destruct (Z.eqb_spec a p); [lia|]. apply IH. cbn. lia.
Qed.

Lemma mem_read_write m p bs : mem_read (mem_write m p bs) p (length bs) = bs.
Proof.
  revert p. induction bs as [|b bs IH]; cbn; intros p; [done|]. rewrite Z.eqb_refl. f_equal.
  etransitivity; [|apply (IH (p + 1))]. apply mem_read_ext. intros a Ha.
  destruct (Z.eqb_spec a p); [lia|done].
Qed.

Lemma apart_sym b c : apart b c -> apart c b.
Proof. unfold apart. eauto. Qed.

Lemma ref_reads_keeps m m' h b :
  (forall a, within a (held_block h) -> m' a = m a) -> ref_reads m h b -> ref_reads m' h b.
Proof.
  intros Hk (Hl & Hp & Hal & Hbs). split_and!; [done..|]. intros bs E. destruct (Hbs bs E) as [Hs Hr].
  split; [done|]. rewrite <- Hr at 2. apply mem_read_ext. intros a Ha. apply Hk. unfold within, held_block. cbn. lia.
Qed.

Section arena_laws.
Context {B : Type} `{Bump B}.
Implicit Type (c : request_arena B) (a : buffers).

(** A block handed out and filled is one more buffer. *)
Lemma represents_take c a l v p b m' :
  represents c a -> fresh_block l p (bump_live (inner (arena c))) ->
  bump_live b = (p, layout_size l) :: bump_live (inner (arena c)) ->
  keeps (bump_live (inner (arena c))) (memory (arena c)) m' ->
  (forall bs, v = Some bs -> layout_size l = Z.of_nat (length bs) /\ mem_read m' p (length bs) = bs) ->
  represents (mkRequest (mkArena b m') (refs c ++ [(l, p)])) (a ++ [(l, v)]).
Proof.
  intros (Hf & Ha & Hlive) (Hp & Hal & Hfr) Hb Hk Hv. rewrite Hlive in Hfr, Hk.
  assert (Hin : forall i h, refs c !! i = Some h -> held_block h ∈ reverse (held_block <$> refs c)).
  { intros i h Hi. apply elem_of_reverse, list_elem_of_fmap_2. by eapply list_elem_of_lookup_2. }
  rewrite Forall_forall in Hfr. split_and!; cbn [arena refs inner memory].
  - apply Forall2_app; [|by apply Forall2_cons_2; [split_and!|apply Forall2_nil_2]].
    apply Forall2_same_length_lookup. pose proof (Forall2_length _ _ _ Hf). split; [done|].
    intros i h k Hh Hi. eapply ref_reads_keeps; [|by eapply Forall2_lookup_lr]. intros x Hx. eapply Hk; eauto.
  - intros i j h k [Hi|[? Hi]]%lookup_app_Some [Hj|[? Hj]]%lookup_app_Some Hij.
    + by eapply Ha.
    + apply list_lookup_singleton_Some in Hj as [_ <-]. apply apart_sym, Hfr. by eapply Hin.
    + apply list_lookup_singleton_Some in Hi as [_ <-]. apply Hfr. by eapply Hin.
    + apply list_lookup_singleton_Some in Hi as [? _], Hj as [? _]. lia.
  - rewrite fmap_app, reverse_app, Hb, Hlive. done.
Qed.

(** A store through one reference changes its buffer and no other. *)
Lemma represents_store c a i l p v bs :
  represents c a -> refs c !! i = Some (l, p) -> a !! i = Some (l, v) -> layout_size l = Z.of_nat (length bs) ->
  represents (mkRequest (mkArena (inner (arena c)) (mem_write (memory (arena c)) p bs)) (refs c))
    (<[i := (l, Some bs)]> a).
Proof.
  intros (Hf & Ha & Hlive) Hi Hai Hs. split; [|done]. cbn.
  pose proof (Forall2_length _ _ _ Hf) as Hlen. apply Forall2_same_length_lookup.
  rewrite length_insert. split; [done|]. intros j h k Hj Hk.
  apply list_lookup_insert_Some in Hk as [(<- & <- & _)|[Hij Hk]].
  - assert (h = (l, p)) as -> by congruence.
    destruct (Forall2_lookup_lr _ _ _ _ _ _ Hf Hi Hai) as (_ & Hp & Hal & _).
    split_and!; [done..|]. intros bs' [= <-]. split; [done|apply mem_read_write].
  - eapply ref_reads_keeps; [|by eapply Forall2_lookup_lr]. intros x Hx. apply mem_write_outside.
    rewrite <- Hs. intros Hx'. by eapply (Ha i j (l, p) h).
Qed.

Lemma represents_new m : represents (mkRequest (BumpArena_new (B := B) m) []) [].
Proof. repeat split; [constructor|done|apply bump_new_empty]. Qed.

Lemma arena_exec_sim op c a :
  arena_op_ok op -> represents c a ->
  match arena_exec op c with
  | Done c' => exists a', spec_exec op a = Done a' /\ represents c' a'
  | Panics => spec_exec op a = Panics \/ ~ ample (B := B)
  | Undefined => False
  end.
Proof.
  intros Hop Hr. destruct op as [l|l value|src|i bs|]; cbn in *.
  - unfold arena_alloc. destruct (bump_alloc_layout _ _ _) as [[[p b] m]|] eqn:E; cbn.
    + destruct (bump_alloc_layout_block _ _ _ _ _ _ Hop E) as (? & ? & ?).
      eexists. split; [done|]. by apply represents_take.
    + right. intros Hm. destruct (Hm (inner (arena c)) (memory (arena c))) as (Hm' & _).
      by destruct (Hm' l); congruence.
  - unfold alloc_value. destruct (bump_alloc _ _ _ _) as [[[p b] m]|] eqn:E; cbn.
    + destruct Hop as [Hl Hs]. destruct (bump_alloc_block _ _ _ _ _ _ _ Hl Hs E) as (? & ? & ? & ?).
      eexists. split; [done|]. apply represents_take; try done. by intros bs [= <-].
    + right. intros Hm. destruct (Hm (inner (arena c)) (memory (arena c))) as (_ & Hm' & _).
      by destruct (Hm' l value); congruence.
  - unfold alloc_slice_copy. destruct (bump_alloc_slice_copy _ _ _) as [[[p b] m]|] eqn:E; cbn.
    + destruct (bump_alloc_slice_copy_block _ _ _ _ _ _ E) as (? & ? & ? & ?).
      eexists. split; [done|]. apply represents_take; try done. by intros bs [= <-].
    + right. intros Hm. destruct (Hm (inner (arena c)) (memory (arena c))) as (_ & _ & Hm').
      by destruct (Hm' src); congruence.
  - destruct (refs c !! i) as [[l p]|] eqn:Hi.
    + destruct Hr as (Hf & Hrest). destruct (Forall2_lookup_l _ _ _ _ _ Hf Hi) as ([l' v] & Hai & Hl & _).
      cbn in Hl. subst l'. rewrite Hai. destruct (Z.eqb_spec (layout_size l) (Z.of_nat (length bs))); [|by left].
      eexists. split; [done|]. by eapply represents_store.
    + left. destruct (a !! i) eqn:Hai; [|done]. destruct Hr as (Hf & _).
      apply (Forall2_lookup_r _ _ _ _ _ Hf) in Hai as (? & ? & _). congruence.
  - eexists. split; [done|]. repeat split; [constructor|done|]. apply bump_reset_empty.
Qed.

Lemma arena_run_sim ops c a :
  Forall arena_op_ok ops -> represents c a ->
  match arena_run ops c with
  | Done c' => exists a', spec_run ops a = Done a' /\ represents c' a'
  | Panics => spec_run ops a = Panics \/ ~ ample (B := B)
  | Undefined => False
  end.
Proof.
  intros Hops. revert c a. induction Hops as [|op ops Hop Hops IH]; intros c a Hr; cbn; [by eauto|].
  pose proof (arena_exec_sim op c a Hop Hr) as Hx. destruct (arena_exec op c) as [c'| |]; cbn; [|..|done].
  - destruct Hx as (a' & -> & Hr'). by apply IH.
  - destruct Hx as [->|Hm]; [by left|by right].
Qed.
End arena_laws.

(** ** Concrete allocators

    An arena that never fails and a heap of [limit] bytes per block: both place a block
    above everything that is lent. *)

Definition above (live : list block) : Z := foldr (fun b => Z.max (b.1 + b.2)) 16 live.

Definition place (l : Layout) (live : list block) : Z := div_ceil (above live) (layout_align l) * layout_align l.

Lemma above_bounds live : 16 <= above live /\ Forall (fun b => b.1 + b.2 <= above live) live.
Proof.
  induction live as [|b live [IH1 IH2]]; [split; [cbn; lia|constructor]|].
  change (above (b :: live)) with (Z.max (b.1 + b.2) (above live)). split; [lia|].
  constructor; [lia|]. eapply Forall_impl; [exact IH2|]. intros b' Hb'. cbn in Hb'. lia.
Qed.

Lemma layout_ok_align l : layout_ok l -> 0 < layout_align l.
Proof.
  unfold layout_ok, from_size_align, is_power_of_two. destruct (Z.ltb_spec 0 (layout_align l)); [done|]. done.
Qed.

Lemma place_fresh l live : 0 < layout_align l -> fresh_block l (place l live) live.
Proof.
  intros Hl. destruct (above_bounds live) as [H16 Hall].
  pose proof (div_ceil_spec (above live) (layout_align l) ltac:(lia) Hl) as Hc. fold (place l live) in Hc.
  split_and!; [lia|by exists (div_ceil (above live) (layout_align l))|].
  eapply Forall_impl; [exact Hall|]. intros b Hb a Ha Ha'. unfold within in *. cbn in *. lia.
Qed.

Lemma place_write_keeps l live m bs : 0 < layout_align l -> layout_size l = Z.of_nat (length bs) ->
  keeps live m (mem_write m (place l live) bs).
Proof.
  intros Hl Hs b a Hb Ha. apply mem_write_outside. rewrite <- Hs. intros Ha'.
  destruct (place_fresh l live Hl) as (_ & _ & Hf). rewrite Forall_forall in Hf. by eapply Hf.
Qed.

Definition grown (l : Layout) (live : list block) (m : mem) : Z * list block * mem :=
  (place l live, (place l live, layout_size l) :: live, m).

#[global] Program Instance list_bump : Bump (list block) := {
  bump_new := [];
  bump_with_capacity _ m := Some ([], m);
  bump_alloc_layout l b m := Some (grown l b m);
  bump_alloc l bs b m := Some (grown l b (mem_write m (place l b) bs));
  bump_alloc_slice_copy bs b m :=
    Some (grown (slice_layout bs) b (mem_write m (place (slice_layout bs) b) bs));
  bump_reset _ m := ([], m);
  bump_allocated_bytes b := foldr (fun x n => x.2 + n) 0 b;
  bump_live := id;
}.
Next Obligation. done. Qed.
Next Obligation. by intros n m b m' [= <- <-]. Qed.
Next Obligation.
  intros l b m p b' m' Hl [= <- <- <-]. split_and!; [|done|done]. by apply place_fresh, layout_ok_align.
Qed.
Next Obligation.
  intros l bs b m p b' m' Hl Hs [= <- <- <-]. apply layout_ok_align in Hl.
  split_and!; [by apply place_fresh|done|by apply place_write_keeps|apply mem_read_write].
Qed.
Next Obligation.
  intros bs b m p b' m' [= <- <- <-].
  split_and!; [by apply place_fresh|done|by apply place_write_keeps|apply mem_read_write].
Qed.
Next Obligation. done. Qed.

Record bounded_heap := mkHeap { limit : Z; blocks : list block }.

#[global] Program Instance bounded_global : GlobalAlloc bounded_heap := {
  ga_alloc l g :=
    if limit g <? layout_size l then (0, g)
    else (place l (blocks g), mkHeap (limit g) ((place l (blocks g), layout_size l) :: blocks g));
  ga_live := blocks;
}.
Next Obligation.
  intros l g Hl _. cbn. destruct (limit g <? layout_size l); [done|]. intros _. cbn.
  split; [by apply place_fresh, layout_ok_align|done].
Qed.

(** ** Properties *)

(** A client of either allocator, whatever it allocates and however often it resets,
    never meets undefined behaviour as long as its layouts have a size, and the pointers it
    holds are never null, are aligned as asked and address blocks that do not overlap. *)
Theorem held_pointers_apart {S} `{AllocatorContract S} (ops : list alloc_op) (s : S) :
  Forall op_layout_ok ops ->
  match client_run ops s [] with
  | Done (_, held) => held_ok held
  | Panics => True
  | Undefined => False
  end.
Proof.
  intros Hops. pose proof (client_run_holds ops s [] Hops) as Hr.
  assert (holds s []) as Hs by (repeat split; [constructor..|by intros h ?%elem_of_nil]).
  specialize (Hr Hs). destruct (client_run ops s []) as [[s' held]| |]; [apply Hr|done|done].
Qed.

(** What the laws of [Bump] give a user of the arena: after any allocations, copies, stores
    and resets, every reference handed out since the last reset reads what was last written
    through it, and the references are aligned, not null and apart. *)
Theorem arena_refines_buffers {B} `{Bump B} (ops : list arena_op) (m : mem) :
  Forall arena_op_ok ops ->
  let run := arena_run ops (mkRequest (BumpArena_new (B := B) m) []) in
  run <> Undefined /\
  (forall c, run = Done c -> exists a, spec_run ops [] = Done a /\ represents c a) /\
  (forall a, spec_run ops [] = Done a -> ample (B := B) -> exists c, run = Done c).
Proof.
  intros Hops run. pose proof (arena_run_sim ops _ [] Hops (represents_new m)) as Hs. fold run in Hs.
  destruct run as [c| |]; split_and!; try done; try by eauto.
  - intros c' [= <-]. exact Hs.
  - intros a Ha Hm. destruct Hs as [Hs|Hs]; [congruence|done].
Qed.

Definition sample_ops : list arena_op :=
  [ASlice (bstr "POST"); AValue (mkLayout 4 4) (bstr "42ab"); ALayout (mkLayout 0 8);
   AStore 0 (bstr "GET "); AStore 2 []].

(** A request line, a value and an empty block in an arena. *)
Lemma arena_refines_buffers_witness :
  (exists c, arena_run sample_ops (mkRequest (BumpArena_new (B := list block) (fun _ => Byte.x00)) []) = Done c /\
     (exists a, spec_run sample_ops [] = Done a /\ represents c a) /\
     (snd <$> refs c) = [16; 20; 24] /\ mem_read (memory (arena c)) 16 8 = bstr "GET 42ab").
Proof.
  destruct (arena_refines_buffers (B := list block) sample_ops (fun _ => Byte.x00)) as (_ & Hd & _).
  { repeat constructor; vm_compute; done. }
  eexists. split; [reflexivity|]. split; [apply Hd; reflexivity|]. split; vm_compute; reflexivity.
Defined.

Lemma held_pointers_apart_witness :
  exists s held, client_run [OpAlloc (mkLayout 64 8); OpReset; OpAlloc (mkLayout 24 16)]
      (SystemAllocator_new (mkHeap 4096 [])) [] = Done (s, held) /\ held <> [] /\ held_ok held.
Proof.
  pose proof (held_pointers_apart [OpAlloc (mkLayout 64 8); OpReset; OpAlloc (mkLayout 24 16)]
    (SystemAllocator_new (mkHeap 4096 []))) as Hw.
  eexists _, _. split; [reflexivity|]. split; [done|]. apply Hw. repeat constructor; vm_compute; done.
Defined.

(** [Layout] does not exclude a size of zero, contrary to the [SAFETY] comment of
    [SystemAllocator::alloc]: on such a layout, which safe code can build, the call has
    undefined behaviour, whatever the heap. *)
Theorem zero_size_layout_undefined {G} `{GlobalAlloc G} (align : Z) (l : Layout) (s : SystemAllocator G) :
  from_size_align 0 align = Some l -> alloc l s = Undefined.
Proof.
  unfold from_size_align. destruct (_ && _ && _); [|done]. by intros [= <-].
Qed.

Lemma zero_size_layout_undefined_witness :
  from_size_align 0 8 = Some (mkLayout 0 8) /\
  alloc (mkLayout 0 8) (SystemAllocator_new (mkHeap 4096 [])) = Undefined.
Proof. split; [reflexivity|]. apply (zero_size_layout_undefined 8). reflexivity. Defined.
