(* ===== verification/Parser.v ===== *)
(** * Parser: the events and errors of [riftgate-core/src/parser.rs]

    [ParseEvent] and [ParseError] as the two stream parsers share them, and the
    [StreamParser] trait as a type class of state-passing operations.  A borrowed slice
    is the list of its bytes. *)

From S2P Require Import Prelude Floats Core Cancel.

Inductive ParseError :=
| HeaderTooLarge (size : Z)
| InvalidChunkedEncoding (reason : string)
| MalformedRequestLine (reason : string)
| MalformedHeader (offset : Z)
| MalformedSse (reason : string)
| UnsupportedHttpVersion (v : string).

Inductive ParseEvent :=
| HeadersComplete (h : Headers)
| BodyChunk (bs : list byte)
| BodyComplete
| SseToken (bs : list byte)
| SseDone
| Cancelled (bytes_seen : Z) (c : CancelCause)
| ErrorEvent (e : ParseError).

Class StreamParser (P : Type) := {
  feed : list byte -> P -> list ParseEvent * P;
  reset : P -> P;
}.

(** A stream arrives in chunks; the events of all of them, in order. *)
Fixpoint feeds {P : Type} `{StreamParser P} (chunks : list (list byte)) (p : P)
    : list ParseEvent * P :=
  match chunks with
  | [] => ([], p)
  | c :: chunks =>
      let '(es, p) := feed c p in
      let '(es', p) := feeds chunks p in
      (es ++ es', p)
  end.
