(* ===== verification/Sse.v ===== *)
(** * Sse: [SseFramer] of [riftgate-parser/src/sse.rs]

    The framer is modelled with its buffers as the code has them: tokens are ranges of
    the per-feed [output_buffer], turned into slices when [feed] returns.  [sse_feed]
    takes the state that the cancellation driver shares with the canceller. *)

From S2P Require Import Prelude Floats Core Cancel Parser.

Inductive Phase := Reading | Done | PhaseError | PhaseCancelled.

#[global] Instance Phase_eq_dec : EqDecision Phase.
Proof. solve_decision. Defined.

(** [cancellation] says whether a driver is attached. *)
Record SseFramer := mkSse {
  line_buf : list byte;
  current_event : list byte;
  output_buffer : list byte;
  bytes_seen : Z;
  cancellation : bool;
  phase : Phase;
}.

Definition SseFramer_new : SseFramer := mkSse [] [] [] 0 false Reading.
Definition with_cancellation : SseFramer := mkSse [] [] [] 0 true Reading.

Inductive Emit :=
| EmitToken (start end_ : nat)
| EmitDone
| EmitCancelled (c : CancelCause)
| EmitError (e : ParseError).

Definition LF : byte := Byte.x0a.
Definition CR : byte := Byte.x0d.
Definition SP : byte := Byte.x20.
Definition COLON : byte := Byte.x3a.
Definition DATA : list byte := bstr "data:".
Definition DONE_PAYLOAD : list byte := bstr "[DONE]".
Definition MAX_LINE : Z := 1024 * 1024.

Definition strip_cr (line : list byte) : list byte :=
  match last line with
  | Some b => if decide (b = CR) then take (length line - 1) line else line
  | None => line
  end.

(** The separator between two [data:] lines of one event. *)
Definition event_prefix (current : list byte) : list byte :=
  match current with [] => [] | _ => current ++ [LF] end.

Definition process_line (line current : list byte) : list byte :=
  let line := strip_cr line in
  if decide (head line = Some COLON) then current
  else if decide (take 5 line = DATA) then
    let rest := skipn 5 line in
    let payload := if decide (head rest = Some SP) then skipn 1 rest else rest in
    event_prefix current ++ payload
  else current.

Definition line_was_blank (line : list byte) : bool :=
  match line with [] => true | [b] => bool_decide (b = CR) | _ => false end.

(** One iteration of the loop over the input; the boolean is the [break]. *)
Definition on_byte (b : byte) (f : SseFramer) (emit : list Emit) : SseFramer * list Emit * bool :=
  if decide (b = LF) then
    let current := process_line (line_buf f) (current_event f) in
    let blank := line_was_blank (line_buf f) in
    if blank && bool_decide (current <> []) then
      if decide (current = DONE_PAYLOAD) then
        (mkSse [] [] (output_buffer f) (bytes_seen f) (cancellation f) Done,
         emit ++ [EmitDone], true)
      else
        let start := length (output_buffer f) in
        let output := output_buffer f ++ current in
        let stop := length output in
        (mkSse [] [] output (wrapping_add 64 (bytes_seen f) (Z.of_nat (stop - start)))
           (cancellation f) (phase f),
         emit ++ [EmitToken start stop], false)
    else
      (mkSse [] current (output_buffer f) (bytes_seen f) (cancellation f) (phase f), emit, false)
  else
    let line := line_buf f ++ [b] in
    if MAX_LINE <? Z.of_nat (length line) then
      (mkSse line (current_event f) (output_buffer f) (bytes_seen f) (cancellation f) PhaseError,
       emit ++ [EmitError (MalformedSse "single SSE line exceeded 1 MiB")], true)
    else
      (mkSse line (current_event f) (output_buffer f) (bytes_seen f) (cancellation f) (phase f),
       emit, false).

Fixpoint feed_loop (bytes : list byte) (f : SseFramer) (emit : list Emit)
    : SseFramer * list Emit :=
  match bytes with
  | [] => (f, emit)
  | b :: bytes =>
      let '(f, emit, brk) := on_byte b f emit in
      if (brk : bool) then (f, emit) else feed_loop bytes f emit
  end.

Definition slice (buf : list byte) (start stop : nat) : list byte :=
  take (stop - start) (skipn start buf).

Definition to_event (buf : list byte) (seen : Z) (e : Emit) : ParseEvent :=
  match e with
  | EmitToken a b => SseToken (slice buf a b)
  | EmitDone => SseDone
  | EmitCancelled c => Cancelled seen c
  | EmitError e => ErrorEvent e
  end.

(** The early return's helper, which sees no token. *)
Definition finalize (seen : Z) (emit : list Emit) : list ParseEvent :=
  (fun e => match e with
            | EmitCancelled c => Cancelled seen c
            | EmitError e => ErrorEvent e
            | EmitToken _ _ | EmitDone => SseDone
            end) <$> emit.

Definition clear_output (f : SseFramer) : SseFramer :=
  mkSse (line_buf f) (current_event f) [] (bytes_seen f) (cancellation f) (phase f).

Definition set_phase (p : Phase) (f : SseFramer) : SseFramer :=
  mkSse (line_buf f) (current_event f) (output_buffer f) (bytes_seen f) (cancellation f) p.

Definition sse_feed {T : Type} `{Token T} (driver : CancelState (T := T)) (bytes : list byte)
    (f : SseFramer) : list ParseEvent * SseFramer :=
  let f := clear_output f in
  match phase f with
  | Done | PhaseError | PhaseCancelled => ([], f)
  | Reading =>
      if cancellation f && is_cancelled driver then
        (finalize (bytes_seen f) [EmitCancelled (observed_cause driver)], set_phase PhaseCancelled f)
      else
        let '(f, emit) := feed_loop bytes f [] in
        (to_event (output_buffer f) (bytes_seen f) <$> emit, f)
  end.

Definition sse_reset (f : SseFramer) : SseFramer :=
  mkSse [] [] [] 0 (cancellation f) Reading.

(** The framer of an uncancelled stream, as a [StreamParser]. *)
#[global] Instance sse_parser : StreamParser SseFramer := {
  feed := sse_feed (CancelState_new (T := bool));
  reset := sse_reset;
}.

(** ** One byte at a time: the reference the buffered loop is compared with *)

Definition spec_byte (b : byte) (f : SseFramer) : list ParseEvent * SseFramer :=
  match phase f with
  | Reading =>
      let '(f, emit, _) := on_byte b (clear_output f) [] in
      (to_event (output_buffer f) (bytes_seen f) <$> emit, clear_output f)
  | _ => ([], clear_output f)
  end.

Fixpoint spec_feed (bytes : list byte) (f : SseFramer) : list ParseEvent * SseFramer :=
  match bytes with
  | [] => ([], clear_output f)
  | b :: bytes =>
      let '(es, f) := spec_byte b f in
      let '(es', f) := spec_feed bytes f in
      (es ++ es', f)
  end.

(** The emitted items stand for these events, however the output buffer grows. *)
Definition resolves (f : SseFramer) (emit : list Emit) (es : list ParseEvent) : Prop :=
  forall ext seen, to_event (output_buffer f ++ ext) seen <$> emit = es.

Lemma slice_suffix buf cur ext :
  slice ((buf ++ cur) ++ ext) (length buf) (length (buf ++ cur)) = cur.
Proof.
  unfold slice. rewrite <- app_assoc, drop_app_length, length_app.
  replace (length buf + length cur - length buf)%nat with (length cur) by lia.
  apply take_app_length.
Qed.

Lemma on_byte_spec b f emit es f' emit' brk :
  phase f = Reading -> resolves f emit es -> on_byte b f emit = (f', emit', brk) ->
  resolves f' emit' (es ++ fst (spec_byte b f)) /\ clear_output f' = snd (spec_byte b f) /\
  (brk = true <-> phase f' <> Reading).
Proof.
  intros Hp Hes Hob. unfold spec_byte. rewrite Hp.
  unfold on_byte in *. cbn [line_buf current_event clear_output].
  set (cur := process_line _ _) in *.
  assert (Hsnoc : forall f1 e ev, (forall ext, exists x, output_buffer f1 ++ ext = output_buffer f ++ x) ->
    (forall ext seen, to_event (output_buffer f1 ++ ext) seen e = ev) ->
    resolves f1 (emit ++ [e]) (es ++ [ev])).
  { intros f1 e ev Hx He ext seen. rewrite fmap_app. cbn. rewrite He.
    f_equal. destruct (Hx ext) as [x ->]. apply Hes. }
  destruct (decide (b = LF)); [destruct (line_was_blank _ && _)|destruct (MAX_LINE <? _)];
    repeat case_decide; injection Hob as <- <- <-; cbn [fst snd fmap list_fmap];
    rewrite ?app_nil_r; (split; [|split; [|by cbn; rewrite ?Hp]]); try done.
  - apply Hsnoc; [|done]. intros ext. by exists ext.
  - apply Hsnoc.
    + intros ext. cbn. exists (cur ++ ext). by rewrite app_assoc.
    + intros ext seen. cbn -[slice]. rewrite slice_suffix. unfold slice; cbn. by rewrite drop_0, take_ge by lia.
  - unfold clear_output; cbn. rewrite length_app. do 3 f_equal. lia.
  - apply Hsnoc; [|done]. intros ext. by exists ext.
Qed.

Lemma phase_clear f : phase (clear_output f) = phase f.
Proof. done. Qed.

Lemma spec_feed_clear bytes f : spec_feed bytes (clear_output f) = spec_feed bytes f.
Proof. by destruct bytes. Qed.

Lemma spec_feed_stopped bytes f : phase f <> Reading -> spec_feed bytes f = ([], clear_output f).
Proof.
  revert f. induction bytes as [|b bytes IH]; intros f Hp; [done|].
  cbn. unfold spec_byte. destruct (phase f) eqn:E; try done; by rewrite IH by (cbn; congruence).
Qed.

Lemma spec_feed_app a b f :
  spec_feed (a ++ b) f =
    (fst (spec_feed a f) ++ fst (spec_feed b (snd (spec_feed a f))),
     snd (spec_feed b (snd (spec_feed a f)))).
Proof.
  revert f. induction a as [|x a IH]; intros f; cbn.
  { rewrite spec_feed_clear. by destruct (spec_feed b f). }
  destruct (spec_byte x f) as [es f1]. rewrite IH.
  destruct (spec_feed a f1) as [es2 f2]. by rewrite app_assoc.
Qed.

Lemma feed_loop_spec bytes f emit es f' emit' :
  phase f = Reading -> resolves f emit es -> feed_loop bytes f emit = (f', emit') ->
  resolves f' emit' (es ++ fst (spec_feed bytes f)) /\ clear_output f' = snd (spec_feed bytes f).
Proof.
  revert f emit es. induction bytes as [|b bytes IH]; intros f emit es Hp Hes Hl; cbn in Hl.
  { injection Hl as <- <-. cbn. by rewrite app_nil_r. }
  destruct (on_byte b f emit) as [[f1 emit1] brk] eqn:E.
  pose proof (on_byte_spec _ _ _ _ _ _ _ Hp Hes E) as (Hes1 & Hf1 & Hbrk).
  cbn [spec_feed]. destruct (spec_byte b f) as [es1 g1] eqn:Eb; cbn [fst snd] in *. subst g1.
  destruct brk.
  - injection Hl as <- <-. rewrite spec_feed_stopped by by apply Hbrk. cbn.
    by rewrite app_nil_r.
  - assert (Hp1 : phase f1 = Reading) 
      by (destruct (phase f1); [done|exfalso; discriminate (proj2 Hbrk ltac:(done)) ..]).
    specialize (IH f1 emit1 _ Hp1 Hes1 Hl). rewrite spec_feed_clear.
    destruct (spec_feed bytes f1); cbn in *. by rewrite <- app_assoc in IH.
Qed.

(** An uncancelled [feed] of any length is the one-byte-at-a-time reference. *)
Lemma sse_feed_spec bytes (f : SseFramer) :
  fst (feed bytes f) = fst (spec_feed bytes f) /\
  clear_output (snd (feed bytes f)) = snd (spec_feed bytes f).
Proof.
  cbn [feed sse_parser]. unfold sse_feed. change (is_cancelled _) with false.
  rewrite andb_false_r. cbn [phase clear_output].
  destruct (phase f) eqn:Hp; [|by rewrite spec_feed_stopped by congruence..].
  destruct (feed_loop bytes (clear_output f) []) as [f' emit'] eqn:E.
  apply (feed_loop_spec _ _ _ []) in E as [He Hf]; [|done|done].
  rewrite spec_feed_clear in *. cbn in *. split; [|done].
  specialize (He [] (bytes_seen f')). by rewrite app_nil_r in He.
Qed.

Lemma sse_feeds_spec chunks (f : SseFramer) :
  fst (feeds chunks f) = fst (spec_feed (concat chunks) f) /\
  clear_output (snd (feeds chunks f)) = snd (spec_feed (concat chunks) f).
Proof.
  revert f. induction chunks as [|c chunks IH]; intros f; [done|].
  cbn [feeds concat]. destruct (feed c f) as [es f1] eqn:E.
  destruct (feeds chunks f1) as [es' f2] eqn:E'. rewrite spec_feed_app.
  destruct (sse_feed_spec c f) as [H1 H2]. rewrite E in H1, H2. cbn [fst snd] in *.
  specialize (IH f1). rewrite E' in IH. cbn [fst snd] in IH.
  rewrite <- H1, <- H2, spec_feed_clear. by destruct IH as [<- <-].
Qed.

(** [C10] Chunking invariance: how the network splits the stream does not matter.  Any
    two ways to cut the same bytes into [feed] calls produce the same events and leave
    the framer in the same state, the per-feed output buffer apart. *)
Theorem sse_chunking_invariance chunks chunks' (f : SseFramer) :
  concat chunks = concat chunks' ->
  fst (feeds chunks f) = fst (feeds chunks' f) /\
  clear_output (snd (feeds chunks f)) = clear_output (snd (feeds chunks' f)).
Proof.
  intros Hc. destruct (sse_feeds_spec chunks f) as [-> ->], (sse_feeds_spec chunks' f) as [-> ->].
  by rewrite Hc.
Qed.

Lemma sse_chunking_invariance_witness :
  fst (feeds [bstr "da"; bstr "ta: hi"; [LF]; [LF]] SseFramer_new) =
  fst (feeds [bstr "data: hi" ++ [LF; LF]] SseFramer_new).
Proof.
  apply (sse_chunking_invariance [bstr "da"; bstr "ta: hi"; [LF]; [LF]]
    [bstr "data: hi" ++ [LF; LF]] SseFramer_new). reflexivity.
Defined.

(** ** Round trip: an encoder, as the upstream writes the stream, and the framer *)

(** One event of several [data:] lines, and the bytes of a whole stream. *)
Definition encode_line (l : list byte) : list byte := DATA ++ SP :: l ++ [LF].
Definition encode_event (ls : list (list byte)) : list byte := concat (encode_line <$> ls) ++ [LF].
Definition encode_stream (evs : list (list (list byte))) : list byte :=
  concat (encode_event <$> evs) ++ encode_event [DONE_PAYLOAD].

(** The payload of an event: its lines joined by newlines. *)
Fixpoint join_lines (ls : list (list byte)) : list byte :=
  match ls with
  | [] => []
  | [l] => l
  | l :: ls => l ++ LF :: join_lines ls
  end.

Definition line_ok (l : list byte) : Prop :=
  (LF ∉ l) /\ last l <> Some CR /\ 6 + Z.of_nat (length l) <= MAX_LINE.

(** The first line is not empty, and the payload is not the sentinel. *)
Definition event_ok (ls : list (list byte)) : Prop :=
  Forall line_ok ls /\ head ls <> Some [] /\ ls <> [] /\ join_lines ls <> DONE_PAYLOAD.

Definition with_line (l : list byte) (f : SseFramer) : SseFramer :=
  mkSse l (current_event f) [] (bytes_seen f) (cancellation f) (phase f).

(** Bytes without a newline only grow the line. *)
Lemma spec_feed_line l f :
  phase f = Reading -> LF ∉ l -> Z.of_nat (length (line_buf f ++ l)) <= MAX_LINE ->
  spec_feed l f = ([], with_line (line_buf f ++ l) f).
Proof.
  revert f. induction l as [|b l IH]; intros f Hp Hl Hlen; cbn [spec_feed].
  { by rewrite app_nil_r. }
  apply not_elem_of_cons in Hl as [Hb Hl].
  unfold spec_byte, on_byte. rewrite Hp, decide_False by done.
  cbn [line_buf clear_output]. rewrite length_app in *. cbn [length] in *.
  destruct (Z.ltb_spec MAX_LINE (Z.of_nat (length (line_buf f) + 1))); [lia|].
  cbn. rewrite IH; [|done..|cbn; rewrite !length_app; cbn; lia].
  unfold with_line; cbn. by rewrite <- app_assoc.
Qed.

Lemma strip_cr_id l : last l <> Some CR -> strip_cr l = l.
Proof. unfold strip_cr. destruct (last l); [|done]. case_decide; congruence. Qed.

(** A [data:] line adds its payload. *)
Lemma process_data_line l cur :
  last l <> Some CR ->
  process_line (DATA ++ SP :: l) cur = event_prefix cur ++ l.
Proof.
  intros Hcr. unfold process_line. rewrite strip_cr_id.
  - by cbn; rewrite drop_0.
  - rewrite last_app_cons. destruct l; [done|exact Hcr].
Qed.

Definition with_current (cur : list byte) (f : SseFramer) : SseFramer :=
  mkSse [] cur [] (bytes_seen f) (cancellation f) (phase f).

Lemma spec_feed_data_line l f :
  phase f = Reading -> line_buf f = [] -> line_ok l ->
  spec_feed (encode_line l) f =
    ([], with_current (event_prefix (current_event f) ++ l) f).
Proof.
  intros Hp Hb (Hlf & Hcr & Hlen). unfold encode_line.
  rewrite app_comm_cons, app_assoc, spec_feed_app, spec_feed_line; cycle 1; [done| | |].
  { rewrite elem_of_app, elem_of_cons. intros [H|[?|?]]; [|done|done].
    revert H. by apply (bool_decide_unpack (LF ∉ DATA)). }
  { rewrite Hb, length_app. cbn [length app]. cbn. lia. }
  rewrite Hb. cbn [fst snd app spec_feed]. unfold spec_byte, on_byte. cbn [phase with_line].
  rewrite Hp, decide_True by done. cbn [line_buf clear_output with_line current_event].
  rewrite process_data_line by done. change (line_was_blank (DATA ++ SP :: l)) with false. done.
Qed.

(** From the second line on, the payload collects the lines. *)
Lemma spec_feed_lines ls f :
  phase f = Reading -> line_buf f = [] -> current_event f <> [] -> Forall line_ok ls ->
  spec_feed (concat (encode_line <$> ls)) f =
    ([], with_current (join_lines (current_event f :: ls)) f).
Proof.
  revert f. induction ls as [|l ls IH]; intros f Hp Hb Hc Hls.
  { cbn. unfold with_current, clear_output. by rewrite Hb. }
  apply Forall_cons in Hls as [Hl Hls]. cbn [fmap list_fmap concat].
  rewrite spec_feed_app, spec_feed_data_line by done. cbn [fst snd app].
  rewrite IH; [|done..| |done].
  - cbn [current_event with_current]. unfold with_current; cbn [bytes_seen cancellation phase].
    do 2 f_equal. destruct (current_event f) as [|c cs]; [done|].
    destruct ls; cbn; by rewrite <- ?app_assoc.
  - cbn. destruct (current_event f) as [|c cs]; [done|]. by destruct cs, l.
Qed.

Lemma spec_feed_event_lines ls f :
  phase f = Reading -> line_buf f = [] -> current_event f = [] ->
  Forall line_ok ls -> head ls <> Some [] ->
  spec_feed (concat (encode_line <$> ls)) f = ([], with_current (join_lines ls) f).
Proof.
  intros Hp Hb Hc Hls Hhd. destruct ls as [|l ls].
  { cbn. unfold with_current, clear_output. by rewrite Hb, Hc. }
  apply Forall_cons in Hls as [Hl Hls]. cbn [fmap list_fmap concat].
  rewrite spec_feed_app, spec_feed_data_line by done. rewrite Hc. cbn [fst snd app event_prefix].
  rewrite spec_feed_lines; [done..| |done]. cbn. intros ->. by apply Hhd.
Qed.

Definition add_seen (n : nat) (f : SseFramer) : SseFramer :=
  mkSse [] [] [] (wrapping_add 64 (bytes_seen f) (Z.of_nat n)) (cancellation f) (phase f).

Lemma join_lines_nonempty ls : ls <> [] -> head ls <> Some [] -> join_lines ls <> [].
Proof. destruct ls as [|[|b l] [|l' ls]]; naive_solver. Qed.

Lemma spec_feed_event ls f :
  phase f = Reading -> line_buf f = [] -> current_event f = [] -> event_ok ls ->
  spec_feed (encode_event ls) f =
    ([SseToken (join_lines ls)], add_seen (length (join_lines ls)) f).
Proof.
  intros Hp Hb Hc (Hls & Hhd & Hne & Hdone). unfold encode_event.
  rewrite spec_feed_app, spec_feed_event_lines by done. cbn [fst snd app spec_feed].
  unfold spec_byte, on_byte. cbn [phase with_current]. rewrite Hp, decide_True by done.
  cbn [line_buf clear_output with_current current_event]. change (process_line [] ?c) with c.
  rewrite bool_decide_true by by apply join_lines_nonempty. cbn [line_was_blank andb].
  rewrite decide_False by done. cbn -[slice join_lines].
  pose proof (slice_suffix [] (join_lines ls) []) as Hsl. rewrite app_nil_r in Hsl.
  cbn -[slice join_lines] in Hsl. by rewrite Hsl, Nat.sub_0_r.
Qed.


Lemma spec_feed_events evs f :
  phase f = Reading -> line_buf f = [] -> current_event f = [] -> output_buffer f = [] ->
  Forall event_ok evs ->
  exists seen, spec_feed (concat (encode_event <$> evs)) f =
    (SseToken ∘ join_lines <$> evs, mkSse [] [] [] seen (cancellation f) Reading).
Proof.
  revert f. induction evs as [|ls evs IH]; intros f Hp Hb Hc Ho Hev.
  { exists (bytes_seen f). destruct f; cbn in *. by subst. }
  apply Forall_cons in Hev as [He Hev]. cbn [fmap list_fmap concat].
  rewrite spec_feed_app, spec_feed_event by done. cbn [fst snd app].
  destruct (IH (add_seen (length (join_lines ls)) f)) as [seen ->]; [done..|].
  by exists seen.
Qed.

Lemma spec_feed_done f :
  phase f = Reading -> line_buf f = [] -> current_event f = [] ->
  spec_feed (encode_event [DONE_PAYLOAD]) f =
    ([SseDone], mkSse [] [] [] (bytes_seen f) (cancellation f) Done).
Proof. destruct f as [lb ce ob seen can ph]; cbn; intros -> -> ->. done. Qed.

Lemma spec_feed_stream evs f :
  phase f = Reading -> line_buf f = [] -> current_event f = [] -> output_buffer f = [] ->
  Forall event_ok evs ->
  exists seen, spec_feed (encode_stream evs) f =
    ((SseToken ∘ join_lines <$> evs) ++ [SseDone], mkSse [] [] [] seen (cancellation f) Done).
Proof.
  intros Hp Hb Hc Ho Hev. unfold encode_stream. rewrite spec_feed_app.
  destruct (spec_feed_events evs f Hp Hb Hc Ho Hev) as [seen ->]. cbn [fst snd].
  rewrite spec_feed_done by done. by exists seen.
Qed.

(** [C31] Round trip: a stream of events, each of one or more [data:] lines of which the first
    is not empty, no line longer than the limit or with a line break of its own, none of
    them the [[DONE]] sentinel, followed by that sentinel, comes back as exactly its payloads
    in order and [SseDone], whatever the chunks it arrives in; the framer is then in its
    terminal phase.  An event whose first line is empty is lost: [sse_empty_data_lost]. *)
Theorem sse_roundtrip evs chunks :
  Forall event_ok evs -> concat chunks = encode_stream evs ->
  fst (feeds chunks SseFramer_new) = (SseToken ∘ join_lines <$> evs) ++ [SseDone] /\
  phase (snd (feeds chunks SseFramer_new)) = Done.
Proof.
  intros Hev Hc. destruct (sse_feeds_spec chunks SseFramer_new) as [H1 H2].
  destruct (spec_feed_stream evs SseFramer_new eq_refl eq_refl eq_refl eq_refl Hev) as [seen Hs].
  rewrite Hc, Hs in H1, H2. split; [exact H1|]. by rewrite <- phase_clear, H2.
Qed.

Lemma sse_roundtrip_witness :
  fst (feeds [encode_stream [[bstr "hi"]; [bstr "a"; bstr "b"]]] SseFramer_new)
    = [SseToken (bstr "hi"); SseToken (bstr "a" ++ LF :: bstr "b"); SseDone].
Proof.
  apply (sse_roundtrip [[bstr "hi"]; [bstr "a"; bstr "b"]]).
  - repeat apply Forall_cons_2; try apply Forall_nil_2;
      (split; [repeat apply Forall_cons_2; try apply Forall_nil_2;
        (split; [by apply (bool_decide_unpack _)|split; [done|by vm_compute]])|done]).
  - reflexivity.
Defined.

(** ** Accounting, bounds and terminal phases *)

Fixpoint token_bytes (es : list ParseEvent) : Z :=
  match es with
  | [] => 0
  | SseToken bs :: es => Z.of_nat (length bs) + token_bytes es
  | _ :: es => token_bytes es
  end.

Lemma token_bytes_app a b : token_bytes (a ++ b) = token_bytes a + token_bytes b.
Proof. induction a as [|[] a IH]; cbn [app token_bytes]; lia. Qed.

Definition framer_ok (f : SseFramer) : Prop :=
  Z.of_nat (length (line_buf f)) <= MAX_LINE + 1 /\ in_u64 (bytes_seen f) /\
  (phase f = Reading -> Z.of_nat (length (line_buf f)) <= MAX_LINE) /\
  (phase f = Done -> line_buf f = [] /\ current_event f = []).

Lemma spec_byte_ok b f :
  framer_ok f ->
  framer_ok (snd (spec_byte b f)) /\
  bytes_seen (snd (spec_byte b f)) = wrap 64 (bytes_seen f + token_bytes (fst (spec_byte b f))).
Proof.
  intros Hok. pose proof Hok as (Hlen & Hu & Hread & _). unfold spec_byte.
  assert (Hw : bytes_seen f = wrap 64 (bytes_seen f + 0)) by by rewrite Z.add_0_r, wrap_small.
  assert (Hnil : Z.of_nat (length (@nil byte)) <= MAX_LINE + 1) by by vm_compute.
  destruct (phase f) eqn:Hp; [|by split..].
  unfold on_byte. cbn [line_buf current_event clear_output].
  destruct (decide (b = LF)).
  - set (cur := process_line _ _). destruct (_ && _); repeat case_decide;
      cbn [fst snd fmap list_fmap token_bytes to_event bytes_seen clear_output
        output_buffer app length].
    + split; [|done]. by repeat split; try apply Hu.
    + rewrite Nat.sub_0_r. unfold slice. rewrite drop_0, Nat.sub_0_r, take_ge, Z.add_0_r by lia.
      split; [|done]. repeat split; cbn; try done; try congruence; apply wrap_range; lia.
    + split; [|done]. repeat split; cbn; try apply Hu; try done; cbn in *; congruence.
  - specialize (Hread eq_refl).
    destruct (Z.ltb_spec MAX_LINE (Z.of_nat (length (line_buf f ++ [b])))) as [Hl|Hl];
      rewrite length_app in Hl; cbn in Hl; (split; [|done]);
      repeat split; cbn in *; rewrite ?length_app; try apply Hu; try congruence; cbn; lia.
Qed.

Lemma spec_feed_ok bytes f :
  framer_ok f ->
  framer_ok (snd (spec_feed bytes f)) /\
  bytes_seen (snd (spec_feed bytes f)) = wrap 64 (bytes_seen f + token_bytes (fst (spec_feed bytes f))).
Proof.
  revert f. induction bytes as [|b bytes IH]; intros f Hf.
  { cbn. split; [exact Hf|]. destruct Hf as (_ & Hu & _). by rewrite Z.add_0_r, wrap_small. }
  cbn [spec_feed]. pose proof (spec_byte_ok b f Hf) as [Hf1 Hs1].
  destruct (spec_byte b f) as [es f1]; cbn [fst snd] in *.
  destruct (IH f1 Hf1) as [Hf2 Hs2]. destruct (spec_feed bytes f1) as [es' f2]; cbn [fst snd] in *.
  split; [done|]. rewrite Hs2, Hs1, token_bytes_app. unfold wrap.
  by rewrite Zplus_mod_idemp_l, Z.add_assoc.
Qed.

(** Bounds and accounting: over any chunks from a well-formed framer, the line
    buffer never passes 1 MiB by more than the byte that reports the error, and
    [bytes_seen] counts exactly (modulo [2^64]) the payload bytes of the tokens emitted. *)
Theorem sse_accounting chunks f :
  framer_ok f ->
  framer_ok (snd (feeds chunks f)) /\
  bytes_seen (snd (feeds chunks f)) = wrap 64 (bytes_seen f + token_bytes (fst (feeds chunks f))).
Proof.
  intros Hf. destruct (sse_feeds_spec chunks f) as [-> Hst].
  destruct (spec_feed_ok (concat chunks) f Hf) as [Hok Hs]. rewrite <- Hst in *. done.
Qed.

Lemma sse_accounting_witness :
  bytes_seen (snd (feeds [bstr "data: hey"; [LF; LF]] SseFramer_new)) = 3.
Proof.
  change 3 with (wrap 64 (0 + token_bytes (fst (feeds [bstr "data: hey"; [LF; LF]] SseFramer_new)))).
  apply (sse_accounting [bstr "data: hey"; [LF; LF]] SseFramer_new).
  by repeat split.
Defined.

(** Cancellation is terminal and silences the stream: when the driver has tripped,
    the next [feed] returns one [Cancelled] event with the bytes emitted so far and the
    recorded cause, whatever the bytes; from a terminal phase every [feed] returns
    nothing and keeps the phase until [reset]. *)
Theorem sse_terminal {T : Type} `{Token T} (d d' : CancelState (T := T)) bytes bytes' f :
  (phase f = Reading -> cancellation f = true -> is_cancelled d = true ->
     fst (sse_feed d bytes f) = [Cancelled (bytes_seen f) (observed_cause d)] /\
     fst (sse_feed d' bytes' (snd (sse_feed d bytes f))) = []) /\
  (phase f <> Reading ->
     fst (sse_feed d bytes f) = [] /\ phase (snd (sse_feed d bytes f)) = phase f /\
     phase (sse_reset f) = Reading).
Proof.
  split.
  - intros Hp Hc Hd.
    assert (sse_feed d bytes f = ([Cancelled (bytes_seen f) (observed_cause d)],
      set_phase PhaseCancelled (clear_output f))) as ->; [|done].
    unfold sse_feed. cbn [phase cancellation clear_output]. by rewrite Hp, Hc, Hd.
  - intros Hp. unfold sse_feed. cbn [phase clear_output].
    destruct (phase f) eqn:E; [done|cbn; by rewrite E..].
Qed.

Lemma sse_terminal_witness :
  fst (sse_feed (trip HedgeLost (CancelState_new (T := bool))) (bstr "data: x") with_cancellation)
    = [Cancelled 0 HedgeLost].
Proof.
  apply (sse_terminal (trip HedgeLost (CancelState_new (T := bool)))
    (trip HedgeLost (CancelState_new (T := bool))) (bstr "data: x") [] with_cancellation);
    reflexivity.
Defined.

(** An event whose only [data:] line is empty produces no token at all, and an
    empty first line of a longer event loses its separator, so the stream
    [data:\n\ndata: x\n\n] is one token; the event-stream format dispatches an event of
    empty data for the former and keeps the newline for the latter. *)
Theorem sse_empty_data_lost :
  fst (feed (encode_event [[]]) SseFramer_new) = [] /\
  fst (feed (encode_event [[]; bstr "x"]) SseFramer_new) = [SseToken (bstr "x")] /\
  join_lines [[]; bstr "x"] <> bstr "x".
Proof. by vm_compute. Qed.
