(* ===== verification/Http1.v ===== *)
(** * Http1: [Http1Parser] of [riftgate-parser/src/http1.rs]

    The header section is parsed by [httparse], a parameter here; the body framing by
    [Content-Length] is the source's state machine over its [scratch] buffer.  The loop of
    [feed] runs on fuel: every iteration that goes on moves the phase forward, so three
    iterations reach a [break] ([http1_loop_fuel]).

    What the parser relies on of [httparse] is stated in [Incremental]: the parse of a
    complete header section does not depend on what follows it, and each proper prefix of
    it is [Partial]. *)

From Stdlib Require Import String.
From S2P Require Import Prelude Floats Core Cancel Parser.

#[local] Open Scope string_scope.
#[local] Open Scope list_scope.
#[local] Open Scope Z_scope.

(** ** [httparse] *)

Inductive HttparseError := EHeaderName | EHeaderValue | ENewLine | EToken | EStatus | EVersion | ETooManyHeaders | EOther.

(** [Complete n hs]: the section takes [n] bytes; its headers, in order, at most 64. *)
Inductive HttparseStatus :=
| HComplete (n : nat) (hs : list (list byte * list byte))
| HPartial
| HError (e : HttparseError).

(** ** State *)

Definition MAX_HEADER_BYTES : Z := 8 * 1024.

Inductive HttpPhase :=
| AwaitingHeaders
| StreamingBodyContentLength (remaining : Z)
| HttpDone
| HttpError.

Record Http1Parser := mkHttp1 { scratch : list byte; consumed : nat; http_phase : HttpPhase }.

Definition http1_new : Http1Parser := mkHttp1 [] 0 AwaitingHeaders.

Inductive HttpEmit :=
| EmitHeaders (h : Headers)
| EmitBodyRange (from to : nat)
| EmitBodyComplete
| EmitHttpError (e : ParseError).

(** ** Body framing *)

Definition byte_is (z : Z) (b : byte) : bool := byte_to_Z b =? z.
Definition byte_in (lo hi : Z) (b : byte) : bool := (lo <=? byte_to_Z b) && (byte_to_Z b <=? hi).

(** The length of the [White_Space] character at the front of UTF-8 text, 0 if there is none. *)
Definition ws_len (bs : list byte) : nat :=
  match bs with
  | b0 :: rest =>
      if byte_in 9 13 b0 || byte_is 32 b0 then 1
      else match rest with
      | b1 :: rest =>
          if byte_is 194 b0 && (byte_is 133 b1 || byte_is 160 b1) then 2
          else match rest with
          | b2 :: _ =>
              if (byte_is 225 b0 && byte_is 154 b1 && byte_is 128 b2)
                 || (byte_is 226 b0 && byte_is 128 b1 && (byte_in 128 138 b2 || byte_in 168 169 b2 || byte_is 175 b2))
                 || (byte_is 226 b0 && byte_is 129 b1 && byte_is 159 b2)
                 || (byte_is 227 b0 && byte_is 128 b1 && byte_is 128 b2)
              then 3 else 0
          | [] => 0
          end
      | [] => 0
      end
  | [] => 0
  end%nat.

(** Drop the white space in front; [fuel] bounds the characters. *)
Fixpoint trim_start (fuel : nat) (bs : list byte) : list byte :=
  match fuel with
  | O => bs
  | S fuel => match ws_len bs with O => bs | n => trim_start fuel (drop n bs) end
  end.

(** The leading decimal digits, with the checked arithmetic of [parse::<usize>], and what
    follows them. *)
Fixpoint parse_usize_digits (bs : list byte) (acc : Z) : option (Z * list byte) :=
  match bs with
  | b :: rest =>
      if byte_in 48 57 b then
        let v := acc * 10 + (byte_to_Z b - 48) in
        if v <? 2 ^ 64 then parse_usize_digits rest v else None
      else Some (acc, bs)
  | [] => Some (acc, [])
  end.

(** [from_utf8(raw).ok()?.trim().parse::<usize>().ok()]: white space, an optional [+], at
    least one digit, white space; any other text, and text that is not UTF-8, fails. *)
Definition parse_usize_text (raw : list byte) : option Z :=
  let bs := trim_start (length raw) raw in
  let bs := match bs with b :: rest => if byte_is 43 b then rest else bs | [] => bs end in
  match bs with
  | b :: _ =>
      if byte_in 48 57 b then
        '(v, rest) ← parse_usize_digits bs 0;
        match trim_start (length rest) rest with [] => Some v | _ => None end
      else None
  | [] => None
  end.

Definition ascii_bytes (s : string) : list byte := list_byte_of_string s.

Definition parse_content_length (h : Headers) : option Z :=
  raw ← Headers_get h (ascii_bytes "content-length"); parse_usize_text raw.

Definition is_chunked (h : Headers) : bool :=
  match Headers_get h (ascii_bytes "transfer-encoding") with
  | Some v => eq_ignore_ascii_case v (ascii_bytes "chunked")
  | None => false
  end.

Definition chunked_reason : string := "chunked encoding lands in v0.2; v0.1 supports Content-Length only".

(** The headers up to the first empty name. *)
Fixpoint owned_headers (hs : list (list byte * list byte)) (acc : Headers) : Headers :=
  match hs with
  | [] => acc
  | (n, v) :: hs => match n with [] => acc | _ => owned_headers hs (Headers_insert acc n v) end
  end.

Definition error_of (e : HttparseError) (p : Http1Parser) : ParseError :=
  match e with
  | EHeaderName | EHeaderValue | ENewLine => MalformedHeader (Z.of_nat (consumed p))
  | EToken => MalformedRequestLine "invalid token in request line"
  | EStatus => MalformedRequestLine "invalid status (this parser handles requests)"
  | EVersion => UnsupportedHttpVersion "unknown"
  | ETooManyHeaders => HeaderTooLarge (Z.of_nat (length (scratch p)))
  | EOther => MalformedRequestLine "unknown httparse error (forward-compat)"
  end.

(** The framing decided by the headers: what is emitted and the next phase. *)
Definition framing (headers : Headers) : list HttpEmit * HttpPhase :=
  if is_chunked headers then ([EmitHttpError (InvalidChunkedEncoding chunked_reason)], HttpError)
  else
    let cl := default 0 (parse_content_length headers) in
    if cl =? 0 then ([EmitHeaders headers; EmitBodyComplete], HttpDone)
    else ([EmitHeaders headers], StreamingBodyContentLength cl).

Section http1.
Context (httparse : list byte -> HttparseStatus).

(** One iteration of the loop; the boolean is the [break]. *)
Definition http1_step (p : Http1Parser) : list HttpEmit * Http1Parser * bool :=
  match http_phase p with
  | AwaitingHeaders =>
      if MAX_HEADER_BYTES <? Z.of_nat (length (scratch p)) then
        ([EmitHttpError (HeaderTooLarge (Z.of_nat (length (scratch p))))],
         mkHttp1 (scratch p) (consumed p) HttpError, true)
      else
        match httparse (drop (consumed p) (scratch p)) with
        | HComplete n hs =>
            let '(emit, next_phase) := framing (owned_headers hs Headers_new) in
            (emit, mkHttp1 (scratch p) (consumed p + n) next_phase, false)
        | HPartial => ([], p, true)
        | HError e =>
            ([EmitHttpError (error_of e p)], mkHttp1 (scratch p) (consumed p) HttpError, true)
        end
  | StreamingBodyContentLength remaining =>
      let avail := (length (scratch p) - consumed p)%nat in
      if (avail =? 0)%nat then ([], p, true)
      else
        let take := Z.min (Z.of_nat avail) remaining in
        let consumed' := (consumed p + Z.to_nat take)%nat in
        let new_remaining := remaining - take in
        if new_remaining =? 0 then
          ([EmitBodyRange (consumed p) consumed'; EmitBodyComplete],
           mkHttp1 (scratch p) consumed' HttpDone, false)
        else
          ([EmitBodyRange (consumed p) consumed'],
           mkHttp1 (scratch p) consumed' (StreamingBodyContentLength new_remaining), false)
  | HttpDone | HttpError => ([], p, true)
  end.

Fixpoint http1_loop (fuel : nat) (p : Http1Parser) : list HttpEmit * Http1Parser :=
  match fuel with
  | O => ([], p)
  | S fuel =>
      let '(emit, p, stop) := http1_step p in
      if stop then (emit, p) else let '(emit', p) := http1_loop fuel p in (emit ++ emit', p)
  end.

Definition convert (scratch : list byte) (i : HttpEmit) : ParseEvent :=
  match i with
  | EmitHeaders h => HeadersComplete h
  | EmitBodyRange from to => BodyChunk (take (to - from) (drop from scratch))
  | EmitBodyComplete => BodyComplete
  | EmitHttpError e => ErrorEvent e
  end.

Definition http1_feed (bytes : list byte) (p : Http1Parser) : list ParseEvent * Http1Parser :=
  match http_phase p with
  | HttpError => ([], p)
  | _ =>
      let p := mkHttp1 (scratch p ++ bytes) (consumed p) (http_phase p) in
      let '(emit, p) := http1_loop 3 p in
      (convert (scratch p) <$> emit, p)
  end.

Definition http1_reset (_ : Http1Parser) : Http1Parser := http1_new.

#[local] Instance http1_parser : StreamParser Http1Parser := { feed := http1_feed; reset := http1_reset }.
End http1.

(** * Proofs *)

(** What the parser relies on of [httparse]: a complete section is not empty, lies within
    the data, does not depend on what follows it, and its proper prefixes are [Partial]. *)
Class Incremental (httparse : list byte -> HttparseStatus) := {
  inc_range : forall d n hs, httparse d = HComplete n hs -> (0 < n <= length d)%nat;
  inc_ext : forall d n hs t, httparse d = HComplete n hs -> httparse (take n d ++ t) = HComplete n hs;
  inc_partial : forall d n hs k, httparse d = HComplete n hs -> (k < n)%nat -> httparse (take k d) = HPartial;
}.

(** The declared length is a [usize]. *)
Lemma parse_usize_digits_range bs acc v rest :
  0 <= acc < 2 ^ 64 -> parse_usize_digits bs acc = Some (v, rest) -> in_usize v.
Proof.
  revert acc. induction bs as [|b bs IH]; intros acc Hacc; cbn [parse_usize_digits]; [by intros [= <- _]|].
  unfold byte_in. zcases; cbn [andb]; try (by intros [= <- _]); try done. apply IH. lia.
Qed.

Lemma content_length_range h : in_usize (default 0 (parse_content_length h)).
Proof.
  unfold parse_content_length. destruct (Headers_get h _) as [raw|]; cbn; [|done].
  unfold parse_usize_text. set (bs := match trim_start _ _ with [] => _ | _ => _ end).
  destruct bs as [|b bs']; [done|]. destruct (byte_in 48 57 b); [|done].
  destruct (parse_usize_digits (b :: bs') 0) as [[v rest]|] eqn:E; cbn [mbind option_bind]; [|done].
  destruct (trim_start (length rest) rest); [|done]. cbn.
  by apply parse_usize_digits_range in E.
Qed.

Section proofs.
Context (httparse : list byte -> HttparseStatus).
Abbreviation feeds1 := (feeds (H := http1_parser httparse)).
Abbreviation feed1 := (http1_feed httparse).
Implicit Types s : list byte.

(** Draining the body in closed form: nothing to read, the whole rest, or all there is. *)
Definition drained s (k : nat) (r : Z) : list HttpEmit * Http1Parser :=
  let avail := (length s - k)%nat in
  if (avail =? 0)%nat then ([], mkHttp1 s k (StreamingBodyContentLength r))
  else if r <=? Z.of_nat avail then
    ([EmitBodyRange k (k + Z.to_nat r); EmitBodyComplete], mkHttp1 s (k + Z.to_nat r) HttpDone)
  else ([EmitBodyRange k (k + avail)],
        mkHttp1 s (k + avail) (StreamingBodyContentLength (r - Z.of_nat avail))).

Lemma loop_streaming fuel s k r :
  (k <= length s)%nat -> 0 < r ->
  http1_loop httparse (S (S fuel)) (mkHttp1 s k (StreamingBodyContentLength r)) = drained s k r.
Proof.
  intros Hk Hr. unfold drained. cbn [http1_loop http1_step http_phase scratch consumed].
  destruct (Nat.eqb_spec (length s - k) 0) as [|Hav]; [done|].
  destruct (Z.leb_spec r (Z.of_nat (length s - k))) as [Hle|Hgt].
  - rewrite Z.min_r by done. by rewrite Z.sub_diag.
  - rewrite Z.min_l, Nat2Z.id by lia. destruct (Z.eqb_spec (r - Z.of_nat (length s - k)) 0); [lia|].
    cbn [http1_step http_phase scratch consumed].
    by replace (length s - (k + (length s - k)))%nat with 0%nat by lia.
Qed.

Lemma loop_S fuel p :
  http1_loop httparse (S fuel) p =
  let '(emit, p, stop) := http1_step httparse p in
  if stop then (emit, p) else let '(emit', p) := http1_loop httparse fuel p in (emit ++ emit', p).
Proof. done. Qed.

(** The loop always reaches its [break] within the fuel of [http1_feed]. *)
Lemma http1_loop_fuel fuel p :
  (consumed p <= length (scratch p))%nat ->
  match http_phase p with StreamingBodyContentLength r => 0 < r | _ => True end ->
  (forall d n hs, httparse d = HComplete n hs -> (n <= length d)%nat) ->
  http1_loop httparse (3 + fuel) p = http1_loop httparse 3 p.
Proof.
  destruct p as [s k ph]. cbn [consumed scratch http_phase]. intros Hk Hr Hn.
  change (3 + fuel)%nat with (S (S (S fuel))).
  destruct ph as [|r| |]; [|by rewrite !loop_streaming|done..].
  rewrite (loop_S (S (S fuel))), (loop_S 2). cbn [http1_step http_phase scratch consumed].
  destruct (MAX_HEADER_BYTES <? _); [done|].
  destruct (httparse (drop k s)) as [n hs| |] eqn:Eh; [|done..].
  apply Hn in Eh. rewrite length_drop in Eh. unfold framing.
  destruct (is_chunked _); [done|].
  pose proof (content_length_range (owned_headers hs Headers_new)) as [Hcl _].
  destruct (Z.eqb_spec (default 0 (parse_content_length (owned_headers hs Headers_new))) 0); [done|].
  rewrite (loop_streaming fuel), (loop_streaming 0) by lia. done.
Qed.

(** ** The body, however it is cut *)

Lemma feeds_done chunks s k :
  exists p, feeds1 chunks (mkHttp1 s k HttpDone) = ([], p) /\ http_phase p = HttpDone.
Proof.
  revert s. induction chunks as [|c chunks IH]; intros s; cbn [feeds feed http1_parser]; [by eexists|].
  destruct (IH (s ++ c)) as (p & Hp & Hd). exists p. split; [|done].
  unfold http1_feed. cbn [http_phase scratch consumed http1_loop http1_step]. cbn [fmap list_fmap].
  by rewrite Hp.
Qed.

(** What a stream delivers after the headers: chunks of the body, then completion. *)
Definition delivers (events : list ParseEvent) (body : list byte) : Prop :=
  exists bodies, events = map BodyChunk bodies ++ [BodyComplete] /\ concat bodies = body.

Lemma feed_streaming c s k r :
  (k <= length s)%nat -> 0 < r ->
  feed1 c (mkHttp1 s k (StreamingBodyContentLength r)) =
  (convert (s ++ c) <$> fst (drained (s ++ c) k r), snd (drained (s ++ c) k r)).
Proof.
  intros Hk Hr. unfold http1_feed. cbn [http_phase scratch consumed].
  rewrite loop_streaming by (rewrite ?length_app; lia).
  unfold drained. destruct (_ =? 0)%nat; [done|]. by destruct (_ <=? _).
Qed.

Lemma drained_cases s k r :
  (k <= length s)%nat -> 0 < r ->
  (r <= Z.of_nat (length s - k) /\ (convert s <$> fst (drained s k r)) = [BodyChunk (take (Z.to_nat r) (drop k s)); BodyComplete] /\
   snd (drained s k r) = mkHttp1 s (k + Z.to_nat r) HttpDone) \/
  (Z.of_nat (length s - k) < r /\ (exists bs, convert s <$> fst (drained s k r) = map BodyChunk bs /\ concat bs = drop k s) /\
   snd (drained s k r) = mkHttp1 s (length s) (StreamingBodyContentLength (r - Z.of_nat (length s - k)))).
Proof.
  intros Hk Hr. unfold drained. destruct (Nat.eqb_spec (length s - k) 0) as [Ha|Ha].
  { right. rewrite Ha, Z.sub_0_r. split_and!; [lia| |]; cbn [fst snd].
    - exists []. split; [done|]. symmetry. apply drop_ge. lia.
    - by replace (length s) with k by lia. }
  destruct (Z.leb_spec r (Z.of_nat (length s - k))); cbn [fst snd fmap list_fmap convert].
  - left. split_and!; [done| |done]. by replace (k + Z.to_nat r - k)%nat with (Z.to_nat r) by lia.
  - right. split_and!; [done| |by replace (k + (length s - k))%nat with (length s) by lia].
    exists [drop k s]. split; [|apply app_nil_r]. cbn. f_equal. f_equal.
    apply take_ge. rewrite length_drop. lia.
Qed.

Lemma delivers_cons bs events body :
  delivers events body -> delivers (map BodyChunk bs ++ events) (concat bs ++ body).
Proof.
  intros (bodies & -> & <-). exists (bs ++ bodies). rewrite map_app, concat_app, <- app_assoc. done.
Qed.

Lemma drain_done chunks s k r :
  r <= Z.of_nat (length s - k) ->
  let '(es, p) := feeds1 chunks (mkHttp1 s (k + Z.to_nat r) HttpDone) in
  delivers ([BodyChunk (take (Z.to_nat r) (drop k s)); BodyComplete] ++ es)
    (take (Z.to_nat r) (drop k s ++ concat chunks)) /\ http_phase p = HttpDone.
Proof.
  intros Hle. destruct (feeds_done chunks s (k + Z.to_nat r)) as (p & -> & Hd). split; [|done].
  rewrite app_nil_r, take_app_le by (rewrite length_drop; lia).
  exists [take (Z.to_nat r) (drop k s)]. split; [done|apply app_nil_r].
Qed.

Lemma drain_feeds chunks s k r :
  (k <= length s)%nat -> 0 < r <= Z.of_nat (length (drop k s ++ concat chunks)) ->
  let '(es, p) := feeds1 chunks (snd (drained s k r)) in
  delivers ((convert s <$> fst (drained s k r)) ++ es) (take (Z.to_nat r) (drop k s ++ concat chunks)) /\
  http_phase p = HttpDone.
Proof.
  revert s k r. induction chunks as [|c chunks IH]; intros s k r Hk [Hr Hlen];
    rewrite length_app, length_drop in Hlen;
    destruct (drained_cases s k r Hk Hr) as [(Hle & -> & ->)|(Hgt & (bs & -> & Hbs) & ->)].
  1,3: by apply drain_done.
  { cbn in Hlen. lia. }
  cbn [concat] in Hlen |- *. rewrite length_app in Hlen. cbn [feeds feed http1_parser].
  rewrite feed_streaming by lia. set (r' := r - Z.of_nat (length s - k)).
  specialize (IH (s ++ c) (length s) r'). rewrite drop_app_length in IH.
  destruct (feeds1 chunks _) as [es p]. rewrite <- Hbs.
  destruct IH as [Hd Hp]; [rewrite length_app; lia|rewrite length_app; lia|]. split; [|done].
  rewrite take_app_ge by (rewrite Hbs, length_drop; lia). apply delivers_cons.
  replace (Z.to_nat r - length (concat bs))%nat with (Z.to_nat r') by (rewrite Hbs, length_drop; lia).
  done.
Qed.

(** ** A whole request *)

(** The read that completes a header section of [n] bytes finds at most the limit in
    [scratch]; [acc] bytes came before. *)
Fixpoint header_fits (n acc : nat) (chunks : list (list byte)) : Prop :=
  match chunks with
  | [] => False
  | c :: chunks =>
      let acc := (acc + length c)%nat in
      if (n <=? acc)%nat then Z.of_nat acc <= MAX_HEADER_BYTES else header_fits n acc chunks
  end.

Context `{!Incremental httparse}.
Context (stream : list byte) (n : nat) (hs : list (list byte * list byte)).
Context (Hstream : httparse stream = HComplete n hs).
Abbreviation headers := (owned_headers hs Headers_new).
Abbreviation body_len := (default 0 (parse_content_length headers)).
Context (Hplain : is_chunked headers = false).

Lemma header_fits_limit acc chunks : header_fits n acc chunks -> Z.of_nat n <= MAX_HEADER_BYTES.
Proof.
  revert acc. induction chunks as [|c chunks IH]; intros acc; cbn [header_fits]; [done|].
  destruct (Nat.leb_spec n (acc + length c)); [lia|apply IH].
Qed.

(** The read that completes the headers. *)
Lemma feed_headers c s t :
  stream = s ++ c ++ t -> (n <= length (s ++ c))%nat -> Z.of_nat (length (s ++ c)) <= MAX_HEADER_BYTES ->
  feed1 c (mkHttp1 s 0 AwaitingHeaders) =
  if body_len =? 0 then ([HeadersComplete headers; BodyComplete], mkHttp1 (s ++ c) n HttpDone)
  else (HeadersComplete headers :: (convert (s ++ c) <$> fst (drained (s ++ c) n body_len)),
        snd (drained (s ++ c) n body_len)).
Proof.
  intros Hs Hn Hmax. unfold http1_feed.
  cbn [http_phase scratch consumed]. rewrite loop_S. cbn [http1_step http_phase scratch consumed].
  rewrite (proj2 (Z.ltb_ge _ _)) by done.
  rewrite drop_0. assert (Hp : httparse (s ++ c) = HComplete n hs).
  { rewrite <- (take_drop n (s ++ c)). rewrite <- (take_app_le (s ++ c) t n), <- app_assoc, <- Hs by done.
    by apply inc_ext. }
  rewrite Hp. unfold framing. rewrite Hplain. cbn [Nat.add].
  pose proof (content_length_range headers) as [Hcl _].
  destruct (Z.eqb_spec body_len 0); [done|].
  rewrite loop_streaming by lia.
  unfold drained. destruct (_ =? 0)%nat; [done|]. by destruct (_ <=? _).
Qed.

(** A read before the headers are complete only extends [scratch]. *)
Lemma feed_partial c s t :
  stream = s ++ c ++ t -> (length (s ++ c) < n)%nat -> Z.of_nat n <= MAX_HEADER_BYTES ->
  feed1 c (mkHttp1 s 0 AwaitingHeaders) = ([], mkHttp1 (s ++ c) 0 AwaitingHeaders).
Proof.
  intros Hs Hn Hmax. unfold http1_feed.
  cbn [http_phase scratch consumed]. rewrite loop_S. cbn [http1_step http_phase scratch consumed].
  rewrite (proj2 (Z.ltb_ge _ _)), drop_0 by lia.
  assert (Hp : httparse (s ++ c) = HPartial).
  { rewrite <- (take_app_length (s ++ c) t), <- app_assoc, <- Hs. by apply (inc_partial stream n hs). }
  by rewrite Hp.
Qed.

Lemma awaiting_feeds chunks s :
  stream = s ++ concat chunks -> (length s < n)%nat -> header_fits n (length s) chunks ->
  Z.of_nat n + body_len <= Z.of_nat (length stream) ->
  exists events p, feeds1 chunks (mkHttp1 s 0 AwaitingHeaders) = (HeadersComplete headers :: events, p) /\
    delivers events (take (Z.to_nat body_len) (drop n stream)) /\ http_phase p = HttpDone.
Proof.
  revert s. induction chunks as [|c chunks IH]; intros s Hs Hn Hfit Hlen; [done|].
  cbn [concat] in Hs. pose proof (header_fits_limit _ _ Hfit) as Hmax.
  cbn [header_fits] in Hfit. rewrite <- length_app in Hfit. cbn [feeds feed http1_parser].
  destruct (Nat.leb_spec n (length (s ++ c))) as [Hle|Hlt].
  2: { rewrite (feed_partial c s (concat chunks)) by done.
       destruct (IH (s ++ c)) as (events & p & -> & Hd & Hp); [by rewrite <- app_assoc|done|done|done|].
       by exists events, p. }
  rewrite (feed_headers c s (concat chunks)) by done.
  pose proof (content_length_range headers) as [Hcl _].
  assert (Hdrop : drop n stream = drop n (s ++ c) ++ concat chunks)
    by (rewrite Hs, (app_assoc s c), drop_app_le by done; done).
  destruct (Z.eqb_spec body_len 0) as [E0|E0].
  - destruct (feeds_done chunks (s ++ c) n) as (p & -> & Hp). eexists _, p. split_and!; [done| |done].
    rewrite E0. by exists [].
  - pose proof (drain_feeds chunks (s ++ c) n body_len Hle) as Hd. rewrite <- Hdrop in Hd.
    destruct (feeds1 chunks _) as [es p]. eexists _, p. split; [done|].
    apply Hd. rewrite length_drop. lia.
Qed.
End proofs.

(** [C28] A request is parsed the same for all cuts into reads in which the header section, with
    whatever else arrives in the read that completes it, stays within the header limit
    ([header_fits]): if the header section of the stream takes [n] bytes and declares no
    chunked body, then the events are the headers, chunks that concatenate to exactly the
    declared number of body bytes, and completion, and the parser is done; bytes after the
    body produce nothing.  Other cuts may be refused: [header_limit_counts_body]. *)
Theorem http1_chunking_invariance httparse `{!Incremental httparse} chunks n hs :
  let h := owned_headers hs Headers_new in
  let len := default 0 (parse_content_length h) in
  httparse (concat chunks) = HComplete n hs -> is_chunked h = false ->
  header_fits n 0 chunks -> Z.of_nat n + len <= Z.of_nat (length (concat chunks)) ->
  exists events p,
    feeds (H := http1_parser httparse) chunks http1_new = (HeadersComplete h :: events, p) /\
    delivers events (take (Z.to_nat len) (drop n (concat chunks))) /\ http_phase p = HttpDone.
Proof.
  intros h len Hs Hplain Hfit Hlen. pose proof (inc_range _ _ _ Hs) as [Hn _].
  by apply (awaiting_feeds httparse (concat chunks) n hs Hs Hplain chunks []).
Qed.

(** ** Concrete runs *)

(** A header section of three bytes that declares a body of [len] bytes. *)
Definition toy_httparse (len : string) (d : list byte) : HttparseStatus :=
  if (3 <=? length d)%nat then HComplete 3 [(ascii_bytes "Content-Length", ascii_bytes len)] else HPartial.

#[global] Instance toy_incremental len : Incremental (toy_httparse len).
Proof.
  unfold toy_httparse. split; intros d n hs; [|intros t|intros k].
  all: destruct (Nat.leb_spec 3 (length d)) as [Hd|]; [|done]; intros [= <- <-].
  - lia.
  - by rewrite length_app, length_take, (proj2 (Nat.leb_le _ _)) by lia.
  - intros Hk. by rewrite length_take, (proj2 (Nat.leb_gt _ _)) by lia.
Qed.

Definition three_reads : list (list byte) := [ascii_bytes "GE"; ascii_bytes "T{"; ascii_bytes "}!"].

Lemma http1_chunking_invariance_witness :
  exists events p,
    feeds (H := http1_parser (toy_httparse " 2 ")) three_reads http1_new
    = (HeadersComplete (mkHeaders [(ascii_bytes "Content-Length", ascii_bytes " 2 ")]) :: events, p) /\
    delivers events (ascii_bytes "{}") /\ http_phase p = HttpDone.
Proof.
  refine (http1_chunking_invariance (toy_httparse " 2 ") three_reads 3
    [(ascii_bytes "Content-Length", ascii_bytes " 2 ")] _ _ _ _); by vm_compute.
Defined.

(** The header limit counts whatever is in the buffer when the headers complete, body
    bytes included: a request with a three-byte header section and a body of 9000 bytes is
    refused as too large when it arrives in one read, and accepted when the headers arrive
    in a read of their own. *)
Theorem header_limit_counts_body :
  let body := replicate (Z.to_nat 9000) (byte_of_Z 120) in
  let parser := http1_parser (toy_httparse "9000") in
  fst (feeds (H := parser) [ascii_bytes "GET" ++ body] http1_new) = [ErrorEvent (HeaderTooLarge 9003)] /\
  fst (feeds (H := parser) [ascii_bytes "GET"; body] http1_new)
  = [HeadersComplete (mkHeaders [(ascii_bytes "Content-Length", ascii_bytes "9000")]); BodyChunk body; BodyComplete].
Proof. by vm_compute. Qed.

(** A [Content-Length] that is not a number, or does not fit, declares no body. *)
Example bad_lengths :
  (fun t => parse_usize_text (ascii_bytes t)) <$> ["12"; " +7 "; "1 2"; "-1"; "0x10"; "18446744073709551616"; ""]
  = [Some 12; Some 7; None; None; None; None; None].
Proof. by vm_compute. Qed.
