(* ===== verification/Frame.v ===== *)
(** * Frame: the log's frame format ([riftgate-replay/src/frame.rs])

    [encode_frame] is the header that [FileWal::append] writes followed by the payload;
    [try_parse_frames] is the reader.  The reader's loop runs on fuel, one unit per
    frame; every iteration that goes on consumes 22 bytes, so the length of the data is
    enough ([parse_loop_sound]). *)

From S2P Require Import Prelude.

Record ParsedFrame := mkFrame {
  entry_id : Z;
  timestamp_nanos : Z;
  durability_tag : Z;
  entry_kind : Z;
  payload : list byte;
}.

Inductive ParseFrameError :=
| PayloadTruncated (declared got : Z)
| Io
| PayloadOverflow (len : Z).

Definition ENTRY_HEADER_BYTES : nat := 4 + 1 + 1 + 8 + 8.
Definition MAX_PAYLOAD_BYTES : Z := 16 * 1024 * 1024.

(** ** Writer: the header of [append] and its payload *)

Definition encode_header (fr : ParsedFrame) : list byte :=
  to_le_bytes 4 (Z.of_nat (length (payload fr)))
    ++ [byte_of_Z (durability_tag fr)] ++ [byte_of_Z (entry_kind fr)]
    ++ to_le_bytes 8 (timestamp_nanos fr) ++ to_le_bytes 8 (entry_id fr).

Definition encode_frame (fr : ParsedFrame) : list byte := encode_header fr ++ payload fr.

(** ** Reader *)

(** [read_exact_or_eof] on a cursor: a read returns as many bytes as are left. *)
Inductive read_outcome :=
| CleanEof
| Partial
| Full (header rest : list byte).

Definition read_exact_or_eof (n : nat) (data : list byte) : read_outcome :=
  match data with
  | [] => CleanEof
  | _ => if decide (length data < n)%nat then Partial else Full (take n data) (drop n data)
  end.

(** [Cursor::read_exact]: [None] is [UnexpectedEof]. *)
Definition read_exact (n : nat) (data : list byte) : option (list byte * list byte) :=
  if decide (length data < n)%nat then None else Some (take n data, drop n data).

Definition bytes_at (a b : nat) (header : list byte) : list byte := take (b - a) (drop a header).

Fixpoint parse_loop (fuel : nat) (data : list byte) : list (result ParsedFrame ParseFrameError) :=
  match fuel with
  | O => []
  | S fuel =>
      match read_exact_or_eof ENTRY_HEADER_BYTES data with
      | CleanEof | Partial => []
      | Full header rest =>
          let payload_len := from_le_bytes (bytes_at 0 4 header) in
          if MAX_PAYLOAD_BYTES <? payload_len then [Err (PayloadOverflow payload_len)]
          else match read_exact (Z.to_nat payload_len) rest with
               | None => []
               | Some (body, rest) =>
                   Ok (mkFrame (from_le_bytes (bytes_at 14 22 header))
                         (from_le_bytes (bytes_at 6 14 header))
                         (from_le_bytes (bytes_at 4 5 header))
                         (from_le_bytes (bytes_at 5 6 header)) body)
                     :: parse_loop fuel rest
               end
      end
  end.

Definition try_parse_frames (data : list byte) : list (result ParsedFrame ParseFrameError) :=
  parse_loop (S (length data)) data.

(** ** Well-formed frames: fields at their widths, payload the reader accepts *)

Definition frame_ok (fr : ParsedFrame) : Prop :=
  in_u64 (entry_id fr) /\ in_u64 (timestamp_nanos fr) /\ in_u8 (durability_tag fr) /\
  in_u8 (entry_kind fr) /\ Z.of_nat (length (payload fr)) <= MAX_PAYLOAD_BYTES.

(** The same without the reader's limit: the length need only fit its four bytes. *)
Definition frame_wide (fr : ParsedFrame) : Prop :=
  in_u64 (entry_id fr) /\ in_u64 (timestamp_nanos fr) /\ in_u8 (durability_tag fr) /\
  in_u8 (entry_kind fr) /\ in_u32 (Z.of_nat (length (payload fr))).

Lemma frame_ok_wide fr : frame_ok fr -> frame_wide fr.
Proof.
  intros (? & ? & ? & ? & Hlen). split_and!; try done. unfold in_uint, MAX_PAYLOAD_BYTES in *. lia.
Qed.

Abbreviation encode_frames frs := (concat (encode_frame <$> frs)).

Lemma length_encode_header fr : length (encode_header fr) = ENTRY_HEADER_BYTES.
Proof. unfold encode_header. rewrite !length_app, !length_to_le_bytes. done. Qed.

Lemma length_encode_frame fr :
  length (encode_frame fr) = (ENTRY_HEADER_BYTES + length (payload fr))%nat.
Proof. unfold encode_frame. by rewrite length_app, length_encode_header. Qed.

Lemma byte_of_Z_roundtrip z : in_u8 z -> byte_to_Z (byte_of_Z z) = z.
Proof. intros. by rewrite byte_to_of_Z, wrap_small. Qed.

(** The fields of an encoded header, read back at the reader's offsets. *)
Lemma header_fields fr :
  frame_wide fr ->
  from_le_bytes (bytes_at 0 4 (encode_header fr)) = Z.of_nat (length (payload fr)) /\
  from_le_bytes (bytes_at 4 5 (encode_header fr)) = durability_tag fr /\
  from_le_bytes (bytes_at 5 6 (encode_header fr)) = entry_kind fr /\
  from_le_bytes (bytes_at 6 14 (encode_header fr)) = timestamp_nanos fr /\
  from_le_bytes (bytes_at 14 22 (encode_header fr)) = entry_id fr.
Proof.
  intros (Hid & Hts & Hd & Hk & Hlen). unfold bytes_at, encode_header.
  set (l4 := to_le_bytes 4 _). set (t8 := to_le_bytes 8 (timestamp_nanos fr)).
  set (i8 := to_le_bytes 8 (entry_id fr)).
  assert (H4 : length l4 = 4%nat /\ from_le_bytes l4 = Z.of_nat (length (payload fr))).
  { split; [apply length_to_le_bytes|]. by apply from_to_le_bytes. }
  assert (Ht : length t8 = 8%nat /\ from_le_bytes t8 = timestamp_nanos fr)
    by (split; [apply length_to_le_bytes|by apply from_to_le_bytes]).
  assert (Hi : length i8 = 8%nat /\ from_le_bytes i8 = entry_id fr)
    by (split; [apply length_to_le_bytes|by apply from_to_le_bytes]).
  clearbody l4 t8 i8. destruct H4 as [H4 H4'], Ht as [Ht Ht'], Hi as [Hi Hi'].
  split_and!; [by rewrite drop_0, take_app_le, take_ge by lia|..];
    rewrite drop_app_ge, H4 by lia.
  - change (from_le_bytes [byte_of_Z (durability_tag fr)] = durability_tag fr).
    cbn [from_le_bytes]. rewrite byte_of_Z_roundtrip by done. lia.
  - change (from_le_bytes [byte_of_Z (entry_kind fr)] = entry_kind fr).
    cbn [from_le_bytes]. rewrite byte_of_Z_roundtrip by done. lia.
  - change (from_le_bytes (take 8 (t8 ++ i8)) = timestamp_nanos fr).
    by rewrite take_app_le, take_ge by lia.
  - change (from_le_bytes (take 8 (drop 8 (t8 ++ i8))) = entry_id fr).
    by rewrite drop_app_ge, Ht, drop_0, take_ge by (rewrite ?length_drop; lia).
Qed.

Lemma read_header fr rest :
  read_exact_or_eof ENTRY_HEADER_BYTES (encode_header fr ++ rest) = Full (encode_header fr) rest.
Proof.
  unfold read_exact_or_eof. pose proof (length_encode_header fr) as Hl.
  destruct (encode_header fr ++ rest) as [|b l] eqn:E.
  { apply (f_equal length) in E. rewrite length_app, Hl in E. done. }
  rewrite <- E. rewrite decide_False by (rewrite length_app; lia).
  by rewrite <- Hl, take_app_length, drop_app_length.
Qed.

(** The format is prefix-free: two frames that start the same bytes are the same frame. *)
Lemma encode_frame_inj fr1 fr2 rest1 rest2 :
  frame_wide fr1 -> frame_wide fr2 -> encode_frame fr1 ++ rest1 = encode_frame fr2 ++ rest2 ->
  fr1 = fr2 /\ rest1 = rest2.
Proof.
  intros H1 H2. unfold encode_frame. rewrite <- !app_assoc. intros Heq.
  apply app_inj_1 in Heq as [Hh Heq]; [|by rewrite !length_encode_header].
  destruct (header_fields fr1 H1) as (Hl1 & Hd1 & Hk1 & Ht1 & Hi1).
  destruct (header_fields fr2 H2) as (Hl2 & Hd2 & Hk2 & Ht2 & Hi2). rewrite Hh in *.
  apply app_inj_1 in Heq as [Hp ->]; [|lia]. split; [|done].
  destruct fr1, fr2; cbn in *; congruence.
Qed.

Lemma parse_loop_cons fuel fr rest :
  frame_ok fr -> parse_loop (S fuel) (encode_frame fr ++ rest) = Ok fr :: parse_loop fuel rest.
Proof.
  intros Hok. pose proof (header_fields fr (frame_ok_wide fr Hok)) as (Hl & Hd & Hk & Ht & Hi).
  destruct Hok as (_ & _ & _ & _ & Hlen).
  cbn [parse_loop]. unfold encode_frame. rewrite <- app_assoc, read_header.
  cbv zeta. rewrite Hl, Hd, Hk, Ht, Hi.
  destruct (Z.ltb_spec MAX_PAYLOAD_BYTES (Z.of_nat (length (payload fr)))); [lia|].
  unfold read_exact. rewrite Nat2Z.id, decide_False by (rewrite length_app; lia).
  rewrite take_app_length, drop_app_length. by destruct fr.
Qed.

(** A torn frame, cut anywhere, parses to nothing. *)
Lemma parse_torn fuel fr k :
  frame_ok fr -> (k < length (encode_frame fr))%nat -> parse_loop fuel (take k (encode_frame fr)) = [].
Proof.
  intros Hok Hk. destruct fuel as [|fuel]; [done|]. cbn [parse_loop].
  pose proof (header_fields fr (frame_ok_wide fr Hok)) as (Hl & _). pose proof (length_encode_header fr) as Hhl.
  rewrite length_encode_frame in Hk. unfold encode_frame.
  destruct (decide (k < ENTRY_HEADER_BYTES)%nat) as [Hlt|Hge].
  - unfold read_exact_or_eof. destruct (take k _) as [|b l] eqn:E; [done|]. rewrite <- E.
    rewrite decide_True; [done|]. rewrite length_take. lia.
  - rewrite take_app_ge, read_header by lia. cbv zeta. rewrite Hl.
    destruct (_ <? _) eqn:E; [destruct Hok as (_ & _ & _ & _ & Hlen); lia|].
    unfold read_exact. rewrite decide_True; [done|]. rewrite Nat2Z.id, length_take. lia.
Qed.

(** Complete frames, then a tail that parses to nothing. *)
Lemma parse_frames_app frs fuel tail :
  Forall frame_ok frs -> (length frs <= fuel)%nat -> (forall n, parse_loop n tail = []) ->
  parse_loop fuel (encode_frames frs ++ tail) = Ok <$> frs.
Proof.
  intros Hok. revert fuel. induction Hok as [|fr frs Hfr Hfrs IH]; intros fuel Hf Ht; [by apply Ht|].
  destruct fuel as [|fuel]; cbn [length] in Hf; [lia|].
  cbn [fmap list_fmap concat]. rewrite <- app_assoc, parse_loop_cons by done.
  f_equal. apply IH; [lia|done].
Qed.

Lemma length_encode_frames frs : (length frs <= length (encode_frames frs))%nat.
Proof.
  induction frs as [|fr frs IH]; [done|]. cbn [fmap list_fmap concat length].
  rewrite length_app, length_encode_frame. unfold ENTRY_HEADER_BYTES. lia.
Qed.

(** Any prefix of a log is complete frames and one torn frame. *)
Lemma prefix_of_log frs k :
  exists n tail, (n <= length frs)%nat /\
    take k (encode_frames frs) = encode_frames (take n frs) ++ tail /\
    (tail = [] \/ exists fr, frs !! n = Some fr /\
       exists j, (j < length (encode_frame fr))%nat /\ tail = take j (encode_frame fr)) /\
    (forall m, (m <= length frs)%nat -> (length (encode_frames (take m frs)) <= k)%nat -> (m <= n)%nat).
Proof.
  revert k. induction frs as [|fr frs IH]; intros k.
  { exists 0%nat, []. split_and!; [done|by destruct k|by left|]. cbn. lia. }
  cbn [fmap list_fmap concat].
  destruct (decide (k < length (encode_frame fr))%nat) as [Hk|Hk].
  - exists 0%nat, (take k (encode_frame fr)). split_and!; [lia|by rewrite take_app_le by lia| |].
    + right. exists fr. split; [done|]. by exists k.
    + intros [|m] _ Hm; [done|]. cbn [take fmap list_fmap concat] in Hm. rewrite length_app in Hm. lia.
  - destruct (IH (k - length (encode_frame fr))%nat) as (n & tail & Hn & Heq & Htail & Hmax).
    exists (S n), tail. split_and!; [cbn; lia| |done|].
    + cbn [take fmap list_fmap concat]. rewrite take_app_ge, Heq by lia. by rewrite app_assoc.
    + intros [|m] Hm Hlen; [lia|]. cbn [take fmap list_fmap concat length] in *.
      rewrite length_app in Hlen. apply le_n_S, Hmax; lia.
Qed.

Lemma torn_tail_silent (frs : list ParsedFrame) n tail :
  Forall frame_ok frs ->
  (tail = [] \/ exists fr, frs !! n = Some fr /\
     exists j, (j < length (encode_frame fr))%nat /\ tail = take j (encode_frame fr)) ->
  forall fuel, parse_loop fuel tail = [].
Proof.
  intros Hok [->|(fr & Hfr & j & Hj & ->)] fuel; [by destruct fuel|].
  apply parse_torn; [|done]. by eapply Forall_lookup_1.
Qed.

(** What the reader makes of a log cut at any byte: its complete frames. *)
Lemma parse_prefix frs k :
  Forall frame_ok frs ->
  exists n, try_parse_frames (take k (encode_frames frs)) = Ok <$> take n frs /\
    forall m, (m <= length frs)%nat ->
      ((m <= n)%nat <-> (length (encode_frames (take m frs)) <= k)%nat).
Proof.
  intros Hok. destruct (prefix_of_log frs k) as (n & tail & Hn & Heq & Htail & Hmax).
  exists n. split.
  - unfold try_parse_frames. rewrite Heq.
    apply parse_frames_app; [by apply Forall_take| |by eapply torn_tail_silent].
    pose proof (length_encode_frames (take n frs)). rewrite length_app. lia.
  - intros m Hm. split; [|by apply Hmax]. intros Hmn.
    assert (Hle : (length (encode_frames (take n frs)) <= k)%nat).
    { apply (f_equal length) in Heq. rewrite length_app, length_take in Heq. lia. }
    rewrite <- (take_drop m (take n frs)), take_take, (Nat.min_l m n), fmap_app, concat_app,
      length_app in Hle by done. lia.
Qed.

(** [C7] Crash recovery: cut a log of well-formed frames at any byte [k]; the reader
    returns, without an error, exactly the frames that end at or before [k], in order and
    field for field.  The whole log ([k] past its end) is the round trip. *)
Theorem crash_recovery_prefix frs k :
  Forall frame_ok frs ->
  exists n, try_parse_frames (take k (encode_frames frs)) = Ok <$> take n frs /\
    forall m, (m <= length frs)%nat ->
      ((m <= n)%nat <-> (length (encode_frames (take m frs)) <= k)%nat).
Proof. apply parse_prefix. Qed.

Definition demo_frame (id : Z) : ParsedFrame := mkFrame id 1000 1 0 (bstr "hello").

Lemma crash_recovery_prefix_witness :
  exists n, try_parse_frames (take 40 (encode_frames [demo_frame 1; demo_frame 2]))
      = Ok <$> take n [demo_frame 1; demo_frame 2] /\
    forall m, (m <= 2)%nat ->
      ((m <= n)%nat <-> (length (encode_frames (take m [demo_frame 1; demo_frame 2])) <= 40)%nat).
Proof.
  apply (crash_recovery_prefix [demo_frame 1; demo_frame 2] 40).
  repeat apply Forall_cons_2; try apply Forall_nil_2; by repeat split.
Defined.

(** ** Arbitrary bytes *)

Lemma bytes_at_length a b l : (b <= length l)%nat -> length (bytes_at a b l) = (b - a)%nat.
Proof. intros. unfold bytes_at. rewrite length_take, length_drop. lia. Qed.

Lemma bytes_at_app a b c l :
  (a <= b)%nat -> (b <= c)%nat -> bytes_at a b l ++ bytes_at b c l = bytes_at a c l.
Proof.
  intros Hab Hbc. unfold bytes_at. replace (drop b l) with (drop (b - a) (drop a l))
    by (rewrite drop_drop; f_equal; lia).
  rewrite <- (take_drop (b - a) (take (c - a) (drop a l))), take_take, Nat.min_l by lia.
  f_equal. rewrite take_drop_commute. do 2 f_equal. lia.
Qed.

Lemma to_le_bytes_at n a b l :
  (b <= length l)%nat -> n = (b - a)%nat -> to_le_bytes n (from_le_bytes (bytes_at a b l)) = bytes_at a b l.
Proof. intros Hb ->. rewrite <- (bytes_at_length a b l) at 1 by done. apply to_from_le_bytes. Qed.

Lemma one_byte_at a l :
  (a < length l)%nat -> [byte_of_Z (from_le_bytes (bytes_at a (S a) l))] = bytes_at a (S a) l.
Proof.
  intros. transitivity (to_le_bytes 1 (from_le_bytes (bytes_at a (S a) l))); [done|].
  apply to_le_bytes_at; lia.
Qed.

(** A header is its five fields written again. *)
Lemma header_rebuild fr header :
  length header = ENTRY_HEADER_BYTES ->
  Z.of_nat (length (payload fr)) = from_le_bytes (bytes_at 0 4 header) ->
  durability_tag fr = from_le_bytes (bytes_at 4 5 header) ->
  entry_kind fr = from_le_bytes (bytes_at 5 6 header) ->
  timestamp_nanos fr = from_le_bytes (bytes_at 6 14 header) ->
  entry_id fr = from_le_bytes (bytes_at 14 22 header) ->
  encode_header fr = header.
Proof.
  intros Hlen Hl Hd Hk Ht Hi. unfold ENTRY_HEADER_BYTES in Hlen. cbn in Hlen.
  unfold encode_header. rewrite Hl, Hd, Hk, Ht, Hi.
  rewrite !one_byte_at, !to_le_bytes_at by lia.
  rewrite !(app_assoc (bytes_at _ _ _)), !bytes_at_app by lia.
  unfold bytes_at. rewrite drop_0. by rewrite take_ge by lia.
Qed.

Lemma read_exact_or_eof_full n data h rest :
  read_exact_or_eof n data = Full h rest -> data = h ++ rest /\ length h = n.
Proof.
  unfold read_exact_or_eof. destruct data as [|b l]; [done|]. case_decide; [done|].
  intros [= <- <-]. rewrite take_drop, length_take. split; [done|]. lia.
Qed.

Lemma read_exact_some n data h rest :
  read_exact n data = Some (h, rest) -> data = h ++ rest /\ length h = n.
Proof.
  unfold read_exact. case_decide; [done|]. intros [= <- <-]. rewrite take_drop, length_take.
  split; [done|]. lia.
Qed.

Lemma frame_of_header header body :
  length header = ENTRY_HEADER_BYTES ->
  length body = Z.to_nat (from_le_bytes (bytes_at 0 4 header)) ->
  let fr := mkFrame (from_le_bytes (bytes_at 14 22 header)) (from_le_bytes (bytes_at 6 14 header))
              (from_le_bytes (bytes_at 4 5 header)) (from_le_bytes (bytes_at 5 6 header)) body in
  frame_wide fr /\ encode_frame fr = header ++ body /\ Z.of_nat (length body) = from_le_bytes (bytes_at 0 4 header).
Proof.
  intros Hh Hb fr.
  assert (Hr : forall a b, (b <= 22)%nat ->
    in_uint (8 * Z.of_nat (b - a)) (from_le_bytes (bytes_at a b header))).
  { intros a b Hab. rewrite <- (bytes_at_length a b header) by (rewrite Hh; exact Hab).
    apply from_le_bytes_range. }
  pose proof (Hr 0 4 ltac:(lia))%nat as H0.
  assert (Hlen : Z.of_nat (length body) = from_le_bytes (bytes_at 0 4 header))
    by (unfold in_uint in H0; lia).
  split; [|split; [|done]].
  - split_and!; [apply (Hr 14 22)%nat|apply (Hr 6 14)%nat|apply (Hr 4 5)%nat|apply (Hr 5 6)%nat|];
      cbn [fr payload]; [lia..|]. by rewrite Hlen.
  - unfold encode_frame. by rewrite (header_rebuild fr header).
Qed.

(** Whatever the fuel, once it covers the data the loop's result does not depend on it. *)
Lemma parse_loop_sound fuel data :
  (length data < fuel)%nat ->
  exists frs rest tail, parse_loop fuel data = (Ok <$> frs) ++ tail /\
    data = encode_frames frs ++ rest /\ Forall frame_ok frs /\
    (tail = [] \/ exists len, tail = [Err (PayloadOverflow len)] /\ MAX_PAYLOAD_BYTES < len) /\
    (forall fuel', (length data < fuel')%nat -> parse_loop fuel' data = parse_loop fuel data).
Proof.
  revert data. induction fuel as [|fuel IH]; intros data Hf; [lia|].
  cbn [parse_loop]. destruct (read_exact_or_eof ENTRY_HEADER_BYTES data) as [| |h rest] eqn:E.
  1,2: exists [], data, []; split_and!; [done|done|done|by left|];
    intros [|f'] ?; [lia|]; cbn [parse_loop]; by rewrite E.
  destruct (Z.ltb_spec MAX_PAYLOAD_BYTES (from_le_bytes (bytes_at 0 4 h))) as [Hov|Hfit].
  { exists [], data, [Err (PayloadOverflow (from_le_bytes (bytes_at 0 4 h)))].
    split_and!; [done|done|done|right; eexists; done|].
    intros [|f'] ?; [lia|]. cbn [parse_loop]. rewrite E. cbv zeta.
    by rewrite (proj2 (Z.ltb_lt _ _) Hov). }
  destruct (read_exact _ rest) as [[body rest']|] eqn:E2.
  2: { exists [], data, []. split_and!; [done|done|done|by left|].
    intros [|f'] ?; [lia|]. cbn [parse_loop]. rewrite E. cbv zeta.
    by rewrite (proj2 (Z.ltb_ge _ _) Hfit), E2. }
  pose proof (read_exact_or_eof_full _ _ _ _ E) as [Hd Hh].
  pose proof (read_exact_some _ _ _ _ E2) as [Hrest Hb].
  destruct (frame_of_header h body Hh Hb) as ((? & ? & ? & ? & _) & Henc & Hlen). cbv zeta in *.
  set (fr := mkFrame _ _ _ _ body) in *.
  assert (Hok : frame_ok fr) by (split_and!; try done; cbn [fr payload]; lia).
  assert (Hlt : (length rest' < fuel)%nat).
  { subst. rewrite !length_app in Hf. rewrite Hh in Hf. unfold ENTRY_HEADER_BYTES in Hf. lia. }
  destruct (IH rest' Hlt) as (frs & r & tail & Hp & Hrest' & Hoks & Htail & Hfuel).
  exists (fr :: frs), r, tail. rewrite Hp. split_and!; [done| |by constructor|done|].
  - cbn [fmap list_fmap concat]. rewrite Henc, <- !app_assoc. congruence.
  - intros [|f'] Hf'; [lia|]. cbn [parse_loop]. rewrite E. cbv zeta. rewrite E2.
    destruct (Z.ltb_spec MAX_PAYLOAD_BYTES (from_le_bytes (bytes_at 0 4 h))); [lia|].
    fold fr. rewrite Hfuel, Hp; [done|].
    rewrite Hd, Hrest, !length_app, Hh in Hf'. unfold ENTRY_HEADER_BYTES in Hf'. lia.
Qed.

(** On arbitrary bytes the reader terminates and only reports what is there: the
    frames it returns, encoded again, are a prefix of the data, every field fits its
    width, and the only error it can report is one oversized length, at the end; more
    fuel changes nothing. *)
Theorem parse_arbitrary_sound data :
  exists frs rest tail, try_parse_frames data = (Ok <$> frs) ++ tail /\
    data = encode_frames frs ++ rest /\ Forall frame_ok frs /\
    (tail = [] \/ exists len, tail = [Err (PayloadOverflow len)] /\ MAX_PAYLOAD_BYTES < len) /\
    (forall fuel, (length data < fuel)%nat -> parse_loop fuel data = try_parse_frames data).
Proof. apply parse_loop_sound. lia. Qed.

(** The other half of crash recovery fails: the log is reopened in append mode after
    its torn tail, and the torn header's declared length swallows the entries appended
    after the restart. *)
Theorem append_after_torn_tail_lost :
  exists torn, torn `prefix_of` encode_frame (mkFrame 1 0 1 0 (replicate 40 Byte.x00)) /\
    try_parse_frames torn = [] /\
    try_parse_frames (torn ++ encode_frame (demo_frame 1)) = [].
Proof.
  exists (take 30 (encode_frame (mkFrame 1 0 1 0 (replicate 40 Byte.x00)))).
  split; [apply prefix_take|]. by vm_compute.
Qed.
