(* ===== verification/FileWal.v ===== *)
(** * FileWal: the group-commit log of [riftgate-replay/src/file_wal.rs]

    One shard, its segment files, its appenders and its flusher thread, as a machine of
    atomic actions: the counter's [fetch_add], each critical section of the shard's
    mutex, and the kernel's own moves.  The shards share only the id counter, so the
    other shards appear as the action that takes an id.  A segment file is the bytes the
    kernel holds and how many of them are on disk; the [BufWriter] may hand bytes to the
    kernel at any time ([Spill]), and the kernel may write back at any time. *)

From S2P Require Import Prelude Frame.

(** ** Data *)

Inductive Durability := Async | Fsync | FdataSync.

#[global] Instance Durability_eq_dec : EqDecision Durability.
Proof. solve_decision. Defined.

Definition DURABILITY_ASYNC : Z := 0.
Definition DURABILITY_FDATASYNC : Z := 1.
Definition DURABILITY_FSYNC : Z := 2.
Definition ENTRY_KIND_DEFAULT : Z := 0.

Definition tag_of (d : Durability) : Z :=
  match d with
  | Async => DURABILITY_ASYNC
  | FdataSync => DURABILITY_FDATASYNC
  | Fsync => DURABILITY_FSYNC
  end.

(** Durations in nanoseconds; the root directory is the [files] of a shard. *)
Record FileWalConfig := mkWalConfig {
  shards : Z;
  segment_size_max : Z;
  flush_interval : Z;
  flush_buffer_bytes : Z;
}.

Definition FileWalConfig_default : FileWalConfig :=
  mkWalConfig 1 (64 * 1024 * 1024) 5000000 (1024 * 1024).

(** A segment file: what the kernel has, and how much of it is on disk. *)
Record Segment := mkSegment { os : list byte; synced : nat }.

Record ShardState := mkShard {
  seqno : Z;
  segment_bytes : Z;
  buffer : list byte;
  last_buffered : option Z;
  last_durable : option Z;
  shutdown : bool;
  files : gmap Z Segment;
}.

(** ** Segments *)

(** [open_segment]: [create(true).append(true)]. *)
Definition open_segment (n : Z) (fs : gmap Z Segment) : gmap Z Segment :=
  match fs !! n with Some _ => fs | None => <[n := mkSegment [] 0]> fs end.

(** [open_initial_segment]: the highest existing sequence number, or 0. *)
Definition open_initial_segment (fs : gmap Z Segment) : Z * gmap Z Segment :=
  let highest := foldr (fun n h => Some (match h with None => n | Some h => Z.max h n end)) None
                   (fst <$> map_to_list fs) in
  let n := default 0 highest in (n, open_segment n fs).

(** The shard part of [open]: the first segment's length is its [metadata().len()]. *)
Definition open_shard (fs : gmap Z Segment) : ShardState :=
  let '(n, fs) := open_initial_segment fs in
  mkShard n (Z.of_nat (length (default [] (os <$> fs !! n)))) [] None None false fs.

Definition shard_for (shards id : Z) : Z := id mod shards.

(** ** The critical sections *)

Definition set_file (f : Segment -> Segment) (s : ShardState) : gmap Z Segment :=
  alter f (seqno s) (files s).

(** [BufWriter::flush], and the [BufWriter] spilling its first [k] bytes by itself. *)
Definition spill (k : nat) (s : ShardState) : ShardState :=
  mkShard (seqno s) (segment_bytes s) (drop k (buffer s)) (last_buffered s) (last_durable s)
    (shutdown s) (set_file (fun f => mkSegment (os f ++ take k (buffer s)) (synced f)) s).

Definition writer_flush (s : ShardState) : ShardState := spill (length (buffer s)) s.

(** [sync_data] on the current segment's file. *)
Definition sync_data (s : ShardState) : ShardState :=
  mkShard (seqno s) (segment_bytes s) (buffer s) (last_buffered s) (last_durable s)
    (shutdown s) (set_file (fun f => mkSegment (os f) (length (os f))) s).

Definition write_all (bs : list byte) (s : ShardState) : ShardState :=
  mkShard (seqno s) (segment_bytes s) (buffer s ++ bs) (last_buffered s) (last_durable s)
    (shutdown s) (files s).

Inductive WalError := IoError | TooLarge | Interrupted.

(** The rollover of [append]; [io i] is whether the [i]-th I/O call succeeds. *)
Definition rollover (io : nat -> bool) (s : ShardState) : ShardState * result unit WalError :=
  if io 0%nat then
    let s := writer_flush s in
    let next_seqno := wrapping_add 64 (seqno s) 1 in
    if io 1%nat then
      (mkShard next_seqno 0 [] (last_buffered s) (last_durable s) (shutdown s)
         (open_segment next_seqno (files s)), Ok tt)
    else (s, Err IoError)
  else (s, Err IoError).

Definition frame_len (fr : ParsedFrame) : Z :=
  Z.of_nat ENTRY_HEADER_BYTES + Z.of_nat (length (payload fr)).

(** The critical section of [append] up to the wait: rollover, then header and payload. *)
Definition append_locked (cfg : FileWalConfig) (io : nat -> bool) (fr : ParsedFrame)
    (s : ShardState) : ShardState * result unit WalError :=
  let '(s, r) :=
    if (segment_size_max cfg <? segment_bytes s + frame_len fr) && (0 <? segment_bytes s)
    then rollover io s else (s, Ok tt) in
  match r with
  | Err e => (s, Err e)
  | Ok _ =>
      if io 2%nat then
        let s := write_all (encode_header fr) s in
        if io 3%nat then
          let s := write_all (payload fr) s in
          (mkShard (seqno s) (segment_bytes s + frame_len fr) (buffer s) (Some (entry_id fr))
             (last_durable s) (shutdown s) (files s), Ok tt)
        else (s, Err IoError)
      else (s, Err IoError)
  end.

(** [last_durable] has reached the entry. *)
Definition durable (id : Z) (s : ShardState) : bool :=
  match last_durable s with Some d => negb (d <? id) | None => false end.

(** [FileWal::last_durable]: the maximum over the shards. *)
Definition wal_last_durable (ds : list (option Z)) : option Z :=
  foldl (fun m d => match d with
                    | None => m
                    | Some d => Some (match m with None => d | Some p => if p <? d then d else p end)
                    end) None ds.

(** [FileWal::flush] on one shard: it takes the buffered target, then waits until this
    holds (the timeout is not used). *)
Definition flush_target (s : ShardState) : option Z := last_buffered s.
Definition flush_returns (target : option Z) (s : ShardState) : bool :=
  match target with Some t => durable t s || shutdown s | None => true end.

(** ** Threads *)

Inductive appender :=
| AppStart (d : Durability) (now : Z) (bytes : list byte)
| AppHasId (d : Durability) (fr : ParsedFrame)
| AppWaiting (fr : ParsedFrame) (notified : bool)
| AppAcked (fr : ParsedFrame)
| AppBuffered (id : Z)
| AppFailed (e : WalError).

Inductive flusher :=
| Idle
| Flushing (target : Z)
| Publishing (target : Z) (ok : bool)
| Exited.

(** [log] is a ghost: the frames appended to the shard, in order. *)
Record wal := mkWal {
  next_entry_id : Z;
  shard : ShardState;
  appenders : list appender;
  fl : flusher;
  log : list ParsedFrame;
}.

Inductive action :=
| OtherShard
| FetchAdd (i : nat)
| Append (i : nat) (io : nat -> bool)
| Wake (i : nat)
| Spurious (i : nat)
| FlushCall
| Pick
| Flush (ok : bool)
| Publish
| Spill (k : nat)
| WriteBack (n : Z) (k : nat)
| Shutdown.

Definition set_appender (i : nat) (a : appender) (s : wal) : wal :=
  mkWal (next_entry_id s) (shard s) (<[i := a]> (appenders s)) (fl s) (log s).
Definition set_shard (sh : ShardState) (s : wal) : wal :=
  mkWal (next_entry_id s) sh (appenders s) (fl s) (log s).
Definition set_flusher (f : flusher) (s : wal) : wal :=
  mkWal (next_entry_id s) (shard s) (appenders s) f (log s).

(** ** The condition variable

    A caller in [cv.wait] is parked until it is notified ([AppWaiting _ true]) and has taken
    the lock again.  [wait] may also return by itself. *)

Definition notified (a : appender) : appender :=
  match a with AppWaiting fr _ => AppWaiting fr true | a => a end.
Definition notify_all (l : list appender) : list appender := notified <$> l.

Definition wake_all (s : wal) : wal :=
  mkWal (next_entry_id s) (shard s) (notify_all (appenders s)) (fl s) (log s).

(** [need_immediate_flush]. *)
Definition need_immediate_flush (cfg : FileWalConfig) (d : Durability) (sh : ShardState) : bool :=
  (flush_buffer_bytes cfg <=? segment_bytes sh) || match d with Async => false | _ => true end.

(** [append] from the id on: the length check, the critical section, then the first test
    of the wait loop. *)
Definition exec_append (cfg : FileWalConfig) (i : nat) (io : nat -> bool) (s : wal) : option wal :=
  match appenders s !! i with
  | Some (AppHasId d fr) =>
      if U32_MAX <? Z.of_nat (length (payload fr)) then Some (set_appender i (AppFailed TooLarge) s)
      else
        let '(sh, r) := append_locked cfg io fr (shard s) in
        Some (match r with
              | Err e => set_appender i (AppFailed e) (set_shard sh s)
              | Ok _ =>
                  mkWal (next_entry_id s) sh
                    (<[i := match d with
                            | Async => AppBuffered (entry_id fr)
                            | _ => if durable (entry_id fr) sh then AppAcked fr else AppWaiting fr false
                            end]> (if need_immediate_flush cfg d sh then notify_all (appenders s) else appenders s))
                    (fl s) (log s ++ [fr])
              end)
  | _ => None
  end.

(** The flusher's choice of a target: whatever is buffered and not durable. *)
Definition flusher_pick (sh : ShardState) : option flusher :=
  match last_buffered sh with
  | Some t => if negb (durable t sh) then Some (Flushing t)
              else if shutdown sh then Some Exited else None
  | None => if shutdown sh then Some Exited else None
  end.

Definition publish (t : Z) (ok : bool) (sh : ShardState) : ShardState :=
  if ok then mkShard (seqno sh) (segment_bytes sh) (buffer sh) (last_buffered sh) (Some t)
               (shutdown sh) (files sh)
  else sh.

(** [exec cfg idx a s]: the action of the shard [idx], if it is enabled. *)
Definition exec (cfg : FileWalConfig) (idx : Z) (a : action) (s : wal) : option wal :=
  let sh := shard s in
  match a with
  | OtherShard =>
      if shard_for (shards cfg) (next_entry_id s) =? idx then None
      else Some (mkWal (wrapping_add 64 (next_entry_id s) 1) sh (appenders s) (fl s) (log s))
  | FetchAdd i =>
      match appenders s !! i with
      | Some (AppStart d now bytes) =>
          let id := next_entry_id s in
          if shard_for (shards cfg) id =? idx then
            Some (mkWal (wrapping_add 64 id 1) sh
              (<[i := AppHasId d (mkFrame id (wrap 64 now) (tag_of d) ENTRY_KIND_DEFAULT bytes)]>
                 (appenders s)) (fl s) (log s))
          else None
      | _ => None
      end
  | Append i io => exec_append cfg i io s
  | Wake i =>
      match appenders s !! i with
      | Some (AppWaiting fr true) =>
          Some (set_appender i (if durable (entry_id fr) sh then AppAcked fr
                                else if shutdown sh then AppFailed Interrupted
                                else AppWaiting fr false) s)
      | _ => None
      end
  | Spurious i =>
      match appenders s !! i with
      | Some (AppWaiting fr _) => Some (set_appender i (AppWaiting fr true) s)
      | _ => None
      end
  | FlushCall => Some (wake_all s)
  | Pick => match fl s with Idle => f ← flusher_pick sh; Some (set_flusher f s) | _ => None end
  | Flush ok =>
      match fl s with
      | Flushing t =>
          Some (set_flusher (Publishing t ok)
            (set_shard (if ok then sync_data (writer_flush sh) else sh) s))
      | _ => None
      end
  | Publish =>
      match fl s with
      | Publishing t ok => Some (set_flusher Idle (set_shard (publish t ok sh) (wake_all s)))
      | _ => None
      end
  | Spill k => Some (set_shard (spill k sh) s)
  | WriteBack n k =>
      Some (set_shard (mkShard (seqno sh) (segment_bytes sh) (buffer sh) (last_buffered sh)
        (last_durable sh) (shutdown sh)
        (alter (fun f => mkSegment (os f) (Nat.max (synced f) (Nat.min k (length (os f))))) n (files sh))) s)
  | Shutdown =>
      Some (set_shard (mkShard (seqno sh) (segment_bytes sh) (buffer sh) (last_buffered sh)
        (last_durable sh) true (files sh)) (wake_all s))
  end.

(** A fresh log with its pending calls. *)
Definition start (calls : list (Durability * Z * list byte)) : wal :=
  mkWal 1 (open_shard ∅) ((fun '(d, now, bs) => AppStart d now bs) <$> calls) Idle [].

(** ** The durability invariant *)

Definition ids (l : list ParsedFrame) : list Z := entry_id <$> l.
#[global] Arguments ids : simpl never.

(** Every frame up to the entry [d] of the log lies within the synced bytes. *)
Definition synced_upto (seg : Segment) (l : list ParsedFrame) (d : Z) : Prop :=
  d ∈ ids l /\
  forall n fr, l !! n = Some fr -> entry_id fr <= d ->
    (length (encode_frames (take (S n) l)) <= synced seg)%nat.

Definition flusher_ok (seg : Segment) (l : list ParsedFrame) (f : flusher) : Prop :=
  match f with
  | Flushing t => t ∈ ids l
  | Publishing t true => synced_upto seg l t
  | _ => True
  end.

Definition appender_ok (seg : Segment) (l : list ParsedFrame) (a : appender) : Prop :=
  match a with
  | AppWaiting fr _ => fr ∈ l
  | AppAcked fr => fr ∈ l /\ synced_upto seg l (entry_id fr)
  | _ => True
  end.

Record shard_inv (s : wal) (seg : Segment) : Prop := {
  si_files : files (shard s) = {[ 0 := seg ]};
  si_seqno : seqno (shard s) = 0;
  si_bytes : os seg ++ buffer (shard s) = encode_frames (log s);
  si_synced : (synced seg <= length (os seg))%nat;
  si_buffered : last_buffered (shard s) = last (ids (log s));
  si_durable : forall d, last_durable (shard s) = Some d -> synced_upto seg (log s) d;
  si_flusher : flusher_ok seg (log s) (fl s);
  si_appenders : Forall (appender_ok seg (log s)) (appenders s);
}.

(** No segment was rolled over, and the entries reached the shard in the order of their ids. *)
Definition no_rollover (s : wal) : Prop := forall k, k <> 0 -> files (shard s) !! k = None.
Definition in_order (s : wal) : Prop := StronglySorted Z.lt (ids (log s)).

Definition wal_inv (s : wal) : Prop := no_rollover s -> in_order s -> exists seg, shard_inv s seg.

Lemma synced_upto_mono seg seg' l d :
  (synced seg <= synced seg')%nat -> synced_upto seg l d -> synced_upto seg' l d.
Proof. intros Hle [Hin Hs]. split; [done|]. intros n fr Hn Hd. specialize (Hs n fr Hn Hd). lia. Qed.

Lemma synced_upto_le seg l d d' : synced_upto seg l d -> d' ∈ ids l -> d' <= d -> synced_upto seg l d'.
Proof. intros [_ Hs] Hin Hle. split; [done|]. intros n fr Hn Hd. apply (Hs n fr Hn). lia. Qed.

Lemma synced_upto_all seg l d :
  (length (encode_frames l) <= synced seg)%nat -> d ∈ ids l -> synced_upto seg l d.
Proof.
  intros Hall Hin. split; [done|]. intros n fr Hn _. etrans; [|exact Hall].
  rewrite <- (take_drop (S n) l) at 2. rewrite fmap_app, concat_app, length_app. lia.
Qed.

Lemma synced_upto_snoc seg l fr d :
  StronglySorted Z.lt (ids (l ++ [fr])) -> synced_upto seg l d -> synced_upto seg (l ++ [fr]) d.
Proof.
  intros Hsort [Hin Hs]. unfold ids in *. rewrite fmap_app in *. split.
  { unfold ids. rewrite fmap_app, elem_of_app. by left. }
  intros n f Hn Hd. apply lookup_app_Some in Hn as [Hn|[Hlen Hn]].
  - rewrite take_app_le by (apply lookup_lt_Some in Hn; lia). by apply (Hs n f).
  - apply list_lookup_singleton_Some in Hn as [_ <-]. exfalso.
    pose proof (StronglySorted_app_1_elem_of _ _ _ d (entry_id fr) Hsort Hin (list_elem_of_here _ _)).
    lia.
Qed.

Lemma flusher_ok_mono seg seg' l f :
  (synced seg <= synced seg')%nat -> flusher_ok seg l f -> flusher_ok seg' l f.
Proof. destruct f as [| |t []|]; cbn; eauto using synced_upto_mono. Qed.

Lemma flusher_ok_snoc seg l fr f :
  StronglySorted Z.lt (ids (l ++ [fr])) -> flusher_ok seg l f -> flusher_ok seg (l ++ [fr]) f.
Proof.
  destruct f as [|t|t []|]; cbn; eauto using synced_upto_snoc.
  intros _ Ht. unfold ids. rewrite fmap_app, elem_of_app. by left.
Qed.

Lemma appender_ok_mono seg seg' l a :
  (synced seg <= synced seg')%nat -> appender_ok seg l a -> appender_ok seg' l a.
Proof. destruct a; cbn; intuition eauto using synced_upto_mono. Qed.

Lemma appender_ok_snoc seg l fr a :
  StronglySorted Z.lt (ids (l ++ [fr])) -> appender_ok seg l a -> appender_ok seg (l ++ [fr]) a.
Proof.
  destruct a; cbn; eauto; [intros _ ?; apply elem_of_app; by left|].
  intros ? [??]. split; [apply elem_of_app; by left|].
  by apply synced_upto_snoc.
Qed.

Lemma in_order_snoc l fr : StronglySorted Z.lt (ids (l ++ [fr])) -> StronglySorted Z.lt (ids l).
Proof. unfold ids. rewrite fmap_app. apply StronglySorted_app_1_l. Qed.

(** ** Preservation, action by action *)

(** Actions that leave the log, the flusher and the appenders alone, and only move bytes
    towards the disk. *)
Lemma shard_inv_progress s seg seg' sh :
  shard_inv s seg ->
  files sh = {[ 0 := seg' ]} -> seqno sh = 0 ->
  os seg' ++ buffer sh = os seg ++ buffer (shard s) ->
  (synced seg <= synced seg')%nat -> (synced seg' <= length (os seg'))%nat ->
  last_buffered sh = last_buffered (shard s) -> last_durable sh = last_durable (shard s) ->
  shard_inv (set_shard sh s) seg'.
Proof.
  intros [] Hf Hq Hb Hs Hl Hlb Hld. constructor; cbn; try done; try congruence.
  - intros d Hd. eapply synced_upto_mono; [done|]. apply si_durable0. congruence.
  - by eapply flusher_ok_mono.
  - eapply Forall_impl; [done|]. intros a. by apply appender_ok_mono.
Qed.

Lemma spill_inv s seg k :
  shard_inv s seg ->
  shard_inv (set_shard (spill k (shard s)) s)
    (mkSegment (os seg ++ take k (buffer (shard s))) (synced seg)).
Proof.
  intros Hi. pose proof Hi as []. eapply shard_inv_progress; [done|..]; cbn; try done.
  - unfold set_file. rewrite si_seqno0, si_files0. by rewrite alter_singleton.
  - by rewrite <- app_assoc, take_drop.
  - rewrite length_app. lia.
Qed.

Lemma sync_inv s seg :
  shard_inv s seg ->
  shard_inv (set_shard (sync_data (shard s)) s) (mkSegment (os seg) (length (os seg))).
Proof.
  intros Hi. pose proof Hi as []. eapply shard_inv_progress; [done|..]; cbn; try done.
  unfold set_file. rewrite si_seqno0, si_files0. by rewrite alter_singleton.
Qed.

Lemma set_appender_inv s seg i a :
  shard_inv s seg -> appender_ok seg (log s) a -> shard_inv (set_appender i a s) seg.
Proof. intros [] Ha. constructor; cbn; try done. by apply Forall_insert. Qed.

Lemma Forall_notify (P : appender -> Prop) l :
  (forall fr b, P (AppWaiting fr b) -> P (AppWaiting fr true)) -> Forall P l -> Forall P (notify_all l).
Proof.
  intros HP Hl. apply Forall_fmap. eapply Forall_impl; [exact Hl|]. intros a Ha. destruct a; eauto.
Qed.

Lemma wake_all_inv s seg : shard_inv s seg -> shard_inv (wake_all s) seg.
Proof. intros []. constructor; cbn; try done. by apply Forall_notify. Qed.

Lemma lookup_notify_all l i : notify_all l !! i = notified <$> l !! i.
Proof. apply list_lookup_fmap. Qed.

Lemma set_flusher_inv s seg f :
  shard_inv s seg -> flusher_ok seg (log s) f -> shard_inv (set_flusher f s) seg.
Proof. intros [] Hf. by constructor. Qed.

(** A durable entry of the log lies within the synced bytes. *)
Lemma durable_synced s seg id :
  shard_inv s seg -> durable id (shard s) = true -> id ∈ ids (log s) -> synced_upto seg (log s) id.
Proof.
  intros [] Hd Hin. unfold durable in Hd. destruct (last_durable (shard s)) as [d|]; [|done].
  apply (synced_upto_le seg (log s) d); [by apply si_durable0|done|]. zcases; [done|lia].
Qed.

Lemma last_elem_of {A} (l : list A) (x : A) : last l = Some x -> x ∈ l.
Proof. intros (l' & ->)%last_Some. set_solver. Qed.

Lemma publish_inv s seg t ok :
  shard_inv s seg -> flusher_ok seg (log s) (Publishing t ok) ->
  shard_inv (set_flusher Idle (set_shard (publish t ok (shard s)) (wake_all s))) seg.
Proof.
  intros Hi Hp. apply wake_all_inv in Hi as []. unfold publish. destruct ok; constructor; cbn; try done.
  by intros d [= <-].
Qed.

(** Files are never removed. *)
Definition files_grow (sh sh' : ShardState) : Prop :=
  forall k, files sh' !! k = None -> files sh !! k = None.

Lemma alter_grow (f : Segment -> Segment) n (fs : gmap Z Segment) k :
  alter f n fs !! k = None -> fs !! k = None.
Proof. by rewrite lookup_alter_None. Qed.

Lemma open_segment_grow n fs k : open_segment n fs !! k = None -> fs !! k = None.
Proof. unfold open_segment. destruct (fs !! n); [done|]. by intros [? _]%lookup_insert_None. Qed.

Lemma open_segment_some n fs : is_Some (open_segment n fs !! n).
Proof. unfold open_segment. destruct (fs !! n) eqn:E; rewrite ?lookup_insert_eq; eauto. Qed.

Lemma append_locked_grow cfg io fr sh : files_grow sh (fst (append_locked cfg io fr sh)).
Proof.
  intros k. unfold append_locked, rollover.
  destruct (_ && _), (io 0%nat), (io 1%nat), (io 2%nat), (io 3%nat); cbn [fst files]; try done;
    intros Hk; try apply open_segment_grow in Hk; by apply alter_grow in Hk.
Qed.

(** Without I/O errors the critical section either rolls over, which leaves a file beside
    segment 0, or appends the encoded frame to the buffer. *)
Lemma append_locked_ok cfg io fr s seg :
  (forall i, io i = true) -> shard_inv s seg ->
  is_Some (files (fst (append_locked cfg io fr (shard s))) !! 1) \/
  append_locked cfg io fr (shard s) =
    (mkShard 0 (segment_bytes (shard s) + frame_len fr) (buffer (shard s) ++ encode_frame fr)
       (Some (entry_id fr)) (last_durable (shard s)) (shutdown (shard s)) (files (shard s)), Ok tt).
Proof.
  intros Hio []. unfold append_locked, rollover. rewrite !Hio.
  destruct (_ && _); [left|right]; cbn.
  - rewrite si_seqno0. apply (open_segment_some 1).
  - unfold write_all; cbn. by rewrite si_seqno0, <- app_assoc.
Qed.

Lemma append_inv s seg d fr i sh (wake : bool) :
  shard_inv s seg -> StronglySorted Z.lt (ids (log s ++ [fr])) ->
  sh = mkShard 0 (segment_bytes (shard s) + frame_len fr) (buffer (shard s) ++ encode_frame fr)
       (Some (entry_id fr)) (last_durable (shard s)) (shutdown (shard s)) (files (shard s)) ->
  shard_inv (mkWal (next_entry_id s) sh
    (<[i := match d with
            | Async => AppBuffered (entry_id fr)
            | _ => if durable (entry_id fr) sh then AppAcked fr else AppWaiting fr false
            end]> (if wake then notify_all (appenders s) else appenders s)) (fl s) (log s ++ [fr])) seg.
Proof.
  intros [] Hsort ->.
  assert (Hd : forall d0, last_durable (shard s) = Some d0 -> synced_upto seg (log s ++ [fr]) d0)
    by eauto using synced_upto_snoc.
  assert (Hin : entry_id fr ∈ ids (log s ++ [fr]))
    by (unfold ids; rewrite fmap_app; apply elem_of_app; right; apply list_elem_of_here).
  assert (Hfr : fr ∈ log s ++ [fr]) by (apply elem_of_app; right; apply list_elem_of_here).
  constructor; cbn; try done.
  - by rewrite app_assoc, si_bytes0, fmap_app, concat_app; cbn; rewrite app_nil_r.
  - unfold ids. rewrite fmap_app. by rewrite (last_snoc (entry_id fr)).
  - by apply flusher_ok_snoc.
  - apply Forall_insert; [destruct wake; [apply Forall_notify; [done|]|]; (eapply Forall_impl; [done|]; intros a; by apply appender_ok_snoc)|].
    unfold durable; cbn. destruct d; cbn; [done|..];
      (destruct (last_durable (shard s)) as [d0|] eqn:E; [|done]);
      zcases; cbn; try done; (split; [done|]);
      eapply synced_upto_le; eauto; lia.
Qed.

(** A group commit: everything buffered before it is on disk after it. *)
Lemma flush_inv s seg t :
  shard_inv s seg -> t ∈ ids (log s) ->
  exists seg', shard_inv (set_flusher (Publishing t true)
    (set_shard (sync_data (writer_flush (shard s))) s)) seg'.
Proof.
  intros Hi Ht. pose proof (spill_inv s seg (length (buffer (shard s))) Hi) as H1.
  apply sync_inv in H1. eexists. apply set_flusher_inv; [exact H1|].
  cbn [log set_shard]. destruct Hi. apply synced_upto_all; [|done].
  cbn. by rewrite take_ge, si_bytes0 by lia.
Qed.

(** The actions of a run without I/O errors on the append path. *)
Definition no_fault (a : action) : Prop :=
  match a with Append _ io => forall i, io i = true | _ => True end.

Definition step (cfg : FileWalConfig) (idx : Z) (s s' : wal) : Prop :=
  exists a, no_fault a /\ exec cfg idx a s = Some s'.

(** The critical section leaves [last_durable] and the flag alone, and [last_buffered] is the
    entry exactly when it was written. *)
Lemma append_locked_fields cfg io fr sh sh' r :
  append_locked cfg io fr sh = (sh', r) ->
  shutdown sh' = shutdown sh /\ last_durable sh' = last_durable sh /\
  (r = Ok tt -> last_buffered sh' = Some (entry_id fr)) /\
  (forall e, r = Err e -> last_buffered sh' = last_buffered sh).
Proof.
  unfold append_locked, rollover. intros H. repeat (case_match; simplify_eq/=); done.
Qed.

Lemma step_shape cfg idx a s s' :
  exec cfg idx a s = Some s' ->
  files_grow (shard s) (shard s') /\ (log s' = log s \/ exists fr, log s' = log s ++ [fr]).
Proof.
  assert (Hrefl : forall sh, files_grow sh sh) by by intros sh k.
  intros He. destruct a; cbn -[append_locked] in He; unfold exec_append in He.
  - cases; by simplify_eq; cbn; auto.
  - cases; [|done]. cases; try done. cases; by simplify_eq; cbn; auto.
  - cases; [|done]. cases; try done. cases; [by simplify_eq; cbn; auto|].
    destruct (append_locked _ _ _ _) as [sh [u|e]] eqn:E; simplify_eq; cbn;
      (split; [|eauto]); pose proof (append_locked_grow cfg io fr (shard s)) as Hg; by rewrite E in Hg.
  - destruct (appenders s !! i) as [[| |fr []| | |]|]; try done. by simplify_eq; cbn; auto.
  - destruct (appenders s !! i) as [[]|]; try done. by simplify_eq; cbn; auto.
  - by simplify_eq; cbn; auto.
  - cases; try done. destruct (flusher_pick (shard s)); by simplify_eq/=; auto.
  - cases; try done. simplify_eq; cbn. split; [|auto]. destruct ok; [|done].
    intros k Hk. by do 2 apply alter_grow in Hk.
  - destruct (fl s) as [| |t ok|]; simplify_eq; cbn. split; [|auto]. intros k. by destruct ok.
  - simplify_eq; cbn. split; [|auto]. intros ?. apply alter_grow.
  - simplify_eq; cbn. split; [|auto]. intros ?. apply alter_grow.
  - simplify_eq; cbn. split; [by intros k|auto].
Qed.

Lemma wal_inv_step cfg idx s s' : step cfg idx s s' -> wal_inv s -> wal_inv s'.
Proof.
  intros (a & Hnf & He) Hinv Hroll Hord.
  pose proof (step_shape _ _ _ _ _ He) as [Hgrow Hlog].
  assert (Hroll0 : no_rollover s) by (intros k Hk; by apply Hgrow, Hroll).
  assert (Hord0 : in_order s).
  { unfold in_order in *. destruct Hlog as [<-|[fr Hfr]]; [done|].
    rewrite Hfr in Hord. by apply in_order_snoc in Hord. }
  destruct (Hinv Hroll0 Hord0) as [seg Hi]. clear Hinv Hgrow Hlog Hroll0 Hord0.
  destruct a; cbn -[append_locked] in He, Hnf; unfold exec_append in He.
  - cases; simplify_eq. exists seg. by destruct Hi.
  - destruct (appenders s !! i) as [[]|]; try done. cases; simplify_eq. exists seg.
    destruct Hi; constructor; cbn; try done. by apply Forall_insert.
  - destruct (appenders s !! i) as [[|d fr| | | |]|]; try done.
    destruct (_ <? _); [simplify_eq; exists seg; by apply set_appender_inv|].
    destruct (append_locked cfg io fr (shard s)) as [sh r] eqn:E.
    destruct (append_locked_ok cfg io fr s seg Hnf Hi) as [[f Hf]|Heq].
    + rewrite E in Hf. cbn in Hf. exfalso. assert (Hsh : shard s' = sh) by (destruct r; by simplify_eq).
      specialize (Hroll 1 ltac:(done)). congruence.
    + rewrite E in Heq. injection Heq as -> ->. simplify_eq. exists seg. by apply append_inv.
  - destruct (appenders s !! i) as [[| |fr []| | |]|] eqn:Ei; try done.
    assert (Hfr : fr ∈ log s).
    { destruct Hi. by apply (proj1 (Forall_lookup _ _) si_appenders0 i (AppWaiting fr true)). }
    exists seg. simplify_eq. apply set_appender_inv; [done|]. destruct (durable (entry_id fr) (shard s)) eqn:Ed.
    + split; [done|]. eapply durable_synced; [done..|]. by apply list_elem_of_fmap_2.
    + by destruct (shutdown (shard s)).
  - destruct (appenders s !! i) as [[| |fr b| | |]|] eqn:Ei; try done. simplify_eq. exists seg.
    apply set_appender_inv; [done|]. destruct Hi.
    by apply (proj1 (Forall_lookup _ _) si_appenders0 i (AppWaiting fr b)).
  - simplify_eq. exists seg. by apply wake_all_inv.
  - destruct (fl s) eqn:Ef; try done. unfold flusher_pick in He.
    destruct (last_buffered (shard s)) as [t|] eqn:El; [destruct (negb _)|];
      [|destruct (shutdown (shard s))..]; simplify_eq/=; exists seg; (apply set_flusher_inv; [done|]);
      try done. cbn. apply last_elem_of. destruct Hi. congruence.
  - destruct (fl s) as [|t| |] eqn:Ef; try done. simplify_eq. destruct ok.
    + eapply flush_inv; [done|]. destruct Hi. by rewrite Ef in si_flusher0.
    + exists seg. by apply (set_flusher_inv s).
  - destruct (fl s) as [| |t ok|] eqn:Ef; try done. simplify_eq. exists seg.
    apply publish_inv; [done|]. destruct Hi. by rewrite Ef in si_flusher0.
  - simplify_eq. eexists. by apply spill_inv.
  - simplify_eq. pose proof Hi as [].
    destruct (decide (n = 0)) as [->|Hn].
    + exists (mkSegment (os seg) (Nat.max (synced seg) (Nat.min k (length (os seg))))).
      eapply shard_inv_progress; [done|..]; cbn; try done; try lia.
      by rewrite si_files0, alter_singleton.
    + exists seg. eapply shard_inv_progress; [done|..]; cbn; try done.
      rewrite si_files0. apply alter_singleton_ne. done.
  - simplify_eq. exists seg. apply wake_all_inv in Hi. by destruct Hi.
Qed.

(** The fields of every frame fit their widths. *)
Definition fields_ok (fr : ParsedFrame) : Prop :=
  in_u64 (entry_id fr) /\ in_u64 (timestamp_nanos fr) /\ in_u8 (durability_tag fr) /\
  in_u8 (entry_kind fr).

Definition fields_inv (s : wal) : Prop :=
  in_u64 (next_entry_id s) /\ Forall fields_ok (log s) /\
  Forall (fun a => match a with AppHasId _ fr => fields_ok fr | _ => True end) (appenders s).

Lemma fields_inv_step cfg idx s s' : step cfg idx s s' -> fields_inv s -> fields_inv s'.
Proof.
  intros (a & _ & He) (Hn & Hl & Ha).
  destruct a; cbn -[append_locked wrap wrapping_add] in He; unfold exec_append in He.
  - cases; simplify_eq. split_and!; [apply wrap_range; lia|done..].
  - destruct (appenders s !! i) as [[]|]; try done. cases; simplify_eq.
    split_and!; [apply wrap_range; lia|done|]. apply Forall_insert; [done|].
    split_and!; [done|apply wrap_range; lia| |done]. by destruct d.
  - destruct (appenders s !! i) as [[|d fr| | | |]|] eqn:Ei; try done.
    destruct (_ <? _); [simplify_eq; split_and!; [done..|by apply Forall_insert]|].
    destruct (append_locked _ _ _ _) as [sh [u|e]]; simplify_eq;
      (split_and!; [done| |apply Forall_insert; [by repeat case_match; try apply Forall_notify|]; by repeat case_match]); [|done].
    apply Forall_app. split; [done|]. constructor; [|done].
    by apply (proj1 (Forall_lookup _ _) Ha i (AppHasId d fr)).
  - destruct (appenders s !! i) as [[| |fr []| | |]|]; try done. simplify_eq.
    split_and!; [done..|]. apply Forall_insert; [done|]. by repeat case_match.
  - destruct (appenders s !! i) as [[]|]; try done. simplify_eq. split_and!; [done..|by apply Forall_insert].
  - simplify_eq. split_and!; [done..|by apply Forall_notify].
  - cases; try done. destruct (flusher_pick (shard s)); by simplify_eq/=.
  - cases; by simplify_eq.
  - cases; try done; simplify_eq. split_and!; [done..|by apply Forall_notify].
  - by simplify_eq.
  - by simplify_eq.
  - simplify_eq. split_and!; [done..|by apply Forall_notify].
Qed.

(** What a crash leaves of a segment: at least the synced bytes, in order. *)
Definition crash_image (seg : Segment) (img : list byte) : Prop :=
  exists k, (synced seg <= k)%nat /\ img = take k (os seg).

Lemma start_inv calls : wal_inv (start calls) /\ fields_inv (start calls).
Proof.
  assert (Ha : forall P : appender -> Prop, (forall d now bs, P (AppStart d now bs)) ->
    Forall P (appenders (start calls))).
  { intros P HP. cbn. apply Forall_fmap, Forall_true. intros [[d now] bs]. apply HP. }
  split; [|split_and!; [done|constructor|by apply Ha]].
  intros _ _. exists (mkSegment [] 0). constructor; try done. by apply Ha.
Qed.

Lemma synced_survives seg l buf fr img :
  Forall frame_ok l -> os seg ++ buf = encode_frames l -> (synced seg <= length (os seg))%nat ->
  fr ∈ l -> synced_upto seg l (entry_id fr) -> crash_image seg img -> Ok fr ∈ try_parse_frames img.
Proof.
  intros Hok Hb Hlen Hin [_ Hs] (k & Hk & ->).
  apply list_elem_of_lookup in Hin as [n Hn]. specialize (Hs n fr Hn ltac:(lia)).
  destruct (parse_prefix l (Nat.min k (length (os seg))) Hok) as (m & Hp & Hm).
  rewrite <- Hb, take_app_le in Hp by lia. rewrite <- take_take, (take_ge (os seg)) in Hp by lia.
  rewrite Hp. apply list_elem_of_fmap_2.
  assert (Hlt : (n < length l)%nat) by by eapply lookup_lt_Some.
  assert (Hnm : (S n <= m)%nat) by (apply Hm; lia).
  apply list_elem_of_lookup. exists n. by rewrite lookup_take_lt by lia.
Qed.

(** [C5] Durability of the group commit: in every interleaving of appenders, flusher,
    kernel write-back and shutdown, without I/O errors, as long as no segment was rolled
    over and the entries reached the shard in id order, an entry whose [FdataSync] or
    [Fsync] append returned is read back, field for field, from whatever a crash leaves of
    the segment. *)
Theorem acked_entry_survives_crash cfg idx calls s i fr seg img :
  rtc (step cfg idx) (start calls) s -> no_rollover s -> in_order s ->
  Forall (fun f => Z.of_nat (length (payload f)) <= MAX_PAYLOAD_BYTES) (log s) ->
  appenders s !! i = Some (AppAcked fr) ->
  files (shard s) !! 0 = Some seg -> crash_image seg img ->
  Ok fr ∈ try_parse_frames img.
Proof.
  intros Hr Hroll Hord Hpay Hack Hfile Himg.
  assert (Hinv : wal_inv s)
    by (eapply (rtc_invariant (step cfg idx)); eauto using wal_inv_step; apply start_inv).
  assert (Hfld : fields_inv s)
    by (eapply (rtc_invariant (step cfg idx)); eauto using fields_inv_step; apply start_inv).
  destruct (Hinv Hroll Hord) as [seg0 []], Hfld as (_ & Hlog & _).
  rewrite si_files0, lookup_singleton_eq in Hfile. injection Hfile as <-.
  pose proof (proj1 (Forall_lookup _ _) si_appenders0 i _ Hack) as [Hin Hs].
  eapply synced_survives; [|done..].
  apply Forall_forall. intros f Hf. rewrite Forall_forall in Hlog, Hpay.
  destruct (Hlog f Hf) as (? & ? & ? & ?). by split_and!; [..|apply Hpay].
Qed.


(** When [flush] returns and the log is not shut down, its target is on disk. *)
Lemma flush_returns_synced s seg t :
  shard_inv s seg -> shutdown (shard s) = false -> t ∈ ids (log s) ->
  flush_returns (Some t) (shard s) = true -> synced_upto seg (log s) t.
Proof.
  intros Hi Hsd Ht Hfl. cbn in Hfl. rewrite Hsd, orb_false_r in Hfl. by eapply durable_synced.
Qed.

(** ** Concrete runs *)

Definition demo_config : FileWalConfig := mkWalConfig 1 64 5000000 1048576.
Definition io_ok : nat -> bool := fun _ => true.

Lemma no_rollover_singleton s seg : files (shard s) = {[ 0 := seg ]} -> no_rollover s.
Proof. intros Hf k Hk. rewrite Hf. by apply lookup_singleton_ne. Qed.

Definition one_call : wal := start [(FdataSync, 7, bstr "abc")].
Definition one_call_run : list action :=
  [FetchAdd 0; Append 0 io_ok; Pick; Flush true; Publish; Wake 0].

Lemma exec_run_steps cfg idx acts s s' :
  Forall no_fault acts -> exec_run (exec cfg idx) acts s = Some s' -> rtc (step cfg idx) s s'.
Proof.
  intros Hnf. revert s. induction Hnf as [|a acts Ha Hacts IH]; intros s Hrun; cbn in Hrun.
  { by injection Hrun as <-. }
  destruct (exec cfg idx a s) as [s1|] eqn:E; [|done].
  eapply rtc_l; [by exists a|by apply IH].
Qed.

Lemma acked_entry_survives_crash_witness :
  Ok (mkFrame 1 7 1 0 (bstr "abc")) ∈
    try_parse_frames (encode_frame (mkFrame 1 7 1 0 (bstr "abc"))).
Proof.
  destruct (exec_run (exec demo_config 0) one_call_run one_call) as [s|] eqn:E; [|by vm_compute in E].
  vm_compute in E. injection E as <-.
  eapply (acked_entry_survives_crash demo_config 0 [(FdataSync, 7, bstr "abc")] _ 0).
  - apply (exec_run_steps _ _ one_call_run); [by repeat constructor|]. vm_compute. reflexivity.
  - eapply no_rollover_singleton. vm_compute. reflexivity.
  - repeat constructor.
  - repeat constructor. by vm_compute.
  - reflexivity.
  - reflexivity.
  - exists 100%nat. cbn. split; [lia|reflexivity].
Defined.

(** Two appends of 40 bytes to a 64-byte segment: the second one rolls over before the
    flusher ran. *)
Definition two_calls : wal :=
  start [(FdataSync, 0, replicate 40 Byte.x61); (FdataSync, 0, replicate 40 Byte.x62)].
Definition rollover_run : list action :=
  [FetchAdd 0; Append 0 io_ok; FetchAdd 1; Append 1 io_ok; Pick; Flush true; Publish; Wake 0].

(** A rolled-over segment is flushed to the kernel but never synced: the group commit
    that follows syncs only the new segment and advances [last_durable] past the entries
    of the old one, so a [FdataSync] append returns although not one byte of its entry is
    on disk, in any segment.  The ids are in order: [no_rollover] is necessary. *)
Theorem rollover_acks_unsynced :
  exists s fr, rtc (step demo_config 0) two_calls s /\ in_order s /\
    appenders s !! 0%nat = Some (AppAcked fr) /\
    files (shard s) !! 0 = Some (mkSegment (encode_frame fr) 0).
Proof.
  eexists _, _. split.
  { apply (exec_run_steps _ _ rollover_run); [by repeat constructor|]. vm_compute. reflexivity. }
  split; [repeat constructor|]. by split.
Qed.

(** The two callers take their ids in one order and the shard's lock in the other. *)
Definition reorder_run : list action :=
  [FetchAdd 0; FetchAdd 1; Append 1 io_ok; Pick; Flush true; Publish; Append 0 io_ok].

(** Ids are taken before the shard's lock: a caller that is overtaken by a later id
    finds [last_durable] already past its own id, and its [Fsync] append returns at once
    with its entry only in the writer's buffer; the flusher, which compares the same ids,
    has nothing left to do.  No rollover happened: [in_order] is necessary. *)
Theorem overtaken_append_acked_unsynced :
  exists s fr seg,
    rtc (step FileWalConfig_default 0) (start [(Fsync, 0, bstr "a"); (Fsync, 0, bstr "b")]) s /\
    no_rollover s /\ appenders s !! 0%nat = Some (AppAcked fr) /\
    files (shard s) !! 0 = Some seg /\ buffer (shard s) = encode_frame fr /\
    try_parse_frames (os seg) = [Ok (mkFrame 2 0 2 0 (bstr "b"))] /\
    flusher_pick (shard s) = None.
Proof.
  eexists _, _, _. split.
  { apply (exec_run_steps _ _ reorder_run); [by repeat constructor|]. vm_compute. reflexivity. }
  split; [eapply no_rollover_singleton; vm_compute; reflexivity|].
  repeat (split; [vm_compute; reflexivity|]). by vm_compute.
Qed.
