(* ===== verification/WalLive.v ===== *)
(** * WalLive: the group commit makes progress ([riftgate-replay/src/file_wal.rs])

    The machine of [FileWal.v] again, for what a synchronous [append] waits for.  [rounds]
    counts the steps of the flusher that an entry still needs: each of them brings it down
    and nothing else brings it up, so whatever the appenders, the kernel and the callers do
    in between, five steps are enough ([group_commit_progress]).  This is for entries that
    reach the shard in the order of their ids; [overtaken_append_starves] is the run without. *)

From S2P Require Import Prelude Frame FileWal.

(** The steps of the flusher thread. *)
Definition flusher_act (a : action) : bool :=
  match a with Pick | Flush _ | Publish => true | _ => false end.

(** No sync fails. *)
Definition sync_ok (a : action) : Prop := match a with Flush ok => ok = true | _ => True end.

(** ** The invariant, faults included *)

(** No lost wakeup: who is parked and not notified waits for an entry that is not durable. *)
Definition parked_ok (l : list ParsedFrame) (sh : ShardState) (a : appender) : Prop :=
  match a with
  | AppWaiting fr b => fr ∈ l /\ (b = false -> durable (entry_id fr) sh = false)
  | _ => True
  end.

Record live_inv (s : wal) : Prop := {
  li_buffered : last_buffered (shard s) = last (ids (log s));
  li_target : match fl s with
              | Flushing t | Publishing t _ => durable t (shard s) = false
              | Exited => shutdown (shard s) = true
              | Idle => True
              end;
  li_callers : Forall (parked_ok (log s) (shard s)) (appenders s);
}.

Lemma start_live calls : live_inv (start calls).
Proof. constructor; [done|done|]. cbn. apply Forall_fmap, Forall_true. by intros [[d now] bs]. Qed.

Lemma parked_mono l l' sh sh' apps :
  l `prefix_of` l' -> last_durable sh' = last_durable sh ->
  Forall (parked_ok l sh) apps -> Forall (parked_ok l' sh') apps.
Proof.
  intros [k ->] Hd Hall. eapply Forall_impl; [exact Hall|]. intros a. destruct a; try done. unfold parked_ok, durable. rewrite Hd.
  intros [Hin Hp]. split; [apply elem_of_app; by left|done].
Qed.

(** A notification leaves nobody parked, whatever becomes durable. *)
Lemma parked_notify l sh sh' apps :
  Forall (parked_ok l sh) apps -> Forall (parked_ok l sh') (notify_all apps).
Proof.
  intros Hl. apply Forall_fmap. eapply Forall_impl; [exact Hl|]. intros a Ha. destruct a; try done. by destruct Ha.
Qed.

Lemma ids_app l fr : ids (l ++ [fr]) = ids l ++ [entry_id fr].
Proof. unfold ids. by rewrite fmap_app. Qed.

Lemma append_live cfg i io s s' : exec_append cfg i io s = Some s' -> live_inv s -> live_inv s'.
Proof.
  unfold exec_append. intros He [Hb Ht Hw]. destruct (appenders s !! i) as [[|d fr| | | |]|]; try done.
  destruct (_ <? _).
  { simplify_eq. constructor; cbn; try done. by apply Forall_insert. }
  destruct (append_locked cfg io fr (shard s)) as [sh [[]|e]] eqn:E;
    destruct (append_locked_fields _ _ _ _ _ _ E) as (Hsd & Hld & Hok & Herr); simplify_eq; constructor; cbn.
  - rewrite ids_app, last_snoc. by apply Hok.
  - destruct (fl s); unfold durable in *; rewrite ?Hld, ?Hsd; done.
  - assert (Hw' : Forall (parked_ok (log s ++ [fr]) sh) (appenders s)) by (eapply parked_mono; [by eexists|done|done]).
    apply Forall_insert; [destruct (need_immediate_flush cfg d sh); [by eapply parked_notify|done]|].
    assert (fr ∈ log s ++ [fr]) by (apply elem_of_app; right; apply list_elem_of_here).
    destruct d; [done|..]; by destruct (durable (entry_id fr) sh) eqn:Ed.
  - by rewrite (Herr e).
  - destruct (fl s); unfold durable in *; rewrite ?Hld, ?Hsd; done.
  - apply Forall_insert; [by eapply parked_mono|done].
Qed.

Lemma exec_live cfg idx a s s' : exec cfg idx a s = Some s' -> live_inv s -> live_inv s'.
Proof.
  intros He Hl. pose proof Hl as [Hb Ht Hw]. destruct a; cbn -[wrapping_add wrap exec_append] in He.
  - destruct (_ =? _); simplify_eq. constructor; cbn; auto.
  - destruct (appenders s !! i) as [[]|]; try done. destruct (_ =? _); simplify_eq. constructor; cbn; try done.
    by apply Forall_insert.
  - by eapply append_live.
  - destruct (appenders s !! i) as [[| |fr []| | |]|] eqn:Ei; try done. simplify_eq.
    constructor; cbn; [done|by destruct (fl s)|]. apply Forall_insert; [done|].
    destruct (proj1 (Forall_lookup _ _) Hw i _ Ei) as [Hin _].
    destruct (durable _ _) eqn:Ed; [done|]. by destruct (shutdown (shard s)).
  - destruct (appenders s !! i) as [[| |fr b| | |]|] eqn:Ei; try done. simplify_eq.
    constructor; cbn; [done|by destruct (fl s)|]. apply Forall_insert; [done|].
    by destruct (proj1 (Forall_lookup _ _) Hw i _ Ei) as [Hin _].
  - simplify_eq. constructor; cbn; [done|done|]. by eapply parked_notify.
  - destruct (fl s); try done. unfold flusher_pick in He. destruct (last_buffered (shard s)) as [t|] eqn:El.
    + destruct (durable t (shard s)) eqn:Ed; cbn in He; [destruct (shutdown (shard s)) eqn:Es|];
        simplify_eq/=; constructor; cbn; auto; congruence.
    + destruct (shutdown (shard s)) eqn:Es; simplify_eq/=. constructor; cbn; auto; congruence.
  - destruct (fl s) as [|t| |]; try done. simplify_eq. destruct ok; constructor; cbn; auto.
  - destruct (fl s) as [| |t ok|]; try done. simplify_eq. destruct ok; constructor; cbn; auto; by eapply parked_notify.
  - simplify_eq. constructor; cbn; auto.
  - simplify_eq. constructor; cbn; auto.
  - simplify_eq. constructor; cbn; [done|by destruct (fl s)|by eapply parked_notify].
Qed.

(** ** The steps an entry still needs *)

Definition rounds (x : Z) (s : wal) : nat :=
  if durable x (shard s) then 0
  else match fl s with
       | Publishing t true => if x <=? t then 1 else 4
       | Flushing t => if x <=? t then 2 else 5
       | Idle => 3
       | Publishing _ false => 4
       | Exited => 0
       end.

Lemma sorted_last_le l x : StronglySorted Z.lt l -> x ∈ l -> exists d, last l = Some d /\ x <= d.
Proof.
  induction l as [|d l _] using rev_ind; [by intros _ ?%elem_of_nil|]. intros Hs Hx. exists d. split; [apply last_snoc|].
  apply elem_of_app in Hx as [Hx| ->%list_elem_of_singleton]; [|lia].
  pose proof (StronglySorted_app_1_elem_of _ _ _ x d Hs Hx (list_elem_of_here _ _)). lia.
Qed.

(** Publishing a target that was not durable only adds to what is. *)
Lemma publish_durable t x sh :
  durable t sh = false -> durable x (publish t true sh) = durable x sh || (x <=? t).
Proof. unfold durable, publish. cbn. destruct (last_durable sh) as [d|]; intros Ht; zcases; cbn in *; try done; lia. Qed.

Lemma rounds_step cfg idx a s s' x :
  live_inv s -> in_order s -> x ∈ ids (log s) -> sync_ok a -> exec cfg idx a s = Some s' ->
  shutdown (shard s') = false ->
  (rounds x s' <= rounds x s - if flusher_act a then 1 else 0)%nat.
Proof.
  intros [Hb Ht _] Hord Hx Hok He Hsd. destruct a; cbn -[wrapping_add wrap exec_append] in He; cbn [flusher_act].
  - destruct (_ =? _); simplify_eq. unfold rounds. cbn. lia.
  - destruct (appenders s !! i) as [[]|]; try done. destruct (_ =? _); simplify_eq. unfold rounds. cbn. lia.
  - unfold exec_append in He. destruct (appenders s !! i) as [[|d fr| | | |]|]; try done.
    destruct (_ <? _); [simplify_eq; unfold rounds; cbn; lia|].
    destruct (append_locked cfg io fr (shard s)) as [sh r] eqn:E.
    destruct (append_locked_fields _ _ _ _ _ _ E) as (_ & Hld & _).
    destruct r; simplify_eq; unfold rounds, durable; cbn; rewrite Hld; lia.
  - destruct (appenders s !! i) as [[| |fr []| | |]|]; try done. simplify_eq; unfold rounds; cbn; lia.
  - destruct (appenders s !! i) as [[]|]; try done. simplify_eq; unfold rounds; cbn; lia.
  - simplify_eq; unfold rounds; cbn; lia.
  - destruct (fl s) eqn:Ef; try done. destruct (sorted_last_le _ _ Hord Hx) as (d & Hd & Hle).
    unfold flusher_pick in He. rewrite Hb, Hd in He. unfold rounds. rewrite Ef.
    destruct (durable d (shard s)) eqn:Ed; cbn in He.
    + destruct (shutdown (shard s)) eqn:Es; simplify_eq/=. congruence.
    + simplify_eq. cbn. destruct (durable x (shard s)); [lia|]. zcases; lia.
  - destruct (fl s) as [|t| |] eqn:Ef; try done. cbn in Hok. subst ok. simplify_eq. unfold rounds. rewrite Ef.
    change (durable x (shard _)) with (durable x (shard s)). destruct (durable x (shard s)); [lia|].
    cbn. zcases; lia.
  - destruct (fl s) as [| |t ok|] eqn:Ef; try done. simplify_eq. unfold rounds. rewrite Ef. cbn [shard set_flusher set_shard wake_all fl].
    destruct ok; [rewrite publish_durable by done|]; cbn; destruct (durable x (shard s)); cbn; zcases; lia.
  - simplify_eq. unfold rounds, durable. cbn. lia.
  - simplify_eq. unfold rounds, durable. cbn. lia.
  - by simplify_eq.
Qed.

(** ** Runs *)

Lemma exec_log cfg idx a s s' : exec cfg idx a s = Some s' -> log s `prefix_of` log s'.
Proof. intros He. destruct (step_shape _ _ _ _ _ He) as [_ [->|[fr ->]]]; [done|by eexists]. Qed.

Lemma in_order_prefix s s' : log s `prefix_of` log s' -> in_order s' -> in_order s.
Proof.
  intros [l Hl]. unfold in_order, ids. rewrite Hl, fmap_app. apply StronglySorted_app_1_l.
Qed.

Lemma exec_shutdown cfg idx a s s' :
  exec cfg idx a s = Some s' -> shutdown (shard s') = false -> shutdown (shard s) = false.
Proof.
  intros He Hs. destruct (shutdown (shard s)) eqn:E; [|done]. rewrite <- Hs. clear Hs.
  destruct a; cbn -[wrapping_add wrap] in He; unfold exec_append in He.
  - destruct (_ =? _); by simplify_eq.
  - destruct (appenders s !! i) as [[]|]; try done. destruct (_ =? _); by simplify_eq.
  - destruct (appenders s !! i) as [[|d fr| | | |]|]; try done. destruct (_ <? _); [by simplify_eq|].
    destruct (append_locked cfg io fr (shard s)) as [sh r] eqn:Ea.
    destruct (append_locked_fields _ _ _ _ _ _ Ea) as (Hsd & _). destruct r; simplify_eq; cbn; congruence.
  - destruct (appenders s !! i) as [[| |fr []| | |]|]; try done. by simplify_eq.
  - destruct (appenders s !! i) as [[]|]; try done. by simplify_eq.
  - by simplify_eq.
  - destruct (fl s), (flusher_pick (shard s)); by simplify_eq/=.
  - destruct (fl s); try done. destruct ok; by simplify_eq.
  - destruct (fl s) as [| |t []|]; by simplify_eq.
  - by simplify_eq.
  - by simplify_eq.
  - by simplify_eq.
Qed.

Lemma run_facts cfg idx acts s s' :
  exec_run (exec cfg idx) acts s = Some s' ->
  log s `prefix_of` log s' /\ (live_inv s -> live_inv s') /\
  (shutdown (shard s') = false -> shutdown (shard s) = false).
Proof.
  revert s. induction acts as [|a acts IH]; intros s Hr; cbn in Hr; [by injection Hr as <-|].
  destruct (exec cfg idx a s) as [s1|] eqn:E; [|done]. destruct (IH s1 Hr) as (Hl & Hi & Hd).
  split_and!; [etrans; [by eapply exec_log|done]|intros; by eapply Hi, exec_live|].
  intros Hs. eapply exec_shutdown; [done|]. by apply Hd.
Qed.

(** The entry needs one flusher step less for each that is taken. *)
Lemma rounds_run cfg idx acts s s' x :
  live_inv s -> in_order s' -> x ∈ ids (log s) -> Forall sync_ok acts ->
  exec_run (exec cfg idx) acts s = Some s' -> shutdown (shard s') = false ->
  (rounds x s' <= rounds x s - length (filter (fun a => flusher_act a = true) acts))%nat.
Proof.
  intros Hl Hord Hx Hok Hr Hsd. revert s Hl Hx Hr. induction Hok as [|a acts Ha _ IH]; intros s Hl Hx Hr; cbn in Hr.
  { injection Hr as <-. cbn. lia. }
  destruct (exec cfg idx a s) as [s1|] eqn:E; [|done]. destruct (run_facts _ _ _ _ _ Hr) as (Hp & _ & Hd).
  assert (Hx1 : x ∈ ids (log s1)).
  { destruct (exec_log _ _ _ _ _ E) as [l ->]. unfold ids. rewrite fmap_app. apply elem_of_app. by left. }
  specialize (IH s1 ltac:(by eapply exec_live) Hx1 Hr).
  pose proof (rounds_step cfg idx a s s1 x Hl) as Hs.
  specialize (Hs ltac:(eapply in_order_prefix; [|done]; etrans; [by eapply exec_log|done]) Hx Ha E (Hd Hsd)).
  rewrite filter_cons. destruct (flusher_act a); [rewrite decide_True by done|rewrite decide_False by done]; cbn [length]; lia.
Qed.

(** A waiting caller stays where it is until it is acknowledged. *)
Definition waits_or_acked (fr : ParsedFrame) (o : option appender) : Prop :=
  (exists b, o = Some (AppWaiting fr b)) \/ o = Some (AppAcked fr).

Lemma waits_notify fr l i : waits_or_acked fr (l !! i) -> waits_or_acked fr (notify_all l !! i).
Proof. rewrite lookup_notify_all. intros [[b ->]| ->]; [left; by eexists|by right]. Qed.

Lemma exec_waiting cfg idx a s s' i fr :
  exec cfg idx a s = Some s' -> shutdown (shard s') = false ->
  waits_or_acked fr (appenders s !! i) -> waits_or_acked fr (appenders s' !! i).
Proof.
  intros He Hsd Hi. pose proof (exec_shutdown _ _ _ _ _ He Hsd) as Hs0. clear Hsd.
  assert (Hother : forall (l : list appender) j b, ~ waits_or_acked fr (appenders s !! j) -> waits_or_acked fr (l !! i) ->
    waits_or_acked fr (<[j := b]> l !! i)).
  { intros l j b Hj Hl. rewrite list_lookup_insert_ne; [done|]. by intros ->. }
  assert (Hno : forall a, (forall b, a <> AppWaiting fr b) -> a <> AppAcked fr -> ~ waits_or_acked fr (Some a))
    by (intros x H1 H2 [[b [= ->]]|[= ->]]; naive_solver).
  destruct a; cbn -[wrapping_add wrap] in He; unfold exec_append in He;
    try by (simplify_eq; cbn; auto using waits_notify).
  - by destruct (_ =? _); simplify_eq.
  - destruct (appenders s !! i0) as [[]|] eqn:E0; try done. destruct (_ =? _); simplify_eq. apply Hother; [|done].
    rewrite E0. by apply Hno.
  - destruct (appenders s !! i0) as [[|d f| | | |]|] eqn:E0; try done.
    destruct (_ <? _); [|destruct (append_locked _ _ _ _) as [sh [[]|e]]]; simplify_eq;
      (apply Hother; [rewrite E0; by apply Hno|]); try done.
    destruct (need_immediate_flush _ _ _); auto using waits_notify.
  - destruct (appenders s !! i0) as [[| |f []| | |]|] eqn:E0; try done. rewrite Hs0 in He. simplify_eq.
    cbn. destruct (decide (i0 = i)) as [->|Hne]; [|by rewrite list_lookup_insert_ne].
    rewrite list_lookup_insert_eq by (by eapply lookup_lt_Some).
    rewrite E0 in Hi. destruct Hi as [[b [= <- <-]]|]; [|done]. destruct (durable _ _); [by right|left; by eexists].
  - destruct (appenders s !! i0) as [[| |f b| | |]|] eqn:E0; try done. simplify_eq.
    cbn. destruct (decide (i0 = i)) as [->|Hne]; [|by rewrite list_lookup_insert_ne].
    rewrite list_lookup_insert_eq by (by eapply lookup_lt_Some).
    rewrite E0 in Hi. destruct Hi as [[b' [= <- <-]]|]; [|done]. left; by eexists.
  - by destruct (fl s), (flusher_pick (shard s)); simplify_eq/=.
  - by destruct (fl s); simplify_eq.
  - destruct (fl s); simplify_eq. cbn. by apply waits_notify.
Qed.

Lemma run_waiting cfg idx acts s s' i fr :
  exec_run (exec cfg idx) acts s = Some s' -> shutdown (shard s') = false ->
  waits_or_acked fr (appenders s !! i) -> waits_or_acked fr (appenders s' !! i).
Proof.
  revert s. induction acts as [|a acts IH]; intros s Hr Hsd Hi; cbn in Hr; [by injection Hr as <-|].
  destruct (exec cfg idx a s) as [s1|] eqn:E; [|done]. destruct (run_facts _ _ _ _ _ Hr) as (_ & _ & Hd).
  apply (IH s1 Hr Hsd). eapply exec_waiting; eauto.
Qed.

(** ** Progress *)

Lemma durable_of_rounds x s : fl s <> Exited -> rounds x s = 0%nat -> durable x (shard s) = true.
Proof. unfold rounds. destruct (durable x (shard s)); [done|]. destruct (fl s) as [|t|t []|]; zcases; try done. Qed.

Lemma rounds_le x s : (rounds x s <= 5)%nat.
Proof. unfold rounds. destruct (durable x (shard s)); [lia|]. destruct (fl s) as [|t|t []|]; zcases; lia. Qed.

(** A flusher that has not exited has something to do while an entry is not durable. *)
Lemma flusher_enabled cfg idx s x :
  live_inv s -> in_order s -> x ∈ ids (log s) -> shutdown (shard s) = false -> durable x (shard s) = false ->
  exists a, flusher_act a = true /\ sync_ok a /\ is_Some (exec cfg idx a s).
Proof.
  intros [Hb Ht _] Hord Hx Hsd Hnd. destruct (fl s) as [|t|t ok|] eqn:Ef; [| | |congruence].
  - exists Pick. split_and!; [done|done|]. cbn. rewrite Ef. unfold flusher_pick.
    destruct (sorted_last_le _ _ Hord Hx) as (d & Hd & Hle). rewrite Hb, Hd.
    assert (durable d (shard s) = false) as ->; [|by eexists].
    unfold durable in *. destruct (last_durable (shard s)); [|done]. zcases; cbn in *; try done; lia.
  - exists (Flush true). split_and!; [done|done|]. cbn. rewrite Ef. by eexists.
  - exists Publish. split_and!; [done|done|]. cbn. rewrite Ef. by eexists.
Qed.

(** [C6] Liveness of the group commit.  Take any state the log can reach, I/O errors included, in
    which a synchronous [append] waits on the condition variable, and any continuation, of
    other appenders, of the kernel, of other shards, in which no sync fails, no shutdown was
    called and the entries reached the shard in the order of their ids.  As long as the entry
    is not durable the flusher has a step to take; and once it has taken five steps the call
    has been acknowledged, or it has been notified and its own next step acknowledges it.  No
    wakeup is lost, and none has to be spurious. *)
Theorem group_commit_progress cfg idx calls before s acts s' i fr b :
  exec_run (exec cfg idx) before (start calls) = Some s ->
  appenders s !! i = Some (AppWaiting fr b) ->
  exec_run (exec cfg idx) acts s = Some s' -> Forall sync_ok acts ->
  in_order s' -> shutdown (shard s') = false ->
  (durable (entry_id fr) (shard s') = false ->
   exists a, flusher_act a = true /\ sync_ok a /\ is_Some (exec cfg idx a s')) /\
  ((5 <= length (filter (fun a => flusher_act a = true) acts))%nat ->
   appenders s' !! i = Some (AppAcked fr) \/
   (appenders s' !! i = Some (AppWaiting fr true) /\
    exec cfg idx (Wake i) s' = Some (set_appender i (AppAcked fr) s'))).
Proof.
  intros Hbefore Hi Hr Hok Hord Hsd.
  assert (Hl : live_inv s) by (by eapply run_facts, start_live).
  destruct (run_facts _ _ _ _ _ Hr) as (Hp & Hl' & _). specialize (Hl' Hl).
  assert (Hx : entry_id fr ∈ ids (log s)).
  { apply list_elem_of_fmap_2. by destruct (proj1 (Forall_lookup _ _) (li_callers _ Hl) i _ Hi). }
  assert (Hx' : entry_id fr ∈ ids (log s')).
  { destruct Hp as [l ->]. unfold ids. rewrite fmap_app. apply elem_of_app. by left. }
  split; [intros Hnd; by eapply flusher_enabled|]. intros Hfive.
  destruct (run_waiting cfg idx acts s s' i fr Hr Hsd) as [[b' Hw]|]; [left; by eexists|right|by left].
  assert (Hd : durable (entry_id fr) (shard s') = true).
  { apply durable_of_rounds.
    - intros He. destruct Hl' as [_ Ht _]. rewrite He in Ht. congruence.
    - pose proof (rounds_run cfg idx acts s s' (entry_id fr) Hl Hord Hx Hok Hr Hsd).
      pose proof (rounds_le (entry_id fr) s). lia. }
  destruct (proj1 (Forall_lookup _ _) (li_callers _ Hl') i _ Hw) as [_ Hpark].
  destruct b'; [|by rewrite Hpark in Hd]. split; [done|]. cbn. by rewrite Hw, Hd.
Qed.

(** ** Out of order *)

(** Two callers: the second to take its id is the first to take the lock. *)
Definition overtaken_run : list action :=
  [FetchAdd 0; FetchAdd 1; Append 1 io_ok; Append 0 io_ok; Pick; Flush true; Publish].

Definition first_frame : ParsedFrame := mkFrame 1 0 1 0 (bstr "a").
Definition second_frame : ParsedFrame := mkFrame 2 0 1 0 (bstr "b").

(** Nothing but bytes moves any more. *)
Record starved (s : wal) : Prop := {
  sv_callers : exists a b, appenders s = [a; AppWaiting second_frame b] /\ waits_or_acked first_frame (Some a);
  sv_flusher : fl s = Idle;
  sv_buffered : last_buffered (shard s) = Some 1;
  sv_durable : last_durable (shard s) = Some 1;
  sv_open : shutdown (shard s) = false;
}.

Lemma starved_exec cfg idx a s s' : a <> Shutdown -> exec cfg idx a s = Some s' -> starved s -> starved s'.
Proof.
  intros Ha He [(a0 & b0 & Happ & Ha0) Hfl Hb Hd Ho].
  assert (Hc : forall i x, appenders s !! i = Some x ->
    waits_or_acked first_frame (Some x) \/ exists b, x = AppWaiting second_frame b).
  { intros [|[|i]] x Hx; rewrite Happ in Hx; cbn in Hx; simplify_eq; [by left|right; by eexists]. }
  destruct a; cbn -[wrapping_add wrap] in He; unfold exec_append in He.
  - destruct (_ =? _); simplify_eq. constructor; try done. by exists a0, b0.
  - destruct (appenders s !! i) as [x|] eqn:Ei; [|done]. destruct (Hc i x Ei) as [[[? [= ->]]|[= ->]]|[? ->]]; done.
  - destruct (appenders s !! i) as [x|] eqn:Ei; [|done]. destruct (Hc i x Ei) as [[[? [= ->]]|[= ->]]|[? ->]]; done.
  - destruct i as [|[|i]]; rewrite Happ in He; cbn in He; [| |done].
    + destruct Ha0 as [[b [= ->]]|[= ->]]; [|done]. destruct b; [|done]. rewrite Ho in He. simplify_eq.
      constructor; try done. cbn. rewrite Happ. eexists _, _. split; [done|]. destruct (durable _ _); [by right|left; by eexists].
    + destruct b0; [|done]. unfold durable in He. rewrite Hd, Ho in He. cbn in He. simplify_eq. constructor; try done.
      cbn. rewrite Happ. by eexists _, _.
  - destruct i as [|[|i]]; rewrite Happ in He; cbn in He; [| |done].
    + destruct Ha0 as [[b [= ->]]|[= ->]]; [|done]. simplify_eq. constructor; try done. cbn. rewrite Happ.
      eexists _, _. split; [done|]. left; by eexists.
    + simplify_eq. constructor; try done. cbn. rewrite Happ. by eexists _, _.
  - simplify_eq. constructor; try done. cbn. rewrite Happ. eexists _, _. split; [done|].
    destruct Ha0 as [[b [= ->]]|[= ->]]; [left; by eexists|by right].
  - rewrite Hfl in He. unfold flusher_pick in He. rewrite Hb in He. unfold durable in He. rewrite Hd, Ho in He. by cbn in He.
  - by rewrite Hfl in He.
  - by rewrite Hfl in He.
  - simplify_eq. constructor; try done. by exists a0, b0.
  - simplify_eq. constructor; try done. by exists a0, b0.
  - done.
Qed.

Lemma starved_run cfg idx acts s s' :
  Shutdown ∉ acts -> exec_run (exec cfg idx) acts s = Some s' -> starved s -> starved s'.
Proof.
  revert s. induction acts as [|a acts IH]; intros s Hns Hr Hs; cbn in Hr; [by injection Hr as <-|].
  apply not_elem_of_cons in Hns as [Ha Hns]. destruct (exec cfg idx a s) as [s1|] eqn:E; [|done].
  eapply IH; [done|done|]. by eapply starved_exec.
Qed.

(** [last_buffered] is set to the id of whoever wrote last, which may be lower than what it
    was.  The flusher takes it for its target, makes everything durable and publishes the
    lower id: the caller with the higher one, whose entry is on disk, goes on waiting, and
    whatever happens next, short of another append or a shutdown, it still waits. *)
Theorem overtaken_append_starves :
  exists s fr, rtc (step FileWalConfig_default 0) (start [(FdataSync, 0, bstr "a"); (FdataSync, 0, bstr "b")]) s /\
    (exists b, appenders s !! 1%nat = Some (AppWaiting fr b)) /\
    (exists seg, files (shard s) !! 0 = Some seg /\ Ok fr ∈ try_parse_frames (take (synced seg) (os seg))) /\
    forall acts s', Shutdown ∉ acts -> exec_run (exec FileWalConfig_default 0) acts s = Some s' ->
      exists b, appenders s' !! 1%nat = Some (AppWaiting fr b).
Proof.
  destruct (exec_run (exec FileWalConfig_default 0) overtaken_run
    (start [(FdataSync, 0, bstr "a"); (FdataSync, 0, bstr "b")])) as [s|] eqn:E; [|by vm_compute in E].
  exists s, second_frame. split; [apply (exec_run_steps _ _ overtaken_run); [by repeat constructor|done]|].
  vm_compute in E. injection E as <-. split; [by eexists|].
  split; [eexists; split; [by vm_compute|]; vm_compute; apply list_elem_of_here|].
  intros acts s' Hns Hr. destruct (starved_run _ _ _ _ _ Hns Hr) as [(a & b & Ha & _) _ _ _ _]; [|exists b; by rewrite Ha].
  constructor; try done. eexists _, _. split; [done|left; by eexists].
Qed.

(** ** A run: the second caller arrives while the flusher is busy with the first *)

Definition pair_calls : list (Durability * Z * list byte) := [(FdataSync, 7, bstr "abc"); (Fsync, 8, bstr "def")].
Definition busy : option wal :=
  exec_run (exec demo_config 0) [FetchAdd 0; Append 0 io_ok; Pick; FetchAdd 1; Append 1 io_ok] (start pair_calls).
Definition two_rounds : list action := [Flush true; Publish; Wake 0; Pick; Flush true; Publish].

Lemma group_commit_progress_witness :
  exists s s', busy = Some s /\ exec_run (exec demo_config 0) two_rounds s = Some s' /\
    let fr := mkFrame 2 8 2 0 (bstr "def") in
    appenders s' !! 1%nat = Some (AppAcked fr) \/
    (appenders s' !! 1%nat = Some (AppWaiting fr true) /\
     exec demo_config 0 (Wake 1) s' = Some (set_appender 1 (AppAcked fr) s')).
Proof.
  destruct busy as [s|] eqn:E; [|by vm_compute in E].
  destruct (exec_run (exec demo_config 0) two_rounds s) as [s'|] eqn:E'.
  2: { vm_compute in E. injection E as <-. by vm_compute in E'. }
  exists s, s'. split; [done|]. split; [exact E'|].
  apply (group_commit_progress demo_config 0 pair_calls
    [FetchAdd 0; Append 0 io_ok; Pick; FetchAdd 1; Append 1 io_ok] s two_rounds s' 1 _ false); [exact E| |exact E'|by repeat constructor| | |].
  all: vm_compute in E; injection E as <-; vm_compute in E'; injection E' as <-.
  - done.
  - repeat constructor.
  - done.
  - vm_compute. lia.
Defined.
