(* ===== verification/Scheduler.v ===== *)
(** * Scheduler: the sharded queue and the per-shard workers of [riftgate/src/scheduler.rs]

    The bounded channel of [crossbeam_channel] is the interface [Channel]: a FIFO of
    bounded capacity.  [ShardedMpmcQueue] is modelled call by call; then the scheduler is
    a machine of atomic actions (one attempt on one shard, one turn of a worker) so that
    submission, execution and shutdown interleave freely. *)

From S2P Require Import Prelude.

(** ** What the channel promises *)

Class Channel (Q A : Type) := {
  chan_bounded : nat -> Q;
  try_send : A -> Q -> result unit A * Q;
  try_recv : Q -> option A * Q;
  chan_len : Q -> nat;
  (** the specification: contents and capacity *)
  items : Q -> list A;
  capacity : Q -> nat;
  bounded_spec : forall n, items (chan_bounded n) = [] /\ capacity (chan_bounded n) = n;
  send_room : forall x q, (length (items q) < capacity q)%nat ->
    fst (try_send x q) = Ok tt /\ items (snd (try_send x q)) = items q ++ [x] /\
    capacity (snd (try_send x q)) = capacity q;
  send_full : forall x q, (capacity q <= length (items q))%nat -> try_send x q = (Err x, q);
  recv_empty : forall q, items q = [] -> try_recv q = (None, q);
  recv_head : forall q x l, items q = x :: l ->
    fst (try_recv q) = Some x /\ items (snd (try_recv q)) = l /\
    capacity (snd (try_recv q)) = capacity q;
  len_spec : forall q, chan_len q = length (items q);
}.

(** A list with a capacity is such a channel. *)
Record list_chan (A : Type) := mkChan { lc_cap : nat; lc_items : list A }.
Arguments mkChan {A}.
Arguments lc_cap {A}.
Arguments lc_items {A}.

#[global] Instance list_channel (A : Type) : Channel (list_chan A) A.
Proof.
  refine {|
    chan_bounded := fun n => mkChan n [];
    try_send := fun x q =>
      if decide (length (lc_items q) < lc_cap q)%nat
      then (Ok tt, mkChan (lc_cap q) (lc_items q ++ [x])) else (Err x, q);
    try_recv := fun q =>
      match lc_items q with [] => (None, q) | x :: l => (Some x, mkChan (lc_cap q) l) end;
    chan_len := fun q => length (lc_items q);
    items := lc_items;
    capacity := lc_cap;
  |}.
  - done.
  - intros x q Hq. by rewrite decide_True.
  - intros x q Hq. by rewrite decide_False by lia.
  - intros q Hq. by rewrite Hq.
  - intros q x l Hq. by rewrite Hq.
  - done.
Defined.

Section sharded.
Context {Q A : Type} `{Channel Q A}.

(** ** [MpmcQueue] *)

Definition push_inner (x : A) (q : Q) : result unit A * Q :=
  match try_send x q with
  | (Ok _, q) => (Ok tt, q)
  | (Err x, q) => (Err x, q)
  end.
Definition pop_inner (q : Q) : option A * Q := try_recv q.
Definition len_inner (q : Q) : nat := chan_len q.

(** ** [ShardedMpmcQueue] *)

Record ShardedMpmcQueue := mkSharded { shards : list Q; cursor : Z }.

(** [new] panics ([None]) without a shard or without capacity. *)
Definition sharded_new (n cap : nat) : option ShardedMpmcQueue :=
  if decide (n = 0%nat) then None
  else if decide (cap = 0%nat) then None
  else Some (mkSharded (replicate n (chan_bounded cap)) 0).

Definition shard_count (s : ShardedMpmcQueue) : nat := length (shards s).

(** [pop_from]: [None] is also the model of the index panic, which no caller reaches. *)
Definition pop_from (i : nat) (s : ShardedMpmcQueue) : option A * ShardedMpmcQueue :=
  match shards s !! i with
  | Some q => let '(r, q) := pop_inner q in (r, mkSharded (<[i := q]> (shards s)) (cursor s))
  | None => (None, s)
  end.

(** The loop of [push] over the offsets that are left. *)
Fixpoint push_loop (x : A) (targets : list nat) (qs : list Q) : result unit A * list Q :=
  match targets with
  | [] => (Err x, qs)
  | t :: targets =>
      match qs !! t with
      | Some q =>
          match push_inner x q with
          | (Ok _, q) => (Ok tt, <[t := q]> qs)
          | (Err x, q) => push_loop x targets (<[t := q]> qs)
          end
      | None => (Err x, qs)
      end
  end.

Definition targets (n start : nat) : list nat := (fun off => (start + off) mod n)%nat <$> seq 0 n.

Definition push (x : A) (s : ShardedMpmcQueue) : result unit A * ShardedMpmcQueue :=
  let n := length (shards s) in
  let start := Z.to_nat (cursor s mod Z.of_nat n) in
  let '(r, qs) := push_loop x (targets n start) (shards s) in
  (r, mkSharded qs (wrapping_add 64 (cursor s) 1)).

(** The scan of [pop_or_steal] and of the trait's [pop]. *)
Fixpoint pop_scan (order : list nat) (s : ShardedMpmcQueue) : option A * ShardedMpmcQueue :=
  match order with
  | [] => (None, s)
  | i :: order =>
      match pop_from i s with
      | (Some x, s) => (Some x, s)
      | (None, s) => pop_scan order s
      end
  end.

Definition pop_or_steal (i : nat) (s : ShardedMpmcQueue) : option A * ShardedMpmcQueue :=
  match pop_from i s with
  | (Some x, s) => (Some x, s)
  | (None, s) =>
      let n := length (shards s) in
      pop_scan ((fun off => (i + off) mod n)%nat <$> seq 1 (n - 1)) s
  end.

Definition pop (s : ShardedMpmcQueue) : option A * ShardedMpmcQueue :=
  pop_scan (seq 0 (length (shards s))) s.

Definition len (s : ShardedMpmcQueue) : nat := list_sum (len_inner <$> shards s).

(** ** One call at a time *)

Definition has_room (q : Q) : Prop := (length (items q) < capacity q)%nat.
#[global] Instance has_room_dec q : Decision (has_room q) := decide (length (items q) < capacity q)%nat.

Lemma push_inner_room x q :
  has_room q -> fst (push_inner x q) = Ok tt /\ items (snd (push_inner x q)) = items q ++ [x] /\
    capacity (snd (push_inner x q)) = capacity q.
Proof.
  intros Hr. destruct (send_room x q Hr) as (Hf & Hi & Hc). unfold push_inner.
  destruct (try_send x q) as [[u|e] q']; cbn in *; by simplify_eq.
Qed.

Lemma push_inner_full x q : ~ has_room q -> push_inner x q = (Err x, q).
Proof. intros Hr. unfold push_inner, has_room in *. rewrite send_full by lia. done. Qed.

(** The loop puts the item at the end of the first target with room, and touches nothing
    else; if no target has room it returns the item. *)
Lemma push_loop_spec x ts qs :
  Forall (fun t => (t < length qs)%nat) ts ->
  (exists ts1 t ts2 q, ts = ts1 ++ t :: ts2 /\ qs !! t = Some q /\ has_room q /\
     Forall (fun t => exists q, qs !! t = Some q /\ ~ has_room q) ts1 /\
     push_loop x ts qs = (Ok tt, <[t := snd (push_inner x q)]> qs)) \/
  (Forall (fun t => exists q, qs !! t = Some q /\ ~ has_room q) ts /\
     push_loop x ts qs = (Err x, qs)).
Proof.
  intros Hts. induction Hts as [|t ts Ht Hts IH]; [right; by split|].
  apply lookup_lt_is_Some_2 in Ht as [q Hq]. cbn [push_loop]. rewrite Hq.
  destruct (decide (has_room q)) as [Hr|Hr].
  - left. exists [], t, ts, q. destruct (push_inner_room x q Hr) as (Hok & _ & _).
    split_and!; [done..|]. destruct (push_inner x q) as [[u|e] q']; cbn in *; by simplify_eq.
  - rewrite push_inner_full, list_insert_id by done.
    destruct IH as [(ts1 & t' & ts2 & q' & -> & Hq' & Hr' & Hts1 & Heq)|[Hall Heq]].
    + left. exists (t :: ts1), t', ts2, q'. split_and!; [done..| |done]. constructor; eauto.
    + right. split; [|done]. constructor; eauto.
Qed.

Lemma targets_lookup n start k : (k < n)%nat -> targets n start !! k = Some ((start + k) mod n)%nat.
Proof. intros Hk. unfold targets. by rewrite list_lookup_fmap, lookup_seq_lt. Qed.

Lemma targets_in_range n start : (0 < n)%nat -> Forall (fun t => (t < n)%nat) (targets n start).
Proof.
  intros Hn. apply Forall_fmap, Forall_true. intros off. cbn. apply Nat.mod_upper_bound. lia.
Qed.

(** The shard a push starts from. *)
Definition start_of (s : ShardedMpmcQueue) : nat :=
  Z.to_nat (cursor s mod Z.of_nat (length (shards s))).

Lemma push_outcome x s :
  shards s <> [] ->
  (exists k t q, (k < length (shards s))%nat /\ t = ((start_of s + k) mod length (shards s))%nat /\
     shards s !! t = Some q /\ has_room q /\
     (forall j, (j < k)%nat -> exists q', shards s !! ((start_of s + j) mod length (shards s))%nat = Some q'
        /\ ~ has_room q') /\
     push x s = (Ok tt, mkSharded (<[t := snd (push_inner x q)]> (shards s)) (wrapping_add 64 (cursor s) 1))) \/
  (Forall (fun q => ~ has_room q) (shards s) /\
     push x s = (Err x, mkSharded (shards s) (wrapping_add 64 (cursor s) 1))).
Proof.
  intros Hne. assert (Hn : (0 < length (shards s))%nat) by (destruct (shards s); cbn; [done|lia]).
  pose proof (targets_in_range (length (shards s)) (start_of s) Hn) as Hts.
  unfold push. fold (start_of s).
  destruct (push_loop_spec x _ (shards s) Hts) as [(ts1 & t & ts2 & q & Heq & Hq & Hr & Hfull & ->)|[Hall ->]].
  - left. exists (length ts1), t, q.
    assert (Hk : (length ts1 < length (shards s))%nat).
    { apply (f_equal length) in Heq. unfold targets in Heq.
      rewrite length_fmap, length_seq, length_app in Heq. cbn in Heq. lia. }
    pose proof (targets_lookup _ (start_of s) _ Hk) as Ht.
    rewrite Heq, list_lookup_middle in Ht by done. injection Ht as ->.
    split_and!; try done. intros j Hj. rewrite Forall_lookup in Hfull. apply (Hfull j).
    pose proof (targets_lookup (length (shards s)) (start_of s) j ltac:(lia)) as Hl.
    by rewrite Heq, lookup_app_l in Hl.
  - right. split; [|done]. apply Forall_lookup. intros t q Hq.
    pose proof (lookup_lt_Some _ _ _ Hq) as Hlt. rewrite Forall_forall in Hall.
    destruct (Hall t (cyclic_cover _ (start_of s) t Hlt)) as (q' & Hq' & Hfull). congruence.
Qed.

(** The fan-out of [push]: it fails exactly when every shard is full, and then
    returns the item and changes no shard; otherwise the item goes to the end of the
    first shard with room in cyclic order from the cursor, and no other shard changes. *)
Theorem push_spec x s :
  shards s <> [] ->
  (fst (push x s) = Err x /\ shards (snd (push x s)) = shards s /\
     Forall (fun q => ~ has_room q) (shards s)) \/
  (fst (push x s) = Ok tt /\ exists k q q',
     let t := ((start_of s + k) mod length (shards s))%nat in
     (k < length (shards s))%nat /\ shards s !! t = Some q /\ has_room q /\
     (forall j, (j < k)%nat -> exists q0,
        shards s !! ((start_of s + j) mod length (shards s))%nat = Some q0 /\ ~ has_room q0) /\
     shards (snd (push x s)) = <[t := q']> (shards s) /\ items q' = items q ++ [x] /\
     capacity q' = capacity q).
Proof.
  intros Hne. destruct (push_outcome x s Hne)
    as [(k & t & q & Hk & -> & Hq & Hr & Hfull & ->)|[Hall ->]]; [right|left; by split_and!].
  split; [done|]. exists k, q, (snd (push_inner x q)). cbv zeta.
  destruct (push_inner_room x q Hr) as (_ & ? & ?). by split_and!.
Qed.

(** ** Popping *)

Lemma pop_from_spec i s q :
  shards s !! i = Some q ->
  (items q = [] /\ pop_from i s = (None, s)) \/
  (exists x l q', items q = x :: l /\ items q' = l /\ capacity q' = capacity q /\
     pop_from i s = (Some x, mkSharded (<[i := q']> (shards s)) (cursor s))).
Proof.
  intros Hq. unfold pop_from, pop_inner. rewrite Hq. destruct (items q) as [|x l] eqn:E.
  - left. rewrite recv_empty by done. rewrite list_insert_id by done. by destruct s.
  - right. destruct (recv_head q x l E) as (H1 & H2 & H3).
    exists x, l, (snd (try_recv q)). destruct (try_recv q) as [r q']; cbn in *. by subst.
Qed.

Definition shard_empty (s : ShardedMpmcQueue) (i : nat) : Prop :=
  exists q, shards s !! i = Some q /\ items q = [].

Lemma pop_scan_spec order s :
  Forall (fun i => (i < length (shards s))%nat) order ->
  (Forall (shard_empty s) order /\ pop_scan order s = (None, s)) \/
  (exists pre i post q q' x, order = pre ++ i :: post /\ Forall (shard_empty s) pre /\
     shards s !! i = Some q /\ items q = x :: items q' /\ capacity q' = capacity q /\
     pop_scan order s = (Some x, mkSharded (<[i := q']> (shards s)) (cursor s))).
Proof.
  intros Ho. induction Ho as [|i order Hi Ho IH]; [left; by split|]. cbn [pop_scan].
  apply lookup_lt_is_Some_2 in Hi as [q Hq].
  destruct (pop_from_spec i s q Hq) as [[He ->]|(x & l & q' & Hx & Hl & Hc & ->)].
  - destruct IH as [[Hall ->]|(pre & j & post & q1 & q2 & x & -> & Hpre & Hq1 & Hx & Hc & ->)].
    + left. split; [|done]. constructor; [by exists q|done].
    + right. exists (i :: pre), j, post, q1, q2, x. split_and!; try done.
      constructor; [by exists q|done].
  - right. exists [], i, order, q, q', x. split_and!; try done. by rewrite Hx, Hl.
Qed.

(** Stealing is complete and safe: [pop_or_steal] returns [None] only when every shard
    is empty, and otherwise removes exactly the head of one shard, the owned one whenever
    it is not empty. *)
Theorem pop_or_steal_spec i s :
  (i < length (shards s))%nat ->
  (fst (pop_or_steal i s) = None /\ snd (pop_or_steal i s) = s /\
     forall j, (j < length (shards s))%nat -> shard_empty s j) \/
  (exists j q q' x, fst (pop_or_steal i s) = Some x /\ shards s !! j = Some q /\
     items q = x :: items q' /\ shards (snd (pop_or_steal i s)) = <[j := q']> (shards s) /\
     (j <> i -> shard_empty s i)).
Proof.
  intros Hi. pose proof (lookup_lt_is_Some_2 _ _ Hi) as [q Hq]. unfold pop_or_steal.
  destruct (pop_from_spec i s q Hq) as [[He ->]|(x & l & q' & Hx & Hl & Hc & ->)].
  2: { right. exists i, q, q', x. cbn. split_and!; try done. by rewrite Hx, Hl. }
  assert (Hei : shard_empty s i) by by exists q.
  destruct (pop_scan_spec ((fun off => (i + off) mod length (shards s))%nat <$> seq 1 (length (shards s) - 1)) s)
    as [[Hall ->]|(pre & j & post & q1 & q2 & x & _ & _ & Hq1 & Hx & _ & ->)].
  - apply Forall_fmap, Forall_true. intros off. cbn. apply Nat.mod_upper_bound. lia.
  - left. split_and!; try done. intros j Hj.
    pose proof (cyclic_cover (length (shards s)) i j Hj) as (off & -> & Hoff)%list_elem_of_fmap.
    apply elem_of_seq in Hoff. destruct (decide (off = 0%nat)) as [->|Hne].
    + by rewrite Nat.add_0_r, Nat.mod_small.
    + rewrite Forall_forall in Hall. apply Hall, list_elem_of_fmap. exists off. split; [done|].
      apply elem_of_seq. lia.
  - right. exists j, q1, q2, x. cbn. by split_and!.
Qed.
End sharded.

Lemma push_spec_witness :
  let s := mkSharded [mkChan 1 [7]; mkChan 1 [8]; mkChan 2 [9]] 4 in
  fst (push 5 s) = Ok tt /\ lc_items <$> shards (snd (push 5 s)) = [[7]; [8]; [9; 5]].
Proof.
  intros s. destruct (push_spec 5 s ltac:(done)) as [(Herr & _)|(Hok & _)].
  - by vm_compute in Herr.
  - split; [exact Hok|]. by vm_compute.
Defined.

Lemma pop_or_steal_spec_witness :
  let s := mkSharded [mkChan 1 [7]; mkChan 1 []; mkChan 2 [9]] 0 in
  fst (pop_or_steal 1 s) = Some 9.
Proof.
  intros s. destruct (pop_or_steal_spec 1 s ltac:(cbn; lia)) as [(Hn & _)|(j & q & q' & x & Hx & _)].
  - by vm_compute in Hn.
  - rewrite Hx. vm_compute in Hx. congruence.
Defined.

(** ** [PerShardScheduler] as a machine

    A task is an opaque value of [A]; [executed] and [accepted] are the histories, shard
    by shard, of the tasks that ran and of the pushes that succeeded, and [early] is what
    was accepted before [shutdown] was called. *)

Section scheduler.
Context {Q A : Type} `{Channel Q A}.

Inductive producer :=
| Submitting (x : A)
| Trying (x : A) (start offset : nat)
| Accepted (x : A) (shard : nat)
| Dropped (x : A).

(** The phases of [worker_loop]: the pop at its head, the test of the flag, the drain. *)
Inductive worker := AtPop | AtShutdownTest | AtDrain | Exited.

#[global] Instance worker_eq_dec : EqDecision worker.
Proof. solve_decision. Defined.

Record sched := mkSched {
  queue : ShardedMpmcQueue (Q := Q);
  stop : bool;
  producers : list producer;
  workers : list worker;
  executed : list (list A);
  accepted : list (list A);
  early : list (list A);
}.

Inductive action := Fetch (i : nat) | Try (i : nat) | Work (w : nat) | ShutdownCall.

Definition add_at (i : nat) (x : A) (ls : list (list A)) : list (list A) :=
  alter (fun l => l ++ [x]) i ls.

(** One push attempt on one shard. *)
Definition exec_try (i : nat) (s : sched) : option sched :=
  match producers s !! i with
  | Some (Trying x start offset) =>
      let n := length (shards (queue s)) in
      if decide (offset < n)%nat then
        let t := ((start + offset) mod n)%nat in
        q ← shards (queue s) !! t;
        Some (match push_inner x q with
              | (Ok _, q') =>
                  mkSched (mkSharded (<[t := q']> (shards (queue s))) (cursor (queue s))) (stop s)
                    (<[i := Accepted x t]> (producers s)) (workers s) (executed s)
                    (add_at t x (accepted s)) (early s)
              | (Err x, q') =>
                  mkSched (mkSharded (<[t := q']> (shards (queue s))) (cursor (queue s))) (stop s)
                    (<[i := Trying x start (S offset)]> (producers s)) (workers s) (executed s)
                    (accepted s) (early s)
              end)
      else Some (mkSched (queue s) (stop s) (<[i := Dropped x]> (producers s)) (workers s)
                   (executed s) (accepted s) (early s))
  | _ => None
  end.

Definition set_worker (w : nat) (p : worker) (s : sched) : sched :=
  mkSched (queue s) (stop s) (producers s) (<[w := p]> (workers s)) (executed s) (accepted s) (early s).

(** [pop_from] and run the task, or go on to the phase [p]. *)
Definition pop_or (w : nat) (p : worker) (s : sched) : sched :=
  match pop_from w (queue s) with
  | (Some x, q) => mkSched q (stop s) (producers s) (workers s) (add_at w x (executed s)) (accepted s) (early s)
  | (None, q) =>
      set_worker w p (mkSched q (stop s) (producers s) (workers s) (executed s) (accepted s) (early s))
  end.

Definition exec_work (w : nat) (s : sched) : option sched :=
  match workers s !! w with
  | Some AtPop => Some (pop_or w AtShutdownTest s)
  | Some AtShutdownTest => Some (set_worker w (if stop s then AtDrain else AtPop) s)
  | Some AtDrain => Some (pop_or w Exited s)
  | _ => None
  end.

Definition exec (a : action) (s : sched) : option sched :=
  match a with
  | Fetch i =>
      match producers s !! i with
      | Some (Submitting x) =>
          Some (mkSched (mkSharded (shards (queue s)) (wrapping_add 64 (cursor (queue s)) 1)) (stop s)
            (<[i := Trying x (start_of (queue s)) 0]> (producers s)) (workers s) (executed s)
            (accepted s) (early s))
      | _ => None
      end
  | Try i => exec_try i s
  | Work w => exec_work w s
  | ShutdownCall =>
      Some (mkSched (queue s) true (producers s) (workers s) (executed s) (accepted s)
        (if stop s then early s else accepted s))
  end.

(** [start n cap]: one worker per shard. *)
Definition start (n cap : nat) (tasks : list A) : option sched :=
  q ← sharded_new n cap;
  Some (mkSched q false (Submitting <$> tasks) (replicate n AtPop) (replicate n [])
          (replicate n []) (replicate n [])).

(** Shard by shard: what was accepted is what ran, then what is queued, in order; once a
    worker has exited, what was accepted before the shutdown has run. *)
Record shard_ok (s : sched) (i : nat) (q : Q) : Prop := {
  so_fifo : exists ex, executed s !! i = Some ex /\ accepted s !! i = Some (ex ++ items q);
  so_early : stop s = true -> exists e a, early s !! i = Some e /\ accepted s !! i = Some a /\ e `prefix_of` a;
  so_drain : workers s !! i = Some AtDrain \/ workers s !! i = Some Exited -> stop s = true;
  so_exit : workers s !! i = Some Exited ->
    exists e ex, early s !! i = Some e /\ executed s !! i = Some ex /\ e `prefix_of` ex;
}.

Definition sched_inv (s : sched) : Prop :=
  forall i q, shards (queue s) !! i = Some q -> shard_ok s i q.

Lemma shard_ok_same s s' i q :
  executed s' !! i = executed s !! i -> accepted s' !! i = accepted s !! i ->
  workers s' !! i = workers s !! i -> stop s' = stop s -> early s' = early s ->
  shard_ok s i q -> shard_ok s' i q.
Proof. intros He Ha Hw Hs Hy []. by constructor; rewrite ?He, ?Ha, ?Hw, ?Hs, ?Hy. Qed.

Lemma sched_inv_same s s' :
  shards (queue s') = shards (queue s) -> executed s' = executed s -> accepted s' = accepted s ->
  workers s' = workers s -> stop s' = stop s -> early s' = early s -> sched_inv s -> sched_inv s'.
Proof.
  intros Hq He Ha Hw Hs Hy Hinv j q Hj. rewrite Hq in Hj.
  apply (shard_ok_same s); rewrite ?He, ?Ha, ?Hw; try done. by apply Hinv.
Qed.

(** An accepted push at the end of shard [t]. *)
Lemma accept_inv s t q x ps q' :
  sched_inv s -> shards (queue s) !! t = Some q -> items q' = items q ++ [x] ->
  sched_inv (mkSched (mkSharded (<[t := q']> (shards (queue s))) (cursor (queue s))) (stop s) ps
    (workers s) (executed s) (add_at t x (accepted s)) (early s)).
Proof.
  intros Hinv Hq Hi j qj Hj. cbn in Hj. unfold add_at.
  destruct (decide (j = t)) as [->|Hne].
  - rewrite list_lookup_insert_eq in Hj by by eapply lookup_lt_Some. injection Hj as <-.
    destruct (Hinv t q Hq) as [(ex & Hex & Hac) Hearly Hdr Hexit].
    constructor; cbn; try done; rewrite list_lookup_alter_eq, Hac; cbn.
    + exists ex. by rewrite Hi, app_assoc.
    + intros Hs. destruct (Hearly Hs) as (e & a & He & Ha & Hp).
      exists e, ((ex ++ items q) ++ [x]). split_and!; [done..|].
      rewrite Hac in Ha. injection Ha as <-. by apply prefix_app_r.
  - rewrite list_lookup_insert_ne in Hj by done.
    eapply shard_ok_same; [..|by apply (Hinv j qj)]; cbn; try done.
    by rewrite list_lookup_alter_ne.
Qed.

(** A turn of worker [w] that pops, and goes to phase [p] when the shard is empty. *)
Lemma pop_or_inv s w p :
  sched_inv s -> (p = AtShutdownTest \/ (p = Exited /\ (is_Some (shards (queue s) !! w) -> stop s = true))) ->
  sched_inv (pop_or w p s).
Proof.
  intros Hinv Hp. unfold pop_or.
  destruct (shards (queue s) !! w) as [q|] eqn:Hq.
  2: { unfold pop_from. rewrite Hq. intros j qj Hj. cbn in Hj.
       eapply shard_ok_same; [..|by apply (Hinv j qj)]; cbn; try done.
       rewrite list_lookup_insert_ne; [done|congruence]. }
  destruct (pop_from_spec w (queue s) q Hq) as [[He ->]|(x & l & q' & Hx & Hl & _ & ->)];
    intros j qj Hj; cbn in Hj.
  - destruct (decide (j = w)) as [->|Hne].
    2: { eapply shard_ok_same; [..|by apply (Hinv j qj)]; cbn; try done.
         by rewrite list_lookup_insert_ne. }
    rewrite Hq in Hj. injection Hj as <-. destruct (Hinv w q Hq) as [(ex & Hex & Hac) Hearly Hdr Hexit].
    constructor; cbn; [by exists ex|done| |].
    + intros [Hw|Hw]; apply list_lookup_insert_Some in Hw as [(_ & Hw & _)|[? _]]; try done;
        (destruct Hp as [->|[-> Hs]]; [done|]); by eauto.
    + intros Hw. apply list_lookup_insert_Some in Hw as [(_ & Hw & _)|[? _]]; [|done].
      destruct Hp as [->|[_ Hs]]; [done|]. specialize (Hs ltac:(eauto)).
      destruct (Hearly Hs) as (e & a & He' & Ha & Hpre).
      exists e, ex. split_and!; [done..|]. rewrite Hac, He, app_nil_r in Ha. by injection Ha as ->.
  - unfold add_at. destruct (decide (j = w)) as [->|Hne].
    + rewrite list_lookup_insert_eq in Hj by by eapply lookup_lt_Some. injection Hj as <-.
      destruct (Hinv w q Hq) as [(ex & Hex & Hac) Hearly Hdr Hexit].
      constructor; cbn; try done; rewrite ?list_lookup_alter_eq, ?Hex; cbn.
      * exists (ex ++ [x]). by rewrite Hac, Hx, Hl, <- app_assoc.
      * intros Hw. destruct (Hexit Hw) as (e & ex' & He & Hex' & Hpre).
        exists e, (ex ++ [x]). split_and!; [done..|].
        rewrite Hex in Hex'. injection Hex' as <-. by apply prefix_app_r.
    + rewrite list_lookup_insert_ne in Hj by done.
      eapply shard_ok_same; [..|by apply (Hinv j qj)]; cbn; try done.
      by rewrite list_lookup_alter_ne.
Qed.

Lemma set_worker_inv s w p :
  sched_inv s -> (p = AtPop \/ (p = AtDrain /\ stop s = true)) -> sched_inv (set_worker w p s).
Proof.
  intros Hinv Hp j q Hj. cbn in Hj. destruct (Hinv j q Hj) as [Hf He Hd Hx].
  constructor; cbn; try done.
  - intros [Hw|Hw]; apply list_lookup_insert_Some in Hw as [(_ & Hw & _)|[_ Hw]]; eauto;
      destruct Hp as [->|[-> ?]]; done.
  - intros Hw. apply list_lookup_insert_Some in Hw as [(_ & Hw & _)|[_ Hw]]; eauto.
    destruct Hp as [->|[-> ?]]; done.
Qed.

Lemma exec_inv s s' : exec_step exec s s' -> sched_inv s -> sched_inv s'.
Proof.
  intros [a He] Hinv. destruct a; cbn in He.
  - destruct (producers s !! i) as [[]|]; simplify_eq. by apply (sched_inv_same s).
  - unfold exec_try in He. destruct (producers s !! i) as [[|x st off| |]|]; try done.
    case_decide; [|simplify_eq; by apply (sched_inv_same s)].
    destruct (shards (queue s) !! _) as [q|] eqn:Hq; [|done]. cbn in He.
    destruct (decide (has_room q)) as [Hr|Hr].
    + destruct (push_inner_room x q Hr) as (Hok & Hi & _).
      destruct (push_inner x q) as [[u|e] q'] eqn:Ep; cbn in *; simplify_eq.
      by eapply accept_inv.
    + rewrite push_inner_full in He by done. simplify_eq. rewrite list_insert_id by done.
      by apply (sched_inv_same s).
  - unfold exec_work in He. destruct (workers s !! w) as [[]|] eqn:Hw; simplify_eq.
    + apply pop_or_inv; auto.
    + apply set_worker_inv; [done|]. destruct (stop s); auto.
    + apply pop_or_inv; [done|]. right. split; [done|].
      intros [q Hq]. destruct (Hinv w q Hq); auto.
  - simplify_eq. intros j q Hj. destruct (Hinv j q Hj) as [(ex & Hex & Hac) Hearly Hdr Hexit].
    constructor; cbn; [by exists ex| |done|].
    + intros _. destruct (stop s); [by apply Hearly|]. by exists (ex ++ items q), (ex ++ items q).
    + intros Hw. rewrite Hdr by auto. by apply Hexit.
Qed.

Lemma start_sched_inv n cap tasks s : start n cap tasks = Some s -> sched_inv s.
Proof.
  unfold start, sharded_new. do 2 (case_decide; [done|]). cbn. intros [= <-] j q Hj. cbn in Hj.
  apply lookup_replicate in Hj as [-> Hj].
  constructor; cbn; rewrite ?lookup_replicate_2 by done; try done; try (intros [|]; congruence).
  exists []. split; [done|]. by rewrite (proj1 (bounded_spec cap)).
Qed.

(** [C18] The scheduler loses nothing and keeps the order, under every interleaving: on
    each shard the accepted tasks are the executed ones followed by the queued ones, in
    submission order; and once a worker has exited, every task its shard accepted before
    [shutdown] was called has been executed. *)
Theorem scheduler_drains n cap tasks s0 s i q :
  start n cap tasks = Some s0 -> rtc (exec_step exec) s0 s -> shards (queue s) !! i = Some q ->
  (exists ex, executed s !! i = Some ex /\ accepted s !! i = Some (ex ++ items q)) /\
  (workers s !! i = Some Exited ->
     exists e ex, early s !! i = Some e /\ executed s !! i = Some ex /\ e `prefix_of` ex).
Proof.
  intros Hs Hr Hq.
  assert (Hinv : sched_inv s)
    by (eapply (rtc_invariant (exec_step exec)); eauto using exec_inv, start_sched_inv).
  by destruct (Hinv i q Hq).
Qed.

(** *** Shutdown ends

    [shutdown] stores the flag and joins every worker: it returns when all have exited. *)

Definition shutdown_returns (s : sched) : Prop := stop s = true /\ Forall (eq Exited) (workers s).

(** The steps left once the flag is set: the attempts of each submitter, the phases of
    each worker, the queued tasks. *)
Definition producer_left (n : nat) (p : producer) : nat :=
  match p with Submitting _ => n + 3 | Trying _ _ offset => (n - offset) + 2 | _ => 0 end.
Definition worker_left (p : worker) : nat :=
  match p with AtPop => 3 | AtShutdownTest => 2 | AtDrain => 1 | Exited => 0 end.
Definition queued (q : Q) : nat := length (items q).
Definition steps_left (s : sched) : nat :=
  list_sum (producer_left (length (shards (queue s))) <$> producers s) +
  list_sum (worker_left <$> workers s) + list_sum (queued <$> shards (queue s)).

Ltac count_steps :=
  unfold steps_left, set_worker; cbn [queue producers workers shards] in *;
  cbn [producer_left worker_left] in *; rewrite ?length_insert; lia.

Lemma try_decreases s s' i : exec_try i s = Some s' -> stop s' = stop s /\ (steps_left s' < steps_left s)%nat.
Proof.
  unfold exec_try. destruct (producers s !! i) as [[|x st off| |]|] eqn:Hp; try done.
  assert (Hsum := fun p => sum_insert (producer_left (length (shards (queue s)))) (producers s) i _ p Hp).
  case_decide as Hoff.
  2: { intros [= <-]. split; [done|]. specialize (Hsum (Dropped x)). count_steps. }
  destruct (shards (queue s) !! _) as [q|] eqn:Hq; [|done]. cbn. intros [= <-].
  destruct (decide (has_room q)) as [Hr|Hr].
  - destruct (push_inner_room x q Hr) as (Hok & Hi & _). destruct (push_inner x q) as [[u|e] q']; [|done].
    split; [done|]. specialize (Hsum (Accepted x ((st + off) mod length (shards (queue s))))).
    pose proof (sum_insert queued _ _ _ q' Hq) as Hit. cbn [snd] in Hi.
    assert (queued q' = S (queued q)) by (unfold queued; rewrite Hi, length_app; cbn; lia). count_steps.
  - rewrite push_inner_full by done. split; [done|]. specialize (Hsum (Trying x st (S off))).
    rewrite (list_insert_id _ _ q) by done. count_steps.
Qed.

Lemma pop_or_decreases s w o p :
  workers s !! w = Some o -> (worker_left p < worker_left o)%nat ->
  stop (pop_or w p s) = stop s /\ (steps_left (pop_or w p s) < steps_left s)%nat.
Proof.
  intros Hw Hlt. pose proof (sum_insert worker_left _ _ _ p Hw) as Hsum. unfold pop_or.
  destruct (shards (queue s) !! w) as [q|] eqn:Hq.
  2: { unfold pop_from. rewrite Hq. split; [done|]. count_steps. }
  destruct (pop_from_spec w (queue s) q Hq) as [[_ ->]|(x & l & q' & Hx & Hl & _ & ->)]; (split; [done|]).
  - count_steps.
  - pose proof (sum_insert queued _ _ _ q' Hq) as Hit.
    assert (queued q = S (queued q')) by (unfold queued; by rewrite Hx, Hl). count_steps.
Qed.

Lemma stopped_step_decreases s s' a :
  exec a s = Some s' -> a <> ShutdownCall -> stop s = true ->
  stop s' = true /\ (steps_left s' < steps_left s)%nat.
Proof.
  intros He Ha Hs. rewrite <- Hs at 1. destruct a as [i|i|w|]; cbn in He; [..|done].
  - destruct (producers s !! i) as [[x| | |]|] eqn:Hp; simplify_eq. split; [done|].
    pose proof (sum_insert (producer_left (length (shards (queue s)))) _ _ _
      (Trying x (start_of (queue s)) 0) Hp). count_steps.
  - by apply try_decreases in He.
  - unfold exec_work in He. destruct (workers s !! w) as [[]|] eqn:Hw; simplify_eq.
    + by eapply pop_or_decreases; [exact Hw|cbn; lia].
    + rewrite Hs. pose proof (sum_insert worker_left _ _ _ AtDrain Hw). split; [done|count_steps].
    + by eapply pop_or_decreases; [exact Hw|cbn; lia].
Qed.

Lemma stopped_run_bounded acts s s' :
  exec_run exec acts s = Some s' -> ShutdownCall ∉ acts -> stop s = true ->
  stop s' = true /\ (length acts + steps_left s' <= steps_left s)%nat.
Proof.
  revert s. induction acts as [|a acts IH]; intros s Hrun Ha Hs; cbn in Hrun.
  - injection Hrun as <-. split; [done|cbn; lia].
  - destruct (exec a s) as [s1|] eqn:E; [|done]. apply not_elem_of_cons in Ha as [Ha Hrest].
    destruct (stopped_step_decreases s s1 a E) as [Hs1 Hd]; [congruence|done|].
    destruct (IH s1 Hrun Hrest Hs1) as [? ?]. split; [done|]. cbn. lia.
Qed.

Lemma worker_enabled s w p : workers s !! w = Some p -> p <> Exited -> is_Some (exec (Work w) s).
Proof. intros Hw Hp. cbn. unfold exec_work. rewrite Hw. by destruct p. Qed.

(** [C19] [shutdown] returns: once the flag is set, whatever submitters and workers do in
    whatever order, at most [steps_left] steps remain before nothing can move, and where no
    worker can move every worker has exited, so the joins of [shutdown] are over. *)
Theorem shutdown_terminates (s s' : sched) (acts : list action) :
  stop s = true -> ShutdownCall ∉ acts -> exec_run exec acts s = Some s' ->
  (length acts <= steps_left s)%nat /\
  ((forall w, exec (Work w) s' = None) -> shutdown_returns s').
Proof.
  intros Hs Ha Hrun. destruct (stopped_run_bounded acts s s' Hrun Ha Hs) as [Hs' Hlen].
  split; [lia|]. intros Hstuck. split; [done|]. apply Forall_lookup_2. intros w p Hw.
  destruct (decide (p = Exited)) as [->|Hp]; [done|].
  destruct (worker_enabled s' w p Hw Hp) as [? E]. by rewrite Hstuck in E.
Qed.
End scheduler.

Definition demo_sched (tasks : list Z) : option (sched (Q := list_chan Z)) := start 1 2 tasks.

Lemma scheduler_drains_witness :
  exists s : sched (Q := list_chan Z),
    executed s !! 0%nat = Some [5] /\ workers s !! 0%nat = Some Exited /\
    exists e ex, early s !! 0%nat = Some e /\ executed s !! 0%nat = Some ex /\ e `prefix_of` ex.
Proof.
  destruct (demo_sched [5]) as [s0|] eqn:E0; [|done].
  destruct (exec_run exec [Fetch 0; Try 0; ShutdownCall; Work 0; Work 0; Work 0; Work 0] s0)
    as [s|] eqn:E; [|by vm_compute in E0; simplify_eq; vm_compute in E].
  exists s. pose proof E as Hrun. vm_compute in E0. injection E0 as <-. vm_compute in E. injection E as <-.
  split; [done|]. split; [done|].
  apply (scheduler_drains 1 2 [5] _ _ 0 (mkChan 2 []) eq_refl); [by eapply exec_run_rtc|done|done].
Defined.

Lemma shutdown_terminates_witness :
  exists s0 s s' : sched (Q := list_chan Z), demo_sched [5; 6] = Some s0 /\
    exec_run exec [Fetch 0; Try 0; Fetch 1; ShutdownCall] s0 = Some s /\
    exec_run exec [Work 0; Try 1; Work 0; Work 0; Work 0; Work 0] s = Some s' /\
    steps_left s = 7%nat /\ shutdown_returns s' /\ executed s' = [[5; 6]].
Proof.
  destruct (demo_sched [5; 6]) as [s0|] eqn:E0; [|done].
  destruct (exec_run exec [Fetch 0; Try 0; Fetch 1; ShutdownCall] s0) as [s|] eqn:E1;
    [|by vm_compute in E0; simplify_eq; vm_compute in E1].
  destruct (exec_run exec [Work 0; Try 1; Work 0; Work 0; Work 0; Work 0] s) as [s'|] eqn:E2;
    [|by vm_compute in E0; simplify_eq; vm_compute in E1; simplify_eq; vm_compute in E2].
  exists s0, s, s'. do 3 (split; [done|]).
  assert (Hs : stop s = true) by (vm_compute in E0; simplify_eq; vm_compute in E1; by simplify_eq).
  assert (Ha : ShutdownCall ∉ [Work 0; Try 1; Work 0; Work 0; Work 0; Work 0]) by (rewrite !elem_of_cons, elem_of_nil; naive_solver).
  destruct (shutdown_terminates s s' _ Hs Ha E2) as [_ Hend].
  vm_compute in E0; simplify_eq; vm_compute in E1; simplify_eq; vm_compute in E2; simplify_eq.
  split; [reflexivity|]. split; [|reflexivity]. apply Hend. by intros [|[]].
Defined.

(** A submission that races the shutdown can be accepted after its shard's worker
    exited: it stays queued for ever, although its push reported success and the worker
    drained its queue before it exited. *)
Theorem late_submission_stranded :
  exists (s0 s : sched (Q := list_chan Z)), demo_sched [5] = Some s0 /\
    rtc (exec_step exec) s0 s /\
    producers s = [Accepted 5 0] /\ workers s = [Exited] /\ executed s = [[]] /\
    forall s', rtc (exec_step exec) s s' -> executed s' = [[]].
Proof.
  eexists _, _. split; [reflexivity|]. split.
  { apply (exec_run_rtc exec [Fetch 0; ShutdownCall; Work 0; Work 0; Work 0; Try 0]).
    vm_compute. reflexivity. }
  repeat (split; [reflexivity|]). intros s' Hr.
  assert (Hstuck : producers s' = [Accepted 5 0] /\ workers s' = [Exited] /\ executed s' = [[]]);
    [|by apply Hstuck].
  eapply (rtc_invariant (exec_step exec)
    (fun s => producers s = [Accepted 5 0%nat] /\ workers s = [Exited] /\ executed s = [[]]));
    [|exact Hr|done].
  intros a b [act He] (Hp & Hw & Hx). destruct act as [i|i|w|]; cbn in He; unfold exec_try, exec_work in He;
    rewrite ?Hp, ?Hw in He.
  - by destruct i as [|[]].
  - by destruct i as [|[]].
  - by destruct w as [|[]].
  - injection He as <-. by split_and!.
Qed.
