(* ===== verification/Server.v ===== *)
(** * Server: the accept loop and the drain ([riftgate/src/server.rs], [riftgate/src/shutdown.rs])

    The accept loop as a machine whose steps interleave with the signal task and with the
    connection tasks it spawned.  One step of the loop is one poll: the test at the top, the
    poll of the drain signal (the [select!] is biased), the poll of [accept].  The network's
    answer to [accept] and the outcome of a connection are chosen by the environment.  The
    two builds, tokio tasks and the per-core scheduler, are two machines. *)

From S2P Require Import Prelude.

#[local] Open Scope list_scope.
#[local] Open Scope Z_scope.

(** ** The drain signal: a watch channel of a boolean *)

Record Drain := mkDrain { flag : bool; sender_alive : bool }.

Definition channel : Drain := mkDrain false true.
Definition begin_drain (d : Drain) : Drain := mkDrain true (sender_alive d).
Definition is_draining (d : Drain) : bool := flag d.

(** [changed]: ready with a value the loop has not seen, an error once the sender is gone
    and nothing is unseen, else pending.  The loop leaves at the first value it sees. *)
Inductive Changed := NewValue | SenderGone | NotYet.

Definition changed (d : Drain) : Changed :=
  if flag d then NewValue else if sender_alive d then NotYet else SenderGone.

(** ** The loop *)

Inductive Pc :=
| Top              (* [if is_draining(&drain)] *)
| Select           (* about to poll [drain.changed()] *)
| AtAccept         (* it was pending: about to poll [listener.accept()] *)
| Draining         (* waiting for the connections or the grace deadline *)
| Exited (drained : bool).

#[global] Instance Pc_eq_dec : EqDecision Pc.
Proof. solve_decision. Defined.

(** How a connection task stands; an aborted or panicked one never reaches the decrement. *)
Inductive TaskStatus := Running | Served | Panicked | Aborted.

#[global] Instance TaskStatus_eq_dec : EqDecision TaskStatus.
Proof. solve_decision. Defined.

(** Connections are numbered in the order of their accepts; [join_set] holds the tasks not
    joined yet. *)
Record AcceptLoop := mkLoop {
  pc : Pc;
  drain : Drain;
  accepted : nat;
  tasks : list TaskStatus;
  join_set : list nat;
  in_flight : Z;
}.

Definition loop_start : AcceptLoop := mkLoop Top channel 0 [] [] 0.

(** What [accept] answers. *)
Inductive AcceptPoll := NewConnection | AcceptError | AcceptPending.

Definition set_pc (p : Pc) (s : AcceptLoop) : AcceptLoop :=
  mkLoop p (drain s) (accepted s) (tasks s) (join_set s) (in_flight s).

(** The counter goes up before the task is spawned. *)
Definition spawn_connection (s : AcceptLoop) : AcceptLoop :=
  mkLoop (pc s) (drain s) (S (accepted s)) (tasks s ++ [Running]) (join_set s ++ [length (tasks s)])
    (wrapping_add 64 (in_flight s) 1).

(** One poll of the loop. *)
Definition accept_step (a : AcceptPoll) (s : AcceptLoop) : option AcceptLoop :=
  match pc s with
  | Top => Some (set_pc (if is_draining (drain s) then Draining else Select) s)
  | Select =>
      match changed (drain s) with
      | NewValue => Some (set_pc (if is_draining (drain s) then Draining else Top) s)
      | SenderGone => Some (set_pc Draining s)
      | NotYet => Some (set_pc AtAccept s)
      end
  | AtAccept =>
      Some match a with
           | NewConnection => set_pc Top (spawn_connection s)
           | AcceptError => set_pc Top s
           | AcceptPending => set_pc Select s
           end
  | Draining | Exited _ => None
  end.

(** A connection ends: [handle_connection] returned, or panicked. *)
Definition finish (i : nat) (s : AcceptLoop) : option AcceptLoop :=
  match tasks s !! i with
  | Some Running =>
      Some (mkLoop (pc s) (drain s) (accepted s) (<[i := Served]> (tasks s)) (join_set s)
              (wrapping_sub 64 (in_flight s) 1))
  | _ => None
  end.

Definition panic_task (i : nat) (s : AcceptLoop) : option AcceptLoop :=
  match tasks s !! i with
  | Some Running =>
      Some (mkLoop (pc s) (drain s) (accepted s) (<[i := Panicked]> (tasks s)) (join_set s) (in_flight s))
  | _ => None
  end.

(** [join_next] in [wait_until_done]: any task that ended leaves the set. *)
Definition join_next (i : nat) (s : AcceptLoop) : option AcceptLoop :=
  if bool_decide (pc s = Draining) && bool_decide (i ∈ join_set s)
     && bool_decide (tasks s !! i <> Some Running) then
    Some (mkLoop (pc s) (drain s) (accepted s) (tasks s) (filter (fun j => j <> i) (join_set s)) (in_flight s))
  else None.

(** [join_next] on an empty set: the wait is over. *)
Definition all_joined (s : AcceptLoop) : option AcceptLoop :=
  match pc s, join_set s with
  | Draining, [] => Some (set_pc (Exited true) s)
  | _, _ => None
  end.

(** The grace deadline: [connection_tasks.shutdown()] aborts and joins the rest. *)
Definition abort_one (tasks : list TaskStatus) (i : nat) : list TaskStatus :=
  match tasks !! i with Some Running => <[i := Aborted]> tasks | _ => tasks end.

Definition grace_expired (s : AcceptLoop) : option AcceptLoop :=
  match pc s with
  | Draining =>
      Some (mkLoop (Exited false) (drain s) (accepted s) (foldl abort_one (tasks s) (join_set s)) [] (in_flight s))
  | _ => None
  end.

Inductive server_act :=
| ActLoop (a : AcceptPoll)
| ActSignal
| ActDropSender
| ActFinish (i : nat)
| ActPanicTask (i : nat)
| ActJoin (i : nat)
| ActAllJoined
| ActGrace.

Definition server_exec (a : server_act) (s : AcceptLoop) : option AcceptLoop :=
  match a with
  | ActLoop r => accept_step r s
  | ActSignal =>
      if sender_alive (drain s)
      then Some (mkLoop (pc s) (begin_drain (drain s)) (accepted s) (tasks s) (join_set s) (in_flight s))
      else None
  | ActDropSender =>
      Some (mkLoop (pc s) (mkDrain (flag (drain s)) false) (accepted s) (tasks s) (join_set s) (in_flight s))
  | ActFinish i => finish i s
  | ActPanicTask i => panic_task i s
  | ActJoin i => join_next i s
  | ActAllJoined => all_joined s
  | ActGrace => grace_expired s
  end.

(** ** The per-core build

    [accept] hands a closure to the scheduler (which drops it when its queues are full); a
    worker runs it and spawns the task; the task's first poll counts it. *)
Inductive ConnState := QueuedConn | SpawnedConn | CountedConn | DoneConn | DroppedConn.

Record CoreLoop := mkCore {
  core_pc : Pc;
  core_drain : Drain;
  conns : list ConnState;
  core_in_flight : Z;
}.

Definition core_start : CoreLoop := mkCore Top channel [] 0.

Definition core_set_pc (p : Pc) (s : CoreLoop) : CoreLoop := mkCore p (core_drain s) (conns s) (core_in_flight s).

(** [room]: whether a shard of the scheduler has room. *)
Definition submit_connection (room : bool) (s : CoreLoop) : CoreLoop :=
  mkCore (core_pc s) (core_drain s) (conns s ++ [if room then QueuedConn else DroppedConn]) (core_in_flight s).

Definition core_step (a : AcceptPoll) (room : bool) (s : CoreLoop) : option CoreLoop :=
  match core_pc s with
  | Top => Some (core_set_pc (if is_draining (core_drain s) then Draining else Select) s)
  | Select =>
      match changed (core_drain s) with
      | NewValue => Some (core_set_pc (if is_draining (core_drain s) then Draining else Top) s)
      | SenderGone => Some (core_set_pc Draining s)
      | NotYet => Some (core_set_pc AtAccept s)
      end
  | AtAccept =>
      Some match a with
           | NewConnection => core_set_pc Top (submit_connection room s)
           | AcceptError => core_set_pc Top s
           | AcceptPending => core_set_pc Select s
           end
  (* the drain loop: the counter is tested before the deadline *)
  | Draining => if core_in_flight s =? 0 then Some (core_set_pc (Exited true) s) else Some s
  | Exited _ => None
  end.

Definition core_grace_expired (s : CoreLoop) : option CoreLoop :=
  match core_pc s with
  | Draining => if core_in_flight s =? 0 then Some (core_set_pc (Exited true) s) else Some (core_set_pc (Exited false) s)
  | _ => None
  end.

(** The scheduler's worker runs the closure; the runtime polls the task; the connection ends. *)
Definition advance (i : nat) (s : CoreLoop) : option CoreLoop :=
  match conns s !! i with
  | Some QueuedConn => Some (mkCore (core_pc s) (core_drain s) (<[i := SpawnedConn]> (conns s)) (core_in_flight s))
  | Some SpawnedConn =>
      Some (mkCore (core_pc s) (core_drain s) (<[i := CountedConn]> (conns s)) (wrapping_add 64 (core_in_flight s) 1))
  | Some CountedConn =>
      Some (mkCore (core_pc s) (core_drain s) (<[i := DoneConn]> (conns s)) (wrapping_sub 64 (core_in_flight s) 1))
  | _ => None
  end.

Inductive core_act := CoreStep (a : AcceptPoll) (room : bool) | CoreSignal | CoreDropSender | CoreAdvance (i : nat) | CoreGrace.

Definition core_exec (a : core_act) (s : CoreLoop) : option CoreLoop :=
  match a with
  | CoreStep r room => core_step r room s
  | CoreSignal => Some (mkCore (core_pc s) (begin_drain (core_drain s)) (conns s) (core_in_flight s))
  | CoreDropSender => Some (mkCore (core_pc s) (mkDrain (flag (core_drain s)) false) (conns s) (core_in_flight s))
  | CoreAdvance i => advance i s
  | CoreGrace => core_grace_expired s
  end.

(** The drain is over while an accepted connection waits in the scheduler's queue. *)
Lemma drain_misses_queued :
  exec_run core_exec [CoreStep AcceptPending true; CoreStep AcceptPending true; CoreStep NewConnection true;
                 CoreSignal; CoreStep AcceptPending true; CoreStep AcceptPending true] core_start =
  Some (mkCore (Exited true) (mkDrain true true) [QueuedConn] 0).
Proof. by vm_compute. Qed.

(** * Proofs *)

(** The tasks that hold the counter up. *)
Definition uncounted (ts : list TaskStatus) : Z := Z.of_nat (length (filter (fun t => t <> Served) ts)).

Lemma uncounted_snoc ts t : t <> Served -> uncounted (ts ++ [t]) = uncounted ts + 1.
Proof.
  intros Ht. unfold uncounted. rewrite filter_app, filter_cons_True, filter_nil, length_app by done. cbn. lia.
Qed.

Lemma uncounted_insert ts i t :
  ts !! i = Some Running -> uncounted (<[i := t]> ts) = uncounted ts - (if decide (t = Served) then 1 else 0).
Proof.
  intros Hi. pose proof (lookup_lt_Some _ _ _ Hi) as Hlt.
  rewrite insert_take_drop by done. rewrite <- (take_drop_middle ts i Running Hi) at 3. unfold uncounted.
  rewrite !filter_app, !length_app, !filter_cons. rewrite (decide_True (P := Running <> Served)) by done.
  cbn [length]. destruct (decide (t = Served)), (decide (t <> Served)); try done; cbn [length]; lia.
Qed.

Record server_inv (s : AcceptLoop) : Prop := {
  si_accepted : accepted s = length (tasks s);
  si_count : in_flight s = wrap 64 (uncounted (tasks s));
  si_joined : forall i, tasks s !! i = Some Running -> i ∈ join_set s;
  si_aborted : Aborted ∈ tasks s -> pc s = Exited false;
  si_exited : forall b, pc s = Exited b -> join_set s = [];
}.

Lemma loop_start_inv : server_inv loop_start.
Proof. constructor; try done. by intros ?%not_elem_of_nil. Qed.

(** A change of program counter, within the loop or out of it with nothing left to join. *)
Lemma loop_set_pc_inv p s :
  server_inv s -> (forall b, pc s <> Exited b) -> (forall b, p = Exited b -> join_set s = []) ->
  server_inv (set_pc p s).
Proof.
  intros [Ha Hc Hj Hab He] Hpc Hp. constructor; try done. intros H. by destruct (Hpc false (Hab H)).
Qed.

Lemma spawn_inv s : server_inv s -> (forall b, pc s <> Exited b) -> server_inv (spawn_connection s).
Proof.
  intros [Ha Hc Hj Hab He] Hpc. constructor; cbn.
  - rewrite length_app, Ha. cbn. lia.
  - rewrite Hc, uncounted_snoc by done. unfold wrapping_add, wrap. by rewrite Zplus_mod_idemp_l.
  - intros i Hi. apply elem_of_app. apply lookup_snoc_Some in Hi as [[_ Hi]|[<- _]]; [left; by apply Hj|right; set_solver].
  - intros [H|H]%elem_of_app; [by apply Hab|]. by apply list_elem_of_singleton in H.
  - intros b Hb. by destruct (Hpc b).
Qed.

(** The end of a running task; [t] is what became of it. *)
Lemma end_inv i t n s :
  server_inv s -> tasks s !! i = Some Running -> (t = Served \/ t = Panicked) ->
  n = wrap 64 (uncounted (<[i := t]> (tasks s))) ->
  server_inv (mkLoop (pc s) (drain s) (accepted s) (<[i := t]> (tasks s)) (join_set s) n).
Proof.
  intros [Ha Hc Hj Hab He] Hi Ht ->. constructor; cbn; try done.
  - by rewrite length_insert.
  - intros j Hjt. apply list_lookup_insert_Some in Hjt as [(-> & -> & _)|[_ H]]; [by destruct Ht|by apply Hj].
  - intros H. apply Hab. apply elem_of_list_insert in H as [<-|]; [by destruct Ht|done].
Qed.

Lemma abort_one_lookup ts i j :
  abort_one ts i !! j = match ts !! j with Some Running => Some (if decide (i = j) then Aborted else Running) | o => o end.
Proof.
  unfold abort_one. destruct (decide (i = j)) as [-> |Hne].
  - destruct (ts !! j) as [[]|] eqn:E; try done. by rewrite list_lookup_insert_eq by by eapply lookup_lt_Some.
  - destruct (ts !! i) as [[]|] eqn:E; try (by destruct (ts !! j) as [[]|]).
    rewrite list_lookup_insert_ne by done. by destruct (ts !! j) as [[]|].
Qed.

Lemma abort_all_lookup set ts j :
  foldl abort_one ts set !! j =
  match ts !! j with Some Running => Some (if decide (j ∈ set) then Aborted else Running) | o => o end.
Proof.
  revert ts. induction set as [|i set IH]; intros ts.
  { cbn. destruct (ts !! j) as [[]|]; [|done..]. by rewrite decide_False by apply not_elem_of_nil. }
  cbn [foldl]. rewrite IH, abort_one_lookup. destruct (ts !! j) as [[]|]; try done.
  destruct (decide (i = j)) as [-> |Hne]; [by rewrite decide_True by by left|].
  rewrite (decide_ext (j ∈ set) (j ∈ i :: set)); [done|]. rewrite elem_of_cons. split; [by right|]. by intros [->|].
Qed.

Lemma abort_one_facts ts i : length (abort_one ts i) = length ts /\ uncounted (abort_one ts i) = uncounted ts.
Proof.
  unfold abort_one. destruct (ts !! i) as [[]|] eqn:E; try done. rewrite length_insert. split; [done|].
  rewrite uncounted_insert by done. rewrite decide_False by done. lia.
Qed.

Lemma abort_all_facts set ts :
  length (foldl abort_one ts set) = length ts /\ uncounted (foldl abort_one ts set) = uncounted ts.
Proof.
  revert ts. induction set as [|i set IH]; intros ts; [done|]. cbn [foldl].
  destruct (IH (abort_one ts i)) as [-> ->]. apply abort_one_facts.
Qed.

Lemma grace_inv s s' : server_inv s -> grace_expired s = Some s' -> server_inv s'.
Proof.
  intros [Ha Hc Hj Hab He]. unfold grace_expired. destruct (pc s); try done. intros [= <-].
  destruct (abort_all_facts (join_set s) (tasks s)) as [Hl Hu]. constructor; cbn; try done.
  - by rewrite Hl.
  - by rewrite Hu.
  - intros i Hi. rewrite abort_all_lookup in Hi. destruct (tasks s !! i) as [[]|] eqn:E; try done.
    rewrite decide_True in Hi by by apply Hj. done.
Qed.

Lemma join_next_inv i s s' : server_inv s -> join_next i s = Some s' -> server_inv s'.
Proof.
  intros [Ha Hc Hj Hab He]. unfold join_next. repeat case_bool_decide; try done. intros [= <-].
  constructor; cbn; try done.
  - intros j Hr. apply list_elem_of_filter. split; [by intros ->|by apply Hj].
  - intros b Hb. rewrite (He b Hb) in *. done.
Qed.

Lemma server_exec_inv a s s' : server_inv s -> server_exec a s = Some s' -> server_inv s'.
Proof.
  intros Hs. pose proof Hs as [Ha Hc Hj Hab He]. destruct a as [r| | |i|i|i| |]; cbn [server_exec].
  - unfold accept_step. destruct (pc s) eqn:Epc; try done; intros H.
    + injection H as <-. apply loop_set_pc_inv; [done|by rewrite Epc|by destruct (is_draining _)].
    + assert (Hset : forall p, (forall b, p <> Exited b) -> server_inv (set_pc p s)).
      { intros p Hp. apply loop_set_pc_inv; [done|by rewrite Epc|]. intros b ->. by destruct (Hp b). }
      destruct (changed _); injection H as <-; apply Hset; by try destruct (is_draining _).
    + injection H as <-. destruct r; apply loop_set_pc_inv; cbn; rewrite ?Epc; try done.
      apply spawn_inv; [done|by rewrite Epc].
  - destruct (sender_alive _); [|done]. intros [= <-]. by constructor.
  - intros [= <-]. by constructor.
  - unfold finish. destruct (tasks s !! i) as [[]|] eqn:E; try done. intros [= <-].
    apply end_inv; [done|done|by left|]. rewrite uncounted_insert, Hc, decide_True by done.
    unfold wrapping_sub, wrap. by rewrite Zminus_mod_idemp_l.
  - unfold panic_task. destruct (tasks s !! i) as [[]|] eqn:E; try done. intros [= <-].
    apply end_inv; [done|done|by right|]. rewrite uncounted_insert, Hc, decide_False, Z.sub_0_r by done. done.
  - by apply join_next_inv.
  - unfold all_joined. destruct (pc s) eqn:Epc; try done. destruct (join_set s) eqn:Ej; [|done]. intros [= <-].
    apply loop_set_pc_inv; [done|by rewrite Epc|done].
  - by apply grace_inv.
Qed.

Lemma reachable_inv s : rtc (exec_step server_exec) loop_start s -> server_inv s.
Proof.
  intros Hr. eapply (rtc_invariant (exec_step server_exec) server_inv); [|done|by apply loop_start_inv].
  intros s1 s2 [a Ha] H. by eapply server_exec_inv.
Qed.

(** ** After the signal *)

(** Connections the loop may still accept: the one it is about to poll for. *)
Definition pending_accept (s : AcceptLoop) : nat := match pc s with AtAccept => 1 | _ => 0 end.

Lemma exec_after_signal a s s' :
  flag (drain s) = true -> server_exec a s = Some s' ->
  flag (drain s') = true /\ (accepted s' + pending_accept s' <= accepted s + pending_accept s)%nat.
Proof.
  intros Hf. unfold pending_accept. destruct a as [r| | |i|i|i| |]; cbn [server_exec].
  - unfold accept_step, changed, is_draining. rewrite Hf. destruct (pc s); try done; intros [= <-]; (split; [by try destruct r|]); cbn; try destruct r; cbn; lia.
  - destruct (sender_alive _); [|done]. by intros [= <-].
  - by intros [= <-].
  - unfold finish. destruct (tasks s !! i) as [[]|]; try done. by intros [= <-].
  - unfold panic_task. destruct (tasks s !! i) as [[]|]; try done. by intros [= <-].
  - unfold join_next. destruct (_ && _); [|done]. by intros [= <-].
  - unfold all_joined. destruct (pc s); try done. destruct (join_set s); [|done]. intros [= <-]. cbn. split; [done|lia].
  - unfold grace_expired. destruct (pc s); try done. intros [= <-]. cbn. split; [done|lia].
Qed.

Lemma after_signal s s' :
  flag (drain s) = true -> rtc (exec_step server_exec) s s' -> (accepted s' <= accepted s + pending_accept s)%nat.
Proof.
  intros Hf Hr. assert (flag (drain s') = true /\ (accepted s' + pending_accept s' <= accepted s + pending_accept s)%nat)
    as [_ ?]; [|lia].
  revert Hf. induction Hr as [|s1 s2 s3 [a Ha] Hr IH]; intros Hf; [split; [done|lia]|].
  destruct (exec_after_signal a s1 s2 Hf Ha) as [Hf2 Hle]. destruct (IH Hf2) as [? ?]. split; [done|lia].
Qed.

(** The loop reaches the drain in at most two polls, whatever [accept] answers. *)
Lemma signal_stops_loop r s :
  flag (drain s) = true -> (forall b, pc s <> Exited b) ->
  exists n s', (n <= 2)%nat /\ exec_run server_exec (replicate n (ActLoop r)) s = Some s' /\ pc s' = Draining.
Proof.
  intros Hf Hpc. destruct s as [p d acc ts js inf]. cbn in Hf, Hpc.
  assert (Hd : changed d = NewValue /\ is_draining d = true) by (unfold changed, is_draining; by rewrite Hf).
  destruct Hd as [Hch Hdr], p as [| | | |b].
  - exists 1%nat. eexists. split; [lia|]. cbn. unfold accept_step. cbn. by rewrite Hdr.
  - exists 1%nat. eexists. split; [lia|]. cbn. unfold accept_step. cbn. by rewrite Hch, Hdr.
  - exists 2%nat. destruct r; eexists; (split; [lia|]); cbn; unfold accept_step; cbn; by rewrite ?Hch, ?Hdr.
  - exists 0%nat, (mkLoop Draining d acc ts js inf). split; [lia|done].
  - by destruct (Hpc b).
Qed.

(** [C20] Graceful shutdown of the tokio build, under every interleaving of loop, signal, network
    and connections.  The counters agree with the tasks ([in_flight] counts, mod 2^64, those
    that did not return).  Once the loop has exited no connection task runs; after a complete
    drain every accepted connection was served to its end or its own task panicked, and only
    an expired grace period aborts one.  After the signal at most one more connection is
    accepted; whatever [accept] answers the loop reaches the drain within two polls, and the
    deadline then ends it.  In the per-core build a complete drain may
    leave accepted connections unserved ([drain_misses_queued]). *)
Theorem graceful_shutdown s :
  rtc (exec_step server_exec) loop_start s ->
  accepted s = length (tasks s) /\ in_flight s = wrap 64 (uncounted (tasks s)) /\
  (forall b, pc s = Exited b -> Running ∉ tasks s) /\
  (pc s = Exited true -> Forall (fun t => t = Served \/ t = Panicked) (tasks s)) /\
  (flag (drain s) = true ->
    (forall s', rtc (exec_step server_exec) s s' -> (accepted s' <= accepted s + 1)%nat) /\
    (forall r, (forall b, pc s <> Exited b) ->
       exists n s' s'', (n <= 2)%nat /\ exec_run server_exec (replicate n (ActLoop r)) s = Some s' /\
         server_exec ActGrace s' = Some s'' /\ pc s'' = Exited false)).
Proof.
  intros [Ha Hc Hj Hab He]%reachable_inv. split; [done|split; [done|]].
  assert (Hrun : forall b, pc s = Exited b -> Running ∉ tasks s).
  { intros b Hb [i Hi]%list_elem_of_lookup. apply Hj in Hi. rewrite (He b Hb) in Hi. by apply not_elem_of_nil in Hi. }
  split; [done|split].
  - intros Hp. apply Forall_forall. intros [] Ht; [by destruct (Hrun true Hp)|by left|by right|].
    rewrite (Hab Ht) in Hp. done.
  - intros Hf. split.
    + intros s' Hr. pose proof (after_signal s s' Hf Hr). unfold pending_accept in *. destruct (pc s); lia.
    + intros r Hpc. destruct (signal_stops_loop r s Hf Hpc) as (n & s' & Hn & Hrun' & Hp').
      exists n, s'. eexists. cbn [server_exec]. unfold grace_expired. rewrite Hp'. done.
Qed.

(** A whole run: two connections, one served; the signal comes between the two polls of a
    select, one more connection is accepted; the grace period aborts it. *)
Definition demo_run : list server_act :=
  [ActLoop AcceptPending; ActLoop AcceptPending; ActLoop NewConnection; ActLoop AcceptPending; ActLoop AcceptPending;
   ActSignal; ActFinish 0; ActLoop NewConnection; ActLoop AcceptPending; ActJoin 0; ActGrace].

Lemma graceful_shutdown_witness :
  match exec_run server_exec demo_run loop_start with
  | Some s => accepted s = 2%nat /\ tasks s = [Served; Aborted] /\ Running ∉ tasks s
  | None => False
  end.
Proof.
  destruct (exec_run server_exec demo_run loop_start) as [s|] eqn:E; [|by vm_compute in E].
  assert (Hs : s = mkLoop (Exited false) (mkDrain true true) 2 [Served; Aborted] [] 1)
    by (vm_compute in E; by injection E as <-).
  split; [by rewrite Hs|split; [by rewrite Hs|]].
  apply (graceful_shutdown s (exec_run_rtc server_exec _ _ _ E)) with (b := false). by rewrite Hs.
Defined.

Definition in_loop (p : Pc) : Prop := p = Top \/ p = Select \/ p = AtAccept.

Lemma loop_keeps_tasks a s s' :
  server_exec a s = Some s' -> (in_loop (pc s) -> join_set s = seq 0 (length (tasks s))) ->
  in_loop (pc s') -> join_set s' = seq 0 (length (tasks s')).
Proof.
  unfold in_loop. destruct a as [r| | |i|i|i| |]; cbn [server_exec].
  - unfold accept_step. destruct (pc s); try done; intros Hx IH _.
    + injection Hx as <-. apply IH. auto.
    + destruct (changed _); injection Hx as <-; apply IH; auto.
    + injection Hx as <-. destruct r; cbn; [|apply IH; auto..].
      rewrite IH, length_app, seq_app by auto. done.
  - destruct (sender_alive _); [|done]. by intros [= <-].
  - by intros [= <-].
  - unfold finish. destruct (tasks s !! i) as [[]|]; try done. intros [= <-]. cbn. by rewrite length_insert.
  - unfold panic_task. destruct (tasks s !! i) as [[]|]; try done. intros [= <-]. cbn. by rewrite length_insert.
  - unfold join_next. repeat case_bool_decide; try done. intros [= <-] _ [Hl|[Hl|Hl]]; cbn in Hl; congruence.
  - unfold all_joined. destruct (pc s); try done. destruct (join_set s); [|done]. intros [= <-] _ [Hl|[Hl|Hl]]; done.
  - unfold grace_expired. destruct (pc s); try done. intros [= <-] _ [Hl|[Hl|Hl]]; done.
Qed.

(** Tasks that ended stay in the join set until the drain: it has one entry per connection
    ever accepted. *)
Theorem join_set_grows s :
  rtc (exec_step server_exec) loop_start s -> in_loop (pc s) ->
  length (join_set s) = accepted s.
Proof.
  intros Hr Hpc. destruct (reachable_inv s Hr) as [Ha _ _ _ _].
  assert (H : in_loop (pc s) -> join_set s = seq 0 (length (tasks s))).
  { eapply (rtc_invariant (exec_step server_exec) (fun s => in_loop (pc s) -> join_set s = seq 0 (length (tasks s)))); [|done|done].
    intros s1 s2 [a Hx] IH. by eapply loop_keeps_tasks. }
  by rewrite H, length_seq, Ha.
Qed.
