(* ===== verification/Weighted.v ===== *)
(** * Weighted: [WeightedRandomRouter] of [riftgate-router/src/weighted.rs], with
    [RoundRobinRouter] and [ConstantRouter]

    Vose's alias table in the source's fixed point, the xorshift generator, and [route].
    A [Vec] used as a stack is a list with its top first.  [next_u64] is [None] where the
    compare-exchange loop would spin for ever, which happens only on a zero state. *)

From Stdlib Require Import SpecFloat.
From S2P Require Import Prelude Floats Core.

(** ** Data *)

Definition MAX_WEIGHTED_BACKENDS : nat := 32.
Definition ALIAS_SCALE : Z := Z.shiftl 1 24.
Definition HOT_GPU_PRESSURE_THRESHOLD : spec_float := f32_lit 90 100.

Record AliasEntry := mkEntry {
  primary : BackendId;
  alias : BackendId;
  prob_scaled : Z;
}.

Record WeightedRandomRouter := mkWeighted {
  table : list AliasEntry;
  w_backends : list BackendId;
  rng_state : Z;
}.

(** ** The generator *)

Definition xorshift64 (x : Z) : Z :=
  let x := Z.lxor x (wrap 64 (Z.shiftl x 13)) in
  let x := Z.lxor x (Z.shiftr x 7) in
  Z.lxor x (wrap 64 (Z.shiftl x 17)).

Definition splitmix64 (z : Z) : Z :=
  let z := wrapping_add 64 z 0x9E3779B97F4A7C15 in
  let t := wrapping_mul 64 (Z.lxor z (Z.shiftr z 30)) 0xBF58476D1CE4E5B9 in
  let t := wrapping_mul 64 (Z.lxor t (Z.shiftr t 27)) 0x94D049BB133111EB in
  Z.lxor t (Z.shiftr t 31).

(** [next_u64]: the value and the state are the same number. *)
Definition next_u64 (state : Z) : option Z :=
  let s := Z.max state 1 in
  if state =? s then Some (xorshift64 s) else None.

(** ** Vose's table *)

(** The table before any pairing: every slot is its own backend's. *)
Definition own_entry (b : BackendId) : AliasEntry := mkEntry b b ALIAS_SCALE.

(** The pairing loop.  The source pops both stacks before it looks at the results; the
    index it drops when only one stack was empty keeps the slot it was given before. *)
Fixpoint pair_loop (fuel : nat) (ids : list BackendId) (small large : list nat)
    (scaled : list Z) (t : list AliasEntry) : list nat * list nat * list Z * list AliasEntry :=
  match fuel with
  | O => (small, large, scaled, t)
  | S fuel =>
      match small, large with
      | s :: small, l :: large =>
          let ss := default 0 (scaled !! s) in
          let t := <[s := mkEntry (default 0 (ids !! s)) (default 0 (ids !! l)) (wrap 32 ss)]> t in
          let new_large := default 0 (scaled !! l) + ss - ALIAS_SCALE in
          let scaled := <[l := new_large]> scaled in
          if new_large <? ALIAS_SCALE
          then pair_loop fuel ids (l :: small) large scaled t
          else pair_loop fuel ids small (l :: large) scaled t
      | _, _ => (tail small, tail large, scaled, t)
      end
  end.

(** The leftovers settle at probability one. *)
Definition settle (ids : list BackendId) (left : list nat) (t : list AliasEntry) : list AliasEntry :=
  foldl (fun t i => <[i := own_entry (default 0 (ids !! i))]> t) t left.

Definition scaled_weights (weights : list (BackendId * Z)) (total : Z) : list Z :=
  (fun '(_, w) => wrapping_mul 64 (wrapping_mul 64 w (Z.of_nat (length weights))) ALIAS_SCALE / total)
    <$> weights.

(** The indices below and at or above the average, each as a stack. *)
Definition small_of (scaled : list Z) : list nat :=
  rev (filter (fun i => default 0 (scaled !! i) < ALIAS_SCALE) (seq 0 (length scaled))).
Definition large_of (scaled : list Z) : list nat :=
  rev (filter (fun i => ~ default 0 (scaled !! i) < ALIAS_SCALE) (seq 0 (length scaled))).

Definition total_weight (weights : list (BackendId * Z)) : Z :=
  foldr (fun w acc => snd w + acc) 0 weights.

Definition build_table (weights : list (BackendId * Z)) : list AliasEntry :=
  let ids := fst <$> weights in
  let scaled := scaled_weights weights (total_weight weights) in
  let '(small, large, _, t) :=
    pair_loop (S (length weights)) ids (small_of scaled) (large_of scaled) scaled (own_entry <$> ids) in
  settle ids (rev large ++ rev small) t.

(** [with_seed]: [None] where an assertion panics. *)
Definition with_seed (weights : list (BackendId * Z)) (seed : Z) : option WeightedRandomRouter :=
  if decide (weights = []) then None
  else if decide (MAX_WEIGHTED_BACKENDS < length weights)%nat then None
  else if decide (Exists (fun w => snd w <= 0) weights) then None
  else if total_weight weights <=? 0 then None
  else Some (mkWeighted (build_table weights) (fst <$> weights) (Z.max seed 1)).

Definition weighted_new (weights : list (BackendId * Z)) : option WeightedRandomRouter :=
  with_seed weights (splitmix64 0xCAFEBABEDEADBEEF).

(** ** Routing *)

Definition pick (e : AliasEntry) (coin : Z) : BackendId :=
  if coin <? prob_scaled e then primary e else alias e.

(** [sample]: the next state, and the backend of the bucket's coin toss. *)
Definition sample (r : WeightedRandomRouter) : option (BackendId * WeightedRandomRouter) :=
  x ← next_u64 (rng_state r);
  let bucket := Z.to_nat (x mod Z.of_nat (length (table r))) in
  let coin := Z.land (wrap 32 (Z.shiftr x 32)) (ALIAS_SCALE - 1) in
  e ← table r !! bucket;
  Some (pick e coin, mkWeighted (table r) (w_backends r) x).

Definition is_hot (s : BackendSignal) : bool :=
  match gpu_pressure s with
  | Some p => fle HOT_GPU_PRESSURE_THRESHOLD (fclamp (S754_zero false) (f32_of_Z 1) p)
  | None => false
  end.

Definition is_open (s : BackendSignal) : bool := bool_decide (circuit_state s = Open).

(** The scan of both loops over a backend: skip, answer, or remember as the fallback. *)
Definition consider (sigs : BackendSignals) (b : BackendId) (fb : option BackendId)
    : option BackendId * option BackendId :=
  let s := signals_get sigs b in
  if is_open s then (None, fb)
  else let fb := match fb with Some f => Some f | None => Some b end in
       if is_hot s then (None, fb) else (Some b, fb).

Fixpoint sample_loop (n : nat) (sigs : BackendSignals) (fb : option BackendId)
    (r : WeightedRandomRouter) : option (option BackendId * option BackendId * WeightedRandomRouter) :=
  match n with
  | O => Some (None, fb, r)
  | S n =>
      '(b, r) ← sample r;
      match consider sigs b fb with
      | (Some b, fb) => Some (Some b, fb, r)
      | (None, fb) => sample_loop n sigs fb r
      end
  end.

Fixpoint scan_loop (bs : list BackendId) (sigs : BackendSignals) (fb : option BackendId)
    : option BackendId * option BackendId :=
  match bs with
  | [] => (None, fb)
  | b :: bs =>
      match consider sigs b fb with
      | (Some b, fb) => (Some b, fb)
      | (None, fb) => scan_loop bs sigs fb
      end
  end.

Definition weighted_route (pool : BackendPool) (sigs : BackendSignals) (r : WeightedRandomRouter)
    : option (RoutingDecision * WeightedRandomRouter) :=
  match backends pool with
  | [] => Some (Reject BAD_GATEWAY, r)
  | bs =>
      '(hit, fb, r) ← sample_loop (length (w_backends r)) sigs None r;
      match hit with
      | Some b => Some (Send b, r)
      | None =>
          match scan_loop bs sigs fb with
          | (Some b, _) => Some (Send b, r)
          | (None, Some b) => Some (Send b, r)
          | (None, None) => Some (Reject SERVICE_UNAVAILABLE, r)
          end
      end
  end.

(** ** The other two stateless or one-counter routers *)

Record RoundRobinRouter := mkRoundRobin { cursor : Z }.

(** The [expect] cannot fail: the pool is not empty. *)
Definition round_robin_route (pool : BackendPool) (r : RoundRobinRouter)
    : option (RoutingDecision * RoundRobinRouter) :=
  match backends pool with
  | [] => Some (Reject BAD_GATEWAY, r)
  | _ => b ← get_modulo pool (cursor r); Some (Send b, mkRoundRobin (wrapping_add 64 (cursor r) 1))
  end.

Record ConstantRouter := mkConstant { constant_id : BackendId }.
Definition constant_route (r : ConstantRouter) : RoutingDecision := Send (constant_id r).

(** ** The mass of the table

    [contrib b e] is how many of the [ALIAS_SCALE] coins of a slot pick [b]; the mass of
    [b] is the sum over the slots. *)
Definition contrib (b : BackendId) (e : AliasEntry) : Z :=
  (if decide (primary e = b) then prob_scaled e else 0)
  + (if decide (alias e = b) then ALIAS_SCALE - prob_scaled e else 0).

Fixpoint mass (b : BackendId) (t : list AliasEntry) : Z :=
  match t with [] => 0 | e :: t => contrib b e + mass b t end.

(** [contrib] counts coins. *)
Lemma contrib_counts b e :
  0 <= prob_scaled e <= ALIAS_SCALE ->
  Z.of_nat (length (filter (fun coin => pick e coin = b) (seqZ 0 ALIAS_SCALE))) = contrib b e.
Proof.
  intros Hp. unfold contrib.
  replace ALIAS_SCALE with (prob_scaled e + (ALIAS_SCALE - prob_scaled e)) at 1 by lia.
  rewrite seqZ_app, filter_app, length_app, Nat2Z.inj_add by lia. f_equal.
  - case_decide as Hb.
    + rewrite filter_all; [rewrite length_seqZ; lia|].
      apply Forall_forall. intros c [? ?]%elem_of_seqZ. unfold pick. by zcases; [|lia].
    + rewrite filter_none; [done|].
      apply Forall_forall. intros c [? ?]%elem_of_seqZ. unfold pick. by zcases; [|lia].
  - case_decide as Hb.
    + rewrite filter_all; [rewrite length_seqZ; lia|].
      apply Forall_forall. intros c [? ?]%elem_of_seqZ. unfold pick. by zcases; [lia|].
    + rewrite filter_none; [done|].
      apply Forall_forall. intros c [? ?]%elem_of_seqZ. unfold pick. by zcases; [lia|].
Qed.

Lemma mass_insert b t i e e' :
  t !! i = Some e -> mass b (<[i := e']> t) = mass b t - contrib b e + contrib b e'.
Proof.
  revert i. induction t as [|e0 t IH]; intros [|i] Hi; try done.
  - injection Hi as ->. cbn [mass insert list_insert]. lia.
  - change (<[S i := e']> (e0 :: t)) with (e0 :: <[i := e']> t). cbn [mass].
    rewrite (IH i Hi). lia.
Qed.

(** Every backend starts with the mass of its own slot. *)
Lemma mass_own ids b : NoDup ids -> mass b (own_entry <$> ids) = if decide (b ∈ ids) then ALIAS_SCALE else 0.
Proof.
  induction 1 as [|x ids Hx Hnd IH]; [done|]. cbn [fmap list_fmap mass]. rewrite IH.
  unfold contrib; cbn [own_entry primary alias prob_scaled]. destruct (decide (x = b)) as [->|Hne].
  - rewrite decide_False by done. rewrite decide_True by by left. lia.
  - destruct (decide (b ∈ ids)) as [Hin|Hin];
      [rewrite decide_True by by right|rewrite decide_False by (intros [?|?]%elem_of_cons; congruence)]; lia.
Qed.

(** What the indices of a stack lack to the average. *)
Definition sc (scaled : list Z) (i : nat) : Z := default 0 (scaled !! i).
Fixpoint deficit (scaled : list Z) (l : list nat) : Z :=
  match l with [] => 0 | i :: l => ALIAS_SCALE - sc scaled i + deficit scaled l end.

Lemma deficit_insert scaled l i x : i ∉ l -> deficit (<[i := x]> scaled) l = deficit scaled l.
Proof.
  induction l as [|j l IH]; intros Hi; [done|]. apply not_elem_of_cons in Hi as [Hij Hi].
  cbn [deficit]. rewrite IH by done. unfold sc. by rewrite list_lookup_insert_ne.
Qed.

Lemma sc_insert scaled i x : (i < length scaled)%nat -> sc (<[i := x]> scaled) i = x.
Proof. intros. unfold sc. by rewrite list_lookup_insert_eq. Qed.

Lemma sc_insert_ne scaled i j x : i <> j -> sc (<[i := x]> scaled) j = sc scaled j.
Proof. intros. unfold sc. by rewrite list_lookup_insert_ne. Qed.

Section vose.
Context (ids : list BackendId) (scaled0 : list Z) (d : Z).
Hypothesis Hnd : NoDup ids.

(** The loop invariant: every backend has its scaled weight in mass, and an index still
    on a stack has its own slot and what it still lacks on top. *)
Record vose_inv (small large : list nat) (scaled : list Z) (t : list AliasEntry) : Prop := {
  vi_nodup : NoDup (small ++ large);
  vi_len : length scaled = length ids /\ length t = length ids;
  vi_range : Forall (fun i => (i < length ids)%nat) (small ++ large);
  vi_small : Forall (fun i => 0 <= sc scaled i < ALIAS_SCALE) small;
  vi_large : Forall (fun i => ALIAS_SCALE <= sc scaled i) large;
  vi_own : forall i b, i ∈ small ++ large -> ids !! i = Some b -> t !! i = Some (own_entry b);
  vi_prob : Forall (fun e => 0 <= prob_scaled e <= ALIAS_SCALE) t;
  vi_ids : Forall (fun e => primary e ∈ ids /\ alias e ∈ ids) t;
  vi_mass : forall i b, ids !! i = Some b ->
    mass b t = sc scaled0 i + (if decide (i ∈ small ++ large) then ALIAS_SCALE - sc scaled i else 0);
  vi_deficit : deficit scaled small + deficit scaled large = d;
}.

Lemma ids_inj i j b : ids !! i = Some b -> ids !! j = Some b -> i = j.
Proof. by apply NoDup_lookup. Qed.

(** One pairing: [s] gives the rest of its slot to [l], which moves to either stack. *)
Lemma pair_step s small l large scaled t small2 large2 :
  vose_inv (s :: small) (l :: large) scaled t ->
  let nl := sc scaled l + sc scaled s - ALIAS_SCALE in
  small2 ++ large2 ≡ₚ l :: small ++ large ->
  Forall (fun i => 0 <= sc (<[l := nl]> scaled) i < ALIAS_SCALE) small2 ->
  Forall (fun i => ALIAS_SCALE <= sc (<[l := nl]> scaled) i) large2 ->
  deficit (<[l := nl]> scaled) small2 + deficit (<[l := nl]> scaled) large2
    = ALIAS_SCALE - nl + deficit scaled small + deficit scaled large ->
  vose_inv small2 large2 (<[l := nl]> scaled)
    (<[s := mkEntry (default 0 (ids !! s)) (default 0 (ids !! l)) (wrap 32 (sc scaled s))]> t).
Proof.
  intros [Hdup [Hls Hlt] Hrg Hsm Hlg Hown Hprob Hids Hmass Hdef] nl Hperm Hsm2 Hlg2 Hdef2.
  assert (Hact : (s :: small) ++ l :: large ≡ₚ s :: small2 ++ large2)
    by (rewrite Hperm; cbn; by rewrite <- Permutation_middle).
  rewrite Hact in Hdup, Hrg. apply NoDup_cons in Hdup as [Hsn Hdup].
  apply Forall_cons in Hrg as [Hrs Hrg], Hsm as [Hs _], Hlg as [Hl _].
  assert (Hrl : l ∈ small2 ++ large2) by (rewrite Hperm; apply list_elem_of_here).
  assert (Hsl : s <> l) by (by intros ->).
  pose proof (lookup_lt_is_Some_2 _ _ Hrs) as [bs Hbs].
  pose proof (lookup_lt_is_Some_2 _ _ (proj1 (Forall_forall _ _) Hrg l Hrl)) as [bl Hbl].
  assert (Hts : t !! s = Some (own_entry bs)) by (apply Hown; [apply list_elem_of_here|done]).
  assert (Hmem : forall i, i ∈ (s :: small) ++ l :: large <-> i = s \/ i ∈ small2 ++ large2)
    by (intros i; by rewrite Hact, elem_of_cons).
  rewrite Hbs, Hbl, wrap_small by (unfold in_uint; change ALIAS_SCALE with (2 ^ 24) in *; lia).
  cbn [default from_option id]. constructor; try done.
  - by rewrite !length_insert.
  - intros i b Hi Hb. rewrite list_lookup_insert_ne by (by intros ->).
    apply Hown; [apply Hmem; by right|done].
  - apply Forall_insert; [done|]. cbn. lia.
  - apply Forall_insert; [done|]. split; by eapply list_elem_of_lookup_2.
  - intros i b Hb. rewrite (mass_insert _ _ _ _ _ Hts), (Hmass i b Hb).
    unfold contrib; cbn [own_entry primary alias prob_scaled].
    destruct (decide (i = s)) as [->|His].
    + assert (b = bs) as -> by congruence. rewrite (decide_False (P := s ∈ small2 ++ large2)) by done.
      rewrite (decide_True (P := s ∈ (s :: small) ++ l :: large)) by (apply Hmem; by left).
      rewrite !(decide_True (P := bs = bs)) by done.
      rewrite decide_False by (intros ->; by apply Hsl, (ids_inj s l bs)). lia.
    + rewrite !(decide_False (P := bs = b)) by (intros ->; by apply His, (ids_inj i s b)).
      destruct (decide (i = l)) as [->|Hil].
      * assert (b = bl) as -> by congruence. rewrite (decide_True (P := bl = bl)) by done.
        rewrite (decide_True (P := l ∈ small2 ++ large2)) by done.
        rewrite decide_True by (apply Hmem; by right).
        rewrite sc_insert by (rewrite Hls; by eapply lookup_lt_Some). unfold nl. lia.
      * rewrite (decide_False (P := bl = b)) by (intros ->; by apply Hil, (ids_inj i l b)).
        rewrite sc_insert_ne by done.
        destruct (decide (i ∈ small2 ++ large2)) as [Hin|Hin];
          [rewrite decide_True by (apply Hmem; by right)|
           rewrite decide_False by (rewrite Hmem; tauto)]; lia.
  - rewrite Hdef2, <- Hdef. cbn [deficit]. unfold nl. lia.
Qed.

(** The loop keeps the invariant and stops with one of the stacks empty. *)
Lemma pair_loop_inv fuel small large scaled t :
  vose_inv small large scaled t -> (length small + length large < fuel)%nat ->
  exists small' large' scaled' t', vose_inv small' large' scaled' t' /\
    (small' = [] \/ large' = []) /\
    pair_loop fuel ids small large scaled t = (tail small', tail large', scaled', t').
Proof.
  revert small large scaled t. induction fuel as [|fuel IH]; intros small large scaled t Hinv Hf; [lia|].
  destruct small as [|s small]; [exists [], large, scaled, t; by destruct large; eauto|].
  destruct large as [|l large]; [exists (s :: small), [], scaled, t; by eauto|].
  cbn [pair_loop length] in *. fold (sc scaled s). fold (sc scaled l).
  set (nl := sc scaled l + sc scaled s - ALIAS_SCALE).
  pose proof Hinv as [Hdup [Hls _] Hrg Hsm Hlg _ _ _ _ _].
  assert (Hlr : (l < length scaled)%nat).
  { rewrite Hls. apply (proj1 (Forall_forall _ _) Hrg). apply elem_of_app. right. apply list_elem_of_here. }
  apply Forall_cons in Hsm as [Hs Hsm], Hlg as [Hl Hlg].
  apply NoDup_app in Hdup as (_ & Hdisj & [Hll _]%NoDup_cons).
  assert (Hls' : l ∉ small).
  { intros Hin. apply (Hdisj l); [by right|apply list_elem_of_here]. }
  assert (Hkeep : forall (P : Z -> Prop) k, l ∉ k -> Forall (fun i => P (sc scaled i)) k ->
    Forall (fun i => P (sc (<[l := nl]> scaled) i)) k).
  { intros P k Hk HP. apply Forall_forall. intros i Hi. rewrite sc_insert_ne by (by intros ->).
    by apply (proj1 (Forall_forall _ _) HP). }
  pose proof (Hkeep (fun z => 0 <= z < ALIAS_SCALE) small Hls' Hsm) as Hsm'.
  pose proof (Hkeep (fun z => ALIAS_SCALE <= z) large Hll Hlg) as Hlg'. cbn beta in *.
  destruct (Z.ltb_spec nl ALIAS_SCALE); (apply IH; [|cbn; lia]); apply pair_step with small large;
    try done; fold nl.
  - constructor; [rewrite sc_insert by done; unfold nl; lia|done].
  - cbn [deficit]. rewrite sc_insert, !deficit_insert by done. lia.
  - by rewrite Permutation_middle.
  - constructor; [by rewrite sc_insert|done].
  - cbn [deficit]. rewrite sc_insert, !deficit_insert by done. lia.
Qed.

(** A stack of one sign: no index lacks more than the whole. *)
Lemma deficit_bound scaled l i :
  Forall (fun i => sc scaled i <= ALIAS_SCALE) l -> i ∈ l -> 0 <= ALIAS_SCALE - sc scaled i <= deficit scaled l.
Proof.
  intros Hl Hi.
  assert (Hpos : forall k, Forall (fun i => sc scaled i <= ALIAS_SCALE) k -> 0 <= deficit scaled k)
    by (induction 1; cbn [deficit]; lia).
  induction Hl as [|j l Hj Hl IH]; [by apply elem_of_nil in Hi|]. cbn [deficit].
  specialize (Hpos l Hl). apply elem_of_cons in Hi as [->|Hi]; [lia|]. specialize (IH Hi). lia.
Qed.

Lemma deficit_nonpos scaled l :
  Forall (fun i => ALIAS_SCALE <= sc scaled i) l -> 0 <= deficit scaled l ->
  Forall (fun i => sc scaled i <= ALIAS_SCALE) l.
Proof.
  assert (Hneg : forall k, Forall (fun i => ALIAS_SCALE <= sc scaled i) k -> deficit scaled k <= 0)
    by (induction 1; cbn [deficit]; lia).
  induction 1 as [|j l Hj Hl IH]; [done|]. cbn [deficit]. intros Hd. specialize (Hneg l Hl).
  constructor; [lia|]. apply IH. lia.
Qed.

(** At the end, what is left on the stacks lacks at most [d]. *)
Lemma leftover_bound small large scaled t i :
  vose_inv small large scaled t -> (small = [] \/ large = []) -> 0 <= d -> i ∈ small ++ large ->
  0 <= ALIAS_SCALE - sc scaled i <= d.
Proof.
  intros [_ _ _ Hsm Hlg _ _ _ _ Hdef] [-> | ->] Hd Hi; cbn [deficit app] in *.
  - rewrite <- Hdef, Z.add_0_l in *. apply deficit_bound; [by apply deficit_nonpos|done].
  - rewrite app_nil_r in Hi. rewrite <- Hdef, Z.add_0_r. apply deficit_bound; [|done].
    eapply Forall_impl; [exact Hsm|]. cbn. lia.
Qed.

(** Settling the leftovers rewrites slots with what they hold. *)
Lemma settle_id left t :
  (forall i b, i ∈ left -> ids !! i = Some b -> t !! i = Some (own_entry b)) ->
  Forall (fun i => (i < length ids)%nat) left -> settle ids left t = t.
Proof.
  unfold settle. revert t. induction left as [|i left IH]; intros t Hown Hr; [done|].
  apply Forall_cons in Hr as [Hi Hr]. apply lookup_lt_is_Some_2 in Hi as [b Hb]. cbn [foldl].
  rewrite Hb. cbn [default from_option id]. rewrite list_insert_id by (apply Hown; [by left|done]).
  apply IH; [|done]. intros j b' Hj. apply Hown. by right.
Qed.
End vose.

(** ** The table of a router *)

Lemma deficit_perm scaled l l' : l ≡ₚ l' -> deficit scaled l = deficit scaled l'.
Proof. induction 1; cbn [deficit]; lia. Qed.

Lemma deficit_app scaled l l' : deficit scaled (l ++ l') = deficit scaled l + deficit scaled l'.
Proof. induction l; cbn [deficit app]; lia. Qed.

Fixpoint sumZ (l : list Z) : Z := match l with [] => 0 | x :: l => x + sumZ l end.

Lemma deficit_seq scaled k (pre : list Z) :
  (forall i, sc scaled (length pre + i) = sc k i) ->
  deficit scaled (seq (length pre) (length k)) = Z.of_nat (length k) * ALIAS_SCALE - sumZ k.
Proof.
  revert pre. induction k as [|x k IH]; intros pre Hk; [done|].
  cbn [length seq deficit sumZ]. pose proof (Hk 0%nat) as H0. rewrite Nat.add_0_r in H0.
  change (sc (x :: k) 0) with x in H0. rewrite H0.
  replace (S (length pre)) with (length (pre ++ [x])) by (rewrite length_app; cbn; lia).
  rewrite IH; [lia|]. intros i. rewrite length_app. cbn [length].
  rewrite <- Nat.add_assoc, Hk. done.
Qed.

Lemma stacks_perm scaled : small_of scaled ++ large_of scaled ≡ₚ seq 0 (length scaled).
Proof.
  unfold small_of, large_of. rewrite <- !Permutation_rev. apply filter_app_complement.
Qed.

(** The rounding of the scaled weights loses less than one unit per backend. *)
Lemma scaled_sum (ws : list (BackendId * Z)) (n T : Z) :
  0 < T -> 0 <= n ->
  let k := (fun '(_, w) => w * n * ALIAS_SCALE / T) <$> ws in
  T * sumZ k <= total_weight ws * n * ALIAS_SCALE /\
  total_weight ws * n * ALIAS_SCALE <= T * sumZ k + Z.of_nat (length ws) * (T - 1).
Proof.
  intros HT Hn k. subst k. induction ws as [|[b w] ws IH]; [cbn; lia|].
  cbn [fmap list_fmap sumZ total_weight foldr snd length] in *. fold (total_weight ws) in *.
  pose proof (Z.div_mod (w * n * ALIAS_SCALE) T ltac:(lia)).
  pose proof (Z.mod_pos_bound (w * n * ALIAS_SCALE) T HT). lia.
Qed.

Lemma scaled_weights_exact weights :
  Forall (fun w => in_u32 (snd w)) weights -> (length weights <= MAX_WEIGHTED_BACKENDS)%nat ->
  scaled_weights weights (total_weight weights) =
    (fun '(_, w) => w * Z.of_nat (length weights) * ALIAS_SCALE / total_weight weights) <$> weights.
Proof.
  intros Hw Hn. unfold scaled_weights, MAX_WEIGHTED_BACKENDS in *.
  apply list_fmap_ext. intros i [b w] Hi. rewrite Forall_forall in Hw.
  assert (Hu : in_u32 w) by (apply (Hw (b, w)); by eapply list_elem_of_lookup_2).
  unfold in_uint in *. unfold wrapping_mul. change ALIAS_SCALE with (2 ^ 24).
  rewrite (wrap_small 64 (w * _)) by (unfold in_uint; nia).
  by rewrite wrap_small by (unfold in_uint; nia).
Qed.

Definition weights_ok (weights : list (BackendId * Z)) : Prop :=
  weights <> [] /\ (length weights <= MAX_WEIGHTED_BACKENDS)%nat /\
  Forall (fun w => 0 < snd w /\ in_u32 (snd w)) weights /\ NoDup (fst <$> weights).

Lemma total_weight_pos weights : weights_ok weights -> 0 < total_weight weights.
Proof.
  intros (Hne & _ & Hw & _). destruct weights as [|w ws]; [done|]. clear Hne. revert w Hw.
  induction ws as [|w' ws IH]; intros w [[Hw _] Hws]%Forall_cons; [cbn; lia|].
  specialize (IH w' Hws). cbn [total_weight foldr] in *. fold (total_weight ws) in *. lia.
Qed.

(** What the table lacks in total, before any pairing. *)
Lemma vose_start weights :
  weights_ok weights ->
  let scaled := scaled_weights weights (total_weight weights) in
  exists d, 0 <= d < Z.of_nat (length weights) /\
    vose_inv (fst <$> weights) scaled d (small_of scaled) (large_of scaled) scaled
      (own_entry <$> (fst <$> weights)).
Proof.
  intros Hok scaled. pose proof (total_weight_pos _ Hok) as HT.
  destruct Hok as (Hne & Hn & Hw & Hnd).
  assert (Hu : Forall (fun w => in_u32 (snd w)) weights) by (eapply Forall_impl; [exact Hw|]; by intros ? []).
  assert (Hlen : length scaled = length weights) by apply length_fmap.
  pose proof (scaled_sum weights (Z.of_nat (length weights)) (total_weight weights) HT ltac:(lia)) as Hsum.
  cbv zeta in Hsum. rewrite <- scaled_weights_exact in Hsum by done. fold scaled in Hsum.
  assert (Hdef : deficit scaled (small_of scaled) + deficit scaled (large_of scaled)
    = Z.of_nat (length weights) * ALIAS_SCALE - sumZ scaled).
  { rewrite <- deficit_app, (deficit_perm _ _ _ (stacks_perm scaled)), <- Hlen.
    by apply (deficit_seq scaled scaled []). }
  assert (Hmem : forall i, i ∈ small_of scaled ++ large_of scaled <-> (i < length weights)%nat)
    by (intros i; rewrite (stacks_perm scaled), elem_of_seq, Hlen; lia).
  assert (Hscp : forall i, 0 <= sc scaled i).
  { intros i. unfold sc. destruct (scaled !! i) as [x|] eqn:E; [|done]. cbn.
    unfold scaled, scaled_weights in E. apply list_lookup_fmap_Some in E as ([b w] & -> & _).
    apply Z.div_pos; [|lia]. apply wrap_range. lia. }
  eexists. split; [|constructor; try exact Hdef]; try done.
  - assert (0 < Z.of_nat (length weights)) by (destruct weights; cbn; [done|lia]).
    set (W := total_weight weights) in *. set (n := Z.of_nat (length weights)) in *.
    split; nia.
  - rewrite (stacks_perm scaled). apply NoDup_seq.
  - by rewrite !length_fmap, Hlen.
  - rewrite length_fmap. apply Forall_forall. intros i Hi. by apply Hmem.
  - apply Forall_forall. intros i. unfold small_of. rewrite <- Permutation_rev.
    intros [Hi _]%list_elem_of_filter. by split.
  - apply Forall_forall. intros i. unfold large_of. rewrite <- Permutation_rev.
    intros [Hi _]%list_elem_of_filter. unfold sc. lia.
  - intros i b _ Hb. by rewrite list_lookup_fmap, Hb.
  - apply Forall_fmap, Forall_true. intros b. cbn. done.
  - apply Forall_fmap, Forall_forall. intros b Hb. by split.
  - intros i b Hb. rewrite mass_own by done.
    rewrite decide_True by by eapply list_elem_of_lookup_2.
    rewrite decide_True; [lia|]. apply Hmem. rewrite <- (length_fmap fst). by eapply lookup_lt_Some.
Qed.

Lemma build_table_spec weights :
  weights_ok weights ->
  let scaled := scaled_weights weights (total_weight weights) in
  length (build_table weights) = length weights /\
  Forall (fun e => 0 <= prob_scaled e <= ALIAS_SCALE) (build_table weights) /\
  Forall (fun e => primary e ∈ fst <$> weights /\ alias e ∈ fst <$> weights) (build_table weights) /\
  forall i b, (fst <$> weights) !! i = Some b ->
    0 <= mass b (build_table weights) - sc scaled i < Z.of_nat (length weights).
Proof.
  intros Hok scaled. destruct (vose_start weights Hok) as (d & Hd & Hinv). fold scaled in Hinv.
  unfold build_table. fold scaled. set (ids := fst <$> weights) in *.
  assert (Hlen : (length (small_of scaled) + length (large_of scaled))%nat = length weights).
  { rewrite <- length_app, (Permutation_length (stacks_perm scaled)), length_seq. apply length_fmap. }
  destruct (pair_loop_inv ids scaled d ltac:(apply Hok) (S (length weights)) _ _ _ _ Hinv ltac:(lia))
    as (small & large & scaled' & t & Hinv' & Hend & ->).
  assert (Hsub : forall i, i ∈ rev (tail large) ++ rev (tail small) -> i ∈ small ++ large).
  { intros i. rewrite <- !Permutation_rev, !elem_of_app.
    intros [Hi|Hi]; [right; by destruct large; [|right]|left; by destruct small; [|right]]. }
  pose proof Hinv' as [_ [_ Hlt] Hrg _ _ Hown Hprob Hids Hmass _].
  rewrite settle_id.
  - split; [by rewrite Hlt; apply length_fmap|]. split_and!; [done..|]. intros i b Hb. rewrite (Hmass i b Hb).
    case_decide as Hi; [|lia].
    pose proof (leftover_bound ids scaled d small large scaled' t i Hinv' Hend ltac:(lia) Hi). lia.
  - intros i b Hi Hb. apply Hown; [by apply Hsub|done].
  - apply Forall_forall. intros i Hi. by apply (proj1 (Forall_forall _ _) Hrg), Hsub.
Qed.

(** How many (bucket, coin) outcomes of [sample] pick [b]. *)
Fixpoint hits (b : BackendId) (t : list AliasEntry) : Z :=
  match t with
  | [] => 0
  | e :: t => Z.of_nat (length (filter (fun coin => pick e coin = b) (seqZ 0 ALIAS_SCALE))) + hits b t
  end.

Lemma hits_mass b t : Forall (fun e => 0 <= prob_scaled e <= ALIAS_SCALE) t -> hits b t = mass b t.
Proof.
  induction 1 as [|e t He Ht IH]; [done|].
  change (Z.of_nat (length (filter (fun coin => pick e coin = b) (seqZ 0 ALIAS_SCALE))) + hits b t
    = contrib b e + mass b t).
  by rewrite contrib_counts, IH.
Qed.

Lemma with_seed_some weights seed r :
  with_seed weights seed = Some r ->
  weights <> [] /\ (length weights <= MAX_WEIGHTED_BACKENDS)%nat /\
  Forall (fun w => 0 < snd w) weights /\
  r = mkWeighted (build_table weights) (fst <$> weights) (Z.max seed 1).
Proof.
  unfold with_seed. do 2 (case_decide; [done|]). case_decide as He; [done|]. zcases; [done|].
  intros [= <-]. split_and!; [done|lia| |done].
  apply not_Exists_Forall in He; [|apply _]. eapply Forall_impl; [exact He|]. cbn. lia.
Qed.

(** [C16] The alias table realises the weights: of the [n * 2^24] equally likely pairs of
    bucket and coin, the number that pick a backend of weight [w] out of [total] is
    [w * n * 2^24 / total] rounded down, plus at most [n - 1].  So every backend is drawn
    with its exact share to within [2^-24], for every weight vector the constructor
    accepts. *)
Theorem alias_table_mass weights seed r i b w :
  with_seed weights seed = Some r -> NoDup (fst <$> weights) ->
  Forall (fun w => in_u32 (snd w)) weights -> weights !! i = Some (b, w) ->
  let n := Z.of_nat (length weights) in
  let share := w * n * ALIAS_SCALE / total_weight weights in
  share <= hits b (table r) <= share + (n - 1).
Proof.
  intros (Hne & Hn & Hpos & ->)%with_seed_some Hnd Hu Hi n share. cbn [table].
  assert (Hok : weights_ok weights).
  { split_and!; [done..| |done]. apply Forall_forall. intros x Hx. rewrite Forall_forall in Hpos, Hu. auto. }
  destruct (build_table_spec weights Hok) as (_ & Hprob & _ & Hmass).
  rewrite hits_mass by done. specialize (Hmass i b).
  rewrite list_lookup_fmap, Hi in Hmass. specialize (Hmass eq_refl).
  rewrite scaled_weights_exact in Hmass by done.
  unfold sc in Hmass. rewrite list_lookup_fmap, Hi in Hmass.
  cbn [fmap option_fmap option_map default from_option id] in Hmass.
  fold n in Hmass. fold share in Hmass. lia.
Qed.

Definition demo_weights : list (BackendId * Z) := [(10, 1); (11, 3); (12, 5)].

Lemma alias_table_mass_witness :
  let t := [mkEntry 10 12 5592405; mkEntry 11 11 16777216; mkEntry 12 11 16777215] in
  3 * 3 * ALIAS_SCALE / 9 <= hits 11 t <= 3 * 3 * ALIAS_SCALE / 9 + (3 - 1).
Proof.
  apply (alias_table_mass demo_weights 1 (mkWeighted
    [mkEntry 10 12 5592405; mkEntry 11 11 16777216; mkEntry 12 11 16777215] [10; 11; 12] 1) 1 11 3).
  - vm_compute. reflexivity.
  - apply (bool_decide_unpack _). reflexivity.
  - repeat constructor; cbn; lia.
  - reflexivity.
Defined.

(** ** The generator never reaches zero *)

Lemma lxor_uint w a b : 0 <= w -> in_uint w a -> in_uint w b -> in_uint w (Z.lxor a b).
Proof.
  intros Hw Ha Hb. unfold in_uint in *. split; [apply Z.lxor_nonneg; lia|].
  destruct (decide (Z.lxor a b = 0)) as [->|Hne]; [by apply Z.pow_pos_nonneg|].
  apply Z.log2_lt_cancel. rewrite Z.log2_pow2 by done.
  eapply Z.le_lt_trans; [apply Z.log2_lxor; lia|].
  assert (Hlog : forall x, 0 <= x < 2 ^ w -> Z.log2 x < w \/ w = 0).
  { intros x Hx. destruct (decide (w = 0)); [by right|left].
    destruct (decide (x = 0)) as [->|]; [cbn; lia|]. apply Z.log2_lt_pow2; lia. }
  destruct (Hlog a Ha), (Hlog b Hb); try lia; subst w; exfalso; apply Hne;
    assert (a = 0) as -> by lia; assert (b = 0) as -> by lia; done.
Qed.

(** A shift to the left never cancels a nonzero word: [2^k - 1] is odd. *)
Lemma xor_shiftl_nonzero k x :
  Z.gcd (2 ^ 64) (2 ^ k - 1) = 1 -> 0 <= k -> in_u64 x -> x <> 0 ->
  Z.lxor x (wrap 64 (Z.shiftl x k)) <> 0.
Proof.
  intros Hg Hk Hx Hne He. apply Z.lxor_eq in He. unfold wrap in He.
  rewrite Z.shiftl_mul_pow2 in He by done.
  assert (Hdiv : (2 ^ 64 | (2 ^ k - 1) * x)).
  { apply Z.mod_divide; [done|]. replace ((2 ^ k - 1) * x) with (x * 2 ^ k - x) by ring.
    rewrite Zminus_mod, <- He. rewrite (Z.mod_small x) by exact Hx. by rewrite Z.sub_diag. }
  apply (fun H => Z.gauss _ _ _ H Hg) in Hdiv.
  apply Z.divide_pos_le in Hdiv; unfold in_uint in Hx; lia.
Qed.

Lemma xor_shiftr_nonzero k x : 0 < k -> in_u64 x -> x <> 0 -> Z.lxor x (Z.shiftr x k) <> 0.
Proof.
  intros Hk Hx Hne He. apply Z.lxor_eq in He. rewrite Z.shiftr_div_pow2 in He by lia.
  assert (x / 2 ^ k < x); [|lia]. unfold in_uint in Hx. apply Z.div_lt; [lia|].
  by apply Z.pow_gt_1.
Qed.

Lemma shiftr_uint w x k : 0 <= w -> 0 <= k -> in_uint w x -> in_uint w (Z.shiftr x k).
Proof.
  intros Hw Hk Hx. unfold in_uint in *. rewrite Z.shiftr_div_pow2 by done.
  assert (0 < 2 ^ k) by (apply Z.pow_pos_nonneg; lia).
  split; [apply Z.div_pos; lia|]. apply Z.div_lt_upper_bound; nia.
Qed.

(** The states of a constructed generator. *)
Definition rng_ok (x : Z) : Prop := in_u64 x /\ x <> 0.

Lemma xorshift64_ok x : rng_ok x -> rng_ok (xorshift64 x).
Proof.
  intros [Hu Hne]. unfold xorshift64.
  set (a := Z.lxor x (wrap 64 (Z.shiftl x 13))).
  assert (Ha : rng_ok a).
  { split; [apply lxor_uint; [lia|done|by apply wrap_range]|by apply xor_shiftl_nonzero]. }
  set (b := Z.lxor a (Z.shiftr a 7)).
  assert (Hb : rng_ok b).
  { destruct Ha. split; [apply lxor_uint; [lia|done|by apply shiftr_uint]|by apply xor_shiftr_nonzero]. }
  destruct Hb. split; [apply lxor_uint; [lia|done|by apply wrap_range]|by apply xor_shiftl_nonzero].
Qed.

Lemma next_u64_ok x : rng_ok x -> next_u64 x = Some (xorshift64 x).
Proof.
  intros [Hu Hne]. unfold next_u64, in_uint in *. rewrite Z.max_l by lia. by rewrite Z.eqb_refl.
Qed.

(** ** Routing *)

Record weighted_ok (r : WeightedRandomRouter) : Prop := {
  wo_rng : rng_ok (rng_state r);
  wo_table : table r <> [];
  wo_ids : Forall (fun e => primary e ∈ w_backends r /\ alias e ∈ w_backends r) (table r);
}.

Lemma sample_ok r :
  weighted_ok r -> exists b r', sample r = Some (b, r') /\ b ∈ w_backends r /\ weighted_ok r' /\
    w_backends r' = w_backends r.
Proof.
  intros [Hrng Hne Hids]. unfold sample. rewrite next_u64_ok by done. cbn [mbind option_bind].
  destruct (table r !! _) as [e|] eqn:E.
  - cbn. eexists _, _. split; [done|]. pose proof (proj1 (Forall_lookup _ _) Hids _ _ E) as [Hp Ha].
    split_and!; [unfold pick; by case_match| |done]. constructor; cbn; [by apply xorshift64_ok|done..].
  - apply lookup_ge_None in E. exfalso.
    assert (0 < Z.of_nat (length (table r))) by (destruct (table r); cbn; [done|lia]).
    pose proof (Z.mod_pos_bound (xorshift64 (rng_state r)) (Z.of_nat (length (table r)))). lia.
Qed.

(** What the two loops say of the backends they considered. *)
Definition eligible (sigs : BackendSignals) (b : BackendId) : Prop := is_open (signals_get sigs b) = false.
Definition cool (sigs : BackendSignals) (b : BackendId) : Prop := is_hot (signals_get sigs b) = false.

Definition fallback_ok (sigs : BackendSignals) (P : BackendId -> Prop) (fb : option BackendId) : Prop :=
  match fb with Some b => eligible sigs b /\ P b | None => True end.

Lemma consider_spec sigs b fb P hit fb' :
  fallback_ok sigs P fb -> P b -> consider sigs b fb = (hit, fb') ->
  fallback_ok sigs P fb' /\
  match hit with
  | Some b' => b' = b /\ eligible sigs b /\ cool sigs b
  | None => (eligible sigs b -> is_Some fb' /\ ~ cool sigs b) /\ (is_Some fb -> is_Some fb')
  end.
Proof.
  unfold consider, eligible, cool. intros Hfb Hb Hc.
  destruct (is_open (signals_get sigs b)) eqn:Eo; [by simplify_eq|].
  assert (Hfb' : fallback_ok sigs P (match fb with Some f => Some f | None => Some b end)) by by destruct fb.
  assert (is_Some (match fb with Some f => Some f | None => Some b end)) by by destruct fb; eauto.
  destruct (is_hot (signals_get sigs b)) eqn:Eh; simplify_eq; auto.
Qed.

Lemma sample_loop_ok n sigs fb r (P : BackendId -> Prop) :
  weighted_ok r -> (forall b, b ∈ w_backends r -> P b) -> fallback_ok sigs P fb ->
  exists hit fb' r', sample_loop n sigs fb r = Some (hit, fb', r') /\ weighted_ok r' /\
    w_backends r' = w_backends r /\ fallback_ok sigs P fb' /\
    match hit with Some b => P b /\ eligible sigs b /\ cool sigs b | None => True end.
Proof.
  revert fb r. induction n as [|n IH]; intros fb r Hr HP Hfb; [by exists None, fb, r|].
  cbn [sample_loop]. destruct (sample_ok r Hr) as (b & r1 & -> & Hb & Hr1 & Hbs). cbn [mbind option_bind].
  destruct (consider sigs b fb) as [hit fb1] eqn:Ec.
  apply (consider_spec sigs b fb P) in Ec as [Hfb1 Hhit]; [|done|by apply HP].
  destruct hit as [b'|].
  - destruct Hhit as (-> & He & Hc). exists (Some b), fb1, r1. split_and!; auto.
  - destruct (IH fb1 r1 Hr1) as (hit & fb2 & r2 & -> & Hr2 & Hbs2 & Hfb2 & Hh);
      [by rewrite Hbs|done|]. exists hit, fb2, r2. split_and!; try done. congruence.
Qed.

Lemma scan_loop_spec bs sigs fb (P : BackendId -> Prop) hit fb' :
  (forall b, b ∈ bs -> P b) -> fallback_ok sigs P fb -> scan_loop bs sigs fb = (hit, fb') ->
  fallback_ok sigs P fb' /\
  match hit with
  | Some b => P b /\ eligible sigs b /\ cool sigs b
  | None => (is_Some fb -> is_Some fb') /\
      forall b, b ∈ bs -> eligible sigs b -> is_Some fb' /\ ~ cool sigs b
  end.
Proof.
  revert fb. induction bs as [|b bs IH]; intros fb HP Hfb Hs; cbn [scan_loop] in Hs.
  { simplify_eq. split_and!; try done. by intros b ?%elem_of_nil. }
  destruct (consider sigs b fb) as [h fb1] eqn:Ec.
  apply (consider_spec sigs b fb P) in Ec as [Hfb1 Hh]; [|done|apply HP, list_elem_of_here].
  destruct h as [b'|].
  - simplify_eq. destruct Hh as (-> & He & Hc). split_and!; try done. apply HP, list_elem_of_here.
  - destruct Hh as [Hn Hk]. apply IH in Hs as (Hfb2 & Hres); [|intros ? ?; apply HP; by right|done].
    split; [done|]. destruct hit; [done|]. destruct Hres as [Hk2 Hres]. split; [auto|].
    intros c [->|Hc]%elem_of_cons He; [|by apply Hres]. destruct (Hn He). auto.
Qed.

(** The outcome of [route] in full. *)
Lemma weighted_route_outcome pool sigs r :
  weighted_ok r -> exists d r', weighted_route pool sigs r = Some (d, r') /\ weighted_ok r' /\
    w_backends r' = w_backends r /\
    match d with
    | Send b => backends pool <> [] /\ (b ∈ w_backends r \/ b ∈ backends pool) /\ eligible sigs b /\
        (~ cool sigs b -> forall c, c ∈ backends pool -> eligible sigs c -> ~ cool sigs c)
    | Reject s => (s = BAD_GATEWAY /\ backends pool = []) \/
        (s = SERVICE_UNAVAILABLE /\ backends pool <> [] /\ forall c, c ∈ backends pool -> ~ eligible sigs c)
    | Hedge _ => False
    end.
Proof.
  intros Hr. unfold weighted_route. destruct (backends pool) as [|b0 bs] eqn:Eb.
  { exists (Reject BAD_GATEWAY), r. split; [done|]. split; [done|]. split; [done|]. by left. }
  set (P := fun b => b ∈ w_backends r \/ b ∈ b0 :: bs).
  destruct (sample_loop_ok (length (w_backends r)) sigs None r P Hr) as (hit & fb & r' & -> & Hr' & Hbs & Hfb & Hh);
    [by left|done|]. cbn [mbind option_bind].
  destruct hit as [b|].
  { destruct Hh as (HP & He & Hc). exists (Send b), r'. by split_and!. }
  destruct (scan_loop (b0 :: bs) sigs fb) as [h fb'] eqn:Es.
  apply (scan_loop_spec _ _ _ P) in Es as [Hfb' Hres]; [|by right|done].
  destruct h as [b|]; [destruct Hres as (HP & He & Hc); exists (Send b), r'; by split_and!|].
  destruct Hres as [_ Hres]. destruct fb' as [b|].
  - exists (Send b), r'. destruct Hfb' as [He HP]. split_and!; try done. intros _ c Hc Hec. by destruct (Hres c Hc Hec).
  - exists (Reject SERVICE_UNAVAILABLE), r'. split; [done|]. split; [done|]. split; [done|].
    right. split_and!; try done. intros c Hc Hec. by destruct (Hres c Hc Hec) as [[? ?] _].
Qed.

#[global] Instance weighted_router : Router WeightedRandomRouter := {
  route := fun _ _ pool sigs r => default (Reject SERVICE_UNAVAILABLE, r) (weighted_route pool sigs r);
  on_response := fun _ _ _ r => r;
}.

#[global, refine] Instance weighted_avoids_open : AvoidsOpen WeightedRandomRouter := {
  router_inv := weighted_ok }.
Proof.
  - intros clk req pool sigs r Hr. cbn.
    by destruct (weighted_route_outcome pool sigs r Hr) as (d & r' & -> & Hr' & _).
  - done.
  - intros clk req pool sigs r b Hr. cbn.
    destruct (weighted_route_outcome pool sigs r Hr) as (d & r' & -> & _ & _ & Hd). cbn.
    intros ->. destruct Hd as (_ & _ & He & _). unfold eligible, is_open in He.
    by apply bool_decide_eq_false in He.
Defined.

Lemma with_seed_ok weights seed r :
  weights_ok weights -> in_u64 seed -> with_seed weights seed = Some r -> weighted_ok r.
Proof.
  intros Hok Hs (Hne & _ & _ & ->)%with_seed_some.
  destruct (build_table_spec weights Hok) as (Hlen & _ & Hids & _).
  constructor; cbn; [unfold rng_ok, in_uint in *; lia| |done].
  intros E. rewrite E in Hlen. by destruct weights.
Qed.

(** [route] of a router built by [with_seed], at any later state: it always returns
    (the generator never sticks); it rejects with 502 exactly on an empty pool and with
    503 exactly when every backend of the pool is [Open] and no draw found an eligible
    one; it never sends to an [Open] backend, and it sends to a hot one only when every
    eligible backend of the pool is hot. *)
Theorem weighted_route_spec pool sigs r :
  weighted_ok r ->
  exists d r', weighted_route pool sigs r = Some (d, r') /\ weighted_ok r' /\
    match d with
    | Send b => backends pool <> [] /\ circuit_state (signals_get sigs b) <> Open /\
        (is_hot (signals_get sigs b) = true -> forall c, c ∈ backends pool ->
           circuit_state (signals_get sigs c) = Open \/ is_hot (signals_get sigs c) = true)
    | Reject s => (s = BAD_GATEWAY /\ backends pool = []) \/
        (s = SERVICE_UNAVAILABLE /\ backends pool <> [] /\
           forall c, c ∈ backends pool -> circuit_state (signals_get sigs c) = Open)
    | Hedge _ => False
    end.
Proof.
  intros Hr. destruct (weighted_route_outcome pool sigs r Hr) as (d & r' & Heq & Hr' & _ & Hd).
  assert (Hopen : forall c, eligible sigs c <-> circuit_state (signals_get sigs c) <> Open)
    by (intros c; unfold eligible, is_open; by rewrite bool_decide_eq_false).
  assert (Hclosed : forall c, ~ eligible sigs c <-> circuit_state (signals_get sigs c) = Open)
    by (intros c; unfold eligible, is_open; by rewrite not_false_iff_true, bool_decide_eq_true).
  exists d, r'. split; [done|]. split; [done|]. destruct d as [b| |s]; [|done|].
  - destruct Hd as (Hne & _ & He & Hc). split_and!; [done|by apply Hopen|]. intros Hhot c Hin.
    destruct (is_open (signals_get sigs c)) eqn:Eo; [left; apply Hclosed; unfold eligible; congruence|].
    right. apply not_false_iff_true. apply Hc; [unfold cool; congruence|done|done].
  - destruct Hd as [?|(? & ? & Hall)]; [by left|right]. split_and!; try done.
    intros c Hin. by apply Hclosed, Hall.
Qed.

Lemma weighted_route_spec_witness :
  let sigs := mkSignals [mkSignal Open None (S754_zero false);
                         mkSignal Closed (Some (f32_lit 95 100)) (S754_zero false)] in
  exists d r', weighted_route (mkPool [0; 1]) sigs
      (mkWeighted [mkEntry 0 0 ALIAS_SCALE; mkEntry 1 1 ALIAS_SCALE] [0; 1] 7) = Some (d, r') /\ d = Send 1.
Proof.
  intros sigs. destruct (weighted_route_spec (mkPool [0; 1]) sigs
    (mkWeighted [mkEntry 0 0 ALIAS_SCALE; mkEntry 1 1 ALIAS_SCALE] [0; 1] 7))
    as (d & r' & Heq & _ & _).
  - apply (with_seed_ok [(0, 1); (1, 1)] 7); [|done|by vm_compute].
    split_and!; [done|unfold MAX_WEIGHTED_BACKENDS; cbn; lia|by repeat constructor|by apply (bool_decide_unpack _)].
  - exists d, r'. split; [exact Heq|]. vm_compute in Heq. by simplify_eq.
Defined.

(** ** Round robin *)

#[global] Instance round_robin_router : Router RoundRobinRouter := {
  route := fun _ _ pool _ r => default (Reject BAD_GATEWAY, r) (round_robin_route pool r);
  on_response := fun _ _ _ r => r;
}.

#[global] Instance constant_router : Router ConstantRouter := {
  route := fun _ _ _ _ r => (constant_route r, r);
  on_response := fun _ _ _ r => r;
}.

Fixpoint rr_calls (n : nat) (pool : BackendPool) (r : RoundRobinRouter)
    : option (list RoutingDecision) :=
  match n with
  | O => Some []
  | S n => '(d, r) ← round_robin_route pool r; ds ← rr_calls n pool r; Some (d :: ds)
  end.

Lemma round_robin_step pool c :
  backends pool <> [] -> 0 <= c ->
  round_robin_route pool (mkRoundRobin c) =
    Some (Send (default 0 (backends pool !! (Z.to_nat c mod length (backends pool))%nat)),
          mkRoundRobin (wrapping_add 64 c 1)).
Proof.
  intros Hne Hc. unfold round_robin_route.
  destruct (get_modulo_some pool c Hne) as (b & Hb & _). cbn [cursor]. rewrite Hb.
  unfold get_modulo in Hb. destruct (backends pool) as [|b0 bs]; [done|].
  rewrite Z2Nat.inj_mod, Nat2Z.id in Hb by lia. by rewrite Hb.
Qed.

Lemma rr_calls_spec n pool r :
  backends pool <> [] -> 0 <= cursor r -> cursor r + Z.of_nat n <= 2 ^ 64 ->
  rr_calls n pool r = Some ((fun j => Send (default 0 (backends pool !!
    ((Z.to_nat (cursor r) + j) mod length (backends pool))%nat))) <$> seq 0 n).
Proof.
  intros Hne. revert r. induction n as [|n IH]; intros [c] Hc Hn; cbn [cursor] in *; [done|].
  cbn [rr_calls]. rewrite round_robin_step by done. cbn [mbind option_bind].
  rewrite Nat2Z.inj_succ in Hn. rewrite <- cons_seq. cbn [fmap list_fmap]. rewrite Nat.add_0_r.
  destruct n as [|n]; [done|].
  rewrite IH; cbn [cursor]; unfold wrapping_add; rewrite ?wrap_small by (unfold in_uint; lia); try lia.
  cbn [mbind option_bind]. do 2 f_equal.
  rewrite <- (fmap_S_seq 0), <- list_fmap_compose. apply list_fmap_ext. intros i j _. cbn.
  do 4 f_equal. lia.
Qed.

(** Round robin is exactly fair: from any cursor, as many consecutive calls as the
    pool has backends send to every backend of the pool exactly once, as long as the
    64-bit cursor does not wrap in between. *)
Theorem round_robin_fair pool r :
  backends pool <> [] -> 0 <= cursor r -> cursor r + Z.of_nat (length (backends pool)) <= 2 ^ 64 ->
  exists ds, rr_calls (length (backends pool)) pool r = Some ds /\ ds ≡ₚ Send <$> backends pool.
Proof.
  intros Hne Hc Hn. eexists. split; [by apply rr_calls_spec|].
  assert (Hlen : (0 < length (backends pool))%nat) by (destruct (backends pool); cbn; [done|lia]).
  set (g := fun i => Send (default 0 (backends pool !! i))).
  change ((fun j => Send (default 0 (backends pool !!
    ((Z.to_nat (cursor r) + j) mod length (backends pool))%nat))) <$> seq 0 (length (backends pool)))
    with (g ∘ (fun j => (Z.to_nat (cursor r) + j) mod length (backends pool))%nat
      <$> seq 0 (length (backends pool))).
  rewrite list_fmap_compose, cyclic_seq by done.
  assert (Hall : g <$> seq 0 (length (backends pool)) = Send <$> backends pool); [|by rewrite Hall].
  apply list_eq. intros i. rewrite !list_lookup_fmap. destruct (decide (i < length (backends pool))%nat) as [Hi|Hi].
  - rewrite lookup_seq_lt by done. cbn. unfold g. apply lookup_lt_is_Some_2 in Hi as [b Hb]. by rewrite Hb.
  - rewrite lookup_seq_ge, lookup_ge_None_2 by lia. done.
Qed.

Lemma round_robin_fair_witness :
  exists ds, rr_calls 3 (mkPool [4; 5; 6]) (mkRoundRobin 7) = Some ds /\ ds ≡ₚ [Send 4; Send 5; Send 6].
Proof. apply (round_robin_fair (mkPool [4; 5; 6]) (mkRoundRobin 7)); [done|cbn; lia|cbn; lia]. Defined.

(** At the wrap of the cursor the rotation does jump: with three backends the calls
    just before and just after the wrap both go to the first one, and the others are
    skipped; the wrapped cursor is not congruent to the unwrapped one modulo three. *)
Theorem round_robin_wrap_repeats :
  rr_calls 2 (mkPool [4; 5; 6]) (mkRoundRobin (2 ^ 64 - 1)) = Some [Send 4; Send 4].
Proof. reflexivity. Qed.
