(* ===== verification/KvAware.v ===== *)
(** * KvAware: [KvAwareRouter] of [riftgate-router/src/kv_aware.rs]

    A decorator that remembers, in a trie over the hashes of a body's chunks, which backend
    served a prompt.  The trie is modelled as the tree it is; its specification is a finite
    map from hash sequences to backends.  [xxh3_64] is a parameter.  The read and the write
    of the trie are separate critical sections of one call; the calls are sequential here. *)

From Stdlib Require Import String.
From S2P Require Import Prelude Floats Core Weighted.

Record KvAwareConfig := mkKvConfig {
  prefix_chunk_bytes : nat;
  max_trie_entries : nat;
  min_prefix_bytes_to_route : nat;
}.

Definition KvAwareConfig_default : KvAwareConfig := mkKvConfig 64 (Z.to_nat 100000) 256.

(** ** The trie *)

#[local] Unset Elimination Schemes.
Inductive TrieNode := mkNode (node_backend : option BackendId) (children : gmap Z TrieNode).
#[local] Set Elimination Schemes.

Definition node_backend (t : TrieNode) : option BackendId := let 'mkNode b _ := t in b.
Definition children (t : TrieNode) : gmap Z TrieNode := let 'mkNode _ c := t in c.
Definition TrieNode_default : TrieNode := mkNode None ∅.

Record PrefixTrie := mkTrie { root : TrieNode; count : nat; trie_cap : nat }.

Definition PrefixTrie_new (cap : nat) : PrefixTrie := mkTrie TrieNode_default 0 cap.

(** The backend of the node at the end of a path. *)
Fixpoint at_path (hashes : list Z) (t : TrieNode) : option BackendId :=
  match hashes with
  | [] => node_backend t
  | h :: hashes => c ← children t !! h; at_path hashes c
  end.

(** The walk of [insert] with [entry(h).or_default()], and the assignment at its end. *)
Fixpoint node_insert (hashes : list Z) (b : BackendId) (t : TrieNode) : TrieNode :=
  match hashes with
  | [] => mkNode (Some b) (children t)
  | h :: hashes =>
      mkNode (node_backend t)
        (<[h := node_insert hashes b (default TrieNode_default (children t !! h))]> (children t))
  end.

Definition trie_insert (hashes : list Z) (b : BackendId) (t : PrefixTrie) : PrefixTrie :=
  match hashes with
  | [] => t
  | _ =>
      let t := if (trie_cap t <=? count t)%nat then mkTrie TrieNode_default 0 (trie_cap t) else t in
      let count' := match at_path hashes (root t) with None => S (count t) | Some _ => count t end in
      mkTrie (node_insert hashes b (root t)) count' (trie_cap t)
  end.

Fixpoint longest_loop (hashes : list Z) (t : TrieNode) (best : option BackendId) : option BackendId :=
  match hashes with
  | [] => best
  | h :: hashes =>
      match children t !! h with
      | Some next =>
          longest_loop hashes next (match node_backend next with Some b => Some b | None => best end)
      | None => best
      end
  end.

Definition longest_match (hashes : list Z) (t : PrefixTrie) : option BackendId :=
  longest_loop hashes (root t) None.

(** ** The router *)

Record KvAwareRouter (R : Type) := mkKv {
  kv_inner : R;
  kv_cfg : KvAwareConfig;
  trie : PrefixTrie;
  hits : Z;
  misses : Z;
  breaker_rejections : Z;
}.
Arguments mkKv {R} kv_inner kv_cfg trie hits misses breaker_rejections.
Arguments kv_inner {R} k.
Arguments kv_cfg {R} k.
Arguments trie {R} k.
Arguments hits {R} k.
Arguments misses {R} k.
Arguments breaker_rejections {R} k.

(** [slice::chunks]: pieces of [n] bytes, the last one may be shorter. *)
Fixpoint chunks_loop (fuel n : nat) (bs : list byte) : list (list byte) :=
  match fuel, bs with
  | S fuel, _ :: _ => take n bs :: chunks_loop fuel n (drop n bs)
  | _, _ => []
  end.

Definition chunks_of (n : nat) (bs : list byte) : list (list byte) := chunks_loop (length bs) n bs.

Definition body_bytes (req : Request) : list byte :=
  match req_body req with Empty => [] | Bytes v => v end.

Section kv_aware.
Context {R : Type} `{Router R} (xxh3_64 : list byte -> Z).

Definition kv_new (i : R) (c : KvAwareConfig) : KvAwareRouter R :=
  mkKv i c (PrefixTrie_new (max_trie_entries c)) 0 0 0.

Definition body_hashes (c : KvAwareConfig) (body : list byte) : list Z :=
  map xxh3_64 (chunks_of (Nat.max (prefix_chunk_bytes c) 1) body).

Definition kv_route (clk : Clock) (req : Request) (pool : BackendPool) (sigs : BackendSignals)
    (k : KvAwareRouter R) : RoutingDecision * KvAwareRouter R :=
  if (length (body_bytes req) <? min_prefix_bytes_to_route (kv_cfg k))%nat then
    let '(d, i) := route clk req pool sigs (kv_inner k) in
    (d, mkKv i (kv_cfg k) (trie k) (hits k) (wrapping_add 64 (misses k) 1) (breaker_rejections k))
  else
    let hashes := body_hashes (kv_cfg k) (body_bytes req) in
    let hit := longest_match hashes (trie k) in
    let miss k :=
      let '(d, i) := route clk req pool sigs (kv_inner k) in
      (d, mkKv i (kv_cfg k) (match d with Send b => trie_insert hashes b (trie k) | _ => trie k end)
            (hits k) (misses k) (breaker_rejections k)) in
    match hit with
    | Some b =>
        match circuit_state (signals_get sigs b) with
        | Closed =>
            (Send b, mkKv (kv_inner k) (kv_cfg k) (trie k) (wrapping_add 64 (hits k) 1) (misses k)
                       (breaker_rejections k))
        | _ => miss (mkKv (kv_inner k) (kv_cfg k) (trie k) (hits k) (misses k)
                       (wrapping_add 64 (breaker_rejections k) 1))
        end
    | None => miss (mkKv (kv_inner k) (kv_cfg k) (trie k) (hits k) (wrapping_add 64 (misses k) 1)
                      (breaker_rejections k))
    end.

Definition kv_on_response (clk : Clock) (d : RoutingDecision) (o : Outcome) (k : KvAwareRouter R) :
    KvAwareRouter R :=
  mkKv (on_response clk d o (kv_inner k)) (kv_cfg k) (trie k) (hits k) (misses k) (breaker_rejections k).

Definition kv_router : Router (KvAwareRouter R) := {| route := kv_route; on_response := kv_on_response |}.
End kv_aware.

(** [KvAwareRouter::stats]. *)
Record KvAwareStats := mkKvStats {
  stat_hits : Z;
  stat_misses : Z;
  stat_breaker_rejections : Z;
  stat_entries : nat;
}.

Definition entry_count (t : PrefixTrie) : nat := count t.

Definition kv_stats {R} (k : KvAwareRouter R) : KvAwareStats :=
  mkKvStats (hits k) (misses k) (breaker_rejections k) (entry_count (trie k)).

(** * Proofs *)

(** ** The trie is a map *)

Lemma at_default p : at_path p TrieNode_default = None.
Proof. by destruct p. Qed.

Lemma at_insert p q b t : at_path q (node_insert p b t) = if decide (p = q) then Some b else at_path q t.
Proof.
  revert q t. induction p as [|h p IH]; intros [|h' q] t; cbn [node_insert at_path node_backend children].
  - by rewrite decide_True.
  - by rewrite decide_False.
  - by rewrite decide_False.
  - destruct (decide (h = h')) as [->|Hne].
    + rewrite lookup_insert_eq. cbn [mbind option_bind]. rewrite IH.
      destruct (children t !! h') as [c|]; cbn; rewrite ?at_default; repeat case_decide; congruence.
    + rewrite lookup_insert_ne, decide_False by congruence. done.
Qed.

Lemma longest_loop_spec hashes t best :
  (exists k b, (1 <= k <= length hashes)%nat /\ at_path (take k hashes) t = Some b /\
     (forall j, (k < j <= length hashes)%nat -> at_path (take j hashes) t = None) /\
     longest_loop hashes t best = Some b) \/
  ((forall k, (1 <= k <= length hashes)%nat -> at_path (take k hashes) t = None) /\
   longest_loop hashes t best = best).
Proof.
  revert t best. induction hashes as [|h hashes IH]; intros t best; cbn [longest_loop].
  { right. split; [cbn; lia|done]. }
  destruct (children t !! h) as [next|] eqn:Ec.
  2: { right. split; [|done]. intros [|k] Hk; [lia|]. cbn. by rewrite Ec. }
  assert (Hstep : forall k, at_path (take (S k) (h :: hashes)) t = at_path (take k hashes) next)
    by (intros k; cbn; by rewrite Ec).
  set (best' := match node_backend next with Some b => Some b | None => best end).
  destruct (IH next best') as [(k & b & Hk & Hb & Hdeep & Hl)|[Hnone Hl]].
  - left. exists (S k), b. rewrite Hstep. cbn [length]. split_and!; [lia|lia|done| |done].
    intros [|j] Hj; [lia|]. rewrite Hstep. apply Hdeep. lia.
  - unfold best' in Hl. destruct (node_backend next) as [b|] eqn:Eb.
    + left. exists 1%nat, b. rewrite Hstep. cbn [length]. split_and!; [lia|lia|done| |done].
      intros [|j] Hj; [lia|]. rewrite Hstep. apply Hnone. lia.
    + right. split; [|done]. intros [|[|k]] Hk; [lia|by rewrite Hstep|].
      rewrite Hstep. apply Hnone. cbn in Hk. lia.
Qed.

(** What the longest match of a map is: the value of the deepest prefix it knows. *)
Definition longest_of (m : gmap (list Z) BackendId) (hashes : list Z) (r : option BackendId) : Prop :=
  match r with
  | Some b => exists k, (k <= length hashes)%nat /\ m !! take k hashes = Some b /\
                forall j, (k < j <= length hashes)%nat -> m !! take j hashes = None
  | None => forall k, (k <= length hashes)%nat -> m !! take k hashes = None
  end.

(** The abstract map of a trie: its paths, none of them empty, and its size. *)
Record represents (t : PrefixTrie) (m : gmap (list Z) BackendId) : Prop := {
  rep_paths : forall p, m !! p = at_path p (root t);
  rep_root : m !! [] = None;
  rep_count : count t = size m;
}.

Definition map_insert (cap : nat) (hashes : list Z) (b : BackendId) (m : gmap (list Z) BackendId) :
    gmap (list Z) BackendId :=
  match hashes with
  | [] => m
  | _ => <[hashes := b]> (if (cap <=? size m)%nat then ∅ else m)
  end.

Lemma new_represents cap : represents (PrefixTrie_new cap) ∅.
Proof. split; [|done|done]. intros p. cbn. by rewrite at_default. Qed.

Lemma insert_represents t m hashes b :
  represents t m -> represents (trie_insert hashes b t) (map_insert (trie_cap t) hashes b m).
Proof.
  destruct hashes as [|h hashes]; [done|]. intros [Hp Hr Hc]. unfold trie_insert, map_insert.
  set (t0 := if (trie_cap t <=? count t)%nat then _ else _). rewrite <- Hc.
  set (m0 := if (trie_cap t <=? count t)%nat then ∅ else m).
  assert (Hrep : represents t0 m0).
  { unfold t0, m0. destruct (_ <=? _)%nat; [|done]. split; [|done|done]. intros p. cbn. by rewrite at_default. }
  clearbody t0 m0. destruct Hrep as [Hp0 Hr0 Hc0]. split; cbn [root count].
  - intros p. rewrite at_insert. case_decide as Hd; [subst; by rewrite lookup_insert_eq|].
    by rewrite lookup_insert_ne.
  - by rewrite lookup_insert_ne.
  - rewrite <- Hp0. rewrite map_size_insert. destruct (m0 !! (h :: hashes)); cbn; lia.
Qed.

Lemma longest_represents t m hashes : represents t m -> longest_of m hashes (longest_match hashes t).
Proof.
  intros [Hp Hr _]. unfold longest_match.
  destruct (longest_loop_spec hashes (root t) None) as [(k & b & Hk & Hb & Hd & ->)|[Hn ->]].
  - exists k. rewrite Hp. split_and!; [lia|done|]. intros j Hj. rewrite Hp. by apply Hd.
  - intros [|k] Hk; [done|]. rewrite Hp. apply Hn. lia.
Qed.

Lemma map_insert_bound cap hashes b m : (1 <= cap)%nat -> (size m <= cap)%nat -> (size (map_insert cap hashes b m) <= cap)%nat.
Proof.
  intros Hc Hm. destruct hashes as [|h hashes]; [done|]. unfold map_insert.
  rewrite map_size_insert. destruct (Nat.leb_spec cap (size m)).
  - rewrite lookup_empty, map_size_empty. lia.
  - destruct (m !! (h :: hashes)); cbn; lia.
Qed.

(** ** The router *)
Section kv_proofs.
Context {R : Type} `{Router R} (xxh3_64 : list byte -> Z).
Implicit Types k : KvAwareRouter R.

Abbreviation hashes_of k req := (body_hashes xxh3_64 (kv_cfg k) (body_bytes req)).
Abbreviation short k req := (length (body_bytes req) <? min_prefix_bytes_to_route (kv_cfg k))%nat.

(** The abstract router: the map, and whether the inner router is asked. *)
Definition kv_step_spec (clk : Clock) (req : Request) (pool : BackendPool) (sigs : BackendSignals)
    k (m : gmap (list Z) BackendId) (d : RoutingDecision) k' (m' : gmap (list Z) BackendId) : Prop :=
  let asked := d = fst (route clk req pool sigs (kv_inner k)) /\
               kv_inner k' = snd (route clk req pool sigs (kv_inner k)) in
  let recorded := match d with Send b => map_insert (trie_cap (trie k)) (hashes_of k req) b m | _ => m end in
  if short k req then asked /\ m' = m
  else exists r, longest_of m (hashes_of k req) r /\
    match r with
    | Some b =>
        if decide (circuit_state (signals_get sigs b) = Closed)
        then d = Send b /\ kv_inner k' = kv_inner k /\ m' = m
        else asked /\ m' = recorded
    | None => asked /\ m' = recorded
    end.

(** One call against the map. *)
Lemma kv_route_map clk req pool sigs k m :
  represents (trie k) m ->
  let '(d, k') := kv_route xxh3_64 clk req pool sigs k in
  exists m', represents (trie k') m' /\ kv_step_spec clk req pool sigs k m d k' m'.
Proof.
  intros Hm. unfold kv_route, kv_step_spec. destruct (short k req).
  { destruct (route clk req pool sigs (kv_inner k)) as [d i]. by exists m. }
  pose proof (longest_represents (trie k) m (hashes_of k req) Hm) as Hl.
  assert (Hrec : forall b, represents (trie_insert (hashes_of k req) b (trie k))
            (map_insert (trie_cap (trie k)) (hashes_of k req) b m)) by (intros b; by apply insert_represents).
  destruct (longest_match (hashes_of k req) (trie k)) as [b|].
  - destruct (circuit_state (signals_get sigs b)) eqn:Ec.
    1: { exists m. split; [done|]. exists (Some b). rewrite Ec. by split. }
    all: cbn [kv_inner trie kv_cfg]; destruct (route clk req pool sigs (kv_inner k)) as [[c|cs|s] i]; eexists;
      (split; [cbn [trie]; (apply Hrec || exact Hm)|]); exists (Some b); rewrite Ec; by split.
  - cbn [kv_inner trie kv_cfg]. destruct (route clk req pool sigs (kv_inner k)) as [[c|cs|s] i]; eexists;
      (split; [cbn [trie]; (apply Hrec || exact Hm)|]); exists None; by split.
Qed.

(** [C29] The trie router implements its map specification: with the trie standing for a
    map from hash sequences to backends, a call sends to the backend of the deepest
    recorded prefix of the body when its breaker is closed, without asking the inner router
    and without changing the map; otherwise, and for a short body, it returns the inner
    decision, and records a [Send] under the whole body's hashes, flushing a full map
    first. *)
Theorem kv_route_refines clk req pool sigs k m :
  represents (trie k) m ->
  let '(d, k') := kv_route xxh3_64 clk req pool sigs k in
  exists m', represents (trie k') m' /\ kv_step_spec clk req pool sigs k m d k' m'.
Proof. apply kv_route_map. Qed.

(** ** Histories *)

Definition kv_call : Type := Clock * Request * BackendPool * BackendSignals.
Definition call_request (c : kv_call) : Request := let '(_, req, _, _) := c in req.

Definition kv_serve k (c : kv_call) : KvAwareRouter R :=
  let '(clk, req, pool, sigs) := c in snd (kv_route xxh3_64 clk req pool sigs k).

(** Every recorded path is the whole body of an earlier request, and the map stays within
    its capacity. *)
Definition kv_inv (c : KvAwareConfig) (reqs : list Request) k : Prop :=
  kv_cfg k = c /\ trie_cap (trie k) = max_trie_entries c /\
  exists m, represents (trie k) m /\
    ((1 <= max_trie_entries c)%nat -> (size m <= max_trie_entries c)%nat) /\
    forall p b, m !! p = Some b -> exists req, req ∈ reqs /\ p = body_hashes xxh3_64 c (body_bytes req).

Lemma kv_route_cfg clk req pool sigs k :
  let k' := snd (kv_route xxh3_64 clk req pool sigs k) in
  kv_cfg k' = kv_cfg k /\ trie_cap (trie k') = trie_cap (trie k).
Proof.
  assert (Hcap : forall b, trie_cap (trie_insert (hashes_of k req) b (trie k)) = trie_cap (trie k))
    by (intros b; unfold trie_insert; destruct (hashes_of k req); [done|]; by destruct (_ <=? _)%nat).
  unfold kv_route. destruct (short k req); [by destruct (route clk req pool sigs _)|].
  destruct (longest_match _ _) as [b|]; [destruct (circuit_state _); [done|..]|].
  all: cbn [kv_inner trie kv_cfg]; destruct (route clk req pool sigs (kv_inner k)) as [[c|cs|s] i]; cbn; by split.
Qed.

Lemma kv_inv_step c reqs k call :
  kv_inv c reqs k -> kv_inv c (reqs ++ [call_request call]) (kv_serve k call).
Proof.
  destruct call as [[[clk req] pool] sigs]. cbn [call_request kv_serve].
  intros (Hcfg & Hcap & m & Hm & Hsize & Hpaths).
  pose proof (kv_route_cfg clk req pool sigs k) as [Hcfg' Hcap'].
  pose proof (kv_route_map clk req pool sigs k m Hm) as Hr.
  destruct (kv_route xxh3_64 clk req pool sigs k) as [d k']. cbn [snd] in *.
  destruct Hr as (m' & Hm' & Hs). split_and!; [congruence|congruence|]. exists m'. split; [done|].
  assert (Hor : m' = m \/ exists b, m' = map_insert (max_trie_entries c) (body_hashes xxh3_64 c (body_bytes req)) b m).
  { unfold kv_step_spec in Hs. rewrite Hcap, Hcfg in Hs. destruct (_ <? _)%nat; [left; tauto|].
    destruct Hs as ([b|] & _ & Hs); [case_decide; [left; tauto|]|]; destruct Hs as [_ ->];
      destruct d; eauto. }
  destruct Hor as [->|[b ->]]; (split; [auto using map_insert_bound|]); intros p b0 Hp.
  - destruct (Hpaths p b0 Hp) as (r & Hr & ->). exists r. split; [apply elem_of_app; by left|done].
  - assert (Hc : p = body_hashes xxh3_64 c (body_bytes req) \/ m !! p = Some b0).
    { unfold map_insert in Hp. destruct (body_hashes xxh3_64 c (body_bytes req)) eqn:E; [by right|].
      apply lookup_insert_Some in Hp as [[-> _]|[_ Hp]]; [by left|right].
      destruct (_ <=? _)%nat; [by rewrite lookup_empty in Hp|done]. }
    destruct Hc as [->|Hp']; [exists req; split; [apply elem_of_app; right; apply list_elem_of_here|done]|].
    destruct (Hpaths p b0 Hp') as (r & Hr & ->). exists r. split; [apply elem_of_app; by left|done].
Qed.

Lemma kv_inv_run c i calls : kv_inv c (call_request <$> calls) (foldl kv_serve (kv_new i c) calls).
Proof.
  induction calls as [|call calls IH] using rev_ind.
  - split_and!; [done|done|]. exists ∅. split_and!; [apply new_represents| |]; [rewrite map_size_empty; lia|].
    intros p b. by rewrite lookup_empty.
  - rewrite foldl_app, fmap_app. cbn [foldl fmap list_fmap]. by apply kv_inv_step.
Qed.

(** The trie names a backend only for a body that begins, chunk for chunk, with the
    whole of an earlier body, and never holds more entries than its capacity.  So two
    prompts that share a long prefix and then differ, the case prefix caching is for, do
    not share a backend through the trie. *)
Theorem kv_hit_needs_whole_body c i calls req b :
  let k := foldl kv_serve (kv_new i c) calls in
  longest_match (body_hashes xxh3_64 c (body_bytes req)) (trie k) = Some b ->
  (exists call, call ∈ calls /\
     body_hashes xxh3_64 c (body_bytes (call_request call)) `prefix_of` body_hashes xxh3_64 c (body_bytes req)) /\
  ((1 <= max_trie_entries c)%nat -> (count (trie k) <= max_trie_entries c)%nat).
Proof.
  intros k Hl. destruct (kv_inv_run c i calls) as (_ & _ & m & Hm & Hsize & Hpaths). split.
  - pose proof (longest_represents _ m (body_hashes xxh3_64 c (body_bytes req)) Hm) as Hs.
    fold k in Hs. rewrite Hl in Hs. destruct Hs as (n & _ & Hb & _).
    destruct (Hpaths _ _ Hb) as (r & Hr & Heq). apply list_elem_of_fmap in Hr as (call & -> & Hc).
    exists call. split; [done|]. rewrite <- Heq. apply prefix_take.
  - fold k in Hm. by rewrite (rep_count _ _ Hm).
Qed.

(** ** Statistics *)

(** How the trie treats a request. *)
Inductive kv_verdict := Hit | Missed | Refused.

#[local] Instance kv_verdict_eq_dec : EqDecision kv_verdict.
Proof. solve_decision. Defined.

Definition verdict k (c : kv_call) : kv_verdict :=
  let '(_, req, _, sigs) := c in
  if short k req then Missed
  else match longest_match (hashes_of k req) (trie k) with
       | Some b => if decide (circuit_state (signals_get sigs b) = Closed) then Hit else Refused
       | None => Missed
       end.

Fixpoint verdicts k (calls : list kv_call) : list kv_verdict :=
  match calls with
  | [] => []
  | c :: calls => verdict k c :: verdicts (kv_serve k c) calls
  end.

Definition tally (v : kv_verdict) (vs : list kv_verdict) : Z := Z.of_nat (length (filter (eq v) vs)).

Lemma tally_cons v v' vs : tally v (v' :: vs) = (if decide (v = v') then 1 else 0) + tally v vs.
Proof. unfold tally. rewrite filter_cons. case_decide; cbn [length]; lia. Qed.

Definition counters k (h m b : Z) : Prop := hits k = wrap 64 h /\ misses k = wrap 64 m /\ breaker_rejections k = wrap 64 b.

Lemma serve_counts k c h m b :
  counters k h m b ->
  let one v := if decide (v = verdict k c) then 1 else 0 in
  counters (kv_serve k c) (h + one Hit) (m + one Missed) (b + one Refused).
Proof.
  destruct c as [[[clk req] pool] sigs]. intros (Hh & Hm & Hb). unfold counters, kv_serve, kv_route, verdict.
  assert (Hw : forall x, wrapping_add 64 (wrap 64 x) 1 = wrap 64 (x + 1))
    by (intros x; unfold wrapping_add, wrap; by rewrite Zplus_mod_idemp_l).
  destruct (short k req).
  { destruct (route clk req pool sigs (kv_inner k)). cbn. by rewrite Hh, Hm, Hb, Hw, !Z.add_0_r. }
  destruct (longest_match _ _) as [x|]; [destruct (circuit_state (signals_get sigs x))|];
    cbn [kv_inner trie kv_cfg]; try destruct (route clk req pool sigs (kv_inner k)); cbn;
    by rewrite Hh, Hm, Hb, Hw, !Z.add_0_r.
Qed.

Lemma run_counts calls k h m b :
  counters k h m b ->
  let vs := verdicts k calls in
  counters (foldl kv_serve k calls) (h + tally Hit vs) (m + tally Missed vs) (b + tally Refused vs).
Proof.
  revert k h m b. induction calls as [|c calls IH]; intros k h m b Hc; cbn [verdicts foldl].
  { by rewrite !Z.add_0_r. }
  cbn zeta. rewrite !tally_cons, !Z.add_assoc. by apply IH, serve_counts.
Qed.

Lemma tally_total vs : tally Hit vs + tally Missed vs + tally Refused vs = Z.of_nat (length vs).
Proof.
  induction vs as [|v vs IH]; [done|]. rewrite !tally_cons. cbn [length]. destruct v; cbn [decide]; repeat case_decide; try done; lia.
Qed.

Lemma verdicts_length calls k : length (verdicts k calls) = length calls.
Proof. revert k. induction calls as [|c calls IH]; intros k; cbn; [done|]. by rewrite IH. Qed.

(** The statistics are exact: each counter is the number of requests the trie treated that
    way, as a 64-bit counter, every request is counted once, and the entries are the recorded
    prefixes, at most [max_trie_entries] of them. *)
Theorem kv_stats_account c i calls :
  let k := foldl kv_serve (kv_new i c) calls in
  let vs := verdicts (kv_new i c) calls in
  stat_hits (kv_stats k) = wrap 64 (tally Hit vs) /\
  stat_misses (kv_stats k) = wrap 64 (tally Missed vs) /\
  stat_breaker_rejections (kv_stats k) = wrap 64 (tally Refused vs) /\
  tally Hit vs + tally Missed vs + tally Refused vs = Z.of_nat (length calls) /\
  exists m, represents (trie k) m /\ stat_entries (kv_stats k) = size m /\
    ((1 <= max_trie_entries c)%nat -> (stat_entries (kv_stats k) <= max_trie_entries c)%nat).
Proof.
  intros k vs. destruct (run_counts calls (kv_new i c) 0 0 0) as (Hh & Hm & Hb); [done|].
  destruct (kv_inv_run c i calls) as (_ & _ & m & Hrep & Hsize & _). split_and!; [done..| |].
  - rewrite tally_total. unfold vs. by rewrite verdicts_length.
  - exists m. fold k in Hrep. cbn [stat_entries kv_stats]. unfold entry_count. by rewrite (rep_count _ _ Hrep).
Qed.
End kv_proofs.

(** Over a router that avoids open backends, the decorator avoids them too. *)
Section kv_avoids.
Context {R : Type} `{AvoidsOpen R} (xxh3_64 : list byte -> Z).

Lemma kv_avoids_open : AvoidsOpen (KvAwareRouter R) (H := kv_router xxh3_64).
Proof.
  refine {| router_inv k := router_inv (kv_inner k) |}.
  - intros clk req pool sigs k Hk. cbn [route kv_router]. unfold kv_route.
    pose proof (route_inv clk req pool sigs (kv_inner k) Hk) as Hi.
    destruct (_ <? _)%nat; [by destruct (route clk req pool sigs _)|].
    destruct (longest_match _ _) as [b|]; [destruct (circuit_state _); [done|..]|];
      cbn [kv_inner]; by destruct (route clk req pool sigs (kv_inner k)).
  - intros clk d o k Hk. by apply on_response_inv.
  - intros clk req pool sigs k b Hk. cbn [route kv_router]. unfold kv_route.
    pose proof (fun b => route_avoids_open clk req pool sigs (kv_inner k) b Hk) as Ha.
    destruct (_ <? _)%nat; [by destruct (route clk req pool sigs _); apply Ha|].
    destruct (longest_match _ _) as [b'|]; [destruct (circuit_state (signals_get sigs b')) eqn:Ec|].
    1: { intros [= ->]. congruence. }
    all: cbn [kv_inner]; destruct (route clk req pool sigs (kv_inner k)); apply Ha.
Qed.
End kv_avoids.

(** ** Concrete runs *)

Definition demo_kv_cfg : KvAwareConfig := mkKvConfig 2 10 2.
Definition demo_hash (bs : list byte) : Z := from_le_bytes bs.
Definition prompt (text : string) : Request :=
  mkRequest 1 Post "/v1/chat/completions" Headers_new (Bytes (list_byte_of_string text)).
Definition ask (text : string) : kv_call := (fun _ => 0, prompt text, mkPool [3], mkSignals []).

Lemma kv_route_refines_witness :
  let k := kv_new (mkConstant 3) demo_kv_cfg in
  let '(d, k') := kv_route demo_hash (fun _ => 0) (prompt "abcd") (mkPool [3]) (mkSignals []) k in
  exists m', represents (trie k') m' /\
    kv_step_spec demo_hash (fun _ => 0) (prompt "abcd") (mkPool [3]) (mkSignals []) k ∅ d k' m'.
Proof.
  exact (kv_route_refines demo_hash (fun _ => 0) (prompt "abcd") (mkPool [3]) (mkSignals [])
    (kv_new (mkConstant 3) demo_kv_cfg) ∅ (new_represents 10)).
Defined.

(** A body that extends an earlier one at a chunk boundary hits. *)
Lemma kv_hit_needs_whole_body_witness :
  (exists call, call ∈ [ask "abcd"] /\
     body_hashes demo_hash demo_kv_cfg (body_bytes (call_request call))
       `prefix_of` body_hashes demo_hash demo_kv_cfg (body_bytes (prompt "abcdef"))) /\
  ((1 <= max_trie_entries demo_kv_cfg)%nat ->
   (count (trie (foldl (kv_serve demo_hash) (kv_new (mkConstant 3) demo_kv_cfg) [ask "abcd"]))
      <= max_trie_entries demo_kv_cfg)%nat).
Proof.
  exact (kv_hit_needs_whole_body demo_hash demo_kv_cfg (mkConstant 3) [ask "abcd"] (prompt "abcdef") 3
           ltac:(by vm_compute)).
Defined.

(** Two prompts that share their first chunks and end differently: two misses. *)
Example shared_prefix_misses :
  let k := foldl (kv_serve demo_hash) (kv_new (mkConstant 3) demo_kv_cfg) [ask "abcdeX"; ask "abcdeY"] in
  hits k = 0 /\ misses k = 2.
Proof. by vm_compute. Qed.
