(* ===== verification/Circuit.v ===== *)
(** * Circuit: [CircuitBreakerArbiter] of [riftgate-router/src/circuit.rs]

    A decorator over any inner router.  The packed words, the two maps and every branch of
    [route] and [on_response] are the source's; the theorems are stated for an inner router
    that keeps the promise [AvoidsOpen], as [WeightedRandomRouter] does.  The two mutexes
    are modelled separately, as a machine of lock requests. *)

From Stdlib Require Import SpecFloat.
From S2P Require Import Prelude Floats Core Weighted.

(** ** Data *)

(** Durations in nanoseconds. *)
Record CircuitBreakerConfig := mkBreakerConfig {
  failure_threshold : Z;
  reset_timeout : Z;
  half_open_max : Z;
}.

Definition CircuitBreakerConfig_default : CircuitBreakerConfig :=
  mkBreakerConfig 5 30000000000 1.

Definition pack_state (tag failures : Z) : Z := Z.lor (Z.shiftl tag 32) failures.
Definition unpack_state (s : Z) : Z * Z := (wrap 32 (Z.shiftr s 32), wrap 32 (Z.land s (Z.ones 32))).

Definition TAG_CLOSED : Z := 0.
Definition TAG_OPEN : Z := 1.
Definition TAG_HALF_OPEN : Z := 2.

Record BackendBreaker := mkBreaker { state : Z; half_open_inflight : Z }.
Definition BackendBreaker_new : BackendBreaker := mkBreaker (pack_state TAG_CLOSED 0) 0.

Record CircuitBreakerArbiter (R : Type) := mkArbiter {
  inner : R;
  cfg : CircuitBreakerConfig;
  breakers : gmap BackendId BackendBreaker;
  transitioned_at : gmap BackendId Z;
}.
Arguments mkArbiter {R}.
Arguments inner {R}.
Arguments cfg {R}.
Arguments breakers {R}.
Arguments transitioned_at {R}.

Definition counts_as_failure (s : StatusCode) : bool :=
  if 500 <=? s then true else (s =? 408) || (s =? 429).

Definition tag_to_state (tag : Z) : CircuitState :=
  if tag =? TAG_OPEN then Open else if tag =? TAG_HALF_OPEN then HalfOpen else Closed.

Definition breaker_tag (b : BackendBreaker) : Z := fst (unpack_state (state b)).

(** The test of [record_outcome]. *)
Definition outcome_failed (o : Outcome) : bool :=
  negb (out_ok o) || match out_status o with Some s => counts_as_failure s | None => false end.

Section arbiter.
Context {R : Type} `{Router R}.

Definition new (i : R) (c : CircuitBreakerConfig) : CircuitBreakerArbiter R := mkArbiter i c ∅ ∅.

Definition state_of (b : BackendId) (a : CircuitBreakerArbiter R) : CircuitState :=
  match breakers a !! b with
  | Some br => tag_to_state (breaker_tag br)
  | None => Closed
  end.

Definition ensure_backend (b : BackendId) (a : CircuitBreakerArbiter R) : CircuitBreakerArbiter R :=
  match breakers a !! b with
  | Some _ => a
  | None => mkArbiter (inner a) (cfg a) (<[b := BackendBreaker_new]> (breakers a)) (transitioned_at a)
  end.

Definition maybe_transition_open_to_halfopen (now : Z) (b : BackendId)
    (a : CircuitBreakerArbiter R) : CircuitBreakerArbiter R :=
  match breakers a !! b with
  | Some br =>
      if breaker_tag br =? TAG_OPEN then
        match transitioned_at a !! b with
        | Some t =>
            if reset_timeout (cfg a) <=? now - t then
              mkArbiter (inner a) (cfg a)
                (<[b := mkBreaker (pack_state TAG_HALF_OPEN 0) 0]> (breakers a))
                (<[b := now]> (transitioned_at a))
            else a
        | None => a
        end
      else a
  | None => a
  end.

(** The first loop of [route]; each iteration reads the clock once. *)
Fixpoint prepare (clk : Clock) (bs : list BackendId) (a : CircuitBreakerArbiter R)
    : CircuitBreakerArbiter R :=
  match bs with
  | [] => a
  | b :: bs =>
      prepare (fun i => clk (S i)) bs
        (maybe_transition_open_to_halfopen (clk 0%nat) b (ensure_backend b a))
  end.

(** The signal the inner router sees of one backend. *)
Definition present (a : CircuitBreakerArbiter R) (b : BackendId) (s : BackendSignal) : BackendSignal :=
  match breakers a !! b with
  | Some br =>
      let cs :=
        if (breaker_tag br =? TAG_HALF_OPEN) && (half_open_max (cfg a) <=? half_open_inflight br)
        then Open else tag_to_state (breaker_tag br) in
      mkSignal cs (gpu_pressure s) (recent_p99_ms s)
  | None => s
  end.

(** [build_signals]: a vector up to the largest id of the pool, the caller's signals,
    then the breakers' states. *)
Definition build_signals (pool : BackendPool) (sigs : BackendSignals)
    (a : CircuitBreakerArbiter R) : BackendSignals :=
  let max_id := foldr (fun b m => Nat.max (Z.to_nat b) m) 0%nat (backends pool) in
  let out := replicate (S max_id) BackendSignal_default in
  let out := foldl (fun out b => <[Z.to_nat b := signals_get sigs b]> out) out (backends pool) in
  let out := foldl (fun out b => alter (present a b) (Z.to_nat b) out) out (backends pool) in
  mkSignals out.

(** The probe count of [route]. *)
Definition count_probe (d : RoutingDecision) (a : CircuitBreakerArbiter R) : CircuitBreakerArbiter R :=
  match d with
  | Send b =>
      match breakers a !! b with
      | Some br =>
          if breaker_tag br =? TAG_HALF_OPEN then
            mkArbiter (inner a) (cfg a)
              (<[b := mkBreaker (state br) (wrapping_add 64 (half_open_inflight br) 1)]> (breakers a))
              (transitioned_at a)
          else a
      | None => a
      end
  | _ => a
  end.

(** [route] takes the breakers' lock several times.  Its first half ends when
    [build_signals] gives the lock back; the second half asks the inner router and locks
    again to count the probe.  Other calls may run in between. *)
Definition route_begin (clk : Clock) (pool : BackendPool) (sigs : BackendSignals)
    (a : CircuitBreakerArbiter R) : BackendSignals * CircuitBreakerArbiter R :=
  let a := prepare clk (backends pool) a in
  (build_signals pool sigs a, a).

Definition route_finish (clk : Clock) (req : Request) (pool : BackendPool) (merged : BackendSignals)
    (a : CircuitBreakerArbiter R) : RoutingDecision * CircuitBreakerArbiter R :=
  let '(d, i) := route clk req pool merged (inner a) in
  (d, count_probe d (mkArbiter i (cfg a) (breakers a) (transitioned_at a))).

Definition circuit_route (clk : Clock) (req : Request) (pool : BackendPool)
    (sigs : BackendSignals) (a : CircuitBreakerArbiter R)
    : RoutingDecision * CircuitBreakerArbiter R :=
  let '(merged, a) := route_begin clk pool sigs a in
  route_finish (fun k => clk (length (backends pool) + k)%nat) req pool merged a.

Definition set_breaker (b : BackendId) (br : BackendBreaker) (a : CircuitBreakerArbiter R)
    : CircuitBreakerArbiter R :=
  mkArbiter (inner a) (cfg a) (<[b := br]> (breakers a)) (transitioned_at a).

Definition set_transitioned (b : BackendId) (now : Z) (a : CircuitBreakerArbiter R)
    : CircuitBreakerArbiter R :=
  mkArbiter (inner a) (cfg a) (breakers a) (<[b := now]> (transitioned_at a)).

Definition record_outcome (now : Z) (o : Outcome) (a : CircuitBreakerArbiter R)
    : CircuitBreakerArbiter R :=
  let b := out_backend o in
  let a := ensure_backend b a in
  match breakers a !! b with
  | None => a
  | Some br =>
      let '(tag, failures) := unpack_state (state br) in
      if tag =? TAG_CLOSED then
        if outcome_failed o then
          let next := wrapping_add 32 failures 1 in
          if failure_threshold (cfg a) <=? next
          then set_transitioned b now
                 (set_breaker b (mkBreaker (pack_state TAG_OPEN 0) (half_open_inflight br)) a)
          else set_breaker b (mkBreaker (pack_state TAG_CLOSED next) (half_open_inflight br)) a
        else if 0 <? failures
          then set_breaker b (mkBreaker (pack_state TAG_CLOSED 0) (half_open_inflight br)) a
          else a
      else if tag =? TAG_HALF_OPEN then
        if outcome_failed o
        then set_transitioned b now (set_breaker b (mkBreaker (pack_state TAG_OPEN 0) 0) a)
        else set_breaker b (mkBreaker (pack_state TAG_CLOSED 0) 0) a
      else a
  end.

Definition circuit_on_response (clk : Clock) (d : RoutingDecision) (o : Outcome)
    (a : CircuitBreakerArbiter R) : CircuitBreakerArbiter R :=
  let a := record_outcome (clk 0%nat) o a in
  mkArbiter (on_response (fun k => clk (S k)) d o (inner a)) (cfg a) (breakers a) (transitioned_at a).

#[global] Instance circuit_router : Router (CircuitBreakerArbiter R) := {
  route := circuit_route;
  on_response := circuit_on_response;
}.
End arbiter.

(** ** The packed word and the breaker's view *)

Lemma unpack_pack_state tag f : in_u32 tag -> in_u32 f -> unpack_state (pack_state tag f) = (tag, f).
Proof.
  intros Ht Hf. unfold unpack_state, pack_state. rewrite hi_lo_add by (done || lia).
  rewrite hi_of_packed, lo_of_packed by (done || lia). by rewrite !wrap_small.
Qed.

Inductive view := VClosed (failures : Z) | VOpen | VHalfOpen (inflight : Z).

(** The states a breaker goes through: a packed tag, failures only counted when closed. *)
Definition has_view (br : BackendBreaker) (v : view) : Prop :=
  match v with
  | VClosed f => state br = pack_state TAG_CLOSED f /\ in_u32 f
  | VOpen => state br = pack_state TAG_OPEN 0
  | VHalfOpen n => state br = pack_state TAG_HALF_OPEN 0 /\ half_open_inflight br = n
  end.

Lemma view_unpack br v :
  has_view br v ->
  unpack_state (state br) =
    match v with VClosed f => (TAG_CLOSED, f) | VOpen => (TAG_OPEN, 0) | VHalfOpen _ => (TAG_HALF_OPEN, 0) end.
Proof. destruct v as [f| |n]; cbn; [intros [-> Hf]|intros ->|intros [-> _]]; by apply unpack_pack_state. Qed.

Lemma view_tag br v :
  has_view br v ->
  breaker_tag br = match v with VClosed _ => TAG_CLOSED | VOpen => TAG_OPEN | VHalfOpen _ => TAG_HALF_OPEN end.
Proof. intros Hv. unfold breaker_tag. rewrite (view_unpack _ _ Hv). by destruct v. Qed.

Definition cfg_ok (c : CircuitBreakerConfig) : Prop :=
  1 <= failure_threshold c < 2 ^ 32 /\ 0 <= half_open_max c < 2 ^ 32 /\ 0 <= reset_timeout c.

Section breaker.
Context {R : Type} `{Router R}.
Implicit Types a : CircuitBreakerArbiter R.

(** The view of a backend: one never seen is closed. *)
Definition views a (b : BackendId) (v : view) : Prop :=
  has_view (default BackendBreaker_new (breakers a !! b)) v.

Lemma state_of_view a b v :
  views a b v -> state_of b a = match v with VClosed _ => Closed | VOpen => Open | VHalfOpen _ => HalfOpen end.
Proof.
  unfold views, state_of. destruct (breakers a !! b) as [br|] eqn:E; cbn [default from_option id]; intros Hv.
  - rewrite (view_tag _ _ Hv). by destruct v.
  - apply view_tag in Hv. vm_compute in Hv. by destruct v.
Qed.

Lemma ensure_lookup a b : breakers (ensure_backend b a) !! b = Some (default BackendBreaker_new (breakers a !! b)).
Proof.
  unfold ensure_backend. destruct (breakers a !! b) eqn:E; [done|]. cbn. by rewrite lookup_insert_eq.
Qed.

Lemma ensure_views a b c v : views (ensure_backend b a) c v <-> views a c v.
Proof.
  unfold views, ensure_backend. destruct (breakers a !! b) as [br|] eqn:E; [done|]. cbn [breakers].
  destruct (decide (c = b)) as [->|Hne]; [by rewrite lookup_insert_eq, E|by rewrite lookup_insert_ne].
Qed.

Lemma ensure_fixed a b :
  cfg (ensure_backend b a) = cfg a /\ inner (ensure_backend b a) = inner a /\
  transitioned_at (ensure_backend b a) = transitioned_at a.
Proof. unfold ensure_backend. by destruct (breakers a !! b). Qed.

Lemma record_fixed now o a :
  cfg (record_outcome now o a) = cfg a /\ inner (record_outcome now o a) = inner a.
Proof.
  unfold record_outcome. destruct (ensure_fixed a (out_backend o)) as (Hc & Hi & _).
  rewrite ensure_lookup. destruct (unpack_state _) as [tag f].
  repeat case_match; cbn; by rewrite ?Hc, ?Hi.
Qed.

(** The transitions of [record_outcome], one line per arm of the source's match. *)
Definition next_view (c : CircuitBreakerConfig) (failed : bool) (v : view) : view :=
  match v, failed with
  | VClosed f, true => if failure_threshold c <=? f + 1 then VOpen else VClosed (f + 1)
  | VClosed f, false => VClosed 0
  | VHalfOpen _, true => VOpen
  | VHalfOpen _, false => VClosed 0
  | VOpen, _ => VOpen
  end.

Definition view_ok (c : CircuitBreakerConfig) (v : view) : Prop :=
  match v with VClosed f => 0 <= f < failure_threshold c | _ => True end.

Lemma next_view_ok c failed v : cfg_ok c -> view_ok c v -> view_ok c (next_view c failed v).
Proof. intros (Ht & _) Hv. destruct v, failed; cbn in *; zcases; cbn; lia. Qed.

Lemma record_views now o a v :
  cfg_ok (cfg a) -> view_ok (cfg a) v -> views a (out_backend o) v ->
  views (record_outcome now o a) (out_backend o) (next_view (cfg a) (outcome_failed o) v).
Proof.
  intros (Ht & _) Hok Hv. set (b := out_backend o) in *. unfold record_outcome. fold b.
  rewrite ensure_lookup. set (br := default BackendBreaker_new (breakers a !! b)) in *.
  assert (Hself : views (ensure_backend b a) b v) by by apply ensure_views.
  destruct (ensure_fixed a b) as (Hc & _ & _). unfold views in Hv. fold br in Hv.
  rewrite (view_unpack _ _ Hv), Hc. unfold views, set_transitioned, set_breaker.
  destruct v as [f| |n]; cbn [next_view]; cbn -[pack_state Z.leb].
  - cbn in Hok. unfold wrapping_add. rewrite wrap_small by (unfold in_uint; lia).
    destruct (outcome_failed o); zcases; cbn -[pack_state]; rewrite ?lookup_insert_eq; cbn -[pack_state];
      try (split; [done|unfold in_uint; lia]); try done.
    unfold views in Hself. assert (f = 0) as -> by lia. exact Hself.
  - destruct (outcome_failed o); exact Hself.
  - destruct (outcome_failed o); cbn -[pack_state]; rewrite lookup_insert_eq; done.
Qed.

Lemma record_other now o a b v :
  b <> out_backend o -> views (record_outcome now o a) b v <-> views a b v.
Proof.
  intros Hne. rewrite <- (ensure_views a (out_backend o)). unfold record_outcome. rewrite ensure_lookup.
  destruct (unpack_state _) as [tag f]. unfold views.
  repeat case_match; cbn; by rewrite ?lookup_insert_ne by done.
Qed.

(** ** Routing *)

Lemma maybe_fixed now b a :
  cfg (maybe_transition_open_to_halfopen now b a) = cfg a /\
  inner (maybe_transition_open_to_halfopen now b a) = inner a.
Proof. unfold maybe_transition_open_to_halfopen. by repeat case_match. Qed.

Lemma maybe_other now b c a :
  b <> c ->
  breakers (maybe_transition_open_to_halfopen now b a) !! c = breakers a !! c /\
  transitioned_at (maybe_transition_open_to_halfopen now b a) !! c = transitioned_at a !! c.
Proof.
  intros Hne. unfold maybe_transition_open_to_halfopen. repeat case_match; cbn; try done.
  by rewrite !lookup_insert_ne.
Qed.

Lemma prepare_fixed clk bs a : cfg (prepare clk bs a) = cfg a /\ inner (prepare clk bs a) = inner a.
Proof.
  revert clk a. induction bs as [|b bs IH]; intros clk a; [done|]. cbn [prepare].
  destruct (IH (fun i => clk (S i)) (maybe_transition_open_to_halfopen (clk 0%nat) b (ensure_backend b a))) as [-> ->].
  destruct (maybe_fixed (clk 0%nat) b (ensure_backend b a)) as [-> ->].
  destruct (ensure_fixed a b) as (-> & -> & _). done.
Qed.

(** A breaker that is due for no transition goes through [prepare] unchanged. *)
Definition settled (clk : Clock) (n : nat) a (b : BackendId) : Prop :=
  forall br t, breakers a !! b = Some br -> breaker_tag br = TAG_OPEN ->
    transitioned_at a !! b = Some t -> forall i, (i < n)%nat -> clk i - t < reset_timeout (cfg a).

Lemma prepare_settled clk bs a b br :
  breakers a !! b = Some br -> settled clk (length bs) a b ->
  breakers (prepare clk bs a) !! b = Some br /\
  transitioned_at (prepare clk bs a) !! b = transitioned_at a !! b.
Proof.
  revert clk a. induction bs as [|c bs IH]; intros clk a Hb Hs; [done|]. cbn [prepare].
  set (a1 := maybe_transition_open_to_halfopen (clk 0%nat) c (ensure_backend c a)).
  assert (H1 : breakers a1 !! b = Some br /\ transitioned_at a1 !! b = transitioned_at a !! b).
  { unfold a1. destruct (decide (c = b)) as [->|Hne].
    - unfold ensure_backend. rewrite Hb. unfold maybe_transition_open_to_halfopen. rewrite Hb.
      destruct (Z.eqb_spec (breaker_tag br) TAG_OPEN) as [Ht|]; [|done].
      destruct (transitioned_at a !! b) as [t|] eqn:Et; [|done].
      pose proof (Hs br t Hb Ht Et 0%nat ltac:(cbn; lia)). zcases; [lia|]. by rewrite Et.
    - destruct (maybe_other (clk 0%nat) c b (ensure_backend c a) Hne) as [-> ->].
      unfold ensure_backend. destruct (breakers a !! c); [done|]. cbn. by rewrite lookup_insert_ne. }
  destruct H1 as [Hb1 Ht1]. rewrite <- Ht1. apply IH; [done|].
  intros br' t Hbr' Htag Ht i Hi. unfold a1.
  destruct (maybe_fixed (clk 0%nat) c (ensure_backend c a)) as [-> _].
  destruct (ensure_fixed a c) as (-> & _ & _).
  apply (Hs br' t); [congruence|done|congruence|cbn; lia].
Qed.

(** The vector that [build_signals] hands to the inner router. *)
Lemma fill_length sigs bs (out : list BackendSignal) :
  length (foldl (fun out b => <[Z.to_nat b := signals_get sigs b]> out) out bs) = length out.
Proof. revert out; induction bs as [|b bs IH]; intros out; [done|]. cbn. by rewrite IH, length_insert. Qed.

Lemma present_idem a b s : present a b (present a b s) = present a b s.
Proof. unfold present. by destruct (breakers a !! b). Qed.

Lemma overlay_lookup a bs (out : list BackendSignal) b s :
  0 <= b -> Forall (fun c => 0 <= c) bs -> out !! Z.to_nat b = Some s -> present a b s = s \/ b ∈ bs ->
  foldl (fun out b => alter (present a b) (Z.to_nat b) out) out bs !! Z.to_nat b = Some (present a b s).
Proof.
  intros Hb. revert out s. induction bs as [|c bs IH]; intros out s Hpos Hs Hor; cbn [foldl].
  { destruct Hor as [->|Hin]; [done|by apply elem_of_nil in Hin]. }
  apply Forall_cons in Hpos as [Hc Hpos]. destruct (decide (c = b)) as [->|Hne].
  - rewrite (IH _ (present a b s)); [by rewrite present_idem|done|by rewrite list_lookup_alter_eq, Hs|].
    left. apply present_idem.
  - apply IH; [done|rewrite list_lookup_alter_ne by lia; done|].
    destruct Hor as [?|[?|?]%elem_of_cons]; [by left|congruence|by right].
Qed.

Lemma max_id_bound bs b : b ∈ bs -> (Z.to_nat b <= foldr (fun b m => Nat.max (Z.to_nat b) m) 0 bs)%nat.
Proof.
  induction bs as [|c bs IH]; [by intros ?%elem_of_nil|].
  intros [->|Hb]%elem_of_cons; cbn; [lia|]. specialize (IH Hb). lia.
Qed.

Lemma build_signals_state pool sigs a b :
  Forall (fun c => 0 <= c) (backends pool) -> b ∈ backends pool ->
  forall br, breakers a !! b = Some br ->
  circuit_state (signals_get (build_signals pool sigs a) b) =
    if (breaker_tag br =? TAG_HALF_OPEN) && (half_open_max (cfg a) <=? half_open_inflight br)
    then Open else tag_to_state (breaker_tag br).
Proof.
  intros Hpos Hin br Hbr. unfold signals_get, build_signals. cbn [signals].
  set (out := foldl (fun out b => <[Z.to_nat b := signals_get sigs b]> out) _ _).
  assert (Hlt : (Z.to_nat b < length out)%nat).
  { unfold out. rewrite fill_length, length_replicate. pose proof (max_id_bound _ _ Hin). lia. }
  apply lookup_lt_is_Some_2 in Hlt as [s Hs].
  rewrite (overlay_lookup a (backends pool) out b s); [|by apply (proj1 (Forall_forall _ _) Hpos)|done|done|by right].
  cbn [default from_option id]. unfold present. by rewrite Hbr.
Qed.

(** ** Sequences of calls *)

Inductive call :=
| CallRoute (clk : Clock) (req : Request) (pool : BackendPool) (sigs : BackendSignals)
| CallResponse (clk : Clock) (d : RoutingDecision) (o : Outcome).

Fixpoint run_calls (calls : list call) a : list RoutingDecision * CircuitBreakerArbiter R :=
  match calls with
  | [] => ([], a)
  | CallRoute clk req pool sigs :: calls =>
      let '(d, a) := route clk req pool sigs a in
      let '(ds, a) := run_calls calls a in (d :: ds, a)
  | CallResponse clk d o :: calls => run_calls calls (on_response clk d o a)
  end.

(** The pool of a call names the backend, with ids as the [u16]s they are. *)
Definition pool_has (b : BackendId) (pool : BackendPool) : Prop :=
  b ∈ backends pool /\ Forall (fun c => 0 <= c) (backends pool).

Context `{!AvoidsOpen R}.

(** Presented as open: open, or half-open with its probes spent. *)
Definition shut (c : CircuitBreakerConfig) (br : BackendBreaker) : Prop :=
  breaker_tag br = TAG_OPEN \/
  (breaker_tag br = TAG_HALF_OPEN /\ half_open_max c <= half_open_inflight br).

Lemma route_shut clk req pool sigs a b br :
  router_inv (inner a) -> pool_has b pool -> breakers a !! b = Some br -> shut (cfg a) br ->
  settled clk (length (backends pool)) a b ->
  let '(d, a') := circuit_route clk req pool sigs a in
  d <> Send b /\ router_inv (inner a') /\ cfg a' = cfg a /\ breakers a' !! b = Some br /\
  transitioned_at a' !! b = transitioned_at a !! b.
Proof.
  intros Hinv [Hin Hpos] Hbr Hshut Hset. unfold circuit_route, route_begin, route_finish.
  destruct (prepare_settled clk (backends pool) a b br Hbr Hset) as [Hb1 Ht1].
  destruct (prepare_fixed clk (backends pool) a) as [Hc1 Hi1].
  set (a1 := prepare clk (backends pool) a) in *. set (merged := build_signals pool sigs a1).
  set (clk' := fun k => clk (length (backends pool) + k)%nat).
  rewrite <- Hi1 in Hinv. pose proof (route_inv clk' req pool merged _ Hinv) as Hinv'.
  pose proof (fun c => route_avoids_open clk' req pool merged _ c Hinv) as Havoid.
  destruct (route clk' req pool merged (inner a1)) as [d i] eqn:E. cbn [fst snd] in *.
  assert (Hd : d <> Send b).
  { intros ->. apply (Havoid b eq_refl). unfold merged.
    rewrite (build_signals_state pool sigs a1 b Hpos Hin br Hb1), Hc1.
    destruct Hshut as [->|[-> Hle]]; [done|]. by rewrite (proj2 (Z.leb_le _ _) Hle). }
  unfold count_probe. destruct d as [c| |]; cbn [inner cfg breakers transitioned_at]; [|by split_and!..].
  destruct (breakers a1 !! c) as [brc|]; [|by split_and!].
  destruct (breaker_tag brc =? TAG_HALF_OPEN); cbn [inner cfg breakers transitioned_at]; [|by split_and!].
  rewrite lookup_insert_ne by congruence. by split_and!.
Qed.

Lemma record_keeps now o a b br :
  breakers a !! b = Some br -> breaker_tag br = TAG_OPEN \/ out_backend o <> b ->
  breakers (record_outcome now o a) !! b = Some br /\
  transitioned_at (record_outcome now o a) !! b = transitioned_at a !! b.
Proof.
  intros Hbr Hor. unfold record_outcome. rewrite ensure_lookup.
  destruct (decide (out_backend o = b)) as [Hb|Hb].
  - rewrite Hb. destruct Hor as [Htag|]; [|done]. unfold ensure_backend. rewrite Hbr.
    cbn [default from_option id]. unfold breaker_tag in Htag. destruct (unpack_state (state br)) as [tag f]. cbn in Htag. subst tag.
    split; [exact Hbr|reflexivity].
  - assert (Hens : breakers (ensure_backend (out_backend o) a) !! b = Some br).
    { unfold ensure_backend. destruct (breakers a !! out_backend o); [done|]. cbn. by rewrite lookup_insert_ne. }
    destruct (ensure_fixed a (out_backend o)) as (_ & _ & Ht). rewrite <- Ht.
    destruct (unpack_state _) as [tag f]. repeat case_match; cbn; by rewrite ?lookup_insert_ne by done.
Qed.

Lemma route_keeps clk req pool sigs a :
  router_inv (inner a) ->
  let a' := snd (circuit_route clk req pool sigs a) in router_inv (inner a') /\ cfg a' = cfg a.
Proof.
  intros Hinv. unfold circuit_route, route_begin, route_finish.
  destruct (prepare_fixed clk (backends pool) a) as [Hc Hi]. rewrite <- Hi in Hinv.
  pose proof (route_inv (fun k => clk (length (backends pool) + k)%nat) req pool
    (build_signals pool sigs (prepare clk (backends pool) a)) _ Hinv) as Hinv'.
  destruct (route _ _ _ _ _) as [d i]. cbn [snd] in *. unfold count_probe. by repeat case_match.
Qed.

(** A response keeps the inner router's invariant and the configuration. *)
Lemma response_keeps clk d o a :
  router_inv (inner a) ->
  router_inv (inner (circuit_on_response clk d o a)) /\ cfg (circuit_on_response clk d o a) = cfg a.
Proof.
  intros Hinv. unfold circuit_on_response; cbn.
  destruct (record_fixed (clk 0%nat) o a) as [-> ->]. split; [by apply on_response_inv|done].
Qed.

(** A breaker stays shut over any calls that cannot open it. *)
Lemma run_shut (ok : call -> Prop) calls a b br t0 :
  router_inv (inner a) -> breakers a !! b = Some br -> shut (cfg a) br ->
  transitioned_at a !! b = t0 ->
  (forall clk req pool sigs, ok (CallRoute clk req pool sigs) -> pool_has b pool /\
     (breaker_tag br = TAG_OPEN -> forall t, t0 = Some t ->
        forall i, (i < length (backends pool))%nat -> clk i - t < reset_timeout (cfg a))) ->
  (forall clk d o, ok (CallResponse clk d o) -> breaker_tag br = TAG_OPEN \/ out_backend o <> b) ->
  Forall ok calls ->
  (Send b ∉ fst (run_calls calls a)) /\ breakers (snd (run_calls calls a)) !! b = Some br.
Proof.
  intros Hinv Hbr Hshut Ht Hroute Hresp Hok. revert a Hinv Hbr Hshut Ht Hroute.
  induction Hok as [|c calls Hc Hok IH]; intros a Hinv Hbr Hshut Ht Hroute.
  { split; [apply not_elem_of_nil|done]. }
  destruct c as [clk req pool sigs|clk d o]; cbn [run_calls].
  - destruct (Hroute _ _ _ _ Hc) as [Hpool Hclk].
    pose proof (route_shut clk req pool sigs a b br Hinv Hpool Hbr Hshut) as Hr.
    cbn [route circuit_router]. destruct (circuit_route clk req pool sigs a) as [d a1].
    destruct Hr as (Hd & Hinv1 & Hcfg & Hbr1 & Ht1).
    { intros br' t Hbr' Htag Htt. assert (br' = br) as -> by congruence. apply (Hclk Htag t). congruence. }
    destruct (IH a1) as [Hds Hb]; [done|done|by rewrite Hcfg|congruence|by rewrite Hcfg|].
    destruct (run_calls calls a1) as [ds a2]. cbn [fst snd] in *. split; [|done].
    apply not_elem_of_cons. split; [congruence|done].
  - cbn [on_response circuit_router]. destruct (response_keeps clk d o a Hinv) as [Hinv1 Hcfg].
    destruct (record_keeps (clk 0%nat) o a b br Hbr (Hresp _ _ _ Hc)) as [Hb1 Ht1].
    apply IH; [done|done|by rewrite Hcfg|cbn; congruence|by rewrite Hcfg].
Qed.


(** A probe whose response is never reported locks its backend out for good: once
    the probes of a half-open breaker are spent, no later call sends to the backend, at
    whatever time it is made and whatever happens to the other backends, until a response
    of that backend is reported.  No timeout ends this state. *)
Theorem spent_probes_lock_out calls a b br :
  router_inv (inner a) -> breakers a !! b = Some br -> breaker_tag br = TAG_HALF_OPEN ->
  half_open_max (cfg a) <= half_open_inflight br ->
  Forall (fun c => match c with
                   | CallRoute _ _ pool _ => pool_has b pool
                   | CallResponse _ _ o => out_backend o <> b
                   end) calls ->
  (Send b ∉ fst (run_calls calls a)) /\ state_of b (snd (run_calls calls a)) = HalfOpen.
Proof.
  intros Hinv Hbr Htag Hle Hok.
  eapply (run_shut _ calls a b br) in Hok as [Hsend Hb]; [|done..|by right|done| |].
  - split; [done|]. unfold state_of. by rewrite Hb, Htag.
  - intros clk req pool sigs Hp. split; [done|]. intros Ho. by rewrite Htag in Ho.
  - intros clk d o Ho. by right.
Qed.

(** ** The probe budget *)

Definition budget_ok a (b : BackendId) : Prop :=
  exists v, views a b v /\ view_ok (cfg a) v /\
    match v with VHalfOpen n => 0 <= n <= half_open_max (cfg a) | _ => True end.

Lemma maybe_views now b a v :
  views a b v ->
  exists v', views (maybe_transition_open_to_halfopen now b a) b v' /\
    (v' = v \/ (v = VOpen /\ v' = VHalfOpen 0)).
Proof.
  intros Hv. unfold maybe_transition_open_to_halfopen.
  destruct (breakers a !! b) as [br|] eqn:E; [|by eauto].
  destruct (Z.eqb_spec (breaker_tag br) TAG_OPEN) as [Ht|]; [|by eauto].
  destruct (transitioned_at a !! b) as [t|]; [|by eauto]. zcases; [|by eauto].
  exists (VHalfOpen 0). split; [unfold views; cbn -[pack_state]; by rewrite lookup_insert_eq|].
  right. split; [|done]. unfold views in Hv. rewrite E in Hv. cbn in Hv. apply view_tag in Hv.
  rewrite Ht in Hv. by destruct v.
Qed.

Lemma maybe_views_other now c b a v :
  c <> b -> views a b v -> views (maybe_transition_open_to_halfopen now c a) b v.
Proof. intros Hne Hv. unfold views in *. by destruct (maybe_other now c b a Hne) as [-> _]. Qed.

Lemma prepare_views clk bs a b v :
  views a b v ->
  exists v', views (prepare clk bs a) b v' /\ (v' = v \/ (v = VOpen /\ v' = VHalfOpen 0)).
Proof.
  revert clk a v. induction bs as [|c bs IH]; intros clk a v Hv; [by eauto|]. cbn [prepare].
  assert (Hens : views (ensure_backend c a) b v) by by apply ensure_views.
  destruct (decide (c = b)) as [->|Hne].
  - destruct (maybe_views (clk 0%nat) b _ v Hens) as (v1 & Hv1 & H1).
    destruct (IH (fun i => clk (S i)) _ v1 Hv1) as (v2 & Hv2 & H2). exists v2. split; [done|].
    destruct H1 as [->|[-> ->]]; [done|]. destruct H2 as [->|[? _]]; [by right|done].
  - by apply IH, maybe_views_other.
Qed.

Lemma prepare_present clk bs a b :
  b ∈ bs \/ is_Some (breakers a !! b) -> is_Some (breakers (prepare clk bs a) !! b).
Proof.
  revert clk a. induction bs as [|c bs IH]; intros clk a Hor; cbn [prepare].
  { destruct Hor as [?%elem_of_nil|?]; done. }
  apply IH. destruct (decide (c = b)) as [->|Hne].
  - right. pose proof (ensure_lookup a b) as He. unfold maybe_transition_open_to_halfopen.
    rewrite He. repeat case_match; cbn; rewrite ?lookup_insert_eq, ?He; by eauto.
  - destruct Hor as [[?|?]%elem_of_cons|Hs]; [congruence|by left|right].
    destruct (maybe_other (clk 0%nat) c b (ensure_backend c a) Hne) as [-> _].
    unfold ensure_backend. destruct (breakers a !! c); [done|]. cbn. by rewrite lookup_insert_ne.
Qed.

(** Routing alone never trips a closed breaker, nor clears its failures. *)
Lemma route_closed clk req pool sigs a b f :
  views a b (VClosed f) -> views (snd (circuit_route clk req pool sigs a)) b (VClosed f).
Proof.
  intros Hv. unfold circuit_route, route_begin, route_finish.
  destruct (prepare_views clk (backends pool) a b _ Hv) as (v1 & Hv1 & [-> | [? _]]); [|done].
  set (a1 := prepare clk (backends pool) a) in *. destruct (route _ _ _ _ _) as [d i]. cbn [snd].
  unfold count_probe. destruct d as [c| |]; [|done..]. cbn [breakers].
  destruct (breakers a1 !! c) as [brc|] eqn:Ec; [|done].
  destruct (Z.eqb_spec (breaker_tag brc) TAG_HALF_OPEN) as [Ht|]; [|done].
  unfold views in *. cbn [breakers]. destruct (decide (c = b)) as [-> | Hne]; [|by rewrite lookup_insert_ne].
  rewrite Ec in Hv1. apply view_tag in Hv1. cbn [default from_option id] in Hv1. by rewrite Hv1 in Ht.
Qed.

Lemma route_cfg clk req pool sigs a : cfg (snd (circuit_route clk req pool sigs a)) = cfg a.
Proof.
  unfold circuit_route, route_begin, route_finish. destruct (prepare_fixed clk (backends pool) a) as [Hc _].
  destruct (route _ _ _ _ _) as [d i]. cbn [snd]. unfold count_probe. by repeat case_match.
Qed.

(** ** Tripping *)

(** A failure as the documentation of the breaker has it: 5xx, 408 and 429, or no status at
    all because the exchange failed; any other 4xx is the client's problem. *)
Definition documented_failure (o : Outcome) : bool :=
  match out_status o with
  | Some s => (500 <=? s) || bool_decide (s ∈ [408; 429])
  | None => negb (out_ok o)
  end.

(** The caller reports an outcome as not ok only when it is such a failure. *)
Definition reported (o : Outcome) : Prop := out_ok o = false -> documented_failure o = true.

Lemma documented_status s : counts_as_failure s = (500 <=? s) || bool_decide (s ∈ [408; 429]).
Proof.
  unfold counts_as_failure. destruct (500 <=? s); [done|]. cbn [orb].
  destruct (Z.eqb_spec s 408) as [->|H1]; [done|]. destruct (Z.eqb_spec s 429) as [->|H2]; [done|].
  rewrite bool_decide_eq_false_2; [done|]. rewrite !elem_of_cons, elem_of_nil. by intros [?|[?|?]].
Qed.

Lemma reported_failed o : reported o -> outcome_failed o = documented_failure o.
Proof.
  unfold reported, outcome_failed, documented_failure. intros Hr.
  destruct (out_ok o); [|by rewrite Hr].
  destruct (out_status o) as [s|]; [apply documented_status|done].
Qed.

(** The outcomes of one backend among the calls, in order. *)
Fixpoint outcomes_of (b : BackendId) (calls : list call) : list Outcome :=
  match calls with
  | CallResponse _ _ o :: calls =>
      if decide (out_backend o = b) then o :: outcomes_of b calls else outcomes_of b calls
  | CallRoute _ _ _ _ :: calls => outcomes_of b calls
  | [] => []
  end.

(** Some [n] consecutive outcomes all failed. *)
Definition has_run (n : Z) (os : list Outcome) : Prop :=
  exists pre run post, os = pre ++ run ++ post /\ Z.of_nat (length run) = n /\
    Forall (fun o => documented_failure o = true) run.

(** How many of the latest outcomes failed. *)
Fixpoint leading_failures (recent : list Outcome) : Z :=
  match recent with
  | [] => 0
  | o :: recent => if documented_failure o then 1 + leading_failures recent else 0
  end.

Lemma leading_nonneg l : 0 <= leading_failures l.
Proof. induction l as [|c l IH]; cbn; [lia|]. destruct (documented_failure _); lia. Qed.

(** A long enough run ending now is the latest failures. *)
Lemma leading_run n l :
  0 <= n -> (n <= leading_failures (rev l) <->
    exists pre run, l = pre ++ run /\ Z.of_nat (length run) = n /\
      Forall (fun o => documented_failure o = true) run).
Proof.
  intros Hn. split.
  - pose proof (rev_involutive l) as Hl. revert Hl. generalize (rev l). intros l' <-. rename l' into l.
    revert n Hn. induction l as [|c l IH]; intros n Hn Hle.
    + exists [], []. cbn in *. split_and!; [done|lia|constructor].
    + cbn [leading_failures] in Hle. destruct (decide (n = 0)) as [->|].
      { exists (rev (c :: l)), []. by rewrite app_nil_r. }
      destruct (documented_failure c) eqn:Ef; [|lia].
      destruct (IH (n - 1) ltac:(lia) ltac:(lia)) as (pre & run & Heq & Hlen & Hrun).
      exists pre, (run ++ [c]). cbn [rev]. rewrite Heq, app_assoc, length_app. cbn.
      split_and!; [done|lia|]. apply Forall_app. split; [done|by constructor].
  - intros (pre & run & -> & Hlen & Hrun). rewrite rev_app_distr. clear Hn. revert n Hlen.
    induction run as [|c run IH] using rev_ind; intros n Hlen.
    + cbn in Hlen. pose proof (leading_nonneg ([] ++ rev pre)). cbn [rev] in *. lia.
    + apply Forall_app in Hrun as [Hrun Hc]. apply Forall_cons in Hc as [Hc _].
      rewrite rev_app_distr. cbn [rev app leading_failures]. rewrite Hc.
      rewrite length_app in Hlen. cbn in Hlen. specialize (IH Hrun (n - 1) ltac:(lia)). lia.
Qed.

Lemma has_run_snoc n l c :
  0 < n -> has_run n (l ++ [c]) <-> has_run n l \/ n <= leading_failures (rev (l ++ [c])).
Proof.
  intros Hn. rewrite leading_run by lia. split.
  - intros (pre & run & post & Heq & Hlen & Hrun). destruct post as [|p post _] using rev_ind.
    + right. exists pre, run. by rewrite app_nil_r in Heq.
    + left. rewrite !app_assoc in Heq. apply app_inj_tail in Heq as [-> _].
      exists pre, run, post. by rewrite app_assoc.
  - intros [(pre & run & post & -> & Hlen & Hrun)|(pre & run & Heq & Hlen & Hrun)].
    + exists pre, run, (post ++ [c]). by rewrite <- !app_assoc.
    + exists pre, run, []. by rewrite app_nil_r.
Qed.

Lemma no_run_nil n : 0 < n -> ~ has_run n [].
Proof.
  intros Hn (pre & run & post & Heq & Hlen & _). symmetry in Heq.
  apply app_eq_nil in Heq as [_ Heq]. apply app_eq_nil in Heq as [-> _]. cbn in Hlen. lia.
Qed.

Lemma outcomes_snoc b calls c : outcomes_of b (calls ++ [c]) = outcomes_of b calls ++ outcomes_of b [c].
Proof.
  induction calls as [|[clk req pool sigs|clk d o] calls IH]; [done|exact IH|].
  cbn [outcomes_of app]. fold (app calls [c]). rewrite IH. by destruct (decide _).
Qed.

Definition one_call (c : call) a : CircuitBreakerArbiter R := snd (run_calls [c] a).

Lemma run_calls_snoc calls c a : snd (run_calls (calls ++ [c]) a) = one_call c (snd (run_calls calls a)).
Proof.
  revert a. induction calls as [|[clk req pool sigs|clk d o] calls IH]; intros a; [done| |apply IH].
  cbn [run_calls app]. fold (app calls [c]). destruct (route clk req pool sigs a) as [d a1].
  specialize (IH a1). destruct (run_calls (calls ++ [c]) a1), (run_calls calls a1). exact IH.
Qed.

Lemma one_call_cfg c a : cfg (one_call c a) = cfg a.
Proof.
  destruct c as [clk req pool sigs|clk d o]; unfold one_call; cbn [run_calls].
  - pose proof (route_cfg clk req pool sigs a) as Hc. cbn [route circuit_router].
    destruct (circuit_route clk req pool sigs a) as [d a1]. exact Hc.
  - cbn. by apply record_fixed.
Qed.

Lemma run_calls_cfg calls a : cfg (snd (run_calls calls a)) = cfg a.
Proof.
  induction calls as [|c calls IH] using rev_ind; [done|]. by rewrite run_calls_snoc, one_call_cfg.
Qed.

(** What one call does to a closed breaker. *)
Lemma one_call_closed c a b f :
  cfg_ok (cfg a) -> view_ok (cfg a) (VClosed f) -> views a b (VClosed f) ->
  views (one_call c a) b
    match c with
    | CallResponse _ _ o => if decide (out_backend o = b)
                            then next_view (cfg a) (outcome_failed o) (VClosed f) else VClosed f
    | CallRoute _ _ _ _ => VClosed f
    end.
Proof.
  intros Hc Hok Hv. destruct c as [clk req pool sigs|clk d o]; unfold one_call; cbn [run_calls].
  - pose proof (route_closed clk req pool sigs a b f Hv) as Hr. cbn [route circuit_router].
    by destruct (circuit_route clk req pool sigs a).
  - cbn [snd on_response circuit_router]. destruct (decide (out_backend o = b)) as [<-|Hne].
    + by apply (record_views (clk 0%nat) o a).
    + by apply (record_other (clk 0%nat) o a b); [congruence|].
Qed.

Definition call_reported (c : call) : Prop :=
  match c with CallResponse _ _ o => reported o | CallRoute _ _ _ _ => True end.

(** Until the first run of failures the breaker is closed and counts the latest ones. *)
Lemma counts_failures b calls a :
  cfg_ok (cfg a) -> views a b (VClosed 0) -> Forall call_reported calls ->
  ~ has_run (failure_threshold (cfg a)) (outcomes_of b calls) ->
  let f := leading_failures (rev (outcomes_of b calls)) in
  view_ok (cfg a) (VClosed f) /\ views (snd (run_calls calls a)) b (VClosed f).
Proof.
  intros Hc H0. pose proof Hc as (Ht & _). induction calls as [|c calls IH] using rev_ind; intros Hrep Hno.
  { split; [cbn; lia|exact H0]. }
  apply Forall_app in Hrep as [Hrep Hrc]. apply Forall_cons in Hrc as [Hrc _].
  rewrite outcomes_snoc in Hno |- *. rewrite run_calls_snoc.
  assert (Hno' : ~ has_run (failure_threshold (cfg a)) (outcomes_of b calls)).
  { intros (pre & run & post & Heq & Hlr). apply Hno. exists pre, run, (post ++ outcomes_of b [c]).
    by rewrite Heq, <- !app_assoc. }
  destruct (IH Hrep Hno') as [Hok Hv]. clear IH. rewrite <- (run_calls_cfg calls a) in Hc, Hok.
  pose proof (one_call_closed c _ b _ Hc Hok Hv) as Hn. rewrite run_calls_cfg in *.
  destruct c as [clk req pool sigs|clk d o]; cbn [outcomes_of] in *; [by rewrite app_nil_r|].
  destruct (decide (out_backend o = b)) as [Hb|Hb]; [|by rewrite app_nil_r].
  rewrite (reported_failed o Hrc) in Hn. rewrite has_run_snoc in Hno by lia.
  pose proof (leading_nonneg (rev (outcomes_of b calls))) as Hpos.
  rewrite rev_app_distr in Hno |- *. cbn [rev app leading_failures next_view] in *.
  destruct (documented_failure o); [|split; [cbn; lia|done]].
  assert (Hlt : 1 + leading_failures (rev (outcomes_of b calls)) < failure_threshold (cfg a)) by (apply Z.nle_gt; tauto).
  rewrite (proj2 (Z.leb_gt _ _)) in Hn by lia. rewrite Z.add_comm. split; [cbn; lia|done].
Qed.

(** [C11] When a breaker trips.  Take any routes and responses, one after the other and of
    any backends, from a breaker that is closed with no failures counted (as one never seen
    is), where the caller reports an outcome as not ok only when it is a failure of the
    documented kind: 5xx, 408, 429, or no status.  As long as no [failure_threshold]
    consecutive outcomes of the backend itself failed, the breaker is closed; and the next
    response opens it exactly when it completes such a run.  Outcomes of other backends and
    routes in between do not matter, a success restarts the count. *)
Theorem trips_iff_consecutive_failures b calls a clk d o :
  cfg_ok (cfg a) -> views a b (VClosed 0) -> Forall call_reported calls -> reported o ->
  ~ has_run (failure_threshold (cfg a)) (outcomes_of b calls) ->
  let calls' := calls ++ [CallResponse clk d o] in
  state_of b (snd (run_calls calls a)) = Closed /\
  (state_of b (snd (run_calls calls' a)) = Open <->
     has_run (failure_threshold (cfg a)) (outcomes_of b calls')) /\
  (state_of b (snd (run_calls calls' a)) = Closed <->
     ~ has_run (failure_threshold (cfg a)) (outcomes_of b calls')).
Proof.
  intros Hc H0 Hrep Hro Hno calls'. pose proof Hc as (Ht & _).
  destruct (counts_failures b calls a Hc H0 Hrep Hno) as [Hok Hv].
  split; [by rewrite (state_of_view _ _ _ Hv)|]. unfold calls'. rewrite run_calls_snoc, outcomes_snoc.
  rewrite <- (run_calls_cfg calls a) in Hc, Hok. pose proof (one_call_closed (CallResponse clk d o) _ b _ Hc Hok Hv) as Hn.
  rewrite run_calls_cfg in Hn. cbn [outcomes_of] in *. destruct (decide (out_backend o = b)) as [Hb|Hb].
  2: { rewrite app_nil_r, (state_of_view _ _ _ Hn). tauto || (split; split; done). }
  rewrite (reported_failed o Hro) in Hn. rewrite has_run_snoc, rev_app_distr by lia.
  rewrite (state_of_view _ _ _ Hn). cbn [rev app leading_failures next_view].
  destruct (documented_failure o); [zcases|]; split; split; intros Hx; try done; try (right; lia);
    try (intros [?|?]; [done|lia]); try (destruct Hx as [?|?]; [done|lia]); exfalso; apply Hx; right; lia.
Qed.

Lemma route_budget clk req pool sigs a b :
  cfg_ok (cfg a) -> router_inv (inner a) -> pool_has b pool -> budget_ok a b ->
  let a' := snd (circuit_route clk req pool sigs a) in
  budget_ok a' b /\ router_inv (inner a') /\ cfg a' = cfg a.
Proof.
  intros (_ & Hmax & _) Hinv [Hin Hpos] (v & Hv & Hok & Hn). unfold circuit_route, route_begin, route_finish.
  destruct (prepare_views clk (backends pool) a b v Hv) as (v1 & Hv1 & Hor).
  destruct (prepare_present clk (backends pool) a b (or_introl Hin)) as [br Hbr].
  destruct (prepare_fixed clk (backends pool) a) as [Hc1 Hi1].
  set (a1 := prepare clk (backends pool) a) in *. set (merged := build_signals pool sigs a1).
  set (clk' := fun k => clk (length (backends pool) + k)%nat).
  rewrite <- Hi1 in Hinv. pose proof (route_inv clk' req pool merged _ Hinv) as Hinv'.
  pose proof (fun c => route_avoids_open clk' req pool merged _ c Hinv) as Havoid.
  destruct (route clk' req pool merged (inner a1)) as [d i] eqn:E. cbn [fst snd] in *.
  assert (Hb1 : view_ok (cfg a) v1 /\ match v1 with VHalfOpen n => 0 <= n <= half_open_max (cfg a) | _ => True end)
    by (destruct Hor as [->|[-> ->]]; cbn; [done|lia]).
  unfold views in Hv1. rewrite Hbr in Hv1. cbn [default from_option id] in Hv1.
  assert (Hsame : budget_ok (mkArbiter i (cfg a1) (breakers a1) (transitioned_at a1)) b).
  { exists v1. unfold views. cbn [breakers cfg]. by rewrite Hbr, Hc1. }
  unfold count_probe. destruct d as [c| |]; cbn [inner cfg breakers]; [|by split_and!..].
  destruct (breakers a1 !! c) as [brc|] eqn:Ec; [|by split_and!].
  destruct (Z.eqb_spec (breaker_tag brc) TAG_HALF_OPEN) as [Ht|]; [|by split_and!].
  cbn [inner cfg breakers]. split_and!; [|done|done].
  destruct (decide (c = b)) as [->|Hne].
  2: { exists v1. unfold views. cbn [breakers cfg]. rewrite lookup_insert_ne by done. by rewrite Hbr, Hc1. }
  assert (brc = br) as -> by congruence. pose proof (view_tag _ _ Hv1) as Htag. rewrite Ht in Htag.
  destruct v1 as [| |n]; [done..|]. destruct Hv1 as [Hst Hnn]. destruct Hb1 as [_ Hb1].
  assert (Hroom : n < half_open_max (cfg a)).
  { destruct (Z.leb_spec (half_open_max (cfg a)) n); [|done]. exfalso. apply (Havoid b eq_refl).
    unfold merged. rewrite (build_signals_state pool sigs a1 b Hpos Hin br Hbr), Ht, Hc1, Hnn.
    by rewrite (proj2 (Z.leb_le _ _)). }
  exists (VHalfOpen (n + 1)). unfold views. cbn [breakers cfg]. rewrite lookup_insert_eq, Hc1.
  cbn -[pack_state]. unfold wrapping_add. rewrite Hnn, wrap_small by (unfold in_uint; lia).
  split_and!; try done; lia.
Qed.

Lemma response_budget clk d o a b :
  cfg_ok (cfg a) -> budget_ok a b -> budget_ok (circuit_on_response clk d o a) b.
Proof.
  intros Hc (v & Hv & Hok & Hn). unfold circuit_on_response.
  destruct (record_fixed (clk 0%nat) o a) as [Hcfg _].
  destruct (decide (out_backend o = b)) as [<-|Hne].
  - exists (next_view (cfg a) (outcome_failed o) v). cbn [cfg]. rewrite Hcfg. split_and!.
    + by apply (record_views (clk 0%nat) o a).
    + by apply next_view_ok.
    + destruct v, (outcome_failed o); cbn; by repeat case_match.
  - exists v. cbn [cfg]. rewrite Hcfg. split_and!; try done.
    by apply (record_other (clk 0%nat) o a b v); [congruence|].
Qed.

(** The requests a sequence of decisions sends to a backend. *)
Definition sends (b : BackendId) (ds : list RoutingDecision) : Z :=
  Z.of_nat (length (filter (fun d => d = Send b) ds)).

(** A breaker that is not closed, and the probes its counter has. *)
Definition probing (v : view) : option Z :=
  match v with VClosed _ => None | VOpen => Some 0 | VHalfOpen n => Some n end.

(** A [route] of a breaker that is not closed counts the probe it sends, and sends one only
    when the counter has room. *)
Lemma route_probe clk req pool sigs a b v n :
  cfg_ok (cfg a) -> router_inv (inner a) -> pool_has b pool -> views a b v -> probing v = Some n ->
  0 <= n <= half_open_max (cfg a) ->
  let '(d, a') := circuit_route clk req pool sigs a in
  exists v', views a' b v' /\ probing v' = Some (n + sends b [d]) /\
    n + sends b [d] <= half_open_max (cfg a).
Proof.
  intros (_ & Hmax & _) Hinv [Hin Hpos] Hv Hpr Hn. unfold circuit_route, route_begin, route_finish.
  destruct (prepare_views clk (backends pool) a b v Hv) as (v1 & Hv1 & Hor).
  destruct (prepare_present clk (backends pool) a b (or_introl Hin)) as [br Hbr].
  destruct (prepare_fixed clk (backends pool) a) as [Hc1 Hi1].
  set (a1 := prepare clk (backends pool) a) in *. set (merged := build_signals pool sigs a1).
  set (clk' := fun k => clk (length (backends pool) + k)%nat). rewrite <- Hi1 in Hinv.
  pose proof (fun c => route_avoids_open clk' req pool merged _ c Hinv) as Havoid.
  destruct (route clk' req pool merged (inner a1)) as [d i] eqn:E. cbn [fst] in Havoid.
  assert (Hp1 : probing v1 = Some n) by (destruct Hor as [->|[-> ->]]; done).
  unfold views in Hv1. rewrite Hbr in Hv1. cbn [default from_option id] in Hv1.
  set (a2 := mkArbiter i (cfg a1) (breakers a1) (transitioned_at a1)).
  assert (Hquiet : forall d' a', sends b [d'] = 0 -> breakers a' !! b = Some br ->
    exists v', views a' b v' /\ probing v' = Some (n + sends b [d']) /\ n + sends b [d'] <= half_open_max (cfg a)).
  { intros d' a' -> Hb'. exists v1. unfold views. rewrite Hb', Z.add_0_r. split_and!; [done..|lia]. }
  destruct (decide (d = Send b)) as [->|Hd].
  2: { apply Hquiet; [unfold sends; by rewrite filter_cons_False|].
       unfold count_probe. destruct d as [c| |]; [|done..]. cbn [breakers a2].
       destruct (breakers a1 !! c) as [brc|] eqn:Ec; [|by subst a2].
       destruct (_ =? _); [|by subst a2]. cbn [breakers]. rewrite lookup_insert_ne; [by subst a2|congruence]. }
  assert (Hopen : circuit_state (signals_get merged b) <> Open) by by apply Havoid.
  unfold merged in Hopen. rewrite (build_signals_state pool sigs a1 b Hpos Hin br Hbr), Hc1 in Hopen.
  pose proof (view_tag _ _ Hv1) as Htag. destruct v1 as [| |n']; [done|by rewrite Htag in Hopen|].
  injection Hp1 as ->. destruct Hv1 as [Hst Hnn]. rewrite Htag, Hnn in Hopen. cbn [andb Z.eqb TAG_HALF_OPEN Pos.eqb] in Hopen.
  destruct (Z.leb_spec (half_open_max (cfg a)) n); [done|].
  assert (Hs : sends b [Send b] = 1) by (unfold sends; by rewrite filter_cons_True). rewrite Hs.
  exists (VHalfOpen (n + 1)). split_and!; [|done|lia]. unfold count_probe, a2. cbn [breakers].
  rewrite Hbr, Htag, Z.eqb_refl. unfold views. cbn [breakers]. rewrite lookup_insert_eq. cbn -[pack_state].
  unfold wrapping_add. rewrite Hnn, wrap_small by (unfold in_uint; lia). done.
Qed.

(** Calls with no response of the backend. *)
Definition awaiting (b : BackendId) (c : call) : Prop :=
  match c with CallRoute _ _ pool _ => pool_has b pool | CallResponse _ _ o => out_backend o <> b end.

Lemma probes_counted calls a b v n :
  cfg_ok (cfg a) -> router_inv (inner a) -> views a b v -> probing v = Some n ->
  0 <= n <= half_open_max (cfg a) -> Forall (awaiting b) calls ->
  let '(ds, a') := run_calls calls a in
  exists v', views a' b v' /\ probing v' = Some (n + sends b ds) /\ n + sends b ds <= half_open_max (cfg a).
Proof.
  intros Hc Hinv Hv Hp Hn Hok. revert a v n Hc Hinv Hv Hp Hn.
  induction Hok as [|c calls Hcall Hok IH]; intros a v n Hc Hinv Hv Hp Hn; cbn [run_calls].
  { exists v. cbn. rewrite Z.add_0_r. split_and!; [done..|lia]. }
  destruct c as [clk req pool sigs|clk d o].
  - pose proof (route_probe clk req pool sigs a b v n Hc Hinv Hcall Hv Hp Hn) as Hr.
    pose proof (route_keeps clk req pool sigs a Hinv) as [Hi1 Hc1]. cbn [route circuit_router].
    destruct (circuit_route clk req pool sigs a) as [d a1]. cbn [snd] in *. destruct Hr as (v1 & Hv1 & Hp1 & Hle).
    rewrite <- Hc1 in Hc, Hle. assert (0 <= sends b [d]) by (unfold sends; lia).
    specialize (IH a1 v1 _ Hc Hi1 Hv1 Hp1 ltac:(lia)). destruct (run_calls calls a1) as [ds a2].
    destruct IH as (v2 & Hv2 & Hp2 & Hle2). rewrite Hc1 in Hle2.
    assert (Hs : sends b (d :: ds) = sends b [d] + sends b ds) by (unfold sends; rewrite !filter_cons; destruct (decide _); cbn; lia).
    exists v2. rewrite Hs, Z.add_assoc. done.
  - destruct (response_keeps clk d o a Hinv) as [Hi1 Hc1]. rewrite <- Hc1 in Hc, Hn.
    cbn [on_response circuit_router]. rewrite <- Hc1. apply (IH _ v n Hc Hi1); [|done..].
    by apply (record_other (clk 0%nat) o a b v); [cbn in Hcall; congruence|].
Qed.

Lemma run_budget calls a b :
  cfg_ok (cfg a) -> router_inv (inner a) -> budget_ok a b ->
  Forall (fun c => match c with CallRoute _ _ pool _ => pool_has b pool | _ => True end) calls ->
  let a' := snd (run_calls calls a) in
  budget_ok a' b /\ router_inv (inner a') /\ cfg a' = cfg a.
Proof.
  intros Hc Hinv Hb Hok. revert a Hc Hinv Hb.
  induction Hok as [|c calls Hcall Hok IH]; intros a Hc Hinv Hb; [done|].
  destruct c as [clk req pool sigs|clk d o]; cbn [run_calls].
  - pose proof (route_budget clk req pool sigs a b Hc Hinv Hcall Hb) as (Hb1 & Hi1 & Hc1).
    cbn [route circuit_router]. destruct (circuit_route clk req pool sigs a) as [d a1]. cbn [snd] in *.
    rewrite <- Hc1 in Hc. specialize (IH a1 Hc Hi1 Hb1). rewrite Hc1 in IH.
    by destruct (run_calls calls a1).
  - destruct (response_keeps clk d o a Hinv) as [Hi1 Hc1].
    cbn [on_response circuit_router]. rewrite <- Hc1. apply IH; [by rewrite Hc1|done|].
    by apply response_budget.
Qed.

(** [C14] The probes of a backend under test.  Take a new breaker in front of an inner router
    that avoids open backends, and any history of complete routes and responses, one after
    the other.  Where the breaker of a backend is not closed (open, or half open), the
    requests that the calls from there on send to the backend before one of its responses
    is reported are at most [half_open_max], less the probes it had already counted; and the
    breaker does not close before such a response.  Only [Send] decisions are counted, and
    only since the breaker was last open: the halves of a [Hedge] and the requests of an
    earlier episode still under way are not. *)
Theorem half_open_probes_bounded i c before calls b :
  cfg_ok c -> router_inv i ->
  Forall (fun x => match x with CallRoute _ _ pool _ => pool_has b pool | _ => True end) before ->
  let a := snd (run_calls before (new i c)) in
  state_of b a <> Closed -> Forall (awaiting b) calls ->
  let sent := sends b (fst (run_calls calls a)) in
  sent <= half_open_max c /\ state_of b (snd (run_calls calls a)) <> Closed /\
  (state_of b a = HalfOpen -> forall br, breakers a !! b = Some br ->
     0 <= half_open_inflight br /\ half_open_inflight br + sent <= half_open_max c).
Proof.
  intros Hc Hinv Hbefore a Hst Hok.
  destruct (run_budget before (new i c) b Hc Hinv) as ((v & Hv & _ & Hn) & Hi & Hcfg); [|done|].
  { exists (VClosed 0). destruct Hc. split_and!; [by repeat split|cbn; lia|done]. }
  fold a in Hv, Hn, Hi, Hcfg. cbn [new cfg] in Hcfg. rewrite Hcfg in Hn. rewrite (state_of_view _ _ _ Hv) in Hst |- *.
  assert (Hp : exists n, probing v = Some n /\ 0 <= n <= half_open_max c).
  { destruct Hc as (_ & Hmax & _). destruct v as [f| |n]; [done|exists 0|exists n]; split; done || lia. }
  destruct Hp as (n & Hp & Hn'). rewrite <- Hcfg in Hc, Hn'.
  pose proof (probes_counted calls a b v n Hc Hi Hv Hp Hn' Hok) as Hr. rewrite Hcfg in Hr.
  destruct (run_calls calls a) as [ds a']. destruct Hr as (v' & Hv' & Hp' & Hle). cbn [fst snd].
  rewrite (state_of_view _ _ _ Hv'). split_and!; [lia|by destruct v'|].
  destruct v as [| |m]; [done..|]. intros _ br Hbr. unfold views in Hv. rewrite Hbr in Hv.
  cbn [default from_option id] in Hv. destruct Hv as [_ ->]. injection Hp as ->. lia.
Qed.

(** *** Recovery *)

(** An open breaker whose timeout has passed at every reading of the clock is half open
    after the first loop of [route]. *)
Lemma prepare_reopens clk bs a b t :
  b ∈ bs -> views a b VOpen -> transitioned_at a !! b = Some t ->
  (forall i, (i < length bs)%nat -> reset_timeout (cfg a) <= clk i - t) ->
  views (prepare clk bs a) b (VHalfOpen 0).
Proof.
  intros Hin. revert clk a. induction bs as [|c bs IH]; intros clk a Hv Ht Hdue; [by apply elem_of_nil in Hin|].
  cbn [prepare]. destruct (ensure_fixed a c) as (Hc & _ & Htr). apply (ensure_views a c) in Hv.
  destruct (decide (c = b)) as [->|Hne].
  - destruct (prepare_views (fun i => clk (S i)) bs
      (maybe_transition_open_to_halfopen (clk 0%nat) b (ensure_backend b a)) b (VHalfOpen 0)) as (v & Hv' & [->|[? _]]); [|done..].
    pose proof (ensure_lookup a b) as He. unfold views in Hv. rewrite He in Hv.
    unfold maybe_transition_open_to_halfopen. rewrite He. assert (Htag : breaker_tag (default BackendBreaker_new (breakers a !! b)) = TAG_OPEN) by exact (view_tag _ _ Hv).
    rewrite Htag, Z.eqb_refl, Htr, Ht, Hc.
    rewrite (proj2 (Z.leb_le _ _)) by (apply Hdue; cbn; lia).
    unfold views. cbn -[pack_state]. by rewrite lookup_insert_eq.
  - destruct (maybe_other (clk 0%nat) c b (ensure_backend c a) Hne) as [_ Ho].
    apply IH; [by apply elem_of_cons in Hin as [?|]|by apply maybe_views_other|by rewrite Ho, Htr|].
    intros i Hi. destruct (maybe_fixed (clk 0%nat) c (ensure_backend c a)) as [-> _]. rewrite Hc. apply Hdue. cbn. lia.
Qed.

(** A failed probe starts the timeout again. *)
Lemma record_reopens now o a n :
  views a (out_backend o) (VHalfOpen n) -> outcome_failed o = true ->
  transitioned_at (record_outcome now o a) !! out_backend o = Some now.
Proof.
  intros Hv Hf. unfold record_outcome. rewrite ensure_lookup. unfold views in Hv.
  rewrite (view_unpack _ _ Hv), Hf. cbn -[pack_state]. by rewrite lookup_insert_eq.
Qed.

(** [C27] A breaker recovers.  Take an open breaker and a complete [route] over a pool with the
    backend, at which every reading of the clock is [reset_timeout] or more after the breaker
    opened, where probes are allowed at all.  The inner router is shown the backend half
    open, and the next response of the backend, reported not ok only when it is a failure of
    the documented kind, decides: a success closes the breaker, and then a whole run of
    failures is needed to trip it again; a failure opens it and starts another timeout. *)
Theorem breaker_recovers clk req pool sigs a b t clk' o :
  cfg_ok (cfg a) -> 1 <= half_open_max (cfg a) -> pool_has b pool -> views a b VOpen ->
  transitioned_at a !! b = Some t -> out_backend o = b -> reported o ->
  (forall i, (i < length (backends pool))%nat -> reset_timeout (cfg a) <= clk i - t) ->
  let '(d, a1) := circuit_route clk req pool sigs a in
  let a2 := circuit_on_response clk' d o a1 in
  circuit_state (signals_get (build_signals pool sigs (prepare clk (backends pool) a)) b) = HalfOpen /\
  state_of b a1 = HalfOpen /\
  if documented_failure o then state_of b a2 = Open /\ transitioned_at a2 !! b = Some (clk' 0%nat)
  else views a2 b (VClosed 0).
Proof.
  intros Hcfg Hmax [Hin Hpos] Hv Ht <- Hrep Hdue. set (b := out_backend o) in *.
  pose proof (prepare_reopens clk (backends pool) a b t Hin Hv Ht Hdue) as Hv1. unfold circuit_route, route_begin, route_finish.
  destruct (prepare_present clk (backends pool) a b (or_introl Hin)) as [br Hbr].
  destruct (prepare_fixed clk (backends pool) a) as [Hc1 _]. set (a1 := prepare clk (backends pool) a) in *.
  pose proof Hv1 as Hh. unfold views in Hh. rewrite Hbr in Hh. cbn [default from_option id] in Hh.
  pose proof (view_tag _ _ Hh) as Htag. destruct Hh as [Hst Hnn].
  assert (Hsig : circuit_state (signals_get (build_signals pool sigs a1) b) = HalfOpen).
  { rewrite (build_signals_state pool sigs a1 b Hpos Hin br Hbr), Htag, Hc1, Hnn.
    rewrite (proj2 (Z.leb_gt _ _)) by lia. done. }
  destruct (route _ _ _ _ _) as [d i].
  assert (Hprobe : exists n, views (count_probe d (mkArbiter i (cfg a1) (breakers a1) (transitioned_at a1))) b (VHalfOpen n)).
  { unfold count_probe. destruct d as [c| |]; [|by exists 0..]. cbn [breakers].
    destruct (breakers a1 !! c) as [brc|] eqn:Ec; [|by exists 0].
    destruct (Z.eqb_spec (breaker_tag brc) TAG_HALF_OPEN) as [Htc|]; [|by exists 0].
    destruct (decide (c = b)) as [->|Hne].
    - assert (brc = br) as -> by congruence. eexists. unfold views. cbn [breakers]. rewrite lookup_insert_eq. by split.
    - exists 0. unfold views in *. cbn [breakers]. by rewrite lookup_insert_ne. }
  assert (Hcp : cfg (count_probe d (mkArbiter i (cfg a1) (breakers a1) (transitioned_at a1))) = cfg a).
  { unfold count_probe. by repeat case_match. }
  set (ac := count_probe _ _) in *. destruct Hprobe as [n Hn]. split; [done|]. split; [by rewrite (state_of_view _ _ _ Hn)|].
  pose proof (record_views (clk' 0%nat) o ac (VHalfOpen n)) as Hr. rewrite Hcp in Hr. specialize (Hr Hcfg I Hn).
  fold b in Hr. rewrite (reported_failed o Hrep) in Hr.
  destruct (documented_failure o) eqn:Ef; [|exact Hr]. split.
  - change (state_of b (circuit_on_response clk' d o ac)) with (state_of b (record_outcome (clk' 0%nat) o ac)).
    by rewrite (state_of_view _ _ _ Hr).
  - apply (record_reopens _ o ac n); [done|]. by rewrite (reported_failed o Hrep).
Qed.
End breaker.

(** ** Witnesses: two backends behind a weighted router *)

Definition demo_inner : WeightedRandomRouter :=
  mkWeighted [mkEntry 0 0 ALIAS_SCALE; mkEntry 1 1 ALIAS_SCALE] [0; 1] 7.

Lemma demo_inner_ok : router_inv demo_inner.
Proof.
  apply (with_seed_ok [(0, 1); (1, 1)] 7); [|done|by vm_compute].
  split_and!; [done|unfold MAX_WEIGHTED_BACKENDS; cbn; lia|by repeat constructor|by apply (bool_decide_unpack _)].
Qed.

Definition demo_cfg : CircuitBreakerConfig := mkBreakerConfig 2 1000 1.
Definition demo_arbiter : CircuitBreakerArbiter WeightedRandomRouter := new demo_inner demo_cfg.
Definition failure (b : BackendId) : Outcome := mkOutcome b (Some 500) 0 false.
Definition demo_request : Request := mkRequest 1 Post "/" Headers_new Empty.
Definition demo_route (t : Z) : call := CallRoute (fun _ => t) demo_request (mkPool [0; 1]) (mkSignals []).

Lemma demo_pool_has b : b = 0 \/ b = 1 -> pool_has b (mkPool [0; 1]).
Proof.
  intros Hb. split; [|by repeat constructor]. cbn. rewrite !elem_of_cons. destruct Hb as [-> | ->]; auto.
Qed.

Definition demo_response (t : Z) (o : Outcome) : call := CallResponse (fun _ => t) (Send (out_backend o)) o.

Lemma trips_iff_consecutive_failures_witness :
  state_of 0 (snd (run_calls ([demo_response 5 (failure 0); demo_route 6; demo_response 6 (failure 1)] ++
                              [CallResponse (fun _ => 7) (Send 0) (failure 0)]) demo_arbiter)) = Open.
Proof.
  eapply (trips_iff_consecutive_failures 0 [demo_response 5 (failure 0); demo_route 6; demo_response 6 (failure 1)]
            demo_arbiter (fun _ => 7) (Send 0) (failure 0));
    [by repeat split|by repeat split|by forall_members|done| |].
  - intros (pre & run & post & Heq & Hlen & _). change ([failure 0] = pre ++ run ++ post) in Heq.
    apply (f_equal length) in Heq. rewrite !length_app in Heq. cbn in Heq, Hlen. lia.
  - exists [], [failure 0; failure 0], []. split_and!; [reflexivity..|by repeat constructor].
Defined.

Definition opening : list call := [demo_response 5 (failure 0); demo_response 7 (failure 0)].
Definition opened : CircuitBreakerArbiter WeightedRandomRouter := snd (run_calls opening demo_arbiter).


Lemma breaker_recovers_witness :
  let '(d, a1) := circuit_route (fun _ => 2000) demo_request (mkPool [0; 1]) (mkSignals []) opened in
  state_of 0 (circuit_on_response (fun _ => 2500) d (failure 0) a1) = Open.
Proof.
  pose proof (breaker_recovers (fun _ => 2000) demo_request (mkPool [0; 1]) (mkSignals []) opened 0 7
    (fun _ => 2500) (failure 0)) as Hr.
  destruct (circuit_route _ _ _ _ _) as [d a1]. cbn zeta in Hr.
  apply Hr; [by repeat split|by vm_compute|apply demo_pool_has; by left|by repeat split|reflexivity|reflexivity|done|].
  intros i _. by vm_compute.
Defined.

(** A probe was sent at time 2000 and its response never came. *)
Definition leaked : CircuitBreakerArbiter WeightedRandomRouter :=
  mkArbiter demo_inner demo_cfg {[ 0 := mkBreaker (pack_state TAG_HALF_OPEN 0) 1 ]} {[ 0 := 2000 ]}.

Lemma spent_probes_lock_out_witness :
  Send 0 ∉ fst (run_calls [demo_route 3000; demo_route 1000000000] leaked).
Proof.
  eapply (spent_probes_lock_out _ leaked 0 (mkBreaker (pack_state TAG_HALF_OPEN 0) 1));
    [exact demo_inner_ok|reflexivity|reflexivity|cbn; lia|].
  forall_members; apply demo_pool_has; by left.
Defined.

Lemma half_open_probes_bounded_witness :
  sends 0 (fst (run_calls [demo_route 2000; demo_route 2001; demo_route 2002] opened)) <= 1.
Proof.
  refine (proj1 (half_open_probes_bounded demo_inner demo_cfg opening [demo_route 2000; demo_route 2001; demo_route 2002] 0 _ _ _ _ _)).
  - by repeat split.
  - exact demo_inner_ok.
  - by forall_members.
  - by vm_compute.
  - forall_members; apply demo_pool_has; by left.
Defined.

(** The bound needs the calls to be complete.  A [route] reads the counter when it builds the
    signals and raises it, under another taking of the lock, after the inner router has
    answered: two routes that both do the first before either does the second both send
    a probe to a backend that may have one. *)
Definition half_open : CircuitBreakerArbiter WeightedRandomRouter :=
  mkArbiter (mkWeighted [mkEntry 0 0 ALIAS_SCALE] [0] 7) demo_cfg
    {[ 0 := mkBreaker (pack_state TAG_HALF_OPEN 0) 0 ]} {[ 0 := 2000 ]}.

Theorem concurrent_routes_overprobe :
  let '(m1, a) := route_begin (fun _ => 2001) (mkPool [0]) (mkSignals []) half_open in
  let '(m2, a) := route_begin (fun _ => 2001) (mkPool [0]) (mkSignals []) a in
  let '(d1, a) := route_finish (fun _ => 2001) demo_request (mkPool [0]) m1 a in
  let '(d2, a) := route_finish (fun _ => 2001) demo_request (mkPool [0]) m2 a in
  half_open_max (cfg half_open) = 1 /\ d1 = Send 0 /\ d2 = Send 0 /\
  half_open_inflight <$> breakers a !! 0 = Some 2.
Proof. vm_compute. by split_and!. Qed.

(** ** The two mutexes

    A thread is the critical sections it has still to run, each the mutexes it takes in
    order and releases together, and the mutexes it holds. *)

Inductive mutex := BreakersMutex | TransitionedMutex.

#[global] Instance mutex_eq_dec : EqDecision mutex.
Proof. solve_decision. Defined.

(** The sections of a [route] over one backend: [ensure_backend],
    [maybe_transition_open_to_halfopen], [build_signals], the probe count. *)
Definition route_sections : list (list mutex) :=
  [[BreakersMutex]; [TransitionedMutex; BreakersMutex]; [BreakersMutex]; [BreakersMutex]].

(** Those of an [on_response]: [ensure_backend], then [record_outcome]. *)
Definition response_sections : list (list mutex) :=
  [[BreakersMutex]; [BreakersMutex; TransitionedMutex]].

Record lock_thread := mkThread { todo : list (list mutex); held : list mutex }.

Definition is_free (ts : list lock_thread) (m : mutex) : bool :=
  forallb (fun t => negb (bool_decide (m ∈ held t))) ts.

(** The next action of thread [i]: take the next mutex if it is free, or leave a section. *)
Definition lock_exec (i : nat) (ts : list lock_thread) : option (list lock_thread) :=
  t ← ts !! i;
  match todo t with
  | (m :: ms) :: rest =>
      if is_free ts m then Some (<[i := mkThread (ms :: rest) (m :: held t)]> ts) else None
  | [] :: rest => Some (<[i := mkThread rest []]> ts)
  | [] => None
  end.

(** No thread can move although some has sections left. *)
Definition deadlocked (ts : list lock_thread) : Prop :=
  (forall ts', ~ exec_step lock_exec ts ts') /\ Exists (fun t => todo t <> []) ts.

Lemma deadlocked_dec ts :
  Forall (fun i => lock_exec i ts = None) (seq 0 (length ts)) ->
  Exists (fun t => todo t <> []) ts -> deadlocked ts.
Proof.
  intros Hall He. split; [|done]. intros ts' [i Hi].
  destruct (decide (i < length ts)%nat) as [Hlt|Hge].
  - rewrite Forall_forall in Hall. rewrite Hall in Hi; [done|]. apply elem_of_seq. lia.
  - unfold lock_exec in Hi. rewrite lookup_ge_None_2 in Hi by lia. done.
Qed.

(** [maybe_transition_open_to_halfopen] locks [transitioned_at] and then [breakers],
    [record_outcome] locks them in the other order: one [route] and one [on_response]
    running at the same time reach a state in which neither can ever go on, each holding
    the mutex the other one waits for. *)
Theorem route_response_deadlock :
  exists ts, rtc (exec_step lock_exec) [mkThread route_sections []; mkThread response_sections []] ts /\
    deadlocked ts.
Proof.
  eexists. split.
  - apply (exec_run_rtc lock_exec [0; 0; 1; 1; 0; 1]%nat). vm_compute. reflexivity.
  - apply deadlocked_dec; [by repeat constructor|]. by left.
Qed.
