(* ===== verification/Hedged.v ===== *)
(** * Hedged: [HedgedRouter] of [riftgate-router/src/hedged.rs]

    A decorator over any inner router: a P-square quantile estimator per backend in [f64]
    arithmetic, the three counters, the budget test and the promotion of a [Send] to a
    [Hedge].  The theorems give the decision on every branch, the account the counters
    keep over a history of calls, and the promise [AvoidsOpen] to the circuit breaker
    that wraps this router in [main.rs]. *)

From Stdlib Require Import SpecFloat.
From S2P Require Import Prelude Floats Core Weighted KvAware Circuit.

(** ** Configuration *)

Record HedgedConfig := mkHedgedConfig {
  hedge_after_quantile : spec_float;
  hedge_max_fraction : spec_float;
  hedge_min_threshold_ms : spec_float;
  warmup_observations : Z;
}.

Definition HedgedConfig_default : HedgedConfig :=
  mkHedgedConfig (f64_lit 95 100) (f64_lit 5 100) (f32_of_Z 50) 25.

(** ** The estimator *)

Definition f0 : spec_float := S754_zero false.
Definition f1 : spec_float := f64_of_Z 1.
Definition f2 : spec_float := f64_of_Z 2.
Definition f4 : spec_float := f64_of_Z 4.

(** The arrays are [[f64; 5]]; every index of the code is a constant or a loop variable
    below 5, so the default of [arr] is never read (see [p2_ok]). *)
Record P2Estimator := mkP2 {
  q : list spec_float;
  n : list spec_float;
  n_prime : list spec_float;
  dn : list spec_float;
  count : Z;
  p : spec_float;
}.

Definition arr (a : list spec_float) (i : nat) : spec_float := default f0 (a !! i).

Definition P2Estimator_new (p : spec_float) : P2Estimator :=
  mkP2 (replicate 5 f0) (replicate 5 f0) (replicate 5 f0)
    [f0; f64_div p f2; p; f64_div (f64_add f1 p) f2; f1] 0 p.

(** [sort_by(partial_cmp, Equal on NaN)]: a stable sort; the insertion of [x] goes before
    the first element that is greater. *)
Fixpoint sort_insert (x : spec_float) (l : list spec_float) : list spec_float :=
  match l with
  | [] => [x]
  | y :: l' => if flt x y then x :: l else y :: sort_insert x l'
  end.

Definition sort_heights (l : list spec_float) : list spec_float :=
  foldl (fun acc x => sort_insert x acc) [] l.

(** The first [if]: hold the first five observations, sort them at the fifth. *)
Definition observe_init (x : spec_float) (e : P2Estimator) : P2Estimator :=
  let q1 := <[Z.to_nat (count e) := x]> (q e) in
  let c1 := count e + 1 in
  if c1 =? 5 then
    mkP2 (sort_heights q1)
      [f0; f1; f2; f64_of_Z 3; f4]
      [f0; f64_mul f2 (p e); f64_mul f4 (p e); f64_add f2 (f64_mul f2 (p e)); f4]
      (dn e) c1 (p e)
  else mkP2 q1 (n e) (n_prime e) (dn e) c1 (p e).

(** Locate the cell of [x]; the extreme markers move with it. *)
Definition locate_cell (x : spec_float) (qs : list spec_float) : nat * list spec_float :=
  if flt x (arr qs 0) then (0%nat, <[0%nat := x]> qs)
  else if fle (arr qs 4) x then (3%nat, <[4%nat := x]> qs)
  else
    (default 3%nat
       (List.find (fun i => fle (arr qs i) x && flt x (arr qs (S i))) [0; 1; 2; 3]%nat), qs).

(** The body of the adjustment loop at marker [i]; [fneg1] is [-1.0]. *)
Definition fneg1 : spec_float := SFopp f1.

Definition must_adjust (ns np' : list spec_float) (i : nat) : bool :=
  let d := f64_sub (arr np' i) (arr ns i) in
  let np := f64_sub (arr ns (S i)) (arr ns i) in
  let nm := f64_sub (arr ns (pred i)) (arr ns i) in
  (fle f1 d && flt f1 np) || (fle d fneg1 && flt nm fneg1).

(** The parabolic prediction, with the terms, divisors and grouping of the source. *)
Definition parabolic (qs ns : list spec_float) (dsign : spec_float) (i : nat) : spec_float :=
  let np := f64_sub (arr ns (S i)) (arr ns i) in
  let nm := f64_sub (arr ns (pred i)) (arr ns i) in
  f64_add (arr qs i)
    (f64_mul (f64_div dsign (f64_sub (arr ns (S i)) (arr ns (pred i))))
       (f64_add
          (f64_div (f64_mul (f64_add (f64_sub (arr ns i) (arr ns (pred i))) dsign)
                      (f64_sub (arr qs (S i)) (arr qs i))) np)
          (f64_div (f64_mul (f64_sub (f64_sub (arr ns (S i)) (arr ns i)) dsign)
                      (f64_sub (arr qs i) (arr qs (pred i)))) nm))).

Definition linear (qs ns : list spec_float) (dsign : spec_float) (i : nat) : spec_float :=
  let nb := if flt f0 dsign then S i else pred i in
  f64_add (arr qs i)
    (f64_div (f64_mul dsign (f64_sub (arr qs nb) (arr qs i)))
       (f64_sub (arr ns nb) (arr ns i))).

Definition adjust (np' : list spec_float) (s : list spec_float * list spec_float) (i : nat)
    : list spec_float * list spec_float :=
  let '(qs, ns) := s in
  if must_adjust ns np' i then
    let dsign := f64_signum (f64_sub (arr np' i) (arr ns i)) in
    let qp := parabolic qs ns dsign i in
    let new_q :=
      if flt (arr qs (pred i)) qp && flt qp (arr qs (S i)) then qp else linear qs ns dsign i in
    (<[i := new_q]> qs, <[i := f64_add (arr ns i) dsign]> ns)
  else (qs, ns).

(** The positions of the markers above cell [k] move by one. *)
Definition shift_positions (k : nat) (ns : list spec_float) : list spec_float :=
  imap (fun i v => if (k <? i)%nat then f64_add v f1 else v) ns.

Definition observe (x : spec_float) (e : P2Estimator) : P2Estimator :=
  if count e <? 5 then observe_init x e
  else
    let '(k, q1) := locate_cell x (q e) in
    let n1 := shift_positions k (n e) in
    let np' := zip_with f64_add (n_prime e) (dn e) in
    let '(q2, n2) := foldl (adjust np') (q1, n1) [1; 2; 3]%nat in
    mkP2 q2 n2 np' (dn e) (saturating_add 32 (count e) 1) (p e).

Definition quantile (e : P2Estimator) : option spec_float :=
  if count e <? 5 then None else Some (arr (q e) 2).

(** ** The router *)

Record HedgedRouter (R : Type) := mkHedged {
  h_inner : R;
  h_cfg : HedgedConfig;
  estimators : gmap BackendId P2Estimator;
  decisions_total : Z;
  hedges_total : Z;
  budget_blocked : Z;
}.
Arguments mkHedged {R}.
Arguments h_inner {R}.
Arguments h_cfg {R}.
Arguments estimators {R}.
Arguments decisions_total {R}.
Arguments hedges_total {R}.
Arguments budget_blocked {R}.

Record HedgeStats := mkHedgeStats { hs_decisions : Z; hedges_fired : Z; hs_budget_blocked : Z }.

(** [Duration::as_secs_f64() * 1000.0] of a duration in nanoseconds. *)
Definition as_millis_f64 (ns : Z) : spec_float :=
  f64_mul
    (f64_add (f64_of_Z (ns / 1000000000))
       (f64_div (f64_of_Z (ns mod 1000000000)) (f64_of_Z 1000000000)))
    (f64_of_Z 1000).

Section hedged.
Context {R : Type} `{Router R}.

Definition hedged_new (i : R) (c : HedgedConfig) : HedgedRouter R := mkHedged i c ∅ 0 0 0.

Definition stats (h : HedgedRouter R) : HedgeStats :=
  mkHedgeStats (decisions_total h) (hedges_total h) (budget_blocked h).

Definition observed_quantile_ms (b : BackendId) (h : HedgedRouter R) : option spec_float :=
  f64_as_f32 <$> (estimators h !! b ≫= quantile).

Definition budget_allows (h : HedgedRouter R) : bool :=
  if decisions_total h =? 0 then true
  else flt (f64_div (f64_of_Z (hedges_total h)) (f64_of_Z (decisions_total h)))
         (hedge_max_fraction (h_cfg h)).

Definition pick_secondary (primary : BackendId) (pool : BackendPool) (sigs : BackendSignals)
    : option BackendId :=
  List.find (fun b => negb (b =? primary) &&
                      bool_decide (circuit_state (signals_get sigs b) = Closed)) (backends pool).

(** The estimate [route] compares: that of a warmed-up estimator. *)
Definition warm_quantile (b : BackendId) (h : HedgedRouter R) : option spec_float :=
  match estimators h !! b with
  | Some e => if warmup_observations (h_cfg h) <=? count e then quantile e else None
  | None => None
  end.

Definition hedged_route (clk : Clock) (req : Request) (pool : BackendPool)
    (sigs : BackendSignals) (h : HedgedRouter R) : RoutingDecision * HedgedRouter R :=
  let '(decision, i1) := route clk req pool sigs (h_inner h) in
  let h1 := mkHedged i1 (h_cfg h) (estimators h) (wrapping_add 64 (decisions_total h) 1)
              (hedges_total h) (budget_blocked h) in
  match decision with
  | Send primary =>
      match warm_quantile primary h1 with
      | None => (Send primary, h1)
      | Some q_ms =>
          if flt (f64_as_f32 q_ms) (hedge_min_threshold_ms (h_cfg h1)) then (Send primary, h1)
          else if negb (budget_allows h1) then
            (Send primary, mkHedged i1 (h_cfg h) (estimators h1) (decisions_total h1)
                             (hedges_total h1) (wrapping_add 64 (budget_blocked h1) 1))
          else
            match pick_secondary primary pool sigs with
            | Some secondary =>
                (Hedge [primary; secondary],
                 mkHedged i1 (h_cfg h) (estimators h1) (decisions_total h1)
                   (wrapping_add 64 (hedges_total h1) 1) (budget_blocked h1))
            | None => (Send primary, h1)
            end
      end
  | other => (other, h1)
  end.

Definition hedged_on_response (clk : Clock) (d : RoutingDecision) (o : Outcome)
    (h : HedgedRouter R) : HedgedRouter R :=
  let ms := as_millis_f64 (out_duration o) in
  let e := default (P2Estimator_new (hedge_after_quantile (h_cfg h))) (estimators h !! out_backend o) in
  mkHedged (on_response clk d o (h_inner h)) (h_cfg h)
    (<[out_backend o := observe ms e]> (estimators h))
    (decisions_total h) (hedges_total h) (budget_blocked h).

#[global] Instance HedgedRouter_Router : Router (HedgedRouter R) := {
  route := hedged_route;
  on_response := hedged_on_response;
}.
End hedged.

(** ** The estimator: its shape, its count and its extreme markers *)

Definition p2_ok (e : P2Estimator) : Prop :=
  length (q e) = 5%nat /\ length (n e) = 5%nat /\ length (n_prime e) = 5%nat /\
  length (dn e) = 5%nat /\ in_u32 (count e).

Lemma length_sort_insert x l : length (sort_insert x l) = S (length l).
Proof. induction l as [|y l IH]; cbn; [done|]. destruct (flt x y); cbn; by rewrite ?IH. Qed.

Lemma length_sort_heights l : length (sort_heights l) = length l.
Proof.
  unfold sort_heights.
  enough (H : forall acc, length (foldl (fun acc x => sort_insert x acc) acc l) = (length acc + length l)%nat)
    by apply (H []).
  induction l as [|x l IH]; intros acc; cbn; [lia|]. rewrite IH, length_sort_insert. lia.
Qed.

Lemma adjust_shape np' s i :
  length (fst (adjust np' s i)) = length (fst s) /\ length (snd (adjust np' s i)) = length (snd s).
Proof. destruct s as [qs ns]. unfold adjust. cases; cbn; by rewrite ?length_insert. Qed.

Lemma arr_insert_eq l i x : (i < length l)%nat -> arr (<[i := x]> l) i = x.
Proof. intros. unfold arr. by rewrite list_lookup_insert_eq. Qed.

Lemma arr_insert_ne l i j x : i <> j -> arr (<[i := x]> l) j = arr l j.
Proof. intros. unfold arr. by rewrite list_lookup_insert_ne. Qed.

(** The loop over markers 1, 2, 3 keeps the lengths and the extreme heights. *)
Lemma adjust_ends np' s i :
  (0 < i < 4)%nat ->
  arr (fst (adjust np' s i)) 0 = arr (fst s) 0 /\ arr (fst (adjust np' s i)) 4 = arr (fst s) 4.
Proof.
  intros Hi. destruct s as [qs ns]. unfold adjust. cases; cbn; [|done].
  by rewrite !arr_insert_ne by lia.
Qed.

Lemma adjust_loop np' s :
  let s' := foldl (adjust np') s [1; 2; 3]%nat in
  length (fst s') = length (fst s) /\ length (snd s') = length (snd s) /\
  arr (fst s') 0 = arr (fst s) 0 /\ arr (fst s') 4 = arr (fst s) 4.
Proof.
  cbn [foldl].
  destruct (adjust_shape np' s 1), (adjust_shape np' (adjust np' s 1) 2),
    (adjust_shape np' (adjust np' (adjust np' s 1) 2) 3).
  destruct (adjust_ends np' s 1), (adjust_ends np' (adjust np' s 1) 2),
    (adjust_ends np' (adjust np' (adjust np' s 1) 2) 3); try lia.
  repeat split; congruence.
Qed.

Lemma locate_shape x qs : length (snd (locate_cell x qs)) = length qs.
Proof. unfold locate_cell. repeat cases; cbn; by rewrite ?length_insert. Qed.

Lemma observe_ok x e : p2_ok e -> p2_ok (observe x e).
Proof.
  intros (Hq & Hn & Hn' & Hdn & Hc). unfold in_uint in Hc. unfold observe. zcases.
  - unfold observe_init. zcases; repeat split; cbn; rewrite ?length_sort_heights, ?length_insert; try done; lia.
  - pose proof (locate_shape x (q e)) as Hl. destruct (locate_cell x (q e)) as [k q1].
    pose proof (adjust_loop (zip_with f64_add (n_prime e) (dn e)) (q1, shift_positions k (n e))) as Ha.
    destruct (foldl _ _ _) as [q2 n2]. cbn in Ha, Hl. destruct Ha as (Ha1 & Ha2 & _).
    unfold shift_positions in Ha2. rewrite length_imap in Ha2.
    repeat split; cbn; rewrite ?length_zip_with; unfold saturating_add; lia.
Qed.

Lemma observe_count x e : in_u32 (count e) -> count (observe x e) = saturating_add 32 (count e) 1.
Proof.
  unfold in_uint, saturating_add. intros Hc. unfold observe. zcases.
  - unfold observe_init. zcases; cbn; lia.
  - destruct (locate_cell x (q e)) as [k q1]. by destruct (foldl _ _ _).
Qed.

Definition observe_all (xs : list spec_float) (e : P2Estimator) : P2Estimator :=
  foldl (fun e x => observe x e) e xs.

Lemma observe_all_ok xs e : p2_ok e -> p2_ok (observe_all xs e).
Proof. revert e. induction xs as [|x xs IH]; intros e He; cbn; [done|]. by apply IH, observe_ok. Qed.

Lemma new_ok pq : p2_ok (P2Estimator_new pq).
Proof. by repeat split. Qed.

Lemma observe_all_count xs e :
  p2_ok e -> count (observe_all xs e) = saturating_add 32 (count e) (Z.of_nat (length xs)).
Proof.
  revert e. induction xs as [|x xs IH]; intros e He; cbn [observe_all foldl length].
  - destruct He as (_ & _ & _ & _ & Hc). unfold in_uint in Hc. unfold saturating_add. lia.
  - change (foldl _ ?a xs) with (observe_all xs a). rewrite IH by by apply observe_ok.
    rewrite observe_count by apply He. unfold saturating_add. lia.
Qed.

(** Sorting heights that are not NaN. *)
Definition fle_rel (x y : spec_float) : Prop := fle x y = true.

Lemma sort_insert_perm x l : sort_insert x l ≡ₚ x :: l.
Proof.
  induction l as [|y l IH]; cbn; [done|]. destruct (flt x y); [done|]. rewrite IH. apply perm_swap.
Qed.

Lemma sort_insert_sorted x l :
  is_nan x = false -> Forall (fun y => is_nan y = false) l ->
  StronglySorted fle_rel l -> StronglySorted fle_rel (sort_insert x l).
Proof.
  intros Hx. induction l as [|y l IH]; intros Hn Hs; cbn.
  - by repeat constructor.
  - inversion_clear Hn as [|? ? Hy Hl]. inversion_clear Hs as [|? ? Hs' Hy'].
    destruct (flt x y) eqn:E.
    + constructor; [by constructor|]. apply flt_fle in E. constructor; [done|].
      eapply Forall_impl; [exact Hy'|]. intros z Hz. by eapply fle_trans.
    + constructor; [by apply IH|]. rewrite sort_insert_perm. constructor; [by apply flt_or_fle|done].
Qed.

Lemma sort_heights_spec l :
  Forall (fun y => is_nan y = false) l ->
  sort_heights l ≡ₚ l /\ StronglySorted fle_rel (sort_heights l).
Proof.
  unfold sort_heights.
  enough (H : forall acc, Forall (fun y => is_nan y = false) l -> Forall (fun y => is_nan y = false) acc ->
    StronglySorted fle_rel acc ->
    foldl (fun acc x => sort_insert x acc) acc l ≡ₚ acc ++ l /\
    StronglySorted fle_rel (foldl (fun acc x => sort_insert x acc) acc l))
    by (intros Hl; apply (H []); by try constructor).
  induction l as [|x l IH]; intros acc Hl Ha Hs; cbn.
  - by rewrite app_nil_r.
  - inversion_clear Hl as [|? ? Hx Hl']. destruct (IH (sort_insert x acc)) as [Hp Hs']; try done.
    + rewrite sort_insert_perm. by constructor.
    + by apply sort_insert_sorted.
    + split; [|done]. rewrite Hp, sort_insert_perm. cbn. by rewrite Permutation_middle.
Qed.

(** The outer markers are the least and the greatest observation. *)
Definition extremes (e : P2Estimator) (xs : list spec_float) : Prop :=
  arr (q e) 0 ∈ xs /\ Forall (fle_rel (arr (q e) 0)) xs /\
  arr (q e) 4 ∈ xs /\ Forall (fun x => fle_rel x (arr (q e) 4)) xs.

Lemma extremes_init pq xs :
  length xs = 5%nat -> Forall (fun x => is_nan x = false) xs ->
  extremes (observe_all xs (P2Estimator_new pq)) xs.
Proof.
  intros Hlen Hn.
  assert (Hq : q (observe_all xs (P2Estimator_new pq)) = sort_heights xs).
  { do 5 (destruct xs as [|? xs]; [done|]). by destruct xs. }
  unfold extremes. rewrite Hq. destruct (sort_heights_spec xs Hn) as [Hp Hs].
  pose proof (length_sort_heights xs) as Hl. rewrite Hlen in Hl.
  assert (Hn' : Forall (fun x => is_nan x = false) (sort_heights xs)) by by rewrite Hp.
  clear Hq Hn Hlen. revert Hp Hs Hl Hn'. generalize (sort_heights xs) as ys. intros ys Hp Hs Hl Hn'.
  rewrite <- !Hp. clear Hp.
  destruct ys as [|a [|b [|c [|d [|e [|]]]]]]; try done.
  repeat match goal with H : StronglySorted _ (_ :: _) |- _ => inversion_clear H end.
  repeat match goal with H : Forall _ (_ :: _) |- _ => inversion_clear H end.
  unfold arr; cbn. unfold fle_rel in *.
  split; [set_solver|]. split; [by forall_members; try apply fle_refl|].
  split; [set_solver|by forall_members; try apply fle_refl].
Qed.

Lemma extremes_step x e xs :
  p2_ok e -> 5 <= count e -> is_nan x = false -> Forall (fun x => is_nan x = false) xs ->
  extremes e xs -> extremes (observe x e) (xs ++ [x]).
Proof.
  intros Hok Hc Hx Hxs (Hin0 & Hlo & Hin4 & Hhi).
  assert (H5 : length (q e) = 5%nat) by apply Hok.
  assert (Hn0 : is_nan (arr (q e) 0) = false) by exact (proj1 (Forall_forall _ _) Hxs _ Hin0).
  assert (Hn4 : is_nan (arr (q e) 4) = false) by exact (proj1 (Forall_forall _ _) Hxs _ Hin4).
  unfold observe. destruct (Z.ltb_spec (count e) 5); [lia|].
  destruct (locate_cell x (q e)) as [k q1] eqn:Eloc.
  pose proof (adjust_loop (zip_with f64_add (n_prime e) (dn e)) (q1, shift_positions k (n e))) as Ha.
  destruct (foldl _ _ _) as [q2 n2]. cbn in Ha. destruct Ha as (_ & _ & Ha0 & Ha4).
  unfold extremes; cbn [q]. rewrite Ha0, Ha4. clear Ha0 Ha4. unfold fle_rel in *.
  rewrite !Forall_app, !Forall_singleton, !elem_of_app, !list_elem_of_singleton.
  assert (Hup : fle (arr (q e) 0) (arr (q e) 4) = true) by exact (proj1 (Forall_forall _ _) Hlo _ Hin4).
  unfold locate_cell in Eloc. destruct (flt x (arr (q e) 0)) eqn:E0; [|destruct (fle (arr (q e) 4) x) eqn:E4].
  - injection Eloc as _ <-. apply flt_fle in E0.
    rewrite arr_insert_eq, arr_insert_ne by lia.
    split; [by right|]. split; [split; [|by apply fle_refl]|].
    { eapply Forall_impl; [exact Hlo|]. intros y Hy. by eapply fle_trans. }
    split; [by left|]. split; [done|]. by eapply fle_trans.
  - injection Eloc as _ <-.
    rewrite arr_insert_eq, arr_insert_ne by lia.
    split; [by left|]. split; [split; [done|by apply flt_or_fle]|].
    split; [by right|]. split; [|by apply fle_refl].
    eapply Forall_impl; [exact Hhi|]. intros y Hy. exact (fle_trans _ _ _ Hy E4).
  - injection Eloc as _ <-. split; [by left|]. split; [split; [done|by apply flt_or_fle]|].
    split; [by left|]. split; [done|]. apply flt_fle. destruct (flt x (arr (q e) 4)) eqn:E; [done|].
    apply flt_or_fle in E; [congruence|done|done].
Qed.

Lemma extremes_all pq xs :
  (5 <= length xs)%nat -> Forall (fun x => is_nan x = false) xs ->
  extremes (observe_all xs (P2Estimator_new pq)) xs.
Proof.
  intros Hlen Hn. rewrite <- (take_drop 5 xs) in Hn |- *. revert Hn.
  assert (H5 : length (take 5 xs) = 5%nat) by (rewrite length_take; lia).
  revert H5. generalize (take 5 xs) as ys, (drop 5 xs) as zs. clear Hlen. intros ys zs H5.
  induction zs as [|z zs IH] using rev_ind; intros Hn.
  - rewrite app_nil_r in *. by apply extremes_init.
  - rewrite app_assoc in *. apply Forall_app in Hn as [Hn Hz]. inversion_clear Hz as [|? ? Hz' _].
    unfold observe_all. rewrite foldl_app. cbn [foldl]. fold (observe_all (ys ++ zs) (P2Estimator_new pq)).
    pose proof (observe_all_ok (ys ++ zs) _ (new_ok pq)) as Hok.
    apply extremes_step; [exact Hok| |exact Hz'|exact Hn|by apply IH].
    rewrite observe_all_count by apply new_ok. rewrite length_app, H5. cbn. unfold saturating_add. lia.
Qed.

(** The P-square estimator after any sequence of latencies: its arrays keep their five
    entries and its count saturates; there is no quantile before the fifth observation and
    always one after it; and the outer markers are exactly the least and the greatest
    latency observed, whatever the adjustment of the inner markers did. *)
Theorem p2_observations pq xs :
  Forall (fun x => is_nan x = false) xs ->
  let e := observe_all xs (P2Estimator_new pq) in
  p2_ok e /\ count e = Z.min (Z.of_nat (length xs)) U32_MAX /\
  (quantile e = None <-> (length xs < 5)%nat) /\
  ((5 <= length xs)%nat -> extremes e xs).
Proof.
  intros Hn. cbn zeta. pose proof (observe_all_ok xs _ (new_ok pq)) as Hok.
  pose proof (observe_all_count xs _ (new_ok pq)) as Hc. cbn in Hc. unfold saturating_add in Hc.
  split; [done|]. split; [exact Hc|]. split; [|intros; by apply extremes_all].
  unfold quantile. rewrite Hc. zcases; split; intros; try done; lia.
Qed.

Lemma p2_observations_witness :
  extremes (observe_all (f64_of_Z <$> [30; 10; 50; 20; 40; 5; 60]) (P2Estimator_new (f64_lit 95 100)))
    (f64_of_Z <$> [30; 10; 50; 20; 40; 5; 60]).
Proof.
  apply (p2_observations (f64_lit 95 100) (f64_of_Z <$> [30; 10; 50; 20; 40; 5; 60]));
    [forall_members; reflexivity|cbn; lia].
Defined.

(** The published parabolic formula divides its second term by the positive distance to the
    marker below; the code divides by [nm], the negative one.  On markers that lie on a line
    the formula must stay on the line: with heights 0, 10, 40 at positions 0, 1, 4 the
    prediction for position 2 is 20, and the code answers 10. *)
Theorem parabolic_leaves_the_line :
  parabolic (f64_of_Z <$> [0; 10; 40]) (f64_of_Z <$> [0; 1; 4]) f1 1 = f64_of_Z 10.
Proof. vm_compute. reflexivity. Qed.

(** ** The decision of [route] *)

Section route.
Context {R : Type} `{Router R}.

Lemma pick_secondary_some primary pool sigs b :
  pick_secondary primary pool sigs = Some b ->
  b ∈ backends pool /\ b <> primary /\ circuit_state (signals_get sigs b) = Closed.
Proof.
  unfold pick_secondary. intros [Hin Hb]%List.find_some.
  apply andb_prop in Hb as [Hb1 Hb2]. apply bool_decide_eq_true in Hb2. zcases; [done|].
  repeat split; try done. by apply list_elem_of_In.
Qed.

Lemma pick_secondary_none primary pool sigs :
  pick_secondary primary pool sigs = None ->
  forall b, b ∈ backends pool -> b <> primary -> circuit_state (signals_get sigs b) <> Closed.
Proof.
  unfold pick_secondary. intros Hn b Hb Hne Hc. rewrite list_elem_of_In in Hb.
  pose proof (List.find_none _ _ Hn b Hb) as Hf. cbn in Hf.
  destruct (Z.eqb_spec b primary); [done|]. by rewrite bool_decide_eq_true_2 in Hf.
Qed.

(** The conditions under which a primary is hedged, on the state whose decision counter
    already includes the current call. *)
Definition slow (h : HedgedRouter R) (b : BackendId) : Prop :=
  exists e, estimators h !! b = Some e /\ warmup_observations (h_cfg h) <= count e /\ 5 <= count e /\
    flt (f64_as_f32 (arr (q e) 2)) (hedge_min_threshold_ms (h_cfg h)) = false.

Definition counted (h : HedgedRouter R) (i : R) : HedgedRouter R :=
  mkHedged i (h_cfg h) (estimators h) (wrapping_add 64 (decisions_total h) 1) (hedges_total h)
    (budget_blocked h).

Definition has_secondary (primary : BackendId) (pool : BackendPool) (sigs : BackendSignals) : Prop :=
  exists b, b ∈ backends pool /\ b <> primary /\ circuit_state (signals_get sigs b) = Closed.

Lemma warm_quantile_slow h b x :
  warm_quantile b h = Some x -> flt (f64_as_f32 x) (hedge_min_threshold_ms (h_cfg h)) = false -> slow h b.
Proof.
  unfold warm_quantile, quantile. intros Hw Hx. repeat cases; try done. zcases; try done.
  simplify_eq. eexists; repeat split; try done.
Qed.

Lemma slow_warm_quantile h b :
  slow h b -> exists x, warm_quantile b h = Some x /\
    flt (f64_as_f32 x) (hedge_min_threshold_ms (h_cfg h)) = false.
Proof.
  intros (e & He & Hw & H5 & Hlt). exists (arr (q e) 2). split; [|done].
  unfold warm_quantile, quantile. rewrite He. zcases; try done; lia.
Qed.
End route.

(** ** Histories of calls *)

(** The promise an inner router makes here: it never hedges on its own. *)
Class NeverHedges (R : Type) `{Router R} :=
  never_hedges : forall clk req pool sigs r bs, fst (route clk req pool sigs r) <> Hedge bs.

Definition is_hedge (d : RoutingDecision) : bool := match d with Hedge _ => true | _ => false end.
Definition hedges (ds : list RoutingDecision) : Z := Z.of_nat (length (filter (fun d => is_hedge d = true) ds)).

(** A history, oldest call first, with the decisions its [route] calls returned. *)
Definition h_step {R} `{Router R} (s : list RoutingDecision * HedgedRouter R) (c : call) :
    list RoutingDecision * HedgedRouter R :=
  match c with
  | CallRoute clk req pool sigs =>
      let '(d, h) := route clk req pool sigs (snd s) in (fst s ++ [d], h)
  | CallResponse clk d o => (fst s, on_response clk d o (snd s))
  end.

Definition h_run {R} `{Router R} (calls : list call) (h : HedgedRouter R) :=
  foldl h_step ([], h) calls.

Section history.
Context {R : Type} `{NeverHedges R}.
Implicit Types h : HedgedRouter R.

(** One call to [route]: a hedge fires only under the budget test, is counted, and names
    the primary with a distinct closed backend of the pool; anything else is not counted. *)
Lemma route_accounts clk req pool sigs h d h' :
  hedged_route clk req pool sigs h = (d, h') ->
  let i1 := snd (route clk req pool sigs (h_inner h)) in
  h_cfg h' = h_cfg h /\ h_inner h' = i1 /\ estimators h' = estimators h /\
  decisions_total h' = wrapping_add 64 (decisions_total h) 1 /\
  match d with
  | Hedge bs =>
      hedges_total h' = wrapping_add 64 (hedges_total h) 1 /\ budget_allows (counted h i1) = true /\
      exists primary secondary, bs = [primary; secondary] /\
        fst (route clk req pool sigs (h_inner h)) = Send primary /\
        slow (counted h i1) primary /\ secondary <> primary /\ secondary ∈ backends pool /\
        circuit_state (signals_get sigs secondary) = Closed
  | d => hedges_total h' = hedges_total h /\ fst (route clk req pool sigs (h_inner h)) = d
  end.
Proof.
  unfold hedged_route. pose proof (never_hedges clk req pool sigs (h_inner h)) as Hnh.
  destruct (route clk req pool sigs (h_inner h)) as [d0 i1]. cbn in *.
  destruct d0 as [primary|bs|s]; [|by destruct (Hnh bs)|by intros [= <- <-]].
  fold (counted h i1). destruct (warm_quantile primary (counted h i1)) as [x|] eqn:Ew; [|by intros [= <- <-]].
  destruct (flt _ _) eqn:Ef; [by intros [= <- <-]|].
  destruct (budget_allows (counted h i1)) eqn:Eb; cbn [negb]; [|by intros [= <- <-]].
  destruct (pick_secondary primary pool sigs) as [sec|] eqn:Ep; intros [= <- <-]; [|done].
  apply pick_secondary_some in Ep as (Hin & Hne & Hcl). cbn. repeat split; try done.
  exists primary, sec. repeat split; try done. by eapply warm_quantile_slow.
Qed.

(** The account after a history. *)
Definition accounts (c : HedgedConfig) (s : list RoutingDecision * HedgedRouter R) : Prop :=
  let '(ds, h) := s in
  h_cfg h = c /\
  decisions_total h = wrap 64 (Z.of_nat (length ds)) /\
  hedges_total h = wrap 64 (hedges ds) /\
  forall i bs, ds !! i = Some (Hedge bs) -> Z.of_nat (S i) < 2 ^ 64 ->
    flt (f64_div (f64_of_Z (hedges (take i ds))) (f64_of_Z (Z.of_nat (S i)))) (hedge_max_fraction c) = true.

Lemma hedges_snoc ds d : hedges (ds ++ [d]) = hedges ds + if is_hedge d then 1 else 0.
Proof.
  unfold hedges. rewrite filter_app, length_app, filter_cons, filter_nil.
  case_decide; destruct d; cbn in *; try done; lia.
Qed.

Lemma hedges_le ds : 0 <= hedges ds <= Z.of_nat (length ds).
Proof. unfold hedges. pose proof (length_filter (fun d => is_hedge d = true) ds). lia. Qed.

Lemma wrapping_succ z : wrapping_add 64 (wrap 64 z) 1 = wrap 64 (z + 1).
Proof. unfold wrapping_add, wrap. by rewrite Zplus_mod_idemp_l. Qed.

Lemma accounts_step c s call : accounts c s -> accounts c (h_step s call).
Proof.
  destruct s as [ds h]. intros (Hc & Hd & Hh & Hb). destruct call as [clk req pool sigs|clk d o]; cbn.
  2: { by repeat split. }
  destruct (hedged_route clk req pool sigs h) as [d h'] eqn:E. cbn.
  apply route_accounts in E as (Hc' & _ & _ & Hd' & Hm).
  assert (Hlen : wrap 64 (Z.of_nat (length (ds ++ [d]))) = wrapping_add 64 (decisions_total h) 1).
  { rewrite Hd, wrapping_succ, length_app. f_equal. cbn. lia. }
  split; [congruence|]. split; [congruence|]. split.
  { rewrite hedges_snoc. destruct d; cbn; rewrite ?Z.add_0_r; try (destruct Hm; congruence).
    destruct Hm as [-> _]. by rewrite Hh, wrapping_succ. }
  intros i bs Hi Hlt. apply lookup_snoc_Some in Hi as [[Hi Hi']|[-> ->]].
  - rewrite take_app_le by lia. by eapply Hb.
  - rewrite take_app_length. destruct Hm as (_ & Hm & _). unfold budget_allows in Hm. cbn in Hm.
    rewrite <- Hlen, Hh, Hc, length_app in Hm. cbn [length] in Hm. pose proof (hedges_le ds).
    rewrite !wrap_small in Hm by (unfold in_uint; lia).
    replace (Z.of_nat (S (length ds))) with (Z.of_nat (length ds + 1)) by lia.
    zcases; [lia|done].
Qed.

Lemma accounts_run c i calls : accounts c (h_run calls (hedged_new i c)).
Proof.
  unfold h_run. induction calls as [|x calls IH] using rev_ind.
  - cbn. repeat split; done.
  - rewrite foldl_app. by apply accounts_step.
Qed.

(** [C13] The global hedge budget: in every history of a fresh router (below [2^64] decisions),
    the telemetry counts exactly the decisions and the hedges, and each hedge fired when the
    share of hedges before it, over the decisions up to and including it, was below
    [hedge_max_fraction] in the [f64] arithmetic of the code. *)
Theorem hedge_budget i c calls :
  let '(ds, h) := h_run calls (hedged_new (R := R) i c) in
  Z.of_nat (length ds) < 2 ^ 64 ->
  hs_decisions (stats h) = Z.of_nat (length ds) /\ hedges_fired (stats h) = hedges ds /\
  forall k bs, ds !! k = Some (Hedge bs) ->
    flt (f64_div (f64_of_Z (hedges (take k ds))) (f64_of_Z (Z.of_nat (S k)))) (hedge_max_fraction c) = true.
Proof.
  pose proof (accounts_run c i calls) as Ha. destruct (h_run calls _) as [ds h].
  destruct Ha as (_ & Hd & Hh & Hb). intros Hlt. pose proof (hedges_le ds). cbn.
  rewrite Hd, Hh, !wrap_small by (unfold in_uint; lia). repeat split; try done.
  intros k bs Hk. apply (Hb k bs Hk). apply lookup_lt_Some in Hk. lia.
Qed.

(** A fraction of zero (or below) turns hedging off. *)
Theorem zero_fraction_never_hedges clk req pool sigs h :
  fle (hedge_max_fraction (h_cfg h)) f0 = true -> 0 < decisions_total h < 2 ^ 64 - 1 -> 0 <= hedges_total h ->
  is_hedge (fst (hedged_route clk req pool sigs h)) = false.
Proof.
  intros Hf Hd Hh. destruct (hedged_route clk req pool sigs h) as [d h'] eqn:E. cbn.
  apply route_accounts in E as (_ & _ & _ & _ & Hm). destruct d as [|bs|]; try done.
  destruct Hm as (_ & Hb & _). unfold budget_allows in Hb. cbn in Hb.
  unfold wrapping_add in Hb. rewrite wrap_small in Hb by (unfold in_uint; lia). zcases; [lia|].
  rewrite unsigned_not_neg in Hb; [done| |done]. apply unsigned_div; apply unsigned_of_Z; lia.
Qed.
End history.

(** ** The promise to the circuit breaker *)

Definition decision_targets (d : RoutingDecision) : list BackendId :=
  match d with Send b => [b] | Hedge bs => bs | Reject _ => [] end.

Section avoids.
Context {R : Type} `{Router R} `{!NeverHedges R} `{!AvoidsOpen R}.

(** No target of a decision, hedged or not, is presented as open. *)
Lemma hedged_targets clk req pool sigs (h : HedgedRouter R) b :
  router_inv (h_inner h) -> b ∈ decision_targets (fst (hedged_route clk req pool sigs h)) ->
  circuit_state (signals_get sigs b) <> Open.
Proof.
  intros Hi Hb. pose proof (fun c => route_avoids_open clk req pool sigs (h_inner h) c Hi) as Ha.
  destruct (hedged_route clk req pool sigs h) as [d h'] eqn:E.
  apply route_accounts in E as (_ & _ & _ & _ & Hm). destruct d as [c|bs|s]; cbn in Hb.
  - apply list_elem_of_singleton in Hb as ->. apply Ha, Hm.
  - destruct Hm as (_ & _ & p1 & s1 & -> & Hp & _ & _ & _ & Hcl).
    apply elem_of_cons in Hb as [->|Hb]; [by apply Ha|].
    apply list_elem_of_singleton in Hb as ->. by rewrite Hcl.
  - by apply elem_of_nil in Hb.
Qed.

#[global, refine] Instance hedged_avoids_open : AvoidsOpen (HedgedRouter R) := {
  router_inv := fun h => router_inv (h_inner h) }.
Proof.
  - intros clk req pool sigs h Hi. cbn. destruct (hedged_route clk req pool sigs h) as [d h'] eqn:E. cbn [snd].
    apply route_accounts in E as (_ & -> & _). by apply route_inv.
  - intros clk d o h Hi. cbn. by apply on_response_inv.
  - intros clk req pool sigs h b Hi Hd. apply (hedged_targets clk req pool sigs h b Hi).
    cbn in Hd. rewrite Hd. by apply list_elem_of_singleton.
Defined.

(** [C12] The stack of [main.rs], a circuit breaker around a hedged router: no decision,
    neither a send nor either half of a hedge, targets a backend of the pool whose breaker
    is open, or half-open with its probes spent, once the timed-out breakers moved on. *)
Theorem stack_avoids_shut_backends clk req pool sigs (a : CircuitBreakerArbiter (HedgedRouter R)) b br :
  router_inv (inner a) -> pool_has b pool ->
  b ∈ decision_targets (fst (circuit_route clk req pool sigs a)) ->
  breakers (prepare clk (backends pool) a) !! b = Some br -> ~ shut (cfg a) br.
Proof.
  intros Hi [Hin Hpos] Hb Hbr Hshut. unfold circuit_route, route_begin, route_finish in Hb.
  destruct (prepare_fixed clk (backends pool) a) as [Hc1 Hi1].
  set (a1 := prepare clk (backends pool) a) in *.
  destruct (route _ req pool (build_signals pool sigs a1) (inner a1)) as [d i] eqn:E. cbn in Hb, E.
  rewrite <- Hi1 in Hi. apply (hedged_targets (fun k => clk (length (backends pool) + k)%nat) req pool
    (build_signals pool sigs a1) (inner a1) b Hi); [by rewrite E|].
  rewrite (build_signals_state pool sigs a1 b Hpos Hin br Hbr), Hc1.
  destruct Hshut as [->|[-> Hle]]; [done|]. by rewrite (proj2 (Z.leb_le _ _) Hle).
Qed.

(** With one backend in the pool, as [main.rs] builds it, there is never a second one to
    hedge to, so the handler never meets a [Hedge]. *)
Theorem one_backend_never_hedges clk req b0 sigs (h : HedgedRouter R) :
  (forall b, fst (route clk req (mkPool [b0]) sigs (h_inner h)) = Send b -> b = b0) ->
  is_hedge (fst (hedged_route clk req (mkPool [b0]) sigs h)) = false.
Proof.
  intros Hone. destruct (hedged_route clk req (mkPool [b0]) sigs h) as [d h'] eqn:E.
  apply route_accounts in E as (_ & _ & _ & _ & Hm). destruct d as [c|bs|s]; try done.
  destruct Hm as (_ & _ & p1 & s1 & -> & Hp & _ & Hne & Hin & _). exfalso. apply Hne.
  apply list_elem_of_singleton in Hin as ->. symmetry. by apply Hone.
Qed.
End avoids.

(** The routers of the workspace that never hedge on their own. *)
#[global] Instance constant_never_hedges : NeverHedges ConstantRouter.
Proof. done. Qed.

#[global] Instance weighted_never_hedges : NeverHedges WeightedRandomRouter.
Proof.
  intros clk req pool sigs r bs. cbn. unfold weighted_route. destruct (backends pool); [done|].
  destruct (sample_loop _ _ _ _) as [[[[b0|] fb] r']|]; [done| |done]. cbn.
  by repeat case_match.
Qed.

Lemma kv_never_hedges {R} `{NeverHedges R} xxh3_64 : @NeverHedges (KvAwareRouter R) (kv_router xxh3_64).
Proof.
  intros clk req pool sigs k bs. cbn. unfold kv_route.
  pose proof (fun bs => never_hedges clk req pool sigs (kv_inner k) bs) as Hn.
  destruct (_ <? _)%nat; [|destruct (longest_match _ _) as [b'|]; [destruct (circuit_state _)|]];
    cbn [kv_inner]; try done; destruct (route clk req pool sigs (kv_inner k)) as [d i]; by apply Hn.
Qed.

(** ** The stack [main.rs] builds, and concrete runs *)

Definition production_router : option (CircuitBreakerArbiter (HedgedRouter (KvAwareRouter WeightedRandomRouter))) :=
  weighted ← weighted_new [(0, 1)];
  Some (new (hedged_new (kv_new weighted KvAwareConfig_default) HedgedConfig_default)
          CircuitBreakerConfig_default).

(** The stack of the binary is put together without a panic. *)
Lemma production_router_built : is_Some production_router.
Proof.
  unfold production_router. destruct (weighted_new [(0, 1)]) as [r|] eqn:E; [by eexists|]. by vm_compute in E.
Qed.

Definition demo_hedged_cfg : HedgedConfig :=
  mkHedgedConfig (f64_lit 95 100) (f64_lit 1 2) (f32_of_Z 5) 10.

Definition slow_reply (b : BackendId) : Outcome := mkOutcome b (Some 200) 200000000 true.

Definition ask_route : call := CallRoute (fun _ => 0) demo_request (mkPool [0; 1]) (mkSignals []).

Definition slow_history : list call :=
  replicate 12 (CallResponse (fun _ => 0) (Send 0) (slow_reply 0)) ++ replicate 3 ask_route.

Lemma hedge_budget_witness :
  fst (h_run slow_history (hedged_new (mkConstant 0) demo_hedged_cfg)) =
    [Hedge [0; 1]; Send 0; Hedge [0; 1]] /\
  hedges_fired (stats (snd (h_run slow_history (hedged_new (mkConstant 0) demo_hedged_cfg)))) = 2.
Proof.
  split; [by vm_compute|].
  pose proof (hedge_budget (mkConstant 0) demo_hedged_cfg slow_history) as Hb.
  destruct (h_run slow_history (hedged_new (mkConstant 0) demo_hedged_cfg)) as [ds h] eqn:E.
  assert (ds = [Hedge [0; 1]; Send 0; Hedge [0; 1]]) as ->.
  { change ds with (fst (ds, h)). rewrite <- E. by vm_compute. }
  destruct Hb as (_ & Hf & _); [cbn; lia|]. cbn [snd]. rewrite Hf. by vm_compute.
Defined.

(** Two backends behind the stack: backend 0 slow and half-open, its one probe unused. *)
Definition warm_router : HedgedRouter WeightedRandomRouter :=
  snd (h_run (replicate 12 (CallResponse (fun _ => 0) (Send 0) (slow_reply 0)))
         (hedged_new demo_inner demo_hedged_cfg)).

Definition half_open_stack : CircuitBreakerArbiter (HedgedRouter WeightedRandomRouter) :=
  mkArbiter warm_router demo_cfg {[ 0 := mkBreaker (pack_state TAG_HALF_OPEN 0) 0 ]} {[ 0 := 0 ]}.

Definition open_stack : CircuitBreakerArbiter (HedgedRouter WeightedRandomRouter) :=
  mkArbiter warm_router demo_cfg {[ 0 := mkBreaker (pack_state TAG_OPEN 0) 0 ]} {[ 0 := 0 ]}.

Lemma stack_avoids_shut_backends_witness :
  0 ∉ decision_targets (fst (circuit_route (fun _ => 10) demo_request (mkPool [0; 1]) (mkSignals []) open_stack)).
Proof.
  intros Hin.
  apply (stack_avoids_shut_backends (fun _ => 10) demo_request (mkPool [0; 1]) (mkSignals []) open_stack 0
           (mkBreaker (pack_state TAG_OPEN 0) 0)).
  - exact demo_inner_ok.
  - apply demo_pool_has. by left.
  - exact Hin.
  - by vm_compute.
  - left. by vm_compute.
Defined.

(** The probe count of the breaker sees only sends: hedged requests keep reaching the
    half-open backend although [half_open_max] is 1, and no probe is on record. *)
Theorem hedged_probes_not_counted :
  let '(ds, a) := run_calls (replicate 8 (demo_route 10)) half_open_stack in
  filter (fun d => is_hedge d = true) ds = [Hedge [0; 1]; Hedge [0; 1]; Hedge [0; 1]] /\
  half_open_inflight <$> breakers a !! 0 = Some 0.
Proof. by vm_compute. Qed.
