(* ===== verification/Timers.v ===== *)
(** * Timers: [BinaryHeapTimers] of [riftgate-core/src/timers.rs]

    The [BinaryHeap] of the standard library is modelled as the array it is, with its
    sift operations, because the code also iterates over that array.  An entry is
    [(deadline, id)], and [Reverse] makes the heap a min-heap for the lexicographic
    order.  A callback is an opaque value; [tick] returns the ones it ran, in order. *)

From Stdlib Require Import SpecFloat.
From S2P Require Import Prelude Floats.

Abbreviation entry := (Z * Z)%type (only parsing).

(** The order of the heap's keys. *)
Definition elt (x y : entry) : bool :=
  (fst x <? fst y) || ((fst x =? fst y) && (snd x <? snd y)).
Definition ele (x y : entry) : bool := negb (elt y x).

(** ** The array heap *)

Definition at_ (d : list entry) (i : nat) : entry := default (0, 0) (d !! i).
Definition swap (i j : nat) (d : list entry) : list entry := <[i := at_ d j]> (<[j := at_ d i]> d).
Definition parent (i : nat) : nat := ((i - 1) / 2)%nat.

(** [sift_up(0, pos)]. *)
Fixpoint sift_up (fuel pos : nat) (d : list entry) : list entry :=
  match fuel with
  | O => d
  | S fuel =>
      if decide (pos = 0%nat) then d
      else if ele (at_ d (parent pos)) (at_ d pos) then d
      else sift_up fuel (parent pos) (swap pos (parent pos) d)
  end.

Definition heap_push (x : entry) (d : list entry) : list entry :=
  sift_up (S (length d)) (length d) (d ++ [x]).

(** The child that [sift_down_to_bottom] descends to: the right one when it is not larger. *)
Definition down_child (d : list entry) (pos : nat) : nat :=
  let left := (2 * pos + 1)%nat in
  if decide (S left < length d)%nat
  then if ele (at_ d (S left)) (at_ d left) then S left else left
  else left.

(** [sift_down_to_bottom(0)] without its final [sift_up]: the array and where the hole is. *)
Fixpoint sift_to_bottom (fuel pos : nat) (d : list entry) : list entry * nat :=
  match fuel with
  | O => (d, pos)
  | S fuel =>
      if decide (2 * pos + 1 < length d)%nat
      then let c := down_child d pos in sift_to_bottom fuel c (swap pos c d)
      else (d, pos)
  end.

Definition heap_pop (d : list entry) : list entry :=
  match last d with
  | None => []
  | Some x =>
      match removelast d with
      | [] => []
      | d0 =>
          let d1 := <[0%nat := x]> d0 in
          let '(d2, pos) := sift_to_bottom (length d1) 0 d1 in
          sift_up (S pos) pos d2
      end
  end.

Definition heap_peek (d : list entry) : option entry := head d.

(** [BinaryHeap::from]: [sift_down] from the last parent to the root. *)
Fixpoint sift_down (fuel pos : nat) (d : list entry) : list entry :=
  match fuel with
  | O => d
  | S fuel =>
      if decide (2 * pos + 1 < length d)%nat then
        let c := down_child d pos in
        if ele (at_ d pos) (at_ d c) then d else sift_down fuel c (swap pos c d)
      else d
  end.

Definition heap_from (d : list entry) : list entry :=
  foldl (fun d pos => sift_down (length d) pos d) d (rev (seq 0 (length d / 2))).

(** ** The timer subsystem *)

Section timers.
Context {A : Type}.

Record BinaryHeapTimers := mkTimers {
  heap : list entry;
  callbacks : gmap Z A;
  cancelled : gset Z;
  next_id : Z;
  compaction_ratio : spec_float;
}.

Definition with_compaction_ratio (r : spec_float) : BinaryHeapTimers :=
  mkTimers [] ∅ ∅ 1 (fclamp (f32_lit 1 1000) (f32_of_Z 1) r).
Definition timers_new : BinaryHeapTimers := with_compaction_ratio (f32_lit 25 100).

Definition cancelled_pending (t : BinaryHeapTimers) : nat := size (cancelled t).

(** The drain of [compact]: the entries kept, in the order they are popped. *)
Fixpoint drain (fuel : nat) (dead : gset Z) (d : list entry) : list entry :=
  match fuel with
  | O => []
  | S fuel =>
      match heap_peek d with
      | None => []
      | Some x =>
          if bool_decide (snd x ∈ dead) then drain fuel dead (heap_pop d)
          else x :: drain fuel dead (heap_pop d)
      end
  end.

Definition compact (t : BinaryHeapTimers) : BinaryHeapTimers :=
  mkTimers (heap_from (drain (length (heap t)) (cancelled t) (heap t)))
    (callbacks t) ∅ (next_id t) (compaction_ratio t).

Definition maybe_compact (t : BinaryHeapTimers) : BinaryHeapTimers :=
  match heap t with
  | [] => t
  | h =>
      let threshold := f_as_uint 64 (f32_mul (f32_of_Z (Z.of_nat (length h))) (compaction_ratio t)) in
      if threshold <? Z.of_nat (size (cancelled t)) then compact t else t
  end.

Definition schedule (deadline : Z) (cb : A) (t : BinaryHeapTimers) : Z * BinaryHeapTimers :=
  let id := next_id t in
  (id, mkTimers (heap_push (deadline, id) (heap t)) (<[id := cb]> (callbacks t)) (cancelled t)
         (wrapping_add 64 id 1) (compaction_ratio t)).

Definition cancel (id : Z) (t : BinaryHeapTimers) : bool * BinaryHeapTimers :=
  match callbacks t !! id with
  | Some _ =>
      (true, maybe_compact (mkTimers (heap t) (delete id (callbacks t)) ({[ id ]} ∪ cancelled t)
               (next_id t) (compaction_ratio t)))
  | None => (false, t)
  end.

(** The loop of [tick]; the callbacks it ran, with their entries. *)
Fixpoint tick_loop (fuel : nat) (now : Z) (t : BinaryHeapTimers) : list (entry * A) * BinaryHeapTimers :=
  match fuel with
  | O => ([], t)
  | S fuel =>
      match heap_peek (heap t) with
      | None => ([], t)
      | Some (deadline, id) =>
          if now <? deadline then ([], t)
          else
            let h := heap_pop (heap t) in
            if bool_decide (id ∈ cancelled t) then
              tick_loop fuel now
                (mkTimers h (callbacks t) (cancelled t ∖ {[ id ]}) (next_id t) (compaction_ratio t))
            else
              match callbacks t !! id with
              | Some cb =>
                  let '(fs, t) := tick_loop fuel now
                    (mkTimers h (delete id (callbacks t)) (cancelled t) (next_id t) (compaction_ratio t)) in
                  ((deadline, id, cb) :: fs, t)
              | None =>
                  tick_loop fuel now
                    (mkTimers h (callbacks t) (cancelled t) (next_id t) (compaction_ratio t))
              end
      end
  end.

Definition tick (now : Z) (t : BinaryHeapTimers) : list (entry * A) * BinaryHeapTimers :=
  tick_loop (S (length (heap t))) now t.

Definition timers_len (t : BinaryHeapTimers) : nat := size (callbacks t).

(** [for entry in &self.heap]: the array, front to back. *)
Definition next_deadline (t : BinaryHeapTimers) : option Z :=
  fst <$> List.find (fun x => negb (bool_decide (snd x ∈ cancelled t))) (heap t).

(** [DeterministicTimers]: the same with the last tick remembered. *)
Record DeterministicTimers := mkDeterministic { det_inner : BinaryHeapTimers; last_tick : option Z }.

Definition det_tick (now : Z) (t : DeterministicTimers) : list (entry * A) * DeterministicTimers :=
  let '(fs, i) := tick now (det_inner t) in (fs, mkDeterministic i (Some now)).
End timers.

(** ** The heap order *)

Definition le (x y : entry) : Prop := fst x < fst y \/ (fst x = fst y /\ snd x <= snd y).

Lemma ele_spec x y : ele x y = true <-> le x y.
Proof. unfold ele, elt, le. destruct x, y; cbn. zcases; cbn; split; try done; lia. Qed.

Lemma ele_false x y : ele x y = false -> le y x /\ x <> y.
Proof.
  unfold ele, elt, le. destruct x as [a b], y as [c d]; cbn. intros H.
  split; [zcases; cbn in H; (done || lia)|].
  intros [= -> ->]. zcases; cbn in H; (done || lia).
Qed.

Lemma le_refl x : le x x.
Proof. unfold le. lia. Qed.

Lemma le_trans x y z : le x y -> le y z -> le x z.
Proof. unfold le. lia. Qed.

Lemma le_antisym x y : le x y -> le y x -> x = y.
Proof. unfold le. destruct x, y; cbn. intros. f_equal; lia. Qed.

Lemma parent_lt i : (0 < i)%nat -> (parent i < i)%nat.
Proof. intros. unfold parent. apply Nat.Div0.div_lt_upper_bound. lia. Qed.

Lemma parent_child c p : (0 < c)%nat -> parent c = p <-> (c = 2 * p + 1 \/ c = 2 * p + 2)%nat.
Proof.
  intros Hc. unfold parent. pose proof (Nat.div_mod_eq (c - 1) 2).
  pose proof (Nat.mod_upper_bound (c - 1) 2). lia.
Qed.

Lemma length_swap i j d : length (swap i j d) = length d.
Proof. unfold swap. by rewrite !length_insert. Qed.

Lemma at_swap i j k d :
  (i < length d)%nat -> (j < length d)%nat ->
  at_ (swap i j d) k = if decide (k = i) then at_ d j else if decide (k = j) then at_ d i else at_ d k.
Proof.
  intros Hi Hj. unfold swap, at_ at 1. destruct (decide (k = i)) as [->|Hki].
  - by rewrite list_lookup_insert_eq by by rewrite length_insert.
  - rewrite list_lookup_insert_ne by done. destruct (decide (k = j)) as [->|Hkj].
    + by rewrite list_lookup_insert_eq.
    + by rewrite list_lookup_insert_ne.
Qed.

Lemma insert_perm {B} (l : list B) i x y : l !! i = Some x -> <[i := y]> l ≡ₚ y :: delete i l.
Proof.
  revert i. induction l as [|z l IH]; intros [|i] Hi; try done; cbn in *.
  rewrite (IH i Hi). apply perm_swap.
Qed.

Lemma swap_perm i j d : (i < length d)%nat -> (j < length d)%nat -> swap i j d ≡ₚ d.
Proof.
  intros Hi Hj. unfold swap, at_.
  pose proof (lookup_lt_is_Some_2 _ _ Hi) as [x Hx]. pose proof (lookup_lt_is_Some_2 _ _ Hj) as [y Hy].
  rewrite Hx, Hy. cbn [default from_option id]. destruct (decide (i = j)) as [->|Hne].
  { rewrite Hx in Hy. injection Hy as ->. rewrite list_insert_insert_eq. by rewrite list_insert_id. }
  set (l1 := <[j := x]> d). assert (Hl1 : l1 !! i = Some x) by (unfold l1; by rewrite list_lookup_insert_ne).
  rewrite (insert_perm l1 i x y Hl1), (delete_Permutation d j y Hy). f_equiv.
  apply (Permutation_cons_inv (a := x)). rewrite <- (delete_Permutation l1 i x Hl1).
  by rewrite <- (insert_perm d j y x Hy).
Qed.

(** Every parent is at most its children. *)
Definition heap_ok (d : list entry) : Prop :=
  forall i, (0 < i < length d)%nat -> le (at_ d (parent i)) (at_ d i).

(** The same except at [pos], whose parent is still at most its children. *)
Definition heap_but (pos : nat) (d : list entry) : Prop :=
  (forall i, (0 < i < length d)%nat -> i <> pos -> parent i <> pos -> le (at_ d (parent i)) (at_ d i)) /\
  (forall c, (0 < c < length d)%nat -> parent c = pos -> (0 < pos)%nat -> le (at_ d (parent pos)) (at_ d c)).

Lemma sift_up_ok fuel pos d :
  (pos < fuel)%nat -> (pos < length d)%nat -> heap_but pos d ->
  (forall c, (0 < c < length d)%nat -> parent c = pos -> le (at_ d pos) (at_ d c)) ->
  heap_ok (sift_up fuel pos d) /\ sift_up fuel pos d ≡ₚ d.
Proof.
  revert pos d. induction fuel as [|fuel IH]; intros pos d Hf Hpos [Hbut Hgp] Hch; [lia|]. cbn [sift_up].
  destruct (decide (pos = 0%nat)) as [->|Hp0].
  { split; [|done]. intros i Hi. destruct (decide (parent i = 0%nat)) as [Hpi|]; [|apply Hbut; lia].
    rewrite Hpi. by apply Hch. }
  pose proof (parent_lt pos ltac:(lia)) as Hpp.
  destruct (ele (at_ d (parent pos)) (at_ d pos)) eqn:E.
  { apply ele_spec in E. split; [|done]. intros i Hi. destruct (decide (i = pos)) as [->|]; [done|].
    destruct (decide (parent i = pos)) as [Hpi|]; [rewrite Hpi; by apply Hch|by apply Hbut]. }
  apply ele_false in E as [E _].
  assert (Hat : forall k, at_ (swap pos (parent pos) d) k =
    if decide (k = pos) then at_ d (parent pos) else if decide (k = parent pos) then at_ d pos else at_ d k)
    by (intros k; apply at_swap; lia).
  destruct (IH (parent pos) (swap pos (parent pos) d)) as [Hok Hperm].
  - lia.
  - rewrite length_swap. lia.
  - split; intros i; rewrite length_swap, !Hat; intros Hi.
    + intros Hip Hpip. rewrite (decide_False (P := parent i = parent pos)) by done.
      rewrite (decide_False (P := i = parent pos)) by done.
      destruct (decide (i = pos)) as [->|Hin]; [done|].
      destruct (decide (parent i = pos)) as [Hpi|Hpi]; [apply Hgp; (done || lia)|by apply Hbut].
    + intros Hpi Hpp0. pose proof (parent_lt (parent pos) Hpp0).
      rewrite !(decide_False (P := parent (parent pos) = _)) by lia.
      assert (Hup : le (at_ d (parent (parent pos))) (at_ d (parent pos))) by (apply Hbut; lia).
      destruct (decide (i = pos)) as [->|Hin]; [done|].
      rewrite decide_False by (intros ->; pose proof (parent_lt (parent pos)); lia).
      eapply le_trans; [exact Hup|]. rewrite <- Hpi. apply Hbut; [lia|done|lia].
  - intros c. rewrite length_swap, !Hat. intros Hc Hpc. rewrite (decide_False (P := parent pos = pos)) by lia.
    rewrite (decide_True (P := parent pos = parent pos)) by done.
    destruct (decide (c = pos)) as [->|Hcp]; [done|].
    rewrite decide_False by (intros ->; pose proof (parent_lt (parent pos)); lia).
    eapply le_trans; [exact E|]. rewrite <- Hpc. apply Hbut; [lia|done|lia].
  - split; [done|]. rewrite Hperm. apply swap_perm; lia.
Qed.

Lemma down_child_spec d pos :
  (2 * pos + 1 < length d)%nat ->
  let c := down_child d pos in
  (pos < c < length d)%nat /\ parent c = pos /\
  forall k, (0 < k < length d)%nat -> parent k = pos -> le (at_ d c) (at_ d k).
Proof.
  intros Hl c. unfold c, down_child.
  assert (Hk : forall k, (0 < k)%nat -> parent k = pos -> (k = 2 * pos + 1 \/ k = S (2 * pos + 1))%nat)
    by (intros k Hk1 Hk2; apply parent_child in Hk2; lia).
  destruct (decide (S (2 * pos + 1) < length d)%nat).
  - destruct (ele _ _) eqn:E; [apply ele_spec in E|apply ele_false in E as [E _]];
      (split_and!; [lia|lia|apply parent_child; lia|]); intros k Hlt Hpk;
      (destruct (Hk k ltac:(lia) Hpk) as [-> | ->]; [|]); (done || apply le_refl).
  - split_and!; [lia|lia|apply parent_child; lia|]. intros k Hlt Hpk.
    destruct (Hk k ltac:(lia) Hpk) as [-> | ->]; [apply le_refl|lia].
Qed.

Lemma sift_to_bottom_ok fuel pos d :
  (length d <= pos + fuel)%nat -> (pos < length d)%nat -> heap_but pos d ->
  let '(d', pos') := sift_to_bottom fuel pos d in
  (pos' < length d')%nat /\ heap_but pos' d' /\ (length d' <= 2 * pos' + 1)%nat /\ d' ≡ₚ d.
Proof.
  revert pos d. induction fuel as [|fuel IH]; intros pos d Hf Hpos Hbut; [lia|]. cbn [sift_to_bottom].
  destruct (decide (2 * pos + 1 < length d)%nat) as [Hl|Hl]; [|split_and!; (done || lia)].
  destruct (down_child_spec d pos Hl) as (Hc & Hpc & Hmin). set (c := down_child d pos) in *.
  destruct Hbut as [Hbut Hgp].
  assert (Hat : forall k, at_ (swap pos c d) k =
    if decide (k = pos) then at_ d c else if decide (k = c) then at_ d pos else at_ d k)
    by (intros k; apply at_swap; lia).
  specialize (IH c (swap pos c d)). rewrite length_swap in IH.
  destruct (sift_to_bottom fuel c (swap pos c d)) as [d' pos'].
  destruct IH as (H1 & H2 & H3 & H4); [lia|lia| |split_and!; [done..|rewrite H4; apply swap_perm; lia]].
  split; intros i; rewrite length_swap, !Hat; intros Hi.
  - intros Hic Hpic. rewrite (decide_False (P := i = c)), (decide_False (P := parent i = c)) by done.
    destruct (decide (i = pos)) as [->|Hip].
    + rewrite decide_False by (pose proof (parent_lt pos); lia). apply Hgp; [lia|done|lia].
    + destruct (decide (parent i = pos)) as [Hpi|Hpi]; [by apply Hmin|by apply Hbut].
  - intros Hpi _. rewrite Hpc, decide_True by done.
    pose proof (parent_lt i ltac:(lia)). rewrite !decide_False by lia.
    rewrite <- Hpi. apply Hbut; lia.
Qed.

Lemma heap_root_min d i : heap_ok d -> (i < length d)%nat -> le (at_ d 0) (at_ d i).
Proof.
  intros Hok. induction i as [i IH] using lt_wf_ind. intros Hi.
  destruct (decide (i = 0%nat)) as [->|Hne]; [apply le_refl|].
  pose proof (parent_lt i ltac:(lia)). eapply le_trans; [apply (IH (parent i)); lia|]. apply Hok. lia.
Qed.

Lemma heap_min d x y : heap_ok d -> heap_peek d = Some x -> y ∈ d -> le x y.
Proof.
  intros Hok Hx (i & Hi)%list_elem_of_lookup. pose proof (lookup_lt_Some _ _ _ Hi) as Hlt.
  pose proof (heap_root_min d i Hok Hlt) as Hle. unfold at_ in Hle. rewrite Hi in Hle.
  destruct d as [|z d]; [done|]. by injection Hx as ->.
Qed.

Lemma at_app_l d d' i : (i < length d)%nat -> at_ (d ++ d') i = at_ d i.
Proof. intros. unfold at_. by rewrite lookup_app_l. Qed.

Lemma heap_push_ok x d : heap_ok d -> heap_ok (heap_push x d) /\ heap_push x d ≡ₚ x :: d.
Proof.
  intros Hok. unfold heap_push.
  assert (Hlen : length (d ++ [x]) = S (length d)) by (rewrite length_app; cbn; lia).
  assert (Hnc : forall c, (0 < c < length (d ++ [x]))%nat -> parent c = length d -> False)
    by (intros c Hc Hp; pose proof (parent_lt c); lia).
  destruct (sift_up_ok (S (length d)) (length d) (d ++ [x])) as [H1 H2].
  - lia.
  - lia.
  - split; intros i Hi; [|intros Hp; exfalso; by eapply Hnc]. intros Hne _.
    pose proof (parent_lt i). rewrite !at_app_l by lia. apply Hok. lia.
  - intros c Hc Hp. exfalso. by eapply Hnc.
  - split; [done|]. rewrite H2. by rewrite Permutation_app_comm.
Qed.

Lemma heap_pop_ok x d :
  heap_ok (x :: d) -> heap_ok (heap_pop (x :: d)) /\ x :: d ≡ₚ x :: heap_pop (x :: d).
Proof.
  intros Hok. unfold heap_pop. destruct d as [|y d0 _] using rev_ind.
  { cbn. split; [|done]. intros i Hi. cbn in Hi. lia. }
  change (x :: d0 ++ [y]) with ((x :: d0) ++ [y]) in *. rewrite last_snoc, removelast_last.
  set (d1 := y :: d0). change (<[0%nat := y]> (x :: d0)) with d1.
  assert (Hbut : heap_but 0 d1).
  { split; intros i Hi; [|lia]. intros Hi0 Hpi. cbn in Hi.
    assert (Hsame : forall k, (0 < k < S (length d0))%nat -> at_ d1 k = at_ ((x :: d0) ++ [y]) k).
    { intros [|k] Hk; [lia|]. rewrite at_app_l by (cbn; lia). done. }
    pose proof (parent_lt i). rewrite !Hsame by lia. apply Hok. rewrite length_app. cbn. lia. }
  pose proof (sift_to_bottom_ok (length d1) 0 d1 ltac:(lia) ltac:(cbn; lia) Hbut) as Hsb.
  destruct (sift_to_bottom (length d1) 0 d1) as [d2 pos]. destruct Hsb as (Hp & Hb & Hleaf & Hperm).
  destruct (sift_up_ok (S pos) pos d2 ltac:(lia) Hp Hb) as [H1 H2].
  { intros c Hc Hpc. apply parent_child in Hpc; lia. }
  split; [done|]. rewrite H2, Hperm. cbn. f_equiv. by rewrite Permutation_app_comm.
Qed.

(** ** Compaction *)

Lemma heap_peek_cons d x : heap_peek d = Some x -> exists d', d = x :: d'.
Proof. destruct d as [|y d]; cbn; [done|]. intros [= ->]. by exists d. Qed.

Lemma drain_spec fuel (dead : gset Z) d :
  heap_ok d -> (length d <= fuel)%nat ->
  drain fuel dead d ≡ₚ filter (fun x => snd x ∉ dead) d /\ StronglySorted le (drain fuel dead d).
Proof.
  revert d. induction fuel as [|fuel IH]; intros d Hok Hf.
  { destruct d; [|cbn in Hf; lia]. split; [done|constructor]. }
  cbn [drain]. destruct (heap_peek d) as [x|] eqn:E.
  2: { destruct d; [|done]. split; [done|constructor]. }
  pose proof (fun y => heap_min d x y Hok E) as Hmin. apply heap_peek_cons in E as [d' ->].
  destruct (heap_pop_ok x d' Hok) as [Hok' Hperm].
  assert (Hlen : (length (heap_pop (x :: d')) <= fuel)%nat).
  { apply Permutation_length in Hperm. cbn in *. lia. }
  destruct (IH _ Hok' Hlen) as [Hp Hs].
  assert (Hfil : filter (fun x => snd x ∉ dead) (x :: d') ≡ₚ
    filter (fun x => snd x ∉ dead) (x :: heap_pop (x :: d'))) by by rewrite <- Hperm.
  destruct (bool_decide_reflect (snd x ∈ dead)) as [Hd|Hd].
  - rewrite Hfil, filter_cons_False by tauto. done.
  - rewrite Hfil, filter_cons_True by done. split; [by rewrite Hp|]. constructor; [done|].
    rewrite Hp. apply Forall_forall. intros y [_ Hy]%list_elem_of_filter. apply Hmin.
    rewrite Hperm. by right.
Qed.

Lemma sorted_at d i j : StronglySorted le d -> (i <= j)%nat -> (j < length d)%nat -> le (at_ d i) (at_ d j).
Proof.
  intros Hs. revert i j. induction Hs as [|x d Hs IH Hx]; intros i j Hij Hj; [cbn in Hj; lia|].
  destruct i as [|i], j as [|j]; [apply le_refl| |lia|].
  - cbn in Hj. pose proof (lookup_lt_is_Some_2 d j ltac:(lia)) as [y Hy].
    change (le x (at_ d j)). unfold at_. rewrite Hy. cbn. by eapply Forall_lookup_1.
  - cbn in Hj. change (le (at_ d i) (at_ d j)). apply IH; lia.
Qed.

Lemma sorted_heap d : StronglySorted le d -> heap_ok d.
Proof. intros Hs i Hi. pose proof (parent_lt i). apply sorted_at; [done|lia|lia]. Qed.

Lemma sift_down_sorted fuel pos d : StronglySorted le d -> sift_down fuel pos d = d.
Proof.
  intros Hs. destruct fuel as [|fuel]; [done|]. cbn [sift_down].
  destruct (decide (2 * pos + 1 < length d)%nat) as [Hl|]; [|done].
  destruct (down_child_spec d pos Hl) as (Hc & _ & _).
  rewrite (proj2 (ele_spec _ _)); [done|]. apply sorted_at; [done|lia|lia].
Qed.

Lemma heap_from_sorted d : StronglySorted le d -> heap_from d = d.
Proof.
  intros Hs. unfold heap_from. generalize (rev (seq 0 (length d / 2))). intros l.
  induction l as [|p l IH]; [done|]. cbn [foldl]. by rewrite sift_down_sorted.
Qed.

(** ** The timers *)

Section timers_proofs.
Context {A : Type}.
Implicit Types t : BinaryHeapTimers (A := A).

(** The heap's ids are the live ones and the cancelled ones, each once. *)
Record timers_ok t : Prop := {
  to_heap : heap_ok (heap t);
  to_nodup : NoDup (snd <$> heap t);
  to_ids : forall id, id ∈ snd <$> heap t <-> is_Some (callbacks t !! id) \/ id ∈ cancelled t;
  to_disj : forall id, is_Some (callbacks t !! id) -> id ∉ cancelled t;
  to_fresh : forall id, id ∈ snd <$> heap t -> id < next_id t;
  to_next : in_u64 (next_id t);
}.

(** The abstract state: the timers that are scheduled, not fired and not cancelled. *)
Definition live t (x : entry) (cb : A) : Prop := x ∈ heap t /\ callbacks t !! snd x = Some cb.

Lemma timers_new_ok : timers_ok timers_new.
Proof.
  constructor; try done.
  - intros i Hi. cbn in Hi. lia.
  - constructor.
  - intros id. cbn. rewrite lookup_empty. split; [by intros ?%elem_of_nil|].
    intros [[? ?]|?]; [done|set_solver].
  - by intros id ?%elem_of_nil.
Qed.

(** Replacing the heap by a permutation of itself changes nothing. *)
Lemma timers_ok_perm t h :
  timers_ok t -> heap_ok h -> h ≡ₚ heap t ->
  timers_ok (mkTimers h (callbacks t) (cancelled t) (next_id t) (compaction_ratio t)).
Proof.
  intros [] Hh Hp. constructor; cbn; try done.
  - by rewrite Hp.
  - intros id. rewrite Hp. apply to_ids0.
  - intros id. rewrite Hp. apply to_fresh0.
Qed.

Lemma compact_ok t :
  timers_ok t -> timers_ok (compact t) /\ forall x cb, live (compact t) x cb <-> live t x cb.
Proof.
  intros []. destruct (drain_spec (length (heap t)) (cancelled t) (heap t) to_heap0 ltac:(lia)) as [Hp Hs].
  unfold compact, live. rewrite heap_from_sorted by done. set (k := drain _ _ _) in *. cbn [heap callbacks].
  assert (Hk : forall x, x ∈ k <-> x ∈ heap t /\ snd x ∉ cancelled t)
    by (intros x; rewrite Hp, list_elem_of_filter; tauto).
  assert (Hkid : forall id, id ∈ snd <$> k <-> id ∈ snd <$> heap t /\ id ∉ cancelled t).
  { intros id. rewrite !list_elem_of_fmap. setoid_rewrite Hk. split.
    - intros (x & -> & Hx & Hn). split; [by exists x|done].
    - intros [(x & -> & Hx) Hn]. by exists x. }
  split; [constructor; cbn; try done|].
  - by apply sorted_heap.
  - rewrite Hp. clear -to_nodup0. induction (heap t) as [|x h IH]; [constructor|].
    cbn [fmap list_fmap] in to_nodup0. apply NoDup_cons in to_nodup0 as [Hx Hnd].
    rewrite filter_cons. case_decide; [|by apply IH]. cbn [fmap list_fmap]. apply NoDup_cons.
    split; [|by apply IH]. intros (y & Hy & [_ Hin]%list_elem_of_filter)%list_elem_of_fmap.
    apply Hx. apply list_elem_of_fmap. by exists y.
  - intros id. rewrite Hkid, to_ids0. split; [intros [[?|?] ?]; [by left|done]|].
    intros [?|?%not_elem_of_empty]; [|done]. split; [by left|by apply to_disj0].
  - intros id [Hin _]%Hkid. by apply to_fresh0.
  - intros x cb. rewrite Hk. split; [tauto|]. intros [Hx Hcb]. split_and!; [done| |done].
    apply to_disj0. by eexists.
Qed.

Lemma maybe_compact_ok t :
  timers_ok t -> timers_ok (maybe_compact t) /\ forall x cb, live (maybe_compact t) x cb <-> live t x cb.
Proof.
  intros Hok. unfold maybe_compact. destruct (heap t) eqn:E; [done|].
  destruct (_ <? _); [by apply compact_ok|done].
Qed.

Lemma schedule_spec deadline cb t :
  timers_ok t -> next_id t + 1 < 2 ^ 64 ->
  let '(id, t') := schedule deadline cb t in
  timers_ok t' /\
  forall x c, live t' x c <-> (x = (deadline, id) /\ c = cb) \/ live t x c.
Proof.
  intros Hok Hn. pose proof Hok as []. unfold schedule.
  destruct (heap_push_ok (deadline, next_id t) (heap t) to_heap0) as [Hh Hp].
  assert (Hnew : next_id t ∉ snd <$> heap t) by (intros Hin; specialize (to_fresh0 _ Hin); lia).
  assert (Hncb : callbacks t !! next_id t = None)
    by (apply eq_None_not_Some; intros Hs; apply Hnew, to_ids0; by left).
  unfold wrapping_add. rewrite wrap_small by (unfold in_uint in *; lia).
  split; [constructor; cbn; try done|].
  - rewrite Hp. cbn. by constructor.
  - intros id. rewrite Hp. cbn. rewrite elem_of_cons, to_ids0, lookup_insert_is_Some.
    destruct (decide (id = next_id t)) as [->|Hne]; [split; auto|].
    split; [intros [?|[?|?]]; auto|intros [[?|[_ ?]]|?]; auto].
  - intros id. rewrite lookup_insert_is_Some. intros [<-|[_ Hs]]; [|by apply to_disj0].
    intros Hc. apply Hnew, to_ids0. by right.
  - intros id. rewrite Hp. cbn. intros [->|Hin]%elem_of_cons; [lia|]. specialize (to_fresh0 _ Hin). lia.
  - unfold in_uint in *. lia.
  - intros x c. unfold live; cbn [heap callbacks]. rewrite Hp, elem_of_cons.
    destruct (decide (snd x = next_id t)) as [Hx|Hx].
    + rewrite Hx, lookup_insert_eq. split.
      * intros [[->|Hin] [= <-]]; [by left|]. exfalso. apply Hnew. rewrite <- Hx. by apply list_elem_of_fmap_2.
      * intros [[-> ->]|[_ Hc]]; [by auto|]. congruence.
    + rewrite lookup_insert_ne by done. split.
      * intros [[->|Hin] Hc]; [done|]. by right.
      * intros [[-> _]|[Hin Hc]]; [done|]. by auto.
Qed.

Lemma live_id_unique t x y cb cb' : timers_ok t -> live t x cb -> live t y cb' -> snd x = snd y -> x = y.
Proof.
  intros [] [Hx _] [Hy _] Hxy. apply list_elem_of_lookup in Hx as [i Hi], Hy as [j Hj].
  assert (i = j) as ->; [|congruence]. eapply (NoDup_lookup (snd <$> heap t)); [done|..];
    rewrite list_lookup_fmap; [by rewrite Hi|rewrite Hj; cbn; by rewrite Hxy].
Qed.

(** A scheduled callback has its entry in the heap. *)
Lemma callback_live t id cb : timers_ok t -> callbacks t !! id = Some cb -> exists x, live t x cb /\ snd x = id.
Proof.
  intros [] Hcb. assert (Hin : id ∈ snd <$> heap t) by (apply to_ids0; left; by eexists).
  apply list_elem_of_fmap in Hin as (x & -> & Hx). by exists x.
Qed.

Lemma cancel_lemma id t :
  timers_ok t ->
  let '(r, t') := cancel id t in
  timers_ok t' /\ (r = true <-> exists x cb, live t x cb /\ snd x = id) /\
  forall x cb, live t' x cb <-> live t x cb /\ snd x <> id.
Proof.
  intros Hok. pose proof Hok as []. unfold cancel. destruct (callbacks t !! id) as [cb0|] eqn:E.
  - set (t1 := mkTimers _ _ _ _ _).
    assert (Hok1 : timers_ok t1).
    { constructor; cbn; try done.
      - intros i. rewrite to_ids0, elem_of_union, elem_of_singleton, lookup_delete_is_Some.
        destruct (decide (i = id)) as [->|]; [split; [by auto|left; by eexists]|].
        split; [intros [?|?]; auto|intros [[_ ?]|[?|?]]; [auto|done|auto]].
      - intros i [Hne Hs]%lookup_delete_is_Some. rewrite elem_of_union, elem_of_singleton.
        intros [?|?]; [by apply Hne|by eapply to_disj0]. }
    destruct (maybe_compact_ok t1 Hok1) as [Hok2 Hlive]. split_and!; [done| |].
    + split; [|done]. intros _. destruct (callback_live t id cb0 Hok E) as (x & Hx & Hid). by exists x, cb0.
    + intros x cb. rewrite Hlive. unfold live; cbn. rewrite lookup_delete_Some.
      split; [intros (? & ? & ?)|intros ((? & ?) & ?)]; split_and!; auto.
  - split_and!; [done| |].
    + split; [done|]. intros (x & cb & [_ Hcb] & <-). congruence.
    + intros x cb. split; [|tauto]. intros [Hx Hcb]. split; [done|]. congruence.
Qed.

(** Cancellation, lazy deletion and compaction together: [cancel] returns [true]
    exactly when the timer is still live, afterwards that timer is not live any more, and
    every other timer is exactly as it was, whether or not the heap was compacted. *)
Theorem cancel_spec id t :
  timers_ok t ->
  let '(r, t') := cancel id t in
  timers_ok t' /\ (r = true <-> exists x cb, live t x cb /\ snd x = id) /\
  forall x cb, live t' x cb <-> live t x cb /\ snd x <> id.
Proof. apply cancel_lemma. Qed.

(** Popping the root [x], with the callback or the cancellation of its id consumed. *)
Lemma pop_state_ok t x d cbs (cc : gset Z) :
  timers_ok t -> heap t = x :: d ->
  (forall id, is_Some (cbs !! id) <-> is_Some (callbacks t !! id) /\ id <> snd x) ->
  (forall id, id ∈ cc <-> id ∈ cancelled t /\ id <> snd x) ->
  timers_ok (mkTimers (heap_pop (heap t)) cbs cc (next_id t) (compaction_ratio t)).
Proof.
  intros [] Hh Hcb Hcc. rewrite Hh in *. destruct (heap_pop_ok x d to_heap0) as [Hok Hp].
  assert (Hp' : d ≡ₚ heap_pop (x :: d)) by by apply Permutation_cons_inv in Hp.
  cbn [fmap list_fmap] in *. apply NoDup_cons in to_nodup0 as [Hx Hnd].
  constructor; cbn; try done.
  - by rewrite <- Hp'.
  - intros id. rewrite <- Hp', Hcb, Hcc. specialize (to_ids0 id). rewrite elem_of_cons in to_ids0.
    split; [|tauto]. intros Hin. assert (id <> snd x) by (by intros ->). tauto.
  - intros id [Hs _]%Hcb. rewrite Hcc. intros [Hc _]. by apply (to_disj0 id).
  - intros id. rewrite <- Hp'. intros Hin. apply to_fresh0. by right.
Qed.

Lemma pop_heap_elem t x d y :
  timers_ok t -> heap t = x :: d -> y ∈ heap_pop (heap t) <-> y ∈ heap t /\ snd y <> snd x.
Proof.
  intros [] Hh. rewrite Hh in *. destruct (heap_pop_ok x d to_heap0) as [_ Hp].
  assert (Hp' : d ≡ₚ heap_pop (x :: d)) by by apply Permutation_cons_inv in Hp.
  cbn [fmap list_fmap] in to_nodup0. apply NoDup_cons in to_nodup0 as [Hx _].
  rewrite <- Hp', elem_of_cons. split.
  - intros Hy. split; [by right|]. intros Heq. apply Hx. rewrite <- Heq. by apply list_elem_of_fmap_2.
  - by intros [[->|?] ?].
Qed.

Lemma pop_cancelled t dl id d :
  timers_ok t -> heap t = (dl, id) :: d -> id ∈ cancelled t ->
  let t1 := mkTimers (heap_pop (heap t)) (callbacks t) (cancelled t ∖ {[ id ]}) (next_id t) (compaction_ratio t) in
  timers_ok t1 /\ forall x cb, live t1 x cb <-> live t x cb.
Proof.
  intros Hok Hh Hc t1.
  assert (Hnid : callbacks t !! id = None)
    by (apply eq_None_not_Some; intros Hs; by apply (to_disj t Hok id)).
  split.
  - apply (pop_state_ok t (dl, id) d); [done|done| |]; cbn; intros i; [|set_solver].
    split; [|tauto]. intros Hs. split; [done|]. intros ->. destruct Hs. congruence.
  - intros x cb. unfold live, t1; cbn. rewrite (pop_heap_elem t (dl, id) d) by done.
    split; [tauto|]. intros [Hx Hcb]. split_and!; [done| |done]. cbn. intros Hid. congruence.
Qed.

Lemma pop_fired t dl id d :
  timers_ok t -> heap t = (dl, id) :: d -> id ∉ cancelled t ->
  let t1 := mkTimers (heap_pop (heap t)) (delete id (callbacks t)) (cancelled t) (next_id t) (compaction_ratio t) in
  timers_ok t1 /\ (forall x cb, live t1 x cb <-> live t x cb /\ snd x <> id) /\
  exists cb, live t (dl, id) cb.
Proof.
  intros Hok Hh Hc t1. split_and!.
  - apply (pop_state_ok t (dl, id) d); [done|done| |]; cbn; intros i.
    + rewrite lookup_delete_is_Some. split; intros []; auto.
    + split; [|tauto]. intros Hi. split; [done|]. by intros ->.
  - intros x cb. unfold live, t1; cbn. rewrite (pop_heap_elem t (dl, id) d), lookup_delete_Some by done. cbn.
    split; [intros ([] & ? & ?)|intros ([] & ?)]; split_and!; auto.
  - assert (Hin : id ∈ snd <$> heap t) by (rewrite Hh; by left).
    apply (to_ids t Hok) in Hin as [[cb Hcb]|?]; [|done]. exists cb. split; [rewrite Hh; by left|done].
Qed.

(** What [tick] promises: exactly the live timers that are due fire, in the order of
    their deadlines, and exactly the others stay. *)
Definition tick_post (now : Z) t (fs : list (entry * A)) (t' : BinaryHeapTimers (A := A)) : Prop :=
  timers_ok t' /\
  (forall x cb, (x, cb) ∈ fs <-> live t x cb /\ fst x <= now) /\
  (StronglySorted le (fst <$> fs) /\ NoDup (fst <$> fs)) /\
  (forall x cb, live t' x cb <-> live t x cb /\ now < fst x).

Lemma tick_none_due now t :
  timers_ok t -> (forall x cb, live t x cb -> now < fst x) -> tick_post now t [] t.
Proof.
  intros Hok Hlate. split_and!; [done| |constructor|constructor|]; intros x cb.
  - split; [by intros ?%elem_of_nil|]. intros [Hl ?]. specialize (Hlate _ _ Hl). lia.
  - split; [|tauto]. intros Hl. split; [done|by eapply Hlate].
Qed.

Lemma tick_loop_spec fuel now t :
  timers_ok t -> (length (heap t) < fuel)%nat ->
  tick_post now t (fst (tick_loop fuel now t)) (snd (tick_loop fuel now t)).
Proof.
  revert t. induction fuel as [|fuel IH]; intros t Hok Hf; [lia|]. cbn [tick_loop].
  destruct (heap_peek (heap t)) as [[dl id]|] eqn:Ep.
  2: { cbn [fst snd]. apply tick_none_due; [done|]. intros x cb [Hx _]. destruct (heap t); [by apply elem_of_nil in Hx|done]. }
  pose proof (fun y => heap_min (heap t) _ y (to_heap t Hok) Ep) as Hmin.
  apply heap_peek_cons in Ep as [d Hh].
  destruct (Z.ltb_spec now dl) as [Hlt|Hle].
  { cbn [fst snd]. apply tick_none_due; [done|]. intros x cb [Hx _]. specialize (Hmin x Hx). unfold le in Hmin. cbn in Hmin. lia. }
  assert (Hlen : (length (heap_pop (heap t)) < fuel)%nat).
  { pose proof (to_heap t Hok) as Hho. rewrite Hh in *.
    destruct (heap_pop_ok (dl, id) d Hho) as [_ Hp%Permutation_length]. cbn in *. lia. }
  destruct (bool_decide_reflect (id ∈ cancelled t)) as [Hc|Hc].
  - destruct (pop_cancelled t dl id d Hok Hh Hc) as [Hok1 Hlive].
    destruct (IH _ Hok1 Hlen) as (H1 & H2 & H3 & H4).
    split; [done|]. split; [|split; [done|]]; intros x cb; [rewrite H2|rewrite H4]; by rewrite Hlive.
  - destruct (pop_fired t dl id d Hok Hh Hc) as (Hok1 & Hlive & cb0 & Hx0).
    pose proof Hx0 as [_ Hcb0]. cbn in Hcb0. rewrite Hcb0.
    destruct (IH _ Hok1 Hlen) as (H1 & H2 & [H3 H5] & H4).
    destruct (tick_loop fuel now _) as [fs t'] eqn:Et. cbn [fst snd] in *.
    split_and!; [done| | | |].
    + intros x cb. rewrite elem_of_cons, H2, Hlive. split.
      * intros [[= -> ->]|[[Hl _] ?]]; [by split|by split].
      * intros [Hl Hle']. destruct (decide (snd x = id)) as [Hid|Hid]; [|by auto].
        left. assert (x = (dl, id)) as -> by exact (live_id_unique t x (dl, id) cb cb0 Hok Hl Hx0 Hid). f_equal.
        destruct Hl as [_ Hl]. cbn in Hl. congruence.
    + cbn [fmap list_fmap fst]. constructor; [done|]. apply Forall_forall.
      intros y ([y' cb] & -> & Hz)%list_elem_of_fmap. apply H2 in Hz as [[Hl _]%Hlive _]. apply Hmin, Hl.
    + cbn [fmap list_fmap fst]. constructor; [|done]. intros ([y' cb] & Heq & Hz)%list_elem_of_fmap.
      apply H2 in Hz as [[_ Hne]%Hlive _]. cbn in Heq. subst y'. by apply Hne.
    + intros x cb. rewrite H4, Hlive. split; [tauto|]. intros [Hl Hx]. split_and!; [done| |done].
      intros Hid. assert (x = (dl, id)) as -> by exact (live_id_unique t x (dl, id) cb cb0 Hok Hl Hx0 Hid). cbn in Hx. lia.
Qed.

(** [tick(now)] fires exactly the live timers whose deadline is at most [now], each
    once and in the order of their deadlines, and leaves exactly the later ones live; its
    loop terminates, whatever was cancelled before. *)
Theorem tick_fires_due now t :
  timers_ok t -> tick_post now t (fst (tick now t)) (snd (tick now t)).
Proof. intros Hok. apply tick_loop_spec; [done|lia]. Qed.

(** [next_deadline] is right when the root of the heap is live. *)
Lemma next_deadline_root t x d :
  timers_ok t -> heap t = x :: d -> snd x ∉ cancelled t ->
  next_deadline t = Some (fst x) /\ forall y cb, live t y cb -> fst x <= fst y.
Proof.
  intros Hok Hh Hx. unfold next_deadline. rewrite Hh. cbn. rewrite bool_decide_false by done. cbn.
  split; [done|]. intros y cb [Hy _].
  assert (Hle : le x y) by (apply (heap_min (heap t)); [apply Hok|by rewrite Hh|done]).
  unfold le in Hle. lia.
Qed.
End timers_proofs.

(** ** Concrete runs *)

(** Deadlines 1, 5, 2 and 9, scheduled in this order; the callbacks are their own deadlines. *)
Definition four_timers : BinaryHeapTimers (A := Z) :=
  foldl (fun t d => snd (schedule d d t)) timers_new [1; 5; 2; 9].

Lemma four_timers_ok : timers_ok four_timers.
Proof.
  unfold four_timers. cbn [foldl].
  do 4 (refine (proj1 (schedule_spec _ _ _ _ _)); [|by vm_compute]). apply timers_new_ok.
Qed.

Lemma tick_fires_due_witness :
  tick_post 4 four_timers [(1, 1, 1); (2, 3, 2)] (snd (tick 4 four_timers)).
Proof.
  change [(1, 1, 1); (2, 3, 2)] with (fst (tick 4 four_timers)).
  exact (tick_fires_due 4 four_timers four_timers_ok).
Defined.

Lemma cancel_spec_witness : timers_ok (snd (cancel 1 four_timers)) /\ fst (cancel 1 four_timers) = true.
Proof.
  pose proof (cancel_spec 1 four_timers four_timers_ok) as Hc.
  destruct (cancel 1 four_timers) as [r t'] eqn:E. destruct Hc as (Hok & _ & _).
  split; [exact Hok|]. cbn. vm_compute in E. by injection E as <- _.
Defined.

(** [next_deadline] scans the heap's array, not its order: after the earliest of the
    timers 1, 5, 2, 9 is cancelled, the next deadline is 2, and the timer subsystem
    reports 5, so a poll that sleeps until the reported deadline fires the timer late. *)
Theorem next_deadline_not_earliest :
  let t := snd (cancel 1 four_timers) in
  next_deadline t = Some 5 /\ live t (2, 3) 2 /\ timers_ok t.
Proof.
  cbv zeta. split; [by vm_compute|]. split.
  - split; [|by vm_compute]. vm_compute. right. right. left.
  - pose proof (cancel_lemma 1 four_timers four_timers_ok) as Hc.
    destruct (cancel 1 four_timers) as [r t']. apply Hc.
Qed.
