(* ===== verification/TimerSpec.v ===== *)
(** * TimerSpec: the [TimerSubsystem] trait and what its implementations promise

    The trait of [riftgate-core/src/timers.rs] as a class, with [BinaryHeapTimers] and
    [DeterministicTimers] as instances, and the contract they share: a map from handles to
    deadlines and callbacks, in which [tick] fires what is due in the order of deadlines.
    [timers_refine_map] shows that no sequence of calls tells the heap, with its lazy
    cancellation and compaction, from the map.  [next_deadline] is not part of the contract:
    see [Timers.next_deadline_not_earliest]. *)

From S2P Require Import Prelude Timers.

Section subsystem.
Context {A : Type}.

(** A callback is a value; [tick] returns the ones it ran, in order, with their entries. *)
Class TimerSubsystem (T : Type) := {
  ts_schedule : Z -> A -> T -> Z * T;
  ts_cancel : Z -> T -> bool * T;
  ts_tick : Z -> T -> list (entry * A) * T;
  ts_len : T -> nat;
}.

Definition ts_is_empty {T} `{TimerSubsystem T} (t : T) : bool := (ts_len t =? 0)%nat.

#[global] Instance heap_timers : TimerSubsystem (BinaryHeapTimers (A := A)) :=
  {| ts_schedule := schedule; ts_cancel := cancel; ts_tick := tick; ts_len := timers_len |}.

(** [DeterministicTimers] forwards, and remembers the last tick. *)
Definition det_new : DeterministicTimers (A := A) := mkDeterministic timers_new None.

Definition det_schedule (deadline : Z) (cb : A) (t : DeterministicTimers) : Z * DeterministicTimers :=
  let '(id, i) := schedule deadline cb (det_inner t) in (id, mkDeterministic i (last_tick t)).

Definition det_cancel (id : Z) (t : DeterministicTimers (A := A)) : bool * DeterministicTimers :=
  let '(r, i) := cancel id (det_inner t) in (r, mkDeterministic i (last_tick t)).

#[global] Instance deterministic_timers : TimerSubsystem (DeterministicTimers (A := A)) :=
  {| ts_schedule := det_schedule; ts_cancel := det_cancel; ts_tick := det_tick;
     ts_len t := timers_len (det_inner t) |}.

(** ** The contract: a map *)

Record TimerMap := mkTimerMap { tm_live : gmap Z (Z * A); tm_next : Z }.

Definition tm_new : TimerMap := mkTimerMap ∅ 1.

Definition tm_schedule (deadline : Z) (cb : A) (m : TimerMap) : Z * TimerMap :=
  (tm_next m, mkTimerMap (<[tm_next m := (deadline, cb)]> (tm_live m)) (tm_next m + 1)).

Definition tm_cancel (id : Z) (m : TimerMap) : bool * TimerMap :=
  (bool_decide (is_Some (tm_live m !! id)), mkTimerMap (delete id (tm_live m)) (tm_next m)).

(** The due timers by deadline, those of one deadline by handle. *)
Fixpoint insert_due (x : entry * A) (l : list (entry * A)) : list (entry * A) :=
  match l with
  | [] => [x]
  | y :: l' => if ele (fst x) (fst y) then x :: l else y :: insert_due x l'
  end.

Definition due (now : Z) (m : gmap Z (Z * A)) : list (entry * A) :=
  foldr insert_due [] ((fun '(id, (dl, cb)) => ((dl, id), cb)) <$>
                         filter (fun kv => fst (snd kv) <= now) (map_to_list m)).

Definition tm_tick (now : Z) (m : TimerMap) : list (entry * A) * TimerMap :=
  (due now (tm_live m), mkTimerMap (filter (fun kv => now < fst (snd kv)) (tm_live m)) (tm_next m)).

Definition timer_map : TimerSubsystem TimerMap :=
  {| ts_schedule := tm_schedule; ts_cancel := tm_cancel; ts_tick := tm_tick;
     ts_len m := size (tm_live m) |}.

(** ** Calls and what the caller sees *)

Inductive timer_call := CallSchedule (deadline : Z) (cb : A) | CallCancel (id : Z) | CallTick (now : Z) | CallLen.
Inductive timer_reply := Handle (id : Z) | Cancelled (r : bool) | Fired (fs : list (entry * A)) | Len (n : nat).

Definition timer_step {T} `{TimerSubsystem T} (c : timer_call) (t : T) : timer_reply * T :=
  match c with
  | CallSchedule dl cb => let '(id, t) := ts_schedule dl cb t in (Handle id, t)
  | CallCancel id => let '(r, t) := ts_cancel id t in (Cancelled r, t)
  | CallTick now => let '(fs, t) := ts_tick now t in (Fired fs, t)
  | CallLen => (Len (ts_len t), t)
  end.

Fixpoint timer_run {T} `{TimerSubsystem T} (cs : list timer_call) (t : T) : list timer_reply :=
  match cs with
  | [] => []
  | c :: cs => let '(r, t) := timer_step c t in r :: timer_run cs t
  end.

(** ** The simulation *)

Definition represents_map (t : BinaryHeapTimers (A := A)) (m : TimerMap) : Prop :=
  timers_ok t /\ next_id t = tm_next m /\
  forall id dl cb, tm_live m !! id = Some (dl, cb) <-> live t (dl, id) cb.

Lemma new_represents_map : represents_map timers_new tm_new.
Proof.
  split; [apply timers_new_ok|]. split; [done|]. intros id dl cb. cbn. rewrite lookup_empty.
  split; [done|]. by intros [?%elem_of_nil _].
Qed.

Lemma insert_due_perm x l : insert_due x l ≡ₚ x :: l.
Proof. induction l as [|y l IH]; cbn; [done|]. destruct (ele _ _); [done|]. rewrite IH. constructor. Qed.

Lemma sort_due_perm l : foldr insert_due [] l ≡ₚ l.
Proof. induction l as [|x l IH]; cbn; [done|]. rewrite insert_due_perm. by constructor. Qed.

Lemma insert_due_sorted x l : StronglySorted le (fst <$> l) -> StronglySorted le (fst <$> insert_due x l).
Proof.
  induction l as [|y l IH]; cbn; intros Hs; [by repeat constructor|]. apply StronglySorted_inv in Hs as [Hs Hy].
  destruct (ele (fst x) (fst y)) eqn:E; cbn.
  - apply ele_spec in E. constructor; [by constructor|]. constructor; [done|].
    eapply Forall_impl; [done|]. intros z Hz. by eapply le_trans.
  - apply ele_false in E as [E _]. constructor; [by apply IH|].
    change (Forall (le (fst y)) (fst <$> insert_due x l)). rewrite insert_due_perm. by constructor.
Qed.

Lemma due_sorted now m : StronglySorted le (fst <$> due now m).
Proof.
  unfold due. match goal with |- context [foldr _ _ ?k] => induction k as [|x l IH] end; [constructor|].
  by apply insert_due_sorted.
Qed.

Lemma due_elem now m x cb : (x, cb) ∈ due now m <-> m !! snd x = Some (fst x, cb) /\ fst x <= now.
Proof.
  unfold due. rewrite sort_due_perm, list_elem_of_fmap. split.
  - intros ([id [dl cb']] & [= -> ->] & [Hle Hin]%list_elem_of_filter). cbn in *. by apply elem_of_map_to_list in Hin.
  - intros [Hm Hle]. destruct x as [dl id]. exists (id, (dl, cb)). split; [done|]. cbn in *.
    apply list_elem_of_filter. split; [done|]. by apply elem_of_map_to_list.
Qed.

Lemma due_nodup now m : NoDup (fst <$> due now m).
Proof.
  unfold due. rewrite sort_due_perm, <- list_fmap_compose.
  assert (Hnd : NoDup (fst <$> filter (fun kv : Z * (Z * A) => fst (snd kv) <= now) (map_to_list m))).
  { pose proof (NoDup_fst_map_to_list m) as Hn. induction (map_to_list m) as [|kv l IH]; [constructor|].
    cbn in Hn. apply NoDup_cons in Hn as [Hni Hn]. rewrite filter_cons. case_decide; [|by apply IH].
    cbn. constructor; [|by apply IH]. intros (y & Hy & [_ Hin]%list_elem_of_filter)%list_elem_of_fmap.
    apply Hni. rewrite Hy. by apply list_elem_of_fmap_2. }
  apply (NoDup_fmap_1 snd). rewrite <- list_fmap_compose.
  erewrite list_fmap_ext; [exact Hnd|]. by intros i [id [dl cb]] _.
Qed.

(** Sorted lists without repetition of entries are determined by their elements. *)
Lemma sorted_pairs_unique (l l' : list (entry * A)) :
  StronglySorted le (fst <$> l) -> StronglySorted le (fst <$> l') -> NoDup (fst <$> l) -> NoDup (fst <$> l') ->
  (forall x cb, (x, cb) ∈ l <-> (x, cb) ∈ l') -> l = l'.
Proof.
  intros Hs Hs' Hn Hn' Heq.
  assert (Hsort : forall k : list (entry * A), StronglySorted le (fst <$> k) -> StronglySorted (fun a b => le (fst a) (fst b)) k).
  { intros k. induction k as [|a k IH]; cbn; intros Hk; [constructor|]. apply StronglySorted_inv in Hk as [Hk Ha].
    constructor; [by apply IH|]. by rewrite Forall_fmap in Ha. }
  apply (StronglySorted_unique_strong (fun a b => le (fst a) (fst b))); [|by apply Hsort..|].
  - intros [x a] [y b] Hx Hy Hxy Hyx. assert (x = y) as -> by by apply le_antisym.
    apply Heq in Hx. apply list_elem_of_lookup in Hx as [i Hi], Hy as [j Hj].
    assert (i = j) as ->; [|congruence]. eapply (NoDup_lookup (fst <$> l')); [done|..]; rewrite list_lookup_fmap;
      [by rewrite Hi|by rewrite Hj].
  - apply NoDup_Permutation; [by eapply NoDup_fmap_1|by eapply NoDup_fmap_1|]. intros [x a]. apply Heq.
Qed.

Lemma represents_size t m : represents_map t m -> size (callbacks t) = size (tm_live m).
Proof.
  intros (Hok & _ & Hm). rewrite <- (size_dom (callbacks t)), <- (size_dom (tm_live m)). f_equal.
  apply set_eq. intros id. rewrite !elem_of_dom. split.
  - intros [cb Hcb]. destruct (callback_live t id cb Hok Hcb) as ([dl i] & Hl & <-). eexists. by apply Hm.
  - intros [[dl cb] Hcb]. apply Hm in Hcb as [_ Hcb]. by eexists.
Qed.

(** Only [schedule] takes a handle. *)
Lemma cancel_next_id id t : next_id (snd (cancel id t)) = next_id (A := A) t.
Proof. unfold cancel, maybe_compact, compact. by repeat case_match. Qed.

Lemma tick_next_id fuel now t : next_id (snd (tick_loop fuel now t)) = next_id (A := A) t.
Proof.
  revert t. induction fuel as [|fuel IH]; intros u; cbn [tick_loop]; [done|].
  destruct (heap_peek (heap u)) as [[dl i]|]; [|done]. destruct (now <? dl); [done|].
  destruct (bool_decide _); [by rewrite IH|]. destruct (callbacks u !! i); [|by rewrite IH].
  specialize (IH (mkTimers (heap_pop (heap u)) (delete i (callbacks u)) (cancelled u) (next_id u) (compaction_ratio u))).
  by destruct (tick_loop fuel now _).
Qed.

(** One call: the same reply, and still the same timers. *)
Lemma timer_step_simulates c t m :
  represents_map t m -> next_id t + 1 < 2 ^ 64 ->
  let '(r, t') := timer_step c t in
  let '(r', m') := timer_step (H := timer_map) c m in
  r = r' /\ represents_map t' m' /\ next_id t' <= next_id t + 1.
Proof.
  intros Hrep Hn. pose proof Hrep as (Hok & Hnext & Hm). destruct c as [dl cb|id|now|]; cbn [timer_step].
  - pose proof (schedule_spec dl cb t Hok Hn) as Hs. cbn [ts_schedule heap_timers timer_map].
    unfold schedule in *. destruct Hs as [Hok' Hl]. unfold tm_schedule. rewrite Hnext. split; [done|].
    assert (Hw : wrapping_add 64 (tm_next m) 1 = tm_next m + 1).
    { unfold wrapping_add. pose proof (to_next t Hok). rewrite wrap_small; unfold in_uint in *; lia. }
    rewrite Hnext in *. split; [|cbn; lia]. split; [done|]. split; [done|]. intros i d c. cbn [tm_live].
    rewrite Hl. destruct (decide (i = tm_next m)) as [->|Hne].
    + rewrite lookup_insert_eq. split; [intros [= <- <-]; by left|]. intros [[[= ->] ->]|Hlive]; [done|].
      exfalso. pose proof (to_fresh t Hok (tm_next m)) as Hf. destruct Hlive as [Hin _].
      apply (list_elem_of_fmap_2 snd) in Hin. specialize (Hf Hin). lia.
    + rewrite lookup_insert_ne by done. rewrite Hm. split; [by right|]. by intros [[[= _ ->] _]|?].
  - pose proof (cancel_lemma id t Hok) as Hc. cbn [ts_cancel heap_timers timer_map].
    pose proof (cancel_next_id id t) as Hid.
    destruct (cancel id t) as [r t']. cbn [snd] in Hid. destruct Hc as (Hok' & Hr & Hl). unfold tm_cancel. split.
    + f_equal. apply eq_bool_prop_intro. rewrite !Is_true_true, bool_decide_eq_true, Hr. split.
      * intros ([d i] & cb & Hlive & <-). eexists. by apply Hm.
      * intros [[d cb] Hs]. exists (d, id), cb. split; [by apply Hm|done].
    + split; [|lia]. split; [done|]. split; [by rewrite Hid|]. intros i d c. cbn [tm_live].
      rewrite Hl, lookup_delete_Some, Hm. cbn. split; intros [? ?]; split; auto.
  - pose proof (tick_loop_spec (S (length (heap t))) now t Hok ltac:(lia)) as Ht. fold (tick now t) in Ht.
    cbn [ts_tick heap_timers timer_map].
    pose proof (tick_next_id (S (length (heap t))) now t) as Hid. fold (tick now t) in Hid.
    destruct (tick now t) as [fs t']. cbn [fst snd] in *. destruct Ht as (Hok' & Hfs & [Hsort Hnd] & Hl).
    unfold tm_tick. split.
    + f_equal. apply sorted_pairs_unique; [done|apply due_sorted|done|apply due_nodup|].
      intros [d i] c. rewrite Hfs, due_elem. cbn. by rewrite Hm.
    + split; [|lia]. split; [done|]. split; [by rewrite Hid|]. intros i d c. cbn [tm_live].
      by rewrite Hl, map_lookup_filter_Some, Hm.
  - cbn [ts_len heap_timers timer_map]. unfold timers_len. rewrite (represents_size t m Hrep).
    split; [done|]. split; [done|lia].
Qed.

Lemma timer_run_simulates cs t m :
  represents_map t m -> next_id t + Z.of_nat (length cs) < 2 ^ 64 ->
  timer_run cs t = timer_run (H := timer_map) cs m.
Proof.
  revert t m. induction cs as [|c cs IH]; intros t m Hrep Hn; [done|]. cbn [timer_run length] in *.
  pose proof (timer_step_simulates c t m Hrep ltac:(lia)) as Hs.
  destruct (timer_step c t) as [r t'], (timer_step c m) as [r' m']. destruct Hs as (-> & Hrep' & Hle).
  f_equal. apply IH; [done|lia].
Qed.

(** The manual clock forwards every call. *)
Lemma det_run_inner cs (t : DeterministicTimers (A := A)) : timer_run cs t = timer_run cs (det_inner t).
Proof.
  revert t. induction cs as [|c cs IH]; intros t; [done|]. cbn [timer_run].
  destruct c as [dl cb|id|now|]; cbn [timer_step ts_schedule ts_cancel ts_tick ts_len deterministic_timers heap_timers].
  - unfold det_schedule. destruct (schedule dl cb (det_inner t)). f_equal. apply IH.
  - unfold det_cancel. destruct (cancel id (det_inner t)). f_equal. apply IH.
  - unfold det_tick. destruct (tick now (det_inner t)). f_equal. apply IH.
  - f_equal. apply IH.
Qed.

(** [C15] Both timer subsystems refine the map: no sequence of calls, however it schedules, cancels
    and ticks, gets a reply from the heap (with its lazy cancellation and compaction) or from
    the manual clock that differs from the reply of the map: the same handles, the same
    answers to [cancel], the same callbacks in the same order, the same lengths. *)
Theorem timers_refine_map cs :
  Z.of_nat (length cs) + 1 < 2 ^ 64 ->
  timer_run cs (timers_new (A := A)) = timer_run (H := timer_map) cs tm_new /\
  timer_run cs det_new = timer_run (H := timer_map) cs tm_new.
Proof.
  intros Hlen. rewrite det_run_inner. cbn [det_new det_inner].
  split; (apply timer_run_simulates; [apply new_represents_map|cbn; lia]).
Qed.
End subsystem.

(** Five timers, a cancellation that triggers the compaction, two ticks. *)
Definition demo_timer_calls : list (timer_call (A := Z)) :=
  [CallSchedule 5 50; CallSchedule 1 10; CallSchedule 5 51; CallSchedule 3 30; CallCancel 2; CallCancel 2; CallTick 4;
   CallLen; CallSchedule 2 20; CallTick 9; CallLen].

Lemma timers_refine_map_witness :
  timer_run demo_timer_calls timers_new =
    [Handle 1; Handle 2; Handle 3; Handle 4; Cancelled true; Cancelled false; Fired [((3, 4), 30)]; Len 2; Handle 5;
     Fired [((2, 5), 20); ((5, 1), 50); ((5, 3), 51)]; Len 0].
Proof. rewrite (proj1 (timers_refine_map demo_timer_calls eq_refl)). by vm_compute. Defined.
