(* ===== verification/Capability.v ===== *)
(** * Capability: the extension-plane surface of [riftgate-core]

    The MCP request and decision types with the [CapabilityBroker] trait
    ([capability.rs]), the [WAL] trait the brokers audit to ([wal.rs]), the tenant
    resolver with its name-to-id mapping ([tenant.rs]), and the formatting of request
    ids ([types.rs]).  A Rust [String] is a [string] of bytes; comparisons are on bytes,
    as [str] compares. *)

From Stdlib Require Import Ascii String.
From S2P Require Import Prelude Core FileWal.

#[local] Open Scope string_scope.
#[local] Open Scope Z_scope.

(** ** MCP requests and decisions *)

Inductive LifecycleMethod := Initialize | Ping | Shutdown.

(** [ToolId] and [ResourceId] are newtypes over [String]. *)
Inductive McpRequest :=
| ToolCall (tool : string) (argument_hash : list byte)
| ToolList
| ResourceRead (resource : string)
| ResourceList
| PromptGet (name : string)
| PromptList
| Lifecycle (method : LifecycleMethod).

Record TenantIdentity := mkIdentity { tenant : TenantId; principal : string }.

Inductive DenialReason :=
| NotInAllowlist | InDenylist | TimeBoundGrantExpired | MalformedMcpRequest | TenantUnknown.

#[global] Instance DenialReason_eq_dec : EqDecision DenialReason.
Proof. solve_decision. Defined.

Definition as_header_value (r : DenialReason) : string :=
  match r with
  | NotInAllowlist => "not_in_allowlist"
  | InDenylist => "in_denylist"
  | TimeBoundGrantExpired => "time_bound_grant_expired"
  | MalformedMcpRequest => "malformed_mcp_request"
  | TenantUnknown => "tenant_unknown"
  end.

Record AttestationHeaders := mkAttestation {
  caller : TenantId;
  subject : string;
  decision : string;
  signature : list byte;
}.

Inductive CapabilityDecision :=
| Allow (attestation : AttestationHeaders)
| Deny (reason : DenialReason).

Inductive AuditDecision := AuditAllow | AuditDeny.

(** [timestamp] is in nanoseconds since the Unix epoch, negative before it. *)
Record McpAuditEvent := mkAudit {
  correlation_id : RequestId;
  audit_tenant : TenantId;
  audit_subject : string;
  audit_argument_hash : list byte;
  audit_decision : AuditDecision;
  audit_timestamp : Z;
}.

(** ** Traits

    A broker and a log are shared behind [Arc]; a call reads the wall clock ([now]) and
    passes the state of what it uses. *)
Class WAL (W : Type) := {
  append : list byte -> Durability -> W -> result Z WalError * W;
  flush : Z -> W -> result unit WalError * W;
  wal_durable : W -> option Z;
}.

Class CapabilityBroker (B : Type) := {
  authorize : Z -> McpRequest -> TenantIdentity -> B -> CapabilityDecision * B;
}.

(** ** Text *)

Definition as_bytes (s : string) : list byte := list_byte_of_string s.

Definition hex_digit (d : Z) : ascii := ascii_of_nat (Z.to_nat (if d <? 10 then 48 + d else 87 + d)).

(** [{:x}] of an unsigned integer: at most [fuel] digits, no leading zero. *)
Fixpoint lower_hex_loop (fuel : nat) (z : Z) (acc : string) : string :=
  match fuel with
  | O => acc
  | S fuel =>
      let acc := String (hex_digit (z mod 16)) acc in
      if z / 16 =? 0 then acc else lower_hex_loop fuel (z / 16) acc
  end.

Definition lower_hex (z : Z) : string := lower_hex_loop 16 z "".

(** [Display for RequestId]. *)
Definition RequestId_display (id : RequestId) : string := "req-" +:+ lower_hex id.

(** ** Tenants *)

Definition digit_of (c : ascii) : option Z :=
  let n := Z.of_nat (nat_of_ascii c) in
  if (48 <=? n) && (n <=? 57) then Some (n - 48) else None.

(** The digits of [str::parse::<u32>], most significant first, with checked arithmetic. *)
Fixpoint parse_digits (s : string) (acc : Z) : option Z :=
  match s with
  | EmptyString => Some acc
  | String c s =>
      d ← digit_of c;
      let v := acc * 10 + d in
      if v <? 2 ^ 32 then parse_digits s v else None
  end.

(** [str::parse::<u32>]: an optional [+], then at least one digit, no overflow. *)
Definition parse_u32 (s : string) : option Z :=
  match s with
  | EmptyString => None
  | String "+" EmptyString => None
  | String "+" s => parse_digits s 0
  | s => parse_digits s 0
  end.

Definition fnv_step (hash : Z) (b : ascii) : Z :=
  wrapping_mul 32 (Z.lxor hash (Z.of_nat (nat_of_ascii b))) 16777619.

(** [tenant_id_from_str]; [tenant_id_from_key] of the binary has the same body. *)
Definition tenant_id_from_str (s : string) : TenantId :=
  match parse_u32 s with
  | Some n => n
  | None =>
      let hash := foldl fnv_step 2166136261 (list_ascii_of_string s) in
      if hash =? 0 then 1 else hash
  end.

(** [TenantResolver]; [get] is the header map's lookup followed by [to_str().ok()]. *)
Class TenantResolver (R : Type) := {
  resolve : R -> (string -> option string) -> option TenantIdentity;
}.

Record HeaderTenantResolver := mkHeaderResolver {}.

Definition header_resolve (_ : HeaderTenantResolver) (get : string -> option string) :
    option TenantIdentity :=
  let raw := default "0" (get "x-riftgate-tenant") in
  Some (mkIdentity (tenant_id_from_str raw) raw).

#[global] Instance HeaderTenantResolver_resolver : TenantResolver HeaderTenantResolver :=
  {| resolve := header_resolve |}.

(** ** The name-to-id mapping *)

Lemma digit_of_range c d : digit_of c = Some d -> 0 <= d <= 9.
Proof. unfold digit_of. zcases; cbn; intros [= <-] || intros ?; try discriminate; lia. Qed.

Lemma parse_digits_range s acc n : 0 <= acc < 2 ^ 32 -> parse_digits s acc = Some n -> in_u32 n.
Proof.
  revert acc. induction s as [|c s IH]; intros acc Hacc; cbn [parse_digits].
  - by intros [= <-].
  - destruct (digit_of c) as [d|] eqn:Ed; cbn; [|done]. apply digit_of_range in Ed.
    zcases; [|done]. apply IH. lia.
Qed.

Lemma parse_u32_range s n : parse_u32 s = Some n -> in_u32 n.
Proof.
  assert (H0 : 0 <= 0 < 2 ^ 32) by lia.
  destruct s as [|c s]; [done|]. unfold parse_u32.
  destruct c as [[] [] [] [] [] [] [] []]; try apply (parse_digits_range _ _ _ H0).
  destruct s; [done|]. apply (parse_digits_range _ _ _ H0).
Qed.

Lemma fnv_range l h : in_u32 h -> in_u32 (foldl fnv_step h l).
Proof.
  revert h. induction l as [|b l IH]; intros h Hh; cbn [foldl]; [done|].
  apply IH, wrap_range. lia.
Qed.

(** Every name gets an id of the type's width, and a name that is not a number never
    gets the id 0 of the anonymous tenant. *)
Theorem tenant_id_range s :
  in_u32 (tenant_id_from_str s) /\ (parse_u32 s = None -> tenant_id_from_str s <> 0).
Proof.
  unfold tenant_id_from_str. destruct (parse_u32 s) as [n|] eqn:E.
  - split; [by apply parse_u32_range in E|done].
  - assert (in_u32 (foldl fnv_step 2166136261 (list_ascii_of_string s)))
      by (apply fnv_range; unfold in_uint; lia).
    zcases; split; intros; unfold in_uint in *; lia.
Qed.

(** Two spellings of one number name one tenant. *)
Lemma tenant_id_spellings :
  tenant_id_from_str "7" = 7 /\ tenant_id_from_str "007" = 7 /\ tenant_id_from_str "+7" = 7.
Proof. by vm_compute. Qed.
