(* ===== verification/Text.v ===== *)
(** * Text: the [str] operations the text-handling components share

    Rust's [str] methods on strings of bytes ([strip_prefix], [split_once], [split],
    [lines], [trim], [split_whitespace]), the parsers of unsigned integers and of [f64],
    and [String::from_utf8_lossy].  All executable; the lemmas say that splitting loses
    nothing and that lossy decoding yields UTF-8 and leaves UTF-8 alone. *)

From Stdlib Require Import Ascii String SpecFloat.
From S2P Require Import Prelude Floats Core Http1 Capability.

#[local] Open Scope string_scope.
#[local] Open Scope list_scope.
#[local] Open Scope Z_scope.

(** ** Splitting *)

Definition ascii_is (c d : ascii) : bool := Ascii.eqb c d.

(** [strip_prefix] and [strip_suffix]. *)
Fixpoint strip_prefix (p s : string) : option string :=
  match p, s with
  | EmptyString, s => Some s
  | String a p, String b s => if ascii_is a b then strip_prefix p s else None
  | String _ _, EmptyString => None
  end.

Definition str_rev (s : string) : string := string_of_list_ascii (rev (list_ascii_of_string s)).

Definition strip_suffix (p s : string) : option string :=
  str_rev <$> strip_prefix (str_rev p) (str_rev s).

(** [split_once] on a character and on a string, at the first occurrence. *)
Fixpoint split_once (c : ascii) (s : string) : option (string * string) :=
  match s with
  | EmptyString => None
  | String a s => if ascii_is a c then Some ("", s) else '(x, y) ← split_once c s; Some (String a x, y)
  end.

Fixpoint split_once_str (p s : string) : option (string * string) :=
  match strip_prefix p s with
  | Some rest => Some ("", rest)
  | None =>
      match s with
      | EmptyString => None
      | String a s => '(x, y) ← split_once_str p s; Some (String a x, y)
      end
  end.

(** [rsplit_once]: at the last occurrence. *)
Definition rsplit_once (c : ascii) (s : string) : option (string * string) :=
  '(y, x) ← split_once c (str_rev s); Some (str_rev x, str_rev y).

(** [split(c)]: always at least one piece. *)
Fixpoint split_at (c : ascii) (s : string) : list string :=
  match s with
  | EmptyString => [""]
  | String a s =>
      if ascii_is a c then "" :: split_at c s
      else match split_at c s with
           | x :: xs => String a x :: xs
           | [] => [String a ""]
           end
  end.

Fixpoint join (sep : string) (l : list string) : string :=
  match l with
  | [] => ""
  | [x] => x
  | x :: l => x +:+ sep +:+ join sep l
  end.

Definition lf : ascii := "010".
Definition cr : ascii := "013".

(** [lines]: split after each newline, without it and without a carriage return before it;
    no empty last line. *)
Definition lines (s : string) : list string :=
  let pieces := split_at lf s in
  let body := removelast pieces in
  let last_piece := List.last pieces "" in
  map (fun l => default l (strip_suffix (String cr "") l)) body ++
  (if String.eqb last_piece "" then [] else [last_piece]).

(** ** Trimming, on the bytes of UTF-8 text *)

Definition of_bytes (bs : list byte) : string := string_of_list_byte bs.

(** The length of the white-space character at the end, 0 if there is none. *)
Definition ws_end (bs : list byte) : nat :=
  default 0%nat
    (List.find (fun k => (k <=? length bs)%nat && (ws_len (drop (length bs - k) bs) =? k)%nat) [1; 2; 3]%nat).

Fixpoint trim_end_bytes (fuel : nat) (bs : list byte) : list byte :=
  match fuel with
  | O => bs
  | S fuel => match ws_end bs with O => bs | k => trim_end_bytes fuel (take (length bs - k) bs) end
  end.

Definition trim (s : string) : string :=
  let bs := as_bytes s in
  let bs := trim_start (length bs) bs in
  of_bytes (trim_end_bytes (length bs) bs).

(** [split_whitespace().next()]: the first word. *)
Fixpoint word_bytes (bs : list byte) : list byte :=
  match ws_len bs, bs with
  | O, b :: rest => b :: word_bytes rest
  | _, _ => []
  end.

Definition first_word (s : string) : option string :=
  let bs := as_bytes s in
  match word_bytes (trim_start (length bs) bs) with
  | [] => None
  | w => Some (of_bytes w)
  end.

(** ** Numbers *)

(** [str::parse] of an unsigned integer of [w] bits. *)
Fixpoint parse_uint_digits (w : Z) (s : string) (acc : Z) : option Z :=
  match s with
  | EmptyString => Some acc
  | String c s =>
      d ← digit_of c;
      let v := acc * 10 + d in
      if v <? 2 ^ w then parse_uint_digits w s v else None
  end.

Definition parse_uint (w : Z) (s : string) : option Z :=
  match s with
  | EmptyString => None
  | String "+" EmptyString => None
  | String "+" s => parse_uint_digits w s 0
  | s => parse_uint_digits w s 0
  end.

(** The decimal digits in front, with their number. *)
Fixpoint take_digits (s : string) (acc : Z) (k : Z) : Z * Z * string :=
  match s with
  | String c rest =>
      match digit_of c with
      | Some d => take_digits rest (acc * 10 + d) (k + 1)
      | None => (acc, k, s)
      end
  | EmptyString => (acc, k, s)
  end.

(** The nearest float to [m * 10^e], [m] not negative: one correctly rounded operation. *)
Definition float_of_decimal (prec emax m e : Z) : spec_float :=
  if m =? 0 then S754_zero false
  else if 0 <=? e then binary_normalize prec emax (m * 10 ^ e) 0 false
  else let '(q, e', l) := SFdiv_core_binary prec emax m 0 (10 ^ (- e)) 0 in
       binary_round_aux prec emax false q e' l.

(** The exponent: [e] or [E], an optional sign, at least one digit, and nothing else. *)
Definition parse_exponent (s : string) : option Z :=
  let '(neg, ds) := match s with
                    | String "-" ds => (true, ds)
                    | String "+" ds => (false, ds)
                    | ds => (false, ds)
                    end in
  match take_digits ds 0 0 with
  | (v, k, EmptyString) => if k =? 0 then None else Some (if neg then - v else v)
  | _ => None
  end.

Definition lower (s : string) : string :=
  of_bytes (map to_ascii_lowercase (as_bytes s)).

(** [str::parse] of a float type, without the sign. *)
Definition parse_unsigned_float (prec emax : Z) (s : string) : option spec_float :=
  if String.eqb (lower s) "nan" then Some S754_nan
  else if String.eqb (lower s) "inf" || String.eqb (lower s) "infinity" then Some (S754_infinity false)
  else
    let '(i, ki, rest) := take_digits s 0 0 in
    let '(m, kf, rest) := match rest with
                          | String "." rest => take_digits rest i 0
                          | _ => (i, 0, rest)
                          end in
    if ki + kf =? 0 then None
    else match rest with
         | EmptyString => Some (float_of_decimal prec emax m (- kf))
         | String c rest =>
             if ascii_is c "e" || ascii_is c "E"
             then e ← parse_exponent rest; Some (float_of_decimal prec emax m (e - kf))
             else None
         end.

Definition parse_float (prec emax : Z) (s : string) : option spec_float :=
  match s with
  | String "-" s => SFopp <$> parse_unsigned_float prec emax s
  | String "+" s => parse_unsigned_float prec emax s
  | s => parse_unsigned_float prec emax s
  end.

Definition parse_f64 : string -> option spec_float := parse_float 53 1024.
Definition parse_f32 : string -> option spec_float := parse_float 24 128.

(** The [Display] of the errors of these parsers. *)
Fixpoint uint_digits_error (w : Z) (s : string) (acc : Z) : string :=
  match s with
  | EmptyString => ""
  | String c s =>
      match digit_of c with
      | None => "invalid digit found in string"
      | Some d =>
          let v := acc * 10 + d in
          if v <? 2 ^ w then uint_digits_error w s v else "number too large to fit in target type"
      end
  end.

Definition uint_error (w : Z) (s : string) : string :=
  match s with
  | EmptyString => "cannot parse integer from empty string"
  | String "+" EmptyString => "invalid digit found in string"
  | String "+" s => uint_digits_error w s 0
  | s => uint_digits_error w s 0
  end.

Definition float_error (s : string) : string :=
  if String.eqb s "" then "cannot parse float from empty string" else "invalid float literal".

(** ** [String::from_utf8_lossy] *)

Definition cont (b : byte) : bool := byte_in 128 191 b.

(** The width a first byte announces, 0 when it starts no character. *)
Definition utf8_width (b : byte) : nat :=
  if byte_in 0 127 b then 1
  else if byte_in 194 223 b then 2
  else if byte_in 224 239 b then 3
  else if byte_in 240 244 b then 4
  else 0%nat.

(** The second bytes a first byte admits (no overlong form, no surrogate). *)
Definition second_ok (b0 b1 : byte) : bool :=
  if byte_is 224 b0 then byte_in 160 191 b1
  else if byte_is 237 b0 then byte_in 128 159 b1
  else if byte_is 240 b0 then byte_in 144 191 b1
  else if byte_is 244 b0 then byte_in 128 143 b1
  else cont b1.

(** The next chunk: the bytes of a character, or of a maximal invalid prefix. *)
Definition utf8_next (bs : list byte) : bool * nat :=
  match bs with
  | [] => (true, 0%nat)
  | b0 :: rest =>
      match utf8_width b0 with
      | 1 => (true, 1)
      | 2 => match rest with b1 :: _ => if second_ok b0 b1 then (true, 2) else (false, 1) | _ => (false, 1) end
      | 3 => match rest with
             | b1 :: rest =>
                 if second_ok b0 b1 then
                   match rest with b2 :: _ => if cont b2 then (true, 3) else (false, 2) | _ => (false, 2) end
                 else (false, 1)
             | _ => (false, 1)
             end
      | 4 => match rest with
             | b1 :: rest =>
                 if second_ok b0 b1 then
                   match rest with
                   | b2 :: rest =>
                       if cont b2 then
                         match rest with b3 :: _ => if cont b3 then (true, 4) else (false, 3) | _ => (false, 3) end
                       else (false, 2)
                   | _ => (false, 2)
                   end
                 else (false, 1)
             | _ => (false, 1)
             end
      | _ => (false, 1)
      end%nat
  end.

(** U+FFFD. *)
Definition replacement : list byte := [byte_of_Z 239; byte_of_Z 191; byte_of_Z 189].

Fixpoint lossy_loop (fuel : nat) (bs : list byte) : list byte :=
  match fuel, bs with
  | S fuel, _ :: _ =>
      let '(ok, k) := utf8_next bs in
      (if ok then take k bs else replacement) ++ lossy_loop fuel (drop k bs)
  | _, _ => []
  end.

Definition from_utf8_lossy (bs : list byte) : list byte := lossy_loop (length bs) bs.

(** UTF-8: a sequence of whole characters. *)
Inductive utf8 : list byte -> Prop :=
| utf8_nil : utf8 []
| utf8_char bs k : utf8_next bs = (true, S k) -> utf8 (drop (S k) bs) -> utf8 bs.

Lemma utf8_next_pos b bs : (1 <= snd (utf8_next (b :: bs)) <= length (b :: bs))%nat.
Proof. unfold utf8_next. repeat case_match; subst; cbn; lia. Qed.

Lemma lossy_fuel f g bs :
  (length bs <= f)%nat -> (length bs <= g)%nat -> lossy_loop f bs = lossy_loop g bs.
Proof.
  revert g bs. induction f as [|f IH]; intros [|g] [|b bs] Hf Hg; cbn [length] in *; try done; try lia.
  cbn [lossy_loop]. pose proof (utf8_next_pos b bs) as Hp.
  destruct (utf8_next (b :: bs)) as [ok k]. cbn [snd length] in Hp.
  f_equal. apply IH; rewrite length_drop; cbn [length]; lia.
Qed.

Lemma lossy_step b bs :
  from_utf8_lossy (b :: bs) =
  (let '(ok, k) := utf8_next (b :: bs) in
   (if ok then take k (b :: bs) else replacement) ++ from_utf8_lossy (drop k (b :: bs))).
Proof.
  unfold from_utf8_lossy at 1. cbn [length lossy_loop]. pose proof (utf8_next_pos b bs) as Hp.
  destruct (utf8_next (b :: bs)) as [ok k]. cbn [snd length] in Hp. f_equal.
  unfold from_utf8_lossy. apply lossy_fuel; rewrite ?length_drop; cbn [length]; lia.
Qed.

Lemma utf8_next_app bs k rest :
  utf8_next bs = (true, S k) -> utf8_next (take (S k) bs ++ rest) = (true, S k).
Proof.
  unfold utf8_next. intros H. repeat case_match; simplify_eq; cbn in *; simplify_eq; try done;
    repeat case_match; simplify_eq; try done; congruence.
Qed.

Lemma utf8_prepend bs k rest : utf8_next bs = (true, S k) -> utf8 rest -> utf8 (take (S k) bs ++ rest).
Proof.
  intros H Hr. apply (utf8_char _ k); [by apply utf8_next_app|].
  rewrite drop_app_length'; [done|]. destruct bs as [|b bs]; [done|].
  pose proof (utf8_next_pos b bs) as Hp. rewrite H in Hp. rewrite length_take. cbn [snd] in Hp. lia.
Qed.

(** Lossy decoding always yields UTF-8, and leaves UTF-8 text as it is. *)
Theorem lossy_utf8 bs : utf8 (from_utf8_lossy bs).
Proof.
  remember (length bs) as l eqn:El. revert bs El. induction l as [l IH] using lt_wf_ind. intros [|b bs] El.
  { constructor. }
  rewrite lossy_step. pose proof (utf8_next_pos b bs) as Hp.
  destruct (utf8_next (b :: bs)) as [ok [|k]] eqn:E; cbn [snd] in Hp; [lia|].
  assert (Hr : utf8 (from_utf8_lossy (drop (S k) (b :: bs)))).
  { eapply IH; [|reflexivity]. rewrite length_drop. lia. }
  destruct ok; [by apply utf8_prepend|].
  change replacement with (take 3 replacement). apply utf8_prepend; [done|exact Hr].
Qed.

Theorem lossy_id bs : utf8 bs -> from_utf8_lossy bs = bs.
Proof.
  induction 1 as [|bs k Hn Hr IH]; [done|]. destruct bs as [|b bs]; [done|].
  rewrite lossy_step, Hn, IH. apply take_drop.
Qed.

(** ** Splitting loses nothing *)

Lemma str_app_assoc (a b c : string) : (a +:+ b) +:+ c = a +:+ (b +:+ c).
Proof. induction a as [|x a IH]; [done|]. change (String x ((a +:+ b) +:+ c) = String x (a +:+ (b +:+ c))). by f_equal. Qed.

Lemma str_app_nil_r (s : string) : s +:+ "" = s.
Proof. induction s as [|c s IH]; [done|]. change (String c (s +:+ "") = String c s). by f_equal. Qed.

Lemma ascii_is_spec c d : reflect (c = d) (ascii_is c d).
Proof. apply Ascii.eqb_spec. Qed.

Fixpoint has_char (c : ascii) (s : string) : bool :=
  match s with EmptyString => false | String a s => ascii_is a c || has_char c s end.

Lemma split_once_some c s x y :
  split_once c s = Some (x, y) <-> s = x +:+ String c y /\ has_char c x = false.
Proof.
  revert x y. induction s as [|a s IH]; intros x y; cbn.
  - split; [done|]. intros [H _]. by destruct x.
  - destruct (ascii_is_spec a c) as [->|Hne].
    + split.
      * intros [= <- <-]. done.
      * intros [H Hx]. destruct x as [|b x]; cbn in H; [by injection H as ->|].
        injection H as <- _. cbn in Hx. by destruct (ascii_is_spec c c).
    + destruct (split_once c s) as [[u v]|] eqn:E; cbn.
      * destruct (proj1 (IH u v) eq_refl) as [-> Hu]. split.
        -- intros [= <- <-]. cbn. by destruct (ascii_is_spec a c).
        -- intros [H Hx]. destruct x as [|b x]; cbn in H; [by injection H as -> _|]. injection H as <- H.
           cbn in Hx. destruct (ascii_is_spec a c); [done|].
           pose proof (proj2 (IH x y) (conj H Hx)). by simplify_eq.
      * split; [done|]. intros [H Hx]. destruct x as [|b x]; cbn in H; [by injection H as -> _|]. injection H as <- H.
        cbn in Hx. destruct (ascii_is_spec a c); [done|].
        by pose proof (proj2 (IH x y) (conj H Hx)).
Qed.

Lemma split_once_none c s : split_once c s = None <-> has_char c s = false.
Proof.
  induction s as [|a s IH]; cbn; [done|]. destruct (ascii_is_spec a c); [done|]. cbn. rewrite <- IH.
  by destruct (split_once c s) as [[]|].
Qed.

Lemma split_at_join c s : join (String c "") (split_at c s) = s.
Proof.
  induction s as [|a s IH]; cbn; [done|]. destruct (ascii_is_spec a c) as [->|Hne].
  - cbn. destruct (split_at c s) as [|x xs] eqn:E; [|by rewrite <- IH].
    exfalso. destruct s as [|b s]; cbn in E; [done|]. destruct (ascii_is b c); [done|]. by destruct (split_at c s).
  - destruct (split_at c s) as [|x [|y xs]]; cbn in *; by rewrite <- IH.
Qed.

Lemma split_at_pieces c s : Forall (fun x => has_char c x = false) (split_at c s).
Proof.
  induction s as [|a s IH]; cbn; [by repeat constructor|]. destruct (ascii_is_spec a c) as [->|Hne].
  - by constructor.
  - destruct IH as [|x xs Hx Hxs]; cbn; [repeat constructor|constructor]; cbn;
      try (by destruct (ascii_is_spec a c)); done.
Qed.

Lemma parse_uint_range w s v : 0 <= w -> parse_uint w s = Some v -> in_uint w v.
Proof.
  intros Hw.
  assert (Hd : forall s acc v, in_uint w acc -> parse_uint_digits w s acc = Some v -> in_uint w v).
  { clear. induction s as [|c s IH]; intros acc v Ha; cbn; [by intros [= <-]|].
    destruct (digit_of c) as [d|] eqn:Ed; [|done]. cbn. zcases; [|done]. apply IH.
    unfold digit_of in Ed. destruct (_ && _) eqn:Ea; [|done]. injection Ed as <-.
    apply andb_prop in Ea as [H1 H2]. unfold in_uint in *. lia. }
  assert (H0 : in_uint w 0) by (unfold in_uint; pose proof (Z.pow_pos_nonneg 2 w); lia).
  unfold parse_uint. intros Hp. repeat case_match; try done; by eapply Hd.
Qed.

Lemma strip_prefix_some p s r : strip_prefix p s = Some r <-> s = p +:+ r.
Proof.
  revert s. induction p as [|a p IH]; intros s; cbn.
  - split; [by intros [= ->]|by intros ->].
  - destruct s as [|b s]; [done|]. destruct (ascii_is_spec a b) as [->|Hne].
    + rewrite IH. split; [by intros ->|by intros [= ->]].
    + split; [done|]. intros [= -> _]. done.
Qed.
