(* ===== verification/WalLog.v ===== *)
(** * WalLog: the whole [FileWal] behind the [WAL] trait ([riftgate-replay/src/file_wal.rs])

    The segment file names, [FileWal::open] over all shards, [append], [flush],
    [last_durable] and [shutdown], for calls made one after the other.  A call is built from
    the critical sections of [FileWal.v]; between them the shard's flusher takes its turn,
    and [file_append_simulates] shows that each call is a run of the machine there.  Time is
    the reading of the wall clock for an entry id, I/O faults are an oracle per entry id.

    [wal_holds] says what the directory contains after synchronous appends: every entry in
    exactly one segment of its shard, in order, on disk, whatever the segment size. *)

From Stdlib Require Import Ascii String.
From S2P Require Import Prelude Frame FileWal Capability Text.

#[local] Open Scope string_scope.
#[local] Open Scope list_scope.
#[local] Open Scope Z_scope.

(** ** Segment names *)

(** The decimal digits of [n], exactly [k] of them. *)
Definition dec_digit (d : Z) : ascii := ascii_of_nat (Z.to_nat (48 + d)).

Fixpoint dec_fixed (k : nat) (n : Z) (acc : string) : string :=
  match k with
  | O => acc
  | S k => dec_fixed k (n / 10) (String (dec_digit (n mod 10)) acc)
  end.

(** The number of digits of a [u64] or [usize]: at most 20. *)
Fixpoint dec_len (fuel : nat) (n : Z) : nat :=
  match fuel with
  | O => O
  | S fuel => if n <? 10 then 1%nat else S (dec_len fuel (n / 10))
  end.

(** [{:0w}]: at least [w] digits. *)
Definition zero_padded (w : nat) (n : Z) : string := dec_fixed (Nat.max w (dec_len 20 n)) n "".

Definition segment_prefix (shard_idx : Z) : string := "seg-" +:+ zero_padded 4 shard_idx +:+ "-".

Definition segment_name (shard_idx seqno : Z) : string :=
  segment_prefix shard_idx +:+ zero_padded 20 seqno +:+ ".wal".

(** [Path::join] with a file name. *)
Fixpoint ends_in_slash (s : string) : bool :=
  match s with
  | EmptyString => false
  | String c EmptyString => ascii_is c "/"
  | String _ s => ends_in_slash s
  end.

Definition path_join (root name : string) : string :=
  if String.eqb root "" || ends_in_slash root then root +:+ name else root +:+ "/" +:+ name.

(** The scan of [open_initial_segment] over the names of a directory. *)
Definition segment_seqno (shard_idx : Z) (name : string) : option Z :=
  rest ← strip_prefix (segment_prefix shard_idx) name;
  stem ← strip_suffix ".wal" rest;
  parse_uint 64 stem.

Definition scan_segments (shard_idx : Z) (names : list string) : option Z :=
  foldl (fun highest name =>
           match segment_seqno shard_idx name with
           | Some n => Some (match highest with None => n | Some h => Z.max h n end)
           | None => highest
           end) None names.

(** ** The log *)

Record FileWal := mkFileWal {
  wcfg : FileWalConfig;
  wshards : list ShardState;
  wnext : Z;
}.

Definition set_nth_shard (i : nat) (sh : ShardState) (w : FileWal) : FileWal :=
  mkFileWal (wcfg w) (<[i := sh]> (wshards w)) (wnext w).

(** The segment files of each shard that a directory holds. *)
Abbreviation Disk := (gmap Z (gmap Z Segment)).

(** [FileWal::open]: [None] is the assertion on [shards]; [io 0] is [create_dir_all], the
    others the two calls of each shard. *)
Fixpoint open_shards (io : nat -> bool) (disk : Disk) (idxs : list nat) : result (list ShardState) WalError :=
  match idxs with
  | [] => Ok []
  | i :: idxs =>
      if io (1 + 2 * i)%nat && io (2 + 2 * i)%nat then
        match open_shards io disk idxs with
        | Ok shs => Ok (open_shard (default ∅ (disk !! Z.of_nat i)) :: shs)
        | Err e => Err e
        end
      else Err IoError
  end.

Definition file_open (io : nat -> bool) (cfg : FileWalConfig) (disk : Disk) :
    option (result FileWal WalError) :=
  if 0 <? shards cfg then
    Some (if io 0%nat then
            match open_shards io disk (seq 0 (Z.to_nat (shards cfg))) with
            | Ok shs => Ok (mkFileWal cfg shs 1)
            | Err e => Err e
            end
          else Err IoError)
  else None.

(** The rounds of the flusher thread up to the one that succeeds: whatever it picks is flushed,
    synced and published.  A failed [do_flush] publishes nothing and is tried again. *)
Definition flusher_turn (sh : ShardState) : ShardState :=
  match flusher_pick sh with
  | Some (Flushing t) => publish t true (sync_data (writer_flush sh))
  | _ => sh
  end.

(** [append]; [io 4] is whether a [do_flush] ever succeeds.  [None] is a call that waits for
    ever: on a shard whose flusher has exited, or on a disk that accepts no sync. *)
Definition file_append (io : nat -> bool) (now : Z) (bytes : list byte) (d : Durability) (w : FileWal) :
    option (result Z WalError * FileWal) :=
  let id := wnext w in
  let w := mkFileWal (wcfg w) (wshards w) (wrapping_add 64 id 1) in
  let i := Z.to_nat (shard_for (Z.of_nat (length (wshards w))) id) in
  let fr := mkFrame id (wrap 64 now) (tag_of d) ENTRY_KIND_DEFAULT bytes in
  if U32_MAX <? Z.of_nat (length bytes) then Some (Err TooLarge, w)
  else
    sh ← wshards w !! i;
    let '(sh, r) := append_locked (wcfg w) io fr sh in
    match r with
    | Err e => Some (Err e, set_nth_shard i sh w)
    | Ok _ =>
        match d with
        | Async => Some (Ok id, set_nth_shard i sh w)
        | _ =>
            if durable id sh then Some (Ok id, set_nth_shard i sh w)
            else if shutdown sh || negb (io 4%nat) then None
            else let sh := flusher_turn sh in
                 if durable id sh then Some (Ok id, set_nth_shard i sh w) else None
        end
    end.

(** [flush]: shard by shard, until the target is durable or the shard is shut down. *)
Definition flush_shard (sh : ShardState) : ShardState :=
  if flush_returns (flush_target sh) sh then sh else flusher_turn sh.

Definition file_flush (w : FileWal) : result unit WalError * FileWal :=
  (Ok tt, mkFileWal (wcfg w) (flush_shard <$> wshards w) (wnext w)).

(** [WAL::last_durable]. *)
Definition file_last_durable (w : FileWal) : option Z := wal_last_durable (last_durable <$> wshards w).

(** [shutdown] and [Drop]: the flag, then the flusher drains and exits. *)
Definition close_shard (sh : ShardState) : ShardState :=
  flusher_turn (mkShard (seqno sh) (segment_bytes sh) (buffer sh) (last_buffered sh) (last_durable sh)
                  true (files sh)).

Definition file_shutdown (w : FileWal) : FileWal :=
  mkFileWal (wcfg w) (close_shard <$> wshards w) (wnext w).

(** The segment files, by path. *)
Definition shard_files (root : string) (i : nat) (sh : ShardState) : list (string * Segment) :=
  (fun kv => (path_join root (segment_name (Z.of_nat i) (fst kv)), snd kv)) <$> map_to_list (files sh).

Definition segment_files (root : string) (w : FileWal) : list (string * Segment) :=
  concat (imap (shard_files root) (wshards w)).

(** The trait; the clock and the faults are indexed by the entry id.  A call that would never
    return gets the error the code means to return there. *)
Section instance.
Context (clock : Z -> Z) (io : Z -> nat -> bool).

Definition FileWal_wal : WAL FileWal :=
  {| append bytes d w :=
       default (Err Interrupted, w) (file_append (io (wnext w)) (clock (wnext w)) bytes d w);
     flush _ w := file_flush w;
     wal_durable := file_last_durable |}.
End instance.

(** * Proofs *)

(** ** Names *)

#[local] Arguments String.append : simpl nomatch.
#[local] Arguments segment_seqno : simpl never.

Lemma list_ascii_app a b : list_ascii_of_string (a +:+ b) = list_ascii_of_string a ++ list_ascii_of_string b.
Proof. induction a as [|x a IH]; cbn; [done|]. by f_equal. Qed.

Lemma string_of_app l k : string_of_list_ascii (l ++ k) = string_of_list_ascii l +:+ string_of_list_ascii k.
Proof. induction l as [|x l IH]; cbn; [done|]. by f_equal. Qed.

Lemma str_rev_app a b : str_rev (a +:+ b) = str_rev b +:+ str_rev a.
Proof. unfold str_rev. by rewrite list_ascii_app, rev_app_distr, string_of_app. Qed.

Lemma str_rev_rev a : str_rev (str_rev a) = a.
Proof.
  unfold str_rev. by rewrite list_ascii_of_string_of_list_ascii, rev_involutive, string_of_list_ascii_of_string.
Qed.

Lemma strip_suffix_app p s : strip_suffix p (s +:+ p) = Some s.
Proof.
  unfold strip_suffix. rewrite str_rev_app. destruct (strip_prefix _ _) as [r|] eqn:E.
  - apply strip_prefix_some in E. assert (r = str_rev s) as ->; [|cbn; by rewrite str_rev_rev].
    revert E. generalize (str_rev p). induction s0 as [|c q IH]; cbn; [done|]. intros [= Heq]. by apply IH.
  - assert (strip_prefix (str_rev p) (str_rev p +:+ str_rev s) = Some (str_rev s))
      by by apply strip_prefix_some. congruence.
Qed.

Lemma has_char_app c a b : has_char c (a +:+ b) = has_char c a || has_char c b.
Proof. induction a as [|x a IH]; cbn; [done|]. by rewrite IH, orb_assoc. Qed.

(** Two texts cut at their first [c] agree piece by piece. *)
Lemma cut_inj c a a' b b' :
  has_char c a = false -> has_char c a' = false -> a +:+ String c b = a' +:+ String c b' -> a = a' /\ b = b'.
Proof.
  intros Ha Ha' Heq. assert (H : split_once c (a +:+ String c b) = Some (a, b)) by by apply split_once_some.
  assert (H' : split_once c (a' +:+ String c b') = Some (a', b')) by by apply split_once_some.
  rewrite Heq in H. rewrite H' in H. by injection H.
Qed.

(** ** Decimal digits *)

Lemma digit_of_dec d : 0 <= d < 10 -> digit_of (dec_digit d) = Some d.
Proof.
  intros Hd. assert (d = 0 \/ d = 1 \/ d = 2 \/ d = 3 \/ d = 4 \/ d = 5 \/ d = 6 \/ d = 7 \/ d = 8 \/ d = 9) by lia.
  by destruct_or!; subst.
Qed.

Lemma dec_fixed_parse w k n acc a :
  0 <= a -> 0 <= n < 10 ^ Z.of_nat k -> a * 10 ^ Z.of_nat k + n < 2 ^ w ->
  parse_uint_digits w (dec_fixed k n acc) a = parse_uint_digits w acc (a * 10 ^ Z.of_nat k + n).
Proof.
  revert n acc. induction k as [|k IH]; intros n acc Ha Hn Hw; cbn [dec_fixed].
  { f_equal. cbn in *. lia. }
  rewrite Nat2Z.inj_succ, Z.pow_succ_r in * by lia.
  pose proof (Z.div_mod n 10 ltac:(lia)) as Hdm. pose proof (Z.mod_pos_bound n 10 ltac:(lia)) as Hm.
  rewrite IH; [|lia|lia|lia]. cbn [parse_uint_digits].
  rewrite digit_of_dec by lia. cbn [mbind option_bind].
  replace ((a * 10 ^ Z.of_nat k + n / 10) * 10 + n mod 10) with (a * (10 * 10 ^ Z.of_nat k) + n) by lia.
  by destruct (Z.ltb_spec (a * (10 * 10 ^ Z.of_nat k) + n) (2 ^ w)); [|lia].
Qed.

Lemma dec_fixed_chars (P : ascii -> bool) k n acc :
  (forall d, 0 <= d < 10 -> P (dec_digit d) = true) ->
  forallb P (list_ascii_of_string acc) = true -> forallb P (list_ascii_of_string (dec_fixed k n acc)) = true.
Proof.
  intros HP. revert n acc. induction k as [|k IH]; intros n acc Hacc; cbn [dec_fixed]; [done|].
  apply IH. cbn. rewrite HP by (apply Z.mod_pos_bound; lia). done.
Qed.

Lemma forallb_no_char c s :
  forallb (fun a => negb (ascii_is a c)) (list_ascii_of_string s) = true -> has_char c s = false.
Proof. induction s as [|a s IH]; cbn; [done|]. destruct (ascii_is a c); cbn; [done|]. apply IH. Qed.

(** No character outside the digits occurs. *)
Lemma padded_no_char c w n : digit_of c = None -> has_char c (zero_padded w n) = false.
Proof.
  intros Hc. apply forallb_no_char, dec_fixed_chars; [|done]. intros d Hd.
  destruct (ascii_is_spec (dec_digit d) c) as [He|]; [|done]. rewrite <- He, digit_of_dec in Hc by done. done.
Qed.

Lemma dec_len_bound fuel n : 0 <= n < 10 ^ Z.of_nat fuel -> n < 10 ^ Z.of_nat (dec_len fuel n).
Proof.
  revert n. induction fuel as [|fuel IH]; intros n Hn; [cbn in *; lia|]. cbn [dec_len].
  destruct (Z.ltb_spec n 10); [cbn; lia|].
  rewrite Nat2Z.inj_succ, Z.pow_succ_r in * by lia.
  specialize (IH (n / 10) ltac:(pose proof (Z.div_mod n 10); pose proof (Z.mod_pos_bound n 10); lia)).
  pose proof (Z.div_mod n 10 ltac:(lia)). pose proof (Z.mod_pos_bound n 10 ltac:(lia)). lia.
Qed.

Lemma dec_fixed_head k n acc :
  (0 < k)%nat -> exists d s, 0 <= d < 10 /\ dec_fixed k n acc = String (dec_digit d) s.
Proof.
  revert n acc. induction k as [|k IH]; intros n acc Hk; [lia|]. cbn [dec_fixed].
  destruct k as [|k]; [|apply IH; lia]. eexists _, _. split; [|done]. apply Z.mod_pos_bound. lia.
Qed.

Lemma parse_uint_digit w d s :
  0 <= d < 10 -> parse_uint w (String (dec_digit d) s) = parse_uint_digits w (String (dec_digit d) s) 0.
Proof.
  intros Hd. pose proof (digit_of_dec d Hd) as Hdig. unfold parse_uint.
  destruct (dec_digit d) as [[] [] [] [] [] [] [] []]; done.
Qed.

(** A printed number is read back. *)
Lemma zero_padded_parse w n : in_u64 n -> (0 < w)%nat -> parse_uint 64 (zero_padded w n) = Some n.
Proof.
  intros Hn Hw. unfold zero_padded, in_uint in *.
  assert (Hlen : n < 10 ^ Z.of_nat (dec_len 20 n)) by (apply dec_len_bound; lia).
  assert (Hlen' : n < 10 ^ Z.of_nat (Nat.max w (dec_len 20 n))).
  { eapply Z.lt_le_trans; [done|]. apply Z.pow_le_mono_r; lia. }
  set (k := Nat.max w _) in *.
  destruct (dec_fixed_head k n "") as (d & s & Hd & Heq); [lia|].
  rewrite Heq, parse_uint_digit, <- Heq, dec_fixed_parse by lia. done.
Qed.

Lemma zero_padded_inj w n m : in_u64 n -> in_u64 m -> (0 < w)%nat -> zero_padded w n = zero_padded w m -> n = m.
Proof.
  intros Hn Hm Hw Heq. pose proof (zero_padded_parse w n Hn Hw) as H1.
  rewrite Heq, zero_padded_parse in H1 by done. by injection H1.
Qed.

(** The name of a segment is read back by its own shard and by no other. *)
Lemma segment_seqno_name i j n :
  in_u64 i -> in_u64 j -> in_u64 n ->
  segment_seqno i (segment_name j n) = if decide (i = j) then Some n else None.
Proof.
  intros Hi Hj Hn. unfold segment_seqno, segment_name. destruct (decide (i = j)) as [<-|Hne].
  - destruct (strip_prefix _ _) as [r|] eqn:E.
    + apply strip_prefix_some in E. assert (r = zero_padded 20 n +:+ ".wal") as ->.
      { revert E. generalize (segment_prefix i). induction s as [|c q IH]; cbn; [done|].
        intros [= Heq]. by apply IH. }
      cbn [mbind option_bind]. rewrite strip_suffix_app. cbn. apply zero_padded_parse; [done|lia].
    + assert (strip_prefix (segment_prefix i) (segment_prefix i +:+ zero_padded 20 n +:+ ".wal")
              = Some (zero_padded 20 n +:+ ".wal")) by by apply strip_prefix_some. congruence.
  - destruct (strip_prefix _ _) as [r|] eqn:E; [|done]. exfalso. apply Hne.
    apply strip_prefix_some in E. unfold segment_prefix in E. rewrite !str_app_assoc in E. cbn in E.
    injection E as E. symmetry. apply cut_inj in E as [E _]; try by apply padded_no_char.
    revert E. apply zero_padded_inj; [done..|lia].
Qed.

(** The scan, over any listing of the directory: the highest sequence number of the shard,
    as [open_initial_segment] takes it from the shard's files. *)
Definition is_max (P : Z -> Prop) (o : option Z) : Prop :=
  match o with
  | Some m => P m /\ forall n, P n -> n <= m
  | None => forall n, ~ P n
  end.

Lemma is_max_unique P o o' : is_max P o -> is_max P o' -> o = o'.
Proof.
  destruct o as [m|], o' as [m'|]; cbn.
  - intros [H1 H2] [H3 H4]. f_equal. pose proof (H2 _ H3). pose proof (H4 _ H1). lia.
  - intros [H1 _] H2. by destruct (H2 m).
  - intros H1 [H2 _]. by destruct (H1 m').
  - done.
Qed.

Lemma scan_is_max i names : is_max (fun n => exists name, name ∈ names /\ segment_seqno i name = Some n)
  (scan_segments i names).
Proof.
  unfold scan_segments. induction names as [|name names IH] using rev_ind; cbn.
  { intros n (? & Hin & _). by apply elem_of_nil in Hin. }
  rewrite foldl_snoc. cbv beta. destruct (segment_seqno i name) as [k|] eqn:Ek.
  - destruct (foldl _ _ _) as [h|]; cbn in *.
    + destruct IH as [(x & Hx & Hn) Hmax]. split.
      * destruct (Z.max_spec h k) as [[_ ->]|[_ ->]]; [exists name|exists x]; set_solver.
      * intros n (y & [Hy|Hy%list_elem_of_singleton]%elem_of_app & Hs).
        -- pose proof (Hmax n (ex_intro _ y (conj Hy Hs))). lia.
        -- subst. rewrite Ek in Hs. injection Hs as <-. lia.
    + split; [exists name; set_solver|]. intros n (y & [Hy|Hy%list_elem_of_singleton]%elem_of_app & Hs).
      * destruct (IH n). by exists y.
      * subst. rewrite Ek in Hs. injection Hs as <-. lia.
  - assert (Hiff : forall n, (exists y, y ∈ names ++ [name] /\ segment_seqno i y = Some n) <->
                             (exists y, y ∈ names /\ segment_seqno i y = Some n)).
    { intros n. split; intros (y & Hy & Hs); exists y; [|set_solver].
      apply elem_of_app in Hy as [|Hy%list_elem_of_singleton]; [done|]. by subst; rewrite Ek in Hs. }
    destruct (foldl _ _ _) as [h|]; cbn in *.
    + rewrite Hiff. split; [apply IH|]. intros n Hn. apply IH. by apply Hiff.
    + intros n Hn. by apply (IH n), Hiff.
Qed.

Lemma highest_is_max (l : list Z) :
  is_max (fun n => n ∈ l)
    (foldr (fun n h => Some (match h with None => n | Some h => Z.max h n end)) None l).
Proof.
  induction l as [|x l IH]; cbn; [intros n; apply not_elem_of_nil|].
  destruct (foldr _ _ _) as [h|]; cbn in *.
  - destruct IH as [Hin Hmax]. split.
    + destruct (Z.max_spec h x) as [[_ ->]|[_ ->]]; set_solver.
    + intros n [->|Hn]%elem_of_cons; [lia|]. specialize (Hmax n Hn). lia.
  - split; [set_solver|]. intros n [->|Hn]%elem_of_cons; [done|]. by destruct (IH n).
Qed.

(** A listing that shows the segments of the disk, and other names no shard claims. *)
Definition lists_disk (disk : Disk) (names : list string) : Prop :=
  (forall i fs n, disk !! i = Some fs -> is_Some (fs !! n) -> segment_name i n ∈ names) /\
  (forall name i n, name ∈ names -> in_u64 i -> segment_seqno i name = Some n ->
     exists fs, disk !! i = Some fs /\ is_Some (fs !! n)).

Theorem scan_finds_segment disk names i :
  lists_disk disk names -> in_u64 i ->
  (forall fs n, disk !! i = Some fs -> is_Some (fs !! n) -> in_u64 n) ->
  default 0 (scan_segments i names) = fst (open_initial_segment (default ∅ (disk !! i))).
Proof.
  intros [Hin Honly] Hi Hw. unfold open_initial_segment. cbn [fst]. f_equal.
  eapply is_max_unique; [apply scan_is_max|]. set (fs := default ∅ (disk !! i)).
  assert (Hiff : forall n, (exists name, name ∈ names /\ segment_seqno i name = Some n) <->
                           n ∈ fst <$> map_to_list fs).
  { intros n. rewrite list_elem_of_fmap. split.
    - intros (name & Hname & Hs). destruct (Honly _ _ _ Hname Hi Hs) as (fs' & Hfs & [seg Hseg]).
      exists (n, seg). split; [done|]. subst fs. rewrite Hfs. by apply elem_of_map_to_list.
    - intros ([n' seg] & -> & Hk%elem_of_map_to_list). cbn. subst fs.
      destruct (disk !! i) as [fs|] eqn:E; [|done]. cbn in Hk. exists (segment_name i n').
      split; [by eapply Hin|]. rewrite segment_seqno_name, decide_True; try done. by eapply Hw. }
  pose proof (highest_is_max (fst <$> map_to_list fs)) as Hm. destruct (foldr _ _ _) as [m|]; cbn in *.
  - split; [by apply Hiff, Hm|]. intros n Hn. apply Hm. by apply Hiff.
  - intros n Hn. by apply (Hm n), Hiff.
Qed.

(** ** Each call is a run of the machine *)

(** A shard of the log and a state of its machine, between two calls. *)
Record agrees (idx : nat) (w : FileWal) (s : wal) : Prop := {
  ag_next : next_entry_id s = wnext w;
  ag_shard : wshards w !! idx = Some (shard s);
  ag_idle : fl s = Idle;
  ag_open : shutdown (shard s) = false;
  ag_count : Z.of_nat (length (wshards w)) = shards (wcfg w);
  ag_alone : notify_all (appenders s) = appenders s;
}.

(** What the caller has in its hands when the call is over. *)
Definition outcome (d : Durability) (fr : ParsedFrame) (r : result Z WalError) : appender :=
  match r with
  | Err e => AppFailed e
  | Ok id => match d with Async => AppBuffered id | _ => AppAcked fr end
  end.

Lemma durable_publish t sh : durable t (publish t true sh) = true.
Proof. unfold durable. cbn. by rewrite Z.ltb_irrefl. Qed.

(** After a successful critical section the flusher picks the new entry. *)
Lemma flusher_turn_new id sh :
  last_buffered sh = Some id -> durable id sh = false ->
  flusher_pick sh = Some (Flushing id) /\
  flusher_turn sh = publish id true (sync_data (writer_flush sh)).
Proof.
  intros Hb Hd. assert (Hp : flusher_pick sh = Some (Flushing id)) by (unfold flusher_pick; by rewrite Hb, Hd).
  split; [done|]. unfold flusher_turn. by rewrite Hp.
Qed.

Lemma shard_for_range n id : 0 < n -> 0 <= shard_for n id < n.
Proof. apply Z.mod_pos_bound. Qed.

Lemma agrees_set_other idx i sh w s :
  i <> idx -> agrees idx w s -> agrees idx (set_nth_shard i sh w) s.
Proof.
  intros Hne []. constructor; cbn; try done; [by rewrite list_lookup_insert_ne|by rewrite length_insert].
Qed.

Lemma notify_insert i a l :
  notify_all l = l -> notified a = a -> notify_all (<[i := a]> l) = <[i := a]> l.
Proof. intros Hl Ha. unfold notify_all in *. by rewrite list_fmap_insert, Hl, Ha. Qed.

Lemma agrees_set idx sh w s aps l :
  agrees idx w s -> shutdown sh = false -> notify_all aps = aps ->
  agrees idx (set_nth_shard idx sh w) (mkWal (next_entry_id s) sh aps Idle l).
Proof.
  intros [] Hsd Haps. constructor; cbn; try done; [|by rewrite length_insert].
  apply list_lookup_insert_eq. by eapply lookup_lt_Some.
Qed.

Section simulation.
Context (w w' : FileWal) (s : wal) (idx i : nat) (io : nat -> bool) (d : Durability) (now : Z).
Context (bytes : list byte) (r : result Z WalError).
Context (Hag : agrees idx w s) (Hcall : appenders s !! i = Some (AppStart d now bytes)).
Context (Happ : file_append io now bytes d w = Some (r, w')).

Let cfg := wcfg w.
Let id := wnext w.
Let fr := mkFrame id (wrap 64 now) (tag_of d) ENTRY_KIND_DEFAULT bytes.
Let w1 := mkFileWal (wcfg w) (wshards w) (wrapping_add 64 id 1).
Let s1 := mkWal (wrapping_add 64 id 1) (shard s) (<[i := AppHasId d fr]> (appenders s)) Idle (log s).

Lemma sim_fetch : shard_for (shards cfg) id = Z.of_nat idx -> exec cfg (Z.of_nat idx) (FetchAdd i) s = Some s1.
Proof.
  intros Hs. destruct Hag. cbn [exec]. rewrite Hcall, ag_next0. fold id. rewrite Hs, Z.eqb_refl.
  unfold s1. by rewrite <- ag_idle0.
Qed.

Lemma sim_has_id : appenders s1 !! i = Some (AppHasId d fr).
Proof. cbn. apply list_lookup_insert_eq. by eapply lookup_lt_Some. Qed.

Lemma agrees_fetched : agrees idx w1 s1.
Proof. destruct Hag. constructor; try done. by apply notify_insert. Qed.

(** The wait: the flusher's round, then the wake-up. *)
Lemma sim_wait sh l :
  d <> Async -> shutdown sh = false -> last_buffered sh = Some id -> durable id sh = false ->
  exec_run (exec cfg (Z.of_nat idx)) [Pick; Flush true; Publish; Wake i]
    (mkWal (wrapping_add 64 id 1) sh (<[i := AppWaiting fr false]> (appenders s)) Idle l) =
  Some (mkWal (wrapping_add 64 id 1) (flusher_turn sh) (<[i := AppAcked fr]> (appenders s)) Idle l).
Proof.
  intros Hd Hsd Hb Hnd. destruct (flusher_turn_new id sh Hb Hnd) as [Hp ->].
  cbn [exec_run exec fl shard]. rewrite Hp. cbn [mbind option_bind set_flusher fl exec set_shard shard].
  cbn [exec_run exec fl shard appenders set_flusher set_shard wake_all next_entry_id log mbind option_bind].
  unfold notify_all at 1. rewrite list_fmap_insert. fold (notify_all (appenders s)). rewrite (ag_alone _ _ _ Hag).
  rewrite list_lookup_insert_eq by by eapply lookup_lt_Some. cbn [notified].
  change (entry_id fr) with id. rewrite durable_publish. unfold set_appender; cbn.
  unfold notify_all. rewrite list_fmap_insert. fold (notify_all (appenders s)).
  by rewrite (ag_alone _ _ _ Hag), list_insert_insert_eq.
Qed.

(** The id, then the critical section. *)
Lemma sim_append sh res :
  shard_for (shards cfg) id = Z.of_nat idx -> (U32_MAX <? Z.of_nat (length bytes)) = false ->
  append_locked cfg io fr (shard s) = (sh, res) ->
  exec_run (exec cfg (Z.of_nat idx)) [FetchAdd i; Append i io] s =
    Some (match res with
          | Err e => mkWal (wrapping_add 64 id 1) sh (<[i := AppFailed e]> (appenders s)) Idle (log s)
          | Ok _ => mkWal (wrapping_add 64 id 1) sh
                      (<[i := match d with
                              | Async => AppBuffered id
                              | _ => if durable id sh then AppAcked fr else AppWaiting fr false
                              end]> (appenders s)) Idle (log s ++ [fr])
          end).
Proof.
  intros Hs Elen Ea. cbn [exec_run]. rewrite sim_fetch by done. cbn [mbind option_bind exec].
  unfold exec_append. rewrite sim_has_id. change (payload fr) with bytes. rewrite Elen.
  change (shard s1) with (shard s). rewrite Ea. unfold set_appender; cbn -[notify_all need_immediate_flush].
  pose proof (ag_alone _ _ _ agrees_fetched) as Hq. unfold s1 in Hq |- *. cbn [appenders] in Hq |- *.
  destruct res; [rewrite Hq; destruct (need_immediate_flush _ _ _)|]; by rewrite list_insert_insert_eq.
Qed.

(** The outcome of the call, once the critical section is over. *)
Lemma append_cases sh res :
  shard_for (shards cfg) id = Z.of_nat idx -> (U32_MAX <? Z.of_nat (length bytes)) = false ->
  append_locked cfg io fr (shard s) = (sh, res) ->
  (exists e, res = Err e /\ r = Err e /\ w' = set_nth_shard idx sh w1) \/
  res = Ok tt /\ r = Ok id /\
    ((d = Async \/ d <> Async /\ durable id sh = true) /\ w' = set_nth_shard idx sh w1 \/
     d <> Async /\ durable id sh = false /\ w' = set_nth_shard idx (flusher_turn sh) w1).
Proof.
  intros Hs Elen Ea. revert Happ. unfold file_append. cbn [wnext wcfg wshards]. fold id w1 fr cfg.
  rewrite (ag_count _ _ _ Hag). fold cfg. rewrite Hs, Nat2Z.id, Elen, (ag_shard _ _ _ Hag).
  cbn [mbind option_bind]. rewrite Ea.
  destruct (append_locked_fields _ _ _ _ _ _ Ea) as (Hsd & _ & _). rewrite (ag_open _ _ _ Hag) in Hsd.
  destruct res as [[]|e]; [|intros [= <- <-]; left; by exists e].
  rewrite Hsd. intros Hr. right. split; [done|].
  destruct d; [injection Hr as <- <-; by auto 6|..];
    (destruct (durable id sh) eqn:Ed; [injection Hr as <- <-; by auto 8|]);
    (destruct (io 4%nat); cbn [negb orb] in Hr; [|done]);
    (destruct (durable id (flusher_turn sh)); [|done]); injection Hr as <- <-; by auto 8.
Qed.

Lemma sim_own :
  shard_for (shards cfg) id = Z.of_nat idx ->
  exists acts s', exec_run (exec cfg (Z.of_nat idx)) acts s = Some s' /\ agrees idx w' s' /\
    appenders s' = <[i := outcome d fr r]> (appenders s) /\
    ((forall k, io k = true) -> Forall no_fault acts).
Proof.
  intros Hs. pose proof agrees_fetched as Hag1.
  assert (Hnf : (forall k, io k = true) -> Forall no_fault [FetchAdd i; Append i io]) by by repeat constructor.
  destruct (U32_MAX <? Z.of_nat (length bytes)) eqn:Elen.
  { revert Happ. unfold file_append. rewrite Elen. intros [= <- <-].
    exists [FetchAdd i; Append i io]. eexists. cbn [exec_run]. rewrite sim_fetch by done.
    cbn [mbind option_bind exec]. unfold exec_append. rewrite sim_has_id. change (payload fr) with bytes.
    rewrite Elen. split; [done|]. split; [destruct Hag1; constructor; try done; by apply notify_insert|]. cbn. by rewrite list_insert_insert_eq. }
  destruct (append_locked cfg io fr (shard s)) as [sh res] eqn:Ea.
  destruct (append_locked_fields _ _ _ _ _ _ Ea) as (Hsd & Hld & Hlb & _). rewrite (ag_open _ _ _ Hag) in Hsd.
  pose proof (sim_append sh res Hs Elen Ea) as Hexec.
  assert (Hset : forall sh aps l, shutdown sh = false -> notify_all aps = aps ->
    agrees idx (set_nth_shard idx sh w1) (mkWal (wrapping_add 64 id 1) sh aps Idle l))
    by (intros; by apply (agrees_set _ _ w1 s1)).
  assert (Hins : forall a, notified a = a -> notify_all (<[i := a]> (appenders s)) = <[i := a]> (appenders s))
    by (intros; apply notify_insert; [apply (ag_alone _ _ _ Hag)|done]).
  destruct (append_cases sh res Hs Elen Ea) as [(e & -> & -> & ->)|(-> & -> & [[Hd ->]|(Hd & Hdur & ->)])].
  - eexists _, _. split; [exact Hexec|]. cbn. split; [apply Hset; [done|by apply Hins]|auto].
  - eexists _, _. split; [exact Hexec|]. cbn.
    assert (Ho : match d with Async => AppBuffered id | _ => if durable id sh then AppAcked fr else AppWaiting fr false end
                 = outcome d fr (Ok id)) by (destruct Hd as [->|[Hd ->]]; [done|by destruct d]).
    rewrite Ho. split; [apply Hset; [done|apply Hins; by destruct d]|done].
  - specialize (Hlb eq_refl). exists ([FetchAdd i; Append i io] ++ [Pick; Flush true; Publish; Wake i]).
    rewrite exec_run_app, Hexec, Hdur. cbn [mbind option_bind].
    replace (match d with Async => AppBuffered id | _ => AppWaiting fr false end) with (AppWaiting fr false) by by destruct d.
    eexists. split; [by apply sim_wait|]. destruct (flusher_turn_new id sh Hlb Hdur) as [_ ->].
    split; [apply Hset; [done|by apply Hins]|]. split; [by destruct d|]. intros Hio. by repeat constructor.
Qed.

Lemma sim_other :
  0 < shards cfg -> shard_for (shards cfg) id <> Z.of_nat idx ->
  exists s', exec_run (exec cfg (Z.of_nat idx)) [OtherShard] s = Some s' /\ agrees idx w' s' /\
    appenders s' = appenders s.
Proof.
  intros Hn Hs. exists (mkWal (wrapping_add 64 id 1) (shard s) (appenders s) (fl s) (log s)).
  assert (Hag' : agrees idx w1 (mkWal (wrapping_add 64 id 1) (shard s) (appenders s) (fl s) (log s)))
    by by destruct Hag.
  split; [|split; [|done]].
  - cbn. rewrite (ag_next _ _ _ Hag). fold id. by destruct (Z.eqb_spec (shard_for (shards cfg) id) (Z.of_nat idx)).
  - revert Happ. unfold file_append. cbn [wnext wcfg wshards]. fold id w1 fr. rewrite (ag_count _ _ _ Hag). fold cfg.
    pose proof (shard_for_range (shards cfg) id Hn) as Hr.
    assert (Hne : Z.to_nat (shard_for (shards cfg) id) <> idx) by lia.
    destruct (U32_MAX <? _); [by intros [= <- <-]|]. destruct (wshards w !! _); [|done]. cbn [mbind option_bind].
    destruct (append_locked _ _ _ _) as [sh [[]|e]]; repeat case_match; intros; simplify_eq;
      by apply agrees_set_other.
Qed.
End simulation.

(** [append] is a run of the machine of [FileWal.v], for a call that returns, with no other
    call and no shutdown under way: in the shard of the entry the caller takes an id, enters
    the critical section, where the write or the rollover may fail, and, if it must wait, is
    woken after a round of the flusher that succeeds; every other shard only sees an id taken. *)
Theorem file_append_simulates w w' s idx i io d now bytes r :
  agrees idx w s -> 0 < shards (wcfg w) ->
  appenders s !! i = Some (AppStart d now bytes) -> file_append io now bytes d w = Some (r, w') ->
  exists acts s', exec_run (exec (wcfg w) (Z.of_nat idx)) acts s = Some s' /\ agrees idx w' s' /\
    ((forall k, io k = true) -> Forall no_fault acts) /\
    appenders s' = if shard_for (shards (wcfg w)) (wnext w) =? Z.of_nat idx
      then <[i := outcome d (mkFrame (wnext w) (wrap 64 now) (tag_of d) ENTRY_KIND_DEFAULT bytes) r]> (appenders s)
      else appenders s.
Proof.
  intros Hag Hn Hcall Happ. destruct (Z.eqb_spec (shard_for (shards (wcfg w)) (wnext w)) (Z.of_nat idx)) as [Hs|Hs].
  - destruct (sim_own _ _ _ _ _ _ _ _ _ _ Hag Hcall Happ Hs) as (acts & s' & ? & ? & ? & ?). by exists acts, s'.
  - edestruct sim_other as (s' & ? & ? & ?); [exact Hag|exact Hcall|exact Happ|done|done|].
    exists [OtherShard], s'. split_and!; try done. by repeat constructor.
Qed.

(** ** What the directory holds after synchronous appends *)

(** A segment whose bytes are exactly the frames, all of them on disk. *)
Definition whole (frs : list ParsedFrame) : Segment :=
  mkSegment (encode_frames frs) (length (encode_frames frs)).

Definition zlookup {A} (l : list A) (n : Z) : option A := if decide (0 <= n) then l !! Z.to_nat n else None.

Lemma zlookup_snoc {A} (l : list A) x n :
  zlookup (l ++ [x]) n = if decide (n = Z.of_nat (length l)) then Some x else zlookup l n.
Proof.
  unfold zlookup. destruct (decide (n = Z.of_nat (length l))) as [->|Hne].
  - rewrite decide_True, Nat2Z.id by lia. by rewrite lookup_app_r, Nat.sub_diag.
  - case_decide; [|done]. destruct (decide (Z.to_nat n < length l)%nat).
    + by rewrite lookup_app_l.
    + rewrite !lookup_ge_None_2; [done|lia|rewrite length_app; cbn; lia].
Qed.

Lemma zlookup_beyond {A} (l : list A) : zlookup l (Z.of_nat (length l)) = None.
Proof. unfold zlookup. rewrite decide_True, Nat2Z.id by lia. by apply lookup_ge_None_2. Qed.

(** The closed segments and the current one, nothing buffered. *)
Record shard_holds (sh : ShardState) (pre : list (list ParsedFrame)) (cur : list ParsedFrame) : Prop := {
  sh_files : forall n, files sh !! n = whole <$> zlookup (pre ++ [cur]) n;
  sh_seqno : seqno sh = Z.of_nat (length pre);
  sh_buffer : buffer sh = [];
  sh_bytes : segment_bytes sh = Z.of_nat (length (encode_frames cur));
  sh_open : shutdown sh = false;
  sh_full : Forall (fun frs => frs <> []) pre;
  sh_caught_up : last_buffered sh = last_durable sh;
}.

Lemma open_shard_holds : shard_holds (open_shard ∅) [] [].
Proof.
  constructor; try done; try constructor. intros n.
  rewrite zlookup_snoc. change (open_shard ∅) with (mkShard 0 0 [] None None false {[ 0 := mkSegment [] 0 ]}).
  cbn [files]. destruct (decide (n = Z.of_nat (@length (list ParsedFrame) []))) as [->|Hne].
  - by rewrite lookup_singleton_eq.
  - rewrite lookup_singleton_ne by (cbn in Hne; lia). unfold zlookup. by case_decide.
Qed.

Lemma rollover_holds io sh pre cur :
  (forall k, io k = true) -> shard_holds sh pre cur -> cur <> [] -> Z.of_nat (length pre) + 1 < 2 ^ 64 ->
  exists sh', rollover io sh = (sh', Ok tt) /\ shard_holds sh' (pre ++ [cur]) [] /\
    last_durable sh' = last_durable sh.
Proof.
  intros Hio [] Hcur Hlen. unfold rollover, writer_flush. rewrite !Hio. eexists. split; [done|]. split; [|done].
  assert (Hnext : wrapping_add 64 (seqno sh) 1 = Z.of_nat (length (pre ++ [cur]))).
  { unfold wrapping_add. rewrite length_app, sh_seqno0, wrap_small; [cbn; lia|unfold in_uint; lia]. }
  assert (Hfiles : forall n, files (spill (length (buffer sh)) sh) !! n = whole <$> zlookup (pre ++ [cur]) n).
  { intros n. cbn. unfold set_file. rewrite sh_buffer0, <- sh_files0. destruct (decide (n = seqno sh)) as [->|Hne].
    - rewrite lookup_alter_eq. destruct (files sh !! seqno sh) as [[]|]; cbn; [by rewrite app_nil_r|done].
    - by rewrite lookup_alter_ne. }
  constructor; cbn [files seqno buffer segment_bytes shutdown last_durable]; try done.
  - intros n. change (seqno (spill (length (buffer sh)) sh)) with (seqno sh). rewrite Hnext. unfold open_segment.
    rewrite Hfiles, zlookup_beyond. cbn [fmap option_fmap option_map]. rewrite zlookup_snoc.
    destruct (decide _) as [->|Hne]; [by rewrite lookup_insert_eq|by rewrite lookup_insert_ne].
  - apply Forall_app. by rewrite Forall_singleton.
Qed.

(** The frame written, flushed, synced and published. *)
Lemma write_holds sh pre cur fr :
  shard_holds sh pre cur -> durable (entry_id fr) sh = false ->
  let sh1 := mkShard (seqno sh) (segment_bytes sh + frame_len fr) (buffer sh ++ encode_frame fr)
               (Some (entry_id fr)) (last_durable sh) (shutdown sh) (files sh) in
  shard_holds (flusher_turn sh1) pre (cur ++ [fr]) /\
  last_durable (flusher_turn sh1) = Some (entry_id fr).
Proof.
  intros [] Hd sh1. destruct (flusher_turn_new (entry_id fr) sh1 eq_refl Hd) as [_ ->]. split; [|done].
  assert (Henc : encode_frames (cur ++ [fr]) = encode_frames cur ++ encode_frame fr)
    by (by rewrite fmap_app, concat_app; cbn; rewrite app_nil_r).
  constructor; cbn; try done.
  - intros n. unfold set_file. cbn. rewrite sh_buffer0, zlookup_snoc, <- sh_seqno0. cbn [app].
    rewrite firstn_all. destruct (decide (n = seqno sh)) as [->|Hne].
    + rewrite !lookup_alter_eq, sh_files0, zlookup_snoc, <- sh_seqno0, decide_True by done. cbn.
      unfold whole. by rewrite Henc.
    + by rewrite !lookup_alter_ne, sh_files0, zlookup_snoc, <- sh_seqno0, decide_False by done.
  - apply skipn_all.
  - rewrite Henc, sh_bytes0, length_app, length_encode_frame. unfold frame_len. lia.
Qed.

Lemma append_sync_holds cfg io fr sh pre cur :
  (forall k, io k = true) -> shard_holds sh pre cur -> durable (entry_id fr) sh = false ->
  Z.of_nat (length pre) + 1 < 2 ^ 64 ->
  exists sh1, append_locked cfg io fr sh = (sh1, Ok tt) /\ durable (entry_id fr) sh1 = false /\
    exists pre' cur', shard_holds (flusher_turn sh1) pre' cur' /\
      concat (pre' ++ [cur']) = concat (pre ++ [cur]) ++ [fr] /\
      last_durable (flusher_turn sh1) = Some (entry_id fr).
Proof.
  intros Hio Hh Hd Hlen.
  assert (Hroll : exists sh0 pre' cur', (if (segment_size_max cfg <? segment_bytes sh + frame_len fr)
        && (0 <? segment_bytes sh) then rollover io sh else (sh, Ok tt)) = (sh0, Ok tt) /\
      shard_holds sh0 pre' cur' /\ concat (pre' ++ [cur']) = concat (pre ++ [cur]) /\
      last_durable sh0 = last_durable sh).
  { destruct (_ && _) eqn:E; [|by exists sh, pre, cur]. apply andb_prop in E as [_ E].
    destruct (rollover_holds io sh pre cur) as (sh' & -> & Hh' & Hl); [done|done| |done|].
    - intros ->. rewrite (sh_bytes _ _ _ Hh) in E. done.
    - exists sh', (pre ++ [cur]), []. split_and!; try done. rewrite (concat_app _ [[]]). cbn. by rewrite app_nil_r. }
  destruct Hroll as (sh0 & pre' & cur' & Heq & Hh0 & Hcat & Hl).
  assert (Hd0 : durable (entry_id fr) sh0 = false) by (revert Hd; unfold durable; by rewrite Hl).
  destruct (write_holds sh0 pre' cur' fr Hh0 Hd0) as [Hw Hld].
  unfold append_locked. rewrite Heq, !Hio. cbn [write_all seqno segment_bytes buffer last_durable shutdown files].
  rewrite <- app_assoc. fold (encode_frame fr). eexists. split; [done|]. split; [done|].
  exists pre', (cur' ++ [fr]). split_and!; [done| |done]. rewrite <- Hcat, !concat_app. cbn.
  by rewrite !app_nil_r, app_assoc.
Qed.

(** The entries of a shard. *)
Definition of_shard (n : Z) (i : nat) (frs : list ParsedFrame) : list ParsedFrame :=
  filter (fun fr => shard_for n (entry_id fr) = Z.of_nat i) frs.

(** After the appends of [frs]: ids from 1, every entry in the segments of its shard. *)
Record wal_holds (w : FileWal) (frs : list ParsedFrame) : Prop := {
  wh_count : Z.of_nat (length (wshards w)) = shards (wcfg w);
  wh_pos : 0 < shards (wcfg w);
  wh_ids : ids frs = seqZ 1 (Z.of_nat (length frs));
  wh_next : wnext w = Z.of_nat (length frs) + 1;
  wh_wide : Forall frame_wide frs;
  wh_shards : forall i sh, wshards w !! i = Some sh -> exists pre cur,
    shard_holds sh pre cur /\ concat (pre ++ [cur]) = of_shard (shards (wcfg w)) i frs /\
    last_durable sh = last (ids (of_shard (shards (wcfg w)) i frs));
}.

Lemma concat_length_full {A} (ls : list (list A)) :
  Forall (fun l => l <> []) ls -> (length ls <= length (concat ls))%nat.
Proof.
  induction 1 as [|l ls Hl _ IH]; cbn; [done|]. rewrite length_app. destruct l; [done|]. cbn. lia.
Qed.

Lemma of_shard_snoc n i frs fr :
  of_shard n i (frs ++ [fr]) =
    of_shard n i frs ++ if decide (shard_for n (entry_id fr) = Z.of_nat i) then [fr] else [].
Proof. unfold of_shard. rewrite filter_app, filter_cons. by case_decide. Qed.

Lemma ids_snoc frs fr : ids (frs ++ [fr]) = ids frs ++ [entry_id fr].
Proof. unfold ids. by rewrite fmap_app. Qed.

Lemma open_shards_ok io disk idxs :
  (forall k, io k = true) ->
  open_shards io disk idxs = Ok ((fun i => open_shard (default ∅ (disk !! Z.of_nat i))) <$> idxs).
Proof. intros Hio. induction idxs as [|i idxs IH]; cbn [open_shards]; [done|]. by rewrite !Hio, IH. Qed.

(** A fresh directory. *)
Lemma file_open_holds io cfg :
  (forall k, io k = true) -> 0 < shards cfg ->
  exists w, file_open io cfg ∅ = Some (Ok w) /\ wal_holds w [] /\ wcfg w = cfg.
Proof.
  intros Hio Hpos. unfold file_open. rewrite (proj2 (Z.ltb_lt _ _) Hpos), Hio, open_shards_ok by done.
  eexists. split; [done|]. split; [|done].
  constructor; cbn [wcfg wshards wnext]; try done.
  - rewrite length_fmap, length_seq. lia.
  - intros i sh Hi. rewrite list_lookup_fmap in Hi. destruct (seq _ _ !! i); [|done].
    injection Hi as <-. rewrite lookup_empty. exists [], []. split; [apply open_shard_holds|done].
Qed.

Lemma of_shard_ids n i frs d : d ∈ ids (of_shard n i frs) -> d ∈ ids frs /\ shard_for n d = Z.of_nat i.
Proof.
  unfold ids, of_shard. intros (fr & -> & [Hs Hin]%list_elem_of_filter)%list_elem_of_fmap.
  split; [by apply list_elem_of_fmap_2|done].
Qed.

Lemma durable_below w frs i sh :
  wal_holds w frs -> last_durable sh = last (ids (of_shard (shards (wcfg w)) i frs)) -> durable (wnext w) sh = false.
Proof.
  intros [] Hd. unfold durable. rewrite Hd. destruct (last _) as [d|] eqn:E; [|done].
  apply last_elem_of, of_shard_ids in E as [E _]. rewrite wh_ids0, elem_of_seqZ in E. lia.
Qed.

(** The shard of the next entry replaced by one that has it. *)
Lemma wal_holds_snoc w frs fr i sh pre cur :
  wal_holds w frs -> entry_id fr = wnext w -> frame_wide fr -> shard_for (shards (wcfg w)) (wnext w) = Z.of_nat i ->
  shard_holds sh pre cur -> concat (pre ++ [cur]) = of_shard (shards (wcfg w)) i frs ++ [fr] ->
  last_durable sh = Some (wnext w) -> Z.of_nat (length frs) + 2 < 2 ^ 64 ->
  wal_holds (set_nth_shard i sh (mkFileWal (wcfg w) (wshards w) (wrapping_add 64 (wnext w) 1))) (frs ++ [fr]).
Proof.
  intros [] Hid Hwide Hi Hh Hcat Hld Hbound.
  assert (Hlast : Z.of_nat (length (frs ++ [fr])) = Z.of_nat (length frs) + 1) by (rewrite length_app; cbn; lia).
  constructor; cbn [wcfg wshards wnext set_nth_shard]; rewrite ?Hlast.
  - by rewrite length_insert.
  - done.
  - unfold ids in *. rewrite fmap_app, wh_ids0, seqZ_app by lia. cbn. f_equal. by rewrite Hid, wh_next0, Z.add_comm.
  - unfold wrapping_add. rewrite wrap_small; unfold in_uint; lia.
  - apply Forall_app. by rewrite Forall_singleton.
  - intros j shj Hj. rewrite of_shard_snoc, Hid. destruct (decide (i = j)) as [<-|Hne].
    + rewrite list_lookup_insert_eq in Hj.
      2:{ pose proof (shard_for_range (shards (wcfg w)) (wnext w) wh_pos0). lia. }
      injection Hj as <-. exists pre, cur. rewrite decide_True by done. split_and!; [done|done|].
      by rewrite ids_snoc, last_snoc, Hld, Hid.
    + rewrite list_lookup_insert_ne in Hj by done. destruct (wh_shards0 j shj Hj) as (pj & cj & H1 & H2 & H3).
      exists pj, cj. by rewrite decide_False, app_nil_r by lia.
Qed.

Lemma wal_frame_wide id now d bytes :
  in_u64 id -> Z.of_nat (length bytes) <= U32_MAX ->
  frame_wide (mkFrame id (wrap 64 now) (tag_of d) ENTRY_KIND_DEFAULT bytes).
Proof.
  intros Hid Hlen. split_and!; cbn; [done|by apply wrap_range|by destruct d|done|].
  unfold in_uint, U32_MAX in *. lia.
Qed.

(** One synchronous append without I/O errors, whatever the segment size. *)
Lemma sync_append_holds w frs io now bytes d :
  wal_holds w frs -> d <> Async -> (forall k, io k = true) -> Z.of_nat (length bytes) <= U32_MAX ->
  Z.of_nat (length frs) + 2 < 2 ^ 64 ->
  exists w', file_append io now bytes d w = Some (Ok (wnext w), w') /\ wcfg w' = wcfg w /\
    wal_holds w' (frs ++ [mkFrame (wnext w) (wrap 64 now) (tag_of d) ENTRY_KIND_DEFAULT bytes]).
Proof.
  intros Hw Hd Hio Hlen Hbound. pose proof Hw as []. unfold file_append. cbn [wnext wcfg wshards].
  set (id := wnext w) in *. set (fr := mkFrame id _ _ _ bytes). set (n := shards (wcfg w)) in *.
  rewrite wh_count0. destruct (Z.ltb_spec U32_MAX (Z.of_nat (length bytes))) as [|_]; [lia|].
  pose proof (shard_for_range n id wh_pos0) as Hr. set (i := Z.to_nat (shard_for n id)) in *.
  destruct (lookup_lt_is_Some_2 (wshards w) i) as [sh Hsh]; [lia|]. rewrite Hsh. cbn [mbind option_bind].
  destruct (wh_shards0 i sh Hsh) as (pre & cur & Hh & Hcat & Hdur).
  assert (Hpre : Z.of_nat (length pre) <= Z.of_nat (length frs)).
  { pose proof (concat_length_full pre (sh_full _ _ _ Hh)). apply (f_equal length) in Hcat.
    rewrite concat_app, length_app in Hcat. unfold of_shard in Hcat.
    pose proof (length_filter (fun fr => shard_for n (entry_id fr) = Z.of_nat i) frs). lia. }
  destruct (append_sync_holds (wcfg w) io fr sh pre cur) as (sh1 & Ha & Hnd1 & pre' & cur' & Hh' & Hcat' & Hld);
    [done|done|by eapply (durable_below w frs)|lia|].
  destruct (append_locked_fields _ _ _ _ _ _ Ha) as (Hsd & _). rewrite (sh_open _ _ _ Hh) in Hsd.
  assert (Hnow : durable id (flusher_turn sh1) = true) by (unfold durable; rewrite Hld; cbn; lia).
  change (entry_id fr) with id in *. rewrite Ha, Hnd1, Hsd, Hio, Hnow.
  exists (set_nth_shard i (flusher_turn sh1) (mkFileWal (wcfg w) (wshards w) (wrapping_add 64 id 1))).
  split; [by destruct d|]. split; [done|]. eapply (wal_holds_snoc w); try done.
  - apply wal_frame_wide; [unfold in_uint; lia|done].
  - fold n id. lia.
  - fold n. by rewrite Hcat', Hcat.
Qed.

(** ** The other operations *)

Lemma flusher_turn_closed sh : shutdown (flusher_turn sh) = shutdown sh.
Proof. unfold flusher_turn. by repeat case_match. Qed.

(** After a round nothing is left to flush. *)
Lemma flusher_turn_drained sh :
  match last_buffered (flusher_turn sh) with Some t => durable t (flusher_turn sh) = true | None => True end.
Proof.
  unfold flusher_turn, flusher_pick. destruct (last_buffered sh) as [t|] eqn:Eb.
  - destruct (durable t sh) eqn:Ed; cbn; [destruct (shutdown sh); by rewrite Eb|]. rewrite Eb. unfold durable. cbn. by rewrite Z.ltb_irrefl.
  - destruct (shutdown sh); by rewrite Eb.
Qed.

Lemma flusher_turn_idle sh :
  match last_buffered sh with Some t => durable t sh = true | None => True end -> flusher_turn sh = sh.
Proof.
  unfold flusher_turn, flusher_pick. destruct (last_buffered sh) as [t|]; intros Hd; [rewrite Hd|]; cbn; by destruct (shutdown sh).
Qed.

(** [flush] returns with every entry that was buffered durable, in the shards that are open. *)
Theorem flush_makes_durable w :
  Forall (fun sh => flush_returns (flush_target sh) sh = true) (wshards (snd (file_flush w))) /\
  snd (file_flush (snd (file_flush w))) = snd (file_flush w).
Proof.
  assert (H1 : forall sh, flush_returns (flush_target (flush_shard sh)) (flush_shard sh) = true).
  { intros sh. unfold flush_shard. destruct (flush_returns (flush_target sh) sh) eqn:E; [done|].
    pose proof (flusher_turn_drained sh) as Hd. unfold flush_target, flush_returns in *.
    destruct (last_buffered (flusher_turn sh)); [by rewrite Hd|done]. }
  split; cbn.
  - apply Forall_fmap, Forall_true. intros sh. apply H1.
  - f_equal. rewrite <- list_fmap_compose. apply list_fmap_ext. intros _ sh _. cbn.
    unfold flush_shard at 1. by rewrite H1.
Qed.

Lemma close_shard_flag sh : shutdown (close_shard sh) = true.
Proof. unfold close_shard. by rewrite flusher_turn_closed. Qed.

(** [shutdown] is idempotent: [Drop] after it changes nothing. *)
Theorem shutdown_idempotent w : file_shutdown (file_shutdown w) = file_shutdown w.
Proof.
  unfold file_shutdown. cbn. f_equal. rewrite <- list_fmap_compose. apply list_fmap_ext. intros _ sh _. cbn.
  pose proof (flusher_turn_drained (mkShard (seqno sh) (segment_bytes sh) (buffer sh) (last_buffered sh)
    (last_durable sh) true (files sh))) as Hd. fold (close_shard sh) in Hd.
  pose proof (close_shard_flag sh) as Hf. unfold close_shard at 1. rewrite <- Hf.
  transitivity (flusher_turn (close_shard sh)); [|by apply flusher_turn_idle]. by destruct (close_shard sh).
Qed.

Lemma wal_last_durable_max ds : is_max (fun d => Some d ∈ ds) (wal_last_durable ds).
Proof.
  unfold wal_last_durable. induction ds as [|o ds IH] using rev_ind; cbn; [intros n; apply not_elem_of_nil|].
  rewrite foldl_snoc. cbv beta. destruct o as [d|].
  - destruct (foldl _ _ _) as [m|]; cbn in *.
    + destruct IH as [Hin Hmax]. split; [destruct (Z.ltb_spec m d); set_solver|].
      intros n [Hn|[= ->]%list_elem_of_singleton]%elem_of_app; [|destruct (Z.ltb_spec m d); lia].
      specialize (Hmax n Hn). destruct (Z.ltb_spec m d); lia.
    + split; [set_solver|]. intros n [Hn|[= ->]%list_elem_of_singleton]%elem_of_app; [by destruct (IH n)|lia].
  - destruct (foldl _ _ _) as [m|]; cbn in *.
    + split; [apply elem_of_app; by left; apply IH|]. intros n [Hn|[=]%list_elem_of_singleton]%elem_of_app. by apply IH.
    + intros n [Hn|[=]%list_elem_of_singleton]%elem_of_app. by apply (IH n).
Qed.

(** After synchronous appends the last durable entry is the last one. *)
Lemma sync_last_durable w frs : wal_holds w frs -> file_last_durable w = last (ids frs).
Proof.
  intros []. eapply is_max_unique; [apply wal_last_durable_max|].
  assert (Hin : forall d, Some d ∈ last_durable <$> wshards w -> d ∈ ids frs).
  { intros d (sh & Heq & [i Hi]%list_elem_of_lookup)%list_elem_of_fmap.
    destruct (wh_shards0 i sh Hi) as (_ & _ & _ & _ & Hl). rewrite Hl in Heq. symmetry in Heq.
    by apply last_elem_of, of_shard_ids in Heq as [Heq _]. }
  destruct (last (ids frs)) as [d|] eqn:El; cbn.
  - assert (Hd : d = Z.of_nat (length frs) /\ exists l fr, frs = l ++ [fr] /\ entry_id fr = d).
    { destruct frs as [|fr frs _] using rev_ind; [done|]. rewrite ids_snoc, last_snoc in El.
      injection El as <-. split; [|by exists frs, fr]. rewrite ids_snoc in wh_ids0.
      rewrite length_app, Nat2Z.inj_add, seqZ_app in wh_ids0 by lia.
      apply app_inj_tail in wh_ids0 as [_ ->]. rewrite length_app. cbn. lia. }
    destruct Hd as [Hd (l & fr & -> & Hid)]. split.
    + pose proof (shard_for_range (shards (wcfg w)) d wh_pos0) as Hr.
      destruct (lookup_lt_is_Some_2 (wshards w) (Z.to_nat (shard_for (shards (wcfg w)) d))) as [sh Hsh]; [lia|].
      destruct (wh_shards0 _ sh Hsh) as (_ & _ & _ & _ & Hl). apply list_elem_of_fmap. exists sh.
      split; [|by eapply list_elem_of_lookup_2]. rewrite Hl, of_shard_snoc, decide_True by (rewrite Hid; lia).
      by rewrite ids_snoc, last_snoc, Hid.
    + intros n Hn%Hin. rewrite wh_ids0, elem_of_seqZ in Hn. lia.
  - apply last_None in El. intros n Hn%Hin. rewrite El in Hn. by apply elem_of_nil in Hn.
Qed.

(** After [shutdown] the flushers have exited: a synchronous append that comes later waits
    for a notification that nobody is left to send. *)
Theorem append_after_shutdown_waits w frs io now bytes d :
  wal_holds w frs -> d <> Async -> (forall k, io k = true) -> Z.of_nat (length bytes) <= U32_MAX ->
  file_append io now bytes d (file_shutdown w) = None.
Proof.
  intros Hw Hd Hio Hlen. pose proof Hw as []. unfold file_append. cbn [wnext wcfg wshards file_shutdown].
  rewrite length_fmap, wh_count0. destruct (Z.ltb_spec U32_MAX (Z.of_nat (length bytes))) as [|_]; [lia|].
  rewrite list_lookup_fmap. set (i := Z.to_nat _). destruct (wshards w !! i) as [sh|] eqn:Hsh; [|done].
  cbn [mbind option_bind fmap option_fmap option_map].
  destruct (wh_shards0 i sh Hsh) as (pre & cur & Hh & _ & Hld).
  destruct (append_locked _ _ _ _) as [sh1 r] eqn:Ea.
  destruct (append_locked_fields _ _ _ _ _ _ Ea) as (Hsd & Hd1 & _). rewrite close_shard_flag in Hsd.
  assert (Hclose : last_durable (close_shard sh) = last_durable sh).
  { unfold close_shard. rewrite flusher_turn_idle; [done|]. cbn. rewrite (sh_caught_up _ _ _ Hh).
    destruct (last_durable sh) eqn:E; [|done]. unfold durable. cbn. by rewrite ?E, Z.ltb_irrefl. }
  assert (Hnd : durable (wnext w) sh1 = false).
  { pose proof (durable_below w frs i sh Hw Hld) as Hn. unfold durable in *. by rewrite Hd1, Hclose. }
  assert (Hr : r = Ok tt).
  { revert Ea. unfold append_locked, rollover. rewrite !Hio. by repeat case_match; intros; simplify_eq/=. }
  subst r. rewrite Hnd, Hsd. by destruct d.
Qed.

(** ** A call *)

Definition demo_wal : FileWal := mkFileWal demo_config [open_shard ∅] 1.

Lemma file_append_simulates_witness :
  exists acts s', exec_run (exec demo_config 0) acts one_call = Some s' /\
    appenders s' = [AppAcked (mkFrame 1 7 1 0 (bstr "abc"))].
Proof.
  destruct (file_append io_ok 7 (bstr "abc") FdataSync demo_wal) as [[r w']|] eqn:E; [|by vm_compute in E].
  assert (Hr : r = Ok 1) by (vm_compute in E; by injection E as <- _).
  destruct (file_append_simulates demo_wal w' one_call 0 0 io_ok FdataSync 7 (bstr "abc") r)
    as (acts & s' & Hrun & _ & _ & Happ).
  - by constructor.
  - by vm_compute.
  - done.
  - exact E.
  - exists acts, s'. split; [exact Hrun|]. etrans; [exact Happ|]. rewrite Hr. by vm_compute.
Defined.
