(* ===== verification/Filter.v ===== *)
(** * Filter: the filter trait, the native chain and the WASM host

    [riftgate-core/src/filter.rs] (the trait, [IdentityFilter], [LoggingFilter]),
    [riftgate-filter/src/chain.rs] ([FilterChain]) and [riftgate-filter/src/wasm.rs]
    ([WasmFilter]).  A [dyn Filter] is a record of its two methods; a method gets the
    mutable request or response and the world [W] that filters may touch (interior state,
    logs).  The WebAssembly engine is a parameter. *)

From Stdlib Require Import Ascii String.
From S2P Require Import Prelude Core Http1 Capability Text.

#[local] Open Scope string_scope.
#[local] Open Scope list_scope.
#[local] Open Scope Z_scope.

(** ** The trait *)

Inductive FilterAction :=
| Continue
| Terminate (status : StatusCode).

Record DynFilter (W : Type) := mkFilter {
  on_request : Request -> W -> FilterAction * Request * W;
  filter_on_response : Response -> W -> FilterAction * Response * W;
}.
Arguments mkFilter {W}.
Arguments on_request {W}.
Arguments filter_on_response {W}.

(** The default [on_response] of the trait. *)
Definition pass_response {W} (resp : Response) (w : W) : FilterAction * Response * W := (Continue, resp, w).

Definition IdentityFilter {W} : DynFilter W := mkFilter (fun req w => (Continue, req, w)) pass_response.

(** What [LoggingFilter] hands to the tracing subscriber. *)
Inductive FilterLog :=
| LogRequest (id : RequestId) (method : Method) (path : string) (header_count body_bytes : nat)
| LogResponse (id : RequestId) (status : StatusCode) (header_count body_bytes : nat).

Definition LoggingFilter {W} (debug : FilterLog -> W -> W) : DynFilter W :=
  mkFilter
    (fun req w =>
       (Continue, req,
        debug (LogRequest (req_id req) (req_method req) (req_path req)
                 (length (entries (req_headers req))) (Body_len (req_body req))) w))
    (fun resp w =>
       (Continue, resp,
        debug (LogResponse (resp_id resp) (resp_status resp)
                 (length (entries (resp_headers resp))) (Body_len (resp_body resp))) w)).

(** ** The chain *)

Section chain.
Context {W : Type}.

Record FilterChain := mkChain { filters : list (DynFilter W) }.

Definition chain_new : FilterChain := mkChain [].
Definition from_filters (fs : list (DynFilter W)) : FilterChain := mkChain fs.
Definition chain_push (c : FilterChain) (f : DynFilter W) : FilterChain * nat :=
  (mkChain (filters c ++ [f]), S (length (filters c))).
Definition chain_len (c : FilterChain) : nat := length (filters c).
Definition chain_is_empty (c : FilterChain) : bool := (length (filters c) =? 0)%nat.

(** The loop of [on_request] and, on the reversed vector, of [on_response]: [call] is the
    method, [m] the request or response it may rewrite. *)
Fixpoint chain_loop {M : Type} (call : DynFilter W -> M -> W -> FilterAction * M * W)
    (fs : list (DynFilter W)) (m : M) (w : W) : FilterAction * M * W :=
  match fs with
  | [] => (Continue, m, w)
  | f :: fs =>
      match call f m w with
      | (Continue, m, w) => chain_loop call fs m w
      | (Terminate s, m, w) => (Terminate s, m, w)
      end
  end.

Definition chain_on_request (c : FilterChain) := chain_loop on_request (filters c).
Definition chain_on_response (c : FilterChain) := chain_loop filter_on_response (rev (filters c)).

(** [impl Filter for FilterChain]. *)
Definition as_filter (c : FilterChain) : DynFilter W := mkFilter (chain_on_request c) (chain_on_response c).
End chain.
Arguments FilterChain W : clear implicits.

(** ** The WASM host *)

Record WasmFilterConfig := mkWasmConfig {
  component_path : string;
  fuel : Z;
  memory_bytes : Z;
  wallclock_ms : Z;
  instance_pool : Z;
}.

Definition WasmFilterConfig_default : WasmFilterConfig :=
  mkWasmConfig "/dev/null" 5000000 (16 * 1024 * 1024) 50 256.

Inductive WasmFilterError :=
| LoadFailed (why : string)
| InstantiateFailed (why : string)
| ExecuteFailed (why : string)
| FeatureDisabled.

Definition wasm_error_display (e : WasmFilterError) : string :=
  match e with
  | LoadFailed why => "wasm component load failed: " +:+ why
  | InstantiateFailed why => "wasm component instantiate failed: " +:+ why
  | ExecuteFailed why => "wasm component execution failed: " +:+ why
  | FeatureDisabled => "wasm feature disabled; rebuild with --features wasm"
  end.

(** The records of the [riftgate:filter] interface. *)
Record WasmHeader := mkWasmHeader { wh_name : list byte; wh_value : list byte }.
Record WasmRequest := mkWasmRequest {
  wr_method : string; wr_path : string; wr_headers : list WasmHeader; wr_body : list byte }.
Record WasmResponse := mkWasmResponse {
  ws_status : Z; ws_headers : list WasmHeader; ws_body : list byte }.
Inductive WasmAction := WasmContinue | WasmTerminate (code : Z).

Definition map_action (a : WasmAction) : FilterAction :=
  match a with WasmContinue => Continue | WasmTerminate code => Terminate code end.

(** The host functions. *)
Inductive Level := ERROR | WARN | INFO | DEBUG | TRACE.

Definition host_log_level (level : string) : Level :=
  if String.eqb level "error" then ERROR
  else if String.eqb level "warn" then WARN
  else if String.eqb level "info" then INFO
  else if String.eqb level "debug" then DEBUG
  else TRACE.

(** [now_millis]: the time since the call started when it is known, else since the epoch
    (0 before it); [now] and [epoch] are nanoseconds, the cast to [u64] wraps. *)
Definition now_millis (started_at : option Z) (now epoch : Z) : Z :=
  match started_at with
  | Some start => wrap 64 ((now - start) / 1000000)
  | None => wrap 64 (if epoch <? 0 then 0 else epoch / 1000000)
  end.

Section wasm.
(** [wasmtime]: an engine built from the memory cap and the pool size, the compilation of a
    component, its instantiation for one call, and the two exported functions; [str_debug]
    is the [Debug] form of a string. *)
Context {Engine Component Instance : Type}.
Context (wasm_feature : bool) (is_file : string -> bool) (read : string -> result (list byte) string)
  (engine_new : Z -> Z -> result Engine string)
  (precompile : Engine -> list byte -> result unit string)
  (from_binary : Engine -> list byte -> result Component string)
  (instantiate : Engine -> Component -> Z -> result Instance string)
  (call_on_request : Instance -> WasmRequest -> result WasmAction string)
  (call_on_response : Instance -> WasmResponse -> result WasmAction string)
  (str_debug : string -> string).

Record WasmRuntime := mkRuntime { engine : Engine; component : Component }.

Definition map_err {T} (f : string -> WasmFilterError) (r : result T string) : result T WasmFilterError :=
  match r with Ok v => Ok v | Err e => Err (f e) end.

(** [WasmRuntime::load]; [usize::try_from] of a [u64] succeeds on a 64-bit target. *)
Definition runtime_load (cfg : WasmFilterConfig) : result WasmRuntime WasmFilterError :=
  result_bind (fun eng =>
    result_bind (fun bytes =>
      result_bind (fun _ =>
        result_bind (fun comp => Ok (mkRuntime eng comp))
          (map_err LoadFailed (from_binary eng bytes)))
        (map_err LoadFailed (precompile eng bytes)))
      (map_err LoadFailed (read (component_path cfg))))
    (map_err LoadFailed (engine_new (memory_bytes cfg) (instance_pool cfg))).

(** [format!("{:?}", req.method)]. *)
Definition method_debug (m : Method) : string :=
  match m with
  | Get => "Get" | Post => "Post" | Put => "Put" | Delete => "Delete"
  | Options => "Options" | Head => "Head"
  | Other raw => "Other(" +:+ str_debug raw +:+ ")"
  end.

Definition wasm_headers (h : Headers) : list WasmHeader :=
  (fun nv => mkWasmHeader (fst nv) (from_utf8_lossy (snd nv))) <$> entries h.

Definition wasm_body (b : Body) : list byte := match b with Empty => [] | Bytes bytes => bytes end.

Definition request_payload (req : Request) : WasmRequest :=
  mkWasmRequest (method_debug (req_method req)) (req_path req) (wasm_headers (req_headers req))
    (wasm_body (req_body req)).

Definition response_payload (resp : Response) : WasmResponse :=
  mkWasmResponse (resp_status resp) (wasm_headers (resp_headers resp)) (wasm_body (resp_body resp)).

Definition runtime_on_request (r : WasmRuntime) (req : Request) (started_at : Z) :
    result FilterAction WasmFilterError :=
  result_bind (fun inst =>
    result_bind (fun action => Ok (map_action action))
      (map_err ExecuteFailed (call_on_request inst (request_payload req))))
    (map_err InstantiateFailed (instantiate (engine r) (component r) started_at)).

Definition runtime_on_response (r : WasmRuntime) (resp : Response) (started_at : Z) :
    result FilterAction WasmFilterError :=
  result_bind (fun inst =>
    result_bind (fun action => Ok (map_action action))
      (map_err ExecuteFailed (call_on_response inst (response_payload resp))))
    (map_err InstantiateFailed (instantiate (engine r) (component r) started_at)).

(** [WasmFilter]; without the feature there is no runtime field. *)
Record WasmFilter := mkWasm { wasm_cfg : WasmFilterConfig; runtime : option WasmRuntime }.

Definition scaffold (cfg : WasmFilterConfig) : WasmFilter := mkWasm cfg None.

Definition try_load (cfg : WasmFilterConfig) : result WasmFilter WasmFilterError :=
  if negb (is_file (component_path cfg)) then
    Err (LoadFailed ("component path is not a file: " +:+ component_path cfg))
  else if negb wasm_feature then Err FeatureDisabled
  else result_bind (fun r => Ok (mkWasm cfg (Some r))) (runtime_load cfg).

Definition unwrap_or_500 (r : result FilterAction WasmFilterError) : FilterAction :=
  match r with Ok a => a | Err _ => Terminate INTERNAL_SERVER_ERROR end.

(** [impl Filter for WasmFilter]; [now] reads the clock of the world. *)
Definition wasm_filter {W} (now : W -> Z) (f : WasmFilter) : DynFilter W :=
  mkFilter
    (fun req w =>
       match runtime f with
       | Some r => (unwrap_or_500 (runtime_on_request r req (now w)), req, w)
       | None => (Continue, req, w)
       end)
    (fun resp w =>
       match runtime f with
       | Some r => (unwrap_or_500 (runtime_on_response r resp (now w)), resp, w)
       | None => (Continue, resp, w)
       end).
End wasm.

(** * Proofs *)

(** ** Composition *)

(** Run one filter step after another, unless the first terminates. *)
Definition and_then {M W : Type} (f g : M -> W -> FilterAction * M * W) (m : M) (w : W) : FilterAction * M * W :=
  match f m w with
  | (Continue, m, w) => g m w
  | r => r
  end.

Section compose.
Context {W : Type}.
Implicit Types fs gs : list (DynFilter W).

Lemma chain_loop_app {M} (call : DynFilter W -> M -> W -> FilterAction * M * W) fs gs m w :
  chain_loop call (fs ++ gs) m w = and_then (chain_loop call fs) (chain_loop call gs) m w.
Proof.
  revert m w. induction fs as [|f fs IH]; intros m w; cbn; [done|].
  unfold and_then in *. cbn. destruct (call f m w) as [[[|s] m'] w']; [apply IH|done].
Qed.

(** A chain is a filter like any other: the chain of two chains behaves as the chain of
    their filters, on requests from front to back and on responses from back to front, and
    the first [Terminate] ends both. *)
Theorem chain_is_a_filter (c1 c2 : FilterChain W) req resp w :
  on_request (as_filter (from_filters [as_filter c1; as_filter c2])) req w =
    and_then (on_request (as_filter c1)) (on_request (as_filter c2)) req w /\
  on_request (as_filter (from_filters (filters c1 ++ filters c2))) req w =
    and_then (on_request (as_filter c1)) (on_request (as_filter c2)) req w /\
  filter_on_response (as_filter (from_filters [as_filter c1; as_filter c2])) resp w =
    and_then (filter_on_response (as_filter c2)) (filter_on_response (as_filter c1)) resp w /\
  filter_on_response (as_filter (from_filters (filters c1 ++ filters c2))) resp w =
    and_then (filter_on_response (as_filter c2)) (filter_on_response (as_filter c1)) resp w.
Proof.
  cbn. unfold chain_on_request, chain_on_response. cbn. rewrite rev_app_distr, !chain_loop_app.
  unfold and_then. cbn. repeat split; repeat cases; try done; congruence.
Qed.

(** ** Order *)

(** A filter that also writes its number to a log. *)
Definition tag (i : nat) (f : DynFilter W) : DynFilter (W * list nat) :=
  mkFilter
    (fun req wl => let '(a, r, w) := on_request f req (fst wl) in (a, r, (w, snd wl ++ [i])))
    (fun resp wl => let '(a, r, w) := filter_on_response f resp (fst wl) in (a, r, (w, snd wl ++ [i]))).

Definition action_of {M} (r : FilterAction * M * W) : FilterAction := fst (fst r).

(** The part of the chain that ran: all of it, or up to the filter that terminated. *)
Definition ran_part {M} (call : DynFilter W -> M -> W -> FilterAction * M * W) fs (m : M) (w : W) (k : nat) : Prop :=
  match action_of (chain_loop call fs m w) with
  | Continue => k = length fs
  | Terminate s =>
      exists f m1 w1, fs !! pred k = Some f /\ (0 < k)%nat /\
        chain_loop call (take (pred k) fs) m w = (Continue, m1, w1) /\
        chain_loop call fs m w = call f m1 w1
  end.

Lemma rev_zip_with {A B C} (f : A -> B -> C) (la : list A) (lb : list B) :
  length la = length lb -> rev (zip_with f la lb) = zip_with f (rev la) (rev lb).
Proof.
  revert lb. induction la as [|a la IH]; intros [|b lb] Hl; try done. cbn. injection Hl as Hl.
  rewrite zip_with_app by by rewrite !length_rev. by rewrite <- IH.
Qed.

Lemma chain_loop_tagged {M} (call : DynFilter W -> M -> W -> FilterAction * M * W)
    (call' : DynFilter (W * list nat) -> M -> W * list nat -> FilterAction * M * (W * list nat)) :
  (forall i f m wl, call' (tag i f) m wl =
     let '(a, r, w) := call f m (fst wl) in (a, r, (w, snd wl ++ [i]))) ->
  forall fs ids m w l, length ids = length fs ->
  exists k, ran_part call fs m w k /\
    chain_loop call' (zip_with tag ids fs) m (w, l) =
    (let '(a, r, w') := chain_loop call fs m w in (a, r, (w', l ++ take k ids))).
Proof.
  intros Hcall. induction fs as [|f fs IH]; intros [|i ids] m w l Hlen; try done; cbn [zip_with chain_loop].
  { exists 0%nat. split; [done|]. cbn. by rewrite app_nil_r. }
  rewrite Hcall. cbn [fst snd]. unfold ran_part, action_of in *. cbn [chain_loop].
  destruct (call f m w) as [[[|s] m1] w1] eqn:E.
  - destruct (IH ids m1 w1 (l ++ [i])) as (k & Hk & Heq); [by injection Hlen|].
    exists (S k). rewrite Heq. split.
    + destruct (chain_loop call fs m1 w1) as [[[|s] m2] w2] eqn:E2; cbn in Hk |- *; [by f_equal|].
      destruct Hk as (f' & m3 & w3 & Hf & Hpos & Hpre & Hrun). destruct k as [|k]; [lia|].
      exists f', m3, w3. cbn in Hf, Hpre |- *. rewrite E. repeat split; try done. lia.
    + destruct (chain_loop call fs m1 w1) as [[a m2] w2]. cbn. by rewrite <- app_assoc.
  - exists 1%nat. split; [|done]. cbn. exists f, m, w. repeat split; try done. lia.
Qed.

End compose.

(** ** The WASM host *)

(** What the guest sees of the headers: every value is UTF-8, and one that was UTF-8 already
    is unchanged. *)
Lemma wasm_headers_utf8 h :
  Forall2 (fun nv wh => wh_name wh = fst nv /\ utf8 (wh_value wh) /\ (utf8 (snd nv) -> wh_value wh = snd nv))
    (entries h) (wasm_headers h).
Proof.
  unfold wasm_headers. apply Forall2_fmap_r, Forall_Forall2_diag, Forall_forall.
  intros nv _. cbn. repeat split; [apply lossy_utf8|apply lossy_id].
Qed.

(** What the guest is to see: the path, every header under its name and in order, with the
    value it has where that is text, the whole body, and the method by name (in the case of
    the [Debug] form; an extension method is left open). *)
Definition headers_shown (h : Headers) (hs : list WasmHeader) : Prop :=
  Forall2 (fun nv wh => wh_name wh = fst nv /\ utf8 (wh_value wh) /\ (utf8 (snd nv) -> wh_value wh = snd nv))
    (entries h) hs.

Definition body_shown (b : Body) (bytes : list byte) : Prop :=
  match b with Empty => bytes = [] | Bytes bs => bytes = bs end.

Definition method_shown (m : Method) (name : string) : Prop :=
  match m with
  | Get => lower name = "get" | Post => lower name = "post" | Put => lower name = "put"
  | Delete => lower name = "delete" | Options => lower name = "options" | Head => lower name = "head"
  | Other _ => True
  end.

Definition request_shown (req : Request) (p : WasmRequest) : Prop :=
  method_shown (req_method req) (wr_method p) /\ wr_path p = req_path req /\
  headers_shown (req_headers req) (wr_headers p) /\ body_shown (req_body req) (wr_body p).

Definition response_shown (resp : Response) (p : WasmResponse) : Prop :=
  ws_status p = resp_status resp /\ headers_shown (resp_headers resp) (ws_headers p) /\
  body_shown (resp_body resp) (ws_body p).

Lemma request_payload_shown str_debug req : request_shown req (request_payload str_debug req).
Proof.
  destruct req as [id m path h b]. split_and!; [by destruct m|done|apply wasm_headers_utf8|by destruct b].
Qed.

Lemma response_payload_shown resp : response_shown resp (response_payload resp).
Proof. destruct resp as [id s h b]. split_and!; [done|apply wasm_headers_utf8|by destruct b]. Qed.

Section wasm_proofs.
Context {Engine Component Instance W : Type}.
Context (wasm_feature : bool) (is_file : string -> bool) (read : string -> result (list byte) string)
  (engine_new : Z -> Z -> result Engine string)
  (precompile : Engine -> list byte -> result unit string)
  (from_binary : Engine -> list byte -> result Component string)
  (instantiate : Engine -> Component -> Z -> result Instance string)
  (call_on_request : Instance -> WasmRequest -> result WasmAction string)
  (call_on_response : Instance -> WasmResponse -> result WasmAction string)
  (str_debug : string -> string) (now : W -> Z).

Abbreviation load := (try_load wasm_feature is_file read engine_new precompile from_binary).
Abbreviation filter_of := (wasm_filter instantiate call_on_request call_on_response str_debug now).

(** The verdict of the guest on one call, given what it is shown. *)
Definition verdict {P} (call : Instance -> P -> result WasmAction string) (r : WasmRuntime) (w : W) (p : P) :
    FilterAction :=
  match instantiate (engine r) (component r) (now w) with
  | Err _ => Terminate 500
  | Ok inst =>
      match call inst p with
      | Ok WasmContinue => Continue
      | Ok (WasmTerminate code) => Terminate code
      | Err _ => Terminate 500
      end
  end.


(** The fuel and wall-clock limits of the configuration reach nothing: two configurations
    that differ only there load the same runtime. *)
Theorem wasm_limits_ignored cfg fuel' wallclock' :
  runtime_load read engine_new precompile from_binary
    (mkWasmConfig (component_path cfg) fuel' (memory_bytes cfg) wallclock' (instance_pool cfg)) =
  runtime_load read engine_new precompile from_binary cfg.
Proof. done. Qed.
End wasm_proofs.

(** A guest that refuses bodies starting with [x] and traps on an empty one. *)
Definition demo_guest (_ : unit) (r : WasmRequest) : result WasmAction string :=
  match wr_body r with
  | [] => Err "trap"
  | b :: _ => if byte_is 120 b then Ok (WasmTerminate 403) else Ok WasmContinue
  end.

