(* ===== verification/Obs.v ===== *)
(** * Obs: observability events, sinks and the bus

    The event types and [InMemorySink] ([riftgate-core/src/obs.rs]), the bus with its
    publishers and worker ([riftgate-obs/src/bus.rs]), [MultiSink] ([multi_sink.rs]), the
    line records of [JsonStdoutSink] ([json_stdout_sink.rs]), the spans of [OtelSink]
    ([otel_sink.rs]) and [BpfSink] ([bpf.rs]).  The bus is a machine in which publishers
    and the worker interleave freely, over any bounded channel that keeps the promises of
    [Channel]; JSON text and the OpenTelemetry SDK are outside. *)

From Stdlib Require Import String SpecFloat.
From S2P Require Import Prelude Floats Core Scheduler Capability.

#[local] Open Scope string_scope.
#[local] Open Scope list_scope.
#[local] Open Scope Z_scope.

(** ** Labels, attributes and events *)

Inductive LabelKey := Route | BackendKey | Model | MethodKey | StatusClass | Tenant | Event.

Definition label_key_as_str (k : LabelKey) : string :=
  match k with
  | Route => "route" | BackendKey => "backend" | Model => "model" | MethodKey => "method"
  | StatusClass => "status_class" | Tenant => "tenant" | Event => "event"
  end.

Record Label := mkLabel { label_key : LabelKey; label_value : string }.
Record Labels := mkLabels { labels_inner : list Label }.
Definition Labels_new : Labels := mkLabels [].
Definition Labels_insert (l : Labels) (k : LabelKey) (v : string) : Labels :=
  mkLabels (labels_inner l ++ [mkLabel k v]).

Inductive AttrValue :=
| Str (s : string)
| I64 (z : Z)
| F64 (x : spec_float)
| BoolV (b : bool).

Record Attributes := mkAttributes { attrs_inner : list (string * AttrValue) }.
Definition Attributes_new : Attributes := mkAttributes [].
Definition Attributes_insert (a : Attributes) (k : string) (v : AttrValue) : Attributes :=
  mkAttributes (attrs_inner a ++ [(k, v)]).

(** [as i64] of a [u64], and the conversions from the unsigned types. *)
Definition as_i64 (n : Z) : Z := let m := wrap 64 n in if m <? 2 ^ 63 then m else m - 2 ^ 64.
Definition attr_from_u32 (n : Z) : AttrValue := I64 n.
Definition attr_from_u64 (n : Z) : AttrValue := I64 (as_i64 n).

Record ProfileSample := mkSample { stack : list string; weight : Z }.
Inductive ProfileKind := OnCpu | OffCpu | Syscall.

Inductive ObservabilityEvent :=
| SpanStart (request_id : RequestId) (name : string) (attributes : Attributes)
| SpanEnd (request_id : RequestId) (name : string) (duration : Z)
| Counter (name : string) (value : Z) (labels : Labels)
| Histogram (name : string) (value : spec_float) (labels : Labels)
| Profile (kind : ProfileKind) (samples : list ProfileSample).

(** ** Sinks *)

Class ObservabilitySink (S : Type) := publish : ObservabilityEvent -> S -> S.

(** [InMemorySink]. *)
Record InMemorySink := mkMemSink { mem_events : list ObservabilityEvent }.
#[global] Instance in_memory_sink : ObservabilitySink InMemorySink :=
  fun e s => mkMemSink (mem_events s ++ [e]).
Definition mem_drain (s : InMemorySink) : list ObservabilityEvent * InMemorySink :=
  (mem_events s, mkMemSink []).
Definition mem_count (s : InMemorySink) : nat := length (mem_events s).

(** [MultiSink]: a vector of [dyn] sinks over a shared world. *)
Record MultiSink (W : Type) := mkMulti { sinks : list (ObservabilityEvent -> W -> W) }.
Arguments mkMulti {W}.
Arguments sinks {W}.
Definition multi_with {W} (m : MultiSink W) (s : ObservabilityEvent -> W -> W) : MultiSink W :=
  mkMulti (sinks m ++ [s]).
Definition multi_publish {W} (m : MultiSink W) (e : ObservabilityEvent) (w : W) : W :=
  foldl (fun w s => s e w) w (sinks m).

(** [BpfSink]: two counters; [bpf_compiled] is the target and feature test. *)
Inductive BpfRuntimeState := CompiledOut | DisabledByEnv | Loaded (programs : list string).
Record BpfSink := mkBpf { bpf_state : BpfRuntimeState; published_total : Z; profile_events_total : Z }.

Definition runtime_state (bpf_compiled runtime_enabled : bool) : BpfRuntimeState :=
  if bpf_compiled then
    if negb runtime_enabled then DisabledByEnv
    else Loaded ["cpu_sample"; "syscall_stall"; "tcp_retransmit"]
  else CompiledOut.
Definition with_runtime_enabled (bpf_compiled runtime_enabled : bool) : BpfSink :=
  mkBpf (runtime_state bpf_compiled runtime_enabled) 0 0.
Definition bpf_from_env (bpf_compiled : bool) (env : option string) : BpfSink :=
  with_runtime_enabled bpf_compiled
    (match env with Some v => String.eqb v "1" | None => false end).
Definition bpf_is_enabled (s : BpfSink) : bool := match bpf_state s with Loaded _ => true | _ => false end.
#[global] Instance bpf_sink : ObservabilitySink BpfSink :=
  fun e s =>
    mkBpf (bpf_state s) (wrapping_add 64 (published_total s) 1)
      (match e with Profile _ _ => wrapping_add 64 (profile_events_total s) 1 | _ => profile_events_total s end).

(** ** The line of [JsonStdoutSink]

    The fields of the JSON object in the order [serde] writes them: [kind], then the fields
    of the flattened body. *)
Inductive Json :=
| JNull
| JString (s : string)
| JInt (z : Z)
| JFloat (x : spec_float)
| JBool (b : bool)
| JArray (l : list Json)
| JObject (fields : list (string * Json)).

Definition attr_to_json (v : AttrValue) : Json :=
  match v with
  | Str s => JString s
  | I64 n => JInt n
  | F64 x => match x with S754_nan | S754_infinity _ => JNull | _ => JFloat x end
  | BoolV b => JBool b
  end.

Definition labels_to_out (l : Labels) : Json :=
  JArray ((fun lb => JObject [("key", JString (label_key_as_str (label_key lb))); ("value", JString (label_value lb))])
            <$> labels_inner l).

Definition attributes_to_out (a : Attributes) : Json :=
  JArray ((fun kv => JObject [("key", JString (fst kv)); ("value", attr_to_json (snd kv))]) <$> attrs_inner a).

Inductive OutBody :=
| OutSpan (request_id name : string) (attributes : Json) (duration_ms : option Z)
| OutMetric (name : string) (value : spec_float) (labels : Json)
| OutProfile (kind : string) (sample_count : nat).

Record OutEnvelope := mkEnvelope { env_kind : string; env_body : OutBody }.

Definition body_fields (b : OutBody) : list (string * Json) :=
  match b with
  | OutSpan id name attrs dur =>
      [("request_id", JString id); ("name", JString name); ("attributes", attrs);
       ("duration_ms", match dur with Some d => JInt d | None => JNull end)]
  | OutMetric name value labels =>
      [("name", JString name); ("value", attr_to_json (F64 value)); ("labels", labels)]
  | OutProfile kind n => [("kind", JString kind); ("sample_count", JInt (Z.of_nat n))]
  end.

Definition envelope_fields (e : OutEnvelope) : list (string * Json) :=
  ("kind", JString (env_kind e)) :: body_fields (env_body e).

Definition profile_kind_str (k : ProfileKind) : string :=
  match k with OnCpu => "on_cpu" | OffCpu => "off_cpu" | Syscall => "syscall" end.

(** [u64::try_from(duration.as_millis()).unwrap_or(u64::MAX)] of nanoseconds. *)
Definition duration_millis (ns : Z) : Z := Z.min (ns / 1000000) U64_MAX.

Definition envelope_of (e : ObservabilityEvent) : OutEnvelope :=
  match e with
  | SpanStart id name attrs =>
      mkEnvelope "span_start" (OutSpan (RequestId_display id) name (attributes_to_out attrs) None)
  | SpanEnd id name d =>
      mkEnvelope "span_end" (OutSpan (RequestId_display id) name (JArray []) (Some (duration_millis d)))
  | Counter name value labels => mkEnvelope "counter" (OutMetric name (f64_of_Z value) (labels_to_out labels))
  | Histogram name value labels => mkEnvelope "histogram" (OutMetric name value (labels_to_out labels))
  | Profile kind samples =>
      mkEnvelope "profile" (OutProfile (profile_kind_str kind) (length samples))
  end.

(** ** The spans of [OtelSink]: what it hands to the tracer *)
Record OtelSpan := mkSpan { span_name : string; span_attrs : list (string * AttrValue) }.

Definition otel_publish (e : ObservabilityEvent) : list OtelSpan :=
  match e with
  | SpanEnd id name d =>
      [mkSpan name [("riftgate.request_id", Str (RequestId_display id));
                    ("riftgate.duration_ms", I64 (Z.min (d / 1000000) (2 ^ 63 - 1)))]]
  | SpanStart id name attrs =>
      [mkSpan name (("riftgate.request_id", Str (RequestId_display id)) :: attrs_inner attrs)]
  | _ => []
  end.

(** ** The bus

    [senders] is whether some [Publisher] is alive, [alive] whether the worker still holds
    the receiver, [in_hand] the event between [recv] and the end of [sink.publish].  The
    capacity is positive: a channel of capacity 0 is a rendezvous and no [Channel]. *)
Section bus.
Context {Q S : Type} `{Channel Q ObservabilityEvent} `{ObservabilitySink S}.

Record BusState := mkBus {
  chan : Q;
  senders : bool;
  dropped : Z;
  alive : bool;
  in_hand : option ObservabilityEvent;
  sink : S;
}.

Definition Bus_new (cap : nat) (s : S) : BusState := mkBus (chan_bounded cap) true 0 true None s.

(** [Publisher::publish]: [Full] and [Disconnected] count as drops. *)
Definition publisher_publish (e : ObservabilityEvent) (b : BusState) : BusState :=
  if alive b then
    match try_send e (chan b) with
    | (Ok _, c) => mkBus c (senders b) (dropped b) (alive b) (in_hand b) (sink b)
    | (Err _, c) => mkBus c (senders b) (wrapping_add 64 (dropped b) 1) (alive b) (in_hand b) (sink b)
    end
  else mkBus (chan b) (senders b) (wrapping_add 64 (dropped b) 1) (alive b) (in_hand b) (sink b).

Definition dropped_total (b : BusState) : Z := dropped b.

(** One step of [drain]: finish the event in hand, or receive the next one; an empty channel
    without senders ends the loop and drops the receiver.  [None] is a blocked [recv]. *)
Definition drain_step (b : BusState) : option BusState :=
  if alive b then
    match in_hand b with
    | Some e => Some (mkBus (chan b) (senders b) (dropped b) true None (publish e (sink b)))
    | None =>
        match try_recv (chan b) with
        | (Some e, c) => Some (mkBus c (senders b) (dropped b) true (Some e) (sink b))
        | (None, _) =>
            if senders b then None
            else Some (mkBus (chan b) false (dropped b) false None (sink b))
        end
    end
  else None.

(** A sink that panics takes the worker with it: the receiver is dropped. *)
Definition worker_panic (b : BusState) : option BusState :=
  if alive b then
    match in_hand b with
    | Some _ => Some (mkBus (chan b) (senders b) (dropped b) false None (sink b))
    | None => None
    end
  else None.

Inductive bus_act := ActPublish (e : ObservabilityEvent) | ActDropSenders | ActDrain | ActPanic.

Definition bus_exec (a : bus_act) (b : BusState) : option BusState :=
  match a with
  | ActPublish e => if senders b then Some (publisher_publish e b) else None
  | ActDropSenders => Some (mkBus (chan b) false (dropped b) (alive b) (in_hand b) (sink b))
  | ActDrain => drain_step b
  | ActPanic => worker_panic b
  end.
End bus.
Arguments BusState : clear implicits.

(** * Proofs *)

Section bus_proofs.
Context {Q S : Type} `{Channel Q ObservabilityEvent} `{ObservabilitySink S}.
Implicit Types b : BusState Q S.

(** The history of a run: what was offered, what the channel took, what the sink got, and
    whether the worker panicked. *)
Record history := mkHistory {
  offered : list ObservabilityEvent;
  accepted : list ObservabilityEvent;
  delivered : list ObservabilityEvent;
  panicked : bool;
}.

Definition room (b : BusState Q S) : bool :=
  alive b && bool_decide (length (items (chan b)) < capacity (chan b))%nat.

Definition record (a : bus_act) (b : BusState Q S) (h : history) : history :=
  match a with
  | ActPublish e =>
      mkHistory (offered h ++ [e]) (accepted h ++ (if room b then [e] else [])) (delivered h) (panicked h)
  | ActDropSenders => h
  | ActDrain =>
      mkHistory (offered h) (accepted h)
        (delivered h ++ (if alive b then option_list (in_hand b) else [])) (panicked h)
  | ActPanic => mkHistory (offered h) (accepted h) (delivered h) true
  end.

Definition exec_h (a : bus_act) (bh : BusState Q S * history) : option (BusState Q S * history) :=
  b ← bus_exec a (fst bh); Some (b, record a (fst bh) (snd bh)).

Definition fresh (cap : nat) (s0 : S) : BusState Q S * history := (Bus_new cap s0, mkHistory [] [] [] false).

(** The sink state is the fold of the delivered events; nothing the channel took is lost
    or reordered unless the worker panicked; the counter counts the rest. *)
Record bus_inv (cap : nat) (s0 : S) (bh : BusState Q S * history) : Prop := {
  bi_cap : capacity (chan (fst bh)) = cap;
  bi_bound : (length (items (chan (fst bh))) <= cap)%nat;
  bi_sink : sink (fst bh) = foldl (fun s e => publish e s) s0 (delivered (snd bh));
  bi_kept : panicked (snd bh) = false ->
    accepted (snd bh) = delivered (snd bh) ++ option_list (in_hand (fst bh)) ++ items (chan (fst bh));
  bi_prefix : delivered (snd bh) `prefix_of` accepted (snd bh);
  bi_order : accepted (snd bh) `sublist_of` offered (snd bh);
  bi_count : dropped (fst bh) =
    wrap 64 (Z.of_nat (length (offered (snd bh))) - Z.of_nat (length (accepted (snd bh))));
  bi_exit : alive (fst bh) = false -> in_hand (fst bh) = None /\
    (panicked (snd bh) = false -> items (chan (fst bh)) = []);
  bi_panic : panicked (snd bh) = true -> alive (fst bh) = false;
}.

Lemma wrapping_add_wrap z : wrapping_add 64 (wrap 64 z) 1 = wrap 64 (z + 1).
Proof. unfold wrapping_add, wrap. by rewrite Zplus_mod_idemp_l. Qed.

Lemma fresh_inv cap s0 : bus_inv cap s0 (fresh cap s0).
Proof.
  destruct (bounded_spec (Q := Q) (A := ObservabilityEvent) cap) as [Hi Hc].
  constructor; cbn; rewrite ?Hi; try done. cbn. lia.
Qed.

Lemma bus_publish_inv cap s0 e b h :
  bus_inv cap s0 (b, h) -> bus_inv cap s0 (publisher_publish e b, record (ActPublish e) b h).
Proof.
  intros [Hc Hb Hs Hk Hp Ho Hd He Hn]. cbn in *. unfold publisher_publish, room.
  destruct (alive b) eqn:Ea; cbn [andb].
  - destruct (bool_decide_reflect (length (items (chan b)) < capacity (chan b))%nat) as [Hr|Hr].
    + destruct (send_room e (chan b) Hr) as (H1 & H2 & H3).
      destruct (try_send e (chan b)) as [[]  c]; [|done]. cbn in *.
      constructor; cbn; rewrite ?H2, ?H3, ?length_app; cbn; try done; try lia.
      * intros Hpk. rewrite (Hk Hpk), !app_assoc. done.
      * etrans; [exact Hp|]. by apply prefix_app_r.
      * by apply sublist_app.
      * rewrite Hd. f_equal. lia.
    + rewrite (send_full e (chan b)) by lia. cbn. constructor; cbn; rewrite ?app_nil_r; try done.
      * by apply sublist_inserts_r.
      * rewrite Hd, wrapping_add_wrap, length_app. f_equal. cbn. lia.
  - constructor; cbn; rewrite ?app_nil_r; try done.
    + by apply sublist_inserts_r.
    + rewrite Hd, wrapping_add_wrap, length_app. f_equal. cbn. lia.
Qed.

Lemma drain_inv cap s0 b h b' :
  bus_inv cap s0 (b, h) -> drain_step b = Some b' -> bus_inv cap s0 (b', record ActDrain b h).
Proof.
  intros [Hc Hb Hs Hk Hp Ho Hd He Hn]. cbn in *. unfold drain_step.
  destruct (alive b) eqn:Ea; [|done].
  assert (Hpk : panicked h = false) by (destruct (panicked h); [by discriminate (Hn eq_refl)|done]).
  specialize (Hk Hpk). destruct (in_hand b) as [e|] eqn:Eh; cbn in *.
  - intros [= <-]. constructor; cbn; try done.
    + by rewrite foldl_app, <- Hs.
    + intros _. by rewrite Hk, <- app_assoc.
    + rewrite Hk. apply prefix_app. by apply prefix_cons, prefix_nil.
  - destruct (items (chan b)) as [|e l] eqn:El.
    + rewrite (recv_empty _ El). destruct (senders b); [done|]. intros [= <-].
      constructor; cbn; rewrite ?El, ?app_nil_r in *; done.
    + destruct (recv_head _ _ _ El) as (H1 & H2 & H3).
      destruct (try_recv (chan b)) as [[e'|] c]; cbn in *; [|done]. injection H1 as ->. intros [= <-].
      constructor; cbn; rewrite ?app_nil_r, ?H2, ?H3; cbn in *; try done; lia.
Qed.

Lemma exec_h_inv cap s0 a bh bh' : exec_h a bh = Some bh' -> bus_inv cap s0 bh -> bus_inv cap s0 bh'.
Proof.
  destruct bh as [b h]. unfold exec_h. cbn [fst snd]. intros Hx Hinv.
  destruct (bus_exec a b) as [b'|] eqn:E; [|done]. cbn in Hx. injection Hx as <-.
  destruct a as [e| | |]; cbn in E.
  - destruct (senders b); [|done]. injection E as <-. by apply bus_publish_inv.
  - injection E as <-. destruct Hinv. by constructor.
  - by eapply drain_inv.
  - unfold worker_panic in E. destruct (alive b) eqn:Ea; [|done]. destruct (in_hand b) eqn:Eh; [|done].
    injection E as <-. destruct Hinv as [Hc Hb Hs Hk Hp Ho Hd He Hn]. by constructor.
Qed.

Lemma bus_reachable_inv cap s0 bh : rtc (exec_step exec_h) (fresh cap s0) bh -> bus_inv cap s0 bh.
Proof.
  intros Hr. eapply rtc_invariant; [|exact Hr|apply fresh_inv].
  intros x y [a Ha] Hx. by eapply exec_h_inv.
Qed.

(** [C21] The bus under every interleaving of publishers and worker, a worker that panics
    included: publishing is never blocked while a publisher lives; the channel stays within
    its capacity; the sink has processed a prefix of the accepted events, in the order they
    were published; as long as the worker did not panic every accepted event is delivered, in
    hand or queued; and [dropped_total] counts exactly the events that were not accepted. *)
Theorem bus_accounting cap s0 b h :
  rtc (exec_step exec_h) (fresh cap s0) (b, h) ->
  (forall e, senders b = true -> is_Some (bus_exec (ActPublish e) b)) /\
  (length (items (chan b)) <= cap)%nat /\
  sink b = foldl (fun s e => publish e s) s0 (delivered h) /\
  delivered h `prefix_of` accepted h /\ accepted h `sublist_of` offered h /\
  (panicked h = false -> accepted h = delivered h ++ option_list (in_hand b) ++ items (chan b)) /\
  (Z.of_nat (length (offered h)) < 2 ^ 64 ->
   dropped_total b = Z.of_nat (length (offered h)) - Z.of_nat (length (accepted h))).
Proof.
  intros [Hc Hb Hs Hk Hp Ho Hd He Hn]%bus_reachable_inv. cbn in *. repeat split; try done.
  - intros e ->. by eexists.
  - intros Hlt. unfold dropped_total. rewrite Hd. apply wrap_small. unfold in_uint.
    apply sublist_length in Ho. lia.
Qed.

(** ** Shutdown *)

(** The worker on its own, for at most [n] steps. *)
Fixpoint worker_run (n : nat) b : BusState Q S :=
  match n with
  | O => b
  | Datatypes.S n => match drain_step b with Some b => worker_run n b | None => b end
  end.

Definition backlog b : list ObservabilityEvent := option_list (in_hand b) ++ items (chan b).

Definition work_left b : nat := 2 * length (items (chan b)) + length (option_list (in_hand b)) + 1.

Lemma worker_run_drains n b :
  alive b = true -> senders b = false -> (work_left b <= n)%nat ->
  alive (worker_run n b) = false /\ sink (worker_run n b) = foldl (fun s e => publish e s) (sink b) (backlog b).
Proof.
  revert b. induction n as [|n IH]; intros b Ha Hs Hn; unfold work_left in *; [lia|].
  cbn [worker_run]. unfold drain_step, backlog. rewrite Ha.
  destruct (in_hand b) as [e|] eqn:Eh; cbn [length] in *.
  - destruct (IH (mkBus (chan b) (senders b) (dropped b) true None (publish e (sink b)))) as [H1 H2];
      [done|done|unfold work_left; cbn in Hn |- *; lia|]. split; [done|]. rewrite H2. done.
  - destruct (items (chan b)) as [|e l] eqn:El.
    + rewrite (recv_empty _ El), Hs. destruct n; done.
    + destruct (recv_head _ _ _ El) as (H1 & H2 & H3).
      destruct (try_recv (chan b)) as [[e'|] c]; cbn in *; [|done]. injection H1 as ->.
      destruct (IH (mkBus c (senders b) (dropped b) true (Some e) (sink b))) as [H4 H5];
        [done|done|unfold work_left; cbn; rewrite H2; lia|].
      split; [done|]. rewrite H5. unfold backlog. cbn. by rewrite H2.
Qed.

Lemma bus_drained cap s0 b h n :
  rtc (exec_step exec_h) (fresh cap s0) (b, h) -> panicked h = false -> senders b = false ->
  (work_left b <= n)%nat ->
  alive (worker_run n b) = false /\
  sink (worker_run n b) = foldl (fun s e => publish e s) s0 (accepted h).
Proof.
  intros [Hc Hb Hs Hk Hp Ho Hd He Hn]%bus_reachable_inv Hpk Hsend Hleft. cbn in *. rewrite (Hk Hpk).
  destruct (alive b) eqn:Ea.
  - destruct (worker_run_drains n b Ea Hsend Hleft) as [H1 H2]. split; [done|].
    rewrite H2, Hs, <- foldl_app. done.
  - destruct (He eq_refl) as [Hh Hi]. rewrite Hh, (Hi Hpk), !app_nil_r, <- Hs.
    assert (worker_run n b = b) as -> by (destruct n; cbn; [done|]; unfold drain_step; by rewrite Ea).
    done.
Qed.

(** Once every publisher is gone, the worker (its sink not panicking) exits after
    finitely many steps of its own, and the sink has then processed exactly the accepted
    events, in order. *)
Theorem bus_drains_on_shutdown cap s0 b h n :
  rtc (exec_step exec_h) (fresh cap s0) (b, h) -> panicked h = false -> senders b = false ->
  (work_left b <= n)%nat ->
  alive (worker_run n b) = false /\
  sink (worker_run n b) = foldl (fun s e => publish e s) s0 (accepted h).
Proof. apply bus_drained. Qed.
End bus_proofs.

(** ** Fan-out *)

(** Every inner sink of a [MultiSink] gets every event, in registration order: the fan-out of
    two vectors of sinks is one after the other, and independent sinks each see the whole
    stream. *)
Lemma multi_publish_app {W} (s1 s2 : list (ObservabilityEvent -> W -> W)) e w :
  multi_publish (mkMulti (s1 ++ s2)) e w = multi_publish (mkMulti s2) e (multi_publish (mkMulti s1) e w).
Proof. unfold multi_publish. cbn. by rewrite foldl_app. Qed.

Definition on_index {S} `{ObservabilitySink S} (i : nat) (e : ObservabilityEvent) (w : list S) : list S :=
  alter (publish e) i w.

Lemma on_index_loop {S} `{ObservabilitySink S} e (ids : list nat) (w : list S) j :
  NoDup ids ->
  foldl (fun w s => s e w) w (on_index <$> ids) !! j =
    if decide (j ∈ ids) then publish e <$> w !! j else w !! j.
Proof.
  revert w. induction ids as [|i ids IH]; intros w Hnd; cbn.
  { by rewrite decide_False by set_solver. }
  inversion_clear Hnd as [|? ? Hi Hnd']. rewrite IH by done. unfold on_index at 1 2.
  destruct (decide (j = i)) as [->|Hne].
  - rewrite decide_False by done. rewrite decide_True by set_solver. by rewrite list_lookup_alter_eq.
  - rewrite list_lookup_alter_ne by done. repeat case_decide; set_solver.
Qed.

Theorem multi_sink_fans_out {S} `{ObservabilitySink S} (w : list S) (es : list ObservabilityEvent) :
  foldl (fun w e => multi_publish (mkMulti (on_index <$> seq 0 (length w))) e w) w es =
  (fun s => foldl (fun s e => publish e s) s es) <$> w.
Proof.
  enough (Hn : forall n w, n = length w ->
    foldl (fun w e => multi_publish (mkMulti (on_index <$> seq 0 (length w))) e w) w es =
    (fun s => foldl (fun s e => publish e s) s es) <$> w) by by eapply Hn.
  induction es as [|e es IH]; intros n w' Hn; cbn [foldl].
  { symmetry. by rewrite list_fmap_id. }
  assert (Hstep : multi_publish (mkMulti (on_index <$> seq 0 (length w'))) e w' = publish e <$> w').
  { apply list_eq. intros j. unfold multi_publish. cbn [sinks]. rewrite on_index_loop by apply NoDup_seq.
    rewrite list_lookup_fmap. case_decide as Hj; [done|]. rewrite lookup_ge_None_2; [done|].
    rewrite elem_of_seq in Hj. lia. }
  rewrite Hstep, (IH n) by by rewrite length_fmap. rewrite <- list_fmap_compose. done.
Qed.

(** ** The JSON line *)

Definition keys (fields : list (string * Json)) : list string := fields.*1.

(** Span and metric lines have distinct keys; the line of a [Profile] event carries [kind]
    twice, because the flattened body has a field of the envelope's name. *)
Theorem json_line_keys e :
  NoDup (keys (envelope_fields (envelope_of e))) <-> match e with Profile _ _ => False | _ => True end.
Proof.
  destruct e; cbn; split; intros Hx; try done; try (by apply (bool_decide_unpack _); vm_compute).
  inversion Hx as [|? ? Hin _]. apply Hin. by left.
Qed.

(** ** Concrete runs: a channel of two, three counters published, the worker busy *)

Definition tick_event (n : Z) : ObservabilityEvent := Counter "ticks" n Labels_new.

Definition demo_acts : list bus_act :=
  [ActPublish (tick_event 1); ActPublish (tick_event 2); ActPublish (tick_event 3); ActDrain;
   ActPublish (tick_event 4); ActDrain; ActDropSenders].

Definition demo_bus : BusState (list_chan ObservabilityEvent) InMemorySink * history :=
  default (fresh 2 (mkMemSink [])) (exec_run exec_h demo_acts (fresh 2 (mkMemSink []))).

Lemma demo_bus_reachable : rtc (exec_step exec_h) (fresh 2 (mkMemSink [])) demo_bus.
Proof. apply (exec_run_rtc _ demo_acts). by vm_compute. Qed.

Lemma bus_accounting_witness :
  dropped_total (fst demo_bus) = 1 /\
  accepted (snd demo_bus) = tick_event <$> [1; 2; 4] /\ mem_events (sink (fst demo_bus)) = [tick_event 1].
Proof.
  destruct (bus_accounting 2 (mkMemSink []) (fst demo_bus) (snd demo_bus)) as (_ & _ & Hs & _ & _ & _ & Hd).
  - rewrite <- surjective_pairing. exact demo_bus_reachable.
  - split; [rewrite Hd; by vm_compute|]. split; [by vm_compute|]. rewrite Hs. by vm_compute.
Defined.

Lemma bus_drains_on_shutdown_witness :
  mem_events (sink (worker_run 5 (fst demo_bus))) = tick_event <$> [1; 2; 4].
Proof.
  destruct (bus_drains_on_shutdown 2 (mkMemSink []) (fst demo_bus) (snd demo_bus) 5) as [_ Hs].
  - rewrite <- surjective_pairing. exact demo_bus_reachable.
  - by vm_compute.
  - by vm_compute.
  - vm_compute. lia.
  - rewrite Hs. by vm_compute.
Defined.
