(* ===== verification/TokenLevel.v ===== *)
(** * TokenLevel: the token metrics of [riftgate-obs/src/token_level]

    The reservoir of Vitter's Algorithm R ([reservoir.rs]) and the per-dimension aggregator
    with its cardinality cap ([mod.rs]).  A draw of the random generator is an argument; the
    histogram crate is a parameter. *)

From Stdlib Require Import String.
From S2P Require Import Prelude.

#[local] Open Scope string_scope.
#[local] Open Scope list_scope.
#[local] Open Scope Z_scope.

(** ** The reservoir *)

Record VitterReservoir (T : Type) := mkReservoir {
  res_capacity : nat;
  res_items : list T;
  res_count : Z;
}.
Arguments mkReservoir {T}.
Arguments res_capacity {T}.
Arguments res_items {T}.
Arguments res_count {T}.

Definition reservoir_new {T} (cap : nat) : VitterReservoir T := mkReservoir cap [] 0.

(** [add]: [j] is what [gen_range(0..n)] returns; [u64] counts do not overflow here. *)
Definition reservoir_add {T} (j : nat) (item : T) (r : VitterReservoir T) : VitterReservoir T :=
  let n := res_count r + 1 in
  if n <=? Z.of_nat (res_capacity r) then mkReservoir (res_capacity r) (res_items r ++ [item]) n
  else if (j <? res_capacity r)%nat then mkReservoir (res_capacity r) (<[j := item]> (res_items r)) n
  else mkReservoir (res_capacity r) (res_items r) n.

Definition samples {T} (r : VitterReservoir T) : list T := res_items r.
Definition total_count {T} (r : VitterReservoir T) : Z := res_count r.

(** ** The aggregator *)

Record TokenDimension := mkDimension { dim_tenant : string; dim_model : string; dim_route : string }.

#[global] Instance TokenDimension_eq_dec : EqDecision TokenDimension.
Proof. solve_decision. Defined.

#[global] Instance TokenDimension_countable : Countable TokenDimension.
Proof.
  apply (inj_countable' (fun d => (dim_tenant d, dim_model d, dim_route d))
    (fun t => let '(a, b, c) := t in mkDimension a b c)).
  by intros [].
Defined.

Definition other_dimension : TokenDimension := mkDimension "other" "other" "other".

Section aggregator.
(** The histogram: [record] ignores its error, as the source does. *)
Context {H : Type} (h_new : H) (h_record : Z -> H -> H) (value_at_percentile : Z -> H -> Z).

Record DimensionMetrics := mkMetrics {
  ttft_histogram : H;
  inter_token_histogram : H;
  ttft_reservoir : VitterReservoir Z;
  inter_token_reservoir : VitterReservoir Z;
}.

Definition metrics_new (cap : nat) : DimensionMetrics :=
  mkMetrics h_new h_new (reservoir_new cap) (reservoir_new cap).

Definition metrics_record_ttft (j : nat) (us : Z) (m : DimensionMetrics) : DimensionMetrics :=
  mkMetrics (h_record us (ttft_histogram m)) (inter_token_histogram m)
    (reservoir_add j us (ttft_reservoir m)) (inter_token_reservoir m).

Definition metrics_record_inter_token (j : nat) (us : Z) (m : DimensionMetrics) : DimensionMetrics :=
  mkMetrics (ttft_histogram m) (h_record us (inter_token_histogram m)) (ttft_reservoir m)
    (reservoir_add j us (inter_token_reservoir m)).

Record TokenLevelAggregator := mkAggregator {
  dimensions : gmap TokenDimension DimensionMetrics;
  dimension_cap : nat;
  reservoir_capacity : nat;
}.

Definition aggregator_with_capacity (cap res : nat) : TokenLevelAggregator := mkAggregator ∅ cap res.
Definition aggregator_new : TokenLevelAggregator := aggregator_with_capacity (Z.to_nat 10000) 100.

(** [record_metric]: at the cap every record goes to the fallback dimension. *)
Definition record_metric (dim : TokenDimension) (f : DimensionMetrics -> DimensionMetrics)
    (a : TokenLevelAggregator) : TokenLevelAggregator :=
  let target := if (dimension_cap a <=? size (dimensions a))%nat then other_dimension else dim in
  let entry := default (metrics_new (reservoir_capacity a)) (dimensions a !! target) in
  mkAggregator (<[target := f entry]> (dimensions a)) (dimension_cap a) (reservoir_capacity a).

Definition record_ttft (j : nat) (dim : TokenDimension) (us : Z) : TokenLevelAggregator -> TokenLevelAggregator :=
  record_metric dim (metrics_record_ttft j us).
Definition record_inter_token (j : nat) (dim : TokenDimension) (us : Z) :
    TokenLevelAggregator -> TokenLevelAggregator :=
  record_metric dim (metrics_record_inter_token j us).

Record DimensionSnapshot := mkSnapshot {
  ttft_p50 : Z; ttft_p95 : Z; ttft_p99 : Z;
  inter_token_p50 : Z; inter_token_p95 : Z; inter_token_p99 : Z;
  ttft_samples : list Z; inter_token_samples : list Z;
}.

Definition snapshot (dim : TokenDimension) (a : TokenLevelAggregator) : option DimensionSnapshot :=
  (fun m =>
     mkSnapshot (value_at_percentile 50 (ttft_histogram m)) (value_at_percentile 95 (ttft_histogram m))
       (value_at_percentile 99 (ttft_histogram m))
       (value_at_percentile 50 (inter_token_histogram m)) (value_at_percentile 95 (inter_token_histogram m))
       (value_at_percentile 99 (inter_token_histogram m))
       (samples (ttft_reservoir m)) (samples (inter_token_reservoir m))) <$> dimensions a !! dim.

Definition dimension_count (a : TokenLevelAggregator) : nat := size (dimensions a).
End aggregator.
Arguments DimensionMetrics : clear implicits.
Arguments TokenLevelAggregator : clear implicits.

(** * Proofs *)

(** ** The reservoir *)

(** Feed a stream, with the draw of each step. *)
Definition feed {T} (r : VitterReservoir T) (xs : list (nat * T)) : VitterReservoir T :=
  foldl (fun r jx => reservoir_add (fst jx) (snd jx) r) r xs.

Record reservoir_ok {T} (cap : nat) (n : nat) (r : VitterReservoir T) : Prop := {
  ro_cap : res_capacity r = cap;
  ro_count : res_count r = Z.of_nat n;
  ro_len : length (res_items r) = Nat.min n cap;
}.

Lemma reservoir_new_ok {T} cap : reservoir_ok cap 0 (reservoir_new (T := T) cap).
Proof. by constructor. Qed.

Lemma reservoir_add_ok {T} cap n j (x : T) r :
  reservoir_ok cap n r -> reservoir_ok cap (S n) (reservoir_add j x r).
Proof.
  intros [Hc Hn Hl]. unfold reservoir_add. rewrite Hc, Hn. zcases.
  - constructor; cbn [res_capacity res_count res_items]; rewrite ?length_app; cbn [length]; lia.
  - destruct (j <? cap)%nat; constructor;
      cbn [res_capacity res_count res_items]; rewrite ?length_insert; lia.
Qed.

(** The reservoir of numbers [0 .. n-1], as a list of distinct numbers below [n]. *)
Record sample_of (n : nat) (l : list nat) : Prop := {
  so_nodup : NoDup l;
  so_below : Forall (fun t => t < n)%nat l;
}.

Lemma sample_insert n l j : sample_of n l -> sample_of (S n) (<[j := n]> l).
Proof.
  intros [Hnd Hb]. split.
  - apply NoDup_alt. intros a b t Ha Hb'.
    assert (Hn : forall i, l !! i <> Some n).
    { intros i Hi. apply (Forall_lookup_1 _ _ _ _ Hb) in Hi. lia. }
    apply list_lookup_insert_Some in Ha as [(<- & <- & _)|[Hja Ha]];
      apply list_lookup_insert_Some in Hb' as [(<- & Ht & _)|[Hjb Hb']]; try done.
    + by apply Hn in Hb'.
    + subst. by apply Hn in Ha.
    + by eapply NoDup_lookup.
  - apply Forall_forall. intros t Ht. apply elem_of_list_insert in Ht as [->|Ht]; [lia|].
    apply (proj1 (Forall_forall _ _) Hb) in Ht. lia.
Qed.

Lemma sample_weaken n l : sample_of n l -> sample_of (S n) l.
Proof. intros [? Hb]. split; [done|]. eapply Forall_impl; [exact Hb|]. cbn. lia. Qed.

Lemma sample_snoc n l : sample_of n l -> sample_of (S n) (l ++ [n]).
Proof.
  intros [Hnd Hb]. split.
  - apply NoDup_app. split; [done|]. split; [|apply NoDup_singleton].
    intros t Ht ->%list_elem_of_singleton. apply (proj1 (Forall_forall _ _) Hb) in Ht. lia.
  - apply Forall_app. split; [|by repeat constructor]. eapply Forall_impl; [exact Hb|]. cbn. lia.
Qed.

Lemma reservoir_add_sample cap n j r :
  reservoir_ok cap n r -> sample_of n (res_items r) -> sample_of (S n) (res_items (reservoir_add j n r)).
Proof.
  intros _ Hs. unfold reservoir_add. repeat case_match; cbn;
    [by apply sample_snoc|by apply sample_insert|by apply sample_weaken].
Qed.

(** All runs over the stream [0, 1, ..., n-1]: one for each sequence of draws, the draw of
    step [i] ranging over [0 .. i]. *)
Fixpoint outcomes (cap n : nat) : list (VitterReservoir nat) :=
  match n with
  | O => [reservoir_new cap]
  | S n => r ← outcomes cap n; (fun j => reservoir_add j n r) <$> seq 0 (S n)
  end.

Definition holds (t : nat) (r : VitterReservoir nat) : Prop := t ∈ res_items r.

#[global] Instance holds_dec t r : Decision (holds t r).
Proof. unfold holds. apply _. Defined.

Definition hits (cap n t : nat) : nat := length (filter (holds t) (outcomes cap n)).

Lemma outcomes_inv cap n :
  Forall (fun r => reservoir_ok cap n r /\ sample_of n (res_items r)) (outcomes cap n).
Proof.
  induction n as [|n IH]; cbn [outcomes].
  - constructor; [|constructor]. split; [apply reservoir_new_ok|]. by split; constructor.
  - apply Forall_bind. eapply Forall_impl; [exact IH|]. intros r [Hok Hs]. apply Forall_fmap, Forall_forall.
    intros j _. split; [by apply reservoir_add_ok|by eapply reservoir_add_sample].
Qed.

Lemma outcomes_length cap n : length (outcomes cap (S n)) = (S n * length (outcomes cap n))%nat.
Proof.
  cbn [outcomes]. induction (outcomes cap n) as [|r l IH]; [cbn; lia|].
  rewrite bind_cons, length_app, IH, length_fmap, length_seq. cbn [length]. lia.
Qed.

Lemma filter_bind_count {A B} (P : A -> Prop) (R : B -> Prop) `{!forall x, Decision (P x), !forall x, Decision (R x)}
    (f : A -> list B) (l : list A) (c : nat) :
  Forall (fun x => length (filter R (f x)) = if decide (P x) then c else 0%nat) l ->
  length (filter R (l ≫= f)) = (c * length (filter P l))%nat.
Proof.
  induction 1 as [|x l Hx Hl IH]; cbn [mbind list_bind]; [cbn; lia|].
  rewrite filter_app, length_app, Hx, filter_cons. fold (l ≫= f). rewrite IH.
  case_decide; cbn [length]; lia.
Qed.

Lemma filter_fmap_count {A B} (R : B -> Prop) `{!forall x, Decision (R x)} (f : A -> B) (l : list A) :
  length (filter R (f <$> l)) = length (filter (fun x => R (f x)) l).
Proof.
  induction l as [|x l IH]; [done|]. cbn [fmap list_fmap]. rewrite !filter_cons. fold (f <$> l).
  case_decide; cbn [length]; by rewrite IH.
Qed.

Lemma count_below cap m : (cap <= m)%nat -> length (filter (fun j => j < cap)%nat (seq 0 m)) = cap.
Proof.
  intros Hm. replace m with (cap + (m - cap))%nat by lia. rewrite seq_app, filter_app, length_app.
  rewrite filter_all by (apply Forall_seq; lia).
  rewrite filter_none by (apply Forall_seq; lia). rewrite length_seq. cbn. lia.
Qed.

Lemma count_other p m : (p < m)%nat -> length (filter (fun j => j <> p) (seq 0 m)) = (m - 1)%nat.
Proof.
  intros Hp. replace m with (p + (1 + (m - p - 1)))%nat by lia.
  rewrite !seq_app, !filter_app, !length_app.
  rewrite filter_all by (apply Forall_seq; lia).
  rewrite (filter_all _ (seq (0 + p + 1) _)) by (apply Forall_seq; lia).
  rewrite filter_none by (apply Forall_seq; lia). rewrite !length_seq. cbn. lia.
Qed.

(** One step of a full reservoir: each held item survives all draws but one, the new item
    enters with [cap] draws. *)
Lemma step_count cap n t r :
  reservoir_ok cap n r -> sample_of n (res_items r) -> (cap <= n)%nat -> (t <= n)%nat ->
  length (filter (holds t) ((fun j => reservoir_add j n r) <$> seq 0 (S n))) =
    if decide (t = n) then cap else if decide (holds t r) then n else 0%nat.
Proof.
  intros [Hc Hn Hl] [Hnd Hb] Hcap Ht. rewrite filter_fmap_count.
  assert (Hstep : forall j, res_items (reservoir_add j n r) =
    if decide (j < cap)%nat then <[j := n]> (res_items r) else res_items r).
  { intros j. unfold reservoir_add. rewrite Hc, Hn. zcases; [lia|].
    destruct (Nat.ltb_spec j cap); case_decide; try lia; done. }
  assert (Hnew : n ∉ res_items r).
  { intros Hin. apply (proj1 (Forall_forall _ _) Hb) in Hin. lia. }
  destruct (decide (t = n)) as [->|Hne].
  - transitivity (length (filter (fun j => j < cap)%nat (seq 0 (S n)))); [|apply count_below; lia]. f_equal. apply list_filter_iff. intros j.
    unfold holds. rewrite Hstep. case_decide; [|done]. split; [done|intros _].
    apply list_elem_of_lookup. exists j. apply list_lookup_insert_eq. lia.
  - destruct (decide (holds t r)) as [Hin|Hout].
    + apply list_elem_of_lookup in Hin as [p Hp]. pose proof (lookup_lt_Some _ _ _ Hp) as Hlt.
      transitivity (S n - 1)%nat; [|lia].
      rewrite <- (count_other p (S n)) by lia. f_equal. apply list_filter_iff. intros j.
      unfold holds. rewrite Hstep. destruct (decide (j < cap)%nat) as [Hj|Hj].
      * split.
        -- intros (k & Hk)%list_elem_of_lookup ->.
           apply list_lookup_insert_Some in Hk as [(_ & ? & _)|[Hne' Hk]]; [done|].
           by apply Hne', (NoDup_lookup _ _ _ _ Hnd Hp Hk).
        -- intros Hjp. apply list_elem_of_lookup. exists p. by rewrite list_lookup_insert_ne.
      * split; [lia|]. intros _. by eapply list_elem_of_lookup_2.
    + rewrite filter_none; [done|]. apply Forall_forall. intros j _. unfold holds. rewrite Hstep.
      case_decide; [|done]. intros [?|?]%elem_of_list_insert; done.
Qed.

(** A reservoir that is not over full holds everything. *)
Lemma holds_all cap n r t :
  reservoir_ok cap n r -> sample_of n (res_items r) -> (n <= cap)%nat -> (t < n)%nat -> holds t r.
Proof.
  intros [_ _ Hl] [Hnd Hb] Hcap Ht. unfold holds.
  assert (Hp : res_items r ≡ₚ seq 0 n).
  { apply submseteq_length_Permutation.
    - apply NoDup_submseteq; [done|]. intros x Hx. apply (proj1 (Forall_forall _ _) Hb) in Hx.
      apply elem_of_seq. lia.
    - rewrite length_seq, Hl. lia. }
  rewrite Hp. apply elem_of_seq. lia.
Qed.

(** [C25] Algorithm R samples uniformly: over all equally likely sequences of draws, every item of
    a stream of [n] items is in the reservoir of capacity [cap <= n] in exactly the fraction
    [cap / n] of the runs. *)
Theorem reservoir_uniform cap n t :
  (cap <= n)%nat -> (t < n)%nat -> (hits cap n t * n = cap * length (outcomes cap n))%nat.
Proof.
  intros Hcap. revert t. induction Hcap as [|n Hcap IH]; intros t Ht.
  - unfold hits. rewrite filter_all; [lia|]. eapply Forall_impl; [apply outcomes_inv|].
    intros r [Hok Hs]. by eapply holds_all.
  - rewrite outcomes_length. unfold hits. cbn [outcomes].
    pose proof (outcomes_inv cap n) as Hinv.
    destruct (decide (t = n)) as [->|Hne].
    + rewrite (filter_bind_count (fun _ => True) _ _ _ cap).
      * rewrite (filter_all (fun _ => True)) by by apply Forall_true. lia.
      * eapply Forall_impl; [exact Hinv|]. intros r [Hok Hs].
        rewrite (step_count cap n n r) by (done || lia). by rewrite decide_True.
    + rewrite (filter_bind_count (holds t) _ _ _ n).
      * fold (hits cap n t). rewrite <- (Nat.mul_comm (S n)). pose proof (IH t ltac:(lia)) as Hu. nia.
      * eapply Forall_impl; [exact Hinv|]. intros r [Hok Hs].
        rewrite (step_count cap n t r) by (done || lia). by rewrite decide_False.
Qed.

Lemma reservoir_uniform_witness : (hits 2 4 0 * 4 = 2 * 24)%nat.
Proof. apply (reservoir_uniform 2 4 0); lia. Defined.

(** Whatever the draws: the reservoir holds [min n cap] items, all of them from the stream. *)
Theorem reservoir_bounded {T} cap (xs : list (nat * T)) :
  let r := feed (reservoir_new cap) xs in
  length (samples r) = Nat.min (length xs) cap /\ total_count r = Z.of_nat (length xs) /\
  forall x, x ∈ samples r -> x ∈ xs.*2.
Proof.
  enough (H : reservoir_ok cap (length xs) (feed (reservoir_new cap) xs) /\
    forall x, x ∈ res_items (feed (reservoir_new cap) xs) -> x ∈ xs.*2)
    by (destruct H as [[Hc Hn Hl] Hin]; by repeat split).
  unfold feed. induction xs as [|[j x] xs IH] using rev_ind.
  - split; [apply reservoir_new_ok|]. by intros x ?%elem_of_nil.
  - rewrite foldl_app, length_app, fmap_app. cbn [foldl fst snd length]. destruct IH as [Hok Hin].
    split; [rewrite Nat.add_comm; by apply reservoir_add_ok|].
    intros y Hy. apply elem_of_app. revert Hy. unfold reservoir_add. repeat case_match; cbn [res_items].
    + intros [?|Hy]%elem_of_app; [left; by apply Hin|right]. apply list_elem_of_singleton in Hy as ->. set_solver.
    + intros [->|?]%elem_of_list_insert; [right; set_solver|left; by apply Hin].
    + intros ?. left. by apply Hin.
Qed.

(** ** The cardinality cap *)

Section cap.
Context {H : Type} (h_new : H) (h_record : Z -> H -> H) (vap : Z -> H -> Z).
Implicit Types a : TokenLevelAggregator H.

(** Counted without the fallback, there are never more than [dimension_cap] dimensions. *)
Definition capped a : Prop := (size (delete other_dimension (dimensions a)) <= dimension_cap a)%nat.

Lemma capped_size a : capped a -> (dimension_count a <= dimension_cap a + 1)%nat.
Proof.
  unfold capped, dimension_count. intros Hc.
  destruct (dimensions a !! other_dimension) as [m|] eqn:E.
  - pose proof (map_size_delete_Some other_dimension (dimensions a) ltac:(by eexists)).
    lia.
  - rewrite delete_id in Hc by done. lia.
Qed.

Lemma record_metric_capped dim f a : capped a -> capped (record_metric h_new dim f a).
Proof.
  unfold capped, record_metric. intros Hc. cbn [dimensions dimension_cap].
  destruct (Nat.leb_spec (dimension_cap a) (size (dimensions a))).
  - by rewrite delete_insert_eq.
  - destruct (decide (dim = other_dimension)) as [->|Hne]; [by rewrite delete_insert_eq|].
    rewrite delete_insert_ne by done.
    pose proof (map_size_insert dim (f (default (metrics_new h_new (reservoir_capacity a)) (dimensions a !! dim)))
      (delete other_dimension (dimensions a))) as Hi.
    rewrite Hi, lookup_delete_ne by done.
    destruct (dimensions a !! dim) eqn:Ed; [exact Hc|].
    assert (size (delete other_dimension (dimensions a)) <= size (dimensions a))%nat; [|lia].
    apply map_subseteq_size, delete_subseteq.
Qed.

(** The calls of the data plane. *)
Inductive token_call := RecordTtft (j : nat) (dim : TokenDimension) (us : Z)
                      | RecordInterToken (j : nat) (dim : TokenDimension) (us : Z).

Definition run_call a (c : token_call) : TokenLevelAggregator H :=
  match c with
  | RecordTtft j dim us => record_ttft h_new h_record j dim us a
  | RecordInterToken j dim us => record_inter_token h_new h_record j dim us a
  end.

(** The memory of the aggregator is bounded whatever tenants, models and routes clients
    invent: after any calls there are at most [dimension_cap + 1] dimensions, the extra one
    being the fallback. *)
Theorem dimensions_bounded cap res calls :
  let a := foldl run_call (aggregator_with_capacity cap res) calls in
  (dimension_count a <= cap + 1)%nat /\
  (dimensions a !! other_dimension = None -> (dimension_count a <= cap)%nat).
Proof.
  cbn zeta.
  assert (Ha : capped (foldl run_call (aggregator_with_capacity cap res) calls) /\
    dimension_cap (foldl run_call (aggregator_with_capacity cap res) calls) = cap).
  { induction calls as [|c calls IH] using rev_ind.
    - split; [|done]. unfold capped. cbn. rewrite delete_empty, map_size_empty. lia.
    - rewrite foldl_app. cbn [foldl]. destruct IH as [IH1 IH2].
      destruct c; (split; [by apply record_metric_capped|exact IH2]). }
  destruct Ha as [Hc Hcap]. split; [pose proof (capped_size _ Hc); lia|].
  intros Hn. unfold capped, dimension_count in *. rewrite delete_id in Hc by done. lia.
Qed.

(** Once the cap is reached, the records of a dimension that is already tracked no longer
    reach it: its snapshot is frozen and only the fallback changes. *)
Theorem known_dimension_frozen_at_cap calls a dim :
  (dimension_cap a <= dimension_count a)%nat -> dim <> other_dimension ->
  snapshot vap dim (foldl run_call a calls) = snapshot vap dim a.
Proof.
  revert a. induction calls as [|c calls IH]; intros a Hc Hd; [done|]. cbn [foldl].
  assert (Hstep : dimensions (run_call a c) !! dim = dimensions a !! dim /\
                  (dimension_cap (run_call a c) <= dimension_count (run_call a c))%nat).
  { unfold dimension_count in *. destruct c; cbn -[size]; rewrite (proj2 (Nat.leb_le _ _) Hc);
      (split; [by rewrite lookup_insert_ne|]);
      (etrans; [exact Hc|]; rewrite map_size_insert; destruct (dimensions a !! other_dimension); cbn; lia). }
  destruct Hstep as [H1 H2]. rewrite (IH _ H2 Hd). unfold snapshot. by rewrite H1.
Qed.
End cap.

Lemma known_dimension_frozen_at_cap_witness :
  let d := mkDimension "t" "m" "r" in
  let a := foldl (run_call 0 Z.max) (aggregator_with_capacity 1 4) [RecordTtft 0 d 5] in
  snapshot (fun _ h => h) d (foldl (run_call 0 Z.max) a [RecordTtft 0 d 900]) = snapshot (fun _ h => h) d a.
Proof. apply (known_dimension_frozen_at_cap 0 Z.max (fun _ h => h)); [by vm_compute; lia|done]. Defined.
