(* ===== verification/Mcp.v ===== *)
(** * Mcp: the capability broker of [riftgate-mcp]

    The compiled per-tenant allowlist and the [AllowlistBroker] ([allowlist.rs]), the
    audit record ([audit.rs]), the attestation headers ([attestation.rs]), the dry-run
    wrapper ([dryrun.rs]) and the request parser ([parser.rs]).

    HMAC-SHA256, SHA-256, [serde_json] and the log are parameters: [hmac], [sha256],
    [to_vec], the JSON accessors, and any instance of [WAL]. *)

From Stdlib Require Import Ascii String.
From S2P Require Import Prelude Core FileWal Capability.

#[local] Open Scope string_scope.
#[local] Open Scope list_scope.
#[local] Open Scope Z_scope.

(** ** Strings: order, prefix and trimming of [str] *)

(** [<=] on [str]: lexicographic on bytes. *)
Fixpoint str_leb (a b : string) : bool :=
  match a, b with
  | EmptyString, _ => true
  | String _ _, EmptyString => false
  | String x a, String y b =>
      (N_of_ascii x <? N_of_ascii y)%N || ((N_of_ascii x =? N_of_ascii y)%N && str_leb a b)
  end.

Definition str_le (a b : string) : Prop := str_leb a b = true.

(** [uri.starts_with(p)]. *)
Definition starts_with (uri p : string) : bool := String.prefix p uri.

(** [trim_end_matches('*')]. *)
Fixpoint trim_end_stars (s : string) : string :=
  match s with
  | EmptyString => EmptyString
  | String c s =>
      match trim_end_stars s with
      | EmptyString => if Ascii.eqb c "*" then EmptyString else String c EmptyString
      | t => String c t
      end
  end.

(** [partition_point] on a slice that [p] partitions, as the sorted vectors below are. *)
Fixpoint partition_point {A : Type} (p : A -> bool) (l : list A) : nat :=
  match l with
  | [] => 0%nat
  | x :: l => if p x then S (partition_point p l) else 0%nat
  end.

(** ** Configuration and its compiled form *)

Record TimeBoundedGrant := mkGrant { grant_tool : string; until_unix_secs : Z }.

Record TenantAllowlist := mkTenantAllowlist {
  cfg_allowed_tools : list string;
  cfg_denied_tools : list string;
  cfg_allowed_resource_prefixes : list string;
  cfg_time_bounded_grants : list TimeBoundedGrant;
}.

(** Times are nanoseconds since the Unix epoch. *)
Record CompiledAllowlist := mkCompiled {
  allowed_tools : gset string;
  denied_tools : gset string;
  resource_prefixes : list string;
  time_bounded_grants : list (Z * string);
}.

(** [UNIX_EPOCH + Duration::from_secs(n)]: panics ([None]) when the seconds of the sum
    leave [i64]. *)
Definition expiry_of (secs : Z) : option Z :=
  if secs <? 2 ^ 63 then Some (secs * 1000000000) else None.

#[global] Instance str_le_dec a b : Decision (str_le a b).
Proof. unfold str_le. apply _. Defined.

Definition grant_le (x y : Z * string) : Prop := fst x <= fst y.

#[global] Instance grant_le_dec x y : Decision (grant_le x y).
Proof. unfold grant_le. apply _. Defined.

(** [from_config]; [None] is the panic of an expiry out of range. *)
Definition from_config (cfg : TenantAllowlist) : option CompiledAllowlist :=
  let prefixes := merge_sort str_le (trim_end_stars <$> cfg_allowed_resource_prefixes cfg) in
  grants ← mapM (fun g => e ← expiry_of (until_unix_secs g); Some (e, grant_tool g))
             (cfg_time_bounded_grants cfg);
  Some (mkCompiled (list_to_set (cfg_allowed_tools cfg)) (list_to_set (cfg_denied_tools cfg))
          prefixes (merge_sort grant_le grants)).

(** Binary search past the expired grants, then scan the active ones. *)
Definition has_active_grant (c : CompiledAllowlist) (tool : string) (now : Z) : bool :=
  let active_start := partition_point (fun g => fst g <=? now) (time_bounded_grants c) in
  existsb (fun g => String.eqb (snd g) tool) (drop active_start (time_bounded_grants c)).

Definition check_tool (c : CompiledAllowlist) (tool : string) (now : Z) : option DenialReason :=
  if bool_decide (tool ∈ denied_tools c) then Some InDenylist
  else if bool_decide (tool ∈ allowed_tools c) then None
  else if has_active_grant c tool now then None
  else Some NotInAllowlist.

(** The slice indexing is in range on both sides of the disjunction. *)
Definition resource_prefix_matches (c : CompiledAllowlist) (uri : string) : bool :=
  match resource_prefixes c with
  | [] => false
  | ps =>
      let pos := partition_point (fun p => str_leb p uri) ps in
      ((0 <? pos)%nat && from_option (starts_with uri) false (ps !! (pos - 1)%nat))
      || ((pos <? length ps)%nat && from_option (starts_with uri) false (ps !! pos))
  end.

Definition check_resource (c : CompiledAllowlist) (uri : string) : option DenialReason :=
  if resource_prefix_matches c uri then None else Some NotInAllowlist.

Definition evaluate (c : CompiledAllowlist) (request : McpRequest) (now : Z) : option DenialReason :=
  match request with
  | ToolCall tool _ => check_tool c tool now
  | ResourceRead resource => check_resource c resource
  | ToolList | ResourceList | PromptList | PromptGet _ | Lifecycle _ => None
  end.

Definition request_subject (request : McpRequest) : string :=
  match request with
  | ToolCall tool _ => tool
  | ResourceRead resource => resource
  | PromptGet name => name
  | ToolList => "tools/list"
  | ResourceList => "resources/list"
  | PromptList => "prompts/list"
  | Lifecycle Initialize => "initialize"
  | Lifecycle Ping => "ping"
  | Lifecycle Shutdown => "shutdown"
  end.

(** ** Attestation *)
Section attestation.
Context (hmac : list byte -> list byte -> list byte).

(** The bytes [sign] feeds to the MAC, one [update] after the other. *)
Definition sign_message (c : TenantId) (subject : string) : list byte :=
  to_le_bytes 4 c ++ as_bytes "|" ++ as_bytes subject ++ as_bytes "|allow".

Definition sign (c : TenantId) (subject : string) (key : list byte) : AttestationHeaders :=
  mkAttestation c subject "allow" (hmac key (sign_message c subject)).

Definition verify_message (h : AttestationHeaders) : list byte :=
  to_le_bytes 4 (caller h) ++ as_bytes "|" ++ as_bytes (subject h) ++ as_bytes "|"
    ++ as_bytes (decision h).

Definition verify (h : AttestationHeaders) (key : list byte) : bool :=
  bool_decide (signature h = hmac key (verify_message h)).

(** ** Audit *)

Record AuditRecord := mkRecord {
  rec_correlation_id : string;
  rec_tenant : Z;
  rec_subject : string;
  rec_argument_hash : string;
  rec_decision : string;
  rec_timestamp_unix_secs : Z;
}.

(** [{b:02x}] of every byte. *)
Fixpoint hex_encode (bytes : list byte) : string :=
  match bytes with
  | [] => EmptyString
  | b :: bs =>
      let z := byte_to_Z b in
      String (hex_digit (z / 16)) (String (hex_digit (z mod 16)) (hex_encode bs))
  end.

(** [serde_json::to_vec] of the record; its failure becomes an [io::Error]. *)
Context (to_vec : AuditRecord -> option (list byte)).
Context {W : Type} `{WAL W}.

Definition record_of (event : McpAuditEvent) : AuditRecord :=
  mkRecord (RequestId_display (correlation_id event)) (audit_tenant event) (audit_subject event)
    (hex_encode (audit_argument_hash event))
    (match audit_decision event with AuditAllow => "allow" | AuditDeny => "deny" end)
    (Z.max 0 (audit_timestamp event) / 1000000000).

Definition audit_write (event : McpAuditEvent) (wal : W) : result unit WalError * W :=
  match to_vec (record_of event) with
  | None => (Err IoError, wal)
  | Some bytes =>
      let '(r, wal) := append (bytes ++ as_bytes (String "010" "")) Fsync wal in
      (result_bind (fun _ => Ok tt) r, wal)
  end.

(** ** The broker

    [counter] is the process-wide counter of [RequestId::next]. *)
Record AllowlistBroker := mkBroker {
  tenants : gmap Z CompiledAllowlist;
  signing_key : list byte;
  wal : W;
  counter : Z;
}.

(** [AllowlistBroker::new]; [None] is a panic while a tenant is compiled. *)
Definition broker_new (configs : gmap Z TenantAllowlist) (key : list byte) (w : W) (counter : Z) :
    option AllowlistBroker :=
  let compiled := from_config <$> configs in
  if bool_decide (map_Forall (fun _ c => is_Some c) compiled)
  then Some (mkBroker (omap id compiled) key w counter) else None.

(** [emit_audit]: a failed write is logged and dropped. *)
Definition audit_event (request : McpRequest) (identity : TenantIdentity) (d : AuditDecision)
    (now : Z) (corr : RequestId) : McpAuditEvent :=
  mkAudit corr (tenant identity) (request_subject request)
    (match request with ToolCall _ h => h | _ => replicate 32 (byte_of_Z 0) end) d now.

Definition emit_audit (request : McpRequest) (identity : TenantIdentity) (d : AuditDecision)
    (now : Z) (b : AllowlistBroker) : AllowlistBroker :=
  let '(corr, counter') := RequestId_next (counter b) in
  let '(_, w) := audit_write (audit_event request identity d now corr) (wal b) in
  mkBroker (tenants b) (signing_key b) w counter'.

Definition allowlist_authorize (now : Z) (request : McpRequest) (identity : TenantIdentity)
    (b : AllowlistBroker) : CapabilityDecision * AllowlistBroker :=
  match tenants b !! tenant identity with
  | None => (Deny TenantUnknown, emit_audit request identity AuditDeny now b)
  | Some allowlist =>
      match evaluate allowlist request now with
      | Some reason => (Deny reason, emit_audit request identity AuditDeny now b)
      | None =>
          let attestation := sign (tenant identity) (request_subject request) (signing_key b) in
          (Allow attestation, emit_audit request identity AuditAllow now b)
      end
  end.

Definition AllowlistBroker_broker : CapabilityBroker AllowlistBroker :=
  {| authorize := allowlist_authorize |}.
End attestation.
Arguments AllowlistBroker W : clear implicits.

(** ** Dry run *)

Record DryRunBroker (B : Type) := mkDryRun { dry_inner : B }.
Arguments mkDryRun {B} dry_inner.
Arguments dry_inner {B} d.

(** [dryrun.rs] has its own copy of [request_subject]. *)
Definition dryrun_request_subject (request : McpRequest) : string :=
  match request with
  | ToolCall tool _ => tool
  | ResourceRead resource => resource
  | PromptGet name => name
  | ToolList => "tools/list"
  | ResourceList => "resources/list"
  | PromptList => "prompts/list"
  | Lifecycle Initialize => "initialize"
  | Lifecycle Ping => "ping"
  | Lifecycle Shutdown => "shutdown"
  end.

Definition dryrun_authorize {B : Type} `{CapabilityBroker B} (now : Z) (request : McpRequest)
    (identity : TenantIdentity) (d : DryRunBroker B) : CapabilityDecision * DryRunBroker B :=
  let '(inner_decision, inner) := authorize now request identity (dry_inner d) in
  match inner_decision with
  | Allow a => (Allow a, mkDryRun inner)
  | Deny _ =>
      (Allow (mkAttestation (tenant identity) (dryrun_request_subject request) "allow-dry-run"
                (replicate 32 (byte_of_Z 0))), mkDryRun inner)
  end.

#[global] Instance DryRunBroker_broker {B : Type} `{CapabilityBroker B} :
  CapabilityBroker (DryRunBroker B) := {| authorize := dryrun_authorize |}.

(** ** The request parser *)

Inductive McpParseError :=
| Json
| BadVersion (v : string)
| UnknownMethod (m : string)
| MissingField (method field : string).

Section parser.
(** [serde_json::Value] with the accessors the parser calls, and SHA-256. *)
Context {Value : Type} (Null : Value) (get : Value -> string -> option Value)
        (as_str : Value -> option string) (value_to_vec : Value -> option (list byte))
        (sha256 : list byte -> list byte).

Record JsonRpcEnvelope := mkEnvelope { jsonrpc : string; method : string; params : Value }.

Context (from_slice : list byte -> option JsonRpcEnvelope).

Definition string_field (params : Value) (method field : string) : result string McpParseError :=
  match get params field ≫= as_str with
  | Some s => Ok s
  | None => Err (MissingField method field)
  end.

Definition sha256_of_value (v : Value) : list byte := sha256 (default [] (value_to_vec v)).

Definition parse (body : list byte) : result McpRequest McpParseError :=
  match from_slice body with
  | None => Err Json
  | Some env =>
      if negb (String.eqb (jsonrpc env) "2.0") then Err (BadVersion (jsonrpc env))
      else if String.eqb (method env) "tools/call" then
        result_bind (fun name =>
          let args := default Null (get (params env) "arguments") in
          Ok (ToolCall name (sha256_of_value args)))
          (string_field (params env) "tools/call" "name")
      else if String.eqb (method env) "tools/list" then Ok ToolList
      else if String.eqb (method env) "resources/read" then
        result_bind (fun uri => Ok (ResourceRead uri)) (string_field (params env) "resources/read" "uri")
      else if String.eqb (method env) "resources/list" then Ok ResourceList
      else if String.eqb (method env) "prompts/get" then
        result_bind (fun name => Ok (PromptGet name)) (string_field (params env) "prompts/get" "name")
      else if String.eqb (method env) "prompts/list" then Ok PromptList
      else if String.eqb (method env) "initialize" then Ok (Lifecycle Initialize)
      else if String.eqb (method env) "ping" then Ok (Lifecycle Ping)
      else if String.eqb (method env) "shutdown" then Ok (Lifecycle Shutdown)
      else Err (UnknownMethod (method env))
  end.
End parser.

(** * Proofs *)

(** ** The order on strings *)

Lemma str_leb_refl a : str_leb a a = true.
Proof. induction a as [|x a IH]; cbn; [done|]. rewrite N.eqb_refl, IH. apply orb_true_r. Qed.

Lemma str_leb_cons x a y b :
  str_leb (String x a) (String y b) = true <->
  (N_of_ascii x < N_of_ascii y)%N \/ (x = y /\ str_leb a b = true).
Proof.
  cbn. rewrite orb_true_iff, andb_true_iff, N.ltb_lt, N.eqb_eq. split.
  - intros [?|[Hxy ?]]; [by left|right]. split; [|done].
    by rewrite <- (ascii_N_embedding x), Hxy, ascii_N_embedding.
  - intros [?|[-> ?]]; [by left|by right].
Qed.

#[global] Instance str_le_trans : Transitive str_le.
Proof.
  unfold str_le. intros a b c. revert b c. induction a as [|x a IH]; intros b c Hab Hbc; [done|].
  destruct b as [|y b]; [done|]. destruct c as [|z c]; [done|].
  apply str_leb_cons in Hab, Hbc. apply str_leb_cons.
  destruct Hab as [?|[-> Hab]], Hbc as [?|[-> Hbc]]; eauto with lia.
Qed.

#[global] Instance str_le_total : Total str_le.
Proof.
  unfold str_le. intros a. induction a as [|x a IH]; intros b; [by left|]. destruct b as [|y b]; [by right|].
  rewrite !str_leb_cons. destruct (N.lt_trichotomy (N_of_ascii x) (N_of_ascii y)) as [?|[Heq|?]]; auto.
  assert (x = y) as -> by (by rewrite <- (ascii_N_embedding x), Heq, ascii_N_embedding).
  destruct (IH b); auto.
Qed.

Lemma str_le_antisym a b : str_le a b -> str_le b a -> a = b.
Proof.
  unfold str_le. revert b. induction a as [|x a IH]; intros [|y b] Hab Hba; try done.
  apply str_leb_cons in Hab, Hba. destruct Hab as [?|[-> ?]], Hba as [?|[? ?]]; try lia.
  - subst. lia.
  - f_equal. auto.
Qed.

#[global] Instance grant_le_trans : Transitive grant_le.
Proof. unfold grant_le. intros x y z. lia. Qed.

#[global] Instance grant_le_total : Total grant_le.
Proof. unfold grant_le. intros x y. lia. Qed.

(** ** Prefixes *)

Lemma starts_with_cons x p c u :
  starts_with (String c u) (String x p) = true <-> x = c /\ starts_with u p = true.
Proof. unfold starts_with. cbn. destruct (ascii_dec x c) as [-> |]; [tauto|]. split; [done|tauto]. Qed.

(** A prefix is not after the string. *)
Lemma starts_with_le u p : starts_with u p = true -> str_le p u.
Proof.
  revert u. induction p as [|x p IH]; intros u; [done|]. destruct u as [|c u]; [done|].
  rewrite starts_with_cons. intros [-> Hp]. apply str_leb_cons. right. split; [done|]. by apply IH.
Qed.

(** What lies between a prefix of [u] and [u] extends the prefix. *)
Lemma between_prefix u p q : starts_with u p = true -> str_le p q -> str_le q u -> starts_with q p = true.
Proof.
  unfold str_le. revert u q. induction p as [|x p IH]; intros u q Hp Hpq Hqu; [by destruct q|].
  destruct u as [|c u]; [done|]. destruct q as [|y q]; [done|].
  apply starts_with_cons in Hp as [-> Hp]. apply starts_with_cons.
  apply str_leb_cons in Hpq, Hqu.
  destruct Hpq as [?|[-> Hpq]], Hqu as [?|[Heq Hqu]]; subst; try lia.
  split; [done|]. by apply (IH u).
Qed.

(** ** [partition_point] *)

Lemma partition_before {A} (p : A -> bool) l i x :
  (i < partition_point p l)%nat -> l !! i = Some x -> p x = true.
Proof.
  revert i. induction l as [|y l IH]; intros i; cbn; [lia|]. destruct (p y) eqn:Ey; [|lia].
  destruct i as [|i]; cbn; [by intros _ [= <-]|]. intros ?. apply IH. lia.
Qed.

Lemma partition_le {A} (p : A -> bool) l : (partition_point p l <= length l)%nat.
Proof. induction l as [|y l IH]; cbn; [lia|]. destruct (p y); lia. Qed.

Section sorted.
Context {A : Type} (R : A -> A -> Prop) (p : A -> bool).
Context (Hdown : forall x y, R x y -> p y = true -> p x = true).

Lemma sorted_lookup l i j x y :
  StronglySorted R l -> (i < j)%nat -> l !! i = Some x -> l !! j = Some y -> R x y.
Proof.
  intros Hs. revert i j. induction Hs as [|z l Hs IH Hz]; intros i j Hij Hi Hj; [done|].
  destruct j as [|j]; [lia|]. destruct i as [|i]; cbn in Hi, Hj.
  - injection Hi as <-. rewrite Forall_forall in Hz. apply Hz. by eapply list_elem_of_lookup_2.
  - apply (IH i j); [lia|done|done].
Qed.

(** On a sorted list the elements past the partition point are the ones that fail. *)
Lemma partition_drop l x :
  StronglySorted R l -> x ∈ drop (partition_point p l) l <-> x ∈ l /\ p x = false.
Proof.
  induction 1 as [|y l Hs IH Hy]; cbn.
  { split; [by intros ?%elem_of_nil|by intros [?%elem_of_nil _]]. }
  destruct (p y) eqn:Ey; cbn.
  - rewrite IH, elem_of_cons. split; [tauto|]. intros [[->|?] ?]; [congruence|done].
  - split; [|tauto]. intros Hx. split; [done|]. apply elem_of_cons in Hx as [->|Hx]; [done|].
    rewrite Forall_forall in Hy. destruct (p x) eqn:Ex; [|done]. rewrite (Hdown y x) in Ey; auto.
Qed.

(** An element that holds is followed, up to the partition point, by a last one. *)
Lemma partition_last `{!Reflexive R} l x :
  StronglySorted R l -> x ∈ l -> p x = true ->
  exists y, (0 < partition_point p l)%nat /\ l !! (partition_point p l - 1)%nat = Some y /\ R x y /\ p y = true.
Proof.
  intros Hs (i & Hi)%list_elem_of_lookup Hpx.
  assert (Hlt : (i < partition_point p l)%nat).
  { destruct (decide (i < partition_point p l)%nat) as [|Hn]; [done|]. exfalso.
    assert (Hin : x ∈ drop (partition_point p l) l).
    { apply list_elem_of_lookup. exists (i - partition_point p l)%nat. rewrite lookup_drop.
      by replace (partition_point p l + (i - partition_point p l))%nat with i by lia. }
    apply partition_drop in Hin as [_ ?]; [congruence|done]. }
  pose proof (partition_le p l).
  destruct (lookup_lt_is_Some_2 l (partition_point p l - 1)) as [y Hy]; [lia|].
  exists y. split_and!; [lia|done| |].
  - destruct (decide (i = partition_point p l - 1)%nat) as [He|]; [by simplify_eq/=|].
    apply (sorted_lookup l i (partition_point p l - 1)); [done|lia|done|done].
  - eapply partition_before; [|done]. lia.
Qed.
End sorted.

(** ** The compiled allowlist *)

(** What [from_config] establishes; it fixes neither sort's order on ties. *)
Record compiled_ok (cfg : TenantAllowlist) (c : CompiledAllowlist) : Prop := {
  co_allowed : forall t, t ∈ allowed_tools c <-> t ∈ cfg_allowed_tools cfg;
  co_denied : forall t, t ∈ denied_tools c <-> t ∈ cfg_denied_tools cfg;
  co_prefixes : forall p, p ∈ resource_prefixes c <-> p ∈ trim_end_stars <$> cfg_allowed_resource_prefixes cfg;
  co_sorted : StronglySorted str_le (resource_prefixes c);
  co_grants : forall e t, (e, t) ∈ time_bounded_grants c <->
    exists g, g ∈ cfg_time_bounded_grants cfg /\ grant_tool g = t /\ e = until_unix_secs g * 1000000000;
  co_grants_sorted : StronglySorted grant_le (time_bounded_grants c);
}.

Lemma compiled_grants cfg gs :
  mapM (fun g => e ← expiry_of (until_unix_secs g); Some (e, grant_tool g)) cfg = Some gs ->
  forall e t, (e, t) ∈ gs <->
    exists g, g ∈ cfg /\ grant_tool g = t /\ e = until_unix_secs g * 1000000000.
Proof.
  intros Hm%mapM_Some. induction Hm as [|g [e' t'] l k Hg Hm IH]; intros e t.
  - split; [by intros ?%elem_of_nil|]. by intros (? & ?%elem_of_nil & _).
  - unfold expiry_of in Hg. destruct (until_unix_secs g <? 2 ^ 63); [|done].
    cbn in Hg. injection Hg as <- <-. rewrite elem_of_cons, IH. split.
    + intros [[= -> ->]|(g' & Hg' & ?)]; [exists g|exists g']; rewrite elem_of_cons; auto.
    + intros (g' & [-> | Hg']%elem_of_cons & <- & ->); eauto.
Qed.

Lemma from_config_ok cfg c : from_config cfg = Some c -> compiled_ok cfg c.
Proof.
  unfold from_config. destruct (mapM _ _) as [gs|] eqn:Em; cbn; [|done]. intros [= <-].
  constructor; cbn; intros.
  - apply elem_of_list_to_set.
  - apply elem_of_list_to_set.
  - by rewrite merge_sort_Permutation.
  - by apply StronglySorted_merge_sort; apply _.
  - rewrite merge_sort_Permutation. by apply compiled_grants.
  - by apply StronglySorted_merge_sort; apply _.
Qed.

(** Compilation fails only on an expiry that the platform's clock cannot represent. *)
Lemma from_config_total cfg :
  (forall g, g ∈ cfg_time_bounded_grants cfg -> until_unix_secs g < 2 ^ 63) -> is_Some (from_config cfg).
Proof.
  intros Hg. unfold from_config.
  assert (Hs : is_Some (mapM (fun g => e ← expiry_of (until_unix_secs g); Some (e, grant_tool g))
                  (cfg_time_bounded_grants cfg))).
  { apply mapM_is_Some, Forall_forall. intros g Hin. cbn. unfold expiry_of.
    specialize (Hg g Hin). destruct (Z.ltb_spec (until_unix_secs g) (2 ^ 63)); [by eexists|lia]. }
  destruct Hs as [gs ->]. by eexists.
Qed.

(** ** What the configuration permits *)

Definition tool_permitted (cfg : TenantAllowlist) (tool : string) (now : Z) : Prop :=
  (tool ∉ cfg_denied_tools cfg) /\
  (tool ∈ cfg_allowed_tools cfg \/
   exists g, g ∈ cfg_time_bounded_grants cfg /\ grant_tool g = tool /\
             now < until_unix_secs g * 1000000000).

Definition resource_permitted (cfg : TenantAllowlist) (uri : string) : Prop :=
  exists p, p ∈ cfg_allowed_resource_prefixes cfg /\ starts_with uri (trim_end_stars p) = true.

(** No configured prefix extends another one. *)
Definition prefixes_incomparable (cfg : TenantAllowlist) : Prop :=
  forall p q, p ∈ cfg_allowed_resource_prefixes cfg -> q ∈ cfg_allowed_resource_prefixes cfg ->
  starts_with (trim_end_stars q) (trim_end_stars p) = true -> trim_end_stars p = trim_end_stars q.

Section compiled.
Context (cfg : TenantAllowlist) (c : CompiledAllowlist) (Hok : compiled_ok cfg c).

Lemma active_grant_spec tool now :
  has_active_grant c tool now = true <->
  exists g, g ∈ cfg_time_bounded_grants cfg /\ grant_tool g = tool /\ now < until_unix_secs g * 1000000000.
Proof.
  destruct Hok. unfold has_active_grant. rewrite existsb_exists.
  assert (Hdrop := fun x => partition_drop grant_le (fun g => fst g <=? now)
    ltac:(intros ??; unfold grant_le; rewrite !Z.leb_le; lia) (time_bounded_grants c) x co_grants_sorted0).
  split.
  - intros ([e t] & [Hin Hlt]%list_elem_of_In%Hdrop & <-%String.eqb_eq).
    apply co_grants0 in Hin as (g & Hg & <- & ->). apply Z.leb_gt in Hlt. by exists g.
  - intros (g & Hg & <- & Hlt). exists (until_unix_secs g * 1000000000, grant_tool g).
    split; [|apply String.eqb_refl]. apply list_elem_of_In, Hdrop.
    split; [|by apply Z.leb_gt]. apply co_grants0. by exists g.
Qed.

(** The tool check is exactly the policy, with the reason of each denial. *)
Lemma check_tool_spec tool now :
  match check_tool c tool now with
  | None => tool_permitted cfg tool now
  | Some InDenylist => tool ∈ cfg_denied_tools cfg
  | Some NotInAllowlist => (tool ∉ cfg_denied_tools cfg) /\ ~ tool_permitted cfg tool now
  | Some _ => False
  end.
Proof.
  pose proof (active_grant_spec tool now) as Hg. destruct Hok. unfold check_tool, tool_permitted.
  destruct (bool_decide_reflect (tool ∈ denied_tools c)) as [Hd|Hd]; rewrite co_denied0 in Hd; [done|].
  destruct (bool_decide_reflect (tool ∈ allowed_tools c)) as [Ha|Ha]; rewrite co_allowed0 in Ha; [auto|].
  destruct (has_active_grant c tool now); [split; [done|right; by apply Hg]|].
  split; [done|]. intros [_ [?|?%Hg]]; done.
Qed.

Lemma matches_sound uri : resource_prefix_matches c uri = true -> resource_permitted cfg uri.
Proof.
  destruct Hok. unfold resource_prefix_matches. destruct (resource_prefixes c) as [|q0 ps'] eqn:Eps; [done|].
  rewrite <- Eps in *. set (ps := resource_prefixes c) in *.
  assert (Hone : forall i, from_option (starts_with uri) false (ps !! i) = true -> resource_permitted cfg uri).
  { intros i Hi. destruct (ps !! i) as [p|] eqn:Ei; [|done].
    assert (Hin : p ∈ ps) by by eapply list_elem_of_lookup_2.
    apply co_prefixes0, list_elem_of_fmap in Hin as (p' & -> & Hp'). by exists p'. }
  rewrite orb_true_iff, !andb_true_iff. intros [[_ ?]|[_ ?]]; eauto.
Qed.

Lemma matches_complete uri :
  prefixes_incomparable cfg -> resource_permitted cfg uri -> resource_prefix_matches c uri = true.
Proof.
  destruct Hok. intros Hinc (p & Hp & Hsw). unfold resource_prefix_matches.
  assert (Hin : trim_end_stars p ∈ resource_prefixes c) by (by apply co_prefixes0, list_elem_of_fmap_2).
  destruct (resource_prefixes c) as [|q0 ps'] eqn:Eps; [by apply elem_of_nil in Hin|].
  rewrite <- Eps in *.
  assert (Hdown : forall x y, str_le x y -> str_leb y uri = true -> str_leb x uri = true)
    by (intros x y ? ?; by apply (str_le_trans x y uri)).
  assert (Reflexive str_le) by (intros x; apply str_leb_refl).
  destruct (partition_last str_le _ Hdown _ _ co_sorted0 Hin (starts_with_le _ _ Hsw))
    as (q & Hpos & Hq & Hpq & Hqu).
  assert (Hq' : q ∈ resource_prefixes c) by by eapply list_elem_of_lookup_2.
  apply co_prefixes0, list_elem_of_fmap in Hq' as (q' & -> & Hq').
  pose proof (between_prefix _ _ _ Hsw Hpq Hqu) as Hext. apply Hinc in Hext; [|done|done].
  rewrite orb_true_iff, !andb_true_iff. left.
  split; [by apply Nat.ltb_lt|rewrite Hq; cbn; by rewrite <- Hext].
Qed.
End compiled.

(** ** Attestations *)

(** The signed bytes determine tenant and subject: a signature for one pair is not a
    signature for another. *)
Lemma sign_message_inj c c' s s' :
  in_u32 c -> in_u32 c' -> sign_message c s = sign_message c' s' -> c = c' /\ s = s'.
Proof.
  unfold sign_message. intros Hc Hc' Heq.
  apply app_inj_1 in Heq as [Hle Heq]; [|by rewrite !length_to_le_bytes].
  apply app_inj_1 in Heq as [_ Heq]; [|done]. apply app_inj_2 in Heq as [Heq _]; [|done]. split.
  - rewrite <- (from_to_le_bytes 4 c), <- (from_to_le_bytes 4 c'), Hle by done. done.
  - unfold as_bytes in Heq. by rewrite <- (string_of_list_byte_of_string s), Heq, string_of_list_byte_of_string.
Qed.

Lemma sign_verifies hmac c s key : verify hmac (sign hmac c s key) key = true.
Proof. unfold verify, sign, sign_message, verify_message; cbn. by rewrite bool_decide_true. Qed.

(** ** The broker *)

(** A log that keeps what is appended; the view of its records is abstract. *)
Class AppendLog (W : Type) `{WAL W} := {
  log : W -> list (list byte);
  append_log : forall bytes d w, exists id w', append bytes d w = (Ok id, w') /\ log w' = log w ++ [bytes];
}.

Definition request_permitted (cfg : TenantAllowlist) (request : McpRequest) (now : Z) : Prop :=
  match request with
  | ToolCall tool _ => tool_permitted cfg tool now
  | ResourceRead uri => resource_permitted cfg uri
  | _ => True
  end.

(** What each decision says about the configuration. *)
Definition decision_means hmac (configs : gmap Z TenantAllowlist) (key : list byte) (now : Z)
    (request : McpRequest) (identity : TenantIdentity) (d : CapabilityDecision) : Prop :=
  match d with
  | Allow a =>
      (exists cfg, configs !! tenant identity = Some cfg /\ request_permitted cfg request now) /\
      verify hmac a key = true /\ caller a = tenant identity /\
      subject a = request_subject request /\ decision a = "allow"
  | Deny reason =>
      (reason = TenantUnknown /\ configs !! tenant identity = None) \/
      exists cfg, configs !! tenant identity = Some cfg /\
        match request with
        | ToolCall tool _ =>
            ~ tool_permitted cfg tool now /\ (reason = InDenylist <-> tool ∈ cfg_denied_tools cfg)
        | ResourceRead uri => prefixes_incomparable cfg -> ~ resource_permitted cfg uri
        | _ => False
        end
  end.

Definition decision_of (d : CapabilityDecision) : AuditDecision :=
  match d with Allow _ => AuditAllow | Deny _ => AuditDeny end.

Section broker.
Context (hmac : list byte -> list byte -> list byte) (to_vec : AuditRecord -> option (list byte)).
Context {W : Type} `{WAL W}.
Implicit Types b : AllowlistBroker W.

Lemma broker_new_tenants configs key w n b id c :
  broker_new configs key w n = Some b -> tenants b !! id = Some c ->
  exists cfg, configs !! id = Some cfg /\ compiled_ok cfg c.
Proof.
  unfold broker_new. case_bool_decide as Hall; [|done]. intros [= <-]; cbn.
  rewrite lookup_omap, lookup_fmap. destruct (configs !! id) as [cfg|] eqn:Ec; cbn; [|done].
  intros Hc. exists cfg. split; [done|]. by apply from_config_ok.
Qed.

Lemma broker_new_unknown configs key w n b id :
  broker_new configs key w n = Some b -> tenants b !! id = None -> configs !! id = None.
Proof.
  unfold broker_new. case_bool_decide as Hall; [|done]. intros [= <-]; cbn.
  rewrite lookup_omap, lookup_fmap. destruct (configs !! id) as [cfg|] eqn:Ec; cbn; [|done].
  intros Hc. destruct (Hall id (from_config cfg)) as [c Hc']; [by rewrite lookup_fmap, Ec|].
  by rewrite Hc' in Hc.
Qed.

Lemma evaluate_allows cfg c request now :
  compiled_ok cfg c -> evaluate c request now = None -> request_permitted cfg request now.
Proof.
  intros Hok. destruct request as [tool h| |uri| | | |]; cbn; try done.
  - intros Ht. pose proof (check_tool_spec cfg c Hok tool now) as Hs. by rewrite Ht in Hs.
  - unfold check_resource. destruct (resource_prefix_matches c uri) eqn:Em; [|done].
    intros _. by apply (matches_sound cfg c).
Qed.

Lemma evaluate_denies configs key cfg c request identity now r :
  configs !! tenant identity = Some cfg -> compiled_ok cfg c -> evaluate c request now = Some r ->
  decision_means hmac configs key now request identity (Deny r).
Proof.
  intros Hcfg Hok He. right. exists cfg. split; [done|]. revert He.
  destruct request as [tool h| |uri| | | |]; cbn; try done.
  - intros Ht. pose proof (check_tool_spec cfg c Hok tool now) as Hs. rewrite Ht in Hs.
    destruct r; try done; [by destruct Hs|]. split; [by intros [? _]|done].
  - unfold check_resource. destruct (resource_prefix_matches c uri) eqn:Em; [done|].
    intros _ Hinc Hp. by rewrite (matches_complete cfg c Hok uri Hinc Hp) in Em.
Qed.

(** [C4] The broker against the configuration.  An [Allow] is for a known tenant and for a
    request its configuration permits: a tool that is not denied and is allowed or granted
    until later than [now], a resource under a configured prefix, a list or a lifecycle call;
    and it carries a verifying attestation of this tenant and subject.  A [Deny] is for an
    unknown tenant, which the reason says; for a tool the configuration does not permit at
    [now], with the reason [InDenylist] exactly when the tool is on the denylist; or for a
    resource that it does not permit, where no configured prefix extends another.  Nothing is
    said of the other reasons, nor of nested prefixes, where [nested_prefix_denied] refuses
    what is permitted. *)
Theorem authorize_decision configs key w n b now request identity :
  broker_new configs key w n = Some b ->
  decision_means hmac configs key now request identity
    (fst (allowlist_authorize hmac to_vec now request identity b)).
Proof.
  intros Hb. unfold allowlist_authorize.
  destruct (tenants b !! tenant identity) as [c|] eqn:Et; [|left; split; [done|by apply (broker_new_unknown _ _ _ _ _ _ Hb Et)]].
  destruct (broker_new_tenants _ _ _ _ _ _ _ Hb Et) as (cfg & Hcfg & Hok).
  assert (Hkey : signing_key b = key)
    by (revert Hb; unfold broker_new; case_bool_decide; [by intros [= <-]|done]).
  destruct (evaluate c request now) as [r|] eqn:Ee; cbn [fst].
  - by apply (evaluate_denies configs key cfg c).
  - rewrite Hkey. split_and!; try done; [|apply sign_verifies].
    exists cfg. split; [done|]. by apply (evaluate_allows cfg c).
Qed.

(** The decision does not depend on the log: a failed audit write changes nothing. *)
Lemma decision_ignores_log now request identity b w' n' :
  fst (allowlist_authorize hmac to_vec now request identity b) =
  fst (allowlist_authorize hmac to_vec now request identity (mkBroker (tenants b) (signing_key b) w' n')).
Proof.
  unfold allowlist_authorize. cbn. destruct (tenants b !! tenant identity); [|done].
  by destruct (evaluate _ _ _).
Qed.

Lemma authorize_emits now request identity b :
  snd (allowlist_authorize hmac to_vec now request identity b) =
  emit_audit to_vec request identity
    (decision_of (fst (allowlist_authorize hmac to_vec now request identity b))) now b.
Proof.
  unfold allowlist_authorize. destruct (tenants b !! tenant identity); [|done].
  by destruct (evaluate _ _ _).
Qed.

(** ** The audit trail *)

(** A run of calls, each a clock reading, a request and an identity. *)
Fixpoint authorize_all (calls : list (Z * McpRequest * TenantIdentity)) b :
    list CapabilityDecision * AllowlistBroker W :=
  match calls with
  | [] => ([], b)
  | (now, request, identity) :: calls =>
      let '(d, b) := allowlist_authorize hmac to_vec now request identity b in
      let '(ds, b) := authorize_all calls b in (d :: ds, b)
  end.

(** The records of a run: one per call, in order, each with the decision returned and
    the next correlation id. *)
Fixpoint audit_trail (n : Z) (calls : list (Z * McpRequest * TenantIdentity))
    (ds : list CapabilityDecision) : list AuditRecord :=
  match calls, ds with
  | (now, request, identity) :: calls, d :: ds =>
      record_of (audit_event request identity (decision_of d) now n)
        :: audit_trail (wrapping_add 64 n 1) calls ds
  | _, _ => []
  end.

Context (encode : AuditRecord -> list byte) (Hencode : forall r, to_vec r = Some (encode r)).
Context `{!AppendLog W}.

Lemma emit_audit_log request identity d now b :
  let b' := emit_audit to_vec request identity d now b in
  log (wal b') = log (wal b)
    ++ [encode (record_of (audit_event request identity d now (counter b))) ++ [byte_of_Z 10]] /\
  counter b' = wrapping_add 64 (counter b) 1.
Proof.
  unfold emit_audit, RequestId_next, audit_write. rewrite Hencode. cbn [fst snd].
  destruct (append_log (encode (record_of (audit_event request identity d now (counter b)))
    ++ as_bytes (String "010" "")) Fsync (wal b)) as (id & w' & Ha & Hl).
  rewrite Ha. cbn. by rewrite Hl.
Qed.

(** The audit trail is complete and exact: after any sequence of calls the log has
    gained exactly one line per call, in call order, with the tenant, the subject, the
    decision that was returned and a fresh correlation id, and nothing else. *)
Theorem audit_log_complete calls b :
  let '(ds, b') := authorize_all calls b in
  length ds = length calls /\
  log (wal b') = log (wal b)
    ++ map (fun r => encode r ++ [byte_of_Z 10]) (audit_trail (counter b) calls ds).
Proof.
  revert b. induction calls as [|[[now request] identity] calls IH]; intros b; cbn [authorize_all].
  { split; [done|]. cbn. by rewrite app_nil_r. }
  pose proof (authorize_emits now request identity b) as He.
  destruct (allowlist_authorize hmac to_vec now request identity b) as [d b1]. cbn [fst snd] in He.
  specialize (IH b1). destruct (authorize_all calls b1) as [ds b']. destruct IH as [Hlen Hlog].
  destruct (emit_audit_log request identity (decision_of d) now b) as [Hl Hc].
  rewrite <- He in Hl, Hc. split; [by cbn; f_equal|].
  rewrite Hlog, Hl, Hc. cbn [audit_trail map]. by rewrite <- app_assoc.
Qed.
End broker.

(** The dry-run wrapper never denies and leaves the wrapped broker in the state its own
    decision leads to, so the audit keeps the would-be decision. *)
Lemma dry_run_allows {B : Type} `{CapabilityBroker B} now request identity (d : DryRunBroker B) :
  (exists a, fst (dryrun_authorize now request identity d) = Allow a) /\
  dry_inner (snd (dryrun_authorize now request identity d)) = snd (authorize now request identity (dry_inner d)).
Proof.
  unfold dryrun_authorize. destruct (authorize now request identity (dry_inner d)) as [[a|r] inner].
  - by split; [exists a|].
  - by split; [eexists|].
Qed.

(** The two copies agree, so an attestation of the dry run names what the audit names. *)
Lemma dryrun_subject_agrees request : dryrun_request_subject request = request_subject request.
Proof. by destruct request as [| | | | | |[]]. Qed.

(** ** Concrete runs *)

(** A log in memory that never fails. *)
Record MemWal := mkMemWal { mem : list (list byte) }.

#[global] Instance MemWal_wal : WAL MemWal :=
  {| append bytes _ w := (Ok (Z.of_nat (length (mem w))), mkMemWal (mem w ++ [bytes]));
     flush _ w := (Ok tt, w);
     wal_durable w := match mem w with [] => None | l => Some (Z.of_nat (length l) - 1) end |}.

#[global] Instance MemWal_log : AppendLog MemWal.
Proof. refine {| log := mem |}. intros bytes d w. eexists _, _. by split. Defined.

Definition acme : TenantAllowlist :=
  mkTenantAllowlist ["search-web"] ["filesystem-write"] ["*"; "s3://acme/*"]
    [mkGrant "send-email" 1780000000; mkGrant "filesystem-write" 1780000000].

(** Stand-ins for the MAC and the serialiser. *)
Definition toy_hmac (key msg : list byte) : list byte := key ++ msg.
Definition toy_encode (r : AuditRecord) : list byte := as_bytes (rec_subject r) ++ as_bytes (rec_decision r).
Definition toy_to_vec (r : AuditRecord) : option (list byte) := Some (toy_encode r).

Definition acme_broker : option (AllowlistBroker MemWal) :=
  broker_new {[ 1 := acme ]} [] (mkMemWal []) 1.

Definition email : McpRequest := ToolCall "send-email" [].
Definition agent : TenantIdentity := mkIdentity 1 "agent".

Lemma authorize_decision_witness :
  exists b, acme_broker = Some b /\
    decision_means toy_hmac {[ 1 := acme ]} [] 0 email agent
      (fst (allowlist_authorize toy_hmac toy_to_vec 0 email agent b)).
Proof.
  destruct acme_broker as [b|] eqn:E; [|by vm_compute in E]. exists b. split; [done|].
  exact (authorize_decision toy_hmac toy_to_vec {[ 1 := acme ]} [] (mkMemWal []) 1 b 0 email agent E).
Defined.

Lemma audit_log_complete_witness :
  exists b, acme_broker = Some b /\
    let '(ds, b') := authorize_all toy_hmac toy_to_vec [(0, email, agent); (1, ToolList, agent)] b in
    length ds = 2%nat /\
    log (wal b') = log (wal b) ++ map (fun r => toy_encode r ++ [byte_of_Z 10])
      (audit_trail (counter b) [(0, email, agent); (1, ToolList, agent)] ds).
Proof.
  destruct acme_broker as [b|] eqn:E; [|by vm_compute in E]. exists b. split; [done|].
  exact (audit_log_complete toy_hmac toy_to_vec toy_encode (fun r => eq_refl)
           [(0, email, agent); (1, ToolList, agent)] b).
Defined.

(** The decisions on the configuration above: a grant while it lasts and not after, the
    denylist before a grant, an unknown tenant. *)
Example acme_decisions :
  (fun c => (check_tool c "send-email" 0, check_tool c "send-email" (1780000000 * 1000000000),
             check_tool c "filesystem-write" 0, check_resource c "s3://acme/x")) <$> from_config acme
  = Some (None, Some NotInAllowlist, Some InDenylist, None).
Proof. by vm_compute. Qed.

(** The binary search over the prefixes looks only at the neighbours of the URI: a
    tenant allowed every resource (prefix [*]) and one bucket besides is refused a URI
    that sorts after the bucket's prefix, although the configuration permits it. *)
Theorem nested_prefix_denied :
  resource_permitted acme "s3://other/x" /\
  (fun c => check_resource c "s3://other/x") <$> from_config acme = Some (Some NotInAllowlist).
Proof. split; [exists "*"; split; [apply list_elem_of_here|done]|by vm_compute]. Qed.
