(* ===== verification/Gpu.v ===== *)
(** * Gpu: GPU pressure signals

    The pressure scalar and the sources of [riftgate-core/src/gpu.rs], and the DCGM scrape
    of [riftgate-obs/src/gpu/dcgm.rs]: endpoint and HTTP response parsing, the Prometheus
    text parser, the snapshot and its reduction to one observation.  The socket is a
    parameter: a function from host, port and path to the response text. *)

From Stdlib Require Import Ascii String SpecFloat.
From stdpp Require Import pretty.
From S2P Require Import Prelude Floats Core Weighted Http1 Capability Mcp Text.

#[local] Open Scope string_scope.
#[local] Open Scope list_scope.
#[local] Open Scope Z_scope.

(** ** The trait surface of [gpu.rs] *)

Inductive GpuThrottleState := ThrottleNone | SwLimit | Thermal | Power | HwSlowdown.

Definition throttle_as_str (t : GpuThrottleState) : string :=
  match t with
  | ThrottleNone => "none" | SwLimit => "sw_limit" | Thermal => "thermal" | Power => "power"
  | HwSlowdown => "hw_slowdown"
  end.

(** [observed_at] is left out: no code reads it. *)
Record GpuPressure := mkPressure {
  gpu_backend : BackendId;
  utilization_pct : spec_float;
  memory_used_pct : spec_float;
  throttle_state : GpuThrottleState;
  ecc_errors_total : Z;
}.

Definition scalar_pressure (g : GpuPressure) : spec_float :=
  fclamp (S754_zero false) (f32_of_Z 1)
    (f32_div (fmax (utilization_pct g) (memory_used_pct g)) (f32_of_Z 100)).

Inductive GpuPressureError :=
| ScrapeFailed (why : string)
| Ffi (why : string)
| ParseErr (why : string)
| Unavailable (why : string).

Class GpuPressureSource (G : Type) := {
  poll_once : G -> result (list GpuPressure) GpuPressureError;
  gpu_name : G -> string;
}.

Inductive NoopGpuSource := mkNoop.
#[global] Instance noop_source : GpuPressureSource NoopGpuSource := {
  poll_once := fun _ => Ok []; gpu_name := fun _ => "noop" }.

Record StaticGpuSource := mkStatic { static_snapshot : list GpuPressure }.
#[global] Instance static_source : GpuPressureSource StaticGpuSource := {
  poll_once := fun s => Ok (static_snapshot s); gpu_name := fun _ => "static" }.

(** ** [HttpEndpoint::parse] and the response *)

Definition dq : ascii := "034".

Record HttpEndpoint := mkEndpoint { host : string; port : Z; path : string }.

Definition DEFAULT_PATH : string := "/metrics".

Definition ok_or {T} (e : GpuPressureError) (o : option T) : result T GpuPressureError :=
  match o with Some v => Ok v | None => Err e end.

Definition endpoint_parse (input : string) : result HttpEndpoint GpuPressureError :=
  result_bind (fun without_scheme =>
    let '(authority, p) :=
      match split_once "/" without_scheme with
      | Some (a, p) => (a, "/" +:+ p)
      | None => (without_scheme, DEFAULT_PATH)
      end in
    if String.eqb authority "" then Err (ParseErr "missing scrape host")
    else
      result_bind (fun hp : string * Z =>
        if String.eqb (fst hp) "" then Err (ParseErr "missing scrape host")
        else Ok (mkEndpoint (fst hp) (snd hp) p))
      (match rsplit_once ":" authority with
       | Some (h, pt) =>
           result_bind (fun n => Ok (h, n))
             (ok_or (ParseErr ("invalid scrape port in endpoint: " +:+ input)) (parse_uint 16 pt))
       | None => Ok (authority, 80)
       end))
    (ok_or (ParseErr ("unsupported endpoint scheme: " +:+ input)) (strip_prefix "http://" input)).

Definition crlf2 : string := String cr (String lf (String cr (String lf ""))).
Definition lf2 : string := String lf (String lf "").

Definition parse_http_response_body (response : string) : result string GpuPressureError :=
  result_bind (fun hb : string * string =>
    let status_line := default "" (head (lines (fst hb))) in
    if starts_with status_line "HTTP/1.1 200" || starts_with status_line "HTTP/1.0 200"
    then Ok (snd hb)
    else Err (ScrapeFailed ("unexpected scrape status: " +:+ status_line)))
  (ok_or (ScrapeFailed "malformed HTTP response")
     (match split_once_str crlf2 response with
      | Some hb => Some hb
      | None => split_once_str lf2 response
      end)).

(** ** One metric line *)

Record MetricSample := mkMetric {
  metric_name : string;
  metric_labels : gmap string string;
  metric_value : spec_float;
}.

(** [split_metric_and_value]: the first space or tab outside braces. *)
Fixpoint metric_split (s : string) (depth : Z) : option (string * string) :=
  match s with
  | EmptyString => None
  | String c rest =>
      let cons_metric r := '(m, v) ← r; Some (String c m, v) in
      if ascii_is c "{" then cons_metric (metric_split rest (depth + 1))
      else if ascii_is c "}" then cons_metric (metric_split rest (Z.max 0 (depth - 1)))
      else if (ascii_is c " " || ascii_is c "009") && (depth =? 0) then Some ("", s)
      else cons_metric (metric_split rest depth)
  end.

Definition split_metric_and_value (line : string) : result (string * string) GpuPressureError :=
  result_bind (fun mv : string * string =>
    result_bind (fun value => Ok (fst mv, value))
      (ok_or (ParseErr ("missing metric value in line: " +:+ line)) (first_word (trim (snd mv)))))
    (ok_or (ParseErr ("missing metric separator in line: " +:+ line)) (metric_split line 0)).

(** [parse_labels]: the pairs between commas, a later key replacing an earlier one. *)
Definition parse_label (item : string) : result (string * string) GpuPressureError :=
  result_bind (fun kv : string * string =>
    result_bind (fun value => Ok (trim (fst kv), value))
      (ok_or (ParseErr ("invalid label value: " +:+ item))
         (v ← strip_prefix (String dq "") (trim (snd kv)); strip_suffix (String dq "") v)))
    (ok_or (ParseErr ("invalid label pair: " +:+ item)) (split_once "=" item)).

Fixpoint parse_pairs (pairs : list string) (parsed : gmap string string) :
    result (gmap string string) GpuPressureError :=
  match pairs with
  | [] => Ok parsed
  | item :: items =>
      result_bind (fun kv : string * string => parse_pairs items (<[fst kv := snd kv]> parsed)) (parse_label item)
  end.

Definition parse_labels (labels : string) : result (gmap string string) GpuPressureError :=
  if String.eqb (trim labels) "" then Ok ∅ else parse_pairs (split_at "," labels) ∅.

Definition metric_parse (line : string) : result MetricSample GpuPressureError :=
  result_bind (fun mv : string * string =>
    result_bind (fun value =>
      match split_once "{" (fst mv) with
      | Some (name, blob) =>
          result_bind (fun labels_str =>
            result_bind (fun labels => Ok (mkMetric name labels value)) (parse_labels labels_str))
            (ok_or (ParseErr ("invalid labels in line: " +:+ line)) (strip_suffix "}" blob))
      | None => Ok (mkMetric (fst mv) ∅ value)
      end)
      (ok_or (ParseErr ("invalid metric value in line: " +:+ line)) (parse_f64 (snd mv))))
    (split_metric_and_value line).

Fixpoint metric_label_value (m : MetricSample) (names : list string) : option string :=
  match names with
  | [] => None
  | k :: names => match metric_labels m !! k with Some v => Some v | None => metric_label_value m names end
  end.

Definition metric_matches (m : MetricSample) (gpu_index : Z) (mig_uuid : option string) : bool :=
  let actual :=
    match metric_label_value m ["UUID"; "uuid"; "mig_uuid"] with
    | Some v => Some v
    | None => metric_label_value m ["gpu_uuid"]
    end in
  if match mig_uuid with Some expected => negb (bool_decide (actual = Some expected)) | None => false end
  then false
  else
    match metric_label_value m ["gpu"; "gpu_index"; "minor_number"; "device"] with
    | Some raw => bool_decide (parse_uint 32 raw = Some gpu_index)
    | None => bool_decide (is_Some mig_uuid)
    end.

(** ** The snapshot *)

Record DcgmSnapshot := mkDcgm {
  snap_utilization : option spec_float;
  memory_used_mib : option spec_float;
  memory_free_mib : option spec_float;
  memory_total_mib : option spec_float;
  throttle_reasons : option Z;
  snap_ecc : Z;
}.

Definition DcgmSnapshot_default : DcgmSnapshot := mkDcgm None None None None None 0.

Definition fzero : spec_float := S754_zero false.

(** [parse_percent]; the message prints the value, which the model leaves out. *)
Definition parse_percent (value : spec_float) (name : string) : result spec_float GpuPressureError :=
  if fle fzero value && fle value (f64_of_Z 100) then Ok (f64_as_f32 value)
  else Err (ParseErr (name +:+ " out of range: ")).

Definition snapshot_observe (m : MetricSample) (s : DcgmSnapshot) : result DcgmSnapshot GpuPressureError :=
  let name := metric_name m in
  let v := metric_value m in
  if String.eqb name "DCGM_FI_DEV_GPU_UTIL" then
    result_bind (fun u => Ok (mkDcgm (Some u) (memory_used_mib s) (memory_free_mib s) (memory_total_mib s)
                                (throttle_reasons s) (snap_ecc s))) (parse_percent v name)
  else if String.eqb name "DCGM_FI_DEV_FB_USED" then
    Ok (mkDcgm (snap_utilization s) (Some v) (memory_free_mib s) (memory_total_mib s) (throttle_reasons s) (snap_ecc s))
  else if String.eqb name "DCGM_FI_DEV_FB_FREE" then
    Ok (mkDcgm (snap_utilization s) (memory_used_mib s) (Some v) (memory_total_mib s) (throttle_reasons s) (snap_ecc s))
  else if String.eqb name "DCGM_FI_DEV_FB_TOTAL" then
    Ok (mkDcgm (snap_utilization s) (memory_used_mib s) (memory_free_mib s) (Some v) (throttle_reasons s) (snap_ecc s))
  else if String.eqb name "DCGM_FI_DEV_CLOCK_THROTTLE_REASONS" then
    if flt v fzero then Err (ParseErr (name +:+ " must be non-negative"))
    else Ok (mkDcgm (snap_utilization s) (memory_used_mib s) (memory_free_mib s) (memory_total_mib s)
               (Some (f_as_uint 64 v)) (snap_ecc s))
  else if starts_with name "DCGM_FI_DEV_ECC_" then
    if flt v fzero then Err (ParseErr (name +:+ " must be non-negative"))
    else Ok (mkDcgm (snap_utilization s) (memory_used_mib s) (memory_free_mib s) (memory_total_mib s)
               (throttle_reasons s) (saturating_add 64 (snap_ecc s) (f_as_uint 64 v)))
  else Ok s.

Definition snapshot_memory_used_pct (s : DcgmSnapshot) : result spec_float GpuPressureError :=
  result_bind (fun used =>
    result_bind (fun total =>
      if fle total fzero then Err (ParseErr "framebuffer total must be positive")
      else Ok (f64_as_f32 (fclamp fzero (f64_of_Z 100) (f64_mul (f64_div used total) (f64_of_Z 100)))))
      (match memory_total_mib s with
       | Some total => Ok total
       | None =>
           result_bind (fun free => Ok (f64_add used free))
             (ok_or (ParseErr "missing DCGM_FI_DEV_FB_TOTAL or DCGM_FI_DEV_FB_FREE metric") (memory_free_mib s))
       end))
    (ok_or (ParseErr "missing DCGM_FI_DEV_FB_USED metric") (memory_used_mib s)).

Definition SW_POWER_CAP : Z := 4.
Definition HW_SLOWDOWN : Z := 8.
Definition SW_THERMAL_SLOWDOWN : Z := 32.
Definition HW_THERMAL_SLOWDOWN : Z := 64.
Definition HW_POWER_BRAKE_SLOWDOWN : Z := 128.

Definition throttle_state_from_bits (bits : Z) : GpuThrottleState :=
  if negb (Z.land bits HW_SLOWDOWN =? 0) then HwSlowdown
  else if negb (Z.land bits (Z.lor SW_THERMAL_SLOWDOWN HW_THERMAL_SLOWDOWN) =? 0) then Thermal
  else if negb (Z.land bits (Z.lor SW_POWER_CAP HW_POWER_BRAKE_SLOWDOWN) =? 0) then Power
  else if bits =? 0 then ThrottleNone else SwLimit.

Definition into_gpu_pressure (b : BackendId) (s : DcgmSnapshot) : result GpuPressure GpuPressureError :=
  result_bind (fun u =>
    result_bind (fun mem =>
      Ok (mkPressure b u mem (throttle_state_from_bits (default 0 (throttle_reasons s))) (snap_ecc s)))
      (snapshot_memory_used_pct s))
    (ok_or (ParseErr "missing DCGM_FI_DEV_GPU_UTIL metric") (snap_utilization s)).

(** ** The source *)

Record DcgmScrapeSource := mkDcgmSource {
  dcgm_backend : BackendId;
  endpoint : string;
  gpu_index : Z;
  mig_uuid : option string;
  timeout : Z;
}.

Definition dcgm_new (b : BackendId) (e : string) (i : Z) : DcgmScrapeSource := mkDcgmSource b e i None 2000000000.
Definition with_mig_uuid (s : DcgmScrapeSource) (u : string) : DcgmScrapeSource :=
  mkDcgmSource (dcgm_backend s) (endpoint s) (gpu_index s) (Some u) (timeout s).

Fixpoint parse_lines (src : DcgmScrapeSource) (ls : list string) (snap : DcgmSnapshot) :
    result DcgmSnapshot GpuPressureError :=
  match ls with
  | [] => Ok snap
  | raw :: ls =>
      let line := trim raw in
      if String.eqb line "" || starts_with line "#" then parse_lines src ls snap
      else
        result_bind (fun sample =>
          if negb (metric_matches sample (gpu_index src) (mig_uuid src)) then parse_lines src ls snap
          else result_bind (parse_lines src ls) (snapshot_observe sample snap))
          (metric_parse line)
  end.

Definition parse_metrics (src : DcgmScrapeSource) (body : string) : result GpuPressure GpuPressureError :=
  result_bind (into_gpu_pressure (dcgm_backend src)) (parse_lines src (lines body) DcgmSnapshot_default).

(** [scrape_metrics] over [fetch], the connection: the request goes to the host and port and
    asks for the path. *)
Definition scrape_metrics (fetch : string -> Z -> string -> result string GpuPressureError)
    (src : DcgmScrapeSource) : result string GpuPressureError :=
  result_bind (fun ep => result_bind parse_http_response_body (fetch (host ep) (port ep) (path ep)))
    (endpoint_parse (endpoint src)).

Definition dcgm_source (fetch : string -> Z -> string -> result string GpuPressureError) :
    GpuPressureSource DcgmScrapeSource := {|
  poll_once := fun src =>
    result_bind (fun body => result_bind (fun p => Ok [p]) (parse_metrics src body)) (scrape_metrics fetch src);
  gpu_name := fun _ => "dcgm-exporter";
|}.

(** * Proofs *)

Lemma result_bind_ok {T U E} (f : T -> result U E) (m : result T E) u :
  result_bind f m = Ok u -> exists t, m = Ok t /\ f t = Ok u.
Proof. destruct m as [t|e]; [|done]. intros Hf. by exists t. Qed.

(** Split the successful binds of a hypothesis. *)
Ltac ok_inv :=
  repeat match goal with
  | H : result_bind _ _ = Ok _ |- _ => apply result_bind_ok in H as (? & ? & H)
  | H : ok_or _ _ = Ok _ |- _ => unfold ok_or in H
  | H : match ?x with Some _ => Ok _ | None => Err _ end = Ok _ |- _ =>
      destruct x eqn:?; [injection H as H; subst|discriminate H]
  | H : Ok _ = Ok _ |- _ => injection H as H; subst
  end.

(** ** Bounds *)

Definition unit_range (x : spec_float) : Prop := fle (S754_zero false) x = true /\ fle x (f32_of_Z 1) = true.

Lemma scalar_bounds g : is_nan (utilization_pct g) = false -> unit_range (scalar_pressure g).
Proof.
  intros Hu. apply fclamp_bounds; [|done]. change (f32_of_Z 100) with (S754_finite false 13107200 (-17)).
  apply div_not_nan, fmax_not_nan, Hu.
Qed.

(** The utilization of a snapshot is a number. *)
Definition snap_ok (s : DcgmSnapshot) : Prop :=
  in_u64 (snap_ecc s) /\
  match snap_utilization s with Some u => is_nan u = false | None => True end.

Lemma snapshot_observe_ok m s s' : snap_ok s -> snapshot_observe m s = Ok s' -> snap_ok s'.
Proof.
  intros [He Hu]. unfold snapshot_observe, snap_ok.
  pose proof (f_as_uint_range 64 (metric_value m) ltac:(lia)) as Hr.
  repeat (destruct (String.eqb _ _); [intros Ho; ok_inv; try done|]); [..|destruct (starts_with _ _); [|by intros [= <-]]].
  - split; [done|]. cbn. unfold parse_percent in *. destruct (_ && _) eqn:Ec; [|done]. ok_inv.
    apply as_f32_not_nan. apply andb_prop in Ec as [Hc _]. apply (fle_nan _ _ Hc).
  - destruct (flt _ _); [done|]. by ok_inv.
  - destruct (flt _ _); [done|]. intros Ho. ok_inv. split; [|done]. cbn.
    unfold in_uint, saturating_add in *. lia.
Qed.

Lemma parse_lines_ok src ls s s' : snap_ok s -> parse_lines src ls s = Ok s' -> snap_ok s'.
Proof.
  revert s. induction ls as [|raw ls IH]; intros s Hs; cbn [parse_lines]; [by intros [= <-]|].
  destruct (_ || _); [by apply IH|]. intros Hp. ok_inv.
  destruct (negb _); [by eapply IH|]. ok_inv. eapply IH; [|done]. by eapply snapshot_observe_ok.
Qed.

(** [C33] The pressure the router sees is in range: whatever text the exporter sends, an
    observation that the scrape accepts reduces to a number between 0 and 1 (never NaN, even
    when the memory figures are), and its ECC count fits 64 bits. *)
Theorem dcgm_pressure_in_range src body g :
  parse_metrics src body = Ok g -> unit_range (scalar_pressure g) /\ in_u64 (ecc_errors_total g).
Proof.
  unfold parse_metrics. intros Hp. ok_inv. rename H into Hl, x into s.
  apply parse_lines_ok in Hl as [He Hu]; [|done].
  unfold into_gpu_pressure in Hp. ok_inv. cbn. split; [|done]. apply scalar_bounds. cbn.
  exact Hu.
Qed.

(** ** Which samples count *)

(** The scrape is the fold of the matching samples: when every sample line parses, the
    snapshot is that of the samples of this GPU (and MIG instance), in order; comments, blank
    lines and the samples of other GPUs have no effect. *)
Theorem scrape_folds_matching_samples src ls snap samples :
  Forall2 (fun line m => metric_parse line = Ok m)
    (filter (fun l => negb (String.eqb l "" || starts_with l "#") = true) (trim <$> ls)) samples ->
  parse_lines src ls snap =
  foldl (fun acc m => result_bind (snapshot_observe m) acc) (Ok snap)
    (filter (fun m => metric_matches m (gpu_index src) (mig_uuid src) = true) samples).
Proof.
  revert snap samples. induction ls as [|raw ls IH]; intros snap samples Hf.
  { by apply Forall2_nil_inv_l in Hf as ->. }
  cbn [parse_lines]. cbn [fmap list_fmap] in Hf. fold (trim <$> ls) in Hf. rewrite filter_cons in Hf.
  destruct (String.eqb (trim raw) "" || starts_with (trim raw) "#"); cbn [negb] in Hf.
  { rewrite decide_False in Hf by done. by apply IH. }
  rewrite decide_True in Hf by done. apply Forall2_cons_inv_l in Hf as (m & ms & Hm & Hf & ->).
  rewrite Hm. cbn [result_bind]. rewrite filter_cons.
  destruct (metric_matches m (gpu_index src) (mig_uuid src)) eqn:Em; cbn [negb].
  - rewrite decide_True by done. cbn [foldl result_bind]. destruct (snapshot_observe m snap) as [s'|e]; cbn [result_bind].
    + by apply IH.
    + clear. induction (filter _ ms) as [|x l IHl]; [done|]. exact IHl.
  - rewrite decide_False by done. by apply IH.
Qed.


(** No throttling is reported exactly when no reason bit is set. *)
Lemma throttle_none_iff bits : throttle_state_from_bits bits = ThrottleNone <-> bits = 0.
Proof.
  split; [|by intros ->]. unfold throttle_state_from_bits. repeat case_match; try done. intros _. lia.
Qed.

(** ** Concrete scrapes *)

Definition metric_line (name gpu value : string) : string :=
  name +:+ "{gpu=" +:+ String dq gpu +:+ String dq "} " +:+ value +:+ String lf "".

Definition demo_source : DcgmScrapeSource := dcgm_new 7 "http://127.0.0.1:9400/metrics" 0.

Definition demo_body (util used free : string) : string :=
  "# HELP DCGM_FI_DEV_GPU_UTIL GPU utilization" +:+ String lf "" +:+
  metric_line "DCGM_FI_DEV_GPU_UTIL" "0" util +:+ metric_line "DCGM_FI_DEV_FB_USED" "0" used +:+
  metric_line "DCGM_FI_DEV_FB_FREE" "0" free +:+ metric_line "DCGM_FI_DEV_CLOCK_THROTTLE_REASONS" "0" "32" +:+
  metric_line "DCGM_FI_DEV_ECC_DBE_VOL_TOTAL" "0" "3" +:+ metric_line "DCGM_FI_DEV_ECC_SBE_VOL_TOTAL" "0" "4".

Example demo_scrape :
  parse_metrics demo_source (demo_body "42" "8192" "8192") =
  Ok (mkPressure 7 (f32_of_Z 42) (f32_of_Z 50) Thermal 7).
Proof. by vm_compute. Qed.

Lemma dcgm_pressure_in_range_witness :
  unit_range (scalar_pressure (mkPressure 7 (f32_of_Z 42) (f32_of_Z 50) Thermal 7)).
Proof. apply (dcgm_pressure_in_range demo_source (demo_body "42" "8192" "8192")). by vm_compute. Defined.

Definition util_sample : MetricSample := mkMetric "DCGM_FI_DEV_GPU_UTIL" {[ "gpu" := "0" ]} (f64_of_Z 42).

Lemma scrape_folds_matching_samples_witness :
  parse_lines demo_source (lines (metric_line "DCGM_FI_DEV_GPU_UTIL" "0" "42")) DcgmSnapshot_default =
  Ok (mkDcgm (Some (f32_of_Z 42)) None None None None 0).
Proof.
  rewrite (scrape_folds_matching_samples demo_source (lines (metric_line "DCGM_FI_DEV_GPU_UTIL" "0" "42"))
    DcgmSnapshot_default [util_sample]); [by vm_compute|].
  assert (Hl : filter (fun l => negb (String.eqb l "" || starts_with l "#") = true)
    (trim <$> lines (metric_line "DCGM_FI_DEV_GPU_UTIL" "0" "42")) =
    [trim (metric_line "DCGM_FI_DEV_GPU_UTIL" "0" "42")]) by by vm_compute.
  rewrite Hl. constructor; [by vm_compute|constructor].
Defined.

(** The memory figure is not bounded as documented: a [NaN] sample passes the clamp. *)
Example nan_memory_accepted :
  parse_metrics demo_source (demo_body "42" "NaN" "8192") =
  Ok (mkPressure 7 (f32_of_Z 42) S754_nan Thermal 7).
Proof. by vm_compute. Qed.

(** A quoted comma in a label of any line, of another GPU too, fails the whole poll. *)
Example quoted_comma_fails_poll :
  parse_metrics demo_source (demo_body "42" "8192" "8192" +:+ metric_line "DCGM_FI_DEV_GPU_UTIL" "1,a" "5") =
  Err (ParseErr ("invalid label value: gpu=" +:+ String dq "1")).
Proof. by vm_compute. Qed.
