(* ===== verification/Nvml.v ===== *)
(** * Nvml: the in-process GPU source ([riftgate-obs/src/gpu/nvml.rs])

    The driver library is a record of its answers, the throttle-reason flags of
    [nvml_wrapper] a record of masks: the source only tests them.  [documented_flags] are the
    values NVML documents; with them both GPU sources classify throttling alike. *)

From Stdlib Require Import Ascii String SpecFloat.
From S2P Require Import Prelude Floats Core Gpu.

#[local] Open Scope string_scope.
#[local] Open Scope Z_scope.

Record NvmlSource := mkNvml { nvml_backend : BackendId; device_uuid : string }.

(** [ThrottleReasons], a set of bits. *)
Record ThrottleFlags := mkFlags {
  HW_SLOWDOWN_flag : Z;
  SW_THERMAL_SLOWDOWN_flag : Z;
  HW_THERMAL_SLOWDOWN_flag : Z;
  SW_POWER_CAP_flag : Z;
  HW_POWER_BRAKE_SLOWDOWN_flag : Z;
  NONE_flag : Z;
}.

(** [contains], [intersects] and [is_empty]. *)
Definition flags_contains (bits f : Z) : bool := Z.land bits f =? f.
Definition flags_intersects (bits f : Z) : bool := negb (Z.land bits f =? 0).

(** What a device answers: the GPU utilization, used and total memory in bytes, the throttle
    reasons, and the two ECC counters. *)
Record NvmlDevice := mkDevice {
  utilization_rates : result Z string;
  memory_info : result (Z * Z) string;
  current_throttle_reasons : result Z string;
  ecc_corrected : option Z;
  ecc_uncorrected : option Z;
}.

(** [Nvml::init], then [device_by_uuid]. *)
Definition Nvml := result (string -> result NvmlDevice string) string.

Definition ffi {T} (r : result T string) : result T GpuPressureError :=
  match r with Ok t => Ok t | Err e => Err (Ffi e) end.

Definition total_ecc_errors (d : NvmlDevice) : Z :=
  saturating_add 64 (default 0 (ecc_corrected d)) (default 0 (ecc_uncorrected d)).

Definition throttle_state_from_reasons (fl : ThrottleFlags) (reasons : Z) : GpuThrottleState :=
  if flags_contains reasons (HW_SLOWDOWN_flag fl) then HwSlowdown
  else if flags_intersects reasons (Z.lor (SW_THERMAL_SLOWDOWN_flag fl) (HW_THERMAL_SLOWDOWN_flag fl)) then Thermal
  else if flags_intersects reasons (Z.lor (SW_POWER_CAP_flag fl) (HW_POWER_BRAKE_SLOWDOWN_flag fl)) then Power
  else if (reasons =? 0) || (reasons =? NONE_flag fl) then ThrottleNone else SwLimit.

Definition nvml_memory_pct (used total : Z) : spec_float :=
  if total =? 0 then S754_zero false
  else f64_as_f32 (fclamp (S754_zero false) (f64_of_Z 100)
         (f64_mul (f64_div (f64_of_Z used) (f64_of_Z total)) (f64_of_Z 100))).

(** [poll_once] with the feature, and the stub without it. *)
Definition nvml_poll (fl : ThrottleFlags) (nvml : Nvml) (s : NvmlSource) : result (list GpuPressure) GpuPressureError :=
  result_bind (fun by_uuid =>
    result_bind (fun d =>
      result_bind (fun gpu =>
        result_bind (fun '(used, total) =>
          result_bind (fun reasons =>
            Ok [mkPressure (nvml_backend s) (fclamp (S754_zero false) (f32_of_Z 100) (f32_of_Z gpu))
                  (nvml_memory_pct used total) (throttle_state_from_reasons fl reasons) (total_ecc_errors d)])
            (ffi (current_throttle_reasons d)))
          (ffi (memory_info d)))
        (ffi (utilization_rates d)))
      (ffi (by_uuid (device_uuid s))))
    (ffi nvml).

Definition nvml_poll_stub (_ : NvmlSource) : result (list GpuPressure) GpuPressureError :=
  Err (Unavailable "nvml source requires linux and the gpu-nvml feature").

Definition nvml_source (fl : ThrottleFlags) (nvml : Nvml) : GpuPressureSource NvmlSource :=
  {| poll_once := nvml_poll fl nvml; gpu_name _ := "nvml" |}.

Definition nvml_stub_source : GpuPressureSource NvmlSource :=
  {| poll_once := nvml_poll_stub; gpu_name _ := "nvml" |}.

(** * Proofs *)

Definition documented_flags : ThrottleFlags := mkFlags 8 32 64 4 128 0.

Lemma single_bit_contains bits k : 0 <= k -> flags_contains bits (2 ^ k) = flags_intersects bits (2 ^ k).
Proof.
  intros Hk. unfold flags_contains, flags_intersects. destruct (Z.testbit bits k) eqn:E.
  - assert (H : Z.land bits (2 ^ k) = 2 ^ k).
    { apply Z.bits_inj'. intros n Hn. rewrite Z.land_spec, Z.pow2_bits_eqb by done.
      destruct (Z.eqb_spec k n) as [<-|]; [by rewrite E|by rewrite andb_false_r]. }
    rewrite H, Z.eqb_refl. symmetry. apply negb_true_iff, Z.eqb_neq. pose proof (Z.pow_pos_nonneg 2 k). lia.
  - assert (H : Z.land bits (2 ^ k) = 0).
    { apply Z.bits_inj'. intros n Hn. rewrite Z.land_spec, Z.pow2_bits_eqb, Z.bits_0 by done.
      destruct (Z.eqb_spec k n) as [<-|]; [by rewrite E|by rewrite andb_false_r]. }
    rewrite H, Z.eqb_refl. apply Z.eqb_neq. pose proof (Z.pow_pos_nonneg 2 k). lia.
Qed.

(** The two sources agree: NVML's flags and the bit mask of the DCGM exporter are classified
    the same way. *)
Theorem throttle_sources_agree bits :
  throttle_state_from_reasons documented_flags bits = throttle_state_from_bits bits.
Proof.
  unfold throttle_state_from_reasons, throttle_state_from_bits. cbn [documented_flags HW_SLOWDOWN_flag
    SW_THERMAL_SLOWDOWN_flag HW_THERMAL_SLOWDOWN_flag SW_POWER_CAP_flag HW_POWER_BRAKE_SLOWDOWN_flag NONE_flag].
  change 8 with (2 ^ 3). rewrite single_bit_contains by done. by rewrite orb_diag.
Qed.

Lemma f32_of_Z_not_nan z : is_nan (f32_of_Z z) = false.
Proof. unfold f32_of_Z, binary_normalize. destruct z; [done|apply round_not_nan..]. Qed.

(** Whatever the driver answers, an accepted poll is one observation of this backend with a
    utilization between 0 and 100 and a pressure between 0 and 1. *)
Theorem nvml_pressure_in_range fl nvml s gs :
  nvml_poll fl nvml s = Ok gs ->
  exists g, gs = [g] /\ gpu_backend g = nvml_backend s /\ unit_range (scalar_pressure g) /\
    fle (S754_zero false) (utilization_pct g) = true /\ fle (utilization_pct g) (f32_of_Z 100) = true.
Proof.
  unfold nvml_poll, ffi. intros Hp. ok_inv. destruct x2 as [used total]. ok_inv. eexists. split; [done|].
  split; [done|]. cbn [utilization_pct].
  assert (Hb : fle (S754_zero false) (fclamp (S754_zero false) (f32_of_Z 100) (f32_of_Z x1)) = true /\
               fle (fclamp (S754_zero false) (f32_of_Z 100) (f32_of_Z x1)) (f32_of_Z 100) = true)
    by (apply fclamp_bounds; [apply f32_of_Z_not_nan|done]).
  split; [|done]. apply scalar_bounds. cbn [utilization_pct]. destruct Hb as [Hb _]. by apply fle_nan in Hb as [_ ?].
Qed.

(** A failing call of the driver fails the poll, with its message; the ECC counters may be
    missing. *)
Theorem nvml_poll_fails_iff fl nvml s :
  (exists e, nvml_poll fl nvml s = Err e) <->
  match nvml with
  | Err _ => True
  | Ok by_uuid =>
      match by_uuid (device_uuid s) with
      | Err _ => True
      | Ok d => ~ (exists u m r, utilization_rates d = Ok u /\ memory_info d = Ok m /\ current_throttle_reasons d = Ok r)
      end
  end.
Proof.
  unfold nvml_poll, ffi. destruct nvml as [by_uuid|e]; cbn; [|by split; [|eexists]].
  destruct (by_uuid (device_uuid s)) as [d|e]; cbn; [|by split; [|eexists]].
  destruct (utilization_rates d) as [u|e]; cbn; [|split; [by intros _ (? & ? & ? & ? & _)|by eexists]].
  destruct (memory_info d) as [[used total]|e]; cbn; [|split; [by intros _ (? & ? & ? & _ & ? & _)|by eexists]].
  destruct (current_throttle_reasons d) as [r|e]; cbn; [|split; [by intros _ (? & ? & ? & _ & _ & ?)|by eexists]].
  split; [by intros [e ?]|]. intros H. destruct H. by eexists _, _, _.
Qed.

Definition demo_device : NvmlDevice := mkDevice (Ok 87) (Ok (60 * 2 ^ 30, 80 * 2 ^ 30)) (Ok 32) (Some 1) None.

Example demo_poll :
  match nvml_poll documented_flags (Ok (fun _ => Ok demo_device)) (mkNvml 0 "GPU-0") with
  | Ok [g] => (throttle_state g, ecc_errors_total g, SFeqb (memory_used_pct g) (f32_of_Z 75)) = (Thermal, 1, true)
  | _ => False
  end.
Proof. by vm_compute. Qed.

Lemma nvml_pressure_in_range_witness :
  exists g, nvml_poll documented_flags (Ok (fun _ => Ok demo_device)) (mkNvml 0 "GPU-0") = Ok [g] /\
    unit_range (scalar_pressure g).
Proof.
  destruct (nvml_poll documented_flags (Ok (fun _ => Ok demo_device)) (mkNvml 0 "GPU-0")) as [gs|] eqn:E;
    [|by vm_compute in E].
  destruct (nvml_pressure_in_range _ _ _ _ E) as (g & -> & _ & Hr & _). by exists g.
Defined.
