(* ===== verification/Signals.v ===== *)
(** * Signals: the live backend signals ([riftgate/src/signals.rs])

    [apply_gpu_pressure_updates] on the snapshot the handlers read, and the poller task of
    [riftgate/src/main.rs] that calls it.  The store is one atomic pointer with a single
    writer, the poller: its value is the state. *)

From Stdlib Require Import SpecFloat.
From S2P Require Import Prelude Floats Core Weighted Gpu.

#[local] Open Scope list_scope.
#[local] Open Scope Z_scope.

Definition with_gpu_pressure (p : spec_float) (s : BackendSignal) : BackendSignal :=
  mkSignal (circuit_state s) (Some p) (recent_p99_ms s).

(** [next.resize(idx + 1, default)] when the index is past the end, then the assignment. *)
Definition apply_sample (next : list BackendSignal) (g : GpuPressure) : list BackendSignal :=
  let idx := Z.to_nat (gpu_backend g) in
  let next := if (length next <=? idx)%nat
              then next ++ replicate (idx + 1 - length next) BackendSignal_default else next in
  alter (with_gpu_pressure (scalar_pressure g)) idx next.

Definition max_backend (samples : list GpuPressure) : nat :=
  foldr (fun g n => Nat.max (Z.to_nat (gpu_backend g)) n) 0%nat samples.

Definition apply_gpu_pressure_updates (current : BackendSignals) (samples : list GpuPressure) : BackendSignals :=
  match samples with
  | [] => current
  | _ =>
      let next := (fun idx => signals_get current (wrap 16 (Z.of_nat idx))) <$>
                    seq 0 (S (Nat.max (max_backend samples) (length (signals current) - 1))) in
      mkSignals (foldl apply_sample next samples)
  end.

(** One tick of the poller: a failed poll leaves the snapshot alone. *)
Definition poller_tick (store : BackendSignals) (poll : result (list GpuPressure) GpuPressureError) : BackendSignals :=
  match poll with
  | Ok samples => apply_gpu_pressure_updates store samples
  | Err _ => store
  end.

(** * Proofs *)

(** What a sequence of samples last said of a backend. *)
Definition last_report (b : BackendId) (samples : list GpuPressure) : option spec_float :=
  scalar_pressure <$> last (filter (fun g => gpu_backend g = b) samples).

Definition ids_ok (samples : list GpuPressure) : Prop := Forall (fun g => in_u16 (gpu_backend g)) samples.

(** A signal after a report, if there was one. *)
Definition reported (r : option spec_float) (s : BackendSignal) : BackendSignal :=
  match r with Some p => with_gpu_pressure p s | None => s end.

Abbreviation sig_at l b := (default BackendSignal_default (l !! Z.to_nat b)).

Lemma apply_sample_get g l b :
  in_u16 (gpu_backend g) -> in_u16 b ->
  sig_at (apply_sample l g) b =
  if decide (gpu_backend g = b) then with_gpu_pressure (scalar_pressure g) (sig_at l b) else sig_at l b.
Proof.
  intros Hg Hb. unfold apply_sample. set (idx := Z.to_nat (gpu_backend g)).
  set (l' := if (length l <=? idx)%nat then _ else l).
  assert (Hl' : forall n, default BackendSignal_default (l' !! n) = default BackendSignal_default (l !! n)).
  { intros n. subst l'. destruct (Nat.leb_spec (length l) idx); [|done].
    destruct (decide (n < length l)%nat) as [Hn|Hn]; [by rewrite lookup_app_l|].
    rewrite lookup_app_r, (lookup_ge_None_2 l) by lia. cbn.
    destruct (replicate _ _ !! _) as [s|] eqn:E; [|done]. by apply lookup_replicate in E as [-> _]. }
  assert (Hlt : (idx < length l')%nat).
  { subst l'. destruct (Nat.leb_spec (length l) idx); [|done]. rewrite length_app, length_replicate. lia. }
  case_decide as Heq.
  - subst b. fold idx. rewrite list_lookup_alter, decide_True by done. rewrite <- Hl'. by apply lookup_lt_is_Some in Hlt as [s ->].
  - rewrite list_lookup_alter_ne by (subst idx; unfold in_uint in *; lia). apply Hl'.
Qed.

Lemma last_report_snoc b samples g :
  last_report b (samples ++ [g]) =
  if decide (gpu_backend g = b) then Some (scalar_pressure g) else last_report b samples.
Proof.
  unfold last_report. rewrite filter_app, filter_cons, filter_nil. case_decide.
  - by rewrite last_snoc.
  - by rewrite app_nil_r.
Qed.

Lemma reported_twice p r s : with_gpu_pressure p (reported r s) = with_gpu_pressure p s.
Proof. by destruct r. Qed.

Lemma apply_samples_get samples l b :
  ids_ok samples -> in_u16 b -> sig_at (foldl apply_sample l samples) b = reported (last_report b samples) (sig_at l b).
Proof.
  intros Hs Hb. induction samples as [|g samples IH] using rev_ind; [done|].
  apply Forall_app in Hs as [Hs Hg]. rewrite Forall_singleton in Hg.
  rewrite foldl_snoc, apply_sample_get, IH, last_report_snoc by done.
  case_decide; [apply reported_twice|done].
Qed.

Lemma refresh_get current n b :
  in_u16 b -> (length (signals current) <= n)%nat ->
  sig_at ((fun idx => signals_get current (wrap 16 (Z.of_nat idx))) <$> seq 0 n) b = signals_get current b.
Proof.
  intros Hb Hn. rewrite list_lookup_fmap. destruct (decide (Z.to_nat b < n)%nat) as [Hlt|Hge].
  - rewrite lookup_seq_lt by done. cbn. f_equal. rewrite wrap_small; unfold in_uint in *; lia.
  - rewrite lookup_seq_ge by lia. cbn. unfold signals_get. by rewrite lookup_ge_None_2 by lia.
Qed.

Lemma apply_updates_get current samples b :
  ids_ok samples -> in_u16 b ->
  signals_get (apply_gpu_pressure_updates current samples) b = reported (last_report b samples) (signals_get current b).
Proof.
  intros Hs Hb. unfold apply_gpu_pressure_updates. destruct samples as [|g gs]; [done|].
  unfold signals_get at 1. cbn [signals]. rewrite apply_samples_get by done.
  by rewrite refresh_get by (done || lia).
Qed.

(** The samples of the polls that succeeded. *)
Definition seen (polls : list (result (list GpuPressure) GpuPressureError)) : list GpuPressure :=
  polls ≫= fun r => match r with Ok s => s | Err _ => [] end.

Lemma feed_get store polls b :
  Forall (fun r => match r with Ok s => ids_ok s | Err _ => True end) polls -> in_u16 b ->
  signals_get (foldl poller_tick store polls) b = reported (last_report b (seen polls)) (signals_get store b).
Proof.
  intros Hp Hb. induction polls as [|r polls IH] using rev_ind; [done|].
  apply Forall_app in Hp as [Hp Hr]. rewrite Forall_singleton in Hr.
  rewrite foldl_snoc. unfold seen. rewrite bind_app. fold (seen polls). cbn [mbind list_bind].
  rewrite app_nil_r. destruct r as [s|e]; cbn [poller_tick]; [|rewrite app_nil_r; by apply IH].
  rewrite apply_updates_get, IH by done. unfold last_report. rewrite filter_app, last_app.
  by destruct (last (filter _ s)), (last (filter _ (seen polls))).
Qed.

(** The pressure feed under any sequence of polls, failing ones included: the pressure of a
    backend is the last one a successful poll reported for it (the initial one if none did),
    and its circuit state and latency are untouched; backends no poll mentions keep their
    signals. *)
Theorem gpu_feed store polls b :
  Forall (fun r => match r with Ok s => ids_ok s | Err _ => True end) polls -> in_u16 b ->
  let s := signals_get (foldl poller_tick store polls) b in
  circuit_state s = circuit_state (signals_get store b) /\
  recent_p99_ms s = recent_p99_ms (signals_get store b) /\
  gpu_pressure s = match last_report b (seen polls) with
                   | Some p => Some p
                   | None => gpu_pressure (signals_get store b)
                   end.
Proof. intros Hp Hb. cbn zeta. rewrite feed_get by done. by destruct (last_report b (seen polls)). Qed.

(** [C34] From the polls of the exporter to a decision of the weighted router: when the last
    report for a backend, clamped to the unit interval, is at or above the threshold, the
    router, asked with the signals of the polls, sends to it only if every backend of the
    pool is hot or open as well.  This is the weighted router alone: a hit in the trie of
    [KvAware] and the second half of a hedge are chosen without looking at the pressure. *)
Theorem hot_backend_is_shed store polls pool r b p :
  Forall (fun r => match r with Ok s => ids_ok s | Err _ => True end) polls -> in_u16 b ->
  last_report b (seen polls) = Some p -> fle HOT_GPU_PRESSURE_THRESHOLD (fclamp (S754_zero false) (f32_of_Z 1) p) = true -> weighted_ok r ->
  let sigs := foldl poller_tick store polls in
  exists d r', weighted_route pool sigs r = Some (d, r') /\
    (d = Send b -> forall c, c ∈ backends pool ->
       circuit_state (signals_get sigs c) = Open \/ is_hot (signals_get sigs c) = true).
Proof.
  intros Hp Hb Hlast Hhot Hr sigs.
  destruct (weighted_route_outcome pool sigs r Hr) as (d & r' & Heq & _ & _ & Hd).
  exists d, r'. split; [done|]. intros -> c Hc. destruct Hd as (_ & _ & _ & Hcool).
  assert (Hb' : is_hot (signals_get sigs b) = true).
  { subst sigs. rewrite feed_get by done. rewrite Hlast. cbn. unfold is_hot. cbn. done. }
  destruct (decide (circuit_state (signals_get sigs c) = Open)) as [|Hne]; [by left|]. right.
  destruct (is_hot (signals_get sigs c)) eqn:Ec; [done|]. exfalso.
  apply (Hcool ltac:(unfold cool; by rewrite Hb') c Hc); [|done].
  unfold eligible, is_open. by apply bool_decide_eq_false.
Qed.

(** Backend 0 is reported at 95 percent and a later poll fails: the router goes to backend 1. *)
Definition hot_polls : list (result (list GpuPressure) GpuPressureError) :=
  [Ok [mkPressure 0 (f32_of_Z 95) (f32_of_Z 10) ThrottleNone 0]; Err (ScrapeFailed String.EmptyString)].

Lemma hot_backend_is_shed_witness :
  exists d r', weighted_route (mkPool [0; 1]) (foldl poller_tick (mkSignals []) hot_polls)
      (mkWeighted [mkEntry 0 0 ALIAS_SCALE; mkEntry 1 1 ALIAS_SCALE] [0; 1] 7) = Some (d, r') /\ d <> Send 0.
Proof.
  destruct (hot_backend_is_shed (mkSignals []) hot_polls (mkPool [0; 1])
    (mkWeighted [mkEntry 0 0 ALIAS_SCALE; mkEntry 1 1 ALIAS_SCALE] [0; 1] 7) 0
    (scalar_pressure (mkPressure 0 (f32_of_Z 95) (f32_of_Z 10) ThrottleNone 0))) as (d & r' & Heq & Hd).
  - by repeat constructor.
  - by split.
  - done.
  - by vm_compute.
  - apply (with_seed_ok [(0, 1); (1, 1)] 7); [|done|by vm_compute].
    split_and!; [done|unfold MAX_WEIGHTED_BACKENDS; cbn; lia|by repeat constructor|by apply (bool_decide_unpack _)].
  - exists d, r'. split; [exact Heq|]. intros ->. destruct (Hd eq_refl 1) as [H|H]; [set_solver|by vm_compute in H..].
Defined.
