(* ===== verification/Config.v ===== *)
(** * Config: [riftgate-config] and the tenant resolvers

    The schema with its defaults ([schema.rs]), the loader with its environment overrides
    ([loader.rs]), the validator ([validate.rs]), [Secret] ([secret.rs]), the errors
    ([error.rs]), the API-key tenant resolver ([schema.rs]) and the choice of the resolver
    ([riftgate/src/main.rs]).  The TOML deserializer, the file system, the socket-address
    type and SHA-256 are parameters. *)

From Stdlib Require Import Ascii String SpecFloat.
From stdpp Require Import pretty.
From S2P Require Import Prelude Floats Core Http1 Capability Mcp Text.

#[local] Open Scope string_scope.
#[local] Open Scope list_scope.
#[local] Open Scope Z_scope.

(** ** [Secret] *)

Record Secret (T : Type) := mkSecret { expose : T }.
Arguments mkSecret {T}.
Arguments expose {T}.
Definition secret_debug {T} (s : Secret T) : string := "Secret(***)".
Definition secret_display {T} (s : Secret T) : string := "***".
Definition secret_serialize {T} (s : Secret T) : string := "***".

(** ** Errors *)

Inductive SourceLayer := LayerDefaults | LayerFile | LayerEnv.

Definition layer_display (l : SourceLayer) : string :=
  match l with LayerDefaults => "defaults" | LayerFile => "file" | LayerEnv => "env" end.

Inductive ConfigError :=
| FileRead (path message : string)
| TomlParse (path message : string)
| EnvParse (key expected got : string)
| Validation (path expected got : string) (layer : SourceLayer).

#[global] Instance SourceLayer_eq_dec : EqDecision SourceLayer.
Proof. solve_decision. Defined.
#[global] Instance ConfigError_eq_dec : EqDecision ConfigError.
Proof. solve_decision. Defined.

(** ** The schema *)

Inductive LogFormat := LogJson | LogPretty.

Record BackendConfig := mkBackend {
  url : string; auth_header : Secret string; timeout_ms : Z; tls_verify : bool }.
Record TimerConfig := mkTimer { tick_resolution_ms : Z }.
Record ObsConfig := mkObs { otel_endpoint : string; sample_rate : spec_float; bus_capacity : Z }.
Record LogConfig := mkLog { level : string; format : LogFormat }.
Record McpConfig := mkMcp {
  enforce : bool; tenants : list (string * TenantAllowlist);
  signing_key_hex : option string; wal_path : option string }.
Record MultitenancyConfig := mkTenancy { mode : string; api_keys : gmap string string }.

Definition BackendConfig_default : BackendConfig := mkBackend "" (mkSecret "") 30000 true.
Definition TimerConfig_default : TimerConfig := mkTimer 10.
Definition ObsConfig_default : ObsConfig := mkObs "http://127.0.0.1:4317" (f32_lit 1 100) 4096.
Definition LogConfig_default : LogConfig := mkLog "info" LogJson.

(** The derived [Default] of the two newer sections, and what [serde] fills in for a section
    that is present but empty. *)
Definition McpConfig_default : McpConfig := mkMcp false [] None None.
Definition McpConfig_serde_default : McpConfig := mkMcp true [] None None.
Definition MultitenancyConfig_default : MultitenancyConfig := mkTenancy "" ∅.
Definition MultitenancyConfig_serde_default : MultitenancyConfig := mkTenancy "api-key" ∅.

Section config.
Context {Addr : Type} (default_addr : Addr) (parse_addr : string -> option Addr) (addr_error : string)
  (f32_display : spec_float -> string).

Record ServerConfig := mkServer { listen_addr : Addr; worker_threads : option Z }.

Record Config := mkConfig {
  server : ServerConfig;
  backend : BackendConfig;
  timer : TimerConfig;
  obs : ObsConfig;
  log : LogConfig;
  mcp : McpConfig;
  multitenancy : MultitenancyConfig;
}.

Definition ServerConfig_default : ServerConfig := mkServer default_addr None.
Definition Config_default : Config :=
  mkConfig ServerConfig_default BackendConfig_default TimerConfig_default ObsConfig_default
    LogConfig_default McpConfig_default MultitenancyConfig_default.

(** ** Environment overrides *)

(** [to_lowercase] is Unicode, [lower] ASCII: no other character lowers to a letter of the
    words compared here. *)
Definition parse_bool (s : string) : option bool :=
  let l := lower s in
  if String.eqb l "true" || String.eqb l "1" || String.eqb l "yes" || String.eqb l "on" then Some true
  else if String.eqb l "false" || String.eqb l "0" || String.eqb l "no" || String.eqb l "off" then Some false
  else None.

Definition set_server (s : ServerConfig) (c : Config) : Config :=
  mkConfig s (backend c) (timer c) (obs c) (log c) (mcp c) (multitenancy c).
Definition set_backend (b : BackendConfig) (c : Config) : Config :=
  mkConfig (server c) b (timer c) (obs c) (log c) (mcp c) (multitenancy c).
Definition set_timer (t : TimerConfig) (c : Config) : Config :=
  mkConfig (server c) (backend c) t (obs c) (log c) (mcp c) (multitenancy c).
Definition set_obs (o : ObsConfig) (c : Config) : Config :=
  mkConfig (server c) (backend c) (timer c) o (log c) (mcp c) (multitenancy c).
Definition set_log (l : LogConfig) (c : Config) : Config :=
  mkConfig (server c) (backend c) (timer c) (obs c) l (mcp c) (multitenancy c).

(** [got: format!("{v} ({e})")]. *)
Definition got_with (v e : string) : string := v +:+ " (" +:+ e +:+ ")".

(** The assignment an environment variable asks for, or its [EnvParse] error; [None] for a key
    that is not an override (ignored, with a warning for a known prefix). *)
Definition parse_env (k v : string) : option (result (Config -> Config) ConfigError) :=
  let parsed {T} (o : option T) (expected got : string) (set : T -> Config -> Config) :=
    Some (match o with Some x => Ok (set x) | None => Err (EnvParse k expected got) end) in
  if String.eqb k "RIFTGATE_SERVER_LISTEN_ADDR" then
    parsed (parse_addr v) "socket address (e.g. 127.0.0.1:8080)" (got_with v addr_error)
      (fun a c => set_server (mkServer a (worker_threads (server c))) c)
  else if String.eqb k "RIFTGATE_SERVER_WORKER_THREADS" then
    parsed (parse_uint 64 v) "positive integer" (got_with v (uint_error 64 v))
      (fun n c => set_server (mkServer (listen_addr (server c)) (Some n)) c)
  else if String.eqb k "RIFTGATE_BACKEND_URL" then
    Some (Ok (fun c => set_backend (mkBackend v (auth_header (backend c)) (timeout_ms (backend c))
                                      (tls_verify (backend c))) c))
  else if String.eqb k "RIFTGATE_BACKEND_AUTH_HEADER" then
    Some (Ok (fun c => set_backend (mkBackend (url (backend c)) (mkSecret v) (timeout_ms (backend c))
                                      (tls_verify (backend c))) c))
  else if String.eqb k "RIFTGATE_BACKEND_TIMEOUT_MS" then
    parsed (parse_uint 32 v) "positive integer (ms)" (got_with v (uint_error 32 v))
      (fun n c => set_backend (mkBackend (url (backend c)) (auth_header (backend c)) n
                                 (tls_verify (backend c))) c)
  else if String.eqb k "RIFTGATE_BACKEND_TLS_VERIFY" then
    parsed (parse_bool v) "boolean (true/false/1/0)" v
      (fun b c => set_backend (mkBackend (url (backend c)) (auth_header (backend c))
                                 (timeout_ms (backend c)) b) c)
  else if String.eqb k "RIFTGATE_TIMER_TICK_RESOLUTION_MS" then
    parsed (parse_uint 32 v) "positive integer (ms)" (got_with v (uint_error 32 v))
      (fun n c => set_timer (mkTimer n) c)
  else if String.eqb k "RIFTGATE_OBS_OTEL_ENDPOINT" then
    Some (Ok (fun c => set_obs (mkObs v (sample_rate (obs c)) (bus_capacity (obs c))) c))
  else if String.eqb k "RIFTGATE_OBS_SAMPLE_RATE" then
    parsed (parse_f32 v) "f32 in [0.0, 1.0]" (got_with v (float_error v))
      (fun x c => set_obs (mkObs (otel_endpoint (obs c)) x (bus_capacity (obs c))) c)
  else if String.eqb k "RIFTGATE_OBS_BUS_CAPACITY" then
    parsed (parse_uint 64 v) "positive integer" (got_with v (uint_error 64 v))
      (fun n c => set_obs (mkObs (otel_endpoint (obs c)) (sample_rate (obs c)) n) c)
  else if String.eqb k "RIFTGATE_LOG_LEVEL" then
    Some (Ok (fun c => set_log (mkLog v (format (log c))) c))
  else if String.eqb k "RIFTGATE_LOG_FORMAT" then
    parsed (if String.eqb (lower v) "json" then Some LogJson
            else if String.eqb (lower v) "pretty" then Some LogPretty else None)
      ("log format: " +:+ String "034" "json" +:+ String "034" " or " +:+ String "034" "pretty" +:+ String "034" "") v
      (fun f c => set_log (mkLog (level (log c)) f) c)
  else None.

(** One iteration of the loop; the iteration order of the environment is arbitrary. *)
Definition env_step (s : Config * list ConfigError) (kv : string * string) : Config * list ConfigError :=
  match parse_env (fst kv) (snd kv) with
  | Some (Ok set) => (set (fst s), snd s)
  | Some (Err e) => (fst s, snd s ++ [e])
  | None => s
  end.

Definition apply_env_overrides (env : list (string * string)) (c : Config) (errors : list ConfigError) :
    Config * list ConfigError :=
  foldl env_step (c, errors) env.

(** ** Validation *)

Definition violated (b : bool) (e : ConfigError) : list ConfigError := if b then [e] else [].

Definition level_ok (l : string) : bool :=
  existsb (String.eqb (lower l)) ["trace"; "debug"; "info"; "warn"; "error"; "off"].

Definition validate_errors (c : Config) : list ConfigError :=
  (if String.eqb (url (backend c)) "" then
     [Validation "backend.url" "a non-empty URL" "(empty)" LayerDefaults]
   else violated (negb (starts_with (url (backend c)) "http://" || starts_with (url (backend c)) "https://"))
          (Validation "backend.url" "a URL starting with http:// or https://" (url (backend c)) LayerFile)) ++
  violated (timeout_ms (backend c) =? 0)
    (Validation "backend.timeout_ms" "a positive integer (ms)" "0" LayerFile) ++
  violated (bool_decide (worker_threads (server c) = Some 0))
    (Validation "server.worker_threads" "a positive integer or omitted (autodetect)" "0" LayerFile) ++
  violated (tick_resolution_ms (timer c) =? 0)
    (Validation "timer.tick_resolution_ms" "a positive integer (ms)" "0" LayerFile) ++
  violated (negb (fle (S754_zero false) (sample_rate (obs c)) && fle (sample_rate (obs c)) (f32_of_Z 1)))
    (Validation "obs.sample_rate" "a real number in [0.0, 1.0]" (f32_display (sample_rate (obs c))) LayerFile) ++
  violated (bus_capacity (obs c) =? 0)
    (Validation "obs.bus_capacity" "a positive integer" "0" LayerFile) ++
  violated (negb (level_ok (level (log c))))
    (Validation "log.level" "one of: trace, debug, info, warn, error, off" (level (log c)) LayerFile).

Definition validate (c : Config) : result unit (list ConfigError) :=
  match validate_errors c with [] => Ok tt | es => Err es end.

(** ** Loading: defaults, file, environment *)

Definition load (read_to_string : string -> result string string) (toml : string -> result Config string)
    (path : option string) (env : list (string * string)) : result Config (list ConfigError) :=
  let layers :=
    match path with
    | Some p =>
        match read_to_string p with
        | Ok text => match toml text with Ok c => Ok c | Err m => Err [TomlParse p m] end
        | Err m => Err [FileRead p m]
        end
    | None => Ok Config_default
    end in
  match layers with
  | Err es => Err es
  | Ok c0 =>
      let '(c, errors) := apply_env_overrides env c0 [] in
      let errors := errors ++ match validate c with Ok _ => [] | Err es => es end in
      match errors with [] => Ok c | _ => Err errors end
  end.
End config.
Arguments Config : clear implicits.
Arguments ServerConfig : clear implicits.

(** ** The API-key tenant resolver *)

Section tenancy.
Context (sha256 : list byte -> list byte).

Record ApiKeyTenantResolver := mkApiKeys { registry : gmap string (TenantId * string) }.

Definition from_multitenancy (cfg : MultitenancyConfig) : ApiKeyTenantResolver :=
  mkApiKeys ((fun name => (tenant_id_from_str name, name)) <$> api_keys cfg).

Definition hash_key (raw_key : string) : string := "sha256:" +:+ hex_encode (sha256 (as_bytes raw_key)).

Definition api_key_resolve (r : ApiKeyTenantResolver) (get : string -> option string) : option TenantIdentity :=
  auth ← get "authorization";
  raw_key ← strip_prefix "Bearer " auth;
  '(id, principal) ← registry r !! hash_key raw_key;
  Some (mkIdentity id principal).

#[global] Instance ApiKeyTenantResolver_resolver : TenantResolver ApiKeyTenantResolver :=
  {| resolve := api_key_resolve |}.

(** [build_tenant_resolver] of the binary: the trait object it returns. *)
Inductive GatewayResolver :=
| ByHeader (r : HeaderTenantResolver)
| ByApiKey (r : ApiKeyTenantResolver).

Definition gateway_resolve (g : GatewayResolver) (get : string -> option string) : option TenantIdentity :=
  match g with ByHeader r => resolve r get | ByApiKey r => resolve r get end.

#[global] Instance GatewayResolver_resolver : TenantResolver GatewayResolver :=
  {| resolve := gateway_resolve |}.

Definition build_tenant_resolver (cfg : MultitenancyConfig) : GatewayResolver :=
  if String.eqb (mode cfg) "trusted-header" then ByHeader mkHeaderResolver
  else if bool_decide (api_keys cfg = ∅) then ByHeader mkHeaderResolver
  else ByApiKey (from_multitenancy cfg).
End tenancy.

(** * Proofs *)

(** ** Overrides: what each variable assigns *)

Section overrides.
Context {Addr : Type} (parse_addr : string -> option Addr) (addr_error : string).
Implicit Types c : Config Addr.

Inductive setting :=
| SetListenAddr (a : Addr) | SetWorkerThreads (n : Z) | SetUrl (s : string) | SetAuth (s : string)
| SetTimeout (n : Z) | SetTls (b : bool) | SetTick (n : Z) | SetOtel (s : string) | SetRate (x : spec_float)
| SetBus (n : Z) | SetLevel (s : string) | SetFormat (f : LogFormat).

Definition apply_setting (s : setting) c : Config Addr :=
  let b := backend c in
  match s with
  | SetListenAddr a => set_server (mkServer a (worker_threads (server c))) c
  | SetWorkerThreads n => set_server (mkServer (listen_addr (server c)) (Some n)) c
  | SetUrl v => set_backend (mkBackend v (auth_header b) (timeout_ms b) (tls_verify b)) c
  | SetAuth v => set_backend (mkBackend (url b) (mkSecret v) (timeout_ms b) (tls_verify b)) c
  | SetTimeout n => set_backend (mkBackend (url b) (auth_header b) n (tls_verify b)) c
  | SetTls v => set_backend (mkBackend (url b) (auth_header b) (timeout_ms b) v) c
  | SetTick n => set_timer (mkTimer n) c
  | SetOtel v => set_obs (mkObs v (sample_rate (obs c)) (bus_capacity (obs c))) c
  | SetRate x => set_obs (mkObs (otel_endpoint (obs c)) x (bus_capacity (obs c))) c
  | SetBus n => set_obs (mkObs (otel_endpoint (obs c)) (sample_rate (obs c)) n) c
  | SetLevel v => set_log (mkLog v (format (log c))) c
  | SetFormat f => set_log (mkLog (level (log c)) f) c
  end.

Definition setting_key (s : setting) : string :=
  match s with
  | SetListenAddr _ => "RIFTGATE_SERVER_LISTEN_ADDR"
  | SetWorkerThreads _ => "RIFTGATE_SERVER_WORKER_THREADS"
  | SetUrl _ => "RIFTGATE_BACKEND_URL"
  | SetAuth _ => "RIFTGATE_BACKEND_AUTH_HEADER"
  | SetTimeout _ => "RIFTGATE_BACKEND_TIMEOUT_MS"
  | SetTls _ => "RIFTGATE_BACKEND_TLS_VERIFY"
  | SetTick _ => "RIFTGATE_TIMER_TICK_RESOLUTION_MS"
  | SetOtel _ => "RIFTGATE_OBS_OTEL_ENDPOINT"
  | SetRate _ => "RIFTGATE_OBS_SAMPLE_RATE"
  | SetBus _ => "RIFTGATE_OBS_BUS_CAPACITY"
  | SetLevel _ => "RIFTGATE_LOG_LEVEL"
  | SetFormat _ => "RIFTGATE_LOG_FORMAT"
  end.

Lemma parse_env_setting k v f :
  parse_env parse_addr addr_error k v = Some (Ok f) -> exists s, f = apply_setting s /\ setting_key s = k.
Proof.
  unfold parse_env. intros Hp.
  repeat match type of Hp with
  | (if String.eqb k ?lit then _ else _) = _ =>
      destruct (String.eqb_spec k lit) as [->|_];
      [first [injection Hp as <- | repeat case_match; simplify_eq]|]
  end; try done.
  - by exists (SetListenAddr a).
  - by exists (SetWorkerThreads z).
  - by exists (SetUrl v).
  - by exists (SetAuth v).
  - by exists (SetTimeout z).
  - by exists (SetTls b).
  - by exists (SetTick z).
  - by exists (SetOtel v).
  - by exists (SetRate s).
  - by exists (SetBus z).
  - by exists (SetLevel v).
  - by exists (SetFormat LogJson).
  - by exists (SetFormat LogPretty).
Qed.

Lemma apply_setting_comm s1 s2 c :
  setting_key s1 <> setting_key s2 -> apply_setting s1 (apply_setting s2 c) = apply_setting s2 (apply_setting s1 c).
Proof. by destruct s1, s2. Qed.
End overrides.

Section loading.
Context {Addr : Type} (default_addr : Addr) (parse_addr : string -> option Addr) (addr_error : string)
  (f32_display : spec_float -> string).
Implicit Types c : Config Addr.
Implicit Types env : list (string * string).

Abbreviation penv := (parse_env parse_addr addr_error).
Abbreviation overrides := (apply_env_overrides parse_addr addr_error).

Definition env_error (kv : string * string) : option ConfigError :=
  match penv (fst kv) (snd kv) with Some (Err e) => Some e | _ => None end.

Definition env_set (kv : string * string) c : Config Addr :=
  match penv (fst kv) (snd kv) with Some (Ok f) => f c | _ => c end.

(** The two results of the loop are independent folds. *)
Lemma overrides_split env c es :
  overrides env c es = (foldl (fun c kv => env_set kv c) c env, es ++ omap env_error env).
Proof.
  unfold apply_env_overrides. revert c es. induction env as [|kv env IH]; intros c es; cbn.
  { by rewrite app_nil_r. }
  unfold env_step at 2, env_set at 2, env_error at 1. cbn.
  destruct (penv (fst kv) (snd kv)) as [[f|e]|]; rewrite IH; cbn; try done.
  by rewrite <- app_assoc.
Qed.

Lemma env_set_comm kv1 kv2 c :
  fst kv1 <> fst kv2 -> env_set kv1 (env_set kv2 c) = env_set kv2 (env_set kv1 c).
Proof.
  intros Hne. unfold env_set.
  destruct (penv (fst kv1) (snd kv1)) as [[f|]|] eqn:E1, (penv (fst kv2) (snd kv2)) as [[g|]|] eqn:E2; try done.
  apply parse_env_setting in E1 as (s1 & -> & Hk1), E2 as (s2 & -> & Hk2).
  apply apply_setting_comm. congruence.
Qed.

Lemma env_sets_perm env1 env2 c :
  env1 ≡ₚ env2 -> NoDup env1.*1 ->
  foldl (fun c kv => env_set kv c) c env1 = foldl (fun c kv => env_set kv c) c env2.
Proof.
  intros Hp. revert c. induction Hp as [|x l1 l2 Hp IH|x y l|l1 l2 l3 Hp1 IH1 Hp2 IH2]; intros c Hnd; cbn in *.
  - done.
  - inversion_clear Hnd as [|? ? _ Hnd']. by apply IH.
  - inversion_clear Hnd as [|? ? Hy Hnd']. f_equal. apply env_set_comm. set_solver.
  - rewrite IH1 by done. apply IH2. by rewrite <- Hp1.
Qed.

(** ** Validation *)

Definition path_of (e : ConfigError) : string :=
  match e with FileRead p _ | TomlParse p _ | Validation p _ _ _ => p | EnvParse k _ _ => k end.

(** What the documentation of each field asks for. *)
Definition satisfied c (path : string) : bool :=
  if String.eqb path "backend.url" then
    negb (String.eqb (url (backend c)) "") &&
    (starts_with (url (backend c)) "http://" || starts_with (url (backend c)) "https://")
  else if String.eqb path "backend.timeout_ms" then negb (timeout_ms (backend c) =? 0)
  else if String.eqb path "server.worker_threads" then negb (bool_decide (worker_threads (server c) = Some 0))
  else if String.eqb path "timer.tick_resolution_ms" then negb (tick_resolution_ms (timer c) =? 0)
  else if String.eqb path "obs.sample_rate" then
    fle (S754_zero false) (sample_rate (obs c)) && fle (sample_rate (obs c)) (f32_of_Z 1)
  else if String.eqb path "obs.bus_capacity" then negb (bus_capacity (obs c) =? 0)
  else if String.eqb path "log.level" then level_ok (level (log c))
  else true.

Definition checked_paths : list string :=
  ["backend.url"; "backend.timeout_ms"; "server.worker_threads"; "timer.tick_resolution_ms";
   "obs.sample_rate"; "obs.bus_capacity"; "log.level"].

Lemma check_path b e p (sat : bool) rest rest' :
  path_of e = p -> sat = negb b -> path_of <$> rest = rest' ->
  path_of <$> (violated b e ++ rest) = if decide (sat = false) then p :: rest' else rest'.
Proof. intros <- -> <-. destruct b; cbn; [by rewrite decide_True|by rewrite decide_False]. Qed.

Lemma validate_paths c :
  path_of <$> validate_errors f32_display c = filter (fun p => satisfied c p = false) checked_paths.
Proof.
  unfold validate_errors, checked_paths. rewrite !filter_cons, filter_nil.
  replace (if String.eqb (url (backend c)) "" then _ else _) with
    (violated (negb (satisfied c "backend.url"))
      (if String.eqb (url (backend c)) ""
       then Validation "backend.url" "a non-empty URL" "(empty)" LayerDefaults
       else Validation "backend.url" "a URL starting with http:// or https://" (url (backend c)) LayerFile)).
  2: { unfold satisfied. cbn [String.eqb Ascii.eqb Bool.eqb]. by destruct (String.eqb (url (backend c)) ""). }
  apply check_path; [by destruct (String.eqb _ _)|by rewrite negb_involutive|].
  do 4 (apply check_path; [done|unfold satisfied; cbn [String.eqb Ascii.eqb Bool.eqb]; by rewrite ?negb_involutive|]).
  apply check_path; [done|done|]. rewrite <- (app_nil_r (violated _ _)).
  apply check_path; [done|unfold satisfied; cbn [String.eqb Ascii.eqb Bool.eqb]; by rewrite negb_involutive|done].
Qed.

(** The validator accumulates: it accepts a configuration exactly when every documented
    constraint holds, and otherwise reports each violated field once, in order, and no
    other. *)
Theorem validate_reports_every_violation c :
  (validate f32_display c = Ok tt <-> Forall (fun p => satisfied c p = true) checked_paths) /\
  (forall es, validate f32_display c = Err es ->
     path_of <$> es = filter (fun p => satisfied c p = false) checked_paths).
Proof.
  pose proof (validate_paths c) as Hp. unfold validate. split.
  - rewrite Forall_forall. split.
    + destruct (validate_errors f32_display c); [|done]. intros _ p Hin.
      destruct (satisfied c p) eqn:Es; [done|]. exfalso.
      apply (not_elem_of_nil p). rewrite (eq_refl : [] = path_of <$> []), Hp.
      by apply list_elem_of_filter.
    + intros Hall. rewrite (filter_none (fun p => satisfied c p = false)) in Hp.
      * by apply fmap_nil_inv in Hp as ->.
      * apply Forall_forall. intros p Hin. by rewrite Hall.
  - intros es. destruct (validate_errors f32_display c); [done|]. by intros [= <-].
Qed.
(** ** Loading *)

Context (read_to_string : string -> result string string) (toml : string -> result (Config Addr) string).

Abbreviation load_config := (load default_addr parse_addr addr_error f32_display read_to_string toml).

Definition file_layer (path : option string) : result (Config Addr) (list ConfigError) :=
  match path with
  | Some p =>
      match read_to_string p with
      | Ok text => match toml text with Ok c => Ok c | Err m => Err [TomlParse p m] end
      | Err m => Err [FileRead p m]
      end
  | None => Ok (Config_default default_addr)
  end.

Lemma load_unfold path env :
  load_config path env =
  match file_layer path with
  | Err es => Err es
  | Ok c0 =>
      let c := foldl (fun c kv => env_set kv c) c0 env in
      match omap env_error env ++ validate_errors f32_display c with [] => Ok c | es => Err es end
  end.
Proof.
  unfold load. fold (file_layer path). destruct (file_layer path) as [c0|]; [|done].
  rewrite overrides_split. cbn [app]. unfold validate.
  cbv zeta. destruct (validate_errors f32_display _) as [|e l]; cbn [app]; by destruct (omap env_error env ++ _).
Qed.

(** The override of one field, [RIFTGATE_<SECTION>_<KEY>]: its variable, what the text of the
    variable says of the field, and that the field is as the layer below has it. *)
Record override := mkOverride {
  variable : string;
  says : string -> Config Addr -> Prop;
  kept : Config Addr -> Config Addr -> Prop;
}.

Definition field {T} (k : string) (means : string -> T -> Prop) (get : Config Addr -> T) : override :=
  mkOverride k (fun v c => means v (get c)) (fun c0 c => get c = get c0).

Definition bool_word (v : string) (b : bool) : Prop :=
  lower v ∈ (if b then ["true"; "1"; "yes"; "on"] else ["false"; "0"; "no"; "off"]).
Definition format_word (v : string) (f : LogFormat) : Prop :=
  lower v = match f with LogJson => "json" | LogPretty => "pretty" end.

Definition override_table : list override :=
  [field "RIFTGATE_SERVER_LISTEN_ADDR" (fun v a => parse_addr v = Some a) (fun c => listen_addr (server c));
   field "RIFTGATE_SERVER_WORKER_THREADS" (fun v n => is_Some n /\ parse_uint 64 v = n) (fun c => worker_threads (server c));
   field "RIFTGATE_BACKEND_URL" (fun v u => u = v) (fun c => url (backend c));
   field "RIFTGATE_BACKEND_AUTH_HEADER" (fun v h => h = v) (fun c => expose (auth_header (backend c)));
   field "RIFTGATE_BACKEND_TIMEOUT_MS" (fun v n => parse_uint 32 v = Some n) (fun c => timeout_ms (backend c));
   field "RIFTGATE_BACKEND_TLS_VERIFY" bool_word (fun c => tls_verify (backend c));
   field "RIFTGATE_TIMER_TICK_RESOLUTION_MS" (fun v n => parse_uint 32 v = Some n) (fun c => tick_resolution_ms (timer c));
   field "RIFTGATE_OBS_OTEL_ENDPOINT" (fun v u => u = v) (fun c => otel_endpoint (obs c));
   field "RIFTGATE_OBS_SAMPLE_RATE" (fun v x => parse_f32 v = Some x) (fun c => sample_rate (obs c));
   field "RIFTGATE_OBS_BUS_CAPACITY" (fun v n => parse_uint 64 v = Some n) (fun c => bus_capacity (obs c));
   field "RIFTGATE_LOG_LEVEL" (fun v l => l = v) (fun c => level (log c));
   field "RIFTGATE_LOG_FORMAT" format_word (fun c => format (log c))].

Lemma parse_bool_word v b : parse_bool v = Some b -> bool_word v b.
Proof.
  unfold parse_bool, bool_word. cbv zeta. generalize (lower v). intros l.
  repeat match goal with
  | |- context [String.eqb l ?w] =>
      destruct (String.eqb_spec l w) as [->|_]; [intros [= <-]; by apply (bool_decide_unpack _)|cbn [orb]]
  end. done.
Qed.

(** A variable that parses sets its own field. *)
Lemma row_says r kv c :
  r ∈ override_table -> fst kv = variable r -> env_error kv = None -> says r (snd kv) (env_set kv c).
Proof.
  destruct kv as [k v]. cbn [fst snd]. unfold env_error, env_set, override_table. cbn [fst snd].
  rewrite !elem_of_cons, elem_of_nil. intros Hr ->.
  destruct_or! Hr; subst r; cbn [variable field says]; unfold parse_env; cbn [String.eqb Ascii.eqb Bool.eqb]; try done.
  - by destruct (parse_addr v).
  - destruct (parse_uint 64 v); [|done]. cbn. by eauto.
  - by destruct (parse_uint 32 v).
  - destruct (parse_bool v) eqn:E; [|done]. intros _. by apply parse_bool_word.
  - by destruct (parse_uint 32 v).
  - by destruct (parse_f32 v).
  - by destruct (parse_uint 64 v).
  - unfold format_word. destruct (String.eqb_spec (lower v) "json"); [done|].
    by destruct (String.eqb_spec (lower v) "pretty").
Qed.

(** No other variable touches it, and none touches the last two sections. *)
Lemma row_kept r kv c0 c :
  r ∈ override_table -> fst kv <> variable r -> kept r c0 c -> kept r c0 (env_set kv c).
Proof.
  intros Hr Hk Hc. unfold env_set. destruct (penv (fst kv) (snd kv)) as [[f|]|] eqn:E; try done.
  apply parse_env_setting in E as (s & -> & Hs). rewrite <- Hs in Hk. clear Hs.
  unfold override_table in Hr. rewrite !elem_of_cons, elem_of_nil in Hr.
  destruct_or! Hr; subst r; cbn [kept field variable] in *; destruct s; done.
Qed.

Lemma sets_kept r env c0 :
  r ∈ override_table -> variable r ∉ env.*1 -> kept r c0 (foldl (fun c kv => env_set kv c) c0 env).
Proof.
  intros Hr Hk. assert (H0 : kept r c0 c0).
  { unfold override_table in Hr. rewrite !elem_of_cons, elem_of_nil in Hr. destruct_or! Hr; by subst r. }
  revert H0. generalize c0 at 2 4. induction env as [|kv env IH]; intros c Hc; [done|]. cbn in *.
  apply not_elem_of_cons in Hk as [Hne Hk]. apply IH; [done|]. by apply row_kept.
Qed.

Lemma sets_fixed env c :
  let c' := foldl (fun c kv => env_set kv c) c env in mcp c' = mcp c /\ multitenancy c' = multitenancy c.
Proof.
  revert c. induction env as [|kv env IH]; intros c; [done|]. cbn. destruct (IH (env_set kv c)) as [-> ->].
  unfold env_set. destruct (penv _ _) as [[f|]|] eqn:E; try done.
  apply parse_env_setting in E as (s & -> & _). by destruct s.
Qed.

(** [C24] A loaded configuration is valid and layered.  Take the variables of the environment,
    each once, in any order.  If the load succeeds, the file (or without one the defaults)
    gave a configuration, the result satisfies every checked constraint, and of the twelve
    fields that have a variable: where the environment has the variable, the field has the
    value that its text stands for, and where it has not, the value of the file; the MCP and
    tenancy sections are those of the file. *)
Theorem load_valid_and_overridden path env c :
  NoDup env.*1 -> load_config path env = Ok c ->
  Forall (fun p => satisfied c p = true) checked_paths /\
  exists c0, file_layer path = Ok c0 /\ mcp c = mcp c0 /\ multitenancy c = multitenancy c0 /\
    forall r, r ∈ override_table ->
      (forall v, (variable r, v) ∈ env -> says r v c) /\
      (variable r ∉ env.*1 -> kept r c0 c).
Proof.
  intros Hnd. rewrite load_unfold. destruct (file_layer path) as [c0|]; [|done]. cbn zeta.
  destruct (omap env_error env ++ _) eqn:E; [|done]. intros [= <-].
  apply app_eq_nil in E as [Ee Ev]. split.
  - pose proof (validate_paths (foldl (fun c kv => env_set kv c) c0 env)) as Hp. rewrite Ev in Hp.
    apply Forall_forall. intros p Hin. destruct (satisfied _ p) eqn:Es; [done|]. exfalso.
    apply (not_elem_of_nil p). rewrite (eq_refl : [] = path_of <$> []), Hp. by apply list_elem_of_filter.
  - exists c0. destruct (sets_fixed env c0) as [Hm Ht]. split_and!; [done..|]. intros r Hr.
    split; [|by apply sets_kept]. intros v Hin.
    assert (Hok : env_error (variable r, v) = None).
    { destruct (env_error _) as [e|] eqn:Ekv; [|done]. exfalso. apply (not_elem_of_nil e).
      rewrite <- Ee. apply list_elem_of_omap. by exists (variable r, v). }
    apply list_elem_of_split in Hin as (l1 & l2 & ->).
    assert (Hp : l1 ++ (variable r, v) :: l2 ≡ₚ (l1 ++ l2) ++ [(variable r, v)]).
    { rewrite <- Permutation_middle, <- Permutation_cons_append. done. }
    rewrite (env_sets_perm _ _ c0 Hp Hnd), foldl_app. cbn. by apply (row_says r (variable r, v)).
Qed.

(** The loader is a function of the environment as a map: for two enumerations of the same
    variables the loaded configuration is the same, and a failure reports the same errors up
    to their order. *)
Theorem load_order_irrelevant path env1 env2 :
  env1 ≡ₚ env2 -> NoDup env1.*1 ->
  match load default_addr parse_addr addr_error f32_display read_to_string toml path env1,
        load default_addr parse_addr addr_error f32_display read_to_string toml path env2 with
  | Ok c1, Ok c2 => c1 = c2
  | Err es1, Err es2 => es1 ≡ₚ es2
  | _, _ => False
  end.
Proof.
  intros Hp Hnd. rewrite !load_unfold. destruct (file_layer path) as [c0|]; [|done]. cbn zeta.
  rewrite (env_sets_perm _ _ c0 Hp Hnd). set (c := foldl _ c0 env2).
  assert (He : omap env_error env1 ++ validate_errors f32_display c ≡ₚ
               omap env_error env2 ++ validate_errors f32_display c) by by rewrite Hp.
  destruct (omap env_error env1 ++ _) as [|e1 l1], (omap env_error env2 ++ _) as [|e2 l2]; try done.
  - by apply Permutation_nil_cons in He.
  - by symmetry in He; apply Permutation_nil_cons in He.
Qed.

(** ** The secret *)

(** Replace the value of the authorization variable. *)
Definition with_auth (secret : string) (kv : string * string) : string * string :=
  if String.eqb (fst kv) "RIFTGATE_BACKEND_AUTH_HEADER" then (fst kv, secret) else kv.

Definition errors_of (r : result (Config Addr) (list ConfigError)) : list ConfigError :=
  match r with Ok _ => [] | Err es => es end.

(** Two configurations that differ at most in the secret. *)
Definition same_but_auth c1 c2 : Prop :=
  exists s, c2 = set_backend (mkBackend (url (backend c1)) s (timeout_ms (backend c1)) (tls_verify (backend c1))) c1.

Lemma env_set_auth s kv c1 c2 :
  same_but_auth c1 c2 -> same_but_auth (env_set kv c1) (env_set (with_auth s kv) c2).
Proof.
  intros [s' ->]. unfold with_auth. destruct (String.eqb_spec (fst kv) "RIFTGATE_BACKEND_AUTH_HEADER") as [Hk|Hk].
  - destruct kv as [k v]. cbn in Hk. subst k. by exists (mkSecret s).
  - unfold env_set. destruct (penv (fst kv) (snd kv)) as [[f|]|] eqn:E; [|by exists s'..].
    apply parse_env_setting in E as (st & -> & Hst). destruct st; try (by exists s').
Qed.

Lemma env_sets_auth s env c1 c2 :
  same_but_auth c1 c2 ->
  same_but_auth (foldl (fun c kv => env_set kv c) c1 env) (foldl (fun c kv => env_set kv c) c2 (with_auth s <$> env)).
Proof. revert c1 c2. induction env as [|kv env IH]; intros c1 c2 Hs; cbn; [done|]. by apply IH, env_set_auth. Qed.

Lemma env_errors_auth s env : omap env_error (with_auth s <$> env) = omap env_error env.
Proof.
  induction env as [|kv env IH]; cbn; [done|]. rewrite IH.
  assert (env_error (with_auth s kv) = env_error kv) as ->; [|done].
  unfold with_auth. destruct (String.eqb_spec (fst kv) "RIFTGATE_BACKEND_AUTH_HEADER") as [Hk|]; [|done].
  destruct kv as [k v]. cbn in Hk. by subst k.
Qed.

(** The upstream credential cannot leak through the loader's errors: whatever value the
    authorization variable has, the reported errors are the same, and a successful load
    differs in that field only. *)
Theorem secret_does_not_leak path env secret :
  errors_of (load_config path (with_auth secret <$> env)) = errors_of (load_config path env) /\
  forall c, load_config path env = Ok c ->
    exists c', load_config path (with_auth secret <$> env) = Ok c' /\ same_but_auth c c'.
Proof.
  rewrite !load_unfold. destruct (file_layer path) as [c0|]; [|done]. cbn zeta. rewrite env_errors_auth.
  assert (Hs : same_but_auth c0 c0) by (exists (auth_header (backend c0)); by destruct c0 as [? [] ? ? ? ? ?]).
  pose proof (env_sets_auth secret env c0 c0 Hs) as Hc.
  set (c1 := foldl _ c0 env) in *. set (c2 := foldl _ c0 (with_auth secret <$> env)) in *.
  assert (Hv : validate_errors f32_display c2 = validate_errors f32_display c1) by (by destruct Hc as [s ->]).
  rewrite Hv. destruct (omap env_error env ++ _); [|done]. split; [done|]. intros c [= <-]. by exists c2.
Qed.
End loading.

(** ** Tenants *)

Section tenants_spec.
Context (sha256 : list byte -> list byte).

(** API-key mode identifies callers by their key alone: a request resolves exactly when it
    presents [Authorization: Bearer <key>] and the hash of the key is registered, and then to
    the tenant registered for that hash, whatever other headers it carries. *)
Theorem api_key_identity cfg get id :
  resolve (TenantResolver := ApiKeyTenantResolver_resolver sha256) (from_multitenancy cfg) get = Some id <->
  exists key name, get "authorization" = Some ("Bearer " +:+ key) /\
    api_keys cfg !! hash_key sha256 key = Some name /\
    id = mkIdentity (tenant_id_from_str name) name.
Proof.
  cbn. unfold api_key_resolve. cbn [registry from_multitenancy]. split.
  - destruct (get "authorization") as [auth|]; [|done]. cbn [mbind option_bind].
    destruct (strip_prefix "Bearer " auth) as [key|] eqn:E; [|done]. cbn [mbind option_bind].
    apply strip_prefix_some in E as ->. rewrite lookup_fmap.
    destruct (api_keys cfg !! hash_key sha256 key) as [name|] eqn:El; [|done].
    cbn. intros [= <-]. by exists key, name.
  - intros (key & name & -> & Hl & ->). cbn [mbind option_bind].
    rewrite (proj2 (strip_prefix_some "Bearer " ("Bearer " +:+ key) key) eq_refl). cbn [mbind option_bind].
    by rewrite lookup_fmap, Hl.
Qed.

(** With no API key registered the gateway believes the client: in every mode the identity is
    the content of the [x-riftgate-tenant] header. *)
Theorem empty_registry_trusts_header cfg get tenant :
  api_keys cfg = ∅ -> get "x-riftgate-tenant" = Some tenant ->
  resolve (TenantResolver := GatewayResolver_resolver sha256) (build_tenant_resolver cfg) get =
  Some (mkIdentity (tenant_id_from_str tenant) tenant).
Proof.
  intros Hk Hg. unfold build_tenant_resolver. rewrite bool_decide_eq_true_2 by done.
  destruct (String.eqb _ _); cbn; unfold header_resolve; by rewrite Hg.
Qed.
End tenants_spec.

(** ** Concrete loads: addresses are strings *)

Definition demo_env : list (string * string) :=
  [("RIFTGATE_BACKEND_URL", "https://api.example.com"); ("RIFTGATE_BACKEND_TIMEOUT_MS", "1500");
   ("RIFTGATE_OBS_SAMPLE_RATE", "0.5"); ("HOME", "/root")].

Abbreviation demo_load := (load "127.0.0.1:8080" (fun s => Some s) "invalid socket address syntax"
  (fun _ => "NaN") (fun _ => Err "no file") (fun _ => Err "no toml") None).

Lemma load_valid_and_overridden_witness :
  match demo_load demo_env with
  | Ok c => timeout_ms (backend c) = 1500 /\ tick_resolution_ms (timer c) = 10
  | Err _ => False
  end.
Proof.
  destruct (demo_load demo_env) as [c|es] eqn:E; [|by vm_compute in E].
  assert (Hnd : NoDup demo_env.*1) by (apply (bool_decide_unpack _); by vm_compute).
  destruct (load_valid_and_overridden _ _ _ _ _ _ None demo_env c Hnd E) as (_ & c0 & H0 & _ & _ & Hrows).
  injection H0 as <-. split.
  - destruct (Hrows _ (list_elem_of_lookup_2 (override_table (fun s => Some s)) 4 _ eq_refl)) as [Ht _].
    specialize (Ht "1500" ltac:(by apply (bool_decide_unpack _))). cbn in Ht.
    change (parse_uint 32 "1500") with (Some 1500) in Ht. by injection Ht.
  - destruct (Hrows _ (list_elem_of_lookup_2 (override_table (fun s => Some s)) 6 _ eq_refl)) as [_ Ht].
    apply Ht. by apply (bool_decide_unpack _).
Defined.

Lemma load_order_irrelevant_witness :
  match demo_load demo_env, demo_load (rev demo_env) with
  | Ok c1, Ok c2 => c1 = c2
  | Err es1, Err es2 => es1 ≡ₚ es2
  | _, _ => False
  end.
Proof.
  apply (load_order_irrelevant "127.0.0.1:8080" (fun s => Some s)).
  - apply Permutation_rev.
  - apply (bool_decide_unpack _). by vm_compute.
Defined.

Example demo_errors :
  demo_load [("RIFTGATE_BACKEND_TIMEOUT_MS", "0"); ("RIFTGATE_OBS_BUS_CAPACITY", "many")] =
  Err [EnvParse "RIFTGATE_OBS_BUS_CAPACITY" "positive integer" "many (invalid digit found in string)";
       Validation "backend.url" "a non-empty URL" "(empty)" LayerDefaults;
       Validation "backend.timeout_ms" "a positive integer (ms)" "0" LayerFile].
Proof. by vm_compute. Qed.

Lemma empty_registry_trusts_header_witness :
  resolve (TenantResolver := GatewayResolver_resolver (fun bs => bs))
    (build_tenant_resolver MultitenancyConfig_serde_default)
    (fun h => if String.eqb h "x-riftgate-tenant" then Some "7" else None) = Some (mkIdentity 7 "7").
Proof. exact (empty_registry_trusts_header (fun bs => bs) MultitenancyConfig_serde_default _ "7" eq_refl eq_refl). Defined.
