(* ===== verification/McpSetup.v ===== *)
(** * McpSetup: the broker built at startup ([riftgate/src/mcp.rs])

    [build_mcp_broker]: the signing key from the configuration or from the random source, the
    audit log ([FileWal] under the configured path, or [NoopWal]), the tenant map and the
    choice between enforcing and dry run.  The random key and the state of the disk are
    arguments; logging is left out. *)

From Stdlib Require Import Ascii String.
From S2P Require Import Prelude Http1 FileWal Capability Text WalLog Mcp Config.

#[local] Open Scope string_scope.
#[local] Open Scope list_scope.
#[local] Open Scope Z_scope.

(** ** The signing key *)

Definition hex_value (c : ascii) : option Z :=
  let n := Z.of_nat (nat_of_ascii c) in
  if (48 <=? n) && (n <=? 57) then Some (n - 48)
  else if (97 <=? n) && (n <=? 102) then Some (n - 87)
  else if (65 <=? n) && (n <=? 70) then Some (n - 55) else None.

(** [u8::from_str_radix(s, 16)] on two characters: a leading [+] is a sign. *)
Definition hex_pair (c1 c2 : ascii) : option Z :=
  lo ← hex_value c2;
  if Ascii.eqb c1 "+" then Some lo else hi ← hex_value c1; Some (hi * 16 + lo).

Fixpoint hex_chunks (s : string) : option (list byte) :=
  match s with
  | String c1 (String c2 s) => b ← hex_pair c1 c2; bs ← hex_chunks s; Some (byte_of_Z b :: bs)
  | _ => Some []
  end.

Definition zero_key : list byte := replicate 32 (byte_of_Z 0).

(** [parse_hex_key]: anything malformed gives the zero key. *)
Definition parse_hex_key (hex : string) : list byte :=
  let hex := trim hex in
  if (String.length hex =? 64)%nat then default zero_key (hex_chunks hex) else zero_key.

(** ** Tenants *)

Definition tenant_id_from_key (key : string) : Z :=
  match parse_u32 key with
  | Some n => n
  | None =>
      let hash := foldl (fun hash b => wrapping_mul 32 (Z.lxor hash (byte_to_Z b)) 16777619) 2166136261
                    (as_bytes key) in
      if hash =? 0 then 1 else hash
  end.

(** The tenant map, from the configuration's entries in the order the map yields them: a
    later entry with the same id replaces an earlier one. *)
Definition tenant_configs (l : list (string * TenantAllowlist)) : gmap Z TenantAllowlist :=
  foldl (fun m kv => <[ tenant_id_from_key (fst kv) := snd kv ]> m) ∅ l.

(** ** The log *)

(** [NoopWal]. *)
Record NoopWal := mkNoopWal {}.

#[global] Instance NoopWal_wal : WAL NoopWal :=
  {| append _ _ w := (Ok 0, w); flush _ w := (Ok tt, w); wal_durable _ := None |}.

(** [Arc<dyn WAL>]. *)
Inductive AuditWal := OnFile (w : FileWal) | OnNothing (w : NoopWal).

Definition audit_wal_config : FileWalConfig :=
  mkWalConfig 1 (segment_size_max FileWalConfig_default) (flush_interval FileWalConfig_default)
    (flush_buffer_bytes FileWalConfig_default).

(** [disk] is what the directory at a path holds. *)
Definition choose_wal (io : nat -> bool) (disk : string -> Disk) (wal_path : option string) : AuditWal :=
  match wal_path with
  | Some path =>
      match file_open io audit_wal_config (disk path) with
      | Some (Ok w) => OnFile w
      | _ => OnNothing (mkNoopWal)
      end
  | None => OnNothing (mkNoopWal)
  end.

Definition map_snd {A B C} (f : B -> C) (p : A * B) : A * C := (fst p, f (snd p)).

Definition AuditWal_wal (clock : Z -> Z) (io : Z -> nat -> bool) : WAL AuditWal :=
  {| append bytes d w :=
       match w with
       | OnFile w => map_snd OnFile (append (WAL := FileWal_wal clock io) bytes d w)
       | OnNothing w => map_snd OnNothing (append bytes d w)
       end;
     flush t w :=
       match w with
       | OnFile w => map_snd OnFile (flush (WAL := FileWal_wal clock io) t w)
       | OnNothing w => map_snd OnNothing (flush t w)
       end;
     wal_durable w :=
       match w with
       | OnFile w => wal_durable (WAL := FileWal_wal clock io) w
       | OnNothing w => wal_durable w
       end |}.

(** ** The broker *)

Inductive McpBroker :=
| Enforcing (b : AllowlistBroker AuditWal)
| DryRun (b : DryRunBroker (AllowlistBroker AuditWal)).

(** [build_mcp_broker]: [None] when no tenant is configured, [Some None] for the panic of an
    expiry out of range. *)
Definition build_mcp_broker (random_key : list byte) (io : nat -> bool) (disk : string -> Disk)
    (mcp : McpConfig) (counter : Z) : option (option McpBroker) :=
  match tenants mcp with
  | [] => None
  | entries =>
      let key := match signing_key_hex mcp with Some hex => parse_hex_key hex | None => random_key end in
      let wal := choose_wal io disk (wal_path mcp) in
      Some (inner ← broker_new (tenant_configs entries) key wal counter;
            Some (if enforce mcp then Enforcing inner else DryRun (mkDryRun inner)))
  end.

(** [authorize] behind [Arc<dyn CapabilityBroker>]. *)
Definition McpBroker_broker (hmac : list byte -> list byte -> list byte)
    (to_vec : AuditRecord -> option (list byte)) (clock : Z -> Z) (io : Z -> nat -> bool) :
    CapabilityBroker McpBroker :=
  {| authorize now request identity b :=
       let inner := AllowlistBroker_broker hmac to_vec (W := AuditWal) (H := AuditWal_wal clock io) in
       match b with
       | Enforcing b => map_snd Enforcing (authorize (CapabilityBroker := inner) now request identity b)
       | DryRun b =>
           map_snd DryRun (authorize (CapabilityBroker := DryRunBroker_broker (H := inner)) now request identity b)
       end |}.

(** * Proofs *)

(** ** The signing key *)

(** Printable ASCII has no white space to trim. *)
Definition plain (b : byte) : bool := (33 <=? byte_to_Z b) && (byte_to_Z b <? 128).

Lemma ws_len_plain bs : forallb plain bs = true -> ws_len bs = 0%nat.
Proof.
  destruct bs as [|b bs]; [done|]. cbn [forallb]. intros [Hb _]%andb_prop.
  destruct bs as [|b1 [|b2 bs]]; by destruct b.
Qed.

Lemma forallb_drop {A} (P : A -> bool) n l : forallb P l = true -> forallb P (drop n l) = true.
Proof. rewrite <- (take_drop n l) at 1. rewrite forallb_app. by intros [_ ?]%andb_prop. Qed.

Lemma trim_plain s : forallb plain (as_bytes s) = true -> trim s = s.
Proof.
  intros Hp. unfold trim. set (bs := as_bytes s) in *.
  assert (Hs : trim_start (length bs) bs = bs).
  { destruct (length bs); [done|]. cbn. by rewrite (ws_len_plain bs Hp). }
  assert (He : ws_end bs = 0%nat).
  { unfold ws_end. cbn [List.find]. rewrite !ws_len_plain by by apply forallb_drop. cbn. by rewrite !andb_false_r. }
  rewrite Hs. replace (trim_end_bytes (length bs) bs) with bs.
  - unfold of_bytes, bs, as_bytes. apply string_of_list_byte_of_string.
  - destruct (length bs); [done|]. cbn [trim_end_bytes]. by rewrite He.
Qed.

Lemma hex_chunks_encode k : hex_chunks (hex_encode k) = Some k.
Proof.
  induction k as [|b k IH]; [done|]. cbn [hex_encode hex_chunks].
  assert (Hb : hex_pair (hex_digit (byte_to_Z b / 16)) (hex_digit (byte_to_Z b mod 16)) = Some (byte_to_Z b))
    by (by destruct b).
  rewrite Hb. cbn. rewrite IH. cbn. f_equal. f_equal. by destruct b.
Qed.

Lemma hex_encode_length k : String.length (hex_encode k) = (2 * length k)%nat.
Proof. induction k as [|b k IH]; cbn [hex_encode String.length length]; lia. Qed.

Lemma hex_encode_plain k : forallb plain (as_bytes (hex_encode k)) = true.
Proof.
  induction k as [|b k IH]; [done|]. unfold as_bytes in *.
  change (plain (byte_of_ascii (hex_digit (byte_to_Z b / 16))) && (plain (byte_of_ascii (hex_digit (byte_to_Z b mod 16)))
    && forallb plain (list_byte_of_string (hex_encode k))) = true).
  rewrite IH. by destruct b.
Qed.

(** A key written in hexadecimal is read back. *)
Lemma hex_key_roundtrip k : length k = 32%nat -> parse_hex_key (hex_encode k) = k.
Proof.
  intros Hk. unfold parse_hex_key. rewrite trim_plain by apply hex_encode_plain.
  by rewrite hex_encode_length, Hk, hex_chunks_encode.
Qed.

(** ** Tenants *)

(** The binary and the resolver of [riftgate-core] compute the same id. *)
Lemma tenant_id_from_key_str key : tenant_id_from_key key = tenant_id_from_str key.
Proof.
  unfold tenant_id_from_key, tenant_id_from_str. destruct (parse_u32 key); [done|].
  assert (Hfold : forall h, foldl (fun hash b => wrapping_mul 32 (Z.lxor hash (byte_to_Z b)) 16777619) h (as_bytes key)
                  = foldl fnv_step h (list_ascii_of_string key)).
  { induction key as [|c key IH]; intros h; [done|]. unfold as_bytes in *.
    change (list_byte_of_string (String c key)) with (byte_of_ascii c :: list_byte_of_string key).
    cbn [list_ascii_of_string foldl]. rewrite IH. f_equal. unfold fnv_step. do 2 f_equal. by destruct c as [[] [] [] [] [] [] [] []]. }
  by rewrite Hfold.
Qed.

Lemma tenant_configs_lookup entries k al :
  (k, al) ∈ entries ->
  (forall k' al', (k', al') ∈ entries -> tenant_id_from_key k' = tenant_id_from_key k -> al' = al) ->
  tenant_configs entries !! tenant_id_from_key k = Some al.
Proof.
  unfold tenant_configs. generalize (∅ : gmap Z TenantAllowlist).
  induction entries as [|[k0 al0] entries IH] using rev_ind; intros m Hin Huniq; [by apply elem_of_nil in Hin|].
  rewrite foldl_snoc. cbn [fst snd]. destruct (decide (tenant_id_from_key k0 = tenant_id_from_key k)) as [He|He].
  - rewrite He, lookup_insert_eq. f_equal. eapply Huniq; [|done]. set_solver.
  - rewrite lookup_insert_ne by done. apply IH; [|set_solver].
    apply elem_of_app in Hin as [|[= -> ->]%list_elem_of_singleton]; done.
Qed.

(** ** The construction *)

Definition broker_of (b : McpBroker) : AllowlistBroker AuditWal :=
  match b with Enforcing b => b | DryRun b => dry_inner b end.

Definition key_of (random_key : list byte) (mcp : McpConfig) : list byte :=
  match signing_key_hex mcp with Some hex => parse_hex_key hex | None => random_key end.

(** A tenant of the configuration gets its own allowlist: the broker, asked with the
    identity that the header resolver derives from the tenant's name, judges by the rules
    written under that name, signs with the configured key and audits to the chosen log. *)
Lemma build_mcp_broker_serves random_key io disk mcp counter b k al :
  build_mcp_broker random_key io disk mcp counter = Some (Some b) ->
  (k, al) ∈ tenants mcp ->
  (forall k' al', (k', al') ∈ tenants mcp -> tenant_id_from_key k' = tenant_id_from_key k -> al' = al) ->
  broker_new (tenant_configs (tenants mcp)) (key_of random_key mcp) (choose_wal io disk (wal_path mcp)) counter
    = Some (broker_of b) /\
  tenant_configs (tenants mcp) !! tenant_id_from_str k = Some al /\
  (exists x, b = if enforce mcp then Enforcing x else DryRun (mkDryRun x)).
Proof.
  intros Hb Hin Huniq. rewrite <- tenant_id_from_key_str. split; [|split; [by apply tenant_configs_lookup|]];
    revert Hb; unfold build_mcp_broker; destruct (tenants mcp) as [|e es] eqn:E; try done;
    unfold key_of; destruct (broker_new _ _ _ _) as [inner|]; try done; cbn; intros [= <-].
  - by destruct (enforce mcp).
  - by exists inner.
Qed.
