(* ===== verification/Process.v ===== *)
(** * Process: the binary from its command line to its exit code
      ([riftgate/src/main.rs], [bootstrap.rs], [error.rs], [shutdown.rs])

    [run] is a list of effects, in the order the code has them, and a result; [Sys] holds
    what the rest of the system answers.  Logging through [tracing] is left out; the two
    lines on the standard error stream are kept.  The handler state is what the handler
    reads: of the configuration that is the URL, the credential and the timeout of the
    backend ([Proxy.v] takes them as arguments). *)

From Stdlib Require Import Ascii String SpecFloat.
From S2P Require Import Prelude Core Weighted KvAware Circuit Hedged FileWal Capability Text WalLog Mcp Obs Config McpSetup.

#[local] Open Scope string_scope.
#[local] Open Scope list_scope.
#[local] Open Scope Z_scope.

(** ** Errors *)

Inductive RiftgateError :=
| EConfig (m : string)
| EIo (m : string)
| EOpenTelemetry (m : string)
| EHyper (m : string).

Definition riftgate_error_display (e : RiftgateError) : string :=
  match e with
  | EConfig m => "configuration error: " +:+ m
  | EIo m => "io error: " +:+ m
  | EOpenTelemetry m => "opentelemetry setup failed: " +:+ m
  | EHyper m => "hyper error: " +:+ m
  end.

(** [Display for ConfigError]. *)
Definition config_error_display (e : ConfigError) : string :=
  match e with
  | FileRead path message => "could not read config file `" +:+ path +:+ "`: " +:+ message
  | TomlParse path message => "invalid TOML in `" +:+ path +:+ "`: " +:+ message
  | EnvParse key expected got => "env var `" +:+ key +:+ "` is not a valid " +:+ expected +:+ ": got `" +:+ got +:+ "`"
  | Validation path expected got layer =>
      "config validation: `" +:+ path +:+ "` must be " +:+ expected +:+ ", got `" +:+ got +:+ "` (from "
        +:+ layer_display layer +:+ ")"
  end.

Definition bullet : string := String lf "" +:+ "  - ".

(** [From<Vec<ConfigError>>]. *)
Definition from_config_errors (errors : list ConfigError) : RiftgateError :=
  EConfig ("the configuration was rejected:" +:+ bullet +:+ join bullet (config_error_display <$> errors)).

(** ** Signals *)

Inductive Signal := SIGTERM | SIGINT | OtherSignal.

(** [wait_for_signal]: which signal ends the wait, by the handlers that could be installed;
    [None] goes on waiting. *)
Definition signal_ends (term_ok int_ok : bool) (s : Signal) : option string :=
  match s with
  | SIGTERM => if term_ok then Some "SIGTERM" else None
  | SIGINT => if negb term_ok then Some "SIGINT" else if int_ok then Some "SIGINT" else None
  | OtherSignal => None
  end.

Fixpoint wait_for_signal (term_ok int_ok : bool) (signals : list Signal) : option string :=
  match signals with
  | [] => None
  | s :: signals =>
      match signal_ends term_ok int_ok s with Some name => Some name | None => wait_for_signal term_ok int_ok signals end
  end.

(** ** The process *)

Record Cli := mkCli { cli_config : option string; cli_check : bool; drain_grace_ms : Z }.

Inductive Sink := JsonSink | KernelSink (s : BpfSink) | OtelSink.

Section process.
Context {Addr : Type} (default_addr : Addr) (parse_addr : string -> option Addr) (addr_error : string)
  (f32_display : spec_float -> string) (addr_display : Addr -> string) (bpf_compiled : bool).

(** What the handler is given. *)
Record HandlerState := mkHandlerState {
  hs_url : string;
  hs_auth : string;
  hs_timeout_ms : Z;
  hs_router : CircuitBreakerArbiter (HedgedRouter (KvAwareRouter WeightedRandomRouter));
  hs_pool : BackendPool;
  hs_signals : BackendSignals;
  hs_broker : option McpBroker;
  hs_resolver : GatewayResolver;
}.

Inductive Effect :=
| InitTracing (filter : string) (format : LogFormat)
| StartBus (capacity : Z) (sinks : list Sink)
| Bind (addr : Addr)
| SpawnSignalWaiter
| SpawnGpuPoller (endpoint : string)
| AcceptLoop (state : HandlerState) (grace_ns : Z)
| OtelShutdown
| DropBus
| Stderr (line : string).

(** The answers of the system. *)
Record Sys := mkSys {
  sys_runtime : result unit string;
  sys_env : list (string * string);
  sys_rust_log : option string;
  sys_read : string -> result string string;
  sys_toml : string -> result (Config Addr) string;
  sys_otel : string -> result unit string;
  sys_bind : Addr -> result unit string;
  sys_local_addr : result Addr string;
  sys_random_key : list byte;
  sys_wal_io : nat -> bool;
  sys_disk : string -> Disk;
  sys_counter : Z;
  sys_accept : HandlerState -> Z -> result Z string;
}.

Definition env_var (sys : Sys) (k : string) : option string :=
  snd <$> List.find (fun kv => String.eqb (fst kv) k) (sys_env sys).

(** [init_tracing]. *)
Definition init_tracing (sys : Sys) (c : Config Addr) : Effect :=
  InitTracing (default (level (log c)) (sys_rust_log sys)) (format (log c)).

(** [build_observability]: whether there is a provider, and the bus. *)
Definition build_observability (sys : Sys) (c : Config Addr) : Effect * bool :=
  let sinks := [JsonSink; KernelSink (bpf_from_env bpf_compiled (env_var sys "RIFTGATE_ENABLE_BPF"))] in
  match sys_otel sys (otel_endpoint (obs c)) with
  | Ok _ => (StartBus (bus_capacity (obs c)) (sinks ++ [OtelSink]), true)
  | Err _ => (StartBus (bus_capacity (obs c)) sinks, false)
  end.

(** The state of the handlers; [None] is a panic while it is put together. *)
Definition handler_state (sys : Sys) (c : Config Addr) : option HandlerState :=
  router ← production_router;
  let broker := build_mcp_broker (sys_random_key sys) (sys_wal_io sys) (sys_disk sys) (mcp c) (sys_counter sys) in
  broker ← match broker with None => Some None | Some None => None | Some (Some b) => Some (Some b) end;
  Some (mkHandlerState (url (backend c)) (expose (auth_header (backend c))) (timeout_ms (backend c)) router
          (mkPool [0]) (mkSignals []) broker (build_tenant_resolver (multitenancy c))).

(** From the listener on: the error of [bind] names the address. *)
Definition serve_until_drained (sys : Sys) (cli : Cli) (c : Config Addr) : list Effect * option (result unit RiftgateError) :=
  match sys_bind sys (listen_addr (server c)) with
  | Err e => ([], Some (Err (EIo ("could not bind " +:+ addr_display (listen_addr (server c)) +:+ ": " +:+ e))))
  | Ok _ =>
      let bound := [Bind (listen_addr (server c))] in
      match sys_local_addr sys with
      | Err e => (bound, Some (Err (EIo e)))
      | Ok _ =>
          let spawned := bound ++ [SpawnSignalWaiter] ++
            match env_var sys "RIFTGATE_GPU_DCGM_ENDPOINT" with Some ep => [SpawnGpuPoller ep] | None => [] end in
          match handler_state sys c with
          | None => (spawned, None)
          | Some st =>
              let grace := drain_grace_ms cli * 1000000 in
              (spawned ++ [AcceptLoop st grace],
               Some match sys_accept sys st grace with Ok _ => Ok tt | Err e => Err (EIo e) end)
          end
      end
  end.

Definition run_config (sys : Sys) (cli : Cli) (c : Config Addr) : list Effect * option (result unit RiftgateError) :=
  let tracing := [init_tracing sys c] in
  if cli_check cli then (tracing, Some (Ok tt))
  else
    let '(bus, provider) := build_observability sys c in
    let '(effects, r) := serve_until_drained sys cli c in
    let finish := match r with
                  | Some (Ok _) => (if provider then [OtelShutdown] else []) ++ [DropBus]
                  | _ => [DropBus]
                  end in
    (tracing ++ [bus] ++ effects ++ finish, r).

(** [run]: [None] is a panic. *)
Definition run (sys : Sys) (cli : Cli) : list Effect * option (result unit RiftgateError) :=
  match load default_addr parse_addr addr_error f32_display (sys_read sys) (sys_toml sys) (cli_config cli) (sys_env sys) with
  | Err es => ([], Some (Err (from_config_errors es)))
  | Ok c => run_config sys cli c
  end.

Definition EXIT_SUCCESS : Z := 0.
Definition EXIT_FAILURE : Z := 1.
Definition EX_CONFIG : Z := 78.

(** [main]: the effects and the exit code; a panic of the main thread exits with 101. *)
Definition main (sys : Sys) (cli : Cli) : list Effect * Z :=
  match sys_runtime sys with
  | Err e => ([Stderr ("riftgate: failed to construct tokio runtime: " +:+ e)], EXIT_FAILURE)
  | Ok _ =>
      match run sys cli with
      | (effects, Some (Ok _)) => (effects, EXIT_SUCCESS)
      | (effects, Some (Err (EConfig msg))) => (effects ++ [Stderr ("riftgate: " +:+ msg)], EX_CONFIG)
      | (effects, Some (Err e)) => (effects ++ [Stderr ("riftgate: " +:+ riftgate_error_display e)], EXIT_FAILURE)
      | (effects, None) => (effects, 101)
      end
  end.
End process.
Arguments Effect : clear implicits.
Arguments Sys : clear implicits.

(** * Proofs *)

Section process_proofs.
Context {Addr : Type} (default_addr : Addr) (parse_addr : string -> option Addr) (addr_error : string)
  (f32_display : spec_float -> string) (addr_display : Addr -> string) (bpf_compiled : bool).

Abbreviation gateway_main := (main default_addr parse_addr addr_error f32_display addr_display bpf_compiled).
Abbreviation gateway_run := (run_config addr_display bpf_compiled).
Abbreviation gateway_load sys cli :=
  (load default_addr parse_addr addr_error f32_display (sys_read sys) (sys_toml sys) (cli_config cli) (sys_env sys)).

(** ** Error messages *)

Definition occurs_in (x s : string) : Prop := exists a b, s = a +:+ x +:+ b.

Lemma occurs_app_l a x s : occurs_in x s -> occurs_in x (a +:+ s).
Proof. intros (b & c & ->). exists (a +:+ b), c. by rewrite str_app_assoc. Qed.

Lemma occurs_join sep x l : x ∈ l -> occurs_in x (join sep l).
Proof.
  induction l as [|y l IH]; [by intros ?%elem_of_nil|]. intros [->|Hin]%elem_of_cons.
  - destruct l as [|z l]; [exists "", ""; by rewrite str_app_nil_r|]. by exists "", (sep +:+ join sep (z :: l)).
  - destruct l as [|z l]; [by apply elem_of_nil in Hin|]. by apply occurs_app_l, occurs_app_l, IH.
Qed.

(** A rejected configuration exits with 78 and one message that has the text of every error. *)
Theorem rejection_lists_every_error sys cli es :
  sys_runtime sys = Ok tt -> gateway_load sys cli = Err es ->
  exists msg, gateway_main sys cli = ([Stderr msg], 78) /\
    Forall (fun e => occurs_in (config_error_display e) msg) es.
Proof.
  intros Hr Hl. unfold main, run. rewrite Hr, Hl. eexists. split; [done|]. apply Forall_forall. intros e He.
  do 3 apply occurs_app_l. apply occurs_join. by apply list_elem_of_fmap_2.
Qed.

(** ** Exit codes *)

Definition serves (sys : Sys Addr) (cli : Cli) (c : Config Addr) : Prop :=
  sys_bind sys (listen_addr (server c)) = Ok tt /\ (exists a, sys_local_addr sys = Ok a) /\
  exists st n, handler_state sys c = Some st /\ sys_accept sys st (drain_grace_ms cli * 1000000) = Ok n.

Lemma serve_ok sys cli c :
  snd (serve_until_drained addr_display sys cli c) = Some (Ok tt) <-> serves sys cli c.
Proof.
  unfold serve_until_drained, serves. destruct (sys_bind sys _) as [[]|e]; [|by split; [|intros (? & _)]].
  destruct (sys_local_addr sys) as [a|e]; [|by split; [|intros (_ & (? & ?) & _)]].
  destruct (handler_state sys c) as [st|]; cbn; [|by split; [|intros (_ & _ & ? & ? & ? & _)]].
  destruct (sys_accept sys st _) as [n|e] eqn:E; split; try done.
  - intros _. split; [done|]. split; [by exists a|]. by exists st, n.
  - intros (_ & _ & st' & n & [= <-] & Hn). congruence.
Qed.

Lemma run_config_result sys cli c :
  snd (gateway_run sys cli c) =
    if cli_check cli then Some (Ok tt) else snd (serve_until_drained addr_display sys cli c).
Proof.
  unfold run_config. destruct (cli_check cli); [done|]. destruct (build_observability _ _ _).
  by destruct (serve_until_drained _ _ _ _) as [effects r].
Qed.

Lemma serve_error_io sys cli c e :
  snd (serve_until_drained addr_display sys cli c) = Some (Err e) -> exists m, e = EIo m.
Proof.
  unfold serve_until_drained. repeat case_match; cbn; intros [= <-]; by eexists.
Qed.

(** The exit code says how far the process came: 78 exactly when the configuration was
    rejected; otherwise 0 exactly for a check, or for a run that bound its address, put its
    state together and drained. *)
Theorem exit_code_spec sys cli :
  sys_runtime sys = Ok tt ->
  match gateway_load sys cli with
  | Err _ => snd (gateway_main sys cli) = 78
  | Ok c => snd (gateway_main sys cli) <> 78 /\
            (snd (gateway_main sys cli) = 0 <-> cli_check cli = true \/ serves sys cli c)
  end.
Proof.
  intros Hr. unfold main, run. rewrite Hr. destruct (gateway_load sys cli) as [c|es]; [|done].
  pose proof (run_config_result sys cli c) as Hres. destruct (gateway_run sys cli c) as [effects r]. cbn [snd] in Hres.
  pose proof (serve_ok sys cli c) as Hok. subst r. destruct (cli_check cli).
  { split; [done|]. split; [by left|done]. }
  destruct (snd (serve_until_drained addr_display sys cli c)) as [[[]|e]|] eqn:E.
  - split; [done|]. split; [intros _; right; by apply Hok|done].
  - apply serve_error_io in E as [m ->]. split; [done|]. split; [done|]. intros [?|Hs]; [done|]. by apply Hok in Hs.
  - split; [done|]. split; [done|]. intros [?|Hs]; [done|]. by apply Hok in Hs.
Qed.

(** ** What a run does *)

(** [--check] validates and nothing else: no sink, no socket, no log directory. *)
Theorem check_only_validates sys cli :
  cli_check cli = true ->
  Forall (fun e => match e with InitTracing _ _ | Stderr _ => True | _ => False end) (fst (gateway_main sys cli)).
Proof.
  intros Hc. unfold main, run, run_config. destruct (sys_runtime sys); [|by repeat constructor].
  destruct (gateway_load sys cli) as [c|es]; [|by repeat constructor]. rewrite Hc. by repeat constructor.
Qed.

(** The effects of a run that drains, in order: the bus before the socket, the signal handler
    after it, the exporter closed before the bus is dropped. *)
Theorem drained_run_order sys cli c :
  cli_check cli = false -> serves sys cli c ->
  exists st, handler_state sys c = Some st /\
    fst (gateway_run sys cli c) =
      [init_tracing sys c; fst (build_observability bpf_compiled sys c); Bind (listen_addr (server c)); SpawnSignalWaiter]
      ++ match env_var sys "RIFTGATE_GPU_DCGM_ENDPOINT" with Some ep => [SpawnGpuPoller ep] | None => [] end
      ++ [AcceptLoop st (drain_grace_ms cli * 1000000)]
      ++ (if snd (build_observability bpf_compiled sys c) then [OtelShutdown] else []) ++ [DropBus].
Proof.
  intros Hc (Hb & (a & Ha) & st & n & Hst & Hacc). exists st. split; [done|].
  unfold run_config, serve_until_drained. rewrite Hc, Hb, Ha, Hst, Hacc.
  destruct (build_observability bpf_compiled sys c) as [bus provider]. cbn [fst snd].
  by rewrite <- !app_assoc.
Qed.

(** A collector that cannot be reached costs its sink and nothing else. *)
Theorem otel_failure_is_not_fatal sys cli c e :
  sys_otel sys (otel_endpoint (obs c)) = Err e ->
  snd (build_observability bpf_compiled sys c) = false /\
  (exists cap s, fst (build_observability bpf_compiled sys c) = StartBus cap [JsonSink; KernelSink s]) /\
  forall otel, snd (gateway_run (mkSys (sys_runtime sys) (sys_env sys) (sys_rust_log sys) (sys_read sys) (sys_toml sys) otel
    (sys_bind sys) (sys_local_addr sys) (sys_random_key sys) (sys_wal_io sys) (sys_disk sys) (sys_counter sys)
    (sys_accept sys)) cli c) = snd (gateway_run sys cli c).
Proof.
  intros He. unfold build_observability. rewrite He. split; [done|]. split; [by eexists _, _|].
  intros otel. by rewrite !run_config_result.
Qed.

(** Four documented settings have no effect on the process: the number of worker threads, the
    verification of the upstream's certificate, the timer resolution and the sampling rate. *)
Definition with_inert (threads : option Z) (verify : bool) (tick : Z) (rate : spec_float) (c : Config Addr) : Config Addr :=
  mkConfig (mkServer (listen_addr (server c)) threads)
    (mkBackend (url (backend c)) (auth_header (backend c)) (timeout_ms (backend c)) verify)
    (mkTimer tick) (mkObs (otel_endpoint (obs c)) rate (bus_capacity (obs c))) (log c) (mcp c) (multitenancy c).

Theorem inert_settings sys cli c threads verify tick rate :
  gateway_run sys cli (with_inert threads verify tick rate c) = gateway_run sys cli c.
Proof. done. Qed.
End process_proofs.

(** The wait ends at the first of the two signals that has a handler. *)
Lemma signal_wait term_ok int_ok signals :
  (term_ok || int_ok) = true ->
  wait_for_signal term_ok int_ok signals =
    match List.find (fun s => match s with SIGTERM => term_ok | SIGINT => negb term_ok || int_ok | OtherSignal => false end)
            signals with
    | Some SIGTERM => Some "SIGTERM"
    | Some SIGINT => Some "SIGINT"
    | _ => None
    end.
Proof.
  intros Hh. induction signals as [|s signals IH]; [done|]. cbn. destruct s, term_ok, int_ok; try done; cbn; apply IH.
Qed.

(** ** A process *)

Definition demo_process_config : Config string :=
  mkConfig (mkServer "127.0.0.1:8080" None) (mkBackend "http://up" (mkSecret "") 30000 true) TimerConfig_default
    ObsConfig_default LogConfig_default McpConfig_default MultitenancyConfig_default.

Definition demo_sys : Sys string :=
  mkSys (Ok tt) [] None (fun _ => Ok "") (fun _ => Ok demo_process_config) (fun _ => Err "connection refused")
    (fun a => if String.eqb a "127.0.0.1:8080" then Ok tt else Err "address in use") (Ok "127.0.0.1:8080") []
    (fun _ => true) (fun _ => ∅) 1 (fun _ _ => Ok 3).

Definition demo_cli (check : bool) : Cli := mkCli (Some "riftgate.toml") check 30000.

Definition demo_main (check : bool) : list (Effect string) * Z :=
  main "127.0.0.1:8080" Some "" (fun _ => "") id false demo_sys (demo_cli check).

Example demo_exit : (snd (demo_main true), snd (demo_main false), length (fst (demo_main false))) = (0, 0, 6%nat).
Proof. by vm_compute. Qed.

Lemma exit_code_spec_witness :
  exists c, load "127.0.0.1:8080" Some "" (fun _ => "") (sys_read demo_sys) (sys_toml demo_sys)
      (cli_config (demo_cli false)) (sys_env demo_sys) = Ok c /\ serves demo_sys (demo_cli false) c.
Proof.
  pose proof (exit_code_spec "127.0.0.1:8080" Some "" (fun _ => "") id false demo_sys (demo_cli false) eq_refl) as He.
  destruct (load _ _ _ _ _ _ _ _) as [c|es] eqn:El; [|by vm_compute in El]. exists c. split; [done|].
  destruct He as [_ He]. destruct He as [He _]. destruct He as [He|He]; [by vm_compute|done|done].
Defined.
