(* ===== verification/Operator.v ===== *)
(** * Operator: the Kubernetes operator [riftgate-operator]

    The custom-resource specs ([crds.rs]), the rendering of a gateway configuration
    ([render.rs]), the collection of API keys from Secrets and the reconciliation of a
    gateway ([reconciler.rs]).  The API server is a parameter: its answers; the calls made to
    it are recorded.  [str_debug] is the [Debug] form of a string, [sha256] the digest. *)

From Stdlib Require Import Ascii String SpecFloat.
From stdpp Require Import pretty sorting.
From S2P Require Import Prelude Floats Core Http1 Capability Mcp Text Config.

#[local] Open Scope string_scope.
#[local] Open Scope list_scope.
#[local] Open Scope Z_scope.

(** ** The custom resources *)

Record SecretKeyRef := mkSecretRef { ref_name : string; ref_key : string }.
Record ServiceRef := mkServiceRef { svc_name : string; svc_port : Z }.
Record CircuitBreakerSpec := mkBreakerSpec { error_threshold : spec_float; probe_interval_ms : Z }.

Record RiftgateSpec := mkRiftgateSpec {
  image : string;
  rg_listen_addr : string;
  drain_grace_ms : Z;
  obs_endpoint : string;
  replicas : Z;
  log_level : string;
}.

Record RiftgateBackendSpec := mkBackendSpec {
  b_url : option string;
  service_ref : option ServiceRef;
  auth_secret_ref : option SecretKeyRef;
  b_timeout_ms : Z;
  circuit_breaker : option CircuitBreakerSpec;
}.

Record McpRouteConfig := mkMcpRoute {
  route_enforce : bool;
  route_allowed_tools : list string;
  route_denied_tools : list string;
  route_allowed_resource_prefixes : list string;
}.

Record MultitenancyRouteConfig := mkRouteTenancy { api_key_secret_ref : option SecretKeyRef }.

Record RiftgateRouteSpec := mkRouteSpec {
  path_prefix : string;
  backend_ref : string;
  route_weight : Z;
  route_mcp : option McpRouteConfig;
  route_multitenancy : option MultitenancyRouteConfig;
}.

(** What [serde] fills in for the fields a manifest leaves out. *)
Definition RiftgateSpec_of_image (img : string) : RiftgateSpec :=
  mkRiftgateSpec img "0.0.0.0:8080" 30000 "http://127.0.0.1:4317" 1 "info".

Definition default_error_threshold : spec_float := S754_finite false 8388608 (-24).
Definition default_probe_interval_ms : Z := 5000.
Definition default_timeout_ms : Z := 30000.
Definition default_true : bool := true.
Definition default_weight : Z := 100.

Definition CircuitBreakerSpec_empty : CircuitBreakerSpec :=
  mkBreakerSpec default_error_threshold default_probe_interval_ms.
Definition RiftgateBackendSpec_empty : RiftgateBackendSpec := mkBackendSpec None None None default_timeout_ms None.
Definition McpRouteConfig_empty : McpRouteConfig := mkMcpRoute default_true [] [] [].
Definition RiftgateRouteSpec_of (prefix backend : string) : RiftgateRouteSpec :=
  mkRouteSpec prefix backend default_weight None None.

(** The derived [Default] of the same types: the zero of every field. *)
Definition CircuitBreakerSpec_derived : CircuitBreakerSpec := mkBreakerSpec (S754_zero false) 0.
Definition RiftgateBackendSpec_derived : RiftgateBackendSpec := mkBackendSpec None None None 0 None.
Definition McpRouteConfig_derived : McpRouteConfig := mkMcpRoute false [] [] [].
Definition RiftgateRouteSpec_derived : RiftgateRouteSpec := mkRouteSpec "" "" 0 None None.

(** [RiftgateStatus]. *)
Record RiftgateStatus := mkStatus { ready_replicas : option Z; status_message : option string }.
Definition RiftgateStatus_default : RiftgateStatus := mkStatus None None.

(** ** [render.rs] *)

Section operator.
Context (str_debug : string -> string) (sha256 : list byte -> list byte).

Fixpoint sanitize_toml_key (s : string) : string :=
  match s with
  | EmptyString => ""
  | String c s => String (if ascii_is c "-" || ascii_is c "." then "_"%char else c) (sanitize_toml_key s)
  end.

Definition to_toml_string_array (v : list string) : string :=
  "[" +:+ join ", " (str_debug <$> v) +:+ "]".

Definition tenant_header (name : string) : string := "[mcp.tenants." +:+ sanitize_toml_key name +:+ "]".

Definition render_backend (backends : list (string * RiftgateBackendSpec)) : list string :=
  match backends with
  | [] => []
  | (_, b) :: _ =>
      ["[backend]"] ++
      (match b_url b with Some u => ["url = " +:+ str_debug u] | None => [] end) ++
      ["timeout_ms = " +:+ pretty (b_timeout_ms b); ""]
  end.

Definition render_tenant (name : string) (m : McpRouteConfig) : list string :=
  [tenant_header name;
   "allowed_tools = " +:+ to_toml_string_array (route_allowed_tools m);
   "denied_tools = " +:+ to_toml_string_array (route_denied_tools m);
   "allowed_resource_prefixes = " +:+ to_toml_string_array (route_allowed_resource_prefixes m); ""].

Definition mcp_routes (routes : list (string * RiftgateRouteSpec)) : list (string * McpRouteConfig) :=
  omap (fun r => m ← route_mcp (snd r); Some (fst r, m)) routes.

Definition render_mcp (routes : list (string * RiftgateRouteSpec)) : list string :=
  match mcp_routes routes with
  | [] => []
  | ms => ["[mcp]"; "enforce = true"; ""] ++ (ms ≫= fun nm => render_tenant (fst nm) (snd nm))
  end.

(** The order of the sort: by key. *)
Definition key_le (x y : string * string) : Prop := str_le (fst x) (fst y).
#[global] Instance key_le_dec x y : Decision (key_le x y).
Proof. unfold key_le. apply _. Defined.

Definition dquote : string := String "034" "".

(** [api_keys] is the hash map in its iteration order. *)
Definition render_keys (api_keys : list (string * string)) : list string :=
  match api_keys with
  | [] => []
  | _ =>
      ["[multitenancy]"; "mode = " +:+ dquote +:+ "api-key" +:+ dquote; ""; "[multitenancy.api_keys]"] ++
      ((fun kt => str_debug (fst kt) +:+ " = " +:+ str_debug (snd kt)) <$> merge_sort key_le api_keys) ++ [""]
  end.

Definition render_lines (gateway : RiftgateSpec) (backends : list (string * RiftgateBackendSpec))
    (routes : list (string * RiftgateRouteSpec)) (api_keys : list (string * string)) : list string :=
  ["[server]"; "listen_addr = " +:+ str_debug (rg_listen_addr gateway); ""] ++
  render_backend backends ++
  ["[obs]"; "otel_endpoint = " +:+ str_debug (obs_endpoint gateway); ""] ++
  ["[log]"; "level = " +:+ str_debug (log_level gateway); ""] ++
  render_mcp routes ++ render_keys api_keys.

(** Every line ends with a newline. *)
Fixpoint unlines (ls : list string) : string :=
  match ls with [] => "" | l :: ls => l +:+ String lf (unlines ls) end.

Definition render_config (gateway : RiftgateSpec) (backends : list (string * RiftgateBackendSpec))
    (routes : list (string * RiftgateRouteSpec)) (api_keys : list (string * string)) : string :=
  unlines (render_lines gateway backends routes api_keys).

(** ** [collect_api_keys] *)

(** One line of a Secret: a pre-hashed or a raw key, up to the first [=]. *)
Definition key_line (raw : string) : option (string * string) :=
  let line := trim raw in
  if String.eqb line "" || starts_with line "#" then None
  else
    '(k, tenant) ← split_once "=" line;
    Some (if starts_with k "sha256:" then k else hash_key sha256 k, tenant).

Definition add_keys (content : string) (keys : gmap string string) : gmap string string :=
  foldl (fun keys l => match key_line l with Some (h, t) => <[h := t]> keys | None => keys end) keys (lines content).

(** [get] is the API server's answer for a Secret: its [data], [None] when it cannot be read. *)
Definition route_keys (get : string -> option (option (gmap string (list byte)))) (keys : gmap string string)
    (route : RiftgateRouteSpec) : gmap string string :=
  match (mt ← route_multitenancy route; api_key_secret_ref mt) with
  | None => keys
  | Some r =>
      match get (ref_name r) with
      | Some (Some data) =>
          match data !! ref_key r with
          | Some bytes => if bool_decide (from_utf8_lossy bytes = bytes) then add_keys (of_bytes bytes) keys else keys
          | None => keys
          end
      | _ => keys
      end
  end.

Definition collect_api_keys (get : string -> option (option (gmap string (list byte))))
    (routes : list RiftgateRouteSpec) : gmap string string :=
  foldl (route_keys get) ∅ routes.

(** ** Reconciliation *)

Inductive ReconcileError := InvalidSpec (s : string) | ApiError (s : string) | RenderError (s : string).

(** [Action::requeue] after seconds. *)
Record Action := Requeue { requeue_secs : Z }.

Inductive Resource := ConfigMapRes | DeploymentRes | RiftgateRes.

Inductive ApiCall :=
| ListBackends (ns : string)
| ListRoutes (ns : string)
| PatchConfigMap (ns name toml : string)
| PatchDeployment (ns name img : string) (n : Z) (config_map : string)
| PatchStatus (kind : Resource) (ns name message : string).

(** The API server: the answers of one reconciliation. *)
Record Server := mkServer {
  srv_backends : result (list (string * RiftgateBackendSpec)) string;
  srv_routes : result (list (string * RiftgateRouteSpec)) string;
  srv_secret : string -> option (option (gmap string (list byte)));
  srv_patch_cm : result unit string;
  srv_patch_deploy : result unit string;
  srv_patch_status : result unit string;
}.

Definition api_err {T} (what : string) (r : result T string) : result T ReconcileError :=
  match r with Ok v => Ok v | Err e => Err (ApiError (what +:+ ": " +:+ e)) end.

(** [reconcile_riftgate] of the live controller; the answer to the status patch is ignored. *)
Definition reconcile_riftgate (srv : Server) (name : string) (namespace : option string) (spec : RiftgateSpec) :
    result Action ReconcileError * list ApiCall :=
  let ns := default "default" namespace in
  match api_err "list backends" (srv_backends srv) with
  | Err e => (Err e, [ListBackends ns])
  | Ok backends =>
      match api_err "list routes" (srv_routes srv) with
      | Err e => (Err e, [ListBackends ns; ListRoutes ns])
      | Ok routes =>
          let api_keys := collect_api_keys (srv_secret srv) (snd <$> routes) in
          let toml := render_config spec backends routes (map_to_list api_keys) in
          let cm_name := name +:+ "-config" in
          let calls := [ListBackends ns; ListRoutes ns; PatchConfigMap ns cm_name toml] in
          match api_err "patch ConfigMap" (srv_patch_cm srv) with
          | Err e => (Err e, calls)
          | Ok _ =>
              let calls := calls ++ [PatchDeployment ns name (image spec) (replicas spec) cm_name] in
              match api_err "patch Deployment" (srv_patch_deploy srv) with
              | Err e => (Err e, calls)
              | Ok _ => (Ok (Requeue 300), calls ++ [PatchStatus ConfigMapRes ns cm_name "reconciled"])
              end
          end
      end
  end.

(** The other two reconcilers, and the error policy of all three. *)
Definition reconcile_backend (spec : RiftgateBackendSpec) : result Action ReconcileError := Ok (Requeue 300).
Definition reconcile_route (spec : RiftgateRouteSpec) : result Action ReconcileError := Ok (Requeue 300).
Definition error_policy (e : ReconcileError) : Action := Requeue 30.
End operator.

(** * Proofs *)

(** ** Determinism *)

#[global] Instance key_le_trans : Transitive key_le.
Proof. intros x y z. unfold key_le. apply str_le_trans. Qed.

#[global] Instance key_le_total : Total key_le.
Proof. intros x y. unfold key_le. apply str_le_total. Qed.

(** Two sorted enumerations of the same map are the same list. *)
Lemma sorted_keys_unique (l1 l2 : list (string * string)) :
  l1 ≡ₚ l2 -> NoDup l1.*1 -> StronglySorted key_le l1 -> StronglySorted key_le l2 -> l1 = l2.
Proof.
  revert l2. induction l1 as [|x l1 IH]; intros l2 Hp Hnd Hs1 Hs2.
  { by apply Permutation_nil_l in Hp. }
  destruct l2 as [|y l2]; [by apply Permutation_nil_r in Hp|].
  inversion_clear Hs1 as [|? ? Hs1' Hx]. inversion_clear Hs2 as [|? ? Hs2' Hy].
  assert (x = y) as ->.
  { assert (Hxin : x ∈ y :: l2) by (rewrite <- Hp; by left).
    assert (Hyin : y ∈ x :: l1) by (rewrite Hp; by left).
    apply elem_of_cons in Hxin as [?|Hxin]; [done|]. apply elem_of_cons in Hyin as [?|Hyin]; [done|].
    exfalso. cbn in Hnd. inversion_clear Hnd as [|? ? Hnx _]. apply Hnx.
    assert (fst x = fst y) as ->.
    { apply str_le_antisym; [by apply (proj1 (Forall_forall _ _) Hx)|by apply (proj1 (Forall_forall _ _) Hy)]. }
    by apply list_elem_of_fmap_2. }
  f_equal. apply IH; [by apply Permutation_cons_inv in Hp| |done|done]. cbn in Hnd. by inversion_clear Hnd.
Qed.

Section render_proofs.
Context (str_debug : string -> string) (sha256 : list byte -> list byte).

Lemma render_keys_perm keys1 keys2 :
  keys1 ≡ₚ keys2 -> NoDup keys1.*1 -> render_keys str_debug keys1 = render_keys str_debug keys2.
Proof.
  intros Hp Hnd. unfold render_keys.
  assert (Hs : merge_sort key_le keys1 = merge_sort key_le keys2).
  { apply sorted_keys_unique.
    - by rewrite !merge_sort_Permutation.
    - by rewrite merge_sort_Permutation.
    - apply StronglySorted_merge_sort; apply _.
    - apply StronglySorted_merge_sort; apply _. }
  rewrite Hs. destruct keys1 as [|x l1], keys2 as [|y l2]; try done.
  - by apply Permutation_nil_cons in Hp.
  - by symmetry in Hp; apply Permutation_nil_cons in Hp.
Qed.

(** The rendered configuration does not depend on the iteration order of the key map, so an
    unchanged cluster renders the same [ConfigMap] and triggers no rollout. *)
Theorem render_deterministic gateway backends routes keys1 keys2 :
  keys1 ≡ₚ keys2 -> NoDup keys1.*1 ->
  render_config str_debug gateway backends routes keys1 = render_config str_debug gateway backends routes keys2.
Proof. intros Hp Hnd. unfold render_config, render_lines. by rewrite (render_keys_perm _ _ Hp Hnd). Qed.

(** ** The tables of the document *)

(** The [Debug] form of a string starts with a quote. *)
Hypothesis debug_quoted : forall s, starts_with (str_debug s) dquote = true.

Definition is_table (l : string) : Prop := starts_with l "[" = true.

#[local] Instance is_table_dec l : Decision (is_table l).
Proof. unfold is_table. apply _. Defined.

Definition tables (ls : list string) : list string := filter is_table ls.

Lemma tables_app l1 l2 : tables (l1 ++ l2) = tables l1 ++ tables l2.
Proof. apply filter_app. Qed.

Lemma debug_not_table s rest : ~ is_table (str_debug s +:+ rest).
Proof.
  unfold is_table. specialize (debug_quoted s). unfold dquote in debug_quoted.
  destruct (str_debug s) as [|c s']; [done|]. apply starts_with_cons in debug_quoted as [<- _].
  change (String "034" s' +:+ rest) with (String "034" (s' +:+ rest)). by intros [? _]%starts_with_cons.
Qed.

Lemma tables_keys keys :
  tables (render_keys str_debug keys) = match keys with [] => [] | _ => ["[multitenancy]"; "[multitenancy.api_keys]"] end.
Proof.
  unfold render_keys. destruct keys as [|k ks]; [done|]. rewrite !tables_app.
  assert (tables ((fun kt => str_debug (fst kt) +:+ " = " +:+ str_debug (snd kt)) <$> merge_sort key_le (k :: ks)) = [])
    as ->; [|done].
  apply filter_none, Forall_fmap, Forall_forall. intros x _. apply debug_not_table.
Qed.

Lemma tables_tenants (ms : list (string * McpRouteConfig)) :
  tables (ms ≫= fun nm => render_tenant str_debug (fst nm) (snd nm)) = tenant_header <$> ms.*1.
Proof.
  induction ms as [|[n m] ms IH]; [done|]. rewrite bind_cons, tables_app, IH. done.
Qed.

Lemma tables_backend backends :
  tables (render_backend str_debug backends) = match backends with [] => [] | _ => ["[backend]"] end.
Proof. unfold render_backend. destruct backends as [|[? b] ?]; [done|]. by destruct (b_url b). Qed.

Lemma tables_mcp routes :
  tables (render_mcp str_debug routes) =
  match (mcp_routes routes).*1 with [] => [] | names => "[mcp]" :: (tenant_header <$> names) end.
Proof.
  unfold render_mcp. destruct (mcp_routes routes) as [|m ms]; [done|].
  rewrite tables_app, tables_tenants. done.
Qed.

(** The header of a tenant table, from the sanitized name. *)
Definition wrap_tenant (s : string) : string := "[mcp.tenants." +:+ s +:+ "]".

#[local] Instance wrap_tenant_inj : Inj (=) (=) wrap_tenant.
Proof.
  intros x y H%(inj (String.app _)). revert y H. induction x as [|c x IH]; intros [|d y] H.
  - done.
  - injection H as _ H. by destruct y.
  - injection H as _ H. by destruct x.
  - injection H as -> H. f_equal. by apply IH.
Qed.

Definition is_tenant (l : string) : bool := starts_with l "[mcp.tenants.".

Lemma tenant_is_tenant n : is_tenant (tenant_header n) = true.
Proof. unfold is_tenant, tenant_header. generalize (sanitize_toml_key n +:+ "]"). intros s. by destruct s. Qed.

(** Tables around the tenants' cannot clash with them. *)
Lemma nodup_around (pre post : list string) (names : list string) :
  NoDup (pre ++ post) -> Forall (fun l => is_tenant l = false) (pre ++ post) ->
  NoDup (pre ++ (tenant_header <$> names) ++ post) <-> NoDup (sanitize_toml_key <$> names).
Proof.
  intros Hnd Hno. assert (Hw : tenant_header <$> names = wrap_tenant <$> (sanitize_toml_key <$> names))
    by by rewrite <- list_fmap_compose.
  assert (Hd : forall x, x ∈ tenant_header <$> names -> x ∉ pre ++ post).
  { intros x (n & -> & _)%list_elem_of_fmap Hx. rewrite Forall_forall in Hno.
    specialize (Hno _ Hx). by rewrite tenant_is_tenant in Hno. }
  rewrite (Permutation_app_comm (_ <$> _) post), app_assoc, NoDup_app.
  rewrite <- (NoDup_fmap wrap_tenant (sanitize_toml_key <$> names)), <- Hw. split; [tauto|]. intros H. split; [done|split; [|done]].
  intros x Hx Ht. by apply (Hd x).
Qed.

(** The tables of the rendered document: [server], [obs], [log], a [backend] when one exists,
    [mcp] with one table per route that has a policy, and the key registry when there are
    keys; and no table occurs twice, as TOML demands, exactly when the route names stay
    distinct after sanitizing. *)
Theorem render_tables gateway backends routes keys :
  let names := (mcp_routes routes).*1 in
  tables (render_lines str_debug gateway backends routes keys) =
    ["[server]"] ++ (match backends with [] => [] | _ => ["[backend]"] end) ++ ["[obs]"; "[log]"] ++
    (match names with [] => [] | _ => "[mcp]" :: (tenant_header <$> names) end) ++
    (match keys with [] => [] | _ => ["[multitenancy]"; "[multitenancy.api_keys]"] end) /\
  (NoDup (tables (render_lines str_debug gateway backends routes keys)) <-> NoDup (sanitize_toml_key <$> names)).
Proof.
  cbn zeta. set (names := (mcp_routes routes).*1).
  assert (Ht : tables (render_lines str_debug gateway backends routes keys) =
    ["[server]"] ++ (match backends with [] => [] | _ => ["[backend]"] end) ++ ["[obs]"; "[log]"] ++
    (match names with [] => [] | _ => "[mcp]" :: (tenant_header <$> names) end) ++
    (match keys with [] => [] | _ => ["[multitenancy]"; "[multitenancy.api_keys]"] end)).
  { unfold render_lines. rewrite !tables_app, tables_keys, tables_backend, tables_mcp.
    subst names. by destruct ((mcp_routes routes).*1). }
  split; [done|]. rewrite Ht. clear Ht.
  set (post := match keys with [] => [] | _ => _ end).
  set (b := match backends with [] => [] | _ => _ end).
  assert (H : forall m, m = [] \/ m = ["[mcp]"] ->
    NoDup ((["[server]"] ++ b ++ ["[obs]"; "[log]"] ++ m) ++ post) /\
    Forall (fun l => is_tenant l = false) ((["[server]"] ++ b ++ ["[obs]"; "[log]"] ++ m) ++ post)).
  { intros m [-> | ->]; subst post b; destruct keys, backends;
      (split; [apply (bool_decide_unpack _); by vm_compute|by repeat constructor]). }
  destruct names as [|n names].
  - destruct (H []) as [Hnd Hno]; [by left|]. rewrite <- (nodup_around _ _ [] Hnd Hno), <- !app_assoc. done.
  - destruct (H ["[mcp]"]) as [Hnd Hno]; [by right|].
    rewrite <- (nodup_around _ _ (n :: names) Hnd Hno), <- !app_assoc. done.
Qed.
End render_proofs.

(** ** API keys, from the Secrets to the gateway *)

Section keys_spec.
Context (sha256 : list byte -> list byte) (get : string -> option (option (gmap string (list byte)))).

(** The lines of the Secret a route refers to; none when it cannot be read. *)
Definition secret_lines (route : RiftgateRouteSpec) : list string :=
  match
    mt ← route_multitenancy route; r ← api_key_secret_ref mt; data ← get (ref_name r);
    m ← data; bytes ← m !! ref_key r;
    if bool_decide (from_utf8_lossy bytes = bytes) then Some (of_bytes bytes) else None
  with
  | Some content => lines content
  | None => []
  end.

(** The last entry of a list for a key. *)
Definition last_for (h : string) (l : list (string * string)) : option string :=
  snd <$> last (filter (fun p => fst p = h) l).

Lemma foldl_insert_lookup (l : list (string * string)) (m : gmap string string) h :
  foldl (fun m p => <[fst p := snd p]> m) m l !! h = from_option Some (m !! h) (last_for h l).
Proof.
  unfold last_for. induction l as [|[k t] l IH] using rev_ind; [done|].
  rewrite foldl_app, filter_app. cbn [foldl]. destruct (decide (k = h)) as [-> |Hne].
  - rewrite lookup_insert, decide_True by done. rewrite filter_cons_True, filter_nil by done. by rewrite last_snoc.
  - rewrite lookup_insert_ne, IH by done. rewrite filter_cons_False, filter_nil, app_nil_r by done. done.
Qed.

Lemma add_keys_foldl content keys :
  add_keys sha256 content keys =
  foldl (fun m p => <[fst p := snd p]> m) keys (omap (key_line sha256) (lines content)).
Proof.
  unfold add_keys. generalize (lines content). intros ls. revert keys.
  induction ls as [|l ls IH]; intros keys; [done|]. cbn. rewrite IH. by destruct (key_line sha256 l) as [[h t]|].
Qed.

Lemma route_keys_foldl keys route :
  route_keys sha256 get keys route =
  foldl (fun m p => <[fst p := snd p]> m) keys (omap (key_line sha256) (secret_lines route)).
Proof.
  unfold route_keys, secret_lines. destruct (route_multitenancy route) as [mt|]; [|done]. cbn [mbind option_bind].
  destruct (api_key_secret_ref mt) as [r|]; [|done]. cbn [mbind option_bind].
  destruct (get (ref_name r)) as [[m|]|]; [|done|done]. cbn [mbind option_bind].
  destruct (m !! ref_key r) as [bytes|]; [|done]. cbn [mbind option_bind].
  case_bool_decide; [|done]. apply add_keys_foldl.
Qed.

Lemma collect_foldl routes :
  collect_api_keys sha256 get routes =
  foldl (fun m p => <[fst p := snd p]> m) ∅ (omap (key_line sha256) (routes ≫= secret_lines)).
Proof.
  unfold collect_api_keys. generalize (∅ : gmap string string). induction routes as [|r routes IH]; intros m; [done|].
  cbn [foldl]. rewrite IH, route_keys_foldl, bind_cons, omap_app, foldl_app. done.
Qed.

(** A last element of which [P] is false is not the last that has [P]. *)
Lemma snoc_last {A} (P : A -> Prop) (Q : A -> Prop) (l : list A) (x : A) :
  (forall y, P y -> Q y) -> ~ Q x ->
  (exists l1 y l2, l = l1 ++ y :: l2 /\ P y /\ Forall (fun z => ~ Q z) l2) <->
  (exists l1 y l2, l ++ [x] = l1 ++ y :: l2 /\ P y /\ Forall (fun z => ~ Q z) l2).
Proof.
  intros HPQ Hx. split.
  - intros (l1 & y & l2 & -> & Hy & Hl). exists l1, y, (l2 ++ [x]). rewrite <- app_assoc. split; [done|].
    split; [done|]. apply Forall_app. by repeat constructor.
  - intros (l1 & y & l2 & H & Hy & Hl). destruct l2 as [|z l2 _] using rev_ind.
    + apply app_inj_tail in H as [_ <-]. by destruct (Hx (HPQ _ Hy)).
    + rewrite app_comm_cons, app_assoc in H. apply app_inj_tail in H as [-> _].
      apply Forall_app in Hl as [Hl _]. by exists l1, y, l2.
Qed.

Lemma last_for_omap {A} (f : A -> option (string * string)) h t (l : list A) :
  last_for h (omap f l) = Some t <->
  exists l1 x l2, l = l1 ++ x :: l2 /\ f x = Some (h, t) /\ Forall (fun y => ~ exists t', f y = Some (h, t')) l2.
Proof.
  unfold last_for. induction l as [|x l IH] using rev_ind.
  { split; [done|]. intros (l1 & x & l2 & H & _). by destruct l1. }
  rewrite omap_app, filter_app. cbn [omap list_omap].
  destruct (f x) as [[k t0]|] eqn:Ex; [destruct (decide (k = h)) as [-> |Hne]|].
  - rewrite filter_cons_True, filter_nil, last_snoc by done. cbn. split.
    + intros [= ->]. by exists l, x, [].
    + intros (l1 & y & l2 & H & Hy & Hl). destruct l2 as [|z l2 _] using rev_ind.
      * apply app_inj_tail in H as [_ ->]. congruence.
      * rewrite app_comm_cons, app_assoc in H. apply app_inj_tail in H as [_ ->].
        apply Forall_app in Hl as [_ Hl]. rewrite Forall_singleton in Hl. destruct Hl. by exists t0.
  - rewrite filter_cons_False, filter_nil, app_nil_r, IH by done. apply snoc_last; [eauto|]. intros [? ?]. congruence.
  - rewrite filter_nil, app_nil_r, IH. apply snoc_last; [eauto|]. intros [? ?]. congruence.
Qed.

(** What the Secret format documents: a line [k=tenant], white space around it aside, that is
    no comment; [k] ends at the first [=]. *)
Definition line_entry (line k t : string) : Prop :=
  trim line = k +:+ String "=" t /\ has_char "=" k = false /\ starts_with (trim line) "#" = false.

(** The line gives the tenant [t] to the holder of [key]: it carries the hash of [key], or a
    raw key of the same hash. *)
Definition grants (key line t : string) : Prop :=
  exists k, line_entry line k t /\
    (if starts_with k "sha256:" then k = hash_key sha256 key else hash_key sha256 k = hash_key sha256 key).

Lemma key_line_grants key line t : key_line sha256 line = Some (hash_key sha256 key, t) <-> grants key line t.
Proof.
  unfold key_line, grants, line_entry. destruct (String.eqb_spec (trim line) "") as [E|_].
  { cbn. split; [done|]. intros (k & (H & _) & _). rewrite E in H. by destruct k. }
  cbn [orb]. destruct (starts_with (trim line) "#").
  { split; [done|]. by intros (k & (_ & _ & ?) & _). }
  split.
  - destruct (split_once "=" (trim line)) as [[k t']|] eqn:E; [|done]. apply split_once_some in E as [E Hk].
    cbn. intros [= H ->]. exists k. split; [done|]. by destruct (starts_with k _).
  - intros (k & (E & Hk & _) & H). rewrite (proj2 (split_once_some "=" (trim line) k t) (conj E Hk)). cbn.
    do 2 f_equal. by destruct (starts_with k _).
Qed.

(** [C30] API keys, from the Secrets to the gateway's answer: a gateway whose registry is the one
    the operator collected resolves a caller presenting [Bearer key] to a tenant exactly when
    some line of the Secrets of the routes, read in order, grants it to the key and no later
    line grants the key to anyone: the last entry wins.  A Secret that is missing, lacks the
    entry or is not UTF-8 contributes nothing and does not stop the others. *)
Theorem operator_key_resolves routes key id :
  resolve (TenantResolver := ApiKeyTenantResolver_resolver sha256)
    (from_multitenancy (mkTenancy "api-key" (collect_api_keys sha256 get routes)))
    (fun h => if String.eqb h "authorization" then Some ("Bearer " +:+ key) else None) = Some id <->
  exists before line after t, routes ≫= secret_lines = before ++ line :: after /\ grants key line t /\
    (forall line' t', line' ∈ after -> ~ grants key line' t') /\ id = mkIdentity (tenant_id_from_str t) t.
Proof.
  cbn [resolve ApiKeyTenantResolver_resolver]. unfold api_key_resolve. rewrite String.eqb_refl.
  cbn [registry from_multitenancy api_keys mbind option_bind].
  rewrite (proj2 (strip_prefix_some "Bearer " ("Bearer " +:+ key) key) eq_refl). cbn [mbind option_bind].
  rewrite lookup_fmap, collect_foldl, foldl_insert_lookup, lookup_empty.
  setoid_rewrite <- key_line_grants.
  pose proof (fun t => last_for_omap (key_line sha256) (hash_key sha256 key) t (routes ≫= secret_lines)) as Hl.
  setoid_rewrite Forall_forall in Hl. destruct (last_for _ _) as [t|]; cbn.
  - split.
    + intros [= <-]. destruct (proj1 (Hl t) eq_refl) as (l1 & x & l2 & ? & ? & Ha). exists l1, x, l2, t.
      repeat split; [done|done|]. intros line' t' Hin Hg. apply (Ha line' Hin). by exists t'.
    + intros (l1 & x & l2 & t' & E1 & E2 & E3 & ->). assert (Some t = Some t') as [= ->]; [|done].
      apply Hl. exists l1, x, l2. repeat split; [done|done|]. intros y Hy [t'' Ht]. by apply (E3 y t'').
  - split; [done|]. intros (l1 & x & l2 & t' & E1 & E2 & E3 & ->). enough (None = Some t') by done.
    apply Hl. exists l1, x, l2. repeat split; [done|done|]. intros y Hy [t'' Ht]. by apply (E3 y t'').
Qed.
End keys_spec.

(** ** Reconciliation *)

Section reconcile_spec.
Context (str_debug : string -> string) (sha256 : list byte -> list byte) (srv : Server).
Context (name : string) (namespace : option string) (spec : RiftgateSpec).

(** Locate a call in a concrete list of calls. *)
Ltac split_calls :=
  split; [done|split; [|by repeat constructor]];
  intros pre post ns n img k cm Hpre;
  do 6 (try (destruct pre as [|? pre]; simplify_eq/=)).

(** The first answer that is an error, in the order of the calls. *)
Definition first_failure : option ReconcileError :=
  match srv_backends srv, srv_routes srv, srv_patch_cm srv, srv_patch_deploy srv with
  | Err e, _, _, _ => Some (ApiError ("list backends: " +:+ e))
  | _, Err e, _, _ => Some (ApiError ("list routes: " +:+ e))
  | _, _, Err e, _ => Some (ApiError ("patch ConfigMap: " +:+ e))
  | _, _, _, Err e => Some (ApiError ("patch Deployment: " +:+ e))
  | _, _, _, _ => None
  end.

(** A reconciliation stops at its first failing call and reports that call; it succeeds only
    if the four essential ones do, whatever the status patch answers.  A Deployment is only
    ever patched right after the [ConfigMap] it mounts was written, in the same namespace,
    with the configuration rendered from the objects just listed: gateways never roll out
    onto a stale configuration.  The status is written to that [ConfigMap], never to the
    gateway object. *)
Theorem reconcile_outcome :
  let r := reconcile_riftgate str_debug sha256 srv name namespace spec in
  fst r = match first_failure with Some e => Err e | None => Ok (Requeue 300) end /\
  (forall pre post ns n img k cm, snd r = pre ++ PatchDeployment ns n img k cm :: post ->
    exists pre' toml bs rs, pre = pre' ++ [PatchConfigMap ns cm toml] /\
      srv_backends srv = Ok bs /\ srv_routes srv = Ok rs /\ srv_patch_cm srv = Ok () /\
      toml = render_config str_debug spec bs rs (map_to_list (collect_api_keys sha256 (srv_secret srv) (snd <$> rs)))) /\
  Forall (fun c => match c with PatchStatus k _ _ _ => k = ConfigMapRes | _ => True end) (snd r).
Proof.
  cbn zeta. unfold reconcile_riftgate, first_failure, api_err.
  destruct (srv_backends srv) as [bs|e1]; [|split_calls].
  destruct (srv_routes srv) as [rs|e2]; [|split_calls].
  destruct (srv_patch_cm srv) as [[]|e3]; [|split_calls].
  destruct (srv_patch_deploy srv) as [[]|e4]; split_calls; by eexists [_; _], _, _, _.
Qed.
End reconcile_spec.

(** ** Concrete objects *)

Definition in_quotes (s : string) : string := dquote +:+ s +:+ dquote.

Lemma in_quotes_quoted s : starts_with (in_quotes s) dquote = true.
Proof. apply starts_with_cons. split; [done|]. by destruct (s +:+ dquote). Qed.

Definition demo_route (m : McpRouteConfig) : RiftgateRouteSpec := mkRouteSpec "/v1/" "llm-prod" 1 (Some m) None.

Lemma render_deterministic_witness :
  render_config in_quotes (RiftgateSpec_of_image "riftgate:v1") [] [] [("sha256:abc", "acme"); ("sha256:def", "bigcorp")] =
  render_config in_quotes (RiftgateSpec_of_image "riftgate:v1") [] [] [("sha256:def", "bigcorp"); ("sha256:abc", "acme")].
Proof.
  apply (render_deterministic in_quotes); [constructor|]. apply (bool_decide_unpack _). by vm_compute.
Defined.

(** Routes [a-b] and [a.b] share a table: the document is not TOML. *)
Lemma render_tables_witness :
  ~ NoDup (tables (render_lines in_quotes (RiftgateSpec_of_image "riftgate:v1") []
    [("a-b", demo_route (mkMcpRoute true [] [] [])); ("a.b", demo_route (mkMcpRoute true [] [] []))] [])).
Proof.
  intros H. apply (proj2 (render_tables in_quotes in_quotes_quoted _ _ _ _)) in H.
  by apply (bool_decide_pack _) in H.
Defined.

(** An empty manifest and the derived [Default] disagree on every field that has a documented
    default: a policy made with [McpRouteConfig::default()] is a dry run. *)
Lemma derived_defaults_differ :
  route_enforce McpRouteConfig_empty = true /\ route_enforce McpRouteConfig_derived = false /\
  b_timeout_ms RiftgateBackendSpec_empty = 30000 /\ b_timeout_ms RiftgateBackendSpec_derived = 0 /\
  route_weight (RiftgateRouteSpec_of "/v1/" "llm") = 100 /\ route_weight RiftgateRouteSpec_derived = 0 /\
  error_threshold CircuitBreakerSpec_derived <> error_threshold CircuitBreakerSpec_empty.
Proof. done. Qed.

(** A dry-run policy is rendered as an enforcing one. *)
Example dry_run_is_enforced :
  "enforce = true" ∈ render_mcp in_quotes [("r", demo_route (mkMcpRoute false [] ["delete"] []))].
Proof. right. by left. Qed.

(** The name a policy is filed under is not the tenant's: [acme-corp] and its table have
    different tenant ids. *)
Example sanitized_tenant_differs :
  tenant_id_from_str (sanitize_toml_key "acme-corp") <> tenant_id_from_str "acme-corp".
Proof. by vm_compute. Qed.

(** A raw key that contains an equals sign is cut there. *)
Example padded_key_cut : key_line (fun bs => bs) "YQ===acme" = Some (hash_key (fun bs => bs) "YQ", "==acme").
Proof. by vm_compute. Qed.
