(* ===== verification/Controller.v ===== *)
(** * Controller: the operator's control loop over the cluster ([riftgate-operator])

    The objects the reconcilers write, the turns of the controllers ([reconciler.rs]) and the
    binary around them ([main.rs]).  A turn is one call of [reconcile_riftgate] for a gateway
    object, with the answers the API server gives to it; a call the server refused changes
    nothing.  When turns happen is the scheduling of kube-runtime: the theorems are over every
    sequence of turns. *)

From Stdlib Require Import Ascii String.
From S2P Require Import Prelude Http1 Text WalLog Process Operator.

#[local] Open Scope string_scope.
#[local] Open Scope list_scope.
#[local] Open Scope Z_scope.

(** ** The cluster *)

(** What a Deployment runs: image, replicas and the [ConfigMap] it mounts. *)
Record Deployment := mkDeployment { dep_image : string; dep_replicas : Z; dep_config_map : string }.

(** The objects by namespace and name; a [ConfigMap] by its [riftgate.toml]. *)
Record Cluster := mkCluster {
  config_maps : gmap (string * string) string;
  deployments : gmap (string * string) Deployment;
}.

(** Server-side apply of the calls that write, when the server accepts them. *)
Definition apply_call (srv : Server) (c : ApiCall) (cl : Cluster) : Cluster :=
  match c with
  | PatchConfigMap ns name toml =>
      match srv_patch_cm srv with
      | Ok _ => mkCluster (<[(ns, name) := toml]> (config_maps cl)) (deployments cl)
      | Err _ => cl
      end
  | PatchDeployment ns name img n cm =>
      match srv_patch_deploy srv with
      | Ok _ => mkCluster (config_maps cl) (<[(ns, name) := mkDeployment img n cm]> (deployments cl))
      | Err _ => cl
      end
  | _ => cl
  end.

(** ** Turns *)

(** A gateway object and the answers to its reconciliation. *)
Record Turn := mkTurn { t_srv : Server; t_name : string; t_namespace : option string; t_spec : RiftgateSpec }.

Definition t_ns (t : Turn) : string := default "default" (t_namespace t).

Section controller.
Context (str_debug : string -> string) (sha256 : list byte -> list byte).

(** The action the controller gets: the reconciler's, or that of the error policy. *)
Definition controller_turn (t : Turn) (cl : Cluster) : Action * Cluster :=
  let '(r, calls) := reconcile_riftgate str_debug sha256 (t_srv t) (t_name t) (t_namespace t) (t_spec t) in
  (match r with Ok a => a | Err e => error_policy e end, foldl (fun cl c => apply_call (t_srv t) c cl) cl calls).

Definition run_turns (ts : list Turn) (cl : Cluster) : Cluster := foldl (fun cl t => snd (controller_turn t cl)) cl ts.
End controller.

(** ** The stubs of the build without kube *)

Inductive ReconcileAction := ActionOk | ActionRequeue (backoff_secs : Z).

Definition stub_reconcile_riftgate (name : string) : result ReconcileAction ReconcileError := Ok ActionOk.
Definition stub_reconcile_backend (name : string) : result ReconcileAction ReconcileError := Ok ActionOk.
Definition stub_reconcile_route (name : string) : result ReconcileAction ReconcileError := Ok ActionOk.

Definition error_policy_backend (e : ReconcileError) : Action := Requeue 30.
Definition error_policy_route (e : ReconcileError) : Action := Requeue 30.

(** ** The binary *)

Inductive Scope := Namespaced (ns : string) | AllNamespaces.
Inductive Watched := WatchRiftgate | WatchBackend | WatchRoute.

(** [run_controllers]: one controller per kind, all in one scope. *)
Definition run_controllers (namespace : option string) : list (Watched * Scope) :=
  let scope := match namespace with Some ns => Namespaced ns | None => AllNamespaces end in
  [(WatchRiftgate, scope); (WatchBackend, scope); (WatchRoute, scope)].

Record OperatorCli := mkOperatorCli { op_namespace : option string; leader_lock : string }.

Inductive OperatorEffect := OpStderr (line : string) | Controllers (cs : list (Watched * Scope)).

(** [run_operator] for the answers of the runtime and of the client; the code after the
    controllers is reached when all of them have ended. *)
Definition run_operator (runtime client : result unit string) (cli : OperatorCli) : list OperatorEffect * Z :=
  match runtime with
  | Err e => ([OpStderr ("riftgate-operator: failed to build tokio runtime: " +:+ e)], EXIT_FAILURE)
  | Ok _ =>
      match client with
      | Err e => ([OpStderr ("riftgate-operator: cannot connect to Kubernetes API: " +:+ e)], EXIT_FAILURE)
      | Ok _ => ([Controllers (run_controllers (op_namespace cli))], EXIT_SUCCESS)
      end
  end.

Definition feature_hint : string :=
  "riftgate-operator: compiled without the `operator` feature." +:+ String lf "" +:+
  "Rebuild with `--features operator` to enable the live controller." +:+ String lf (String lf "") +:+
  "This stub binary is present so `cargo check --workspace` succeeds" +:+ String lf "" +:+
  "without Kubernetes headers installed.".

Definition operator_main (feature : bool) (runtime client : result unit string) (cli : OperatorCli) :
    list OperatorEffect * Z :=
  if feature then run_operator runtime client cli else ([OpStderr feature_hint], 2).

(** * Proofs *)

Section controller_proofs.
Context (str_debug : string -> string) (sha256 : list byte -> list byte).
Abbreviation turn := (controller_turn str_debug sha256).
Abbreviation turns := (run_turns str_debug sha256).

(** ** What a turn writes *)

(** The configuration a turn writes: the rendering of what it listed, if it got that far. *)
Definition written_config (t : Turn) : option string :=
  match srv_backends (t_srv t), srv_routes (t_srv t), srv_patch_cm (t_srv t) with
  | Ok bs, Ok rs, Ok _ =>
      Some (render_config str_debug (t_spec t) bs rs
              (map_to_list (collect_api_keys sha256 (srv_secret (t_srv t)) (snd <$> rs))))
  | _, _, _ => None
  end.

Definition config_name (name : string) : string := name +:+ "-config".

Definition written_deployment (t : Turn) : option Deployment :=
  match written_config t, srv_patch_deploy (t_srv t) with
  | Some _, Ok _ => Some (mkDeployment (image (t_spec t)) (replicas (t_spec t)) (config_name (t_name t)))
  | _, _ => None
  end.

Definition set_if {V} (k : string * string) (v : option V) (m : gmap (string * string) V) : gmap (string * string) V :=
  match v with Some v => <[k := v]> m | None => m end.

Lemma turn_effect t cl :
  turn t cl =
    (Requeue (match written_deployment t with Some _ => 300 | None => 30 end),
     mkCluster (set_if (t_ns t, config_name (t_name t)) (written_config t) (config_maps cl))
       (set_if (t_ns t, t_name t) (written_deployment t) (deployments cl))).
Proof.
  unfold controller_turn, reconcile_riftgate, written_deployment, written_config, api_err.
  destruct cl as [cms ds]. destruct (srv_backends (t_srv t)) as [bs|e]; [|done]. destruct (srv_routes (t_srv t)) as [rs|e]; [|done].
  destruct (srv_patch_cm (t_srv t)) as [[]|e] eqn:Ec; cbn; rewrite ?Ec; [|done].
  destruct (srv_patch_deploy (t_srv t)) as [[]|e] eqn:Ed; cbn; by rewrite ?Ec, ?Ed.
Qed.

Lemma append_inj_l (a b s : string) : a +:+ s = b +:+ s -> a = b.
Proof. intros Heq. pose proof (strip_suffix_app s a) as H1. rewrite Heq, strip_suffix_app in H1. by injection H1. Qed.

(** ** Histories *)

Definition of_gateway (ns name : string) (t : Turn) : bool := bool_decide (t_ns t = ns) && bool_decide (t_name t = name).

(** The last value a list of turns wrote for a gateway. *)
Definition last_written {V} (f : Turn -> option V) (ns name : string) (ts : list Turn) (before : option V) : option V :=
  foldl (fun v t => if of_gateway ns name t then match f t with Some x => Some x | None => v end else v) before ts.

Lemma of_gateway_spec ns name t : reflect (t_ns t = ns /\ t_name t = name) (of_gateway ns name t).
Proof. unfold of_gateway. repeat case_bool_decide; cbn; constructor; naive_solver. Qed.

Lemma set_if_lookup {V} k k' (v : option V) m :
  set_if k v m !! k' = if decide (k = k') then match v with Some x => Some x | None => m !! k' end else m !! k'.
Proof.
  destruct v as [x|]; cbn; [|by case_decide]. case_decide as Hk; [subst; by rewrite lookup_insert_eq|].
  by rewrite lookup_insert_ne.
Qed.

(** ** Convergence *)

(** [C39] Through any sequence of turns, of any gateways, with any failures of the API server:
    the [ConfigMap] of a gateway is the rendering of what its last turn that reached the
    patch listed, its Deployment is that of its last turn that succeeded, and no turn of
    another gateway, of another namespace or name, touches either.  A Deployment that the
    operator wrote mounts the gateway's own [ConfigMap], which exists. *)
Theorem controller_converges ts cl ns name :
  let cl' := turns ts cl in
  config_maps cl' !! (ns, config_name name) =
    last_written written_config ns name ts (config_maps cl !! (ns, config_name name)) /\
  deployments cl' !! (ns, name) = last_written written_deployment ns name ts (deployments cl !! (ns, name)) /\
  forall d, deployments cl' !! (ns, name) = Some d -> deployments cl !! (ns, name) = None ->
    dep_config_map d = config_name name /\ is_Some (config_maps cl' !! (ns, config_name name)).
Proof.
  cbn zeta. unfold run_turns, last_written.
  induction ts as [|t ts IH] using rev_ind; [split_and!; [done|done|cbn; congruence]|].
  rewrite !foldl_app. cbn [foldl]. destruct IH as (IHc & IHd & IHm). revert IHc IHd IHm.
  generalize (foldl (fun cl t => snd (turn t cl)) cl ts). intros cl1 IHc IHd IHm.
  rewrite turn_effect. cbn [snd config_maps deployments]. rewrite !set_if_lookup, <- IHc, <- IHd.
  destruct (of_gateway_spec ns name t) as [[<- <-]|Hne].
  - rewrite !decide_True by done. split_and!; [done|done|]. unfold written_deployment.
    destruct (written_config t) as [toml|]; [|exact IHm].
    destruct (srv_patch_deploy (t_srv t)); [|intros d Hd Hn; destruct (IHm d Hd Hn); eauto]. intros d [= <-] _. eauto.
  - rewrite !decide_False; [done|intros [= ? ?]; tauto|].
    intros [= ? Hc]. apply append_inj_l in Hc. tauto.
Qed.

(** A turn says when it wants to run again: after five minutes when everything was written,
    after thirty seconds otherwise; a turn repeated with the same answers changes nothing. *)
Theorem controller_turn_settles t cl :
  (fst (turn t cl) = Requeue 300 <-> is_Some (written_deployment t)) /\
  (fst (turn t cl) = Requeue 30 <-> written_deployment t = None) /\
  snd (turn t (snd (turn t cl))) = snd (turn t cl).
Proof.
  rewrite !turn_effect. cbn [fst snd config_maps deployments]. split_and!.
  - destruct (written_deployment t); [naive_solver|]. split; [done|]. by intros [? ?].
  - by destruct (written_deployment t).
  - f_equal; [destruct (written_config t)|destruct (written_deployment t)]; cbn; try done; by rewrite insert_insert_eq.
Qed.

(** A change of a route rewrites the configuration and leaves the Deployment as it was: the
    pod template does not mention what the [ConfigMap] holds, so nothing restarts the pods,
    which read their configuration at startup. *)
Theorem config_change_no_rollout t t' cl :
  t_name t' = t_name t -> t_namespace t' = t_namespace t -> t_spec t' = t_spec t ->
  is_Some (written_deployment t) ->
  deployments (turns [t; t'] cl) = deployments (turns [t] cl).
Proof.
  intros Hn Hns Hspec [d Hd]. unfold run_turns. cbn [foldl]. rewrite !turn_effect. cbn [snd deployments].
  destruct (written_deployment t') as [d'|] eqn:E'; [|done]. rewrite Hd. cbn [set_if].
  assert (d' = d) as ->.
  { unfold written_deployment in *. rewrite Hn, Hspec in E'. by repeat case_match; simplify_eq. }
  unfold t_ns. rewrite Hn, Hns. by rewrite insert_insert_eq.
Qed.
End controller_proofs.

(** ** The binary *)

(** The operator exits with 2 without the feature, with 1 exactly when the runtime or the
    client could not be made; otherwise it watches the three kinds in the scope it was given.
    The name of the leader lock changes nothing: replicas all reconcile. *)
Theorem operator_main_spec feature runtime client cli :
  operator_main feature runtime client cli =
    (if feature
     then match runtime, client with
          | Ok _, Ok _ =>
              ([Controllers ((fun k => (k, match op_namespace cli with Some ns => Namespaced ns | None => AllNamespaces end))
                 <$> [WatchRiftgate; WatchBackend; WatchRoute])], 0)
          | _, _ => (fst (run_operator runtime client cli), 1)
          end
     else ([OpStderr feature_hint], 2)) /\
  forall lock, operator_main feature runtime client (mkOperatorCli (op_namespace cli) lock)
               = operator_main feature runtime client cli.
Proof. by destruct feature, runtime as [[]|], client as [[]|], cli. Qed.

(** ** Concrete turns *)

Definition demo_server (cm : result unit string) (rs : list (string * RiftgateRouteSpec)) : Server :=
  mkServer (Ok []) (Ok rs) (fun _ => None) cm (Ok tt) (Err "no status subresource").

Definition demo_turn (cm : result unit string) (rs : list (string * RiftgateRouteSpec)) : Turn :=
  mkTurn (demo_server cm rs) "prod" None (RiftgateSpec_of_image "riftgate:v1").

Lemma config_change_no_rollout_witness :
  let rs := [("r", demo_route (mkMcpRoute true ["email"] [] []))] in
  deployments (run_turns in_quotes (fun bs => bs) [demo_turn (Ok tt) []; demo_turn (Ok tt) rs] (mkCluster ∅ ∅)) =
  deployments (run_turns in_quotes (fun bs => bs) [demo_turn (Ok tt) []] (mkCluster ∅ ∅)) /\
  written_config in_quotes (fun bs => bs) (demo_turn (Ok tt) rs) <> written_config in_quotes (fun bs => bs) (demo_turn (Ok tt) []).
Proof.
  intros rs. split; [apply config_change_no_rollout; [done..|by eexists]|]. by vm_compute.
Defined.

(** The second turn is refused by the server: the configuration of the first stays, and the
    gateway of another name is untouched. *)
Lemma controller_converges_witness :
  let ts := [demo_turn (Ok tt) []; demo_turn (Err "conflict") [("r", demo_route (mkMcpRoute true [] [] []))]] in
  let cl := run_turns in_quotes (fun bs => bs) ts (mkCluster ∅ ∅) in
  config_maps cl !! ("default", "prod-config") = written_config in_quotes (fun bs => bs) (demo_turn (Ok tt) []) /\
  deployments cl !! ("default", "prod") = Some (mkDeployment "riftgate:v1" 1 "prod-config") /\
  deployments cl !! ("default", "other") = None.
Proof.
  intros ts cl.
  destruct (controller_converges in_quotes (fun bs => bs) ts (mkCluster ∅ ∅) "default" "prod") as (Hc & Hd & _).
  destruct (controller_converges in_quotes (fun bs => bs) ts (mkCluster ∅ ∅) "default" "other") as (_ & Ho & _).
  split; [etrans; [exact Hc|by vm_compute]|]. split; [etrans; [exact Hd|by vm_compute]|].
  etrans; [exact Ho|by vm_compute].
Defined.
