(* ===== verification/Replay.v ===== *)
(** * Replay: the command [riftgate-replay] ([riftgate-replay/src/bin/riftgate-replay.rs])

    The segment paths ([collect_segment_paths]), the decoder of a segment, the three commands
    and their summaries.  The file system is a record of its answers; a path is a Unix path
    in UTF-8, an opened file its bytes.  The base64 and JSON encoders, the TOML parser and
    the decoded command line are parameters.  The decoder's loop runs on fuel, one unit per
    frame; each frame takes 22 bytes, so one more than the length of the file is enough
    ([decode_loop_exact]). *)

From Stdlib Require Import Ascii String SpecFloat.
From stdpp Require Import pretty.
From S2P Require Import Prelude Frame Capability Mcp Text.

#[local] Open Scope string_scope.
#[local] Open Scope list_scope.
#[local] Open Scope Z_scope.

(** ** Paths *)

(** [Path::components]: a root, then the components; [.] survives only at the start. *)
Inductive Component := RootDir | CurDir | ParentDir | Normal (s : string).

Definition component_of (s : string) : Component := if String.eqb s ".." then ParentDir else Normal s.

Definition components (path : string) : list Component :=
  let parts := split_at "/" path in
  let rest := component_of <$> filter (fun s => negb (String.eqb s "" || String.eqb s ".") = true) parts in
  match parts with
  | "" :: _ :: _ => RootDir :: rest
  | "." :: _ => CurDir :: rest
  | _ => rest
  end.

(** The derived order of [Component], and paths compared by components. *)
Definition component_rank (c : Component) : Z :=
  match c with RootDir => 1 | CurDir => 2 | ParentDir => 3 | Normal _ => 4 end.

Definition component_le (a b : Component) : bool :=
  match a, b with
  | Normal x, Normal y => str_leb x y
  | _, _ => component_rank a <=? component_rank b
  end.

Fixpoint components_le (a b : list Component) : bool :=
  match a, b with
  | [], _ => true
  | _ :: _, [] => false
  | x :: a, y :: b => if component_le y x then component_le x y && components_le a b else component_le x y
  end.

Definition path_le (p q : string) : bool := components_le (components p) (components q).

(** [Path::file_name] and [Path::extension]. *)
Definition file_name (path : string) : option string :=
  match last (components path) with Some (Normal s) => Some s | _ => None end.

Definition extension (path : string) : option string :=
  name ← file_name path;
  match rev (split_at "." name) with
  | after :: before :: rest => if String.eqb before "" && bool_decide (rest = []) then None else Some after
  | _ => None
  end.

Definition is_wal_file (path : string) : bool :=
  match extension path with Some ext => String.eqb ext "wal" | None => false end.

(** ** Stable sorting ([sort], [sort_by_key]) *)

Section sort.
Context {A : Type} (le : A -> A -> bool).

Fixpoint sort_in (x : A) (l : list A) : list A :=
  match l with
  | [] => [x]
  | y :: l' => if le x y then x :: l else y :: sort_in x l'
  end.

Definition sort_by (l : list A) : list A := foldr sort_in [] l.
End sort.

(** ** The file system *)

Record Fs := mkFs {
  fs_is_dir : string -> bool;
  fs_read_dir : string -> result (list (result string string)) string;
  fs_open : string -> result (list byte) string;
  fs_read_to_string : string -> result string string;
}.

(** The entries of one directory: the first failing one ends the scan. *)
Fixpoint scan_entries (entries : list (result string string)) (out : list string) : result (list string) string :=
  match entries with
  | [] => Ok out
  | Err e :: _ => Err e
  | Ok path :: entries => scan_entries entries (if is_wal_file path then out ++ [path] else out)
  end.

Fixpoint collect_loop (fs : Fs) (inputs : list string) (out : list string) : result (list string) string :=
  match inputs with
  | [] => Ok out
  | p :: inputs =>
      if fs_is_dir fs p then
        match fs_read_dir fs p with
        | Err e => Err ("failed to read directory " +:+ p +:+ ": " +:+ e)
        | Ok entries =>
            match scan_entries entries out with Err e => Err e | Ok out => collect_loop fs inputs out end
        end
      else if is_wal_file p then collect_loop fs inputs (out ++ [p])
      else Err ("path is neither a .wal file nor directory: " +:+ p)
  end.

Definition collect_segment_paths (fs : Fs) (inputs : list string) : result (list string) string :=
  match collect_loop fs inputs [] with
  | Err e => Err e
  | Ok out => match sort_by path_le out with [] => Err "no WAL segment files found" | out => Ok out end
  end.

(** ** Reading a header

    [read] may return fewer bytes than it was asked for: [script k] is what the [k]-th call
    does, an error or at most that many bytes, at least one while there are any. *)

Inductive ReadResult := Eof | Read (header rest : list byte) | Truncated | Failed (e : string).

Definition read_step (want : nat) (r : result nat string) (data : list byte) : result (list byte * list byte) string :=
  match r with
  | Err e => Err e
  | Ok n => let n := Nat.min (Nat.max 1 n) want in Ok (take n data, drop n data)
  end.

Fixpoint read_loop (fuel k : nat) (script : nat -> result nat string) (len : nat) (buf data : list byte) :
    option ReadResult :=
  match fuel with
  | O => None
  | S fuel =>
      if (length buf <? len)%nat then
        match read_step (len - length buf) (script k) data with
        | Err e => Some (Failed e)
        | Ok ([], _) => Some match buf with [] => Eof | _ => Truncated end
        | Ok (got, data) => read_loop fuel (S k) script len (buf ++ got) data
        end
      else Some (Read buf data)
  end.

(** ** The decoder *)

Section replay.
Context (base64 : list byte -> string).

Record DecodedEntry := mkEntry {
  source_path : string;
  offset : Z;
  e_entry_id : Z;
  e_timestamp_nanos : Z;
  durability : string;
  e_entry_kind : Z;
  payload_len : Z;
  payload_base64 : string;
}.

Definition decode_durability (tag : Z) : string :=
  if tag =? 0 then "async"
  else if tag =? 1 then "fdatasync"
  else if tag =? 2 then "fsync"
  else "unknown-" +:+ pretty tag.

(** One iteration reads a header and a payload; [None] from the fuel cannot happen. *)
Fixpoint decode_loop (fuel : nat) (path : string) (off : Z) (data : list byte) (out : list DecodedEntry) :
    option (result (list DecodedEntry) string) :=
  match fuel with
  | O => None
  | S fuel =>
      match read_exact_or_eof ENTRY_HEADER_BYTES data with
      | CleanEof => Some (Ok out)
      | Partial => Some (Err ("read header " +:+ path +:+ " failed: truncated WAL header"))
      | Full header rest =>
          let len := from_le_bytes (bytes_at 0 4 header) in
          match read_exact (Z.to_nat len) rest with
          | None => Some (Err ("read payload " +:+ path +:+ " failed at offset " +:+ pretty off +:+
                               ": failed to fill whole buffer"))
          | Some (payload, rest) =>
              decode_loop fuel path (off + Z.of_nat ENTRY_HEADER_BYTES + len) rest
                (out ++ [mkEntry path off (from_le_bytes (bytes_at 14 22 header))
                           (from_le_bytes (bytes_at 6 14 header))
                           (decode_durability (from_le_bytes (bytes_at 4 5 header)))
                           (from_le_bytes (bytes_at 5 6 header)) len (base64 payload)])
          end
      end
  end.

Definition decode_one_segment (fs : Fs) (path : string) (out : list DecodedEntry) :
    option (result (list DecodedEntry) string) :=
  match fs_open fs path with
  | Err e => Some (Err ("open " +:+ path +:+ " failed: " +:+ e))
  | Ok data => decode_loop (S (length data)) path 0 data out
  end.

Fixpoint decode_paths (fs : Fs) (paths : list string) (out : list DecodedEntry) :
    option (result (list DecodedEntry) string) :=
  match paths with
  | [] => Some (Ok out)
  | p :: paths =>
      match decode_one_segment fs p out with
      | Some (Ok out) => decode_paths fs paths out
      | r => r
      end
  end.

Definition id_le (a b : DecodedEntry) : bool := e_entry_id a <=? e_entry_id b.

Definition decode_segments (fs : Fs) (inputs : list string) : option (result (list DecodedEntry) string) :=
  match collect_segment_paths fs inputs with
  | Err e => Some (Err e)
  | Ok paths =>
      match decode_paths fs paths [] with
      | Some (Ok out) => Some (Ok (sort_by id_le out))
      | r => r
      end
  end.

(** ** The commands *)

Definition within_range (id : Z) (from to : option Z) : bool :=
  match from with Some f => negb (id <? f) | None => true end &&
  match to with Some t => negb (t <? id) | None => true end.

Inductive DumpFormat := FmtJson | FmtJsonl.

Record DumpArgs := mkDumpArgs {
  d_segments : list string; d_from : option Z; d_to : option Z; d_limit : option nat; d_format : DumpFormat }.
Record ReplayArgs := mkReplayArgs {
  r_segments : list string; r_config : option string; r_compare : bool; rate_multiplier : spec_float }.
Record EvalArgs := mkEvalArgs { v_segments : list string; eval_set : string; fail_fast : bool }.

Record ReplaySummary := mkReplaySummary {
  rs_run_kind : string; rs_entries : Z; rs_bytes : Z; rs_compare : bool; rs_rate : spec_float;
  rs_config : option string }.
Record EvalSummary := mkEvalSummary {
  es_run_kind : string; es_entries : Z; es_bytes : Z; es_eval_set : string; es_fail_fast : bool;
  es_top_level_keys : Z }.

(** What [dump] selects, before it is printed. *)
Definition select_entries (args : DumpArgs) (entries : list DecodedEntry) : list DecodedEntry :=
  let kept := filter (fun e => within_range (e_entry_id e) (d_from args) (d_to args) = true) entries in
  match d_limit args with Some n => take n kept | None => kept end.

Context (json_entries : list DecodedEntry -> result string string) (json_entry : DecodedEntry -> result string string)
  (json_replay : ReplaySummary -> result string string) (json_eval : EvalSummary -> result string string)
  (toml_keys : string -> result (option Z) string).

(** The lines printed, and how the run ends. *)
Fixpoint print_lines (es : list DecodedEntry) : list string * result unit string :=
  match es with
  | [] => ([], Ok ())
  | e :: es =>
      match json_entry e with
      | Err m => ([], Err m)
      | Ok line => let '(ls, r) := print_lines es in (line :: ls, r)
      end
  end.

Definition print_one (r : result string string) : list string * result unit string :=
  match r with Ok s => ([s], Ok ()) | Err m => ([], Err m) end.

Definition run_dump (fs : Fs) (args : DumpArgs) : option (list string * result unit string) :=
  r ← decode_segments fs (d_segments args);
  Some match r with
       | Err m => ([], Err m)
       | Ok entries =>
           let entries := select_entries args entries in
           match d_format args with FmtJson => print_one (json_entries entries) | FmtJsonl => print_lines entries end
       end.

Definition total_bytes (es : list DecodedEntry) : Z := foldr (fun e n => payload_len e + n) 0 es.

Definition run_replay (fs : Fs) (args : ReplayArgs) : option (list string * result unit string) :=
  r ← decode_segments fs (r_segments args);
  Some match r with
       | Err m => ([], Err m)
       | Ok es =>
           print_one (json_replay (mkReplaySummary "replay" (Z.of_nat (length es)) (total_bytes es)
                                     (r_compare args) (rate_multiplier args) (r_config args)))
       end.

Definition run_eval (fs : Fs) (args : EvalArgs) : option (list string * result unit string) :=
  r ← decode_segments fs (v_segments args);
  Some match r with
       | Err m => ([], Err m)
       | Ok es =>
           match fs_read_to_string fs (eval_set args) with
           | Err e => ([], Err ("failed to read eval-set " +:+ eval_set args +:+ ": " +:+ e))
           | Ok text =>
               match toml_keys text with
               | Err e => ([], Err ("invalid eval-set TOML: " +:+ e))
               | Ok keys =>
                   print_one (json_eval (mkEvalSummary "eval" (Z.of_nat (length es)) (total_bytes es)
                                           (eval_set args) (fail_fast args) (default 0 keys)))
               end
           end
       end.

Inductive Command := CmdDump (a : DumpArgs) | CmdReplay (a : ReplayArgs) | CmdEval (a : EvalArgs).

(** [run], and the exit status of [main]. *)
Definition run (fs : Fs) (c : Command) : option (list string * result unit string) :=
  match c with
  | CmdDump a => run_dump fs a
  | CmdReplay a => run_replay fs a
  | CmdEval a => run_eval fs a
  end.

Definition exit_status (r : result unit string) : Z := match r with Ok _ => 0 | Err _ => 1 end.
End replay.

(** * Proofs *)

(** ** Sorting *)

Section sort_proofs.
Context {A : Type} (le : A -> A -> bool) (key : A -> Z) (Hle : forall x y, le x y = (key x <=? key y)).

Lemma sort_in_perm x l : sort_in le x l ≡ₚ x :: l.
Proof. induction l as [|y l IH]; cbn; [done|]. destruct (le x y); [done|]. rewrite IH. constructor. Qed.

Lemma sort_by_perm l : sort_by le l ≡ₚ l.
Proof. induction l as [|x l IH]; cbn; [done|]. rewrite sort_in_perm. by constructor. Qed.

Lemma sort_in_sorted x l :
  StronglySorted (fun a b => key a <= key b) l -> StronglySorted (fun a b => key a <= key b) (sort_in le x l).
Proof.
  induction 1 as [|y l Hs IH Hy]; cbn; [by repeat constructor|]. rewrite Hle.
  destruct (Z.leb_spec (key x) (key y)) as [Hxy|Hxy].
  - repeat constructor; [done|done|done|]. eapply Forall_impl; [done|]. cbn. lia.
  - constructor; [done|]. rewrite sort_in_perm. constructor; [lia|done].
Qed.

Lemma sort_by_sorted l : StronglySorted (fun a b => key a <= key b) (sort_by le l).
Proof. induction l as [|x l IH]; cbn; [constructor|by apply sort_in_sorted]. Qed.

(** Equal keys keep their order. *)
Lemma sort_in_stable k x l :
  StronglySorted (fun a b => key a <= key b) l ->
  filter (fun a => key a = k) (sort_in le x l) = filter (fun a => key a = k) (x :: l).
Proof.
  induction 1 as [|y l Hs IH Hy]; cbn [sort_in]; [done|]. rewrite Hle.
  destruct (Z.leb_spec (key x) (key y)) as [Hxy|Hxy]; [done|].
  rewrite !filter_cons, IH, filter_cons. destruct (decide (key y = k)), (decide (key x = k)); try done. lia.
Qed.

Lemma sort_by_stable k l : filter (fun a => key a = k) (sort_by le l) = filter (fun a => key a = k) l.
Proof.
  induction l as [|x l IH]; [done|]. change (sort_by le (x :: l)) with (sort_in le x (sort_by le l)).
  rewrite sort_in_stable by apply sort_by_sorted.
  rewrite !filter_cons. by rewrite IH.
Qed.
End sort_proofs.

(** ** Short reads *)

Lemma read_loop_done fuel k script len buf data :
  (forall j, (k <= j < k + (len - length buf))%nat -> exists n, script j = Ok n) ->
  (length buf <= len)%nat -> (len - length buf < fuel)%nat ->
  (buf = [] -> data = [] -> len <> 0%nat) ->
  read_loop fuel k script len buf data =
    Some (if decide (len <= length buf + length data)%nat
          then Read (take len (buf ++ data)) (drop len (buf ++ data))
          else match buf ++ data with [] => Eof | _ => Truncated end).
Proof.
  revert k buf data. induction fuel as [|fuel IH]; intros k buf data Hs Hle Hf Hne; [lia|]. cbn [read_loop].
  destruct (Nat.ltb_spec (length buf) len) as [Hlt|Hge].
  - destruct (Hs k) as [n Hn]; [lia|]. rewrite Hn. cbn [read_step].
    set (m := Nat.min (Nat.max 1 n) (len - length buf)). assert (Hm : (1 <= m <= len - length buf)%nat) by lia.
    destruct data as [|x data].
    + rewrite take_nil. rewrite app_nil_r. cbn [length]. rewrite decide_False by lia. by destruct buf.
    + destruct (take m (x :: data)) as [|y got] eqn:Et.
      { destruct m; [lia|]. done. }
      rewrite <- Et. clear y got Et.
      assert (Hl : (length (take m (x :: data)) = Nat.min m (length (x :: data)))%nat) by by rewrite length_take.
      cbn [length] in Hl. rewrite IH.
      * rewrite <- app_assoc, take_drop, length_app, length_drop, Hl. cbn [length].
        destruct (decide (len <= length buf + S (length data))%nat); [by rewrite decide_True by lia|].
        by rewrite decide_False by lia.
      * intros j Hj. apply Hs. rewrite length_app in Hj. lia.
      * rewrite length_app. lia.
      * rewrite length_app. lia.
      * intros Hb. apply app_nil in Hb as [_ Hb]. rewrite Hb in Hl. cbn in Hl. lia.
  - assert (Hlen : length buf = len) by lia. rewrite decide_True by lia.
    by rewrite take_app_length', drop_app_length' by done.
Qed.

(** However the reader cuts a segment, reading a header gives what one read of the whole
    does: the header and the rest, a clean end, or a truncation; [len] bytes take at most
    [len] reads and one more turn of the loop. *)
Theorem short_reads_agree script len data :
  (0 < len)%nat -> (forall j, (j < len)%nat -> exists n, script j = Ok n) ->
  read_loop (S len) 0 script len [] data =
    Some match read_exact_or_eof len data with
         | CleanEof => Eof
         | Partial => Truncated
         | Full header rest => Read header rest
         end.
Proof.
  intros Hl Hs. rewrite read_loop_done; cbn [length app]; [|intros j Hj; apply Hs; lia|lia|lia|lia].
  unfold read_exact_or_eof. destruct data as [|x data]; [rewrite decide_False by (cbn; lia); done|].
  f_equal. repeat case_decide; try done; cbn [length] in *; lia.
Qed.

(** ** The decoder is exact *)

Section decode_proofs.
Context (base64 : list byte -> string).

(** The entries of a segment that holds the frames, from an offset on. *)
Fixpoint decoded (path : string) (off : Z) (frs : list ParsedFrame) : list DecodedEntry :=
  match frs with
  | [] => []
  | fr :: frs =>
      mkEntry path off (entry_id fr) (timestamp_nanos fr) (decode_durability (durability_tag fr))
        (entry_kind fr) (Z.of_nat (length (payload fr))) (base64 (payload fr))
      :: decoded path (off + Z.of_nat (length (encode_frame fr))) frs
  end.

(** A complete frame is one iteration. *)
Lemma decode_loop_frame fuel path off fr rest out :
  frame_wide fr ->
  decode_loop base64 (S fuel) path off (encode_frame fr ++ rest) out =
  decode_loop base64 fuel path (off + Z.of_nat (length (encode_frame fr))) rest (out ++ decoded path off [fr]).
Proof.
  intros Hw. destruct (header_fields fr Hw) as (Hl & Hd & Hk & Ht & Hi).
  cbn [decode_loop]. unfold encode_frame at 1. rewrite <- app_assoc, read_header. cbv zeta.
  rewrite Hl, Hd, Hk, Ht, Hi. unfold read_exact. rewrite Nat2Z.id, decide_False by (rewrite length_app; lia).
  rewrite take_app_length, drop_app_length, length_encode_frame.
  cbn [decoded]. f_equal. lia.
Qed.

(** The loop ends with a result on all bytes, and with entries exactly on whole frames. *)
Lemma decode_loop_exact fuel path off data out :
  (length data < fuel)%nat ->
  (exists frs, Forall frame_wide frs /\ data = encode_frames frs /\
     decode_loop base64 fuel path off data out = Some (Ok (out ++ decoded path off frs))) \/
  (exists e, decode_loop base64 fuel path off data out = Some (Err e)) /\
  (forall frs, Forall frame_wide frs -> data <> encode_frames frs).
Proof.
  revert off data out. induction fuel as [|fuel IH]; intros off data out Hf; [lia|].
  destruct (read_exact_or_eof ENTRY_HEADER_BYTES data) as [| |h rest] eqn:E.
  - left. exists []. unfold read_exact_or_eof in E. destruct data; [|by case_decide].
    cbn [decode_loop]. rewrite app_nil_r. done.
  - right. split; [eexists; cbn [decode_loop]; by rewrite E|]. intros [|fr frs] _ ->; [done|].
    cbn [fmap list_fmap concat] in E. unfold encode_frame in E. by rewrite <- app_assoc, read_header in E.
  - pose proof (read_exact_or_eof_full _ _ _ _ E) as [-> Hh].
    destruct (read_exact (Z.to_nat (from_le_bytes (bytes_at 0 4 h))) rest) as [[body rest']|] eqn:E2.
    + pose proof (read_exact_some _ _ _ _ E2) as [-> Hb].
      destruct (frame_of_header h body Hh Hb) as (Hw & Henc & _). cbv zeta in Hw, Henc.
      set (fr := mkFrame _ _ _ _ body) in *. rewrite app_assoc, <- Henc, decode_loop_frame by done.
      destruct (IH (off + Z.of_nat (length (encode_frame fr))) rest' (out ++ decoded path off [fr]))
        as [(frs & Hws & -> & Hr)|[[e Hr] Hno]].
      { rewrite !length_app, Hh in Hf. unfold ENTRY_HEADER_BYTES in Hf. lia. }
      * left. exists (fr :: frs). split; [by constructor|split; [done|]]. rewrite Hr, <- app_assoc. done.
      * right. split; [by exists e|]. intros [|fr' frs] Hfr' Hd.
        { apply (f_equal length) in Hd. rewrite length_app, length_encode_frame in Hd. done. }
        cbn [fmap list_fmap concat] in Hd. apply Forall_cons in Hfr' as [Hfr' Hfrs].
        destruct (encode_frame_inj fr fr' rest' (encode_frames frs) Hw Hfr' Hd) as [_ ->]. by apply (Hno frs).
    + right. split; [eexists; cbn [decode_loop]; rewrite E; cbv zeta; by rewrite E2|].
      intros [|fr frs] Hfr Hd; [by apply app_nil in Hd as [-> _]|]. apply Forall_cons in Hfr as [Hfr _].
      cbn [fmap list_fmap concat] in Hd. unfold encode_frame in Hd. rewrite <- app_assoc in Hd.
      apply app_inj_1 in Hd as [-> ->]; [|by rewrite length_encode_header].
      rewrite (proj1 (header_fields fr Hfr)), Nat2Z.id in E2. unfold read_exact in E2.
      rewrite decide_False in E2 by (rewrite length_app; lia). done.
Qed.

(** A segment file that holds exactly the frames. *)
Definition segment_holds (fs : Fs) (path : string) (frs : list ParsedFrame) : Prop :=
  Forall frame_wide frs /\ fs_open fs path = Ok (encode_frames frs).

Lemma decode_one_exact fs path out :
  (exists frs, segment_holds fs path frs /\
     decode_one_segment base64 fs path out = Some (Ok (out ++ decoded path 0 frs))) \/
  (exists e, decode_one_segment base64 fs path out = Some (Err e)) /\ (forall frs, ~ segment_holds fs path frs).
Proof.
  unfold decode_one_segment, segment_holds. destruct (fs_open fs path) as [data|e].
  - destruct (decode_loop_exact (S (length data)) path 0 data out) as [(frs & Hw & -> & Hr)|[He Hno]]; [lia| |].
    + left. by exists frs.
    + right. split; [done|]. intros frs [Hw [= ->]]. by apply (Hno frs Hw).
  - right. split; [by eexists|]. by intros frs [_ ?].
Qed.

Lemma decode_paths_exact fs paths out :
  (exists frss, Forall2 (segment_holds fs) paths frss /\
     decode_paths base64 fs paths out = Some (Ok (out ++ concat (zip_with (fun p => decoded p 0) paths frss)))) \/
  (exists e, decode_paths base64 fs paths out = Some (Err e)) /\
  (forall frss, ~ Forall2 (segment_holds fs) paths frss).
Proof.
  revert out. induction paths as [|p paths IH]; intros out.
  { left. exists []. cbn. by rewrite app_nil_r. }
  cbn [decode_paths]. destruct (decode_one_exact fs p out) as [(frs & Hp & ->)|[[e ->] Hno]].
  - destruct (IH (out ++ decoded p 0 frs)) as [(frss & Hps & ->)|[He Hno]].
    + left. exists (frs :: frss). split; [by constructor|]. cbn. by rewrite app_assoc.
    + right. split; [done|]. intros frss Hf. inversion Hf; subst. by eapply Hno.
  - right. split; [by exists e|]. intros frss Hf. inversion Hf; subst. by eapply Hno.
Qed.


(** [dump] selects, from entries in id order, the first [limit] whose id is in the window. *)
Theorem dump_window args es :
  StronglySorted (fun a b => e_entry_id a <= e_entry_id b) es ->
  StronglySorted (fun a b => e_entry_id a <= e_entry_id b) (select_entries args es) /\
  (forall e, e ∈ select_entries args es ->
     e ∈ es /\ from_option (fun f => f <= e_entry_id e) True (d_from args) /\
     from_option (fun t => e_entry_id e <= t) True (d_to args)) /\
  (forall n, d_limit args = Some n -> (length (select_entries args es) <= n)%nat) /\
  (forall e e', e ∈ select_entries args es -> e' ∈ es ->
     within_range (e_entry_id e') (d_from args) (d_to args) = true -> e_entry_id e' < e_entry_id e ->
     e' ∈ select_entries args es).
Proof.
  intros Hs. unfold select_entries. set (kept := filter _ es).
  assert (Hk : StronglySorted (fun a b => e_entry_id a <= e_entry_id b) kept).
  { subst kept. induction Hs as [|x l Hs IH Hx]; [constructor|]. rewrite filter_cons. case_decide; [|done].
    constructor; [done|]. rewrite Forall_forall in *. intros y [_ Hy]%list_elem_of_filter. by apply Hx. }
  assert (Hin : forall e, e ∈ kept -> e ∈ es /\ from_option (fun f => f <= e_entry_id e) True (d_from args) /\
                  from_option (fun t => e_entry_id e <= t) True (d_to args)).
  { intros e [Hr He]%list_elem_of_filter. unfold within_range in Hr. apply andb_prop in Hr as [H1 H2].
    split; [done|]. destruct (d_from args), (d_to args); cbn; lia. }
  destruct (d_limit args) as [n|].
  - rewrite <- (take_drop n kept) in Hk. split_and!.
    + by apply StronglySorted_app_1_l in Hk.
    + intros e He. apply Hin. by eapply subseteq_take.
    + intros m [= <-]. rewrite length_take. lia.
    + intros e e' He He' Hr Hlt. assert (Hk' : e' ∈ kept) by by apply list_elem_of_filter.
      rewrite <- (take_drop n kept) in Hk'. apply elem_of_app in Hk' as [|Hd]; [done|].
      pose proof (StronglySorted_app_1_elem_of _ _ _ _ _ Hk He Hd). cbn in *. lia.
  - split_and!; [done|done|done|]. intros e e' _ He' Hr _. by apply list_elem_of_filter.
Qed.
End decode_proofs.

(** ** A file system *)

Definition demo_fs : Fs :=
  mkFs (fun p => String.eqb p "/wal")
       (fun _ => Ok [Ok "/wal/b.wal"; Ok "/wal/notes.txt"; Ok "/wal/a.wal"])
       (fun p => if String.eqb p "/wal/a.wal" then Ok (encode_frame (demo_frame 3) ++ encode_frame (demo_frame 1))
                 else if String.eqb p "/wal/b.wal" then Ok (encode_frame (demo_frame 2))
                 else if String.eqb p "torn.wal" then Ok (take 25 (encode_frame (demo_frame 2)))
                 else Err "No such file or directory (os error 2)")
       (fun _ => Err "No such file or directory (os error 2)").

Example demo_dump :
  match decode_segments (fun _ => "") demo_fs ["/wal"] with
  | Some (Ok es) => (fun e => (source_path e, offset e, e_entry_id e, durability e)) <$> es
  | _ => []
  end =
  [("/wal/a.wal", 27, 1, "fdatasync"); ("/wal/b.wal", 0, 2, "fdatasync"); ("/wal/a.wal", 0, 3, "fdatasync")].
Proof. by vm_compute. Qed.

(** The tail a crash leaves, which recovery skips, makes the command fail. *)
Example torn_dump_fails :
  decode_segments (fun _ => "") demo_fs ["torn.wal"] =
    Some (Err "read payload torn.wal failed at offset 0: failed to fill whole buffer") /\
  try_parse_frames (take 25 (encode_frame (demo_frame 2))) = [].
Proof. by vm_compute. Qed.

Example wal_paths :
  is_wal_file <$> ["x.wal"; "/a/x.wal"; "x.wal/"; ".wal"; "..wal"; "x.wal.old"; "a.wal/.."; "xwal"] =
  [true; true; true; false; true; false; false; false].
Proof. by vm_compute. Qed.

