(* ===== verification/AuditTrail.v ===== *)
(** * AuditTrail: the audit trail from the decision to the replay command

    The broker ([Mcp.v], [McpSetup.v]) over the file log ([WalLog.v]), read back by
    [riftgate-replay] ([Replay.v]): what [authorize] decided is what [dump] prints, after a
    crash at any time.  Also what a restart does to the order of the entries. *)

From Stdlib Require Import Ascii String.
From S2P Require Import Prelude Core Frame FileWal Capability Text WalLog Mcp Config McpSetup Replay.

#[local] Open Scope string_scope.
#[local] Open Scope list_scope.
#[local] Open Scope Z_scope.
#[local] Arguments String.append : simpl nomatch.

(** ** Paths of segments *)

Lemma split_at_app c a b : split_at c (a +:+ String c b) = split_at c a ++ split_at c b.
Proof.
  induction a as [|x a IH]; cbn.
  { by destruct (ascii_is_spec c c). }
  destruct (ascii_is_spec x c); [by rewrite IH|]. rewrite IH. destruct (split_at c a) as [|y ys] eqn:E; [|done].
  exfalso. clear -E. destruct a as [|b a]; cbn in E; [done|].
  destruct (ascii_is _ _); [done|]. by destruct (split_at c _).
Qed.

Lemma split_at_none c a : has_char c a = false -> split_at c a = [a].
Proof.
  induction a as [|x a IH]; cbn; [done|]. destruct (ascii_is x c); [done|]. cbn. intros H. by rewrite IH.
Qed.

Lemma ends_in_slash_inv s : ends_in_slash s = true -> exists r, s = r +:+ "/".
Proof.
  induction s as [|c s IH]; [done|]. destruct s as [|c' s].
  - cbn. destruct (ascii_is_spec c "/"); [|done]. subst. by exists "".
  - intros H. destruct (IH H) as [r Hr]. exists (String c r). cbn. by rewrite <- Hr.
Qed.

Lemma path_join_split root name :
  has_char "/" name = false -> exists pre, split_at "/" (path_join root name) = pre ++ [name].
Proof.
  intros Hn. unfold path_join. destruct (String.eqb_spec root "") as [->|Hr]; cbn [orb].
  { exists []. cbn. by apply split_at_none. }
  destruct (ends_in_slash root) eqn:E.
  - apply ends_in_slash_inv in E as [r ->]. exists (split_at "/" r). rewrite str_app_assoc. cbn.
    by rewrite split_at_app, (split_at_none _ name).
  - exists (split_at "/" root). change ("/" +:+ name) with (String "/" name).
    by rewrite split_at_app, (split_at_none _ name).
Qed.

(** A file name with a [.wal] extension is one in any directory. *)
Lemma join_is_wal root stem :
  has_char "/" stem = false -> has_char "." stem = false -> stem <> "" ->
  is_wal_file (path_join root (stem +:+ ".wal")) = true.
Proof.
  intros Hs Hd Hne. set (name := stem +:+ ".wal").
  assert (Hslash : has_char "/" name = false) by (unfold name; by rewrite has_char_app, Hs).
  assert (Hdots : split_at "." name = [stem; "wal"])
    by (unfold name; by rewrite split_at_app, (split_at_none _ stem)).
  assert (Hn : name <> "" /\ name <> "." /\ name <> "..") by (split_and!; intros He; by rewrite He in Hdots).
  destruct Hn as (Hn0 & Hn1 & Hn2).
  destruct (path_join_split root name Hslash) as [pre Hpre].
  assert (Hfile : file_name (path_join root name) = Some name).
  { unfold file_name, components. rewrite Hpre. cbv zeta. rewrite filter_app, fmap_app, filter_cons_True, filter_nil.
    2:{ apply String.eqb_neq in Hn0, Hn1. by rewrite Hn0, Hn1. }
    assert (Hcn : component_of <$> [name] = [Normal name])
      by (cbn; unfold component_of; by apply String.eqb_neq in Hn2; rewrite Hn2).
    rewrite Hcn.
    set (rest := _ ++ [Normal name]). assert (Hlast : last rest = Some (Normal name)) by apply last_snoc.
    assert (Hcons : forall c, last (c :: rest) = Some (Normal name)).
    { intros c. rewrite last_cons, Hlast. done. }
    clearbody rest. generalize (pre ++ [name]). intros parts.
    assert (Hl : last match parts with "" :: _ :: _ => RootDir :: rest | "." :: _ => CurDir :: rest | _ => rest end
                 = Some (Normal name)) by (repeat case_match; rewrite ?Hcons; done).
    by rewrite Hl. }
  unfold is_wal_file, extension. rewrite Hfile. cbn [mbind option_bind]. rewrite Hdots. cbn.
  apply String.eqb_neq in Hne. by rewrite Hne.
Qed.

Lemma segment_path_wal root i n : is_wal_file (path_join root (segment_name i n)) = true.
Proof.
  unfold segment_name. rewrite <- str_app_assoc. apply join_is_wal.
  - unfold segment_prefix. rewrite !has_char_app, !padded_no_char by done. done.
  - unfold segment_prefix. rewrite !has_char_app, !padded_no_char by done. done.
  - done.
Qed.

(** ** The directory after a crash *)

(** What the replay command finds: the directory lists the segment files, perhaps among
    others without the extension, and each file holds what the crash left of it. *)
Definition crashed (root : string) (w : FileWal) (fs : Fs) : Prop :=
  fs_is_dir fs root = true /\
  (exists entries, fs_read_dir fs root = Ok (Ok <$> entries) /\
     filter (fun p => is_wal_file p = true) entries ≡ₚ (segment_files root w).*1) /\
  forall p seg, (p, seg) ∈ segment_files root w -> exists img, fs_open fs p = Ok img /\ crash_image seg img.

Lemma perm_of_eq {A} (l k : list A) : l = k -> l ≡ₚ k.
Proof. by intros ->. Qed.

(** The segments of a shard as a list. *)
Lemma files_list (m : gmap Z Segment) (segs : list (list ParsedFrame)) :
  (forall n, m !! n = whole <$> zlookup segs n) ->
  map_to_list m ≡ₚ imap (fun k frs => (Z.of_nat k, whole frs)) segs.
Proof.
  revert m. induction segs as [|x segs IH] using rev_ind; intros m Hm.
  - replace m with (∅ : gmap Z Segment); [done|]. apply map_eq. intros n. rewrite Hm, lookup_empty.
    unfold zlookup. by case_decide.
  - rewrite <- (map_to_list_delete m (Z.of_nat (length segs)) (whole x)).
    2:{ rewrite Hm, zlookup_snoc, decide_True by done. done. }
    rewrite (IH (delete (Z.of_nat (length segs)) m)).
    + rewrite imap_app. cbn. rewrite Nat.add_0_r. apply Permutation_cons_append.
    + intros n. destruct (decide (n = Z.of_nat (length segs))) as [->|Hne].
      * by rewrite lookup_delete_eq, zlookup_beyond.
      * by rewrite lookup_delete_ne, Hm, zlookup_snoc, decide_False.
Qed.

Definition shown (pf : string * list ParsedFrame) : string * Segment := (fst pf, whole (snd pf)).

Lemma shard_files_shown root i sh pre cur :
  shard_holds sh pre cur ->
  exists l, shard_files root i sh ≡ₚ shown <$> l /\ concat (l.*2) = concat (pre ++ [cur]) /\ l <> [].
Proof.
  intros Hh. exists (imap (fun k frs => (path_join root (segment_name (Z.of_nat i) (Z.of_nat k)), frs)) (pre ++ [cur])).
  split; [|split].
  - unfold shard_files. rewrite (files_list _ _ (sh_files _ _ _ Hh)), !fmap_imap. done.
  - rewrite fmap_imap. f_equal. transitivity (imap (const id) (pre ++ [cur])); [done|].
    by rewrite imap_const, list_fmap_id.
  - by destruct pre.
Qed.

(** All shards, from the index [off] on. *)
Lemma shards_shown root (F : nat -> list ParsedFrame) shs off :
  (forall i sh, shs !! i = Some sh ->
     exists l, shard_files root (off + i) sh ≡ₚ shown <$> l /\ concat (l.*2) = F (off + i)%nat /\ l <> []) ->
  exists l, concat (imap (fun i => shard_files root (off + i)) shs) ≡ₚ shown <$> l /\
    concat (l.*2) = concat (F <$> seq off (length shs)) /\ (shs <> [] -> l <> []).
Proof.
  revert off. induction shs as [|sh shs IH]; intros off Hall; [by exists []|].
  destruct (Hall 0%nat sh eq_refl) as (l0 & Hp0 & Hc0 & Hne). rewrite Nat.add_0_r in *.
  destruct (IH (S off)) as (l & Hp & Hc & _).
  { intros i sh' Hi. destruct (Hall (S i) sh' Hi) as (l & ? & ? & ?). exists l. rewrite Nat.add_succ_r in *. done. }
  exists (l0 ++ l). rewrite !fmap_app, concat_app, Hc0, Hc. split; [|split; [done|]].
  - cbn [imap concat]. rewrite Nat.add_0_r, Hp0. f_equiv. rewrite <- Hp.
    apply perm_of_eq. f_equal. apply imap_ext. intros i x _. cbn. by rewrite Nat.add_succ_r.
  - intros _. by destruct l0.
Qed.

(** The entries of the shards together are the entries. *)
Lemma concat_add {A} (F G : nat -> list A) x i0 l :
  NoDup l -> i0 ∈ l -> (forall i, G i = if decide (i = i0) then x :: F i else F i) ->
  concat (G <$> l) ≡ₚ x :: concat (F <$> l).
Proof.
  intros Hnd Hin HG. induction Hnd as [|i l Hi Hnd IH]; [by apply elem_of_nil in Hin|]. cbn.
  rewrite HG. destruct (decide (i = i0)) as [->|Hne].
  - cbn. constructor. f_equiv. apply perm_of_eq.
    f_equal. apply list_fmap_ext. intros k j Hj%list_elem_of_lookup_2.
    rewrite HG, decide_False; [done|]. by intros ->.
  - apply elem_of_cons in Hin as [|Hin]; [done|]. rewrite IH by done. by rewrite Permutation_middle.
Qed.

Lemma shards_partition n frs :
  0 < n -> concat ((fun i => of_shard n i frs) <$> seq 0 (Z.to_nat n)) ≡ₚ frs.
Proof.
  intros Hn. induction frs as [|fr frs IH].
  - apply Permutation_nil_r. by induction (seq 0 (Z.to_nat n)).
  - rewrite (concat_add (fun i => of_shard n i frs) _ fr (Z.to_nat (shard_for n (entry_id fr)))); [by rewrite IH|..].
    + apply NoDup_seq.
    + apply elem_of_seq. pose proof (shard_for_range n (entry_id fr) Hn). lia.
    + intros i. unfold of_shard at 1. rewrite filter_cons. pose proof (shard_for_range n (entry_id fr) Hn).
      repeat case_decide; try done; lia.
Qed.

(** The files of the log, each with its frames. *)
Lemma segment_files_shown root w frs :
  wal_holds w frs ->
  exists l, segment_files root w ≡ₚ shown <$> l /\ concat (l.*2) ≡ₚ frs /\ l <> [].
Proof.
  intros Hw. pose proof (wh_count _ _ Hw) as Hcount. pose proof (wh_pos _ _ Hw) as Hpos.
  destruct (shards_shown root (fun i => of_shard (shards (wcfg w)) i frs) (wshards w) 0) as (l & Hp & Hc & Hne).
  - intros i sh Hi. destruct (wh_shards _ _ Hw i sh Hi) as (pre & cur & Hh & Hcat & _). cbn. rewrite <- Hcat.
    by apply shard_files_shown.
  - exists l. split_and!; [done| |].
    + rewrite Hc. replace (length (wshards w)) with (Z.to_nat (shards (wcfg w))) by lia. by apply shards_partition.
    + apply Hne. intros E. rewrite E in Hcount. cbn in *. lia.
Qed.

(** ** Reading it back *)

Section readback.
Context (base64 : list byte -> string).

(** What an entry says, apart from where it was found. *)
Definition entry_view (e : DecodedEntry) : Z * Z * string * Z * Z * string :=
  (e_entry_id e, e_timestamp_nanos e, durability e, e_entry_kind e, payload_len e, payload_base64 e).

Definition frame_view (fr : ParsedFrame) : Z * Z * string * Z * Z * string :=
  (entry_id fr, timestamp_nanos fr, decode_durability (durability_tag fr), entry_kind fr,
   Z.of_nat (length (payload fr)), base64 (payload fr)).

Definition view_id (v : Z * Z * string * Z * Z * string) : Z := v.1.1.1.1.1.

Lemma decoded_view path off frs : entry_view <$> decoded base64 path off frs = frame_view <$> frs.
Proof. revert off. induction frs as [|fr frs IH]; intros off; [done|]. cbn. f_equal. apply IH. Qed.

Lemma encode_frames_inj frs frs' :
  Forall frame_wide frs -> Forall frame_wide frs' -> encode_frames frs = encode_frames frs' -> frs = frs'.
Proof.
  intros Hw. revert frs'. induction Hw as [|fr frs Hfr Hw IH]; intros [|fr' frs'] Hw' Heq; [done..|].
  apply Forall_cons in Hw' as [Hfr' Hw']. cbn [fmap list_fmap concat] in Heq.
  apply encode_frame_inj in Heq as [-> Heq]; [|done..]. f_equal. by apply IH.
Qed.

(** Paths that hold the frames decode to them. *)
Lemma decode_paths_holds fs l :
  Forall (fun pf => segment_holds fs (fst pf) (snd pf)) l ->
  decode_paths base64 fs (l.*1) [] = Some (Ok (concat ((fun pf => decoded base64 (fst pf) 0 (snd pf)) <$> l))).
Proof.
  intros Hl. destruct (decode_paths_exact base64 fs (l.*1) []) as [(frss & Hf & ->)|[_ Hno]].
  - cbn. do 3 f_equal. revert frss Hf.
    induction Hl as [|[p frs] l [Hw Ho] Hl IH]; intros frss Hf; inversion Hf as [|? frs' ? frss' [Hw' Ho'] Hf']; subst; [done|].
    cbn in *. rewrite IH by done. do 2 f_equal. apply encode_frames_inj; [done..|]. congruence.
  - destruct (Hno (l.*2)). induction Hl as [|[p frs] l Hh Hl IH]; cbn; constructor; [done|apply IH].
    intros frss Hf. eapply (Hno (frs :: frss)). by constructor.
Qed.

Lemma scan_entries_ok entries out :
  scan_entries (Ok <$> entries) out = Ok (out ++ filter (fun p => is_wal_file p = true) entries).
Proof.
  revert out. induction entries as [|p entries IH]; intros out; cbn [fmap list_fmap scan_entries].
  { by rewrite app_nil_r. }
  rewrite IH, filter_cons. destruct (is_wal_file p); cbn; [by rewrite <- app_assoc|done].
Qed.

Lemma concat_fmap_perm {A B} (f : A -> list B) l l' : l ≡ₚ l' -> concat (f <$> l) ≡ₚ concat (f <$> l').
Proof.
  induction 1; cbn; [done|by f_equiv|by rewrite !app_assoc, (Permutation_app_comm (f y))|by etrans].
Qed.

Lemma frames_sorted m frs :
  ids frs = seqZ m (Z.of_nat (length frs)) ->
  StronglySorted (fun a b => view_id a < view_id b) (frame_view <$> frs) /\
  Forall (fun fr => m <= entry_id fr) frs.
Proof.
  revert m. induction frs as [|fr frs IH]; intros m Hids; [by repeat constructor|].
  unfold ids in *. cbn [fmap list_fmap length] in Hids. rewrite seqZ_cons in Hids by lia. injection Hids as Hid Hids.
  replace (Z.pred (Z.of_nat (S (length frs)))) with (Z.of_nat (length frs)) in Hids by lia.
  destruct (IH _ Hids) as [Hs Hall]. split; constructor.
  - done.
  - apply Forall_fmap. eapply Forall_impl; [done|]. cbn. lia.
  - lia.
  - eapply Forall_impl; [done|]. cbn. lia.
Qed.

(** Views in strictly increasing order of ids are determined by their elements. *)
Lemma sorted_views_unique l l' :
  StronglySorted (fun a b => view_id a <= view_id b) l -> StronglySorted (fun a b => view_id a < view_id b) l' ->
  l ≡ₚ l' -> l = l'.
Proof.
  intros Hl Hl' Hp. apply (StronglySorted_unique_strong (fun a b => view_id a <= view_id b)); [|done| |done].
  - intros v v' Hv Hv' H1 H2. rewrite Hp in Hv. apply list_elem_of_lookup in Hv as [a Ha], Hv' as [b Hb].
    clear Hl Hp. revert a b Ha Hb. induction Hl' as [|x k Hk IH Hx]; intros [|a] [|b] Ha Hb; cbn in *; simplify_eq; try done.
    + pose proof (proj1 (Forall_lookup _ _) Hx _ _ Hb). cbn in *. lia.
    + pose proof (proj1 (Forall_lookup _ _) Hx _ _ Ha). cbn in *. lia.
    + by eapply IH.
  - clear -Hl'. induction Hl' as [|x k Hk IH Hx]; constructor; [done|]. eapply Forall_impl; [done|]. cbn. lia.
Qed.

(** What the crash left of the files still holds the frames. *)
Lemma crashed_holds fs root w frs l l' :
  wal_holds w frs -> crashed root w fs -> segment_files root w ≡ₚ shown <$> l -> concat (l.*2) ≡ₚ frs ->
  l ≡ₚ l' -> Forall (fun pf => segment_holds fs (fst pf) (snd pf)) l'.
Proof.
  intros Hw (_ & _ & Hopen) Hp Hcat Hl'. apply Forall_forall. intros [p fs0] Hin. rewrite <- Hl' in Hin. split.
  - apply Forall_forall. intros fr Hfr. apply (proj1 (Forall_forall _ _) (wh_wide _ _ Hw)). rewrite <- Hcat.
    apply list_elem_of_In, in_concat. exists fs0. rewrite <- !list_elem_of_In. split; [|done].
    by apply (list_elem_of_fmap_2 snd) in Hin.
  - destruct (Hopen p (whole fs0)) as (img & Hf & k & Hk & ->).
    + rewrite Hp. by apply (list_elem_of_fmap_2 shown) in Hin.
    + cbn in *. by rewrite Hf, take_ge.
Qed.

(** The replay command shows the log, entry by entry in the order of the appends. *)
Lemma crashed_log_decodes fs root w frs :
  wal_holds w frs -> crashed root w fs ->
  exists out, decode_segments base64 fs [root] = Some (Ok out) /\ entry_view <$> out = frame_view <$> frs.
Proof.
  intros Hw Hcr. destruct (segment_files_shown root w frs Hw) as (l & Hp & Hcat & Hne).
  pose proof Hcr as (Hdir & (entries & Hread & Hlist) & _).
  unfold decode_segments, collect_segment_paths. cbn [collect_loop]. rewrite Hdir, Hread, scan_entries_ok.
  set (paths := sort_by path_le _).
  assert (Hpaths : paths ≡ₚ l.*1).
  { unfold paths. rewrite sort_by_perm, app_nil_l, Hlist, Hp. by rewrite <- list_fmap_compose. }
  destruct (Permutation_map_inv fst l Hpaths) as (l' & Heq & Hl').
  destruct paths as [|p0 ps] eqn:Ep.
  { destruct l; [done|]. by apply Permutation_nil_l in Hpaths. }
  rewrite Heq. change (map fst l') with (l'.*1).
  rewrite decode_paths_holds by by eapply crashed_holds.
  eexists. split; [done|]. set (dec := concat _).
  assert (Hdec : entry_view <$> dec ≡ₚ frame_view <$> frs).
  { rewrite <- Hcat. unfold dec. rewrite (concat_fmap_perm _ l' l) by done. clear.
    induction l as [|[p fs0] l IH]; [done|]. cbn. by rewrite !fmap_app, decoded_view, IH. }
  apply sorted_views_unique.
  - apply (StronglySorted_fmap entry_view (fun a b => e_entry_id a <= e_entry_id b)); [done|].
    by apply (sort_by_sorted id_le e_entry_id).
  - by apply (frames_sorted 1), (wh_ids w).
  - by rewrite sort_by_perm.
Qed.
End readback.

(** ** From the decision to the replay *)

(** Calls to a broker, one after the other. *)
Fixpoint broker_run {B : Type} `{CapabilityBroker B} (calls : list (Z * McpRequest * TenantIdentity)) (b : B) :
    list CapabilityDecision * B :=
  match calls with
  | [] => ([], b)
  | (now, request, identity) :: calls =>
      let '(d, b) := authorize now request identity b in
      let '(ds, b) := broker_run calls b in (d :: ds, b)
  end.

Section end_to_end.
Context (hmac : list byte -> list byte -> list byte) (to_vec : AuditRecord -> option (list byte)).
Context (encode : AuditRecord -> list byte) (Hencode : forall r, to_vec r = Some (encode r)).
Context (clock : Z -> Z) (io : Z -> nat -> bool) (Hio : forall id k, io id k = true).
Context (base64 : list byte -> string).

#[local] Instance audit_wal : WAL AuditWal := AuditWal_wal clock io.
#[local] Instance gateway_broker : CapabilityBroker McpBroker := McpBroker_broker hmac to_vec clock io.
#[local] Instance file_broker : CapabilityBroker (AllowlistBroker AuditWal) := AllowlistBroker_broker hmac to_vec.

(** The frame of a record: one line of JSON, appended with [Fsync]. *)
Definition audit_line (r : AuditRecord) : list byte := encode r ++ [byte_of_Z 10].

Definition audit_frame (id : Z) (r : AuditRecord) : ParsedFrame :=
  mkFrame id (wrap 64 (clock id)) (tag_of Fsync) ENTRY_KIND_DEFAULT (audit_line r).

Definition fits (r : AuditRecord) : Prop := Z.of_nat (length (audit_line r)) <= U32_MAX.

Lemma emit_audit_holds request identity d now b w frs :
  wal b = OnFile w -> wal_holds w frs -> Z.of_nat (length frs) + 2 < 2 ^ 64 ->
  let r := record_of (audit_event request identity d now (counter b)) in fits r ->
  exists w', emit_audit to_vec request identity d now b =
      mkBroker (Mcp.tenants b) (signing_key b) (OnFile w') (wrapping_add 64 (counter b) 1) /\
    wal_holds w' (frs ++ [audit_frame (Z.of_nat (length frs) + 1) r]).
Proof.
  intros Hb Hw Hlen r Hfits. unfold emit_audit, RequestId_next, audit_write. fold r. rewrite Hencode, Hb.
  change (as_bytes (String "010" "")) with [byte_of_Z 10].
  destruct (sync_append_holds w frs (io (wnext w)) (clock (wnext w)) (encode r ++ [byte_of_Z 10]) Fsync)
    as (w' & Ha & _ & Hw'); [done|done|done|done|done|].
  cbn [append audit_wal AuditWal_wal FileWal_wal]. rewrite Ha. exists w'. split; [done|].
  by rewrite (wh_next _ _ Hw) in Hw'.
Qed.

(** The log after a run: the frames of the trail, appended in order. *)
Lemma authorize_all_holds calls b w frs ds b' :
  wal b = OnFile w -> wal_holds w frs -> authorize_all hmac to_vec calls b = (ds, b') ->
  Z.of_nat (length frs) + Z.of_nat (length calls) + 1 < 2 ^ 64 -> Forall fits (audit_trail (counter b) calls ds) ->
  exists w', wal b' = OnFile w' /\
    wal_holds w' (frs ++ imap (fun k => audit_frame (Z.of_nat (length frs + k) + 1)) (audit_trail (counter b) calls ds)).
Proof.
  revert b w frs ds. induction calls as [|[[now request] identity] calls IH]; intros b w frs ds Hb Hw Hrun Hlen Hfits.
  { injection Hrun as <- <-. exists w. cbn. by rewrite app_nil_r. }
  cbn [authorize_all] in Hrun. pose proof (authorize_emits hmac to_vec now request identity b) as He.
  destruct (allowlist_authorize hmac to_vec now request identity b) as [d b1]. cbn [fst snd] in He.
  destruct (authorize_all hmac to_vec calls b1) as [ds1 b2] eqn:Erun. injection Hrun as <- <-.
  cbn [audit_trail length] in *. apply Forall_cons in Hfits as [Hfit Hfits].
  destruct (emit_audit_holds request identity (decision_of d) now b w frs Hb Hw) as (w1 & Heq & Hw1); [lia|done|].
  rewrite Heq in He. subst b1. cbn [counter] in *.
  edestruct IH as (w' & Hb' & Hw'); [|exact Hw1|exact Erun|rewrite length_app; cbn; lia|exact Hfits|]; [done|].
  exists w'. split; [done|]. cbn [imap counter] in *. rewrite Nat.add_0_r, <- app_assoc in *. cbn [app] in Hw'.
  replace (imap _ (audit_trail (wrapping_add 64 (counter b) 1) calls ds1)) with
    (imap (fun k => audit_frame (Z.of_nat (length (frs ++ [audit_frame (Z.of_nat (length frs) + 1)
       (record_of (audit_event request identity (decision_of d) now (counter b)))]) + k) + 1))
       (audit_trail (wrapping_add 64 (counter b) 1) calls ds1)); [done|].
  apply imap_ext. intros k x _. cbn. f_equal. rewrite length_app. cbn. lia.
Qed.

Lemma authorize_all_length calls b ds b' :
  authorize_all hmac to_vec calls b = (ds, b') -> length ds = length calls.
Proof.
  revert b ds. induction calls as [|[[now request] identity] calls IH]; intros b ds Hr; cbn [authorize_all] in Hr.
  { by injection Hr as <- <-. }
  destruct (allowlist_authorize hmac to_vec now request identity b) as [d b1].
  destruct (authorize_all hmac to_vec calls b1) as [ds1 b2] eqn:E. injection Hr as <- <-. cbn. f_equal. by eapply IH.
Qed.

(** Behind the gateway's broker the allowlist broker sees the same calls, enforcing or not. *)
Lemma broker_run_inner calls b :
  let '(ds, b') := authorize_all hmac to_vec calls (broker_of b) in
  broker_of (snd (broker_run calls b)) = b' /\
  match b with
  | Enforcing _ => fst (broker_run calls b) = ds
  | DryRun _ => Forall (fun d => exists a, d = Allow a) (fst (broker_run calls b))
  end.
Proof.
  revert b. induction calls as [|[[now request] identity] calls IH]; intros b; cbn [authorize_all broker_run].
  { by destruct b. }
  destruct b as [b|[b]].
  - cbn [broker_of authorize gateway_broker McpBroker_broker AllowlistBroker_broker map_snd].
    destruct (allowlist_authorize hmac to_vec now request identity b) as [d b1]. cbn [map_snd fst snd].
    specialize (IH (Enforcing b1)). cbn [broker_of] in IH. destruct (authorize_all hmac to_vec calls b1) as [ds b'].
    destruct (broker_run calls (Enforcing b1)) as [rs b'']. cbn [fst snd] in *. destruct IH as [-> ->]. done.
  - cbn [broker_of dry_inner authorize gateway_broker McpBroker_broker DryRunBroker_broker map_snd].
    pose proof (dry_run_allows (H := AllowlistBroker_broker hmac to_vec) now request identity (mkDryRun b)) as [Ha Hi].
    cbn [authorize AllowlistBroker_broker dry_inner] in Hi.
    destruct (dryrun_authorize now request identity (mkDryRun b)) as [r [b1]]. cbn [fst snd dry_inner map_snd] in *.
    destruct (allowlist_authorize hmac to_vec now request identity b) as [d b1']. cbn [snd] in Hi. subst b1'.
    specialize (IH (DryRun (mkDryRun b1))). cbn [broker_of dry_inner] in IH.
    destruct (authorize_all hmac to_vec calls b1) as [ds b'].
    destruct (broker_run calls (DryRun (mkDryRun b1))) as [rs b'']. cbn [fst snd length] in *.
    destruct IH as (-> & Hall). split; [done|by constructor].
Qed.

Definition audited (k : nat) (r : AuditRecord) : Z * Z * string * Z * Z * string :=
  (Z.of_nat k + 1, wrap 64 (clock (Z.of_nat k + 1)), "fsync", ENTRY_KIND_DEFAULT,
   Z.of_nat (length (audit_line r)), base64 (audit_line r)).

Definition log_of (b : McpBroker) : option FileWal :=
  match wal (broker_of b) with OnFile w => Some w | OnNothing _ => None end.

(** The audit trail survives a crash.  A gateway whose configuration names a fresh directory
    for the log answers any calls, enforcing or in dry run; then it crashes, and the replay
    command is pointed at the directory.  It prints one entry per call, in the order of the
    calls, numbered from 1 and marked [fsync], each with the record of that call: tenant,
    subject, arguments, the broker's own decision and a fresh correlation id.  Nothing is
    missing, duplicated or out of order, whatever the number of segments. *)
Lemma audit_trail_survives_crash random_key open_io disk mcp n b root calls fs :
  build_mcp_broker random_key open_io disk mcp n = Some (Some b) ->
  wal_path mcp = Some root -> disk root = ∅ -> (forall k, open_io k = true) ->
  Z.of_nat (length calls) + 1 < 2 ^ 64 ->
  let '(rs, b') := broker_run calls b in
  let ds := fst (authorize_all hmac to_vec calls (broker_of b)) in
  (enforce mcp = true -> rs = ds) /\ length ds = length calls /\
  (Forall fits (audit_trail n calls ds) ->
   exists w, log_of b' = Some w /\
     (crashed root w fs ->
      exists out, decode_segments base64 fs [root] = Some (Ok out) /\
        entry_view <$> out = imap audited (audit_trail n calls ds))).
Proof.
  intros Hb Hpath Hdisk Hopen Hlen.
  assert (Hnew : broker_new (tenant_configs (tenants mcp)) (key_of random_key mcp)
                   (choose_wal open_io disk (wal_path mcp)) n = Some (broker_of b) /\
                 exists x, b = if enforce mcp then Enforcing x else DryRun (mkDryRun x)).
  { revert Hb. unfold build_mcp_broker. destruct (tenants mcp) as [|e es]; [done|]. fold (key_of random_key mcp).
    destruct (broker_new _ _ _ _) as [inner|]; [|done]. cbn. intros [= <-]. split; [by destruct (enforce mcp)|by exists inner]. }
  destruct Hnew as [Hnew [x Hx]].
  destruct (file_open_holds open_io audit_wal_config Hopen) as (w0 & Hw0 & Hholds & _); [done|].
  assert (Hwal : wal (broker_of b) = OnFile w0 /\ counter (broker_of b) = n).
  { unfold choose_wal in Hnew. rewrite Hpath, Hdisk, Hw0 in Hnew. unfold broker_new in Hnew.
    case_bool_decide; [|done]. by injection Hnew as <-. }
  destruct Hwal as [Hwal Hn]. pose proof (broker_run_inner calls b) as Hin.
  destruct (authorize_all hmac to_vec calls (broker_of b)) as [ds b1] eqn:Eall.
  destruct (broker_run calls b) as [rs b']. cbn [fst snd] in *. destruct Hin as [Hb1 Hrs]. split; [|split].
  { intros He. rewrite He in Hx. by subst b. }
  { by eapply authorize_all_length. }
  intros Hfits. rewrite <- Hn in Hfits.
  destruct (authorize_all_holds calls _ w0 [] ds b1 Hwal Hholds Eall) as (w & Hb' & Hw); [cbn; lia|done|].
  exists w. split; [unfold log_of; by rewrite Hb1, Hb'|]. intros Hcr.
  destruct (crashed_log_decodes base64 fs root w _ Hw Hcr) as (out & Hdec & Hview).
  exists out. split; [done|]. rewrite Hview, app_nil_l, fmap_imap, Hn. by apply imap_ext.
Qed.
End end_to_end.

(** ** Concrete runs *)

(** The directory as it is: every file whole. *)
Definition crash_fs (root : string) (w : FileWal) : Fs :=
  mkFs (fun p => String.eqb p root)
       (fun _ => Ok (Ok <$> ((segment_files root w).*1 ++ [path_join root "notes.txt"])))
       (fun p => match List.find (fun f => String.eqb p (fst f)) (segment_files root w) with
                 | Some (_, seg) => Ok (os seg)
                 | None => Err "No such file or directory (os error 2)"
                 end)
       (fun _ => Err "No such file or directory (os error 2)").

Definition demo_mcp : McpConfig := mkMcp true [("acme", acme)] None (Some "/wal").
Definition acme_agent : TenantIdentity := mkIdentity (tenant_id_from_str "acme") "acme".
Definition demo_calls : list (Z * McpRequest * TenantIdentity) :=
  [(0, email, acme_agent); (1, ToolCall "filesystem-write" [], acme_agent); (2, ToolList, agent)].
Definition demo_setup : option (option McpBroker) :=
  build_mcp_broker [] io_ok (fun _ => ∅) demo_mcp 1.

(** A process that appends the entries, one after the other, with [Fsync]. *)
Fixpoint append_lines (lines : list (list byte)) (w : FileWal) : option FileWal :=
  match lines with
  | [] => Some w
  | l :: lines => '(_, w) ← file_append io_ok 0 l Fsync w; append_lines lines w
  end.

Definition session (lines : list (list byte)) (disk : Disk) : option FileWal :=
  match file_open io_ok audit_wal_config disk with Some (Ok w) => append_lines lines w | _ => None end.

Definition disk_of (w : FileWal) : Disk :=
  list_to_map (imap (fun i sh => (Z.of_nat i, files sh)) (wshards w)).

(** [open] counts entry ids from 1 again.  After a restart on the same directory the log has
    two entries with the id 1, and the replay command, which sorts by id, prints an entry of
    the second run before one of the first. *)
Theorem restart_repeats_ids :
  exists w1 w2 out, session [bstr "a"; bstr "b"] ∅ = Some w1 /\ session [bstr "c"] (disk_of w1) = Some w2 /\
    decode_segments string_of_list_byte (crash_fs "/wal" w2) ["/wal"] = Some (Ok out) /\
    (fun e => (e_entry_id e, payload_base64 e)) <$> out = [(1, "a"); (1, "c"); (2, "b")].
Proof. do 3 eexists. split; [by vm_compute|]. split; [by vm_compute|]. split; by vm_compute. Qed.

(** A configured log that cannot be opened is replaced by one that drops everything. *)
Theorem unopened_log_drops_audit disk path io k :
  (k < 3)%nat -> io k = false -> choose_wal io disk (Some path) = OnNothing mkNoopWal.
Proof.
  intros Hk Hio. unfold choose_wal, file_open. change (seq 0 (Z.to_nat (shards audit_wal_config))) with [0%nat].
  cbn [open_shards]. change (1 + 2 * 0)%nat with 1%nat. change (2 + 2 * 0)%nat with 2%nat.
  destruct k as [|[|[|k]]]; [..|lia]; rewrite Hio, ?andb_false_r; [done|..]; by destruct (io 0%nat).
Qed.
