(* ===== verification/AuditRace.v ===== *)
(** * AuditRace: concurrent MCP calls and their audit records

    Any number of handlers call [AllowlistBroker::authorize] ([riftgate-mcp/src/allowlist.rs])
    at once.  A call reads the clock and rules on the configuration, which nothing changes;
    takes a correlation id ([RequestId::next]); and appends its record with [Fsync] to the
    shared log, the machine of [FileWal].  The steps of the calls, of the flusher and of the
    kernel interleave in any order. *)

From Stdlib Require Import Ascii String.
From S2P Require Import Prelude Core Frame FileWal Capability Text Mcp Config McpSetup WalLive AuditTrail.

#[local] Open Scope string_scope.
#[local] Open Scope list_scope.
#[local] Open Scope Z_scope.

Section race.
Context (hmac : list byte -> list byte -> list byte) (to_vec : AuditRecord -> option (list byte)).
Context (tenants : gmap Z CompiledAllowlist) (key : list byte).

(** What [authorize] answers: [allowlist_authorize] without its audit. *)
Definition ruling (now : Z) (request : McpRequest) (identity : TenantIdentity) : CapabilityDecision :=
  match tenants !! tenant identity with
  | None => Deny TenantUnknown
  | Some allowlist =>
      match evaluate allowlist request now with
      | Some reason => Deny reason
      | None => Allow (sign hmac (tenant identity) (request_subject request) key)
      end
  end.

Lemma ruling_authorize {W} `{WAL W} (b : AllowlistBroker W) now request identity :
  Mcp.tenants b = tenants -> signing_key b = key ->
  fst (allowlist_authorize hmac to_vec now request identity b) = ruling now request identity.
Proof.
  intros Ht Hk. unfold allowlist_authorize, ruling. rewrite Ht, Hk. destruct (tenants !! _); [|done].
  by destruct (evaluate _ _ _).
Qed.

(** ** The calls *)

(** The phases of a call; [slot] is its append in the log, [None] where the record could not
    be serialised. *)
Inductive caller :=
| Calling (request : McpRequest) (identity : TenantIdentity)
| Ruled (now : Z) (request : McpRequest) (identity : TenantIdentity) (d : CapabilityDecision)
| Auditing (corr now : Z) (request : McpRequest) (identity : TenantIdentity) (d : CapabilityDecision) (slot : nat)
| Answered (corr now : Z) (request : McpRequest) (identity : TenantIdentity) (d : CapabilityDecision)
    (slot : option nat).

(** [next_id] is the counter of [RequestId::next], [issued] the ids of the audited calls. *)
Record race := mkRace {
  next_id : Z;
  issued : list Z;
  callers : list caller;
  wlog : FileWal.wal;
}.

Inductive race_act :=
| OtherId
| Rule (i : nat) (now : Z)
| Emit (i : nat) (clock : Z)
| LogStep (a : action)
| Answer (i : nat).

Definition set_caller (i : nat) (c : caller) (s : race) : race :=
  mkRace (next_id s) (issued s) (<[i := c]> (callers s)) (wlog s).

(** A call of [append] that has not begun. *)
Definition enroll (a : appender) (w : FileWal.wal) : FileWal.wal :=
  FileWal.mkWal (next_entry_id w) (shard w) (appenders w ++ [a]) (fl w) (FileWal.log w).

(** [emit_audit] up to the append: the correlation id, the event, its bytes. *)
Definition exec_emit (i : nat) (clock : Z) (s : race) : option race :=
  match callers s !! i with
  | Some (Ruled now request identity d) =>
      let '(corr, next) := RequestId_next (next_id s) in
      Some match to_vec (record_of (audit_event request identity (decision_of d) now corr)) with
           | None =>
               mkRace next (issued s ++ [corr])
                 (<[i := Answered corr now request identity d None]> (callers s)) (wlog s)
           | Some bytes =>
               mkRace next (issued s ++ [corr])
                 (<[i := Auditing corr now request identity d (length (appenders (wlog s)))]> (callers s))
                 (enroll (AppStart Fsync clock (bytes ++ as_bytes (String "010" ""))) (wlog s))
           end
  | _ => None
  end.

Definition race_exec (a : race_act) (s : race) : option race :=
  match a with
  | OtherId => Some (mkRace (snd (RequestId_next (next_id s))) (issued s) (callers s) (wlog s))
  | Rule i now =>
      match callers s !! i with
      | Some (Calling request identity) =>
          Some (set_caller i (Ruled now request identity (ruling now request identity)) s)
      | _ => None
      end
  | Emit i clock => exec_emit i clock s
  | LogStep a =>
      w ← FileWal.exec audit_wal_config 0 a (wlog s);
      Some (mkRace (next_id s) (issued s) (callers s) w)
  | Answer i =>
      match callers s !! i with
      | Some (Auditing corr now request identity d slot) =>
          match appenders (wlog s) !! slot with
          | Some (AppAcked _) | Some (AppFailed _) =>
              Some (set_caller i (Answered corr now request identity d (Some slot)) s)
          | _ => None
          end
      | _ => None
      end
  end.

Definition quiet (a : race_act) : Prop := match a with LogStep a => no_fault a | _ => True end.
Definition race_step (s s' : race) : Prop := exists a, quiet a /\ race_exec a s = Some s'.

Lemma quiet_run acts s s' :
  Forall quiet acts -> exec_run race_exec acts s = Some s' -> rtc race_step s s'.
Proof.
  intros Hq. revert s. induction Hq as [|a acts Ha _ IH]; intros s Hr; cbn in Hr; [by injection Hr as <-|].
  destruct (race_exec a s) as [s1|] eqn:E; [|done]. eapply rtc_l; [by exists a|by apply IH].
Qed.

Definition calls_start (n : Z) (calls : list (McpRequest * TenantIdentity)) : race :=
  mkRace n [] ((fun c => Calling c.1 c.2) <$> calls) (FileWal.start []).
End race.

(** ** The invariant *)

Section invariant.
Context (hmac : list byte -> list byte -> list byte) (to_vec : AuditRecord -> option (list byte)).
Context (tenants : gmap Z CompiledAllowlist) (key : list byte).
Context (encode : AuditRecord -> list byte) (Hencode : forall r, to_vec r = Some (encode r)).

Abbreviation ruled := (ruling hmac tenants key).
Abbreviation step := (race_step hmac to_vec tenants key).

(** The bytes of a call's record. *)
Definition call_line (corr now : Z) (request : McpRequest) (identity : TenantIdentity) (d : CapabilityDecision) :
    list byte :=
  audit_line encode (record_of (audit_event request identity (decision_of d) now corr)).

(** The append carries [bs]; it fails only where the log is shut down. *)
Definition carries (down : bool) (bs : list byte) (a : appender) : Prop :=
  match a with
  | AppStart d _ bs' => d = Fsync /\ bs' = bs
  | AppHasId d fr => d = Fsync /\ payload fr = bs
  | AppWaiting fr _ | AppAcked fr => payload fr = bs
  | AppBuffered _ => False
  | AppFailed _ => down = true
  end.

Definition finished (a : appender) : Prop :=
  match a with AppAcked _ | AppFailed _ => True | _ => False end.

Definition caller_ok (w : FileWal.wal) (c : caller) : Prop :=
  match c with
  | Calling _ _ => True
  | Ruled now request identity d => d = ruled now request identity
  | Auditing corr now request identity d slot =>
      d = ruled now request identity /\
      exists a, appenders w !! slot = Some a /\ carries (shutdown (shard w)) (call_line corr now request identity d) a
  | Answered corr now request identity d (Some slot) =>
      d = ruled now request identity /\
      exists a, appenders w !! slot = Some a /\ finished a /\
        carries (shutdown (shard w)) (call_line corr now request identity d) a
  | Answered _ _ _ _ _ None => False
  end.

Definition corr_of (c : caller) : option Z :=
  match c with Auditing corr _ _ _ _ _ | Answered corr _ _ _ _ _ => Some corr | _ => None end.

(** The record of the call fits a frame, whatever the decision. *)
Definition fits_frame (request : McpRequest) (identity : TenantIdentity) : Prop :=
  forall corr now d, Z.of_nat (length (call_line corr now request identity d)) <= MAX_PAYLOAD_BYTES.

Definition caller_fits (c : caller) : Prop :=
  match c with
  | Calling request identity | Ruled _ request identity _
  | Auditing _ _ request identity _ _ | Answered _ _ request identity _ _ => fits_frame request identity
  end.

Definition small_frame (fr : ParsedFrame) : Prop := Z.of_nat (length (payload fr)) <= MAX_PAYLOAD_BYTES.
Definition small (a : appender) : Prop :=
  match a with
  | AppStart _ _ bs => Z.of_nat (length bs) <= MAX_PAYLOAD_BYTES
  | AppHasId _ fr => small_frame fr
  | _ => True
  end.

Record race_inv (s : race) : Prop := {
  ri_wal : wal_inv (wlog s);
  ri_fields : fields_inv (wlog s);
  ri_corr : omap corr_of (callers s) ⊆+ issued s;
  ri_callers : Forall (caller_ok (wlog s)) (callers s);
  ri_fits : Forall caller_fits (callers s);
  ri_small : Forall small_frame (FileWal.log (wlog s)) /\ Forall small (appenders (wlog s));
}.

(** *** The log under the calls *)

Lemma append_locked_succeeds cfg io fr sh :
  (forall i, io i = true) -> snd (append_locked cfg io fr sh) = Ok tt.
Proof.
  intros Hio. unfold append_locked, rollover. rewrite !Hio. by destruct (_ && _).
Qed.

Lemma lookup_insert_cases {A} (l : list A) i k x y :
  l !! k = Some x -> <[i := y]> l !! k = Some (if decide (i = k) then y else x).
Proof.
  intros Hk. case_decide as Hik; [subst; apply list_lookup_insert_eq; by eapply lookup_lt_Some|].
  by rewrite list_lookup_insert_ne.
Qed.

Lemma carries_notified down bs a :
  carries down bs a -> carries down bs (notified a) /\ (finished a -> finished (notified a)).
Proof. by destruct a. Qed.

Lemma small_notify l : Forall small l -> Forall small (notify_all l).
Proof. by apply Forall_notify. Qed.

(** A step of the log moves an append along, with its bytes. *)
Lemma exec_carries cfg idx act w w' k bs a :
  no_fault act -> FileWal.exec cfg idx act w = Some w' -> Z.of_nat (length bs) <= MAX_PAYLOAD_BYTES ->
  appenders w !! k = Some a -> carries (shutdown (shard w)) bs a ->
  exists a', appenders w' !! k = Some a' /\ carries (shutdown (shard w')) bs a' /\ (finished a -> finished a').
Proof.
  intros Hnf He Hbs Hk Hc.
  destruct act; cbn -[wrapping_add wrap append_locked] in He; unfold exec_append in He;
    try by (simplify_eq; exists a; destruct a).
  - destruct (_ =? _); simplify_eq. by exists a.
  - destruct (appenders w !! i) as [[d now bs'| | | | |]|] eqn:Ei; try done. destruct (_ =? _); simplify_eq. cbn.
    erewrite lookup_insert_cases by done. eexists. split; [done|]. case_decide as Hik; [|done]. subst k.
    assert (a = AppStart d now bs') as -> by congruence. done.
  - destruct (appenders w !! i) as [[|d fr| | | |]|] eqn:Ei; try done.
    pose proof (append_locked_succeeds cfg io fr (shard w) Hnf) as Hok.
    destruct (append_locked cfg io fr (shard w)) as [sh r] eqn:Ea. cbn [snd] in Hok. subst r.
    destruct (append_locked_fields _ _ _ _ _ _ Ea) as (Hsd & _).
    destruct (U32_MAX <? _) eqn:Eu; simplify_eq; cbn.
    + erewrite lookup_insert_cases by done. eexists; split; [done|].
      case_decide as Hik; [|done]. subst k. assert (a = AppHasId d fr) as -> by congruence. destruct Hc as [_ <-].
      apply Z.ltb_lt in Eu. unfold U32_MAX, MAX_PAYLOAD_BYTES in *. lia.
    + assert (Hk' : exists a', (if need_immediate_flush cfg d sh then notify_all (appenders w) else appenders w) !! k = Some a' /\
        carries (shutdown (shard w)) bs a' /\ (finished a -> finished a')).
      { destruct (need_immediate_flush _ _ _); [|by exists a]. rewrite lookup_notify_all, Hk.
        exists (notified a). split; [done|by apply carries_notified]. }
      destruct Hk' as (a' & Hk' & Hc' & Hf'). erewrite lookup_insert_cases by done. eexists; split; [done|].
      rewrite Hsd. case_decide as Hik; [|done]. subst k. assert (a = AppHasId d fr) as -> by congruence.
      destruct Hc as [-> <-]. by destruct (durable _ _).
  - destruct (appenders w !! i) as [[| |fr []| | |]|] eqn:Ei; try done. simplify_eq; cbn.
    erewrite lookup_insert_cases by done. eexists; split; [done|]. case_decide as Hik; [|done]. subst k.
    assert (a = AppWaiting fr true) as -> by congruence. destruct (durable _ _); [done|]. by destruct (shutdown (shard w)).
  - destruct (appenders w !! i) as [[| |fr b| | |]|] eqn:Ei; try done. simplify_eq; cbn.
    erewrite lookup_insert_cases by done. eexists; split; [done|]. case_decide as Hik; [|done]. subst k.
    assert (a = AppWaiting fr b) as -> by congruence. done.
  - simplify_eq. exists (notified a). cbn. rewrite lookup_notify_all, Hk. split; [done|by apply carries_notified].
  - destruct (fl w), (flusher_pick (shard w)); simplify_eq/=; by exists a.
  - destruct (fl w); try done. destruct ok; simplify_eq; by exists a.
  - destruct (fl w) as [| |t []|]; simplify_eq; exists (notified a); cbn; rewrite lookup_notify_all, Hk;
      (split; [done|by apply carries_notified]).
  - simplify_eq. exists (notified a). cbn. rewrite lookup_notify_all, Hk. split; [done|]. by destruct a.
Qed.

Lemma exec_small cfg idx act w w' :
  FileWal.exec cfg idx act w = Some w' ->
  Forall small_frame (FileWal.log w) /\ Forall small (appenders w) ->
  Forall small_frame (FileWal.log w') /\ Forall small (appenders w').
Proof.
  intros He [Hl Ha]. destruct act; cbn -[wrapping_add wrap append_locked] in He; unfold exec_append in He;
    try by simplify_eq.
  - destruct (_ =? _); by simplify_eq.
  - destruct (appenders w !! i) as [[d now bs'| | | | |]|] eqn:Ei; try done. destruct (_ =? _); simplify_eq.
    split; [done|]. apply Forall_insert; [done|]. exact (proj1 (Forall_lookup _ _) Ha i _ Ei).
  - destruct (appenders w !! i) as [[|d fr| | | |]|] eqn:Ei; try done.
    pose proof (proj1 (Forall_lookup _ _) Ha i _ Ei) as Hfr. cbn in Hfr.
    destruct (U32_MAX <? _); [simplify_eq; split; [done|by apply Forall_insert]|].
    destruct (append_locked _ _ _ _) as [sh [u|e]]; simplify_eq; cbn; (split; [|apply Forall_insert]); try done.
    + apply Forall_app. by split; [|constructor].
    + destruct (need_immediate_flush _ _ _); auto using small_notify.
    + by repeat case_match.
  - destruct (appenders w !! i) as [[| |fr []| | |]|]; try done. simplify_eq. split; [done|]. apply Forall_insert; [done|].
    by repeat case_match.
  - destruct (appenders w !! i) as [[]|]; try done. simplify_eq. split; [done|by apply Forall_insert].
  - simplify_eq. split; [done|by apply small_notify].
  - by destruct (fl w), (flusher_pick (shard w)); simplify_eq/=.
  - by destruct (fl w); simplify_eq.
  - destruct (fl w); simplify_eq. split; [done|by apply small_notify].
  - simplify_eq. split; [done|by apply small_notify].
Qed.

Lemma caller_ok_exec cfg idx act w w' c :
  no_fault act -> FileWal.exec cfg idx act w = Some w' -> caller_fits c -> caller_ok w c -> caller_ok w' c.
Proof.
  intros Hnf He Hf Hc. destruct c as [| |corr now rq id d slot|corr now rq id d [slot|]]; try done.
  - destruct Hc as (Hd & a & Hk & Hc). split; [done|].
    destruct (exec_carries _ _ _ _ _ _ _ _ Hnf He (Hf corr now d) Hk Hc) as (a' & ? & ? & _). by exists a'.
  - destruct Hc as (Hd & a & Hk & Hfin & Hc). split; [done|].
    destruct (exec_carries _ _ _ _ _ _ _ _ Hnf He (Hf corr now d) Hk Hc) as (a' & ? & ? & Hfin').
    exists a'. by split_and!; [|apply Hfin'|].
Qed.

(** *** New appends *)

Lemma enroll_wal_inv d now bs w : wal_inv w -> wal_inv (enroll (AppStart d now bs) w).
Proof.
  intros Hw Hroll Hord. destruct (Hw Hroll Hord) as [seg []]. exists seg. constructor; try done.
  cbn. apply Forall_app. split; [done|]. by repeat constructor.
Qed.

Lemma enroll_fields d now bs w : fields_inv w -> fields_inv (enroll (AppStart d now bs) w).
Proof.
  intros (Hn & Hl & Ha). split_and!; [done..|]. cbn. apply Forall_app. split; [done|]. by repeat constructor.
Qed.

Lemma enroll_caller_ok a w c : caller_ok w c -> caller_ok (enroll a w) c.
Proof.
  assert (Hold : forall k b, appenders w !! k = Some b -> appenders (enroll a w) !! k = Some b)
    by (intros k b Hk; cbn; by apply lookup_app_l_Some).
  destruct c as [| |corr now rq id d slot|corr now rq id d [slot|]]; try done.
  - intros (Hd & b & Hk & Hc). split; [done|]. exists b. by split; [apply Hold|].
  - intros (Hd & b & Hk & Hc). split; [done|]. exists b. by split; [apply Hold|].
Qed.

Lemma omap_insert_Some {A C} (f : A -> option C) (l : list A) i x y c :
  l !! i = Some x -> f x = None -> f y = Some c -> omap f (<[i := y]> l) ≡ₚ c :: omap f l.
Proof.
  intros Hi Hx Hy. rewrite <- (take_drop_middle l i x Hi) at 2. rewrite insert_take_drop by by eapply lookup_lt_Some.
  rewrite !omap_app. cbn. rewrite Hx, Hy. by rewrite Permutation_middle.
Qed.

Lemma omap_insert_same {A C} (f : A -> option C) (l : list A) i x y :
  l !! i = Some x -> f y = f x -> omap f (<[i := y]> l) = omap f l.
Proof.
  intros Hi Hy. rewrite <- (take_drop_middle l i x Hi) at 2. rewrite insert_take_drop by by eapply lookup_lt_Some.
  rewrite !omap_app. cbn. by rewrite Hy.
Qed.

(** *** Steps of the calls *)

Lemma insert_caller_inv s i x y :
  race_inv s -> callers s !! i = Some x -> corr_of y = corr_of x ->
  caller_ok (wlog s) y -> caller_fits y -> race_inv (set_caller i y s).
Proof.
  intros [] Hi Hc Hok Hf. constructor; cbn; try done.
  - by erewrite omap_insert_same.
  - by apply Forall_insert.
  - by apply Forall_insert.
Qed.

Lemma emit_inv s s' i clock : exec_emit to_vec i clock s = Some s' -> race_inv s -> race_inv s'.
Proof.
  unfold exec_emit. destruct (callers s !! i) as [[|now rq id d| |]|] eqn:Ei; try done. cbn [RequestId_next].
  rewrite Hencode. intros [= <-] [Hw Hf Hc Hcs Hfit [Hl Ha]].
  pose proof (proj1 (Forall_lookup _ _) Hfit i _ Ei) as Hsize. cbn in Hsize.
  pose proof (proj1 (Forall_lookup _ _) Hcs i _ Ei) as Hd. cbn in Hd.
  constructor; cbn [wlog callers issued].
  - by apply enroll_wal_inv.
  - by apply enroll_fields.
  - erewrite omap_insert_Some by done. rewrite (Permutation_app_comm (issued s)). by apply submseteq_skip.
  - apply Forall_insert; [eapply Forall_impl; [exact Hcs|]; intros c; apply enroll_caller_ok|].
    split; [done|]. eexists. split; [cbn; by apply list_lookup_middle|]. done.
  - by apply Forall_insert.
  - split; [done|]. cbn. apply Forall_app. split; [done|]. apply Forall_singleton. apply (Hsize _ now d).
Qed.

Lemma race_inv_step s s' : step s s' -> race_inv s -> race_inv s'.
Proof.
  intros (act & Hq & He) Hinv. destruct act as [|i now|i clock|a|i]; cbn in He.
  - simplify_eq. by destruct Hinv.
  - destruct (callers s !! i) as [[rq id| | |]|] eqn:Ei; simplify_eq. eapply insert_caller_inv; try done.
    by apply (proj1 (Forall_lookup _ _) (ri_fits _ Hinv) i _ Ei).
  - by eapply emit_inv.
  - destruct (FileWal.exec audit_wal_config 0 a (wlog s)) as [w|] eqn:Ew; simplify_eq/=. destruct Hinv as [Hw Hf Hc Hcs Hfit Hsm].
    assert (Hstep : FileWal.step audit_wal_config 0 (wlog s) w) by by exists a.
    constructor; cbn; [by eapply wal_inv_step|by eapply fields_inv_step|done| |done|by eapply exec_small].
    apply Forall_forall. intros c Hin. rewrite Forall_forall in Hcs, Hfit. eapply caller_ok_exec; eauto.
  - destruct (callers s !! i) as [[| |corr now rq id d slot|]|] eqn:Ei; try done.
    pose proof (proj1 (Forall_lookup _ _) (ri_callers _ Hinv) i _ Ei) as (Hd & a & Hk & Hc).
    pose proof (proj1 (Forall_lookup _ _) (ri_fits _ Hinv) i _ Ei) as Hfit.
    rewrite Hk in He. destruct a; simplify_eq; (eapply insert_caller_inv; [done|done|done| |done]);
      (split; [done|]; eexists; by split_and!).
Qed.

Lemma calls_start_inv n calls :
  Forall (fun c => fits_frame c.1 c.2) calls -> race_inv (calls_start n calls).
Proof.
  intros Hfit. destruct (start_inv []) as [Hw Hf]. constructor; cbn; try done.
  - induction calls as [|c calls IH]; cbn; [done|]. apply IH. by inversion Hfit.
  - apply Forall_fmap, Forall_true. done.
  - apply Forall_fmap. exact Hfit.
Qed.

(** A call keeps its request and its identity. *)
Definition call_of (c : caller) : McpRequest * TenantIdentity :=
  match c with
  | Calling request identity | Ruled _ request identity _
  | Auditing _ _ request identity _ _ | Answered _ _ request identity _ _ => (request, identity)
  end.

Lemma insert_call_of (cs : list caller) i x y :
  cs !! i = Some x -> call_of y = call_of x -> call_of <$> <[i := y]> cs = call_of <$> cs.
Proof.
  intros Hi Hy. rewrite list_fmap_insert. apply list_insert_id. by rewrite list_lookup_fmap, Hi, Hy.
Qed.

Lemma step_call_of s s' : step s s' -> call_of <$> callers s' = call_of <$> callers s.
Proof.
  intros (act & _ & He). destruct act as [|i now|i clock|a|i]; cbn in He.
  - by simplify_eq.
  - destruct (callers s !! i) as [[]|] eqn:Ei; simplify_eq. by eapply insert_call_of.
  - unfold exec_emit in He. destruct (callers s !! i) as [[]|] eqn:Ei; try done. cbn [RequestId_next] in He.
    destruct (to_vec _); simplify_eq; by eapply insert_call_of.
  - destruct (FileWal.exec _ _ _ _); by simplify_eq/=.
  - destruct (callers s !! i) as [[]|] eqn:Ei; try done. repeat case_match; simplify_eq; by eapply insert_call_of.
Qed.

Lemma reachable_call_of n calls s : rtc step (calls_start n calls) s -> call_of <$> callers s = calls.
Proof.
  intros Hr. eapply (rtc_invariant step (fun s => call_of <$> callers s = calls)); [|exact Hr|].
  - intros a b Hs <-. by apply step_call_of.
  - cbn. rewrite <- list_fmap_compose. rewrite <- (list_fmap_id calls) at 2. apply list_fmap_ext. by intros _ [rq id] _.
Qed.

(** The appends of the calls are those of the log, so what was synced is read back. *)
Lemma acked_line_survives s slot fr seg img :
  race_inv s -> no_rollover (wlog s) -> in_order (wlog s) ->
  appenders (wlog s) !! slot = Some (AppAcked fr) ->
  files (shard (wlog s)) !! 0 = Some seg -> crash_image seg img -> Ok fr ∈ try_parse_frames img.
Proof.
  intros [Hw (_ & Hlog & _) _ _ _ [Hsm _]] Hroll Hord Hack Hfile Himg. destruct (Hw Hroll Hord) as [seg0 []].
  rewrite si_files, lookup_singleton_eq in Hfile. injection Hfile as <-.
  pose proof (proj1 (Forall_lookup _ _) si_appenders slot _ Hack) as [Hin Hs].
  eapply synced_survives; [|done..].
  apply Forall_forall. intros f Hf. rewrite Forall_forall in Hlog, Hsm.
  destruct (Hlog f Hf) as (? & ? & ? & ?). by split_and!; [..|apply Hsm].
Qed.

Lemma omap_nodup_inj {A C} (f : A -> option C) (l : list A) i j x y c :
  NoDup (omap f l) -> l !! i = Some x -> l !! j = Some y -> f x = Some c -> f y = Some c -> i = j.
Proof.
  revert i j. induction l as [|z l IH]; intros i j Hnd Hi Hj Hx Hy; [done|].
  change (z :: l) with ([z] ++ l) in Hnd. rewrite omap_app in Hnd.
  apply NoDup_app in Hnd as (_ & Hdis & Hnd).
  assert (Hin : forall k w, l !! k = Some w -> f w = Some c -> c ∈ omap f l)
    by (intros k w Hk Hw; apply list_elem_of_omap; exists w; split; [by eapply list_elem_of_lookup_2|done]).
  assert (Hz : f z = Some c -> c ∈ omap f [z]) by (intros E; cbn; rewrite E; by left).
  destruct i as [|i], j as [|j]; cbn in Hi, Hj; simplify_eq; [done| | |f_equal; by eapply IH];
    exfalso; eapply Hdis; eauto.
Qed.

Lemma corr_unique s i j c x k :
  race_inv s -> NoDup (issued s) -> callers s !! i = Some c -> callers s !! j = Some x ->
  corr_of c = Some k -> corr_of x = Some k -> i = j.
Proof.
  intros Hinv Hnd. apply omap_nodup_inj.
  destruct (submseteq_Permutation _ _ (ri_corr _ Hinv)) as [r Hr]. rewrite Hr in Hnd. by apply NoDup_app in Hnd as [? _].
Qed.

(** [C3] The audit trail under concurrency: any number of calls of [authorize], interleaved
    with each other, with the flusher and with the kernel in any way.  A call that has been
    answered was answered by the configuration's ruling on its own request, and from
    whatever a crash leaves of the log one reads back a record of exactly that request,
    tenant, decision, time and correlation id, which no other call carries as long as the
    counter of ids has not come round.  The conditions are those of every append
    ([acked_entry_survives_crash]): no I/O fails, the log is not shut down, it has not rolled
    over to a second segment, and the entries reached it in the order of their ids; and each
    record fits a frame.  [rollover_acks_unsynced] and [overtaken_append_acked_unsynced] show
    that the third and the fourth are needed. *)
Theorem concurrent_audit_survives n calls s i corr now request identity d slot seg img :
  Forall (fun c => fits_frame c.1 c.2) calls ->
  rtc step (calls_start n calls) s ->
  no_rollover (wlog s) -> in_order (wlog s) -> shutdown (shard (wlog s)) = false ->
  callers s !! i = Some (Answered corr now request identity d slot) ->
  files (shard (wlog s)) !! 0 = Some seg -> crash_image seg img ->
  calls !! i = Some (request, identity) /\ d = ruled now request identity /\
  (exists fr, Ok fr ∈ try_parse_frames img /\ payload fr = call_line corr now request identity d) /\
  (NoDup (issued s) -> forall j x, callers s !! j = Some x -> corr_of x = Some corr -> j = i).
Proof.
  intros Hfit Hr Hroll Hord Hsd Hi Hfile Himg.
  assert (Hinv : race_inv s) by (eapply (rtc_invariant step); eauto using race_inv_step, calls_start_inv).
  pose proof (proj1 (Forall_lookup _ _) (ri_callers _ Hinv) i _ Hi) as Hok.
  split; [|split; [|split]].
  - rewrite <- (reachable_call_of n calls s Hr), list_lookup_fmap, Hi. done.
  - destruct slot; [apply Hok|done].
  - destruct slot as [slot|]; [|done]. destruct Hok as (_ & a & Hk & Hfin & Hc). rewrite Hsd in Hc.
    destruct a as [| | |fr| |]; try done. exists fr. split; [by eapply acked_line_survives|done].
  - intros Hnd j x Hj Hx. by eapply (corr_unique s j i x _ corr).
Qed.
End invariant.

(** ** A run: two calls, the second one ruled and numbered first *)

Definition race_calls : list (McpRequest * TenantIdentity) := [(email, agent); (ToolList, agent)].
Definition race_acts : list race_act :=
  [Rule 0 0; Rule 1 5; Emit 1 7; OtherId; Emit 0 8; LogStep (FetchAdd 0); LogStep (FetchAdd 1);
   LogStep (Append 0 io_ok); LogStep (Append 1 io_ok); LogStep Pick; LogStep (Flush true); LogStep Publish;
   LogStep (Wake 1); Answer 0].

Lemma race_fits rq id : In (rq, id) race_calls -> fits_frame toy_encode rq id.
Proof.
  intros [[= <- <-]|[[= <- <-]|[]]] corr now d; by destruct d.
Qed.

Definition race_tenants : gmap Z CompiledAllowlist :=
  match acme_broker with Some b => Mcp.tenants b | None => ∅ end.
Definition allowed : CapabilityDecision := ruling toy_hmac race_tenants [] 0 email agent.

Lemma concurrent_audit_survives_witness :
  exists s corr img, rtc (race_step toy_hmac toy_to_vec race_tenants []) (calls_start 1 race_calls) s /\
    callers s !! 0%nat = Some (Answered corr 0 email agent allowed (Some 1%nat)) /\ corr = 3 /\ decision_of allowed = AuditAllow /\
    exists fr, Ok fr ∈ try_parse_frames img /\
      payload fr = call_line toy_encode 3 0 email agent allowed.
Proof.
  destruct (exec_run (race_exec toy_hmac toy_to_vec race_tenants []) race_acts (calls_start 1 race_calls)) as [s|] eqn:E;
    [|by vm_compute in E].
  assert (Hr : rtc (race_step toy_hmac toy_to_vec race_tenants []) (calls_start 1 race_calls) s).
  { eapply quiet_run; [|exact E]. by repeat constructor. }
  vm_compute in E. injection E as Es.
  destruct (files (shard (wlog s)) !! 0) as [seg|] eqn:Ef; [|by subst s].
  exists s, 3, (os seg). split; [done|]. split; [by subst s|]. split; [done|]. split; [by vm_compute|].
  eapply (concurrent_audit_survives toy_hmac toy_to_vec race_tenants [] toy_encode (fun r => eq_refl) 1 race_calls s 0 3 0 email agent
    allowed (Some 1%nat) seg).
  - apply Forall_forall. intros [rq id] Hin. by apply race_fits, list_elem_of_In.
  - exact Hr.
  - subst s. eapply no_rollover_singleton. cbn. reflexivity.
  - subst s. repeat constructor.
  - by subst s.
  - by subst s.
  - done.
  - exists (length (os seg)). split; [|by rewrite take_ge]. subst s. vm_compute in Ef. injection Ef as <-. cbn. lia.
Defined.
