(* ===== verification/Io.v ===== *)
(** * Io: the I/O backends

    The [AsyncIO] trait ([riftgate-core/src/io.rs]) as a class, and its two
    implementations: [MioIO] ([riftgate-io-epoll/src/mio_io.rs]) over the poller of [mio],
    and [UringIO] ([riftgate-io-uring/src/uring.rs]) over a ring.  Both kernels are classes:
    operations, and laws that state their documented effect on what they watch. *)

From S2P Require Import Prelude.

#[local] Open Scope list_scope.
#[local] Open Scope Z_scope.

Abbreviation RawFd := Z (only parsing).

(** An OS error by its number; [SqFull] is the [WouldBlock] of a full submission queue. *)
Inductive IoError := OsError (errno : Z) | SqFull.

Definition EINTR : Z := 4.

#[global] Instance IoError_eq_dec : EqDecision IoError.
Proof. solve_decision. Defined.

(** ** [io.rs] *)

Record Interest := mkInterest { interest_bits : Z }.

Definition READABLE_BIT : Z := 1.
Definition WRITABLE_BIT : Z := 2.
Definition READABLE : Interest := mkInterest READABLE_BIT.
Definition WRITABLE : Interest := mkInterest WRITABLE_BIT.
Definition READABLE_AND_WRITABLE : Interest := mkInterest (Z.lor READABLE_BIT WRITABLE_BIT).

Definition is_readable (i : Interest) : bool := negb (Z.land (interest_bits i) READABLE_BIT =? 0).
Definition is_writable (i : Interest) : bool := negb (Z.land (interest_bits i) WRITABLE_BIT =? 0).

Record Event := mkEvent { token : Z; readable : bool; writable : bool }.

(** A timeout is [None] or a number of nanoseconds. *)
Class AsyncIO (T : Type) := {
  register : RawFd -> Z -> Interest -> T -> result unit IoError * T;
  deregister : RawFd -> T -> result unit IoError * T;
  poll : option Z -> T -> result (list Event) IoError * T;
}.

(** ** [MioIO] *)

(** The poller of [mio]; a poll either fails or fills the event buffer. *)
Class MioPoll (K : Type) := {
  mio_register : RawFd -> Z -> bool * bool -> K -> result unit IoError * K;
  mio_reregister : RawFd -> Z -> bool * bool -> K -> result unit IoError * K;
  mio_deregister : RawFd -> K -> result unit IoError * K;
  mio_poll : option Z -> K -> result (list Event) IoError * K;
}.

Record MioIO (K : Type) := mkMio { mio : K; registered : gset RawFd }.
Arguments mkMio {K}.
Arguments mio {K}.
Arguments registered {K}.

Section mio.
Context {K : Type} `{MioPoll K}.

Definition MioIO_new (k : K) : MioIO K := mkMio k ∅.
Definition registered_count (io : MioIO K) : nat := size (registered io).

(** [None] is the [unreachable!] of an interest without bits. *)
Definition mio_interest_from (i : Interest) : option (bool * bool) :=
  match is_readable i, is_writable i with
  | false, false => None
  | r, w => Some (r, w)
  end.

(** On a 64-bit target the token is kept. *)
Definition mio_io_register (fd : RawFd) (tok : Z) (i : Interest) (io : MioIO K) :
    option (result unit IoError * MioIO K) :=
  mi ← mio_interest_from i;
  Some (if bool_decide (fd ∈ registered io) then
          let '(r, k) := mio_reregister fd tok mi (mio io) in (r, mkMio k (registered io))
        else
          match mio_register fd tok mi (mio io) with
          | (Ok _, k) => (Ok tt, mkMio k ({[fd]} ∪ registered io))
          | (Err e, k) => (Err e, mkMio k (registered io))
          end).

Definition mio_io_deregister (fd : RawFd) (io : MioIO K) : result unit IoError * MioIO K :=
  if bool_decide (fd ∈ registered io) then
    let '(r, k) := mio_deregister fd (mio io) in (r, mkMio k (registered io ∖ {[fd]}))
  else (Ok tt, io).

(** The retry loop; [None] when the fuel runs out on interruptions. *)
Fixpoint mio_poll_loop (fuel : nat) (timeout : option Z) (io : MioIO K) :
    option (result (list Event) IoError * MioIO K) :=
  match fuel with
  | O => None
  | S fuel =>
      match mio_poll timeout (mio io) with
      | (Ok es, k) => Some (Ok es, mkMio k (registered io))
      | (Err e, k) =>
          if bool_decide (e = OsError EINTR) then mio_poll_loop fuel timeout (mkMio k (registered io))
          else Some (Err e, mkMio k (registered io))
      end
  end.
End mio.

(** ** [UringIO] *)

(** One submitted [PollAdd]. *)
Record PollAdd := mkPollAdd { pa_fd : RawFd; pa_mask : Z; user_data : Z }.

#[global] Instance PollAdd_eq_dec : EqDecision PollAdd.
Proof. solve_decision. Defined.

(** The ring; [completions] takes the completion entries, as user data and result. *)
Class Ring (K : Type) := {
  push : PollAdd -> K -> option K;
  submit : K -> result unit IoError * K;
  submit_and_wait : nat -> K -> result unit IoError * K;
  completions : K -> list (Z * Z) * K;
}.

Record UringIO (K : Type) := mkUring { ring : K; registrations : gmap RawFd (Z * Interest) }.
Arguments mkUring {K}.
Arguments ring {K}.
Arguments registrations {K}.

Definition libc_pollin : Z := 1.
Definition libc_pollout : Z := 4.

Definition poll_mask (i : Interest) : Z :=
  let mask := if is_readable i then Z.lor 0 libc_pollin else 0 in
  if is_writable i then Z.lor mask libc_pollout else mask.

Section uring.
Context {K : Type} `{Ring K}.

Definition UringIO_new (k : K) : UringIO K := mkUring k ∅.

Definition submit_poll (fd : RawFd) (tok : Z) (i : Interest) (io : UringIO K) : result unit IoError * UringIO K :=
  match push (mkPollAdd fd (poll_mask i) tok) (ring io) with
  | None => (Err SqFull, io)
  | Some k => let '(r, k) := submit k in (r, mkUring k (registrations io))
  end.

Definition uring_register (fd : RawFd) (tok : Z) (i : Interest) (io : UringIO K) : result unit IoError * UringIO K :=
  submit_poll fd tok i (mkUring (ring io) (<[fd := (tok, i)]> (registrations io))).

Definition uring_deregister (fd : RawFd) (io : UringIO K) : result unit IoError * UringIO K :=
  (Ok tt, mkUring (ring io) (delete fd (registrations io))).

(** A completion as an event; a negative result is skipped. *)
Definition event_of (cqe : Z * Z) : option Event :=
  if snd cqe <? 0 then None
  else Some (mkEvent (fst cqe) (negb (Z.land (snd cqe) libc_pollin =? 0)) (negb (Z.land (snd cqe) libc_pollout =? 0))).

Fixpoint rearm (l : list (RawFd * (Z * Interest))) (io : UringIO K) : result unit IoError * UringIO K :=
  match l with
  | [] => (Ok tt, io)
  | (fd, (tok, i)) :: l =>
      match submit_poll fd tok i io with
      | (Ok _, io) => rearm l io
      | (Err e, io) => (Err e, io)
      end
  end.

Definition to_rearm (es : list Event) (regs : gmap RawFd (Z * Interest)) : list (RawFd * (Z * Interest)) :=
  filter (fun r => existsb (fun e => token e =? fst (snd r)) es = true) (map_to_list regs).

(** The timeout only decides whether to wait at all. *)
Definition uring_poll (timeout : option Z) (io : UringIO K) : result (list Event) IoError * UringIO K :=
  let wait_for := if bool_decide (timeout = Some 0) then 0%nat else 1%nat in
  let '(r, k) := submit_and_wait wait_for (ring io) in
  let go :=
    let '(cqes, k) := completions k in
    let es := omap event_of cqes in
    match rearm (to_rearm es (registrations io)) (mkUring k (registrations io)) with
    | (Ok _, io) => (Ok es, io)
    | (Err e, io) => (Err e, io)
    end in
  match r with
  | Ok _ => go
  | Err e => if bool_decide (e = OsError EINTR) then go else (Err e, mkUring k (registrations io))
  end.
End uring.

#[global] Instance UringIO_async {K} `{Ring K} : AsyncIO (UringIO K) :=
  {| register := uring_register; deregister := uring_deregister; poll := uring_poll |}.

(** * Proofs *)

(** ** [MioIO]: the table of registered descriptors *)

(** What the calls of [mio] do to the set of watched descriptors. *)
Class MioLaws (K : Type) `{MioPoll K} := {
  watched : K -> gset RawFd;
  mio_register_watched : forall fd tok mi k r k', mio_register fd tok mi k = (r, k') ->
    watched k' = match r with Ok _ => {[fd]} ∪ watched k | Err _ => watched k end;
  mio_reregister_watched : forall fd tok mi k r k', mio_reregister fd tok mi k = (r, k') -> watched k' = watched k;
  mio_deregister_watched : forall fd k r k', mio_deregister fd k = (r, k') ->
    watched k' = match r with Ok _ => watched k ∖ {[fd]} | Err _ => watched k end;
  mio_poll_watched : forall t k r k', mio_poll t k = (r, k') -> watched k' = watched k;
}.

Section mio_proofs.
Context {K : Type} `{MioLaws K}.

Definition mio_synced (io : MioIO K) : Prop := registered io = watched (mio io).

Inductive mio_call := MioRegister (fd tok : Z) (i : Interest) | MioDeregister (fd : Z) | MioPollCall (t : option Z).

(** One call with its answer; a poll that is interrupted for ever gives none. *)
Inductive mio_step (io : MioIO K) : mio_call -> bool -> MioIO K -> Prop :=
| mio_step_register fd tok i r io' :
    mio_io_register fd tok i io = Some (r, io') ->
    mio_step io (MioRegister fd tok i) (match r with Ok _ => true | Err _ => false end) io'
| mio_step_deregister fd r io' :
    mio_io_deregister fd io = (r, io') ->
    mio_step io (MioDeregister fd) (match r with Ok _ => true | Err _ => false end) io'
| mio_step_poll fuel t r io' :
    mio_poll_loop fuel t io = Some (r, io') ->
    mio_step io (MioPollCall t) (match r with Ok _ => true | Err _ => false end) io'.

Lemma mio_poll_synced fuel t io r io' :
  mio_poll_loop fuel t io = Some (r, io') -> registered io' = registered io /\ watched (mio io') = watched (mio io).
Proof.
  revert io. induction fuel as [|fuel IH]; intros io; cbn; [done|].
  destruct (mio_poll t (mio io)) as [[es|e] k] eqn:E; apply mio_poll_watched in E.
  - by intros [= <- <-].
  - case_bool_decide; [|by intros [= <- <-]]. intros Hp. apply IH in Hp as [-> ->]. done.
Qed.

(** The table is exactly what the poller watches, through every call that succeeds and every
    one that fails, a failed deregistration apart: that one forgets the descriptor while the
    poller keeps it. *)
Theorem mio_table_exact io c ok io' :
  mio_step io c ok io' -> mio_synced io ->
  (forall fd, c = MioDeregister fd -> ok = true) -> mio_synced io'.
Proof.
  unfold mio_synced. intros Hs Hio Hok. destruct Hs as [fd tok i r io' Hc|fd r io' Hc|fuel t r io' Hc].
  - unfold mio_io_register in Hc. destruct (mio_interest_from i) as [mi|]; [|done]. cbn in Hc.
    case_bool_decide.
    + destruct (mio_reregister fd tok mi (mio io)) as [r0 k] eqn:E. injection Hc as <- <-.
      apply mio_reregister_watched in E. cbn. by rewrite E.
    + destruct (mio_register fd tok mi (mio io)) as [[u|e] k] eqn:E; injection Hc as <- <-;
        apply mio_register_watched in E; cbn; by rewrite E, Hio.
  - unfold mio_io_deregister in Hc. case_bool_decide; [|by injection Hc as <- <-].
    destruct (mio_deregister fd (mio io)) as [r0 k] eqn:E. injection Hc as <- <-.
    apply mio_deregister_watched in E. cbn. specialize (Hok fd eq_refl). destruct r0; [|done]. by rewrite E, Hio.
  - apply mio_poll_synced in Hc as [-> ->]. done.
Qed.
End mio_proofs.

(** ** [UringIO]: no registered descriptor is left without a poll *)

(** [armed]: the polls pushed and not completed.  A push adds one, a completion ends one
    (a [PollAdd] is one-shot), nothing else changes them. *)
Class RingLaws (K : Type) `{Ring K} := {
  armed : K -> list PollAdd;
  push_armed : forall p k k', push p k = Some k' -> armed k' ≡ₚ p :: armed k;
  submit_armed : forall k r k', submit k = (r, k') -> armed k' ≡ₚ armed k;
  wait_armed : forall n k r k', submit_and_wait n k = (r, k') -> armed k' ≡ₚ armed k;
  completions_armed : forall k cqes k', completions k = (cqes, k') ->
    exists ended, armed k ≡ₚ ended ++ armed k' /\ user_data <$> ended = cqes.*1;
}.

Section uring_proofs.
Context {K : Type} `{RingLaws K}.

Definition poll_for (fd : RawFd) (r : Z * Interest) : PollAdd := mkPollAdd fd (poll_mask (snd r)) (fst r).

(** Every registration has a poll in the ring. *)
Definition all_armed (io : UringIO K) : Prop :=
  forall fd r, registrations io !! fd = Some r -> poll_for fd r ∈ armed (ring io).

Lemma submit_poll_armed fd tok i io io' :
  submit_poll fd tok i io = (Ok tt, io') ->
  registrations io' = registrations io /\ armed (ring io') ≡ₚ poll_for fd (tok, i) :: armed (ring io).
Proof.
  unfold submit_poll. destruct (push _ _) as [k|] eqn:E; [|done]. apply push_armed in E.
  destruct (submit k) as [r k'] eqn:E2. apply submit_armed in E2. intros [= -> <-]. cbn. by rewrite E2.
Qed.

Lemma rearm_armed l io io' :
  rearm l io = (Ok tt, io') ->
  registrations io' = registrations io /\
  armed (ring io') ≡ₚ ((fun x => poll_for (fst x) (snd x)) <$> rev l) ++ armed (ring io).
Proof.
  revert io. induction l as [|[fd [tok i]] l IH]; intros io; cbn [rearm]; [by intros [= <-]|].
  destruct (submit_poll fd tok i io) as [[[]|e] io1] eqn:E; [|done]. apply submit_poll_armed in E as [Hr Ha].
  intros Hl. apply IH in Hl as [-> Hl]. split; [done|]. rewrite Hl, Ha. cbn [rev].
  rewrite fmap_app, <- app_assoc. done.
Qed.

Lemma fired_event tok cqes :
  tok ∈ cqes.*1 -> Forall (fun c => 0 <= snd c) cqes ->
  existsb (fun e => token e =? tok) (omap event_of cqes) = true.
Proof.
  intros ((tok' & res) & -> & Hin)%list_elem_of_fmap Hok. apply existsb_exists.
  rewrite Forall_forall in Hok. specialize (Hok _ Hin). cbn in Hok.
  eexists. split; [apply list_elem_of_In, list_elem_of_omap|].
  - exists (tok', res). split; [done|]. unfold event_of. cbn. by destruct (Z.ltb_spec res 0); [lia|].
  - cbn. apply Z.eqb_refl.
Qed.

Lemma uring_poll_ok timeout io es io' :
  uring_poll timeout io = (Ok es, io') ->
  exists n cqes k', completions (snd (submit_and_wait n (ring io))) = (cqes, k') /\ es = omap event_of cqes /\
    rearm (to_rearm es (registrations io)) (mkUring k' (registrations io)) = (Ok tt, io').
Proof.
  unfold uring_poll. set (n := if bool_decide _ then _ else _). destruct (submit_and_wait n (ring io)) as [r k] eqn:Ew.
  destruct (completions k) as [cqes k'] eqn:Ec. intros Hp. exists n, cqes, k'. rewrite Ew.
  assert (Hgo : match rearm (to_rearm (omap event_of cqes) (registrations io)) (mkUring k' (registrations io)) with
                | (Ok _, io) => (Ok (omap event_of cqes), io)
                | (Err e, io) => (Err e, io)
                end = (Ok es, io')) by (destruct r as [|e]; [done|by case_bool_decide]).
  destruct (rearm _ _) as [[[]|] io1] eqn:Er; [|done]. injection Hgo as <- <-. done.
Qed.

(** [C38] What keeps a descriptor armed: where every registered descriptor has a poll in the
    ring, it still has after a registration that succeeds, after any deregistration, and
    after a poll that succeeds and whose completions are all without error; a descriptor that
    fired has been armed again.  A completion with an error leaves its descriptor unarmed
    ([failed_completion_unarmed]), and so may a call that fails. *)
Theorem uring_stays_armed io :
  all_armed io ->
  (forall fd tok i io', register fd tok i io = (Ok tt, io') -> all_armed io') /\
  (forall fd, all_armed (snd (deregister fd io))) /\
  (forall timeout es io', poll timeout io = (Ok es, io') ->
     (forall n, Forall (fun c => 0 <= snd c) (fst (completions (snd (submit_and_wait n (ring io)))))) ->
     all_armed io').
Proof.
  intros Hall. cbn. split_and!.
  - intros fd tok i io' Hr. apply submit_poll_armed in Hr as [Hr Ha]. cbn in Hr, Ha.
    intros fd' r Hl. rewrite Ha. rewrite Hr in Hl. apply lookup_insert_Some in Hl as [[-> <-]|[_ Hl]]; [by left|].
    right. by apply Hall.
  - intros fd fd' r Hl. cbn in Hl. apply lookup_delete_Some in Hl as [_ Hl]. by apply Hall.
  - intros timeout es io' Hp Hok fd r Hl. apply uring_poll_ok in Hp as (n & cqes & k' & Hc & -> & Hr).
    specialize (Hok n). rewrite Hc in Hok. cbn in Hok. apply rearm_armed in Hr as [Hregs Ha]. cbn in Hregs, Ha.
    rewrite Ha. apply elem_of_app. rewrite Hregs in Hl. apply completions_armed in Hc as (ended & Hk & Hud).
    destruct (submit_and_wait n (ring io)) as [rw k] eqn:Ew. apply wait_armed in Ew. cbn in Hk.
    specialize (Hall fd r Hl). rewrite <- Ew, Hk in Hall. apply elem_of_app in Hall as [Hend|]; [left|by right].
    apply list_elem_of_fmap. exists (fd, r). split; [done|]. rewrite <- Permutation_rev.
    apply list_elem_of_filter. split; [|by apply elem_of_map_to_list].
    apply fired_event; [|done]. rewrite <- Hud. apply list_elem_of_fmap. by exists (poll_for fd r).
Qed.
End uring_proofs.

(** ** A ring: armed polls, and the completions the kernel will report *)

Record TestRing := mkTestRing { tr_armed : list PollAdd; tr_script : list (Z * Z) }.

Fixpoint take_poll (ud : Z) (l : list PollAdd) : option (PollAdd * list PollAdd) :=
  match l with
  | [] => None
  | p :: l =>
      if user_data p =? ud then Some (p, l)
      else match take_poll ud l with Some (q, l) => Some (q, p :: l) | None => None end
  end.

(** A scripted completion is reported when a poll with its user data is armed. *)
Fixpoint report_script (script : list (Z * Z)) (l : list PollAdd) : list (Z * Z) * list PollAdd :=
  match script with
  | [] => ([], l)
  | c :: script =>
      match take_poll (fst c) l with
      | Some (_, l) => let '(cs, l) := report_script script l in (c :: cs, l)
      | None => report_script script l
      end
  end.

#[local] Instance TestRing_ring : Ring TestRing := {|
  push := fun p k => Some (mkTestRing (p :: tr_armed k) (tr_script k));
  submit := fun k => (Ok tt, k);
  submit_and_wait := fun _ k => (Ok tt, k);
  completions := fun k => let '(cs, l) := report_script (tr_script k) (tr_armed k) in (cs, mkTestRing l []);
|}.

Lemma take_poll_perm ud l p l' : take_poll ud l = Some (p, l') -> l ≡ₚ p :: l' /\ user_data p = ud.
Proof.
  revert p l'. induction l as [|q l IH]; intros p l'; cbn; [done|]. destruct (Z.eqb_spec (user_data q) ud).
  - by intros [= <- <-].
  - destruct (take_poll ud l) as [[q' l1]|]; [|done]. intros [= <- <-].
    destruct (IH q' l1 eq_refl) as [-> ?]. split; [constructor|done].
Qed.

Lemma script_perm script l :
  exists ended, l ≡ₚ ended ++ (report_script script l).2 /\ user_data <$> ended = (report_script script l).1.*1.
Proof.
  revert l. induction script as [|c script IH]; intros l; cbn; [by exists []|].
  destruct (take_poll (fst c) l) as [[p l1]|] eqn:E; [|apply IH].
  apply take_poll_perm in E as [Hl1 Hp]. destruct (IH l1) as (ended & Hl & Hu).
  destruct (report_script script l1) as [cs l2]. cbn in *. exists (p :: ended). cbn. split; [by rewrite Hl1, Hl|congruence].
Qed.

#[local] Instance TestRing_laws : RingLaws TestRing.
Proof.
  refine {| armed := tr_armed |}; cbn.
  - by intros p k k' [= <-].
  - by intros k r k' [= <- <-].
  - by intros n k r k' [= <- <-].
  - intros k cqes k'. destruct (script_perm (tr_script k) (tr_armed k)) as (ended & ? & ?).
    destruct (report_script _ _) as [cs l]. intros [= <- <-]. by exists ended.
Defined.

(** Two descriptors with a poll each; [script] is what the kernel reports next. *)
Definition two_fds (script : list (Z * Z)) : UringIO TestRing :=
  let r3 := (30, READABLE) in let r4 := (40, WRITABLE) in
  mkUring (mkTestRing [poll_for 3 r3; poll_for 4 r4] script) {[ 3 := r3; 4 := r4 ]}.

Lemma two_fds_armed script : all_armed (two_fds script).
Proof.
  intros fd r Hl. cbn in *. apply lookup_insert_Some in Hl as [[<- <-]|[_ Hl]]; [by left|].
  apply lookup_singleton_Some in Hl as [<- <-]. right. by left.
Qed.

Lemma uring_stays_armed_witness :
  match poll None (two_fds [(30, 1)]) with
  | (Ok es, io) => es = [mkEvent 30 true false] /\ all_armed io
  | (Err _, _) => False
  end.
Proof.
  destruct (poll None (two_fds [(30, 1)])) as [[es|e] io] eqn:E; [|by vm_compute in E].
  split; [by vm_compute in E; injection E as <- _|].
  apply (proj2 (proj2 (uring_stays_armed (two_fds [(30, 1)]) (two_fds_armed _))) None es io E).
  intros n. cbn. by repeat constructor.
Defined.

(** A completion with an error is skipped and its descriptor never armed again: it stays
    registered and no further event of it can arrive. *)
Lemma failed_completion_unarmed :
  match poll None (two_fds [(30, -11)]) with
  | (Ok es, io) => es = [] /\ is_Some (registrations io !! 3) /\ ~ all_armed io
  | (Err _, _) => False
  end.
Proof.
  destruct (poll None (two_fds [(30, -11)])) as [[es|e] io] eqn:E; [|by vm_compute in E].
  assert (Hio : es = [] /\ io = mkUring (mkTestRing [poll_for 4 (40, WRITABLE)] [])
                                 (registrations (two_fds []))) by (vm_compute in E; by injection E as <- <-).
  destruct Hio as [-> ->]. split; [done|split; [by eexists|]]. intros Ha.
  specialize (Ha 3 (30, READABLE) eq_refl). cbn in Ha. by apply list_elem_of_singleton in Ha.
Qed.

(** Registering a descriptor again leaves its first poll armed: both fire. *)
Lemma reregister_doubles :
  armed (ring (snd (register 3 31 WRITABLE (two_fds [])))) =
  [poll_for 3 (31, WRITABLE); poll_for 3 (30, READABLE); poll_for 4 (40, WRITABLE)].
Proof. by vm_compute. Qed.
