(* ===== verification/Proxy.v ===== *)
(** * Proxy: the request handler of the gateway

    [handle] of [riftgate/src/proxy.rs] with its helpers, the health endpoints
    ([health.rs]) and the observed response body.  The handler composes the other
    components through their interfaces: any [Router], any [CapabilityBroker], any
    [TenantResolver], and the MCP parser.

    Effects are threaded by a small monad: a state [World] (router, broker, published
    spans, requests sent upstream) and an early return, the [return Ok(...)] of the
    source.  Parameters stand for code outside the repository: the JSON library, the URI
    and header-value checks of [http], the upstream client, the clocks.  Span durations
    are left out; the request id is the one [RequestId::next] returned. *)

From stdpp Require Import pretty.
From Stdlib Require Import Ascii String.
From S2P Require Import Prelude Core Weighted Circuit Capability Mcp.

#[local] Open Scope string_scope.
#[local] Open Scope list_scope.
#[local] Open Scope Z_scope.

(** ** HTTP messages: header names are lower case, as [http::HeaderName] keeps them *)

Abbreviation HeaderList := (list (string * string)).

(** The inbound request: method text, path, query, headers in iteration order, and what
    collecting the body gives. *)
Record Inbound := mkInbound {
  in_method : string;
  in_path : string;
  in_query : option string;
  in_headers : HeaderList;
  in_body : result (list byte) string;
}.

Record UpstreamRequest := mkUpstream {
  up_method : string;
  up_uri : string;
  up_headers : HeaderList;
  up_body : list byte;
}.

(** What [timeout(.., upstream.request(..))] gives: an answer with its status, headers and
    body frames, an error, or the elapsed deadline. *)
Inductive UpstreamResult :=
| UpstreamOk (status : StatusCode) (headers : HeaderList)
| UpstreamErr (msg : string)
| UpstreamElapsed.

(** A response of the handler: its own text, or the upstream body under observation. *)
Inductive ResponseBody :=
| FullBody (text : string)
| Observed.

Record ProxyResponse := mkProxyResponse {
  pr_status : StatusCode;
  pr_headers : HeaderList;
  pr_body : ResponseBody;
}.

(** ** Span names: [riftgate-obs/src/spans.rs] *)

Definition REQUEST_RECEIVED : string := "request.received".
Definition REQUEST_QUEUED : string := "request.queued".
Definition REQUEST_DISPATCHED : string := "request.dispatched".
Definition REQUEST_FIRST_TOKEN : string := "request.first_token".
Definition REQUEST_COMPLETED : string := "request.completed".
Definition REQUEST_REJECTED : string := "request.rejected".

(** ** Helpers *)

Definition newline : string := String "010" "".

Definition error_response (status : StatusCode) (message : string) : ProxyResponse :=
  mkProxyResponse status
    [("content-type", "text/plain; charset=utf-8"); ("x-riftgate-error", "1")]
    (FullBody (message +:+ newline)).

Definition health : ProxyResponse :=
  mkProxyResponse OK
    [("content-type", "text/plain; charset=utf-8"); ("x-riftgate-endpoint", "health")]
    (FullBody ("OK" +:+ newline)).

Definition ready (draining : bool) : ProxyResponse :=
  let headers := [("content-type", "text/plain; charset=utf-8"); ("x-riftgate-endpoint", "ready")] in
  if draining then mkProxyResponse SERVICE_UNAVAILABLE headers (FullBody ("DRAINING" +:+ newline))
  else mkProxyResponse OK headers (FullBody ("OK" +:+ newline)).

Definition is_hop_by_hop (name : string) : bool :=
  bool_decide (name ∈ ["connection"; "keep-alive"; "proxy-authenticate"; "proxy-authorization";
                       "te"; "trailers"; "transfer-encoding"; "upgrade"]).

Definition build_core_request (id : RequestId) (method path : string) (body : list byte) : Request :=
  let m :=
    if String.eqb method "GET" then Get else if String.eqb method "POST" then Post
    else if String.eqb method "PUT" then Put else if String.eqb method "DELETE" then Delete
    else if String.eqb method "OPTIONS" then Options else if String.eqb method "HEAD" then Head
    else Other method in
  mkRequest id m path Headers_new (match body with [] => Empty | _ => Bytes body end).

(** [trim_end_matches('/')]. *)
Fixpoint trim_end_slashes (s : string) : string :=
  match s with
  | EmptyString => EmptyString
  | String c s =>
      match trim_end_slashes s with
      | EmptyString => if Ascii.eqb c "/" then EmptyString else String c EmptyString
      | t => String c t
      end
  end.

(** The URI text; [parse] is [str::parse::<Uri>], an error message or the URI's text. *)
Definition build_upstream_uri (parse : string -> result string string) (backend_url path : string)
    (query : option string) : result string string :=
  let trimmed := trim_end_slashes backend_url in
  let combined := match query with
    | Some q => trimmed +:+ path +:+ "?" +:+ q
    | None => trimmed +:+ path
    end in
  match parse combined with
  | Ok u => Ok u
  | Err e => Err ("invalid upstream URI `" +:+ combined +:+ "`: " +:+ e)
  end.

(** [Display] of the MCP parser's errors; [json_msg] is the JSON library's own text. *)
Definition quoted (s : string) : string := String "034" s +:+ String "034" "".

Definition mcp_error_display (json_msg : string) (e : McpParseError) : string :=
  match e with
  | Json => "JSON parse error: " +:+ json_msg
  | BadVersion v =>
      "unexpected JSON-RPC version: expected " +:+ quoted "2.0" +:+ ", got " +:+ quoted v
  | UnknownMethod m => "unknown or unsupported MCP method: " +:+ quoted m
  | MissingField method field =>
      "missing required field " +:+ quoted field +:+ " in " +:+ method +:+ " params"
  end.

Definition BackendId_display (b : BackendId) : string := "backend-" +:+ pretty b.

(** ** The handler's monad *)
Section handler.
Context {R B T : Type} `{Router R} `{CapabilityBroker B} `{TenantResolver T}.

Record World := mkWorld {
  w_router : R;
  w_broker : option B;
  w_spans : list (RequestId * string);
  w_sent : list UpstreamRequest;
}.

(** A computation returns a value, or leaves the handler with a response. *)
Definition handler (A : Type) : Type := World -> (A + ProxyResponse) * World.

Definition hret {A} (x : A) : handler A := fun w => (inl x, w).
Definition hreturn {A} (r : ProxyResponse) : handler A := fun w => (inr r, w).
Definition hbind {A C} (m : handler A) (k : A -> handler C) : handler C :=
  fun w => match m w with
           | (inl x, w) => k x w
           | (inr r, w) => (inr r, w)
           end.

#[local] Notation "x <- m ;; k" := (hbind m (fun x => k)) (at level 100, m at next level, right associativity).
#[local] Notation "m ;;; k" := (hbind m (fun _ => k)) (at level 100, right associativity).

Definition publish_span (id : RequestId) (name : string) : handler unit :=
  fun w => (inl tt, mkWorld (w_router w) (w_broker w) (w_spans w ++ [(id, name)]) (w_sent w)).

(** ** The environment of one call *)

(** The configuration read by the handler. *)
Context (backend_url auth_header : string).
(** [HeaderValue::from_str(..).is_ok()], [HeaderValue::to_str(..).is_ok()] and the URI parser. *)
Context (value_ok value_text : string -> bool) (parse_uri : string -> result string string).
(** The JSON library and SHA-256, as in [Mcp]. *)
Context {Value : Type} (Null : Value) (get : Value -> string -> option Value)
        (as_str : Value -> option string) (value_to_vec : Value -> option (list byte))
        (sha256 : list byte -> list byte)
        (from_slice : list byte -> option (JsonRpcEnvelope (Value := Value)))
        (json_ok : list byte -> bool) (json_msg : string).

Definition mcp_parse (body : list byte) : result McpRequest McpParseError :=
  parse Null get as_str value_to_vec sha256 from_slice body.

Context (pool : BackendPool) (sigs : BackendSignals) (resolver : T) (draining : bool).

(** Header lookup of the resolver: the first value of the name, as text. *)
Definition header_text (hs : HeaderList) (name : string) : option string :=
  v ← snd <$> List.find (fun kv => String.eqb (fst kv) name) hs;
  if value_text v then Some v else None.

(** ** MCP authorization *)

Definition caller_identity (hs : HeaderList) : TenantIdentity :=
  default (mkIdentity 0 "default") (resolve resolver (header_text hs)).

Definition mcp_gate (now : Z) (req : Inbound) (body : list byte) : handler (option AttestationHeaders) :=
  fun w =>
    if String.eqb (in_method req) "POST" && String.eqb (in_path req) "/mcp" then
      match w_broker w with
      | None => (inl None, w)
      | Some broker =>
          match mcp_parse body with
          | Err e =>
              (inr (error_response BAD_REQUEST ("invalid MCP request body: " +:+ mcp_error_display json_msg e)), w)
          | Ok mcp_req =>
              let '(d, broker) := authorize now mcp_req (caller_identity (in_headers req)) broker in
              let w := mkWorld (w_router w) (Some broker) (w_spans w) (w_sent w) in
              match d with
              | Allow a => (inl (Some a), w)
              | Deny reason => (inr (error_response FORBIDDEN (as_header_value reason)), w)
              end
          end
      end
    else (inl None, w).

(** ** Routing *)

(** [StatusCode::from_u16(s).unwrap_or(500)]: 100 to 999. *)
Definition http_status (s : StatusCode) : StatusCode :=
  if (100 <=? s) && (s <? 1000) then s else INTERNAL_SERVER_ERROR.

Definition route_request (clk : Clock) (id : RequestId) (req : Inbound) (body : list byte) :
    handler (RoutingDecision * BackendId) :=
  fun w =>
    let core_req := build_core_request id (in_method req) (in_path req) body in
    let '(d, r) := route clk core_req pool sigs (w_router w) in
    let w := mkWorld r (w_broker w) (w_spans w) (w_sent w) in
    match d with
    | Send b => (inl (d, b), w)
    | Reject s =>
        (publish_span id REQUEST_REJECTED;;;
         hreturn (error_response (http_status s) "router rejected the request")) w
    | Hedge _ =>
        (inr (error_response INTERNAL_SERVER_ERROR "hedged routing lands in v0.3 (see Options 010)"), w)
    end.

(** ** The upstream request *)

Definition forwarded_headers (hs : HeaderList) : HeaderList :=
  filter (fun kv => ~ (is_hop_by_hop (fst kv) = true \/ fst kv = "host")) hs.

Definition auth_headers : HeaderList :=
  if negb (String.eqb auth_header "") && value_ok auth_header
  then [("authorization", auth_header)] else [].

Definition identity_headers (id : RequestId) (b : BackendId) : HeaderList :=
  [("x-riftgate-request-id", RequestId_display id); ("x-riftgate-backend", BackendId_display b)].

Definition attestation_headers (attest : option AttestationHeaders) : HeaderList :=
  match attest with
  | None => []
  | Some a =>
      let caller_v := pretty (caller a) in
      let sig_hex := hex_encode (signature a) in
      if value_ok caller_v && value_ok (subject a) && value_ok sig_hex
      then [("riftgate-mcp-caller", caller_v); ("riftgate-mcp-tool", subject a);
            ("riftgate-mcp-decision", decision a); ("riftgate-mcp-signature", sig_hex)]
      else []
  end.

Definition upstream_request (id : RequestId) (b : BackendId) (uri : string) (req : Inbound)
    (body : list byte) (attest : option AttestationHeaders) : UpstreamRequest :=
  mkUpstream (in_method req) uri
    (forwarded_headers (in_headers req) ++ auth_headers ++ identity_headers id b
     ++ attestation_headers attest) body.

(** ** Dispatch and response *)

(** [upstream] answers the request; [elapsed] is the reading of the dispatch timer. *)
Context (upstream : UpstreamRequest -> UpstreamResult) (elapsed : Z).

Definition dispatch (id : RequestId) (ureq : UpstreamRequest) : handler (StatusCode * HeaderList) :=
  fun w =>
    let w := mkWorld (w_router w) (w_broker w) (w_spans w) (w_sent w ++ [ureq]) in
    match upstream ureq with
    | UpstreamOk s hs => (inl (s, hs), w)
    | UpstreamErr e => (inr (error_response BAD_GATEWAY ("upstream error: " +:+ e)), w)
    | UpstreamElapsed =>
        (publish_span id REQUEST_COMPLETED;;;
         hreturn (error_response GATEWAY_TIMEOUT "upstream did not respond before deadline")) w
    end.

Definition outcome_of (b : BackendId) (status : StatusCode) : Outcome :=
  mkOutcome b (Some status) elapsed (is_success status).

Definition report (clk : Clock) (d : RoutingDecision) (o : Outcome) : handler unit :=
  fun w => (inl tt, mkWorld (on_response clk d o (w_router w)) (w_broker w) (w_spans w) (w_sent w)).

Definition client_response (id : RequestId) (b : BackendId) (status : StatusCode) (hs : HeaderList) :
    ProxyResponse :=
  mkProxyResponse status
    (filter (fun kv => is_hop_by_hop (fst kv) = false) hs ++ identity_headers id b) Observed.

(** ** [handle] *)

(** The health endpoints answer before the body is read. *)
Definition health_check (req : Inbound) : handler unit :=
  if String.eqb (in_method req) "GET" then
    if String.eqb (in_path req) "/health" then hreturn health
    else if String.eqb (in_path req) "/ready" then hreturn (ready draining) else hret tt
  else hret tt.

Definition read_body (req : Inbound) : handler (list byte) :=
  match in_body req with
  | Err e => hreturn (error_response BAD_REQUEST ("body read error: " +:+ e))
  | Ok body =>
      if String.eqb (in_method req) "POST" && String.eqb (in_path req) "/v1/chat/completions"
         && negb (bool_decide (body = [])) && negb (json_ok body)
      then hreturn (error_response BAD_REQUEST "request body is not valid JSON")
      else hret body
  end.

Definition upstream_uri (req : Inbound) : handler string :=
  match build_upstream_uri parse_uri backend_url (in_path req) (in_query req) with
  | Ok u => hret u
  | Err msg => hreturn (error_response INTERNAL_SERVER_ERROR msg)
  end.

(** The part up to the routing decision. *)
Definition accept_request (id : RequestId) (now : Z) (req : Inbound) :
    handler (list byte * option AttestationHeaders) :=
  publish_span id REQUEST_RECEIVED;;;
  health_check req;;;
  body <- read_body req;;
  attest <- mcp_gate now req body;;
  hret (body, attest).

(** The part from the routing decision on; [clk] is read by the router before the
    dispatch, [clk'] after it. *)
Definition forward_request (id : RequestId) (clk clk' : Clock) (req : Inbound) (body : list byte)
    (attest : option AttestationHeaders) : handler ProxyResponse :=
  db <- route_request clk id req body;;
  publish_span id REQUEST_QUEUED;;;
  uri <- upstream_uri req;;
  publish_span id REQUEST_DISPATCHED;;;
  sh <- dispatch id (upstream_request id (snd db) uri req body attest);;
  report clk' (fst db) (outcome_of (snd db) (fst sh));;;
  hret (client_response id (snd db) (fst sh) (snd sh)).

Definition handle_body (id : RequestId) (now : Z) (clk clk' : Clock) (req : Inbound) :
    handler ProxyResponse :=
  ba <- accept_request id now req;;
  forward_request id clk clk' req (fst ba) (snd ba).

Definition handle (id : RequestId) (now : Z) (clk clk' : Clock) (req : Inbound) (w : World) :
    ProxyResponse * World :=
  match handle_body id now clk clk' req w with
  | (inl r, w) | (inr r, w) => (r, w)
  end.
End handler.

(** ** The observed body *)

(** What polling the upstream body gives: a frame with data, a frame without (trailers). *)
Inductive Poll :=
| Pending
| ReadyData (data : list byte)
| ReadyTrailers
| ReadyErr
| ReadyEnd.

Record ObservedBody := mkObserved { first_seen : bool; body_completed : bool }.

Definition observed_new : ObservedBody := mkObserved false false.

Definition poll_frame (p : Poll) (o : ObservedBody) : ObservedBody * list string :=
  match p with
  | ReadyData data =>
      if negb (first_seen o) && negb (bool_decide (data = []))
      then (mkObserved true (body_completed o), [REQUEST_FIRST_TOKEN]) else (o, [])
  | _ => (o, [])
  end.

Definition observed_drop (o : ObservedBody) : ObservedBody * list string :=
  if body_completed o then (o, []) else (mkObserved (first_seen o) true, [REQUEST_COMPLETED]).

(** The spans of a body that is polled, with these results, and dropped. *)
Fixpoint observe (polls : list Poll) (o : ObservedBody) : list string :=
  match polls with
  | [] => snd (observed_drop o)
  | p :: polls => let '(o, l) := poll_frame p o in l ++ observe polls o
  end.

Definition has_data (p : Poll) : bool :=
  match p with ReadyData (_ :: _) => true | _ => false end.

(** * Proofs *)

Lemma observe_seen polls c :
  observe polls (mkObserved true c) = if c then [] else [REQUEST_COMPLETED].
Proof. induction polls as [|p polls IH]; [by destruct c|]. by destruct p. Qed.

(** Whoever ends the body, the first token is published at most once, exactly when data
    arrived, and completion exactly once and last. *)
Lemma observe_spec polls :
  observe polls observed_new =
  (if existsb has_data polls then [REQUEST_FIRST_TOKEN] else []) ++ [REQUEST_COMPLETED].
Proof.
  unfold observed_new. induction polls as [|p polls IH]; [done|].
  destruct p as [|[|b data]| | |]; try exact IH. cbn. by rewrite observe_seen.
Qed.

(** Case analysis of a stage of the handler, branch by branch. *)
Ltac stage_cases :=
  repeat (unfold hbind, hret, hreturn, publish_span; cbn beta iota zeta;
    cbn [fst snd w_router w_broker w_spans w_sent];
    try match goal with
    | |- context [match ?x with _ => _ end] =>
        lazymatch x with context [match _ with _ => _ end] => fail | _ => destruct x eqn:? end
    end).

(** Case analysis of [forwarding_cases]: decision, URI, reply. *)
Ltac split_forwarding Hc :=
  cbv zeta in Hc;
  destruct (route _ _ _ _ _) as [[?|?|?] ?];
    [destruct (build_upstream_uri _ _ _ _); [let u := lazymatch type of Hc with context [match ?u with UpstreamOk _ _ => _ | _ => _ end] => u end in
      destruct u|]|..]; rewrite Hc.

Section handler_proofs.
Context {R B T : Type} `{Router R} `{CapabilityBroker B} `{TenantResolver T}.
Context (backend_url auth_header : string).
Context (value_ok value_text : string -> bool) (parse_uri : string -> result string string).
Context {Value : Type} (Null : Value) (get : Value -> string -> option Value)
        (as_str : Value -> option string) (value_to_vec : Value -> option (list byte))
        (sha256 : list byte -> list byte)
        (from_slice : list byte -> option (JsonRpcEnvelope (Value := Value)))
        (json_ok : list byte -> bool) (json_msg : string).
Context (pool : BackendPool) (sigs : BackendSignals) (resolver : T) (draining : bool).
Context (upstream : UpstreamRequest -> UpstreamResult) (elapsed : Z).
Context (id : RequestId) (now : Z) (clk clk' : Clock) (req : Inbound).
Implicit Types w : World (R := R) (B := B).

Abbreviation parse_body := (mcp_parse Null get as_str value_to_vec sha256 from_slice).
Abbreviation admission := (accept_request value_text Null get as_str value_to_vec sha256 from_slice
  json_ok json_msg resolver draining id now req).
Abbreviation forwarding := (forward_request backend_url auth_header value_ok parse_uri pool sigs
  upstream elapsed id clk clk' req).
Abbreviation run := (handle backend_url auth_header value_ok value_text parse_uri Null get as_str
  value_to_vec sha256 from_slice json_ok json_msg pool sigs resolver draining upstream elapsed
  id now clk clk' req).

Lemma handle_split w :
  run w = match admission w with
          | (inr r, w1) => (r, w1)
          | (inl (body, attest), w1) =>
              match forwarding body attest w1 with (inl r, w2) | (inr r, w2) => (r, w2) end
          end.
Proof.
  unfold handle, handle_body. unfold hbind at 1. by destruct (admission w) as [[[body attest]|r] w1].
Qed.

(** Up to the routing decision only the broker may have changed, nothing is sent, and
    the handler answers with a text of its own. *)
Lemma admission_frame w :
  let '(x, w') := admission w in
  w_router w' = w_router w /\ w_spans w' = w_spans w ++ [(id, REQUEST_RECEIVED)] /\
  w_sent w' = w_sent w /\ match x with inr r => pr_body r <> Observed | inl _ => True end.
Proof.
  unfold accept_request, health_check, read_body, mcp_gate. stage_cases.
  all: split_and!; try done. unfold ready. by destruct draining.
Qed.

(** What the routed part does, by the routing decision, the URI and the upstream's reply. *)
Lemma forwarding_cases body attest w :
  let '(d, rt) := route clk (build_core_request id (in_method req) (in_path req) body) pool sigs (w_router w) in
  let after rt spans sent := mkWorld rt (w_broker w) (w_spans w ++ map (pair id) spans) (w_sent w ++ sent) in
  match d with
  | Reject s => forwarding body attest w =
      (inr (error_response (http_status s) "router rejected the request"), after rt [REQUEST_REJECTED] [])
  | Hedge _ => forwarding body attest w =
      (inr (error_response INTERNAL_SERVER_ERROR "hedged routing lands in v0.3 (see Options 010)"), after rt [] [])
  | Send b =>
      match build_upstream_uri parse_uri backend_url (in_path req) (in_query req) with
      | Err msg => forwarding body attest w =
          (inr (error_response INTERNAL_SERVER_ERROR msg), after rt [REQUEST_QUEUED] [])
      | Ok uri =>
          let ureq := upstream_request auth_header value_ok id b uri req body attest in
          match upstream ureq with
          | UpstreamOk s hs => forwarding body attest w =
              (inl (client_response id b s hs),
               after (on_response clk' d (outcome_of elapsed b s) rt) [REQUEST_QUEUED; REQUEST_DISPATCHED] [ureq])
          | UpstreamErr e => forwarding body attest w =
              (inr (error_response BAD_GATEWAY ("upstream error: " +:+ e)),
               after rt [REQUEST_QUEUED; REQUEST_DISPATCHED] [ureq])
          | UpstreamElapsed => forwarding body attest w =
              (inr (error_response GATEWAY_TIMEOUT "upstream did not respond before deadline"),
               after rt [REQUEST_QUEUED; REQUEST_DISPATCHED; REQUEST_COMPLETED] [ureq])
          end
      end
  end.
Proof.
  unfold forward_request, route_request, upstream_uri, dispatch, report. stage_cases.
  all: cbn [map]; rewrite ?app_nil_r, <- ?app_assoc; reflexivity.
Qed.

(** An accepted request goes to the router in its first state, with [received] published. *)
Lemma accepted_run w body attest :
  fst (admission w) = inl (body, attest) ->
  exists w1, run w = (match forwarding body attest w1 with (inl r, w2) | (inr r, w2) => (r, w2) end) /\
    w_router w1 = w_router w /\ w_spans w1 = w_spans w ++ [(id, REQUEST_RECEIVED)] /\ w_sent w1 = w_sent w.
Proof.
  intros Ha. pose proof (admission_frame w) as Hf. rewrite handle_split.
  destruct (admission w) as [x w1]. cbn in Ha. subst x. destruct Hf as (Hr & Hs & Hsent & _). by exists w1.
Qed.

(** What a request publishes and sends, by the router's decision and the upstream's reply.
    [polls] are the results of polling the forwarded body until it is dropped.  A hedge and
    an upstream error are left open. *)
Definition spans_promise (polls : list Poll) (body : list byte) (attest : option AttestationHeaders)
    (d : RoutingDecision) w (r : ProxyResponse) w' : Prop :=
  let published l := w_spans w' = w_spans w ++ map (pair id) l in
  match d with
  | Reject s =>
      published [REQUEST_RECEIVED; REQUEST_REJECTED] /\ w_sent w' = w_sent w /\
      r = error_response (http_status s) "router rejected the request"
  | Send b =>
      forall uri, build_upstream_uri parse_uri backend_url (in_path req) (in_query req) = Ok uri ->
      let u := upstream_request auth_header value_ok id b uri req body attest in
      w_sent w' = w_sent w ++ [u] /\
      match upstream u with
      | UpstreamOk s hs =>
          r = client_response id b s hs /\
          exists l, published l /\
            l ++ observe polls observed_new =
              [REQUEST_RECEIVED; REQUEST_QUEUED; REQUEST_DISPATCHED]
                ++ (if existsb has_data polls then [REQUEST_FIRST_TOKEN] else []) ++ [REQUEST_COMPLETED]
      | UpstreamElapsed =>
          pr_status r = GATEWAY_TIMEOUT /\
          published [REQUEST_RECEIVED; REQUEST_QUEUED; REQUEST_DISPATCHED; REQUEST_COMPLETED]
      | UpstreamErr _ => True
      end
  | Hedge _ => True
  end.

(** [C23] The spans of a request that is accepted (it is no health check, its body is read
    and valid, the broker, if asked, allows it) and routed.  One the router rejects
    publishes received and rejected and is not sent.  One the router sends is sent to the
    upstream exactly once; when the upstream replies, received, queued and dispatched are
    published in this order, and however the body is polled and dropped, the first token at
    most once and exactly when data arrived, and completed exactly once and last; when the
    upstream does not reply in time, received, queued, dispatched and completed.  An
    upstream error and a hedge are not covered: they publish no completed. *)
Theorem span_sequence polls w body attest d rt :
  fst (admission w) = inl (body, attest) ->
  route clk (build_core_request id (in_method req) (in_path req) body) pool sigs (w_router w) = (d, rt) ->
  let '(r, w') := run w in spans_promise polls body attest d w r w'.
Proof.
  intros Ha Hd. destruct (accepted_run w body attest Ha) as (w1 & -> & Hr & Hs & Hsent).
  pose proof (forwarding_cases body attest w1) as Hc. rewrite Hr, Hd in Hc.
  unfold spans_promise. cbv zeta in Hc. destruct d as [b|bs|s].
  - destruct (build_upstream_uri _ _ _ _) as [uri|msg]; [|by destruct (forwarding body attest w1) as [[?|?] ?]].
    destruct (upstream _) as [s hs|e|] eqn:Eu; rewrite Hc; cbn [w_spans w_sent]; rewrite ?Hs, ?Hsent, <- ?app_assoc;
      intros uri' [= <-]; (split; [done|]); rewrite Eu; [|done|done]. split; [done|].
    exists [REQUEST_RECEIVED; REQUEST_QUEUED; REQUEST_DISPATCHED]. split; [done|]. by rewrite observe_spec.
  - by destruct (forwarding body attest w1) as [[?|?] ?].
  - rewrite Hc. cbn [w_spans w_sent]. rewrite Hs, Hsent, <- app_assoc. split_and!; [done|apply app_nil_r|done].
Qed.

(** The requests that end without a completed span: one answered before routing publishes
    received alone; one whose upstream failed is answered 502 after received, queued and
    dispatched. *)
Theorem unfinished_spans w :
  (forall r, fst (admission w) = inr r ->
     fst (run w) = r /\ w_spans (snd (run w)) = w_spans w ++ [(id, REQUEST_RECEIVED)]) /\
  (forall body attest b rt uri e,
     fst (admission w) = inl (body, attest) ->
     route clk (build_core_request id (in_method req) (in_path req) body) pool sigs (w_router w) = (Send b, rt) ->
     build_upstream_uri parse_uri backend_url (in_path req) (in_query req) = Ok uri ->
     upstream (upstream_request auth_header value_ok id b uri req body attest) = UpstreamErr e ->
     pr_status (fst (run w)) = BAD_GATEWAY /\
     w_spans (snd (run w)) =
       w_spans w ++ map (pair id) [REQUEST_RECEIVED; REQUEST_QUEUED; REQUEST_DISPATCHED]).
Proof.
  split.
  - intros r Ha. pose proof (admission_frame w) as Hf. rewrite handle_split.
    destruct (admission w) as [x w1]. cbn in Ha. subst x. by destruct Hf as (_ & Hs & _).
  - intros body attest b rt uri e Ha Hd Hu He. destruct (accepted_run w body attest Ha) as (w1 & -> & Hr & Hs & Hsent).
    pose proof (forwarding_cases body attest w1) as Hc. rewrite Hr, Hd, Hu in Hc. cbv zeta in Hc.
    rewrite He in Hc. rewrite Hc. cbn [fst snd w_spans]. by rewrite Hs, <- app_assoc.
Qed.

(** ** The MCP gate *)

Definition is_mcp : Prop := in_method req = "POST" /\ in_path req = "/mcp".

Lemma admission_mcp w b :
  is_mcp -> w_broker w = Some b ->
  let w1 ob := mkWorld (w_router w) ob (w_spans w ++ [(id, REQUEST_RECEIVED)]) (w_sent w) in
  admission w =
  match in_body req with
  | Err e => (inr (error_response BAD_REQUEST ("body read error: " +:+ e)), w1 (Some b))
  | Ok body =>
      match parse_body body with
      | Err e => (inr (error_response BAD_REQUEST
                    ("invalid MCP request body: " +:+ mcp_error_display json_msg e)), w1 (Some b))
      | Ok m =>
          let '(d, b') := authorize now m (caller_identity value_text resolver (in_headers req)) b in
          match d with
          | Allow a => (inl (body, Some a), w1 (Some b'))
          | Deny reason => (inr (error_response FORBIDDEN (as_header_value reason)), w1 (Some b'))
          end
      end
  end.
Proof.
  intros [Hm Hp] Hb. unfold accept_request, health_check, read_body, mcp_gate.
  unfold hbind, hret, hreturn, publish_span. cbn. rewrite Hm, Hp. cbn.
  destruct (in_body req) as [body|e]; cbn; rewrite Hb; [|done].
  destruct (parse_body body) as [m|e]; [|done].
  by destruct (authorize now m _ b) as [[a|reason] b'].
Qed.

(** What the gate promises for an MCP request: the body is parsed, the broker is asked
    for the resolved caller, and only its [Allow] lets anything through. *)
Definition gate_promise w (b : B) (r : ProxyResponse) w' : Prop :=
  match in_body req with
  | Err _ => pr_status r = BAD_REQUEST /\ w_sent w' = w_sent w /\ w_router w' = w_router w
  | Ok body =>
      match parse_body body with
      | Err _ => pr_status r = BAD_REQUEST /\ w_sent w' = w_sent w /\ w_router w' = w_router w
      | Ok m =>
          let '(d, b') := authorize now m (caller_identity value_text resolver (in_headers req)) b in
          w_broker w' = Some b' /\
          match d with
          | Deny reason =>
              r = error_response FORBIDDEN (as_header_value reason) /\
              w_sent w' = w_sent w /\ w_router w' = w_router w
          | Allow a =>
              w_sent w' = w_sent w \/
              exists u hs, w_sent w' = w_sent w ++ [u] /\ up_body u = body /\
                up_headers u = hs ++ attestation_headers value_ok (Some a)
          end
      end
  end.

(** [C1] A [POST /mcp] with a broker reaches neither router nor upstream unless its body
    parses and the broker allows it for the resolved caller: a denial is answered 403
    with its reason, a malformed body 400, and an allowed request is forwarded with its
    body unchanged and the attestation headers last. *)
Theorem mcp_gate_enforced w b :
  is_mcp -> w_broker w = Some b -> let '(r, w') := run w in gate_promise w b r w'.
Proof.
  intros Hm Hb. rewrite handle_split, (admission_mcp w b Hm Hb). unfold gate_promise.
  destruct (in_body req) as [body|e]; [|done]. destruct (parse_body body) as [m|e]; [|done].
  destruct (authorize now m _ b) as [[a|reason] b']; [|done].
  set (w1 := mkWorld _ _ _ _). pose proof (forwarding_cases body (Some a) w1) as Hc. unfold w1 in *.
  cbn [w_router w_broker w_spans w_sent] in Hc.
  split_forwarding Hc; cbn [w_sent w_broker]; (split; [done|]).
  1-3: right; eexists _, _; split_and!; [done|done|]; cbn [up_headers upstream_request]; by rewrite !app_assoc.
  all: left; apply app_nil_r.
Qed.

(** ** Feedback to the router *)

(** The router is told of an upstream reply exactly when one arrived, and of nothing
    when the upstream failed or did not answer in time: then the router's state is the one
    its own decision left.  A reported reply counts as a failure for the circuit breaker
    exactly when its status is not a success, so a client error counts as well. *)
Theorem breaker_feedback body attest w b uri rt :
  route clk (build_core_request id (in_method req) (in_path req) body) pool sigs (w_router w) = (Send b, rt) ->
  build_upstream_uri parse_uri backend_url (in_path req) (in_query req) = Ok uri ->
  let reply := upstream (upstream_request auth_header value_ok id b uri req body attest) in
  w_router (snd (forwarding body attest w)) =
    match reply with
    | UpstreamOk s _ => on_response clk' (Send b) (outcome_of elapsed b s) rt
    | UpstreamErr _ | UpstreamElapsed => rt
    end /\
  forall s, outcome_failed (outcome_of elapsed b s) = negb (is_success s).
Proof.
  intros Hr Hu reply. split.
  - pose proof (forwarding_cases body attest w) as Hc. rewrite Hr, Hu in Hc.
    cbv zeta in Hc. subst reply. destruct (upstream _) as [s hs|e|]; by rewrite Hc.
  - intros s. unfold outcome_failed, outcome_of, counts_as_failure, is_success. cbn.
    zcases; cbn; lia || done.
Qed.

(** ** Headers *)

(** Neither direction forwards a hop-by-hop header, the inbound [Host] is dropped, and
    every other header is kept, in order. *)
Lemma forwarded_headers_spec (hs : HeaderList) n v :
  (n, v) ∈ forwarded_headers hs <-> (n, v) ∈ hs /\ is_hop_by_hop n = false /\ n <> "host".
Proof.
  unfold forwarded_headers. rewrite list_elem_of_filter. cbn. destruct (is_hop_by_hop n); intuition congruence.
Qed.

(** The client's own [Authorization] is forwarded beside the configured one. *)
Lemma client_authorization_forwarded b uri body attest v :
  ("authorization", v) ∈ in_headers req ->
  ("authorization", v) ∈ up_headers (upstream_request auth_header value_ok id b uri req body attest).
Proof. intros Hv. apply elem_of_app. left. by apply forwarded_headers_spec. Qed.
End handler_proofs.

(** ** A backend that never answers *)
Section silent_upstream.
Context {R0 B T : Type} `{Router R0} `{CapabilityBroker B} `{TenantResolver T}.
Context (backend_url auth_header : string).
Context (value_ok value_text : string -> bool) (parse_uri : string -> result string string).
Context {Value : Type} (Null : Value) (get : Value -> string -> option Value)
        (as_str : Value -> option string) (value_to_vec : Value -> option (list byte))
        (sha256 : list byte -> list byte)
        (from_slice : list byte -> option (JsonRpcEnvelope (Value := Value)))
        (json_ok : list byte -> bool) (json_msg : string).
Context (pool : BackendPool) (sigs : BackendSignals) (resolver : T) (draining : bool).
Context (upstream : UpstreamRequest -> UpstreamResult) (elapsed : Z).
Implicit Types w : World (R := CircuitBreakerArbiter R0) (B := B).

(** One request with its id and clock readings. *)
Definition arrival : Type := RequestId * Z * Clock * Clock * Inbound.

Definition serve w (c : arrival) : World :=
  let '(id, now, clk, clk', req) := c in
  snd (handle backend_url auth_header value_ok value_text parse_uri Null get as_str value_to_vec
         sha256 from_slice json_ok json_msg pool sigs resolver draining upstream elapsed
         id now clk clk' req w).

Lemma serve_closed w c b f :
  (forall u, match upstream u with UpstreamOk _ _ => False | _ => True end) ->
  views (w_router w) b (VClosed f) -> views (w_router (serve w c)) b (VClosed f).
Proof.
  destruct c as [[[[id now] clk] clk'] req]. intros Hup Hv. unfold serve. rewrite handle_split.
  pose proof (admission_frame value_text Null get as_str value_to_vec sha256 from_slice json_ok json_msg
    resolver draining id now req w) as Hf.
  destruct (accept_request _ _ _ _ _ _ _ _ _ _ _ _ _ _ w) as [[[body attest]|r] w1];
    destruct Hf as (Hr & _); [|cbn; by rewrite Hr].
  pose proof (forwarding_cases backend_url auth_header value_ok parse_uri pool sigs upstream elapsed
    id clk clk' req body attest w1) as Hc.
  rewrite <- Hr in Hv.
  pose proof (route_closed clk (build_core_request id (in_method req) (in_path req) body) pool sigs
    (w_router w1) b f Hv) as Hrt.
  cbn [route circuit_router] in Hc.
  destruct (circuit_route _ _ _ _ _) as [[d|d|d] rt]; cbn [snd] in Hrt;
    [destruct (build_upstream_uri _ _ _ _) as [uri|]|..]; cbv zeta in Hc; [|by rewrite Hc..].
  specialize (Hup (upstream_request auth_header value_ok id d uri req body attest)).
  destruct (upstream _); [done|by rewrite Hc..].
Qed.

(** The circuit breaker never learns of an upstream that fails or does not answer in
    time: after any number of such requests through the handler, a closed breaker is
    still closed, with the failures it had. *)
Theorem timeouts_never_trip calls w b f :
  (forall u, match upstream u with UpstreamOk _ _ => False | _ => True end) ->
  views (w_router w) b (VClosed f) ->
  views (w_router (foldl serve w calls)) b (VClosed f) /\
  state_of b (w_router (foldl serve w calls)) = Closed.
Proof.
  intros Hup Hv. assert (Hall : views (w_router (foldl serve w calls)) b (VClosed f)).
  { revert w Hv. induction calls as [|c calls IH]; intros w Hv; [done|]. cbn. by apply IH, serve_closed. }
  split; [done|]. exact (state_of_view _ _ _ Hall).
Qed.
End silent_upstream.

(** ** Concrete runs *)

(** A JSON library whose every document is a call of the denied tool. *)
Definition toy_from_slice (_ : list byte) : option (JsonRpcEnvelope (Value := string)) :=
  Some (mkEnvelope "2.0" "tools/call" "filesystem-write").

Definition toy_handle {R B : Type} `{Router R} `{CapabilityBroker B} (upstream : UpstreamRequest -> UpstreamResult) :=
  handle (R := R) (B := B) "http://up/" "" (fun _ => true) (fun _ => true) (fun s => Ok s) "" (fun v _ => Some v)
    (fun v => Some v) (fun _ => Some []) (fun x => x) toy_from_slice (fun _ => true) "" (mkPool [0])
    (mkSignals []) (mkHeaderResolver) false upstream 0.

Definition mcp_call : Inbound := mkInbound "POST" "/mcp" None [("x-riftgate-tenant", "1")] (Ok []).

Definition toy_broker : CapabilityBroker (AllowlistBroker MemWal) :=
  AllowlistBroker_broker toy_hmac toy_to_vec.

(** The denied tool is answered 403 and the upstream never asked. *)
Lemma mcp_gate_enforced_witness :
  exists b, acme_broker = Some b /\
    let w := mkWorld (mkConstant 0) (Some b) [] [] in
    let '(r, w') := toy_handle (H0 := toy_broker) (fun _ => UpstreamElapsed) 7 0 (fun _ => 0) (fun _ => 0) mcp_call w in
    pr_status r = FORBIDDEN /\ w_sent w' = [].
Proof.
  destruct acme_broker as [b|] eqn:E; [|by vm_compute in E]. exists b. split; [done|]. cbv zeta.
  pose proof (mcp_gate_enforced (H0 := toy_broker) "http://up/" "" (fun _ => true) (fun _ => true) (fun s => Ok s) ""
    (fun v _ => Some v) (fun v => Some v) (fun _ => Some []) (fun x => x) toy_from_slice (fun _ => true) ""
    (mkPool [0]) (mkSignals []) (mkHeaderResolver) false (fun _ => UpstreamElapsed) 0 7 0 (fun _ => 0) (fun _ => 0)
    mcp_call (mkWorld (mkConstant 0) (Some b) [] []) b ltac:(by split) eq_refl) as Hg.
  unfold toy_handle. destruct (handle _ _ _ _ _ _ _ _ _ _ _ _ _ _ _ _ _ _ _ _ _ _ _ _ _) as [r w'].
  vm_compute in E. injection E as <-. unfold gate_promise in Hg. vm_compute in Hg.
  destruct Hg as (_ & -> & Hs & _). split; [done|exact Hs].
Defined.

Definition models : Inbound := mkInbound "GET" "/v1/models" None [] (Ok []).

(** A forwarded request: three polls, of which one gives data. *)
Lemma span_sequence_witness :
  let w := mkWorld (mkConstant 0) (None : option (AllowlistBroker MemWal)) [] [] in
  let '(_, w') := toy_handle (H0 := toy_broker) (fun _ => UpstreamOk 200 []) 7 0 (fun _ => 0) (fun _ => 0) models w in
  length (w_sent w') = 1%nat.
Proof.
  pose proof (span_sequence (H0 := toy_broker) "http://up/" "" (fun _ => true) (fun _ => true) (fun s => Ok s) ""
    (fun v _ => Some v) (fun v => Some v) (fun _ => Some []) (fun x => x) toy_from_slice (fun _ => true) ""
    (mkPool [0]) (mkSignals []) (mkHeaderResolver) false (fun _ => UpstreamOk 200 []) 0 7 0 (fun _ => 0) (fun _ => 0)
    models [Pending; ReadyData [Byte.x00]; ReadyEnd] (mkWorld (mkConstant 0) None [] []) [] None (Send 0) (mkConstant 0)
    ltac:(by vm_compute) ltac:(by vm_compute)) as Hg.
  cbv zeta. unfold toy_handle. destruct (handle _ _ _ _ _ _ _ _ _ _ _ _ _ _ _ _ _ _ _ _ _ _ _ _ _) as [r w'].
  destruct (Hg "http://up/v1/models" ltac:(by vm_compute)) as [-> _]. reflexivity.
Defined.

Definition guarded_world : World (R := CircuitBreakerArbiter ConstantRouter) (B := AllowlistBroker MemWal) :=
  mkWorld (new (mkConstant 0) CircuitBreakerConfig_default) None [] [].

(** Three requests that time out leave the breaker closed. *)
Lemma timeouts_never_trip_witness :
  views (w_router (foldl (serve (H0 := toy_broker) "http://up/" "" (fun _ => true) (fun _ => true) (fun s => Ok s) ""
    (fun v _ => Some v) (fun v => Some v) (fun _ => Some []) (fun x => x) toy_from_slice (fun _ => true) ""
    (mkPool [0]) (mkSignals []) (mkHeaderResolver) false (fun _ => UpstreamElapsed) 0) guarded_world
    (replicate 3 (1, 0, (fun _ => 0), (fun _ => 0), models)))) 0 (VClosed 0).
Proof.
  refine (proj1 (timeouts_never_trip (H0 := toy_broker) "http://up/" "" (fun _ => true) (fun _ => true) (fun s => Ok s) ""
    (fun v _ => Some v) (fun v => Some v) (fun _ => Some []) (fun x => x) toy_from_slice (fun _ => true) ""
    (mkPool [0]) (mkSignals []) (mkHeaderResolver) false (fun _ => UpstreamElapsed) 0 _ guarded_world 0 0 _ _)).
  - done.
  - split; [by vm_compute|unfold in_uint; lia].
Defined.

(** The feedback on one forwarded request, whatever the upstream replies. *)
Lemma breaker_feedback_witness :
  let reply := UpstreamOk 404 [] in
  w_router (snd (forward_request (B := AllowlistBroker MemWal) "http://up/" "" (fun _ => true) (fun s => Ok s)
    (mkPool [0]) (mkSignals []) (fun _ => reply) 5 1 (fun _ => 0) (fun _ => 9) models [] None guarded_world))
  = on_response (fun _ => 9) (Send 0) (outcome_of 5 0 404)
      (snd (circuit_route (fun _ => 0) (build_core_request 1 "GET" "/v1/models" []) (mkPool [0]) (mkSignals [])
        (w_router guarded_world))).
Proof.
  cbv zeta. refine (proj1 (breaker_feedback (B := AllowlistBroker MemWal) "http://up/" "" (fun _ => true) (fun s => Ok s)
    (mkPool [0]) (mkSignals []) (fun _ => UpstreamOk 404 []) 5 1 (fun _ => 0) (fun _ => 9) models [] None
    guarded_world 0 "http://up/v1/models" _ _ _)); by vm_compute.
Defined.
